(* ===== verification/_CoqProject ===== *)
-Q . S2P
Prelude.v
Collections.v
Bytes.v
Encoding.v
External.v
Reference.v
Framing.v
Clock.v
Types.v
Peers.v
Ticket.v
ManifestPath.v
Manifest.v
Merge.v
Storage.v
Digest.v
Auth.v
Scheduling.v
DataDir.v
Shares.v
State.v
Wire.v
LocalFs.v
Partial.v
Streaming.v
Planning.v
Apply.v
Scan.v
ScanSuccess.v
Replicas.v
ShareScan.v
LinkClock.v
Directory.v
App.v
Status.v
Registration.v
Session.v
Convergence.v
Connections.v
PeerSessions.v
Registry.v
ProgressIo.v
Watching.v
Workers.v
Incoming.v
Connectivity.v
Running.v
Reporting.v
Cli.v
