(* ===== verification/Prelude.v ===== *)
(** * Verification of Syncbox

    Syncbox (src/) keeps a directory the same on several machines.  Each machine
    scans its copy into a manifest of files, directories, symbolic links and
    deletions, versioned by a hybrid logical clock; peers that share a secret
    authenticate each other, exchange manifests and file contents, and merge by
    the rule that the last writer wins.  This library models that program as
    executable functions and proves what makes it correct.

    ** Files and sources

    Foundations
    - [Prelude]: the [result] type of the sources ([anyhow::Result] with the static
      part of each message), guards and fallible loops, Rust's [Ord], and the tactics
      [res_inv] and [bool_inv] that take validators apart.
    - [Collections]: stable sorting, binary search as the standard library does it,
      [BTreeMap] as [gmap] with sorted iteration.
    - [Bytes]: bytes, fixed-width integers, saturating and checked arithmetic.
    - [Encoding]: readers of concatenated fields, used by tickets, digests and proofs.
    - [External]: one class per third-party crate (hex, base64, blake3, sha2, hmac,
      iroh): operations as parameters with the documented laws the sources rely on.
      [Reference] gives executable instances for the witnesses.

    Data
    - [Clock] (types/mod.rs): [HlcTimestamp], [ClockState], [tick], [observe].
    - [Types] (types/mod.rs): identifiers, names, configuration, runtime status.
    - [Peers] (types/mod.rs): the known peers and their batched merge.
    - [Ticket] (ticket/mod.rs): tickets and their text form.
    - [ManifestPath] (manifest/path.rs): [std::path] components and manifest paths.
    - [Manifest] (manifest/model.rs, mod.rs, and the hierarchy check of merge.rs).
    - [Merge] (manifest/merge.rs): [select_record] and [merge_manifests].
    - [Digest] (manifest/model.rs): the synchronization digest.

    Storage and state
    - [Storage] (storage/mod.rs, storage/atomic.rs): the state files of a share, with
      a fault at any point of a write.
    - [DataDir], [Shares] (storage/mod.rs, storage/locks.rs, identity/mod.rs): the data
      directory, its locks, the registration and removal of a share's state, the
      identity of the device.
    - [Scheduling] (network/scheduling.rs): scan pacing, backoff, due peers.
    - [State] (network/state.rs, runtime/mod.rs): the caches of a running share.

    Scans
    - [Scan], [ScanSuccess] (manifest/scan.rs): discovery, hashing, comparison with the
      previous manifest; when a scan is right and when it succeeds.  [Replicas] puts
      scans and applied manifests of any number of devices together.
    - [ShareScan] (network/state.rs): the scan of a running share and its writes;
      [LinkClock] follows the clock through an application and the next scan.
    - [Watching] (network/lifecycle.rs): the callback of the file watcher, which may lose
      changes, and the flags it shares with the worker, as interleaved steps.

    Network
    - [Framing] (chunk/mod.rs, frame/mod.rs): chunk frames and JSON frames.
    - [Auth] (network/auth.rs): the mutual handshake.
    - [Wire] (network/wire.rs): messages and validators.
    - [LocalFs] (network/local.rs): the shared tree, names to nodes with a mode and
      an owner class, and every operation on it.
    - [Partial], [Planning], [Streaming], [Apply] (network/transfer.rs): partial
      downloads, what a transfer consists of, its chunk streams, and the application
      of what was received.
    - [Session] (network/client.rs, network/incoming.rs): both sides of a session;
      [Convergence] composes them.
    - [Connections] (network/connection_cache.rs, network/transport.rs): the connection
      pool and the tasks that open streams, interleaved.
    - [ProgressIo] (network/io.rs): the idle deadline of a stream.
    - [PeerSessions] (network/peer_sessions.rs), [Workers] (network/workers.rs): the
      sessions of a share, its status, its worker and the supervisor.
    - [Incoming] (network/lifecycle.rs, network/incoming.rs): the accept loop and the
      handlers of connections and streams, interleaved.
    - [Connectivity] (network/connectivity.rs): retries after network changes.
    - [Registry] (network/registry.rs): the running shares and the first
      synchronization of a joined one.
    - [Running] (network/mod.rs, network/lifecycle.rs, [App::run]): a run from the load of
      the registry to the last status, over the one disk all shares have in common.

    Application
    - [Directory] (app/directory.rs), [App] (app/mod.rs): the commands over the data
      directory; [Registration] shows what sequences of them keep.
    - [Status] (app/mod.rs, app/status.rs): the status report; [Reporting] shows what it
      says of a run.
    - [Cli] (main.rs): the commands, what they print, and the exit code.

    State is passed explicitly.  A function of the source that changes files or the
    share returns the new state beside its [result], so that what a failed operation
    left behind is part of the model.  Clocks, random numbers, umasks, the sizes of
    reads and the failures of system calls are arguments.  Where tasks share state
    without a lock around the whole operation ([Connections], [Incoming], [Watching],
    [Connectivity]) the model is a machine whose steps are what a task does between two
    points where another can run.

    ** What the theorems show

    - Convergence: merging is the maximum by version with deletions winning ties
      ([Merge]); in every history of scans and applications records of one version have
      one content, up to the time of a file, which each device keeps for itself, so
      devices that merged the same manifests hold the same records up to that time
      ([Replicas]); applying a transfer gives the merge, except for files still pending
      ([Apply]); versions issued later are greater than all that were issued or observed
      ([Clock], [Apply]), but the versions of links are not observed ([LinkClock]).
    - Safety of contents: a download is complete only with the announced size and hash
      whatever the peer sends, an honest transfer completes, and an interrupted one
      resumes ([Streaming]).
    - Safety of the shared tree: no operation follows a symbolic link out of the tree;
      the modes of the directories it makes writable are restored, after an error only as
      far as their owner can change modes; where that never fails no node but the target
      changes ([LocalFs], [ManifestPath]).
    - Scans: a successful scan describes the directory, where the fast path may reuse the
      digest of a record with equal metadata; it finds nothing the second time, and wins
      over the previous manifest where the clock covers that; it succeeds on readable
      directories; a clock on disk that is ahead of the manifest stays so ([Scan],
      [ScanSuccess], [ShareScan]); a change that the watcher reports makes a scan due in
      five seconds, one that it loses in a minute ([Watching]).
    - Sessions: two peers that both report success hold the merge of their manifests,
      except for what they count as pending, if nothing else changes the shares
      meanwhile ([Convergence]).
    - Protocol: what one side plans the other accepts ([Planning], [Wire]); the handshake
      of two holders of a secret succeeds, and a proof is accepted for one transcript only
      ([Auth]); frames, tickets and digests are unambiguous ([Framing], [Ticket], [Digest]).
    - Concurrency: the limits of the pool, of sessions, handlers and streams hold in
      every interleaving, opening a stream, a round over the peers and the shutdown of a
      worker end, and network changes are retried ([Connections], [PeerSessions],
      [Workers], [Incoming], [Connectivity]).
    - Validation decides the specified conditions and its caches and shortcuts change
      nothing ([Manifest], [Peers], [Scheduling]).
    - Durability: a state file is old or new in full at any crash, the manifest a share
      hands out is the one on disk, registration and removal are atomic, and a joined
      share stays joined ([Storage], [State], [Shares], [Registry]).
    - Application: shares stay isolated from each other, as long as the registered paths
      keep resolving to where they did; the ticket of a share joins it, and a printed
      ticket parses ([Registration], [Cli]); the status does not depend on any secret
      ([Cli]).
    - Runs: when the cycles of a run end every share is stopped, and every other ending is
      accounted for; heartbeats keep a share reported as running while the process that its
      status records lives; after a crash that is not the process of the next run, because
      the process ID of the status is not replaced ([Running], [Reporting]).

    ** Fuel

    [read_frame_loop] has one unit per byte of the frame, [receive_loop] and
    [hash_loop] one per byte of their input, [send_loop] one per byte left to send,
    each plus one: every round takes at least one byte, and lemmas show that the fuel
    is never exhausted.  [peers_loop] has one unit per due peer and [drain_loop] one per
    session: every round ends a session, so both always return.  [worker_loop],
    [run_share_workers] and the machines run for as many rounds, events or actions as they
    are given; a run or a command that has not ended is [None].

    ** Not modelled

    The Windows and non-Unix builds; lock poisoning; interleaving inside a session: the
    source holds the operation lock of a share for its snapshot and again for the
    application, and a scan or another session may come in between, while [Session] is one
    uninterrupted sequence; failures of the storage below a process: in [Storage] a write
    can stop at any point, but fsync has no effect and the removal of a temporary file
    does not fail; timers and signals, which are
    arguments or the steps of a machine; the configuration of the endpoint, its discovery
    and its diagnostics; tokio, QUIC, the sources of watcher events, logging, and the
    parsing of the command line (clap).  In [Running] the work of the tasks between the
    start and the end of a run is the sequence of their operations on the shares. *)

From Stdlib Require Export Strings.Byte.
From stdpp Require Export base gmap sorting strings countable numbers list.

Global Unset Program Cases.
#[global] Open Scope Z_scope.

(** ** Results

    [anyhow::Result]: an [Err] carries the static text of the message; the
    interpolated arguments and the context chain of the source are dropped. *)

Inductive result (A : Type) : Type :=
| Ok (a : A)
| Err (message : string).
Arguments Ok {_} _.
Arguments Err {_} _.

Global Instance result_ret : MRet result := @Ok.
Global Instance result_bind : MBind result := λ A B f r,
  match r with Ok a => f a | Err e => Err e end.
Global Instance result_fmap : FMap result := λ A B f r,
  match r with Ok a => Ok (f a) | Err e => Err e end.

(** [bail!] under a condition, the guard clause of the source. *)
Definition bail_if (b : bool) (message : string) : result unit :=
  if b then Err message else Ok tt.

(** [Option::ok_or_else]. *)
Definition ok_or {A} (o : option A) (message : string) : result A :=
  match o with Some a => Ok a | None => Err message end.

Definition is_ok {A} (r : result A) : bool :=
  match r with Ok _ => true | Err _ => false end.

Definition result_ok {A} (r : result A) : option A :=
  match r with Ok a => Some a | Err _ => None end.

(** A [for] loop whose body may return early with an error. *)
Fixpoint try_for {A} (f : A → result unit) (l : list A) : result unit :=
  match l with
  | [] => Ok tt
  | x :: l' => f x;; try_for f l'
  end.

(** A [for] loop that threads a mutable accumulator and may return early. *)
Fixpoint try_fold {A S} (f : S → A → result S) (l : list A) (s : S) : result S :=
  match l with
  | [] => Ok s
  | x :: l' => s' ← f s x; try_fold f l' s'
  end.

(** [iter().map(f).collect::<Result<Vec<_>>>()]. *)
Fixpoint try_map {A B} (f : A → result B) (l : list A) : result (list B) :=
  match l with
  | [] => Ok []
  | x :: l' => y ← f x; ys ← try_map f l'; Ok (y :: ys)
  end.

(** Case analysis on the conditional that decides a result. *)
Ltac res_if :=
  match goal with
  | H : (if ?b then _ else _) = Ok _ |- _ =>
      let E := fresh "E" in destruct b eqn:E; try discriminate H
  end.

(** Breaks every [result] bind in the context whose outcome is known. *)
Ltac res_step :=
  match goal with
  | H : Ok _ = Ok _ |- _ => injection H as H; try subst
  | H : Ok _ = Err _ |- _ => discriminate H
  | H : Err _ = Ok _ |- _ => discriminate H
  | H : Err _ = Err _ |- _ => injection H as H
  | H : mbind _ ?r = Ok _ |- _ =>
      let E := fresh "E" in
      destruct r eqn:E; cbn [mbind result_bind] in H; [| discriminate H]
  | H : bail_if ?b _ = Ok _ |- _ =>
      let E := fresh "E" in
      destruct b eqn:E; cbn [bail_if] in H; [discriminate H | clear H]
  | H : ok_or ?o _ = Ok _ |- _ =>
      let E := fresh "E" in
      destruct o eqn:E; cbn [ok_or] in H; [| discriminate H]
  | H : (let '(_, _) := ?p in _) = Ok _ |- _ => is_var p; destruct p
  end.
Ltac res_inv := repeat res_step.

(** Turns the boolean tests of the context into propositions. *)
Ltac bool_inv := repeat
  match goal with
  | H : _ || _ = false |- _ => apply orb_false_iff in H as [? ?]
  | H : _ && _ = true |- _ => apply andb_true_iff in H as [? ?]
  | H : negb _ = false |- _ => apply negb_false_iff in H
  | H : negb _ = true |- _ => apply negb_true_iff in H
  | H : bool_decide _ = true |- _ => apply bool_decide_eq_true in H
  | H : bool_decide _ = false |- _ => apply bool_decide_eq_false in H
  | H : (_ <? _) = true |- _ => apply Z.ltb_lt in H
  | H : (_ <? _) = false |- _ => apply Z.ltb_ge in H
  | H : (_ <=? _) = true |- _ => apply Z.leb_le in H
  | H : (_ <=? _) = false |- _ => apply Z.leb_gt in H
  | H : (_ =? _) = true |- _ => apply Z.eqb_eq in H
  | H : (_ =? _) = false |- _ => apply Z.eqb_neq in H
  end.

Lemma bind_Ok {A B} (r : result A) (f : A → result B) b :
  mbind f r = Ok b ↔ ∃ a, r = Ok a ∧ f a = Ok b.
Proof. destruct r; simpl; naive_solver. Qed.

Lemma bail_if_Ok b e : bail_if b e = Ok tt ↔ b = false.
Proof. destruct b; simpl; naive_solver. Qed.

Lemma ok_or_Ok {A} (o : option A) e a : ok_or o e = Ok a ↔ o = Some a.
Proof. destruct o; simpl; naive_solver. Qed.

Lemma try_for_Ok {A} (f : A → result unit) l :
  try_for f l = Ok tt ↔ Forall (λ x, f x = Ok tt) l.
Proof.
  induction l as [|x l IH]; simpl; [by split|].
  rewrite Forall_cons_iff, <-IH. destruct (f x) as [[]|]; simpl; naive_solver.
Qed.

Lemma try_for_is_ok {A} (f : A → result unit) l :
  is_ok (try_for f l) = forallb (λ x, is_ok (f x)) l.
Proof. induction l as [|x l IH]; simpl; [done|]. by destruct (f x). Qed.

Lemma try_map_ext {A B} (f g : A → result B) l : (∀ x, f x = g x) → try_map f l = try_map g l.
Proof. intros Hfg. induction l as [|x l IH]; simpl; [done|]. by rewrite Hfg, IH. Qed.

Lemma try_map_Ok {A B} (f : A → result B) l k :
  try_map f l = Ok k ↔ Forall2 (λ x y, f x = Ok y) l k.
Proof.
  revert k. induction l as [|x l IH]; intros k; simpl.
  - split; [intros [= <-]; constructor | by inversion 1].
  - split.
    + intros H. res_inv. constructor; [done|]. by apply IH.
    + inversion 1 as [|? y ? ys Hx Hl]; subst. rewrite Hx; simpl.
      by rewrite (proj2 (IH ys) Hl).
Qed.

Lemma try_fold_app {A S} (f : S → A → result S) l1 l2 s :
  try_fold f (l1 ++ l2) s = (s' ← try_fold f l1 s; try_fold f l2 s').
Proof.
  revert s. induction l1 as [|x l1 IH]; intros s; simpl; [done|].
  destruct (f s x); simpl; auto.
Qed.

(** An invariant of a fallible loop. *)
Lemma try_fold_inv {A S} (P : S → Prop) (f : S → A → result S) l s s' :
  (∀ s x s', x ∈ l → P s → f s x = Ok s' → P s') →
  P s → try_fold f l s = Ok s' → P s'.
Proof.
  revert s. induction l as [|x l IH]; intros s Hf Hs H; simpl in H; res_inv; [done|].
  eapply IH; [|by eapply Hf; [left|..]|done].
  intros ?????; eapply Hf; [by right|done..].
Qed.

(** An invariant of a fallible loop that depends on the elements done so far. *)
Lemma try_fold_prefix {A S} (P : list A → S → Prop) (f : S → A → result S) l s s' :
  (∀ seen x rest s s', l = seen ++ x :: rest → P seen s → f s x = Ok s' → P (seen ++ [x]) s') →
  P [] s → try_fold f l s = Ok s' → P l s'.
Proof.
  intros Hf. assert (Hgen : ∀ rest seen s, l = seen ++ rest → P seen s →
    try_fold f rest s = Ok s' → P l s').
  { induction rest as [|x rest IH]; intros seen s0 Hl Hs H; simpl in H.
    - injection H as <-. by rewrite Hl, app_nil_r.
    - destruct (f s0 x) as [s1|] eqn:Ef; [|done].
      eapply (IH (seen ++ [x])); [by rewrite <-app_assoc|by eapply Hf|done]. }
  by apply (Hgen l []).
Qed.

(** A fallible loop succeeds when an invariant lets every round succeed. *)
Lemma try_fold_succeeds {A S} (P : list A → S → Prop) (f : S → A → result S) l s :
  (∀ seen x rest s, l = seen ++ x :: rest → P seen s →
    ∃ s', f s x = Ok s' ∧ P (seen ++ [x]) s') →
  P [] s → ∃ s', try_fold f l s = Ok s' ∧ P l s'.
Proof.
  intros Hf. assert (Hgen : ∀ rest seen s, l = seen ++ rest → P seen s →
    ∃ s', try_fold f rest s = Ok s' ∧ P l s').
  { induction rest as [|x rest IH]; intros seen s0 E Hs; simpl.
    - exists s0. split; [done|]. by rewrite E, app_nil_r.
    - destruct (Hf seen x rest s0 E Hs) as (s1 & -> & Hs1). simpl.
      apply (IH (seen ++ [x])); [by rewrite <-app_assoc|done]. }
  by apply (Hgen l []).
Qed.

(** ** Total orders: Rust's [Ord] *)

Class Ord (A : Type) := cmp : A → A → comparison.
Class TotalOrd (A : Type) `{!Ord A} : Prop := {
  cmp_eq (x y : A) : cmp x y = Eq ↔ x = y;
  cmp_antisym (x y : A) : cmp y x = CompOpp (cmp x y);
  cmp_trans (x y z : A) : cmp x y = Lt → cmp y z = Lt → cmp x z = Lt;
}.
Global Hint Mode Ord ! : typeclass_instances.

Definition ltb {A} `{!Ord A} (x y : A) : bool :=
  match cmp x y with Lt => true | _ => false end.
Definition leb {A} `{!Ord A} (x y : A) : bool :=
  match cmp x y with Gt => false | _ => true end.
Definition eqb {A} `{!Ord A} (x y : A) : bool :=
  match cmp x y with Eq => true | _ => false end.

Section total_order.
Context {A : Type} `{TotalOrd A}.
Implicit Types x y z : A.

Lemma cmp_refl x : cmp x x = Eq.
Proof. by apply cmp_eq. Qed.
Lemma cmp_gt_lt x y : cmp x y = Gt ↔ cmp y x = Lt.
Proof. rewrite (cmp_antisym x y). by destruct (cmp x y). Qed.
Lemma ltb_lt x y : ltb x y = true ↔ cmp x y = Lt.
Proof. unfold ltb. by destruct (cmp x y). Qed.
Lemma eqb_eq x y : eqb x y = true ↔ x = y.
Proof. unfold eqb. rewrite <-cmp_eq. by destruct (cmp x y). Qed.
Lemma eqb_true x y : eqb x y = true → x = y.
Proof. apply eqb_eq. Qed.
Lemma eqb_false x y : eqb x y = false ↔ x ≠ y.
Proof. rewrite <-eqb_eq. by destruct (eqb x y). Qed.
Lemma eqb_refl x : eqb x x = true.
Proof. by apply eqb_eq. Qed.
Lemma ltb_irrefl x : ltb x x = false.
Proof. unfold ltb. by rewrite cmp_refl. Qed.
Lemma leb_refl x : leb x x = true.
Proof. unfold leb. by rewrite cmp_refl. Qed.
Lemma leb_ltb x y : leb x y = negb (ltb y x).
Proof. unfold leb, ltb. rewrite (cmp_antisym x y). by destruct (cmp x y). Qed.
Lemma ltb_leb x y : ltb x y = true → leb x y = true.
Proof. unfold leb, ltb. by destruct (cmp x y). Qed.
Lemma leb_cases x y : leb x y = true ↔ x = y ∨ ltb x y = true.
Proof.
  unfold leb, ltb. rewrite <-cmp_eq. destruct (cmp x y); naive_solver.
Qed.
Lemma ltb_trans x y z : ltb x y = true → ltb y z = true → ltb x z = true.
Proof. rewrite !ltb_lt. apply cmp_trans. Qed.
Lemma leb_trans x y z : leb x y = true → leb y z = true → leb x z = true.
Proof.
  rewrite !leb_cases. intros [->|?] [->|?]; auto. right; by eapply ltb_trans.
Qed.
Lemma leb_ltb_trans x y z : leb x y = true → ltb y z = true → ltb x z = true.
Proof. rewrite leb_cases. intros [->|?]; [done|]. by apply ltb_trans. Qed.
Lemma ltb_leb_trans x y z : ltb x y = true → leb y z = true → ltb x z = true.
Proof. rewrite leb_cases. intros ? [<-|?]; [done|]. by eapply ltb_trans. Qed.
Lemma leb_antisym x y : leb x y = true → leb y x = true → x = y.
Proof.
  unfold leb. rewrite (cmp_antisym x y), <-cmp_eq. by destruct (cmp x y).
Qed.
Lemma leb_total x y : leb x y = true ∨ leb y x = true.
Proof. unfold leb. rewrite (cmp_antisym x y). destruct (cmp x y); simpl; auto. Qed.
Lemma ltb_not_eq x y : ltb x y = true → x ≠ y.
Proof. intros Hlt ->. by rewrite ltb_irrefl in Hlt. Qed.
Lemma ltb_asym x y : ltb x y = true → ltb y x = false.
Proof. unfold ltb. rewrite (cmp_antisym x y). by destruct (cmp x y). Qed.
End total_order.

Create HintDb order.
#[export] Hint Resolve leb_refl ltb_leb ltb_trans leb_trans leb_ltb_trans ltb_leb_trans : order.
#[export] Hint Resolve leb_antisym ltb_irrefl ltb_asym ltb_not_eq : order.

Global Instance Z_ord : Ord Z := Z.compare.
Global Instance Z_total : TotalOrd Z.
Proof.
  split; unfold cmp, Z_ord.
  - apply Z.compare_eq_iff.
  - intros x y. apply Z.compare_antisym.
  - intros x y z. rewrite !Z.compare_lt_iff. lia.
Qed.

Lemma Z_ltb_lt (x y : Z) : ltb x y = true ↔ x < y.
Proof. rewrite ltb_lt. apply Z.compare_lt_iff. Qed.
Lemma Z_leb_le (x y : Z) : leb x y = true ↔ x ≤ y.
Proof. unfold leb, cmp, Z_ord, Z.le. destruct (x ?= y); naive_solver. Qed.

Global Instance bool_ord : Ord bool := λ x y,
  match x, y with false, true => Lt | true, false => Gt | _, _ => Eq end.
Global Instance bool_total : TotalOrd bool.
Proof. split; intros [] []; try intros []; cbv; intuition congruence. Qed.

(** [Ordering::then_with]. *)
Definition then_with (c d : comparison) : comparison :=
  match c with Eq => d | _ => c end.

Global Instance prod_ord {A B} `{!Ord A, !Ord B} : Ord (A * B) := λ x y,
  then_with (cmp x.1 y.1) (cmp x.2 y.2).
Global Instance prod_total {A B} `{TotalOrd A, TotalOrd B} : TotalOrd (A * B).
Proof.
  split; unfold cmp, prod_ord, then_with.
  - intros [x1 x2] [y1 y2]; simpl.
    pose proof (cmp_eq x1 y1). pose proof (cmp_eq x2 y2).
    destruct (cmp x1 y1), (cmp x2 y2); naive_solver.
  - intros [x1 x2] [y1 y2]; simpl. rewrite (cmp_antisym x1 y1), (cmp_antisym x2 y2).
    by destruct (cmp x1 y1), (cmp x2 y2).
  - intros [x1 x2] [y1 y2] [z1 z2]; simpl.
    destruct (cmp x1 y1) eqn:E1, (cmp y1 z1) eqn:E2; intros H1' H2'; try done.
    + apply cmp_eq in E1 as ->, E2 as ->. rewrite cmp_refl. by eapply cmp_trans.
    + apply cmp_eq in E1 as ->. by rewrite E2.
    + apply cmp_eq in E2 as ->. by rewrite E1.
    + by rewrite (cmp_trans _ _ _ E1 E2).
Qed.

(** Rust's derived order on [Option]: [None] before every [Some]. *)
Global Instance option_ord {A} `{!Ord A} : Ord (option A) := λ x y,
  match x, y with
  | None, None => Eq
  | None, Some _ => Lt
  | Some _, None => Gt
  | Some a, Some b => cmp a b
  end.
Global Instance option_total {A} `{TotalOrd A} : TotalOrd (option A).
Proof.
  split.
  - intros [x|] [y|]; unfold cmp, option_ord; [|naive_solver..].
    fold (cmp x y). rewrite cmp_eq. naive_solver.
  - intros [x|] [y|]; try done. apply (cmp_antisym (A:=A)).
  - intros [x|] [y|] [z|]; try done. apply (cmp_trans (A:=A)).
Qed.

(** Lexicographic order on sequences: [str], [[u8]] and [[u8; N]]. *)
Fixpoint list_cmp {A} `{!Ord A} (l r : list A) : comparison :=
  match l, r with
  | [], [] => Eq
  | [], _ :: _ => Lt
  | _ :: _, [] => Gt
  | x :: l', y :: r' => then_with (cmp x y) (list_cmp l' r')
  end.
Global Instance list_ord {A} `{!Ord A} : Ord (list A) := list_cmp.
Global Instance list_total {A} `{TotalOrd A} : TotalOrd (list A).
Proof.
  unfold then_with. split; unfold cmp, list_ord.
  - induction x as [|x l IH]; intros [|y r]; simpl; try done.
    unfold then_with. pose proof (cmp_eq x y). specialize (IH r).
    destruct (cmp x y); naive_solver.
  - induction x as [|x l IH]; intros [|y r]; simpl; try done.
    rewrite (cmp_antisym x y), IH. by destruct (cmp x y).
  - induction x as [|x l IH]; intros [|y r] [|z t]; simpl; try done.
    unfold then_with.
    destruct (cmp x y) eqn:E1, (cmp y z) eqn:E2; intros H1 H2; try done.
    + apply cmp_eq in E1 as ->, E2 as ->. rewrite cmp_refl. by eapply IH.
    + apply cmp_eq in E1 as ->. by rewrite E2.
    + apply cmp_eq in E2 as ->. by rewrite E1.
    + by rewrite (cmp_trans _ _ _ E1 E2).
Qed.
