(* ===== verification/Collections.v ===== *)
(** * Ordered collections

    What the sources use of Rust's ordered collections: the stable
    [slice::sort_by], [slice::is_sorted_by], [slice::binary_search_by] and the
    in-order iteration of [BTreeMap].  A [BTreeMap<K, V>] is a [gmap K V]; its
    iteration is the list of its bindings sorted by key. *)

From S2P Require Import Prelude.

(** ** Stable sorting by a key *)

Section sort.
Context {A K : Type} `{TotalOrd K} (key : A → K).

Fixpoint insert_by (x : A) (l : list A) : list A :=
  match l with
  | [] => [x]
  | y :: l' => if leb (key x) (key y) then x :: y :: l' else y :: insert_by x l'
  end.

(** [sort_by(|l, r| key(l).cmp(&key(r)))]: stable, so that elements with equal
    keys keep their order. *)
Definition sort_by (l : list A) : list A := foldr insert_by [] l.

Definition key_le (x y : A) : Prop := leb (key x) (key y) = true.
Definition key_lt (x y : A) : Prop := ltb (key x) (key y) = true.

(** The sublist of the elements with one key. *)
Definition with_key (k : K) (l : list A) : list A :=
  List.filter (λ x, eqb (key x) k) l.

Lemma insert_by_perm x l : insert_by x l ≡ₚ x :: l.
Proof.
  induction l as [|y l IH]; simpl; [done|].
  destruct (leb _ _); [done|]. rewrite IH. apply perm_swap.
Qed.

Lemma sort_by_perm l : sort_by l ≡ₚ l.
Proof.
  induction l as [|x l IH]; simpl; [done|]. by rewrite insert_by_perm, IH.
Qed.

Lemma sort_by_nil_inv l : sort_by l = [] → l = [].
Proof. intros E. apply Permutation_nil. by rewrite <-E, sort_by_perm. Qed.

Lemma insert_by_sorted x l :
  StronglySorted key_le l → StronglySorted key_le (insert_by x l).
Proof.
  induction 1 as [|y l Hs IH Hf]; simpl; [by repeat constructor|].
  destruct (leb (key x) (key y)) eqn:E.
  - repeat constructor; try done.
    eapply Forall_impl; [exact Hf|]. intros z Hz. by eapply leb_trans.
  - constructor; [done|]. rewrite insert_by_perm. constructor; [|done].
    unfold key_le. destruct (leb_total (key y) (key x)); congruence.
Qed.

Lemma sort_by_sorted l : StronglySorted key_le (sort_by l).
Proof. induction l; simpl; [constructor|]. by apply insert_by_sorted. Qed.

Lemma with_key_insert_by k x l :
  with_key k (insert_by x l) = with_key k (x :: l).
Proof.
  induction l as [|y l IH]; simpl; [done|].
  destruct (leb (key x) (key y)) eqn:E; [done|]. simpl.
  unfold with_key in *. simpl in *. rewrite IH.
  destruct (eqb (key x) k) eqn:E1, (eqb (key y) k) eqn:E2; try done.
  apply eqb_true in E1 as <-. apply eqb_true in E2. by rewrite E2, leb_refl in E.
Qed.

(** Stability. *)
Lemma with_key_sort_by k l : with_key k (sort_by l) = with_key k l.
Proof.
  induction l as [|x l IH]; simpl; [done|]. rewrite with_key_insert_by.
  unfold with_key in *. simpl. by rewrite IH.
Qed.

Lemma with_key_app k l1 l2 : with_key k (l1 ++ l2) = with_key k l1 ++ with_key k l2.
Proof. apply List.filter_app. Qed.

Lemma with_key_nil_iff k l : with_key k l = [] ↔ k ∉ map key l.
Proof.
  unfold with_key. induction l as [|x l IH]; simpl; [set_solver|].
  destruct (eqb (key x) k) eqn:E.
  - apply eqb_true in E as <-. split; [done|set_solver].
  - rewrite IH, not_elem_of_cons. split; [|naive_solver].
    intros ?; split; [|done]. intros ->. by rewrite eqb_refl in E.
Qed.

(** A sorted list is determined by its sublists of equal keys. *)
Lemma sorted_with_key_eq l1 l2 :
  StronglySorted key_le l1 → StronglySorted key_le l2 →
  (∀ k, with_key k l1 = with_key k l2) → l1 = l2.
Proof.
  intros H1. revert l2. induction H1 as [|x l1 Hs1 IH Hf1]; intros l2 H2 Heq.
  - destruct l2 as [|y l2]; [done|]. specialize (Heq (key y)).
    unfold with_key in Heq. simpl in Heq. by rewrite eqb_refl in Heq.
  - destruct H2 as [|y l2 Hs2 Hf2].
    { specialize (Heq (key x)). unfold with_key in Heq. simpl in Heq.
      by rewrite eqb_refl in Heq. }
    assert (Hmem : ∀ a l k, with_key k (a :: l) =
      if eqb (key a) k then a :: with_key k l else with_key k l) by done.
    assert (Hhd : ∀ (l l' : list A) a b, with_key (key a) (a :: l) = with_key (key a) (b :: l') →
      Forall (key_le b) l' → key_le b a).
    { intros l l' a b E Hf. rewrite !Hmem, eqb_refl in E.
      destruct (eqb (key b) (key a)) eqn:E'.
      { apply eqb_true in E'. unfold key_le. rewrite E'. apply leb_refl. }
      assert (Hin : a ∈ with_key (key a) l') by (rewrite <-E; left).
      unfold with_key in Hin. rewrite list_elem_of_In in Hin.
      apply filter_In in Hin as [Hin _]. rewrite List.Forall_forall in Hf. auto. }
    assert (Hk : key x = key y).
    { apply leb_antisym.
      - eapply (Hhd l2 l1 y x); [by rewrite Heq|done].
      - eapply (Hhd l1 l2 x y); [by rewrite Heq|done]. }
    pose proof (Heq (key x)) as Hx. rewrite !Hmem, <-Hk, eqb_refl in Hx.
    injection Hx as <- Hx. f_equal. apply IH; [done|]. intros k.
    specialize (Heq k). rewrite !Hmem in Heq.
    destruct (eqb (key x) k); [by injection Heq|done].
Qed.

Lemma sort_by_eq l1 l2 : (∀ k, with_key k l1 = with_key k l2) → sort_by l1 = sort_by l2.
Proof.
  intros Heq. apply sorted_with_key_eq; [apply sort_by_sorted..|].
  intros k. by rewrite !with_key_sort_by.
Qed.

Lemma sort_by_id l : StronglySorted key_le l → sort_by l = l.
Proof.
  intros Hs. apply sorted_with_key_eq; [apply sort_by_sorted|done|].
  intros k. apply with_key_sort_by.
Qed.

Lemma sort_by_app_sort l r : sort_by (sort_by l ++ r) = sort_by (l ++ r).
Proof.
  apply sort_by_eq. intros k. by rewrite !with_key_app, with_key_sort_by.
Qed.

(** Insertion behind the elements with a smaller or equal key. *)
Fixpoint insert_after (x : A) (l : list A) : list A :=
  match l with
  | [] => [x]
  | y :: l' => if ltb (key x) (key y) then x :: y :: l' else y :: insert_after x l'
  end.

Lemma insert_after_perm x l : insert_after x l ≡ₚ x :: l.
Proof.
  induction l as [|y l IH]; simpl; [done|].
  destruct (ltb _ _); [done|]. rewrite IH. apply perm_swap.
Qed.

Lemma insert_after_sorted x l :
  StronglySorted key_le l → StronglySorted key_le (insert_after x l).
Proof.
  induction 1 as [|y l Hs IH Hall]; simpl; [repeat constructor|].
  destruct (ltb (key x) (key y)) eqn:E.
  - constructor; [by constructor|]. constructor; [by apply ltb_leb|].
    eapply Forall_impl; [done|]. intros z Hz. eapply leb_trans; [by apply ltb_leb|done].
  - constructor; [done|]. rewrite insert_after_perm. constructor; [|done].
    unfold key_le. by rewrite leb_ltb, E.
Qed.

Lemma with_key_insert_after k x l :
  StronglySorted key_le l → with_key k (insert_after x l) = with_key k l ++ with_key k [x].
Proof.
  induction 1 as [|y l Hs IH Hall]; cbn [insert_after]; [done|].
  destruct (ltb (key x) (key y)) eqn:E.
  - change (x :: y :: l) with ([x] ++ (y :: l)). rewrite with_key_app.
    destruct (eqb (key x) k) eqn:Ek.
    + apply eqb_true in Ek as <-. rewrite (proj2 (with_key_nil_iff (key x) (y :: l))).
      * by rewrite app_nil_r.
      * rewrite list_elem_of_In, in_map_iff. intros (z & Ez & Hz).
        assert (ltb (key x) (key z) = true) as Hlt.
        { destruct Hz as [<-|Hz]; [done|]. eapply ltb_leb_trans; [exact E|].
          rewrite List.Forall_forall in Hall. by apply Hall. }
        rewrite Ez, ltb_irrefl in Hlt. done.
    + unfold with_key at 1 4. simpl. rewrite Ek. by rewrite app_nil_r.
  - change (y :: insert_after x l) with ([y] ++ insert_after x l).
    change (y :: l) with ([y] ++ l). by rewrite !with_key_app, IH, app_assoc.
Qed.

Lemma sort_by_snoc l x : sort_by (l ++ [x]) = insert_after x (sort_by l).
Proof.
  apply sorted_with_key_eq; [apply sort_by_sorted|apply insert_after_sorted, sort_by_sorted|].
  intros k. rewrite with_key_insert_after by apply sort_by_sorted.
  by rewrite !with_key_sort_by, with_key_app.
Qed.

(** Sorting is invariant under permutation when the keys are distinct. *)
Lemma sort_by_perm_eq l1 l2 : NoDup (map key l1) → l1 ≡ₚ l2 → sort_by l1 = sort_by l2.
Proof.
  intros Hnd Hp. apply sort_by_eq. intros k.
  assert (Hw : with_key k l1 ≡ₚ with_key k l2).
  { unfold with_key. clear Hnd. induction Hp; simpl; [done| | |by etrans].
    - destruct (eqb _ _); [by constructor|done].
    - destruct (eqb (key x) k), (eqb (key y) k); try done. constructor. }
  assert (Hlen : (length (with_key k l1) ≤ 1)%nat).
  { clear Hw Hp. unfold with_key. induction l1 as [|x l1 IH]; simpl; [lia|].
    inversion Hnd as [|? ? Hni Hnd']; subst. specialize (IH Hnd').
    destruct (eqb (key x) k) eqn:E; [|done]. apply eqb_true in E as <-.
    apply with_key_nil_iff in Hni. unfold with_key in Hni. by rewrite Hni. }
  destruct (with_key k l1) as [|a [|b w]]; simpl in Hlen; [| |lia].
  - symmetry. by apply Permutation_nil.
  - symmetry. by apply Permutation_singleton_r.
Qed.

Lemma sorted_le_lt l :
  StronglySorted key_le l → NoDup (map key l) → StronglySorted key_lt l.
Proof.
  induction 1 as [|x l Hs IH Hf]; simpl; intros Hnd; [constructor|].
  inversion Hnd as [|? ? Hni Hnd']; subst. constructor; [auto|].
  rewrite List.Forall_forall in *. intros y Hy. specialize (Hf y Hy).
  apply leb_cases in Hf as [Hf|Hf]; [|done]. destruct Hni.
  rewrite Hf. by apply list_elem_of_In, in_map.
Qed.

Lemma sorted_lt_le l : StronglySorted key_lt l → StronglySorted key_le l.
Proof.
  induction 1 as [|x l ? IH Hf]; constructor; [done|].
  eapply Forall_impl; [exact Hf|]. intros y. apply ltb_leb.
Qed.

Lemma sorted_lt_nodup l : StronglySorted key_lt l → NoDup (map key l).
Proof.
  induction 1 as [|x l ? IH Hf]; simpl; constructor; [|done].
  rewrite list_elem_of_In, in_map_iff. intros (y & Ey & Hy).
  rewrite List.Forall_forall in Hf. specialize (Hf y Hy).
  unfold key_lt in Hf. by rewrite Ey, ltb_irrefl in Hf.
Qed.
End sort.

(** Only the keys of the elements matter. *)
Lemma insert_by_ext {A K : Type} `{TotalOrd K} (f g : A → K) (x : A) (l : list A) :
  f x = g x → (∀ y, y ∈ l → f y = g y) → insert_by f x l = insert_by g x l.
Proof.
  intros Hx Hl. induction l as [|y l IH]; simpl; [done|].
  rewrite Hx, (Hl y) by set_solver. rewrite IH; [done|]. intros z Hz. apply Hl. set_solver.
Qed.

Lemma sort_by_ext {A K : Type} `{TotalOrd K} (f g : A → K) (l : list A) :
  (∀ x, x ∈ l → f x = g x) → sort_by f l = sort_by g l.
Proof.
  intros Hl. induction l as [|x l IH]; simpl; [done|].
  rewrite IH; [|intros y Hy; apply Hl; set_solver]. apply insert_by_ext; [apply Hl; set_solver|].
  intros y. rewrite (sort_by_perm g l). intros Hy. apply Hl. set_solver.
Qed.

(** [is_sorted_by(f)]: every adjacent pair satisfies [f]. *)
Fixpoint is_sorted_by {A} (f : A → A → bool) (l : list A) : bool :=
  match l with
  | x :: ((y :: _) as l') => f x y && is_sorted_by f l'
  | _ => true
  end.

Lemma is_sorted_by_strong {A} (f : A → A → bool) l :
  (∀ x y z, f x y = true → f y z = true → f x z = true) →
  is_sorted_by f l = true → StronglySorted (λ x y, f x y = true) l.
Proof.
  intros Htr. induction l as [|x [|y l] IH]; intros Hs; [repeat constructor..|].
  simpl in Hs. apply andb_prop in Hs as [Hxy Hs]. specialize (IH Hs).
  constructor; [done|]. inversion IH as [|? ? _ Hf]; subst. constructor; [done|].
  eapply Forall_impl; [exact Hf|]. intros z. by apply Htr.
Qed.

(** ** [slice::binary_search_by]

    The algorithm of the standard library: the window [base, base + size) is
    halved until one candidate is left.  [c x] is the ordering of [x] relative
    to the target. *)

Section binary_search.
Context {A : Type} (c : A → comparison).

Fixpoint bs_base (fuel : nat) (l : list A) (base size : nat) : nat :=
  match fuel with
  | O => base
  | S fuel' =>
      if (size <=? 1)%nat then base
      else
        let half := (size / 2)%nat in
        let mid := (base + half)%nat in
        let base' := match l !! mid with
                     | Some x => match c x with Gt => base | _ => mid end
                     | None => base
                     end in
        bs_base fuel' l base' (size - half)
  end.

(** [Some i] for [Ok(i)], [None] for [Err(_)]. *)
Definition binary_search_by (l : list A) : option nat :=
  let base := bs_base (length l) l 0 (length l) in
  match l !! base with
  | Some x => match c x with Eq => Some base | _ => None end
  | None => None
  end.

(** The list is ordered around the target: everything before an element that
    is not greater is not greater, everything after one that is not less is
    greater. *)
Definition around (l : list A) : Prop :=
  ∀ i j x y, (i < j)%nat → l !! i = Some x → l !! j = Some y →
    (c y = Lt → c x = Lt) ∧ (c x = Gt → c y = Gt) ∧ (c x = Eq → c y = Gt) ∧
    (c y = Eq → c x = Lt).

Lemma bs_base_inv l i x fuel base size :
  around l → l !! i = Some x → c x = Eq →
  (size ≤ S fuel)%nat → (base + size ≤ length l)%nat → (1 ≤ size)%nat →
  (base ≤ i < base + size)%nat → bs_base fuel l base size = i.
Proof.
  intros Har Hi Hx. revert base size.
  induction fuel as [|fuel IH]; intros base size Hf Hb Hs Hin; cbn [bs_base]; [lia|].
  destruct (Nat.leb_spec size 1); [lia|].
  assert (Hh : (1 ≤ size / 2)%nat) by (apply Nat.div_le_lower_bound; lia).
  assert (Hh2 : (size / 2 < size)%nat) by (apply Nat.div_lt; lia).
  assert (Hh3 : (2 * (size / 2) ≤ size)%nat) by (apply Nat.Div0.mul_div_le).
  set (half := (size / 2)%nat) in *.
  destruct (lookup_lt_is_Some_2 l (base + half)) as [y Hy]; [lia|]. rewrite Hy.
  destruct (Nat.lt_trichotomy i (base + half)) as [Hlt|[Heq|Hgt]].
  - assert (c y = Gt) as -> by (by eapply (Har i (base + half)%nat)). apply IH; lia.
  - assert (c y = Eq) as -> by congruence. apply IH; lia.
  - assert (c y = Lt) as -> by (by eapply (Har (base + half)%nat i)). apply IH; lia.
Qed.

Lemma binary_search_by_hit l i x :
  around l → l !! i = Some x → c x = Eq → binary_search_by l = Some i.
Proof.
  intros Har Hi Hx. unfold binary_search_by.
  pose proof (lookup_lt_Some _ _ _ Hi).
  rewrite (bs_base_inv l i x); try lia; try done. by rewrite Hi, Hx.
Qed.

Lemma binary_search_by_sound l i :
  binary_search_by l = Some i → ∃ x, l !! i = Some x ∧ c x = Eq.
Proof.
  unfold binary_search_by. destruct (l !! _) as [x|] eqn:E; [|done].
  destruct (c x) eqn:Ec; [|done..]. intros [= <-]. eauto.
Qed.
End binary_search.

(** On a list with strictly increasing keys, binary search finds what a linear
    scan finds. *)
Section binary_search_sorted.
Context {A K : Type} `{TotalOrd K} (key : A → K).

Lemma sorted_around k l :
  StronglySorted (key_lt key) l → around (λ x, cmp (key x) k) l.
Proof.
  intros Hs i j x y Hij Hi Hj.
  assert (Hxy : cmp (key x) (key y) = Lt).
  { apply ltb_lt. revert i j Hij Hi Hj.
    induction Hs as [|z l Hs IH Hf]; intros [|i] [|j] ? Hi Hj; simpl in *; try done; try lia.
    - injection Hi as ->. rewrite List.Forall_forall in Hf.
      apply Hf, list_elem_of_In, list_elem_of_lookup. eauto.
    - eapply (IH i j); [lia|done..]. }
  repeat split; intros Hc.
  - by eapply cmp_trans.
  - apply cmp_gt_lt in Hc. apply cmp_gt_lt. by eapply cmp_trans.
  - apply cmp_eq in Hc as <-. by apply cmp_gt_lt.
  - by apply cmp_eq in Hc as <-.
Qed.

(** [iter().position(|x| key(x) == k)]. *)
Fixpoint position_of (k : K) (l : list A) : option nat :=
  match l with
  | [] => None
  | x :: l' => if eqb (key x) k then Some 0%nat else S <$> position_of k l'
  end.

Lemma position_of_Some k l i :
  position_of k l = Some i → ∃ x, l !! i = Some x ∧ key x = k.
Proof.
  revert i. induction l as [|x l IH]; intros i; simpl; [done|].
  destruct (eqb (key x) k) eqn:E.
  - intros [= <-]. apply eqb_true in E. eauto.
  - destruct (position_of k l) as [j|]; simpl; [|done]. intros [= <-]. eauto.
Qed.

Lemma position_of_None k l : position_of k l = None ↔ k ∉ map key l.
Proof.
  induction l as [|x l IH]; simpl; [set_solver|].
  destruct (eqb (key x) k) eqn:E.
  - apply eqb_true in E as <-. split; [done|set_solver].
  - rewrite fmap_None, IH, not_elem_of_cons. split; [|naive_solver].
    intros ?; split; [|done]. intros ->. by rewrite eqb_refl in E.
Qed.

Lemma binary_search_position k l :
  StronglySorted (key_lt key) l →
  binary_search_by (λ x, cmp (key x) k) l = position_of k l.
Proof.
  intros Hs. pose proof (sorted_around k l Hs) as Har.
  destruct (position_of k l) as [i|] eqn:Ep.
  - apply position_of_Some in Ep as (x & Hi & Hx).
    eapply binary_search_by_hit; [done|exact Hi|]. by apply cmp_eq.
  - destruct (binary_search_by _ l) as [i|] eqn:Eb; [|done].
    apply binary_search_by_sound in Eb as (x & Hi & Hx).
    apply cmp_eq in Hx as <-. apply position_of_None in Ep. destruct Ep.
    apply list_elem_of_In, in_map, list_elem_of_In, list_elem_of_lookup. eauto.
Qed.
End binary_search_sorted.

Lemma sort_by_map {A B K} `{TotalOrd K} (f : A → B) (key : B → K) (l : list A) :
  sort_by key (map f l) = map f (sort_by (λ x, key (f x)) l).
Proof.
  induction l as [|x l IH]; simpl; [done|]. rewrite IH. clear IH.
  induction (sort_by _ l) as [|y r IH]; simpl; [done|].
  destruct (leb _ _); simpl; [done|]. by rewrite IH.
Qed.

(** ** [BTreeMap] iteration *)

Section btree.
Context {K V : Type} `{Countable K, !Ord K, !TotalOrd K}.
Implicit Types m : gmap K V.

(** [for (k, v) in &map]. *)
Definition bt_iter m : list (K * V) := sort_by fst (map_to_list m).
Definition bt_keys m : list K := map fst (bt_iter m).
Definition bt_values m : list V := map snd (bt_iter m).

Lemma elem_of_bt_iter m k v : (k, v) ∈ bt_iter m ↔ m !! k = Some v.
Proof. unfold bt_iter. rewrite sort_by_perm. apply elem_of_map_to_list. Qed.

Lemma bt_iter_nodup m : NoDup (bt_keys m).
Proof.
  unfold bt_keys, bt_iter. rewrite (Permutation_map fst (sort_by_perm fst _)).
  apply (NoDup_fst_map_to_list m).
Qed.

Lemma bt_iter_sorted m : StronglySorted (key_lt fst) (bt_iter m).
Proof. apply sorted_le_lt; [apply sort_by_sorted|apply bt_iter_nodup]. Qed.

Lemma elem_of_bt_keys m k : k ∈ bt_keys m ↔ is_Some (m !! k).
Proof.
  unfold bt_keys. rewrite list_elem_of_In, in_map_iff. split.
  - intros ([k' v] & <- & Hin). exists v. by apply elem_of_bt_iter, list_elem_of_In.
  - intros [v Hv]. exists (k, v). split; [done|].
    by apply list_elem_of_In, elem_of_bt_iter.
Qed.

Lemma length_bt_iter m : length (bt_iter m) = size m.
Proof. unfold bt_iter. rewrite sort_by_perm. apply length_map_to_list. Qed.
Lemma length_bt_keys m : length (bt_keys m) = size m.
Proof. unfold bt_keys. rewrite length_map. apply length_bt_iter. Qed.

Lemma bt_iter_empty : bt_iter (∅ : gmap K V) = [].
Proof. unfold bt_iter. by rewrite map_to_list_empty. Qed.

Lemma bt_iter_inj m1 m2 : bt_iter m1 = bt_iter m2 → m1 = m2.
Proof.
  intros E. apply map_eq. intros k. apply option_eq. intros v.
  by rewrite <-!elem_of_bt_iter, E.
Qed.

Lemma elem_of_bt_values m v : v ∈ bt_values m ↔ ∃ k, m !! k = Some v.
Proof.
  unfold bt_values. rewrite list_elem_of_In, in_map_iff. split.
  - intros ([k' v'] & <- & Hin). exists k'. by apply elem_of_bt_iter, list_elem_of_In.
  - intros [k Hv]. exists (k, v). split; [done|].
    by apply list_elem_of_In, elem_of_bt_iter.
Qed.
End btree.

(** Iteration over a mapped map, and over two maps with the same keys. *)
Lemma bt_iter_fmap {K V W} `{Countable K, !Ord K, !TotalOrd K} (f : V → W) (m : gmap K V) :
  bt_iter (f <$> m) = map (prod_map id f) (bt_iter m).
Proof. unfold bt_iter. rewrite map_to_list_fmap. apply (sort_by_map (prod_map id f) fst). Qed.

Lemma bt_keys_fmap {K V W} `{Countable K, !Ord K, !TotalOrd K} (f : V → W) (m : gmap K V) :
  bt_keys (f <$> m) = bt_keys m.
Proof. unfold bt_keys. rewrite bt_iter_fmap, map_map. by apply map_ext. Qed.

Lemma bt_keys_eq {K V W} `{Countable K, !Ord K, !TotalOrd K} (m : gmap K V) (n : gmap K W) :
  (∀ k, is_Some (m !! k) ↔ is_Some (n !! k)) → bt_keys m = bt_keys n.
Proof.
  intros Hd. rewrite <-(bt_keys_fmap (λ _, tt) m), <-(bt_keys_fmap (λ _, tt) n). f_equal.
  apply map_eq. intros k. rewrite !lookup_fmap. specialize (Hd k).
  destruct (m !! k), (n !! k); try done; exfalso.
  - by destruct (proj1 Hd ltac:(eauto)).
  - by destruct (proj2 Hd ltac:(eauto)).
Qed.

(** Comparing two maps by their sizes and a pairwise test of their iterations
    compares them key by key. *)
Lemma bt_zip_lookup {K V W} `{Countable K, !Ord K, !TotalOrd K} (m : gmap K V) (n : gmap K W)
    (R : V → W → Prop) :
  size m = size n →
  Forall (λ '(x, y), x.1 = y.1 ∧ R x.2 y.2) (zip (bt_iter m) (bt_iter n)) ↔
  ∀ k, option_Forall2 R (m !! k) (n !! k).
Proof.
  intros Hs. split.
  - intros Hf k.
    assert (Hz : Forall2 (λ x y, x.1 = y.1 ∧ R x.2 y.2) (bt_iter m) (bt_iter n)).
    { assert (Hl : length (bt_iter m) = length (bt_iter n)) by (by rewrite !length_bt_iter).
      revert Hl Hf. generalize (bt_iter m) as l, (bt_iter n) as r.
      induction l as [|x l IH]; intros [|y r]; simpl; intros Hl Hf; try done.
      inversion Hf; subst. constructor; [done|]. apply IH; [lia|done]. }
    assert (Hside : ∀ v, m !! k = Some v → ∃ w, n !! k = Some w ∧ R v w).
    { intros v Hv%elem_of_bt_iter. apply list_elem_of_lookup in Hv as (i & Hi).
      destruct (Forall2_lookup_l _ _ _ _ _ Hz Hi) as ([k' w] & Hj & Hk & Hr); simpl in *; subst k'.
      exists w. split; [|done]. apply elem_of_bt_iter, list_elem_of_lookup. eauto. }
    destruct (m !! k) as [v|] eqn:Ev.
    + destruct (Hside v eq_refl) as (w & -> & Hr). by constructor.
    + destruct (n !! k) as [w|] eqn:Ew; [|constructor]. exfalso.
      apply elem_of_bt_iter in Ew. apply list_elem_of_lookup in Ew as (i & Hi).
      destruct (Forall2_lookup_r _ _ _ _ _ Hz Hi) as ([k' v] & Hj & Hk & _); simpl in *; subst k'.
      assert (m !! k = Some v); [|congruence]. apply elem_of_bt_iter, list_elem_of_lookup. eauto.
  - intros Hr.
    assert (Hk : bt_keys m = bt_keys n).
    { apply bt_keys_eq. intros k. destruct (Hr k); split; intros [? ?]; done || eauto. }
    apply List.Forall_forall. intros [[k v] [k' w]] Hin. simpl.
    assert (k = k') as <-.
    { unfold bt_keys in Hk. revert Hk Hin. generalize (bt_iter m) as l, (bt_iter n) as r.
      induction l as [|x l IH]; intros [|y r]; simpl; try done.
      intros [= E El] [Hx|Hx]; [by simplify_eq|by eapply IH]. }
    split; [done|].
    pose proof (in_combine_l _ _ _ _ Hin) as Hv%list_elem_of_In%elem_of_bt_iter.
    pose proof (in_combine_r _ _ _ _ Hin) as Hw%list_elem_of_In%elem_of_bt_iter.
    specialize (Hr k). rewrite Hv, Hw in Hr. by inversion Hr.
Qed.
