(* ===== verification/Bytes.v ===== *)
(** * Bytes, machine integers and byte strings

    [u8] is the 256-constructor type [byte]; [String], [&str], [Vec<u8>] and
    [[u8; N]] are [list byte] (a Rust string is its UTF-8 bytes, compared and
    measured as such).  [u16], [u32], [u64] and [usize] are [Z] with their range
    written out. *)

From S2P Require Import Prelude.

Notation bytes := (list byte).

Global Instance byte_eq_decision : EqDecision byte := Byte.byte_eq_dec.
Global Instance byte_countable : Countable byte.
Proof.
  apply (inj_countable Byte.to_N Byte.of_N). apply Byte.of_to_N.
Defined.

Definition byte_val (b : byte) : Z := Z.of_N (Byte.to_N b).

Global Instance byte_ord : Ord byte := λ x y, cmp (byte_val x) (byte_val y).

Lemma byte_val_inj x y : byte_val x = byte_val y → x = y.
Proof.
  unfold byte_val. intros E%N2Z.inj.
  assert (Some x = Some y) by (by rewrite <-!Byte.of_to_N, E). congruence.
Qed.

Global Instance byte_total : TotalOrd byte.
Proof.
  split; unfold cmp, byte_ord.
  - intros x y. rewrite cmp_eq. split; [apply byte_val_inj|congruence].
  - intros x y. apply (cmp_antisym (A:=Z)).
  - intros x y z. apply (cmp_trans (A:=Z)).
Qed.

(** A byte-string literal. *)
Definition bs (s : string) : bytes := String.list_byte_of_string s.

(** ** Character classes of [u8] *)

Definition in_range (lo hi : Z) (b : byte) : bool :=
  (lo <=? byte_val b) && (byte_val b <=? hi).
Definition is_ascii_digit : byte → bool := in_range 48 57.
Definition is_ascii_uppercase : byte → bool := in_range 65 90.
Definition is_ascii_lowercase : byte → bool := in_range 97 122.
Definition is_ascii_alphanumeric (b : byte) : bool :=
  is_ascii_digit b || is_ascii_uppercase b || is_ascii_lowercase b.
Definition is_ascii_hexdigit (b : byte) : bool :=
  is_ascii_digit b || in_range 65 70 b || in_range 97 102 b.
(** [byte.is_ascii_digit() || (b'a'..=b'f').contains(&byte)]. *)
Definition is_lower_hex (b : byte) : bool := is_ascii_digit b || in_range 97 102 b.

Definition slash : byte := Byte.x2f.
Definition backslash : byte := Byte.x5c.
Definition nul : byte := Byte.x00.
Definition dot : byte := Byte.x2e.

(** [str::contains(char)] for an ASCII character. *)
Definition contains (c : byte) (s : bytes) : bool := existsb (Byte.eqb c) s.

Lemma byte_eqb_eq x y : Byte.eqb x y = true ↔ x = y.
Proof. split; [apply Byte.byte_dec_bl | apply Byte.byte_dec_lb]. Qed.
Lemma byte_eqb_neq x y : Byte.eqb x y = false ↔ x ≠ y.
Proof. rewrite <-byte_eqb_eq. by destruct (Byte.eqb x y). Qed.

Lemma contains_true c s : contains c s = true ↔ c ∈ s.
Proof.
  unfold contains. rewrite existsb_exists, list_elem_of_In. split.
  - intros (x & Hx & E). apply byte_eqb_eq in E as ->. done.
  - intros Hc. exists c. split; [done|]. by apply byte_eqb_eq.
Qed.

Lemma contains_false c s : contains c s = false ↔ c ∉ s.
Proof. rewrite <-contains_true. destruct (contains c s); naive_solver. Qed.

(** [OsStr::to_str] and [Path::to_str] succeed on valid UTF-8.  [pending] are the
    ranges of the continuation bytes still to come. *)
Definition utf8_lead (b : byte) : option (list (Z * Z)) :=
  let v := byte_val b in
  let cont := (0x80, 0xBF) in
  if v <? 0x80 then Some []
  else if v <? 0xC2 then None
  else if v <? 0xE0 then Some [cont]
  else if v <? 0xF0 then
    Some [(if v =? 0xE0 then 0xA0 else 0x80, if v =? 0xED then 0x9F else 0xBF); cont]
  else if v <? 0xF5 then
    Some [(if v =? 0xF0 then 0x90 else 0x80, if v =? 0xF4 then 0x8F else 0xBF); cont; cont]
  else None.
Fixpoint utf8_from (pending : list (Z * Z)) (s : bytes) : bool :=
  match s, pending with
  | [], [] => true
  | [], _ :: _ => false
  | b :: s', (lo, hi) :: rest => in_range lo hi b && utf8_from rest s'
  | b :: s', [] => match utf8_lead b with Some pending' => utf8_from pending' s' | None => false end
  end.
Definition is_utf8 (s : bytes) : bool := utf8_from [] s.

(** [str::starts_with] and [str::strip_prefix]. *)
Fixpoint strip_prefix (p s : bytes) : option bytes :=
  match p, s with
  | [], _ => Some s
  | x :: p', y :: s' => if Byte.eqb x y then strip_prefix p' s' else None
  | _ :: _, [] => None
  end.
Definition starts_with (s p : bytes) : bool :=
  match strip_prefix p s with Some _ => true | None => false end.

Lemma strip_prefix_Some p s t : strip_prefix p s = Some t ↔ s = p ++ t.
Proof.
  revert s. induction p as [|x p IH]; intros s; simpl; [naive_solver|].
  destruct s as [|y s]; [naive_solver|]. destruct (Byte.eqb x y) eqn:E.
  - apply byte_eqb_eq in E as ->. rewrite IH. naive_solver.
  - split; [done|]. intros [= <- _]. by rewrite (proj2 (byte_eqb_eq y y)) in E.
Qed.

(** An ASCII separator splits a string at a character boundary. *)
Lemma utf8_lead_high b pending : utf8_lead b = Some pending → Forall (λ r, 0x80 ≤ r.1) pending.
Proof.
  unfold utf8_lead. repeat case_match; intros; simplify_eq; repeat constructor; simpl; lia.
Qed.

Lemma utf8_from_slash pending a b :
  Forall (λ r, 0x80 ≤ r.1) pending →
  utf8_from pending (a ++ slash :: b) = utf8_from pending a && is_utf8 b.
Proof.
  revert pending. induction a as [|c a IH]; intros pending Hp; simpl.
  - destruct Hp as [|[lo hi] rest Hr Hp]; [done|]. simpl in Hr. unfold in_range.
    replace (byte_val slash) with 47 by done. by rewrite (proj2 (Z.leb_gt lo 47)) by lia.
  - destruct Hp as [|[lo hi] rest Hr Hp].
    + destruct (utf8_lead c) as [p|] eqn:E; [|done]. apply IH. by eapply utf8_lead_high.
    + rewrite IH by done. apply andb_assoc.
Qed.

Lemma is_utf8_slash a b : is_utf8 (a ++ slash :: b) = is_utf8 a && is_utf8 b.
Proof. apply utf8_from_slash. constructor. Qed.

(** ** Machine integers *)

Definition u16_max : Z := 2 ^ 16 - 1.
Definition u32_max : Z := 2 ^ 32 - 1.
Definition u64_max : Z := 2 ^ 64 - 1.

Definition is_u16 (z : Z) : Prop := 0 ≤ z ≤ u16_max.
Definition is_u32 (z : Z) : Prop := 0 ≤ z ≤ u32_max.
Definition is_u64 (z : Z) : Prop := 0 ≤ z ≤ u64_max.

Definition checked_add (max x y : Z) : option Z :=
  if x + y <=? max then Some (x + y) else None.
Definition saturating_add (max x y : Z) : Z := Z.min max (x + y).
Definition saturating_mul (max x y : Z) : Z := Z.min max (x * y).
Definition saturating_sub (x y : Z) : Z := Z.max 0 (x - y).

Ltac u_unfold := unfold is_u16, is_u32, is_u64, u16_max, u32_max, u64_max in *.

(** ** Big-endian encodings: [to_be_bytes] and [from_be_bytes] *)

Definition byte_of_Z (z : Z) : byte :=
  default Byte.x00 (Byte.of_N (Z.to_N (z mod 256))).

Lemma byte_val_range b : 0 ≤ byte_val b < 256.
Proof. unfold byte_val. pose proof (Byte.to_N_bounded b). lia. Qed.

Lemma byte_val_of_Z z : byte_val (byte_of_Z z) = z mod 256.
Proof.
  unfold byte_val, byte_of_Z. pose proof (Z.mod_pos_bound z 256).
  destruct (Byte.of_N (Z.to_N (z mod 256))) as [b|] eqn:E; simpl.
  - apply Byte.to_of_N in E. rewrite E. lia.
  - apply Byte.of_N_None_iff in E. lia.
Qed.

Lemma byte_of_val b : byte_of_Z (byte_val b) = b.
Proof.
  apply byte_val_inj. rewrite byte_val_of_Z. apply Z.mod_small, byte_val_range.
Qed.

Fixpoint be_bytes (n : nat) (z : Z) : bytes :=
  match n with
  | O => []
  | S n' => byte_of_Z (z / 256 ^ Z.of_nat n') :: be_bytes n' z
  end.

Fixpoint be_value (l : bytes) : Z :=
  match l with
  | [] => 0
  | b :: l' => byte_val b * 256 ^ Z.of_nat (length l') + be_value l'
  end.

Definition u16_be : Z → bytes := be_bytes 2.
Definition u32_be : Z → bytes := be_bytes 4.
Definition u64_be : Z → bytes := be_bytes 8.

Lemma length_be_bytes n z : length (be_bytes n z) = n.
Proof. induction n; simpl; congruence. Qed.

Lemma be_value_range l : 0 ≤ be_value l < 256 ^ Z.of_nat (length l).
Proof.
  induction l as [|b l IH]; simpl; [lia|].
  rewrite Nat2Z.inj_succ, Z.pow_succ_r by lia.
  pose proof (byte_val_range b). nia.
Qed.

Lemma be_value_be_bytes n z : be_value (be_bytes n z) = z mod 256 ^ Z.of_nat n.
Proof.
  induction n as [|n IH]; cbn [be_bytes be_value].
  - by rewrite Z.mod_1_r.
  - rewrite length_be_bytes, IH, byte_val_of_Z, Nat2Z.inj_succ, Z.pow_succ_r by lia.
    set (p := 256 ^ Z.of_nat n). assert (0 < p) by (apply Z.pow_pos_nonneg; lia).
    rewrite (Z.mul_comm 256 p), Z.rem_mul_r by lia. lia.
Qed.

Lemma be_value_id n z : 0 ≤ z < 256 ^ Z.of_nat n → be_value (be_bytes n z) = z.
Proof. intros. rewrite be_value_be_bytes. by apply Z.mod_small. Qed.

Lemma be_value_inj l1 l2 :
  length l1 = length l2 → be_value l1 = be_value l2 → l1 = l2.
Proof.
  revert l2. induction l1 as [|x l1 IH]; intros [|y l2] Hl Hv; simpl in *; try done.
  injection Hl as Hl. pose proof (be_value_range l1). pose proof (be_value_range l2).
  rewrite Hl in *. set (p := 256 ^ Z.of_nat (length l2)) in *.
  assert (byte_val x = byte_val y) as E by nia.
  f_equal; [by apply byte_val_inj|]. apply IH; [done|]. nia.
Qed.

Lemma be_bytes_value n l : length l = n → be_bytes n (be_value l) = l.
Proof.
  intros Hl. apply be_value_inj; [by rewrite length_be_bytes|].
  rewrite be_value_be_bytes, <-Hl. apply Z.mod_small, be_value_range.
Qed.

Lemma be_bytes_inj n x y :
  0 ≤ x < 256 ^ Z.of_nat n → 0 ≤ y < 256 ^ Z.of_nat n →
  be_bytes n x = be_bytes n y → x = y.
Proof. intros Hx Hy E. by rewrite <-(be_value_id n x), <-(be_value_id n y), E. Qed.

Lemma u16_be_value z : is_u16 z → be_value (u16_be z) = z.
Proof. u_unfold. intros. apply be_value_id. simpl. lia. Qed.
Lemma u32_be_value z : is_u32 z → be_value (u32_be z) = z.
Proof. u_unfold. intros. apply be_value_id. simpl. lia. Qed.
Lemma u64_be_value z : is_u64 z → be_value (u64_be z) = z.
Proof. u_unfold. intros. apply be_value_id. simpl. lia. Qed.

Lemma u32_be_of_value l : length l = 4%nat → u32_be (be_value l) = l.
Proof. apply be_bytes_value. Qed.
Lemma u16_be_of_value l : length l = 2%nat → u16_be (be_value l) = l.
Proof. apply be_bytes_value. Qed.

Lemma length_u16_be z : length (u16_be z) = 2%nat.
Proof. apply length_be_bytes. Qed.
Lemma length_u32_be z : length (u32_be z) = 4%nat.
Proof. apply length_be_bytes. Qed.
Lemma length_u64_be z : length (u64_be z) = 8%nat.
Proof. apply length_be_bytes. Qed.

Global Opaque u16_be u32_be u64_be.

(** [slice::len()] as a [usize]. *)
Definition blen {A} (l : list A) : Z := Z.of_nat (length l).

Lemma blen_nonneg {A} (l : list A) : 0 ≤ blen l.
Proof. unfold blen. lia. Qed.
Lemma blen_app {A} (l k : list A) : blen (l ++ k) = blen l + blen k.
Proof. unfold blen. rewrite length_app. lia. Qed.
Lemma blen_nil {A} : blen (@nil A) = 0.
Proof. done. Qed.

(** Splitting a concatenation at known lengths. *)
Lemma app_inj_len {A} (a b c d : list A) :
  length a = length c → a ++ b = c ++ d → a = c ∧ b = d.
Proof. intros. by apply app_inj_1. Qed.
Lemma blen_cons {A} (x : A) (l : list A) : blen (x :: l) = 1 + blen l.
Proof. unfold blen. simpl. lia. Qed.
