(* ===== verification/Encoding.v ===== *)
(** * Self-delimiting encodings

    [reads enc P f]: whatever follows it, the encoding of a value that satisfies
    [P] determines [f] of the value and where the encoding ends.  Hash and proof
    inputs are concatenations of such parts, so the combinators below show them
    unambiguous. *)

From S2P Require Import Prelude Collections Bytes.

Definition reads {A B} (enc : A → bytes) (P : A → Prop) (f : A → B) : Prop :=
  ∀ x y s t, P x → P y → enc x ++ s = enc y ++ t → f x = f y ∧ s = t.

Section reads.
Context {A : Type}.
Implicit Types (enc : A → bytes) (P : A → Prop).

Lemma reads_fixed {B} enc P (f : A → B) n :
  (∀ x, P x → length (enc x) = n) →
  (∀ x y, P x → P y → enc x = enc y → f x = f y) → reads enc P f.
Proof.
  intros Hl Hf x y s t Hx Hy E. apply app_inj_len in E as [E ->]; [eauto|].
  by rewrite !Hl.
Qed.

Lemma reads_app {B C} e1 e2 P (f : A → B) (g : A → C) :
  reads e1 P f → reads e2 P g → reads (λ x, e1 x ++ e2 x) P (λ x, (f x, g x)).
Proof.
  intros H1 H2 x y s t Hx Hy E. rewrite <-!app_assoc in E.
  apply H1 in E as [E1 E]; [|done..]. apply H2 in E as [E2 E]; [|done..].
  by rewrite E1, E2.
Qed.

Lemma reads_map {B C} enc P (f : A → B) (g : A → C) :
  reads enc P f → (∀ x y, P x → P y → f x = f y → g x = g y) → reads enc P g.
Proof.
  intros Hr Hg x y s t Hx Hy E. apply Hr in E as [E ->]; [|done..]. eauto.
Qed.

Lemma reads_weaken {B} enc P (Q : A → Prop) (f : A → B) :
  (∀ x, Q x → P x) → reads enc P f → reads enc Q f.
Proof. intros HQ Hr x y s t Hx Hy. apply Hr; auto. Qed.

(** Sequences of known length. *)
Lemma reads_concat {B} enc P (f : A → B) :
  reads enc P f → ∀ l k s t,
  length l = length k → Forall P l → Forall P k →
  concat (map enc l) ++ s = concat (map enc k) ++ t → map f l = map f k ∧ s = t.
Proof.
  intros Hr. induction l as [|x l IH]; intros [|y k] s t Hl Hx Hy E; try done.
  inversion Hx; inversion Hy; subst. simpl in *. rewrite <-!app_assoc in E.
  apply Hr in E as [E1 E]; [|done..]. injection Hl as Hl.
  apply IH in E as [E2 E]; [|done..]. by rewrite E1, E2.
Qed.
End reads.

Lemma reads_comp {A B C} (g : A → B) (enc : B → bytes) (P : B → Prop) (f : B → C) :
  reads enc P f → reads (λ x, enc (g x)) (λ x, P (g x)) (λ x, f (g x)).
Proof. intros Hr x y s t. apply Hr. Qed.

Lemma reads_u16 : reads u16_be is_u16 id.
Proof.
  apply (reads_fixed _ _ _ 2); [intros; apply length_u16_be|].
  intros x y Hx Hy E. by rewrite <-(u16_be_value x), <-(u16_be_value y), E.
Qed.
Lemma reads_u32 : reads u32_be is_u32 id.
Proof.
  apply (reads_fixed _ _ _ 4); [intros; apply length_u32_be|].
  intros x y Hx Hy E. by rewrite <-(u32_be_value x), <-(u32_be_value y), E.
Qed.
Lemma reads_u64 : reads u64_be is_u64 id.
Proof.
  apply (reads_fixed _ _ _ 8); [intros; apply length_u64_be|].
  intros x y Hx Hy E. by rewrite <-(u64_be_value x), <-(u64_be_value y), E.
Qed.

(** A byte array [[u8; n]]. *)
Lemma reads_array n : reads (λ b : bytes, b) (λ b, length b = n) id.
Proof. by apply (reads_fixed _ _ _ n). Qed.

(** A length as 8 bytes, then the bytes. *)
Lemma reads_prefixed :
  reads (λ b : bytes, u64_be (blen b) ++ b) (λ b, is_u64 (blen b)) id.
Proof.
  intros x y s t Hx Hy E. rewrite <-!app_assoc in E.
  apply reads_u64 in E as [El E]; [|done..]. unfold blen in El.
  apply app_inj_len in E as [-> ->]; [done|]. unfold id in El. lia.
Qed.

(** A count as 8 bytes, then the items. *)
Lemma reads_counted {A B} (enc : A → bytes) (P : A → Prop) (f : A → B) :
  reads enc P f →
  reads (λ l, u64_be (blen l) ++ concat (map enc l))
    (λ l, is_u64 (blen l) ∧ Forall P l) (map f).
Proof.
  intros Hr l k s t [Hl Pl] [Hk Pk] E. rewrite <-!app_assoc in E.
  apply reads_u64 in E as [El E]; [|done..].
  eapply reads_concat in E; [done|done| |done..]. unfold blen, id in El. lia.
Qed.

(** ** Reading through a cursor

    [take::<N>] of the ticket and authentication parsers: the [n] bytes at the
    cursor, and the cursor past them. *)
Definition cursor_take (overflow truncated : string) (n : Z) (content : bytes) (cursor : Z)
    : result (bytes * Z) :=
  stop ← ok_or (checked_add u64_max cursor n) overflow;
  part ← ok_or (if stop <=? blen content
                then Some (take (Z.to_nat n) (drop (Z.to_nat cursor) content)) else None)
    truncated;
  Ok (part, stop).

(** [at_cursor content c rest]: the cursor [c] stands before [rest]. *)
Definition at_cursor (content : bytes) (c : Z) (rest : bytes) : Prop :=
  0 ≤ c ∧ c + blen rest = blen content ∧ drop (Z.to_nat c) content = rest.

Lemma at_cursor_0 content : at_cursor content 0 content.
Proof. split_and!; [lia|lia|done]. Qed.

Lemma at_cursor_end content c : at_cursor content c [] → c = blen content.
Proof. intros (_ & E & _). rewrite blen_nil in E. lia. Qed.

Lemma cursor_take_app overflow truncated content c n part rest :
  at_cursor content c (part ++ rest) → blen part = n → blen content ≤ u64_max →
  cursor_take overflow truncated n content c = Ok (part, c + n) ∧ at_cursor content (c + n) rest.
Proof.
  intros (Hc & Hl & Hd) Hn Hmax. rewrite blen_app in Hl. pose proof (blen_nonneg rest).
  pose proof (blen_nonneg part). unfold cursor_take, checked_add.
  rewrite (proj2 (Z.leb_le (c + n) u64_max)) by lia. simpl.
  rewrite (proj2 (Z.leb_le (c + n) (blen content))) by lia. simpl. rewrite Hd.
  assert (Hp : length part = Z.to_nat n) by (unfold blen in Hn; lia).
  rewrite take_app_length' by done. split; [done|]. split_and!; [lia|lia|].
  replace (Z.to_nat (c + n)) with (Z.to_nat c + Z.to_nat n)%nat by lia.
  rewrite <-drop_drop, Hd. by apply drop_app_length'.
Qed.

Lemma cursor_take_Ok overflow truncated content c n rest part stop :
  0 ≤ n → at_cursor content c rest → cursor_take overflow truncated n content c = Ok (part, stop) →
  ∃ rest', rest = part ++ rest' ∧ blen part = n ∧ at_cursor content stop rest'.
Proof.
  intros Hn (Hc & Hl & Hd) Ht. unfold cursor_take, checked_add in Ht.
  destruct (Z.leb_spec (c + n) u64_max); simpl in Ht; [|done].
  destruct (Z.leb_spec (c + n) (blen content)); simpl in Ht; [|done].
  injection Ht as <- <-. rewrite Hd. pose proof (blen_nonneg rest).
  exists (drop (Z.to_nat n) rest). rewrite take_drop. unfold blen in *.
  rewrite length_take. split_and!; [done|lia|]. unfold at_cursor, blen.
  rewrite length_drop. split_and!; [lia|lia|].
  replace (Z.to_nat (c + n)) with (Z.to_nat c + Z.to_nat n)%nat by lia.
  by rewrite <-drop_drop, Hd.
Qed.
