(* ===== verification/External.v ===== *)
(** * Interfaces of the third-party crates

    The sources call the [hex], [base64], [blake3], [sha2], [hmac] and [iroh]
    crates.  Each is a class: its operations are parameters of the model and its
    laws are the documented behaviour the sources rely on.  The components are
    proved against these classes; [Reference.v] gives executable instances. *)

From S2P Require Import Prelude Bytes.

(** [hex::encode], [hex::encode_to_slice] and [hex::decode]. *)
Class HexCodec := {
  hex_encode : bytes → bytes;
  hex_decode : bytes → option bytes;
  length_hex_encode b : length (hex_encode b) = (2 * length b)%nat;
  hex_encode_lower b : forallb is_lower_hex (hex_encode b) = true;
  hex_decode_encode b : hex_decode (hex_encode b) = Some b;
  hex_encode_decode s b :
    forallb is_lower_hex s = true → hex_decode s = Some b → hex_encode b = s;
}.

(** [base64::engine::general_purpose::URL_SAFE_NO_PAD]. *)
Definition is_base64url (b : byte) : bool :=
  is_ascii_alphanumeric b || Byte.eqb b "-"%byte || Byte.eqb b "_"%byte.

Class Base64Codec := {
  b64_encode : bytes → bytes;
  b64_decode : bytes → option bytes;
  b64_decode_encode b : b64_decode (b64_encode b) = Some b;
  b64_encode_alphabet b : forallb is_base64url (b64_encode b) = true;
  length_b64_encode b : length (b64_encode b) = ((4 * length b + 2) / 3)%nat;
}.

(** [blake3::Hasher]: [update] appends, [finalize] gives 32 bytes. *)
Class Blake3 := {
  blake3 : bytes → bytes;
  length_blake3 b : length (blake3 b) = 32%nat;
}.

(** [sha2::Sha256]: [update] appends, [finalize] gives 32 bytes. *)
Class Sha256 := {
  sha256 : bytes → bytes;
  length_sha256 b : length (sha256 b) = 32%nat;
}.

(** [hmac::Hmac<Sha256>]: a key and the updates give 32 bytes. *)
Class Hmac := {
  hmac_sha256 : bytes → bytes → bytes;
  length_hmac_sha256 k b : length (hmac_sha256 k b) = 32%nat;
}.

(** [iroh::EndpointId], a public key: its 32-byte form, of which not every
    array is a key, and its text form. *)
Class Iroh := {
  EndpointId : Type;
  ep_eq_dec :: EqDecision EndpointId;
  ep_countable :: Countable EndpointId;
  ep_as_bytes : EndpointId → bytes;
  ep_from_bytes : bytes → option EndpointId;
  ep_to_string : EndpointId → bytes;
  ep_from_str : bytes → option EndpointId;
  length_ep_as_bytes e : length (ep_as_bytes e) = 32%nat;
  ep_from_as_bytes e : ep_from_bytes (ep_as_bytes e) = Some e;
  ep_as_from_bytes b e : ep_from_bytes b = Some e → ep_as_bytes e = b;
  ep_from_str_to_string e : ep_from_str (ep_to_string e) = Some e;
}.

Section iroh.
Context `{Iroh}.

Global Instance ep_to_string_inj : Inj eq eq ep_to_string.
Proof.
  intros x y E. assert (Some x = Some y) as [= ->]; [|done].
  by rewrite <-!ep_from_str_to_string, E.
Qed.

Global Instance ep_as_bytes_inj : Inj eq eq ep_as_bytes.
Proof.
  intros x y E. assert (Some x = Some y) as [= ->]; [|done].
  by rewrite <-!ep_from_as_bytes, E.
Qed.
End iroh.
