(* ===== verification/Reference.v ===== *)
(** * Executable instances of the third-party interfaces

    Instances of the classes of [External.v], used to run the model on concrete
    inputs: hexadecimal and base64url as RFC 4648 defines them, endpoint
    identifiers that are any 32 bytes, and a polynomial checksum in the place of
    the hash functions (no law of the classes asks for more than its length). *)

From S2P Require Import Prelude Bytes External.

Module Ref.

(** Inductions that follow the groups of two and three symbols. *)
Lemma list_pair_ind {A} (P : list A → Prop) :
  P [] → (∀ x, P [x]) → (∀ x y l, P l → P (x :: y :: l)) → ∀ l, P l.
Proof. intros H0 H1 H2. fix IH 1. intros [|x [|y l]]; [done|apply H1|apply H2, IH]. Qed.

Lemma list_triple_ind {A} (P : list A → Prop) :
  P [] → (∀ x, P [x]) → (∀ x y, P [x; y]) →
  (∀ x y z l, P l → P (x :: y :: z :: l)) → ∀ l, P l.
Proof. intros H0 H1 H2 H3. fix IH 1.
  intros [|x [|y [|z l]]]; [done|apply H1|apply H2|apply H3, IH]. Qed.

(** ** Hexadecimal *)

Definition hex_digit (n : Z) : byte := byte_of_Z (if n <? 10 then 48 + n else 87 + n).
Definition hex_value (b : byte) : option Z :=
  let v := byte_val b in
  if is_ascii_digit b then Some (v - 48)
  else if in_range 97 102 b then Some (v - 87)
  else if in_range 65 70 b then Some (v - 55)
  else None.

Fixpoint hex_enc (l : bytes) : bytes :=
  match l with
  | [] => []
  | b :: l' => hex_digit (byte_val b / 16) :: hex_digit (byte_val b mod 16) :: hex_enc l'
  end.
Fixpoint hex_dec (s : bytes) : option bytes :=
  match s with
  | [] => Some []
  | h :: s1 =>
      match s1 with
      | [] => None
      | l :: s' =>
          x ← hex_value h; y ← hex_value l; r ← hex_dec s';
          Some (byte_of_Z (x * 16 + y) :: r)
      end
  end.

Lemma hex_byte b :
  (x ← hex_value (hex_digit (byte_val b / 16));
   y ← hex_value (hex_digit (byte_val b mod 16)); Some (byte_of_Z (x * 16 + y))) = Some b.
Proof. by destruct b. Qed.

Lemma hex_digit_lower b :
  is_lower_hex (hex_digit (byte_val b / 16)) && is_lower_hex (hex_digit (byte_val b mod 16))
  = true.
Proof. by destruct b. Qed.

Lemma hex_value_inverse b :
  match hex_value b with
  | Some v => implb (is_lower_hex b) ((0 <=? v) && (v <? 16) && Byte.eqb (hex_digit v) b)
  | None => true
  end = true.
Proof. by destruct b. Qed.
Lemma hex_value_lower b v :
  is_lower_hex b = true → hex_value b = Some v → 0 ≤ v < 16 ∧ hex_digit v = b.
Proof.
  intros Hb Hv. pose proof (hex_value_inverse b) as Hi. rewrite Hv, Hb in Hi. simpl in Hi.
  apply andb_prop in Hi as [[? ?]%andb_prop He]. apply Byte.byte_dec_bl in He.
  split; [lia|done].
Qed.

Lemma hex_dec_enc l : hex_dec (hex_enc l) = Some l.
Proof.
  induction l as [|b l IH]; [done|]. cbn [hex_enc hex_dec].
  pose proof (hex_byte b) as Hb.
  destruct (hex_value (hex_digit (byte_val b / 16))); [|done].
  destruct (hex_value (hex_digit (byte_val b mod 16))); [|done].
  simpl in *. rewrite IH; simpl. congruence.
Qed.

Lemma hex_enc_dec s b :
  forallb is_lower_hex s = true → hex_dec s = Some b → hex_enc b = s.
Proof.
  revert b. induction s as [|h|h l s IH] using list_pair_ind; intros b Hl Hd;
    [by injection Hd as <-|done|]. cbn [hex_dec forallb] in *.
  apply andb_prop in Hl as [Hh Hl]. apply andb_prop in Hl as [Hl Hs].
  destruct (hex_value h) as [x|] eqn:Ex; [|done].
  destruct (hex_value l) as [y|] eqn:Ey; [|done]. simpl in Hd.
  destruct (hex_dec s) as [r|] eqn:Er; [|done]. injection Hd as <-.
  apply hex_value_lower in Ex as [Hx Ex]; [|done].
  apply hex_value_lower in Ey as [Hy Ey]; [|done].
  cbn [hex_enc]. rewrite byte_val_of_Z, (Z.mod_small (x * 16 + y)) by lia.
  rewrite Z.div_add_l, (Z.div_small y 16), Z.add_0_r by lia.
  rewrite (Z.add_comm (x * 16)), Z.mod_add, (Z.mod_small y) by lia.
  by rewrite Ex, Ey, (IH r).
Qed.

(** ** Base64, URL-safe alphabet, no padding *)

Definition b64_symbol (n : Z) : byte :=
  byte_of_Z (if n <? 26 then 65 + n
             else if n <? 52 then 71 + n
             else if n <? 62 then n - 4
             else if n <? 63 then 45 else 95).
Definition b64_value (b : byte) : option Z :=
  let v := byte_val b in
  if is_ascii_uppercase b then Some (v - 65)
  else if is_ascii_lowercase b then Some (v - 71)
  else if is_ascii_digit b then Some (v + 4)
  else if v =? 45 then Some 62
  else if v =? 95 then Some 63
  else None.

Fixpoint b64_enc (l : bytes) : bytes :=
  match l with
  | [] => []
  | [a] => let v := byte_val a * 16 in [b64_symbol (v / 64); b64_symbol (v mod 64)]
  | [a; b] =>
      let v := (byte_val a * 256 + byte_val b) * 4 in
      [b64_symbol (v / 4096); b64_symbol (v / 64 mod 64); b64_symbol (v mod 64)]
  | a :: b :: c :: l' =>
      let v := byte_val a * 65536 + byte_val b * 256 + byte_val c in
      b64_symbol (v / 262144) :: b64_symbol (v / 4096 mod 64)
        :: b64_symbol (v / 64 mod 64) :: b64_symbol (v mod 64) :: b64_enc l'
  end.

Fixpoint b64_dec (s : bytes) : option bytes :=
  match s with
  | [] => Some []
  | [_] => None
  | [p; q] =>
      x ← b64_value p; y ← b64_value q; Some [byte_of_Z ((x * 64 + y) / 16)]
  | [p; q; r] =>
      x ← b64_value p; y ← b64_value q; z ← b64_value r;
      let v := ((x * 64 + y) * 64 + z) / 4 in
      Some [byte_of_Z (v / 256); byte_of_Z v]
  | p :: q :: r :: t :: s' =>
      x ← b64_value p; y ← b64_value q; z ← b64_value r; w ← b64_value t;
      rest ← b64_dec s';
      let v := ((x * 64 + y) * 64 + z) * 64 + w in
      Some (byte_of_Z (v / 65536) :: byte_of_Z (v / 256) :: byte_of_Z v :: rest)
  end.

Lemma b64_value_symbol n : 0 ≤ n < 64 → b64_value (b64_symbol n) = Some n.
Proof.
  intros Hn.
  assert (Hall : forallb (λ n, bool_decide (b64_value (b64_symbol (Z.of_nat n)) = Some (Z.of_nat n)))
    (seq 0 64) = true) by (vm_compute; reflexivity).
  rewrite forallb_forall in Hall. specialize (Hall (Z.to_nat n)).
  rewrite Z2Nat.id in Hall by lia. apply bool_decide_eq_true_1 in Hall; [done|].
  apply in_seq. lia.
Qed.

Lemma b64_symbol_alphabet n : 0 ≤ n < 64 → is_base64url (b64_symbol n) = true.
Proof.
  intros Hn.
  assert (Hall : forallb (λ n, is_base64url (b64_symbol (Z.of_nat n))) (seq 0 64) = true)
    by (vm_compute; reflexivity).
  rewrite forallb_forall in Hall. specialize (Hall (Z.to_nat n)).
  rewrite Z2Nat.id in Hall by lia. apply Hall, in_seq. lia.
Qed.

Lemma byte_of_split b v : v mod 256 = byte_val b → byte_of_Z v = b.
Proof. intros E. apply byte_val_inj. by rewrite byte_val_of_Z. Qed.

Ltac b64_range := repeat split;
  first [ apply Z.div_le_lower_bound | apply Z.div_lt_upper_bound | apply Z.mod_pos_bound | idtac ]; lia.

Lemma b64_dec_enc l : b64_dec (b64_enc l) = Some l.
Proof.
  induction l as [|a|a b|a b c l IH] using list_triple_ind; [done|..];
    cbn [b64_enc b64_dec]; pose proof (byte_val_range a).
  - set (v := byte_val a * 16). rewrite !b64_value_symbol by (subst v; b64_range). simpl.
    assert (v / 64 * 64 + v mod 64 = v) as -> by (pose proof (Z.div_mod v 64); lia).
    unfold v. rewrite Z.div_mul by lia. by rewrite byte_of_val.
  - pose proof (byte_val_range b). set (v := (byte_val a * 256 + byte_val b) * 4).
    rewrite !b64_value_symbol by (subst v; b64_range). simpl.
    assert ((v / 4096 * 64 + v / 64 mod 64) * 64 + v mod 64 = v) as ->.
    { replace (v / 4096) with (v / 64 / 64) by (rewrite Z.div_div; [f_equal|..]; lia).
      pose proof (Z.div_mod v 64). pose proof (Z.div_mod (v / 64) 64). lia. }
    unfold v. rewrite Z.div_mul by lia. do 2 f_equal; [|f_equal].
    + rewrite Z.div_add_l, (Z.div_small (byte_val b)), Z.add_0_r by lia. apply byte_of_val.
    + apply byte_of_split. rewrite Z.add_comm, Z.mod_add by lia. by apply Z.mod_small.
  - pose proof (byte_val_range b). pose proof (byte_val_range c).
    set (v := byte_val a * 65536 + byte_val b * 256 + byte_val c).
    rewrite !b64_value_symbol by (subst v; b64_range). simpl. rewrite IH. simpl.
    assert (((v / 262144 * 64 + v / 4096 mod 64) * 64 + v / 64 mod 64) * 64 + v mod 64 = v) as ->.
    { replace (v / 262144) with (v / 64 / 64 / 64) by (rewrite !Z.div_div; [f_equal|..]; lia).
      replace (v / 4096) with (v / 64 / 64) by (rewrite Z.div_div; [f_equal|..]; lia).
      pose proof (Z.div_mod v 64). pose proof (Z.div_mod (v / 64) 64).
      pose proof (Z.div_mod (v / 64 / 64) 64). lia. }
    do 4 f_equal; apply byte_of_split; unfold v.
    + replace (byte_val a * 65536 + byte_val b * 256 + byte_val c)
        with (byte_val a * 65536 + (byte_val b * 256 + byte_val c)) by lia.
      rewrite Z.div_add_l, (Z.div_small (byte_val b * 256 + _)), Z.add_0_r by lia.
      by apply Z.mod_small.
    + replace (byte_val a * 65536 + byte_val b * 256 + byte_val c)
        with ((byte_val a * 256 + byte_val b) * 256 + byte_val c) by lia.
      rewrite Z.div_add_l, (Z.div_small (byte_val c)), Z.add_0_r by lia.
      rewrite Z.add_comm, Z.mod_add by lia. by apply Z.mod_small.
    + replace (byte_val a * 65536 + byte_val b * 256 + byte_val c)
        with (byte_val c + (byte_val a * 256 + byte_val b) * 256) by lia.
      rewrite Z.mod_add by lia. by apply Z.mod_small.
Qed.

Lemma b64_enc_alphabet l : forallb is_base64url (b64_enc l) = true.
Proof.
  induction l as [|a|a b|a b c l IH] using list_triple_ind; [done|..];
    cbn [b64_enc forallb]; pose proof (byte_val_range a).
  - rewrite !b64_symbol_alphabet by b64_range. done.
  - pose proof (byte_val_range b). rewrite !b64_symbol_alphabet by b64_range. done.
  - pose proof (byte_val_range b). pose proof (byte_val_range c).
    rewrite !b64_symbol_alphabet by b64_range. done.
Qed.

Lemma length_b64_enc l : length (b64_enc l) = ((4 * length l + 2) / 3)%nat.
Proof.
  induction l as [|a|a b|a b c l IH] using list_triple_ind; [done..|].
  cbn [b64_enc length]. rewrite IH.
  replace (4 * S (S (S (length l))) + 2)%nat with (4 * 3 + (4 * length l + 2))%nat by lia.
  rewrite Nat.div_add_l by lia. done.
Qed.

(** ** A checksum *)

Definition checksum (l : bytes) : bytes :=
  be_bytes 32 (foldl (λ acc b, (acc * 257 + byte_val b + 1) mod 2 ^ 256) 0 l).

Lemma length_checksum l : length (checksum l) = 32%nat.
Proof. apply length_be_bytes. Qed.

(** ** Endpoint identifiers *)

Definition Endpoint : Type := dsig (λ b : bytes, length b = 32%nat).
Definition endpoint_from_bytes (b : bytes) : option Endpoint :=
  match decide (length b = 32%nat) with left H => Some (dexist b H) | right _ => None end.

Lemma endpoint_from_as (e : Endpoint) : endpoint_from_bytes (proj1_sig e) = Some e.
Proof.
  unfold endpoint_from_bytes. pose proof (proj2_dsig e) as He. simpl in He.
  destruct (decide _) as [H|H]; [|done]. f_equal. by apply dsig_eq.
Qed.

Lemma endpoint_as_from b e : endpoint_from_bytes b = Some e → proj1_sig e = b.
Proof. unfold endpoint_from_bytes. destruct (decide _); [|done]. by intros [= <-]. Qed.

Lemma endpoint_from_str_to_string (e : Endpoint) :
  (hex_dec (hex_enc (proj1_sig e)) ≫= endpoint_from_bytes) = Some e.
Proof. rewrite hex_dec_enc. apply endpoint_from_as. Qed.

Lemma length_endpoint (e : Endpoint) : length (proj1_sig e) = 32%nat.
Proof. apply (proj2_dsig e). Qed.

(** ** Instances *)

Lemma length_hex_enc l : length (hex_enc l) = (2 * length l)%nat.
Proof. induction l as [|b l IH]; simpl; [done|]. rewrite IH. lia. Qed.

Lemma hex_enc_lower l : forallb is_lower_hex (hex_enc l) = true.
Proof.
  induction l as [|b l IH]; [done|]. cbn [hex_enc forallb].
  pose proof (hex_digit_lower b) as Hb. apply andb_prop in Hb as [-> ->]. done.
Qed.

#[export] Instance hex_ref : HexCodec := {|
  length_hex_encode := length_hex_enc;
  hex_encode_lower := hex_enc_lower;
  hex_decode_encode := hex_dec_enc;
  hex_encode_decode := hex_enc_dec;
|}.
#[export] Instance b64_ref : Base64Codec := {|
  b64_decode_encode := b64_dec_enc;
  b64_encode_alphabet := b64_enc_alphabet;
  length_b64_encode := length_b64_enc;
|}.
#[export] Instance blake3_ref : Blake3 := {| length_blake3 := length_checksum |}.
#[export] Instance sha256_ref : Sha256 := {| length_sha256 := length_checksum |}.
#[export] Instance hmac_ref : Hmac := {|
  hmac_sha256 k b := checksum (k ++ b);
  length_hmac_sha256 k b := length_checksum (k ++ b);
|}.
#[export] Instance iroh_ref : Iroh := {|
  EndpointId := Endpoint;
  ep_as_bytes e := proj1_sig e;
  ep_from_bytes := endpoint_from_bytes;
  ep_to_string e := hex_enc (proj1_sig e);
  ep_from_str s := hex_dec s ≫= endpoint_from_bytes;
  length_ep_as_bytes := length_endpoint;
  ep_from_as_bytes := endpoint_from_as;
  ep_as_from_bytes := endpoint_as_from;
  ep_from_str_to_string := endpoint_from_str_to_string;
|}.

(** The endpoint whose bytes are all [b]. *)
Definition endpoint (b : byte) : EndpointId :=
  dexist (repeat b 32) (eq_refl : length (repeat b 32) = 32%nat).

End Ref.
