(* ===== verification/Framing.v ===== *)
(** * Chunk and message frames (src/chunk/mod.rs, src/frame/mod.rs)

    A writer is the bytes written so far, a reader the bytes still to come.
    Chunk frames and length-prefixed messages survive the trip, a reader never
    takes more than its frame, and a message reader never reserves much more
    memory than it has received. *)

From S2P Require Import Prelude Bytes.

(** ** Streams *)

(** [AsyncReadExt::read_exact]. *)
Definition read_exact (n : Z) (reader : bytes) (message : string) : result (bytes * bytes) :=
  if n <=? blen reader
  then Ok (take (Z.to_nat n) reader, drop (Z.to_nat n) reader)
  else Err message.

(** [AsyncWriteExt::write_all]. *)
Definition write_all (writer data : bytes) : bytes := writer ++ data.

(** [Vec::resize(n, 0)]. *)
Definition resize (buffer : bytes) (n : Z) : bytes :=
  take (Z.to_nat n) buffer ++ repeat nul (Z.to_nat n - length buffer).

Lemma length_resize b n : 0 ≤ n → blen (resize b n) = n.
Proof. intros. unfold resize, blen. rewrite length_app, length_take, repeat_length. lia. Qed.

Lemma read_exact_app a rest n e : n = blen a → read_exact n (a ++ rest) e = Ok (a, rest).
Proof.
  intros ->. unfold read_exact. rewrite blen_app.
  pose proof (blen_nonneg rest). rewrite (proj2 (Z.leb_le _ _)) by lia.
  unfold blen. rewrite Nat2Z.id. by rewrite take_app_length, drop_app_length.
Qed.

Lemma read_exact_Ok n r e a rest :
  0 ≤ n → read_exact n r e = Ok (a, rest) ↔ r = a ++ rest ∧ blen a = n.
Proof.
  intros Hn. split.
  - unfold read_exact. destruct (Z.leb_spec n (blen r)); [|done]. intros [= <- <-].
    split; [by rewrite take_drop|]. unfold blen in *. rewrite length_take. lia.
  - intros [-> <-]. by apply read_exact_app.
Qed.

(** ** Chunk frames *)

Definition MAX_CHUNK_BYTES : Z := 1024 * 1024.

Definition chunk_length_error : string := "chunk frame has an invalid payload length".

Definition chunk_header (file_index offset length : Z) : bytes :=
  u32_be file_index ++ u64_be offset ++ u32_be length.

Definition write_chunk (writer : bytes) (file_index offset : Z) (data : bytes)
    : result bytes :=
  bail_if (bool_decide (data = []) || (MAX_CHUNK_BYTES <? blen data)) chunk_length_error;;
  bail_if (u32_max <? blen data) "chunk payload length overflow";;
  Ok (write_all (write_all writer (chunk_header file_index offset (blen data))) data).

(** The number of payload bytes, the buffer that holds them first, and the rest
    of the stream. *)
Definition read_chunk (reader : bytes) (file_index offset remaining : Z) (buffer : bytes)
    : result (Z * bytes * bytes) :=
  '(header, reader) ← read_exact 16 reader "unable to read chunk header";
  bail_if (negb (bool_decide (take 4 header = u32_be file_index))
           || negb (bool_decide (take 8 (drop 4 header) = u64_be offset)))
    "chunk frame does not match the requested transfer";;
  let length := be_value (drop 12 header) in
  bail_if ((length =? 0) || (remaining <? length) || (MAX_CHUNK_BYTES <? length))
    chunk_length_error;;
  let buffer := if blen buffer <? length then resize buffer length else buffer in
  '(payload, reader) ← read_exact length reader "unable to read chunk payload";
  Ok (length, payload ++ drop (Z.to_nat length) buffer, reader).

Lemma length_chunk_header f o n : length (chunk_header f o n) = 16%nat.
Proof. unfold chunk_header. by rewrite !length_app, !length_u32_be, length_u64_be. Qed.

Lemma chunk_header_parts f o n :
  take 4 (chunk_header f o n) = u32_be f ∧
  take 8 (drop 4 (chunk_header f o n)) = u64_be o ∧
  drop 12 (chunk_header f o n) = u32_be n.
Proof.
  unfold chunk_header. pose proof (length_u32_be f) as Hf. pose proof (length_u64_be o) as Ho.
  split_and!.
  - by rewrite take_app_length'.
  - rewrite drop_app_length' by done. by rewrite take_app_length'.
  - rewrite app_assoc, drop_app_length'; [done|]. rewrite length_app; lia.
Qed.

(** Growing the buffer leaves nothing new beyond the payload. *)
Lemma drop_grown buffer n :
  drop (Z.to_nat n) (if blen buffer <? n then resize buffer n else buffer) =
  drop (Z.to_nat n) buffer.
Proof.
  destruct (Z.ltb_spec (blen buffer) n); [|done]. unfold blen in *.
  rewrite !drop_ge; [done|lia|].
  assert (blen (resize buffer n) = n) by (apply length_resize; lia). unfold blen in *. lia.
Qed.

(** A chunk frame is read back as the payload it was written with. *)
Lemma read_write_chunk w fi off data w' rest remaining buffer :
  write_chunk w fi off data = Ok w' → blen data ≤ remaining →
  ∃ frame, w' = w ++ frame ∧
    read_chunk (frame ++ rest) fi off remaining buffer =
      Ok (blen data, data ++ drop (length data) buffer, rest) ∧ data ≠ [].
Proof.
  unfold write_chunk, write_all. intros Hw Hrem. res_inv.
  bool_inv.
  exists (chunk_header fi off (blen data) ++ data). split; [by rewrite app_assoc|].
  split; [|done]. unfold read_chunk. rewrite <-app_assoc, read_exact_app
    by (unfold blen; by rewrite length_chunk_header).
  simpl. destruct (chunk_header_parts fi off (blen data)) as (-> & -> & ->).
  rewrite !bool_decide_true by done. simpl. rewrite u32_be_value
    by (pose proof (blen_nonneg data); split; lia).
  assert (0 < blen data) by (destruct data; [done|unfold blen; simpl; lia]).
  rewrite (proj2 (Z.eqb_neq _ _)) by lia.
  rewrite (proj2 (Z.ltb_ge remaining _)), (proj2 (Z.ltb_ge MAX_CHUNK_BYTES _)) by done. simpl.
  rewrite read_exact_app by done. simpl. rewrite drop_grown.
  by replace (Z.to_nat (blen data)) with (length data) by (unfold blen; lia).
Qed.

(** Whatever the peer sends, an accepted chunk has between 1 and [remaining]
    bytes, at most 1 MiB, which now start the buffer. *)
Lemma read_chunk_Ok r fi off remaining buffer count buffer' rest :
  read_chunk r fi off remaining buffer = Ok (count, buffer', rest) →
  1 ≤ count ≤ remaining ∧ count ≤ MAX_CHUNK_BYTES ∧ count ≤ blen buffer' ∧
  r = chunk_header fi off count ++ take (Z.to_nat count) buffer' ++ rest.
Proof.
  unfold read_chunk. destruct (read_exact 16 r _) as [[header r1]|] eqn:Eh; [|done].
  apply read_exact_Ok in Eh as [-> Hlen]; [|lia]. cbn [mbind result_bind].
  pose proof (be_value_range (drop 12 header)) as Hrange.
  set (n := be_value (drop 12 header)) in *. intros Hr. res_inv. bool_inv.
  match goal with E : read_exact _ _ _ = Ok _ |- _ =>
    apply read_exact_Ok in E as [-> Hp]; [|lia] end.
  assert (Hb : header = chunk_header fi off n).
  { unfold chunk_header. repeat match goal with E : take _ _ = _ |- _ => rewrite <-E end.
    rewrite <-(take_drop 4 header) at 1. f_equal.
    rewrite <-(take_drop 8 (drop 4 header)) at 1. f_equal.
    rewrite drop_drop. symmetry. apply u32_be_of_value.
    rewrite length_drop. unfold blen in Hlen. lia. }
  split_and!; try lia.
  - rewrite blen_app, Hp. match goal with |- _ ≤ _ + blen ?l => pose proof (blen_nonneg l) end. lia.
  - rewrite Hb. unfold blen in *. rewrite take_app_le by lia. by rewrite take_ge by lia.
Qed.

(** ** Message frames *)

Definition INITIAL_READ_BYTES : Z := 64 * 1024.

(** [serde_json] on a message type: [to_vec] and [from_slice]. *)
Class Json (T : Type) := {
  to_vec : T → option bytes;
  from_slice : bytes → option T;
  from_slice_to_vec x b : to_vec x = Some b → from_slice b = Some x;
}.

(** [Vec::try_reserve_exact]: the capacity after asking for room for [n] bytes in
    all, at least [n], or nothing when the allocation fails. *)
Class Allocator := {
  reserve : Z → option Z;
  reserve_enough n c : reserve n = Some c → n ≤ c;
}.

Definition read_frame_error : string := "unable to read sync protocol frame".
Definition allocate_error : string := "unable to allocate sync protocol frame".

Section frames.
Context `{Allocator}.

(** The loop of [read_frame].  [bytes] is empty or full at the head of the loop;
    the first component lists, for each reservation, the capacity asked for and
    the bytes received by then. *)
Fixpoint read_frame_loop (fuel : nat) (length : Z) (bytes : list byte) (capacity : Z)
    (reader : list byte) : list (Z * Z) * result (list byte * list byte) :=
  if blen bytes <? length then
    match fuel with
    | O => ([], Err "out of fuel")
    | S fuel =>
        let wanted :=
          Z.min (Z.max (saturating_mul u64_max capacity 2) INITIAL_READ_BYTES) length in
        let grow := blen bytes =? capacity in
        match (if grow then reserve wanted else Some capacity) with
        | None => ([(wanted, blen bytes)], Err allocate_error)
        | Some capacity =>
            let start := blen bytes in
            let stop := Z.min capacity length in
            let '(log, r) :=
              match read_exact (stop - start) reader read_frame_error with
              | Ok (data, reader) =>
                  read_frame_loop fuel length (bytes ++ data) capacity reader
              | Err e => ([], Err e)
              end in
            ((if grow then [(wanted, start)] else []) ++ log, r)
        end
    end
  else ([], Ok (bytes, reader)).

(** [read_frame] into a buffer of capacity [capacity], cleared first. *)
Definition read_frame (reader : bytes) (limit capacity : Z)
    : list (Z * Z) * result (bytes * bytes) :=
  match read_exact 4 reader "unable to read sync protocol frame length" with
  | Err e => ([], Err e)
  | Ok (header, reader) =>
      let length := be_value header in
      if limit <? length then ([], Err "sync protocol frame exceeds its maximum size")
      else read_frame_loop (S (Z.to_nat length)) length [] capacity reader
  end.

Definition write_json {T} `{Json T} (writer : bytes) (value : T) (limit : Z)
    : result bytes :=
  payload ← ok_or (to_vec value) "unable to serialize sync protocol message";
  bail_if (limit <? blen payload) "sync protocol message exceeds its maximum size";;
  bail_if (u32_max <? blen payload) "sync protocol message is too large";;
  Ok (write_all (write_all writer (u32_be (blen payload))) payload).

Definition read_json {T} `{Json T} (reader : bytes) (limit : Z) : result (T * bytes) :=
  '(payload, reader) ← (read_frame reader limit 0).2;
  value ← ok_or (from_slice payload) "unable to parse sync protocol frame";
  Ok (value, reader).

(** *** The loop *)

(** What the loop does whatever the peer sends: it ends within the fuel, it
    returns exactly [length] bytes and leaves the rest, and it fails only when the
    stream is short or memory is. *)
Lemma read_frame_loop_spec fuel n b c r :
  0 ≤ n ≤ u64_max → blen b ≤ n → blen b ≤ c → n - blen b ≤ Z.of_nat fuel →
  match (read_frame_loop fuel n b c r).2 with
  | Ok (p, rest) => b ++ r = p ++ rest ∧ blen p = n
  | Err e =>
      (e = read_frame_error ∧ blen b + blen r < n) ∨
      (e = allocate_error ∧ ∃ k, k ≤ n ∧ reserve k = None)
  end.
Proof.
  intros Hn. revert b c r. induction fuel as [|fuel IH]; intros b c r Hb Hc Hf;
    cbn [read_frame_loop]; destruct (Z.ltb_spec (blen b) n) as [Hlt|Hge];
    try (simpl; split; [done|lia]); [lia|].
  set (w := Z.min _ n). set (grow := blen b =? c).
  destruct (if grow then reserve w else Some c) as [c'|] eqn:Ec; simpl.
  - assert (Hc' : blen b < Z.min c' n).
    { subst grow. destruct (Z.eqb_spec (blen b) c) as [Heq|Hne].
      - apply reserve_enough in Ec. subst w. unfold saturating_mul, INITIAL_READ_BYTES in *.
        u_unfold. pose proof (blen_nonneg b). lia.
      - injection Ec as <-. lia. }
    destruct (read_exact _ r _) as [[data r']|e] eqn:Er.
    + apply read_exact_Ok in Er as [-> Hd]; [|lia].
      specialize (IH (b ++ data) c' r'). rewrite blen_app in IH.
      destruct (read_frame_loop fuel n (b ++ data) c' r') as [log [[p rest]|e]]; simpl in *.
      * rewrite app_assoc. apply IH; lia.
      * rewrite !blen_app. destruct IH as [[-> ?]|?]; [lia..| |by right]. left. split; [done|lia].
    + unfold read_exact in Er. destruct (Z.leb_spec (Z.min c' n - blen b) (blen r)); [done|].
      injection Er as <-. left. split; [done|]. lia.
  - right. split; [done|]. exists w. split; [subst w; lia|]. by destruct grow.
Qed.

(** Each reservation is for at most the frame, and for at most 64 KiB or twice
    what has been received. *)
Lemma read_frame_loop_log fuel n b c r :
  0 ≤ n ≤ u64_max → blen b ≤ n → blen b ≤ c →
  Forall (λ '(w, got), w ≤ n ∧ w ≤ Z.max INITIAL_READ_BYTES (2 * got) ∧
                       blen b ≤ got ≤ blen b + blen r)
    (read_frame_loop fuel n b c r).1.
Proof.
  intros Hn. revert b c r. induction fuel as [|fuel IH]; intros b c r Hb Hc;
    cbn [read_frame_loop]; destruct (Z.ltb_spec (blen b) n) as [Hlt|Hge];
    try apply Forall_nil_2.
  set (w := Z.min _ n). pose proof (blen_nonneg b). pose proof (blen_nonneg r).
  assert (Hw : blen b = c → w ≤ n ∧ w ≤ Z.max INITIAL_READ_BYTES (2 * blen b) ∧
                            blen b ≤ blen b ≤ blen b + blen r).
  { intros ->. subst w. unfold saturating_mul, INITIAL_READ_BYTES. u_unfold. lia. }
  destruct (Z.eqb_spec (blen b) c) as [Heq|Hne].
  - destruct (reserve w) as [c'|] eqn:Ec; simpl; [|by constructor; auto using Forall_nil_2].
    apply reserve_enough in Ec.
    destruct (read_exact _ r _) as [[data r']|e] eqn:Er; simpl;
      [|by constructor; auto using Forall_nil_2].
    apply read_exact_Ok in Er as [-> Hd];
      [|subst w; unfold saturating_mul, INITIAL_READ_BYTES in *; u_unfold; lia].
    specialize (IH (b ++ data) c' r'). rewrite !blen_app in IH.
    destruct (read_frame_loop fuel n (b ++ data) c' r') as [log res]; simpl in *.
    constructor; [auto|]. eapply Forall_impl; [apply IH; lia|].
    intros [w' got]. rewrite blen_app. pose proof (blen_nonneg data). lia.
  - simpl. destruct (read_exact _ r _) as [[data r']|e] eqn:Er; simpl; [|apply Forall_nil_2].
    apply read_exact_Ok in Er as [-> Hd]; [|lia].
    specialize (IH (b ++ data) c r'). rewrite !blen_app in IH.
    destruct (read_frame_loop fuel n (b ++ data) c r') as [log res]; simpl in *.
    eapply Forall_impl; [apply IH; lia|].
    intros [w' got]. rewrite blen_app. pose proof (blen_nonneg data). lia.
Qed.

Lemma frame_length header : blen header = 4 → 0 ≤ be_value header ≤ u64_max.
Proof.
  intros Hl. pose proof (be_value_range header). unfold blen in Hl.
  assert (length header = 4%nat) as E by lia. rewrite E in *. u_unfold. lia.
Qed.

(** ** Properties *)

(** A message that was written is read back, whatever follows it on the
    stream, as the same value, and exactly its frame is consumed, provided the
    reader's limit is no smaller and memory suffices. *)
Lemma read_json_write_json {T} `{Json T} (value : T) (writer writer' rest : bytes)
    (limit limit' : Z) (Hw : write_json writer value limit = Ok writer')
    (Hlim : limit ≤ limit') (Hmem : ∀ k, k ≤ limit → is_Some (reserve k)) :
  ∃ frame, writer' = writer ++ frame ∧ read_json (frame ++ rest) limit' = Ok (value, rest).
Proof.
  unfold write_json, write_all in Hw. res_inv. bool_inv. rename a into payload.
  exists (u32_be (blen payload) ++ payload). split; [by rewrite app_assoc|].
  unfold read_json, read_frame. rewrite <-app_assoc, read_exact_app
    by (unfold blen; by rewrite length_u32_be).
  pose proof (blen_nonneg payload). rewrite u32_be_value by done.
  rewrite (proj2 (Z.ltb_ge limit' _)) by lia.
  pose proof (read_frame_loop_spec (S (Z.to_nat (blen payload))) (blen payload) [] 0
    (payload ++ rest)) as Hs.
  destruct (read_frame_loop _ _ _ _ _) as [log [[p r]|e]]; simpl in *.
  - destruct Hs as [Hs Hl]; [u_unfold; unfold blen in *; simpl; lia..|].
    unfold blen in Hl. apply app_inj_len in Hs as [<- <-]; [|lia].
    by erewrite from_slice_to_vec.
  - exfalso. destruct Hs as [[_ Hs]|(_ & k & Hk & Hs)];
      [u_unfold; unfold blen in *; simpl; lia..| |].
    + rewrite blen_app in Hs. pose proof (blen_nonneg rest). unfold blen in *. simpl in *. lia.
    + destruct (Hmem k) as [c Hc]; [lia|]. congruence.
Qed.

(** Reading a message frame always ends; it returns exactly as many bytes
    as the header announces and leaves the rest, or fails because the stream is
    short, the frame exceeds the limit or memory is exhausted. *)
Lemma read_frame_outcome (reader : bytes) (limit capacity : Z) (Hc : 0 ≤ capacity) :
  match (read_frame reader limit capacity).2 with
  | Ok (payload, rest) =>
      blen payload ≤ limit ∧ reader = u32_be (blen payload) ++ payload ++ rest
  | Err e =>
      blen reader < 4 ∨
      (∃ header rest, reader = header ++ rest ∧ blen header = 4 ∧
         (limit < be_value header ∨ blen rest < be_value header ∨
          ∃ k, k ≤ be_value header ∧ reserve k = None))
  end.
Proof.
  unfold read_frame. destruct (read_exact 4 reader _) as [[header r]|e] eqn:Eh.
  - apply read_exact_Ok in Eh as [-> Hl]; [|lia]. pose proof (frame_length header Hl) as Hr.
    destruct (Z.ltb_spec limit (be_value header)) as [Hlim|Hlim].
    { right. exists header, r. auto. }
    pose proof (read_frame_loop_spec (S (Z.to_nat (be_value header))) (be_value header) []
      capacity r) as Hs.
    destruct (read_frame_loop _ _ _ _ _) as [log [[p rest]|e]]; simpl in *.
    + destruct Hs as [Hs Hn]; [unfold blen; simpl; lia..|]. subst r. rewrite Hn.
      split; [done|]. f_equal. symmetry. apply u32_be_of_value. unfold blen in Hl. lia.
    + right. exists header, r. split; [done|]. split; [done|].
      destruct Hs as [[_ Hshort]|(_ & k & Hk & Hs)]; [unfold blen in *; simpl; lia..| |].
      * right; left. exact Hshort.
      * right; right. eauto.
  - simpl. left. unfold read_exact in Eh. by destruct (Z.leb_spec 4 (blen reader)).
Qed.

(** A peer that announces a large frame cannot make the reader allocate it
    in advance: every reservation is for at most the announced length, and for
    at most 64 KiB or twice the bytes received so far. *)
Lemma read_frame_memory_bounded (reader : bytes) (limit : Z) :
  Forall (λ '(wanted, received),
      wanted ≤ limit ∧ wanted ≤ Z.max INITIAL_READ_BYTES (2 * received) ∧
      0 ≤ received ≤ blen reader)
    (read_frame reader limit 0).1.
Proof.
  unfold read_frame. destruct (read_exact 4 reader _) as [[header r]|e] eqn:Eh;
    [|apply Forall_nil_2].
  apply read_exact_Ok in Eh as [-> Hl]; [|lia]. pose proof (frame_length header Hl) as Hr.
  destruct (Z.ltb_spec limit (be_value header)) as [Hlim|Hlim]; [apply Forall_nil_2|].
  eapply Forall_impl; [apply read_frame_loop_log; unfold blen; simpl; lia|].
  intros [w got]. rewrite blen_app, (blen_nil (A := byte)). lia.
Qed.
End frames.

(** *** Witnesses *)

(** Messages that are already text, and an allocator with [room] bytes. *)
#[export] Instance bytes_json : Json bytes := {|
  to_vec x := Some x; from_slice x := Some x;
  from_slice_to_vec x b E := match E with eq_refl => eq_refl end;
|}.
Definition bounded_reserve (room n : Z) : option Z := if n <=? room then Some n else None.
Lemma bounded_reserve_enough room n c : bounded_reserve room n = Some c → n ≤ c.
Proof. unfold bounded_reserve. destruct (n <=? room); [|done]. intros [= ->]. lia. Qed.
Definition bounded_allocator (room : Z) : Allocator :=
  {| reserve := bounded_reserve room; reserve_enough := bounded_reserve_enough room |}.

Lemma read_json_write_json_witness :
  let A := bounded_allocator 100 in
  ∃ frame, bs "x" ++ u32_be 5 ++ bs "hello" = bs "x" ++ frame ∧
    read_json (frame ++ bs "tail") 64 = Ok (bs "hello", bs "tail").
Proof.
  intros A. apply (read_json_write_json (bs "hello") (bs "x") _ (bs "tail") 50 64).
  - vm_compute. reflexivity.
  - lia.
  - intros k Hk. exists k. simpl. unfold bounded_reserve.
    by rewrite (proj2 (Z.leb_le k 100)) by lia.
Defined.

Lemma read_frame_outcome_witness :
  let A := bounded_allocator 3 in
  let reader := u32_be 5 ++ bs "hello" in
  match (read_frame reader 64 0).2 with
  | Ok (payload, rest) =>
      blen payload ≤ 64 ∧ reader = u32_be (blen payload) ++ payload ++ rest
  | Err e =>
      blen reader < 4 ∨
      (∃ header rest, reader = header ++ rest ∧ blen header = 4 ∧
         (64 < be_value header ∨ blen rest < be_value header ∨
          ∃ k, k ≤ be_value header ∧ reserve k = None))
  end.
Proof. intros A reader. apply (read_frame_outcome reader 64 0). lia. Defined.
