(* ===== verification/Clock.v ===== *)
(** * The hybrid logical clock (src/types/mod.rs)

    [HlcTimestamp] with its order, and [ClockState] with [tick] and [observe].
    A clock [covers] the timestamps that it has issued or observed; [tick]
    exceeds everything covered. *)

From S2P Require Import Prelude Bytes.

Definition FORMAT_VERSION : Z := 1.

Record HlcTimestamp := {
  wall_ms : Z;
  counter : Z;
  author : bytes;
}.

Global Instance HlcTimestamp_eq_dec : EqDecision HlcTimestamp.
Proof. solve_decision. Defined.

(** [impl Ord for HlcTimestamp]: the order of the triple. *)
Definition hlc_triple (t : HlcTimestamp) : Z * Z * bytes :=
  (wall_ms t, counter t, author t).
Global Instance HlcTimestamp_ord : Ord HlcTimestamp := λ x y,
  cmp (hlc_triple x) (hlc_triple y).

Global Instance HlcTimestamp_total : TotalOrd HlcTimestamp.
Proof.
  split; unfold cmp, HlcTimestamp_ord.
  - intros [] []. rewrite cmp_eq. unfold hlc_triple; simpl. naive_solver.
  - intros x y. apply (cmp_antisym (A:=Z * Z * bytes)).
  - intros x y z. apply (cmp_trans (A:=Z * Z * bytes)).
Qed.

Record ClockState := {
  clock_format_version : Z;
  last_wall_ms : Z;
  last_counter : Z;
}.

Definition ClockState_new : ClockState :=
  {| clock_format_version := FORMAT_VERSION; last_wall_ms := 0; last_counter := 0 |}.

Definition ClockState_validate (c : ClockState) : result unit :=
  bail_if (negb (clock_format_version c =? FORMAT_VERSION))
    "unsupported clock format version".

Definition counter_overflow : string := "hybrid logical clock counter overflow".

Definition next_counter (c : Z) : result Z :=
  ok_or (checked_add u32_max c 1) counter_overflow.

(** [ClockState::tick]; on an error the clock is left as it was. *)
Definition tick (c : ClockState) (now_ms : Z) (a : bytes)
    : result (ClockState * HlcTimestamp) :=
  ClockState_validate c;;
  '(wall, cnt) ← (if last_wall_ms c <? now_ms then Ok (now_ms, 0)
                  else n ← next_counter (last_counter c); Ok (last_wall_ms c, n));
  Ok ({| clock_format_version := clock_format_version c;
         last_wall_ms := wall; last_counter := cnt |},
      {| wall_ms := wall; counter := cnt; author := a |}).

(** [ClockState::observe]. *)
Definition observe (c : ClockState) (remote : HlcTimestamp) (now_ms : Z)
    : result ClockState :=
  ClockState_validate c;;
  let max_wall := Z.max (Z.max (last_wall_ms c) (wall_ms remote)) now_ms in
  n ← (if (max_wall =? last_wall_ms c) && (max_wall =? wall_ms remote)
       then next_counter (Z.max (last_counter c) (counter remote))
       else if max_wall =? last_wall_ms c then next_counter (last_counter c)
       else if max_wall =? wall_ms remote then next_counter (counter remote)
       else Ok 0);
  Ok {| clock_format_version := clock_format_version c;
        last_wall_ms := max_wall; last_counter := n |}.

(** ** Covering *)

(** [covers c t]: the clock is at or past the wall and counter of [t]. *)
Definition covers (c : ClockState) (t : HlcTimestamp) : Prop :=
  wall_ms t < last_wall_ms c ∨ (wall_ms t = last_wall_ms c ∧ counter t ≤ last_counter c).

(** [c] has not gone back with respect to [c0]. *)
Definition clock_le (c0 c : ClockState) : Prop :=
  last_wall_ms c0 < last_wall_ms c ∨
  (last_wall_ms c0 = last_wall_ms c ∧ last_counter c0 ≤ last_counter c).

Definition clock_wf (c : ClockState) : Prop :=
  is_u64 (last_wall_ms c) ∧ is_u32 (last_counter c).
Definition hlc_wf (t : HlcTimestamp) : Prop :=
  is_u64 (wall_ms t) ∧ is_u32 (counter t) ∧ length (author t) = 32%nat.

Lemma hlc_lt_iff x y :
  ltb x y = true ↔
  wall_ms x < wall_ms y ∨
  (wall_ms x = wall_ms y ∧ counter x < counter y) ∨
  (wall_ms x = wall_ms y ∧ counter x = counter y ∧ ltb (author x) (author y) = true).
Proof.
  destruct x as [w c a], y as [w' c' a']; simpl.
  assert (E : cmp (Build_HlcTimestamp w c a) (Build_HlcTimestamp w' c' a') =
    then_with (then_with (w ?= w') (c ?= c')) (cmp a a')) by done.
  unfold ltb. rewrite E. clear E.
  destruct (Z.compare_spec w w'), (Z.compare_spec c c'), (cmp a a');
    simpl; intuition first [congruence | lia].
Qed.

Lemma covers_le c0 c t : clock_le c0 c → covers c0 t → covers c t.
Proof. unfold clock_le, covers. lia. Qed.

Lemma clock_le_trans c0 c1 c2 : clock_le c0 c1 → clock_le c1 c2 → clock_le c0 c2.
Proof. unfold clock_le. lia. Qed.

Lemma clock_le_refl c : clock_le c c.
Proof. unfold clock_le. lia. Qed.

Lemma next_counter_Ok c n : next_counter c = Ok n ↔ n = c + 1 ∧ c < u32_max.
Proof.
  unfold next_counter, checked_add. destruct (Z.leb_spec (c + 1) u32_max); simpl; [|naive_solver lia].
  split; [intros [= <-]; lia|intros [-> _]; done].
Qed.

Lemma tick_spec c now a c' t :
  tick c now a = Ok (c', t) →
  author t = a ∧ wall_ms t = last_wall_ms c' ∧ counter t = last_counter c' ∧
  clock_format_version c' = FORMAT_VERSION ∧
  ((last_wall_ms c < now ∧ last_wall_ms c' = now ∧ last_counter c' = 0) ∨
   (now ≤ last_wall_ms c ∧ last_wall_ms c' = last_wall_ms c ∧
    last_counter c' = last_counter c + 1 ∧ last_counter c < u32_max)).
Proof.
  unfold tick, ClockState_validate. intros H. res_inv.
  destruct (Z.eqb_spec (clock_format_version c) FORMAT_VERSION); [|done].
  destruct (Z.ltb_spec (last_wall_ms c) now); res_inv; simplify_eq; simpl.
  - repeat split; [done|]. left. lia.
  - rewrite next_counter_Ok in *. repeat split; [done|]. right. lia.
Qed.

Lemma tick_covers c now a c' t :
  tick c now a = Ok (c', t) → covers c' t ∧ clock_le c c'.
Proof. intros H%tick_spec. unfold covers, clock_le. lia. Qed.

Lemma tick_wf c now a c' t :
  clock_wf c → is_u64 now → length a = 32%nat →
  tick c now a = Ok (c', t) → clock_wf c' ∧ hlc_wf t.
Proof.
  intros [??] ? Ha (Ea & Ew & Ec & _ & Hc)%tick_spec. unfold clock_wf, hlc_wf.
  rewrite Ea, Ew, Ec. u_unfold. split_and!; try done; lia.
Qed.

Lemma tick_after c now a c' t x :
  covers c x → tick c now a = Ok (c', t) → ltb x t = true.
Proof. intros Hx H%tick_spec. apply hlc_lt_iff. unfold covers in Hx. lia. Qed.

Lemma observe_spec c r now c' :
  observe c r now = Ok c' →
  clock_format_version c' = FORMAT_VERSION ∧
  last_wall_ms c' = Z.max (Z.max (last_wall_ms c) (wall_ms r)) now ∧
  covers c' r ∧ clock_le c c'.
Proof.
  unfold observe, ClockState_validate. intros H. res_inv. simpl.
  destruct (Z.eqb_spec (clock_format_version c) FORMAT_VERSION); [|done].
  split; [done|]. split; [done|]. unfold covers, clock_le; simpl.
  set (m := Z.max _ _) in *.
  destruct (Z.eqb_spec m (last_wall_ms c)), (Z.eqb_spec m (wall_ms r)); simpl in *;
    rewrite ?next_counter_Ok in *; simplify_eq; lia.
Qed.

(** ** Sequences of clock operations *)

(** What the engine does with a clock: [tick] for each local change of a scan,
    [observe] for each record of a remote manifest. *)
Inductive clock_op :=
| OpTick (now_ms : Z) (a : bytes)
| OpObserve (remote : HlcTimestamp) (now_ms : Z).

(** Runs the operations and collects the issued timestamps, oldest first. *)
Fixpoint run_clock (ops : list clock_op) (c : ClockState)
    : result (ClockState * list HlcTimestamp) :=
  match ops with
  | [] => Ok (c, [])
  | OpTick now a :: ops' =>
      '(c', t) ← tick c now a;
      '(c'', ts) ← run_clock ops' c';
      Ok (c'', t :: ts)
  | OpObserve r now :: ops' => c' ← observe c r now; run_clock ops' c'
  end.

Lemma run_clock_le ops c c' ts :
  run_clock ops c = Ok (c', ts) → clock_le c c' ∧ Forall (covers c') ts.
Proof.
  revert c ts. induction ops as [|[now a|r now] ops IH]; simpl; intros c ts H; res_inv.
  - simplify_eq. split; [apply clock_le_refl|constructor].
  - simplify_eq. edestruct IH as [Hle Hts]; [done|].
    edestruct tick_covers as [Hcov Hle']; [done|].
    split; [by eapply clock_le_trans|]. constructor; [by eapply covers_le|done].
  - edestruct IH as [Hle Hts]; [done|].
    edestruct observe_spec as (_ & _ & _ & Hle'); [done|].
    split; [by eapply clock_le_trans|done].
Qed.

Lemma run_clock_after ops c c' ts x :
  covers c x → run_clock ops c = Ok (c', ts) → Forall (λ t, ltb x t = true) ts.
Proof.
  revert c ts. induction ops as [|[now a|r now] ops IH]; simpl; intros c ts Hx H; res_inv.
  - simplify_eq. constructor.
  - simplify_eq. constructor; [by eapply tick_after|].
    eapply IH; [|done]. eapply covers_le; [|done]. by eapply tick_covers.
  - eapply IH; [|done]. eapply covers_le; [|done]. by eapply observe_spec.
Qed.

(** Over any sequence of ticks and observations, the timestamps a clock
    issues are strictly increasing, and each of them is strictly greater than
    every timestamp the clock already covered when the sequence started: no
    local change ever reuses or goes behind an earlier version. *)
Lemma clock_issues_strictly_increasing (ops : list clock_op) (c c' : ClockState)
    (ts : list HlcTimestamp) (H : run_clock ops c = Ok (c', ts)) :
  StronglySorted (λ x y, ltb x y = true) ts ∧
  (∀ x t, covers c x → t ∈ ts → ltb x t = true).
Proof.
  split.
  - revert c ts H. induction ops as [|[now a|r now] ops IH]; simpl; intros c ts H; res_inv;
      simplify_eq; [constructor| |by eapply IH].
    constructor; [by eapply IH|]. eapply run_clock_after; [|done]. by eapply tick_covers.
  - intros x t Hx Ht. eapply run_clock_after in H; [|done].
    rewrite List.Forall_forall in H. by apply H, list_elem_of_In.
Qed.

(** Once a remote timestamp has been observed, every timestamp issued later,
    after any further ticks and observations, is strictly greater than it: a
    local change made after a remote one was seen wins over it. *)
Lemma tick_exceeds_observed (c c1 c2 : ClockState) (r : HlcTimestamp) (now : Z)
    (ops : list clock_op) (ts : list HlcTimestamp)
    (Hobs : observe c r now = Ok c1) (Hrun : run_clock ops c1 = Ok (c2, ts)) :
  Forall (λ t, ltb r t = true) ts.
Proof. eapply run_clock_after; [|done]. by eapply observe_spec. Qed.

(** [tick] fails exactly on an unknown clock format or when the wall clock
    has not advanced and the 32-bit counter is exhausted; otherwise it returns
    in-range values. *)
Lemma tick_outcome (c : ClockState) (now : Z) (a : bytes)
    (Hc : clock_wf c) (Hnow : is_u64 now) (Ha : length a = 32%nat) :
  (∃ c' t, tick c now a = Ok (c', t) ∧ clock_wf c' ∧ hlc_wf t) ∨
  (clock_format_version c ≠ FORMAT_VERSION ∧
   tick c now a = Err "unsupported clock format version") ∨
  (clock_format_version c = FORMAT_VERSION ∧ now ≤ last_wall_ms c ∧
   last_counter c = u32_max ∧ tick c now a = Err counter_overflow).
Proof.
  destruct (tick c now a) as [[c' t]|e] eqn:E.
  { left. exists c', t. split; [done|]. by eapply tick_wf. }
  right. unfold tick, ClockState_validate in E.
  destruct (Z.eqb_spec (clock_format_version c) FORMAT_VERSION) as [Hv|Hv]; simpl in E.
  - right. destruct (Z.ltb_spec (last_wall_ms c) now); [done|].
    unfold next_counter, checked_add in E. destruct Hc as [_ Hc]. u_unfold.
    destruct (Z.leb_spec (last_counter c + 1) (2 ^ 32 - 1)); simpl in E; [done|].
    injection E as <-. split_and!; [done|lia|lia|done].
  - left. split; [done|]. by injection E as <-.
Qed.

(** *** Witnesses *)

Definition ts_example (w n : Z) : HlcTimestamp :=
  {| wall_ms := w; counter := n; author := repeat "001"%byte 32 |}.

Lemma clock_issues_witness :
  let ops := [OpTick 5 (repeat "001"%byte 32); OpObserve (ts_example 9 4) 6;
              OpTick 7 (repeat "001"%byte 32)] in
  let ts := [ts_example 5 0; ts_example 9 6] in
  let c' := {| clock_format_version := 1; last_wall_ms := 9; last_counter := 6 |} in
  run_clock ops ClockState_new = Ok (c', ts) ∧
  StronglySorted (λ x y, ltb x y = true) ts.
Proof.
  assert (H : run_clock
      [OpTick 5 (repeat "001"%byte 32); OpObserve (ts_example 9 4) 6;
       OpTick 7 (repeat "001"%byte 32)] ClockState_new =
      Ok ({| clock_format_version := 1; last_wall_ms := 9; last_counter := 6 |},
          [ts_example 5 0; ts_example 9 6])) by (vm_compute; reflexivity).
  split; [exact H|]. exact (proj1 (clock_issues_strictly_increasing _ _ _ _ H)).
Defined.

Lemma tick_exceeds_observed_witness :
  Forall (λ t, ltb (ts_example 9 4) t = true) [ts_example 9 6; ts_example 9 7].
Proof.
  apply (tick_exceeds_observed ClockState_new
           {| clock_format_version := 1; last_wall_ms := 9; last_counter := 5 |}
           {| clock_format_version := 1; last_wall_ms := 9; last_counter := 7 |}
           (ts_example 9 4) 6
           [OpTick 7 (repeat "001"%byte 32); OpTick 9 (repeat "001"%byte 32)]);
    vm_compute; reflexivity.
Defined.

Lemma tick_outcome_witness :
  let c := {| clock_format_version := 1; last_wall_ms := 8; last_counter := u32_max |} in
  clock_wf c ∧
  ((∃ c' t, tick c 8 (repeat "001"%byte 32) = Ok (c', t) ∧ clock_wf c' ∧ hlc_wf t) ∨
   (clock_format_version c ≠ FORMAT_VERSION ∧
    tick c 8 (repeat "001"%byte 32) = Err "unsupported clock format version") ∨
   (clock_format_version c = FORMAT_VERSION ∧ 8 ≤ last_wall_ms c ∧
    last_counter c = u32_max ∧ tick c 8 (repeat "001"%byte 32) = Err counter_overflow)).
Proof.
  assert (Hc : clock_wf {| clock_format_version := 1; last_wall_ms := 8;
                           last_counter := u32_max |})
    by (split; u_unfold; simpl; lia).
  split; [done|]. apply tick_outcome; [done|u_unfold; lia|reflexivity].
Defined.
