(* ===== verification/Types.v ===== *)
(** * Identifiers, configuration and runtime status (src/types/mod.rs)

    [ShareId], [ShareSecret], endpoint identifiers, share names, [ShareConfig]
    and [RuntimeStatus], with their parsers and validators. *)

From S2P Require Import Prelude Bytes External Clock.

Definition PROTOCOL_VERSION : Z := 6.
Definition TICKET_PROTOCOL_VERSION : Z := 1.
Definition HEX_LENGTH : Z := 64.

(** [[u8; N]]: a byte list of length [N]. *)
Definition is_array (n : nat) (b : bytes) : Prop := length b = n.

(** [<[u8; N]>::try_from(slice)]. *)
Definition try_into (n : nat) (b : bytes) (message : string) : result bytes :=
  if (length b =? n)%nat then Ok b else Err message.

Lemma try_into_Ok n b e a : try_into n b e = Ok a ↔ a = b ∧ is_array n b.
Proof.
  unfold try_into, is_array. destruct (Nat.eqb_spec (length b) n); naive_solver.
Qed.

Lemma lower_hex_spec b :
  is_ascii_hexdigit b && negb (is_ascii_uppercase b) = is_lower_hex b.
Proof. by destruct b. Qed.

(** ** Share identifiers *)

Section share_id.
Context `{HexCodec}.

(** [ShareId::hex_bytes] and [impl Display for ShareId]. *)
Definition share_id_to_string (id : bytes) : bytes := hex_encode id.

Definition share_id_parse (value : bytes) : result bytes :=
  bail_if (negb (blen value =? HEX_LENGTH)
           || negb (forallb is_ascii_hexdigit value)
           || existsb is_ascii_uppercase value)
    "share ID must be 64 lowercase hexadecimal characters";;
  decoded ← ok_or (hex_decode value) "invalid share ID";
  try_into 32 decoded "share ID has an invalid length".

Definition matches_prefix (id value : bytes) : bool :=
  negb (bool_decide (value = []))
  && (blen value <=? HEX_LENGTH)
  && forallb is_ascii_hexdigit value
  && starts_with (share_id_to_string id) value.

Lemma forallb_lower_hex s :
  forallb is_ascii_hexdigit s = true ∧ existsb is_ascii_uppercase s = false ↔
  forallb is_lower_hex s = true.
Proof.
  induction s as [|b s IH]; simpl; [done|]. rewrite <-lower_hex_spec.
  rewrite !andb_true_iff, <-IH, orb_false_iff, negb_true_iff. tauto.
Qed.

Lemma share_id_parse_Ok value id :
  share_id_parse value = Ok id ↔ share_id_to_string id = value ∧ is_array 32 id.
Proof.
  unfold share_id_parse, share_id_to_string. split.
  - intros H1. res_inv. apply orb_false_elim in E1 as [E1 Hup].
    apply orb_false_elim in E1 as [_ Hhex%negb_false_iff].
    apply try_into_Ok in H1 as [-> Hlen]. split; [|done].
    apply hex_encode_decode; [|done]. by apply forallb_lower_hex.
  - intros [<- Hlen]. pose proof (hex_encode_lower id) as Hl.
    apply forallb_lower_hex in Hl as [Hh Hu]. rewrite Hh, Hu.
    assert (blen (hex_encode id) = HEX_LENGTH) as Hb.
    { unfold blen, HEX_LENGTH. rewrite length_hex_encode, Hlen. done. }
    rewrite Hb, Z.eqb_refl; simpl. rewrite hex_decode_encode; simpl.
    by apply try_into_Ok.
Qed.

(** A share is selected by a non-empty prefix of its own text form, and by
    nothing else. *)
Lemma matches_prefix_spec id value :
  is_array 32 id →
  matches_prefix id value = true ↔
  value ≠ [] ∧ ∃ rest, share_id_to_string id = value ++ rest.
Proof.
  intros Hid. unfold matches_prefix, starts_with.
  rewrite !andb_true_iff, negb_true_iff, bool_decide_eq_false, Z.leb_le.
  split.
  - intros [[[Hne _] _] Hp]. split; [done|].
    destruct (strip_prefix value _) as [t|] eqn:E; [|done].
    apply strip_prefix_Some in E. eauto.
  - intros [Hne [t Ht]].
    assert (Hlen : blen (share_id_to_string id) = HEX_LENGTH).
    { unfold share_id_to_string, blen, HEX_LENGTH. by rewrite length_hex_encode, Hid. }
    rewrite Ht, blen_app in Hlen. pose proof (blen_nonneg t).
    split_and!; [done|unfold HEX_LENGTH in *; lia| |].
    + pose proof (hex_encode_lower id) as Hl.
      apply forallb_lower_hex in Hl as [Hh _]. unfold share_id_to_string in Ht.
      rewrite Ht, forallb_app, andb_true_iff in Hh. tauto.
    + by rewrite (proj2 (strip_prefix_Some value (share_id_to_string id) t) Ht).
Qed.
End share_id.

(** ** Share secrets *)

Section share_secret.
Context `{Base64Codec}.

Definition share_secret_encoded (secret : bytes) : bytes := b64_encode secret.

Definition share_secret_parse (value : bytes) : result bytes :=
  bail_if (negb (blen value =? 43) || negb (forallb is_base64url value))
    "share secret has an invalid encoding";;
  decoded ← ok_or (b64_decode value) "share secret has an invalid encoding";
  secret ← try_into 32 decoded "share secret has an invalid length";
  bail_if (negb (bool_decide (b64_encode secret = value)))
    "share secret must use canonical base64url encoding";;
  Ok secret.

Lemma share_secret_parse_Ok value secret :
  share_secret_parse value = Ok secret ↔
  share_secret_encoded secret = value ∧ is_array 32 secret.
Proof.
  unfold share_secret_parse, share_secret_encoded. split.
  - intros H1. res_inv. rewrite try_into_Ok in *. destruct_and!. subst.
    split; [|done]. by case_bool_decide.
  - intros [<- Hlen]. rewrite b64_encode_alphabet.
    assert (blen (b64_encode secret) = 43) as ->.
    { unfold blen. rewrite length_b64_encode, Hlen. done. }
    simpl. rewrite b64_decode_encode; simpl.
    rewrite (proj2 (try_into_Ok 32 secret _ secret)) by done; simpl.
    by rewrite bool_decide_true.
Qed.
End share_secret.

(** ** Endpoint identifiers *)

Section endpoint_id.
Context `{Iroh}.

Definition endpoint_id_string (e : EndpointId) : bytes := ep_to_string e.

Definition parse_endpoint_id (value : bytes) : result EndpointId :=
  e ← ok_or (ep_from_str value) "invalid Iroh endpoint ID";
  bail_if (negb (bool_decide (ep_to_string e = value)))
    "endpoint ID must use canonical lowercase hexadecimal encoding";;
  Ok e.

Lemma parse_endpoint_id_Ok value e :
  parse_endpoint_id value = Ok e ↔ endpoint_id_string e = value.
Proof.
  unfold parse_endpoint_id, endpoint_id_string. split.
  - intros H1. res_inv. by case_bool_decide.
  - intros <-. rewrite ep_from_str_to_string; simpl. by rewrite bool_decide_true.
Qed.
End endpoint_id.

(** ** Share names *)

(** The [char]s of a string: UTF-8 decoding, on the valid UTF-8 a [str] holds. *)
Definition cont (b : byte) : Z := byte_val b mod 64.
Fixpoint utf8_chars (s : bytes) : list Z :=
  match s with
  | [] => []
  | b0 :: s1 =>
      let v := byte_val b0 in
      if v <? 0x80 then v :: utf8_chars s1
      else match s1 with
      | [] => []
      | b1 :: s2 =>
          if v <? 0xE0 then ((v mod 32) * 64 + cont b1) :: utf8_chars s2
          else match s2 with
          | [] => []
          | b2 :: s3 =>
              if v <? 0xF0
              then ((v mod 16) * 4096 + cont b1 * 64 + cont b2) :: utf8_chars s3
              else match s3 with
              | [] => []
              | b3 :: s4 =>
                  ((v mod 8) * 262144 + cont b1 * 4096 + cont b2 * 64 + cont b3)
                    :: utf8_chars s4
              end
          end
      end
  end.

(** [char::len_utf8]. *)
Definition len_utf8 (c : Z) : Z :=
  if c <? 0x80 then 1 else if c <? 0x800 then 2 else if c <? 0x10000 then 3 else 4.
Definition str_len (cs : list Z) : Z := foldr (λ c n, len_utf8 c + n) 0 cs.

(** [char::is_whitespace]: the Unicode property White_Space. *)
Definition is_whitespace (c : Z) : bool :=
  ((9 <=? c) && (c <=? 13)) || (c =? 32) || (c =? 0x85) || (c =? 0xA0) || (c =? 0x1680)
  || ((0x2000 <=? c) && (c <=? 0x200A)) || (c =? 0x2028) || (c =? 0x2029)
  || (c =? 0x202F) || (c =? 0x205F) || (c =? 0x3000).

(** [char::is_control]: the Unicode category Cc. *)
Definition is_control (c : Z) : bool :=
  ((0 <=? c) && (c <=? 0x1F)) || ((0x7F <=? c) && (c <=? 0x9F)).

Fixpoint trim_start (cs : list Z) : list Z :=
  match cs with
  | c :: cs' => if is_whitespace c then trim_start cs' else cs
  | [] => []
  end.
Definition trim (cs : list Z) : list Z := rev (trim_start (rev (trim_start cs))).

Definition validate_share_name (value : bytes) : result unit :=
  let chars := utf8_chars value in
  let trimmed := trim chars in
  bail_if (bool_decide (trimmed = []) || (256 <? str_len trimmed))
    "share name must contain between 1 and 256 characters";;
  bail_if (negb (bool_decide (trimmed = chars)))
    "share name must not start or end with whitespace";;
  bail_if (existsb is_control chars)
    "share name must not contain control characters".

(** ** Share configuration *)

Record ShareConfig := {
  cfg_format_version : Z;
  cfg_share_id : bytes;
  cfg_share_secret : bytes;
  cfg_name : bytes;
  cfg_local_directory : bytes;
  cfg_created_at_ms : Z;
  cfg_initial_peers : list bytes;
  cfg_initial_sync_complete : bool;
}.

Definition ShareConfig_validate `{Iroh} (c : ShareConfig) (expected : bytes)
    : result unit :=
  bail_if (negb (cfg_format_version c =? FORMAT_VERSION))
    "unsupported share config format version";;
  bail_if (negb (bool_decide (cfg_share_id c = expected)))
    "share config ID does not match its directory";;
  validate_share_name (cfg_name c);;
  bail_if (bool_decide (cfg_local_directory c = []))
    "share config has an empty local directory";;
  bail_if (64 <? blen (cfg_initial_peers c)) "share config has too many initial peers";;
  try_for (λ peer, parse_endpoint_id peer;; Ok tt) (cfg_initial_peers c).

(** ** Runtime status *)

Inductive RuntimeState :=
| Stopped | Starting | Running | WaitingForPeers | Synchronizing | Degraded | RtError.

Inductive SyncHealth := Unknown | Synchronized | Pending | Offline | HealthError.

Global Instance RuntimeState_eq_dec : EqDecision RuntimeState.
Proof. solve_decision. Defined.
Global Instance SyncHealth_eq_dec : EqDecision SyncHealth.
Proof. solve_decision. Defined.

Definition RuntimeState_as_str (s : RuntimeState) : string :=
  match s with
  | Stopped => "stopped"
  | Starting => "starting"
  | Running => "running"
  | WaitingForPeers => "waiting_for_peers"
  | Synchronizing => "synchronizing"
  | Degraded => "degraded"
  | RtError => "error"
  end.

Definition SyncHealth_as_str (h : SyncHealth) : string :=
  match h with
  | Unknown => "unknown"
  | Synchronized => "synchronized"
  | Pending => "pending"
  | Offline => "offline"
  | HealthError => "error"
  end.

Record RuntimeStatus := {
  rs_format_version : Z;
  rs_process_id : Z;
  rs_started_at_ms : Z;
  rs_heartbeat_at_ms : Z;
  rs_state : RuntimeState;
  rs_health : SyncHealth;
  rs_connected_peers : Z;
  rs_pending_downloads : Z;
  rs_pending_updates : Z;
  rs_last_scan_at_ms : option Z;
  rs_last_remote_update_at_ms : option Z;
  rs_last_sync_at_ms : option Z;
  rs_last_connection_at_ms : option Z;
  rs_last_error : option bytes;
}.

Global Instance RuntimeStatus_eq_dec : EqDecision RuntimeStatus.
Proof. solve_decision. Defined.

Definition RuntimeStatus_stopped (now_ms : Z) : RuntimeStatus := {|
  rs_format_version := FORMAT_VERSION;
  rs_process_id := 0;
  rs_started_at_ms := now_ms;
  rs_heartbeat_at_ms := now_ms;
  rs_state := Stopped;
  rs_health := Unknown;
  rs_connected_peers := 0;
  rs_pending_downloads := 0;
  rs_pending_updates := 0;
  rs_last_scan_at_ms := None;
  rs_last_remote_update_at_ms := None;
  rs_last_sync_at_ms := None;
  rs_last_connection_at_ms := None;
  rs_last_error := None;
|}.

Definition RuntimeStatus_validate (s : RuntimeStatus) : result unit :=
  bail_if (negb (rs_format_version s =? FORMAT_VERSION))
    "unsupported runtime status format version";;
  bail_if (match rs_last_error s with Some m => 4096 <? blen m | None => false end)
    "runtime status error message is too long".
