(* ===== verification/Peers.v ===== *)
(** * Known peers (src/types/mod.rs, [KnownPeers])

    The list of peers of a share: validation, single and batched updates.  The
    batch update searches a sorted prefix by bisection and sorts once; it is
    proved equal to the single updates it replaces, and both implement a map
    from endpoint text to record. *)

From S2P Require Import Prelude Collections Bytes External Reference Clock Types.

Definition MIN_BINARY_SEARCH_PEERS : Z := 64.

Record PeerRecord := {
  pr_endpoint_id : bytes;
  pr_added_at_ms : Z;
  pr_last_seen_at_ms : option Z;
}.

Record KnownPeers := {
  kp_format_version : Z;
  kp_peers : list PeerRecord;
}.

Definition KnownPeers_empty : KnownPeers :=
  {| kp_format_version := FORMAT_VERSION; kp_peers := [] |}.

Section known_peers.
Context `{Iroh}.
Implicit Types (l : list PeerRecord) (e : EndpointId).

(** The loop of [visit_endpoint_ids]: the visited endpoints, in order. *)
Fixpoint visit_peers (seen : gset bytes) l : result (list EndpointId) :=
  match l with
  | [] => Ok []
  | p :: l' =>
      e ← parse_endpoint_id (pr_endpoint_id p);
      bail_if (bool_decide (pr_endpoint_id p ∈ seen))
        "known peers list contains a duplicate endpoint ID";;
      es ← visit_peers ({[pr_endpoint_id p]} ∪ seen) l';
      Ok (e :: es)
  end.

(** [KnownPeers::visit_endpoint_ids], collecting as [endpoint_ids] does. *)
Definition visit_endpoint_ids (kp : KnownPeers) : result (list EndpointId) :=
  bail_if (negb (kp_format_version kp =? FORMAT_VERSION))
    "unsupported known peers format version";;
  bail_if (256 <? blen (kp_peers kp)) "known peers list exceeds its maximum size";;
  visit_peers ∅ (kp_peers kp).

Definition KnownPeers_validate (kp : KnownPeers) : result unit :=
  visit_endpoint_ids kp;; Ok tt.

Definition endpoint_ids (kp : KnownPeers) : result (list EndpointId) :=
  visit_endpoint_ids kp.

Definition seen_at (now_ms : Z) (p : PeerRecord) : PeerRecord := {|
  pr_endpoint_id := pr_endpoint_id p;
  pr_added_at_ms := pr_added_at_ms p;
  pr_last_seen_at_ms := Some now_ms;
|}.

Definition new_peer (value : bytes) (now_ms : Z) : PeerRecord := {|
  pr_endpoint_id := value;
  pr_added_at_ms := now_ms;
  pr_last_seen_at_ms := Some now_ms;
|}.

(** [KnownPeers::add_or_touch_unsorted]: the new list and whether a peer was
    pushed. *)
Definition add_or_touch_unsorted l e (now_ms : Z) (sorted_prefix : nat)
    : list PeerRecord * bool :=
  let value := endpoint_id_string e in
  let existing :=
    if (sorted_prefix =? 0)%nat then position_of pr_endpoint_id value l
    else
      match binary_search_by (λ p, cmp (pr_endpoint_id p) value) (take sorted_prefix l) with
      | Some index => Some index
      | None =>
          Nat.add sorted_prefix <$> position_of pr_endpoint_id value (drop sorted_prefix l)
      end in
  match existing with
  | Some index => (alter (seen_at now_ms) index l, false)
  | None => (l ++ [new_peer value now_ms], true)
  end.

Definition sort_peers l : list PeerRecord := sort_by pr_endpoint_id l.

Definition with_peers (kp : KnownPeers) l : KnownPeers :=
  {| kp_format_version := kp_format_version kp; kp_peers := l |}.

(** [KnownPeers::add_or_touch]. *)
Definition add_or_touch (kp : KnownPeers) e (now_ms : Z) : KnownPeers :=
  let '(l, inserted) := add_or_touch_unsorted (kp_peers kp) e now_ms 0 in
  with_peers kp (if inserted then sort_peers l else l).

Definition merge_step (now_ms : Z) (sorted_prefix : nat)
    (s : list PeerRecord * bool) e : list PeerRecord * bool :=
  let '(l, inserted) := add_or_touch_unsorted s.1 e now_ms sorted_prefix in
  (l, s.2 || inserted).

(** [KnownPeers::merge_endpoint_ids]; [size_hint] is the lower bound the
    iterator of identifiers reports. *)
Definition merge_endpoint_ids (kp : KnownPeers) (ids : list EndpointId)
    (size_hint now_ms : Z) : KnownPeers :=
  let sorted_prefix :=
    if (MIN_BINARY_SEARCH_PEERS <=? blen (kp_peers kp))
       && (MIN_BINARY_SEARCH_PEERS <=? size_hint)
       && is_sorted_by (λ x y, ltb (pr_endpoint_id x) (pr_endpoint_id y)) (kp_peers kp)
    then length (kp_peers kp) else 0%nat in
  let '(l, inserted) := foldl (merge_step now_ms sorted_prefix) (kp_peers kp, false) ids in
  with_peers kp (if inserted then sort_peers l else l).

(** *** Searching *)

Lemma position_of_app k l1 l2 :
  position_of pr_endpoint_id k (l1 ++ l2) =
  match position_of pr_endpoint_id k l1 with
  | Some i => Some i
  | None => Nat.add (length l1) <$> position_of pr_endpoint_id k l2
  end.
Proof.
  induction l1 as [|p l1 IH]; simpl.
  - by destruct (position_of _ _ l2).
  - destruct (eqb _ _); [done|]. rewrite IH.
    destruct (position_of _ k l1); [done|]. by destruct (position_of _ k l2).
Qed.

(** One update with a linear search: what every variant computes. *)
Definition upsert (now_ms : Z) l e : list PeerRecord * bool :=
  match position_of pr_endpoint_id (endpoint_id_string e) l with
  | Some index => (alter (seen_at now_ms) index l, false)
  | None => (l ++ [new_peer (endpoint_id_string e) now_ms], true)
  end.

Lemma add_or_touch_unsorted_upsert l e now n :
  StronglySorted (key_lt pr_endpoint_id) (take n l) →
  add_or_touch_unsorted l e now n = upsert now l e.
Proof.
  intros Hs. unfold add_or_touch_unsorted, upsert.
  destruct (Nat.eqb_spec n 0) as [->|Hn]; [done|].
  rewrite binary_search_position by done.
  replace (position_of pr_endpoint_id (endpoint_id_string e) l)
    with (position_of pr_endpoint_id (endpoint_id_string e) (take n l ++ drop n l))
    by (by rewrite take_drop).
  rewrite position_of_app.
  destruct (position_of _ _ (take n l)) eqn:E1; [done|].
  destruct (position_of _ _ (drop n l)) as [j|] eqn:E2; simpl; [|done].
  apply position_of_Some in E2 as (x & Hx & _). apply lookup_lt_Some in Hx.
  rewrite length_drop in Hx. rewrite length_take. do 2 f_equal. lia.
Qed.

Lemma map_key_alter i now l :
  map pr_endpoint_id (alter (seen_at now) i l) = map pr_endpoint_id l.
Proof.
  revert i. induction l as [|p l IH]; intros [|i]; simpl; try done.
  f_equal. apply IH.
Qed.

Lemma sorted_keys (R : bytes → bytes → Prop) l1 l2 :
  map pr_endpoint_id l1 = map pr_endpoint_id l2 →
  StronglySorted (λ x y, R (pr_endpoint_id x) (pr_endpoint_id y)) l1 →
  StronglySorted (λ x y, R (pr_endpoint_id x) (pr_endpoint_id y)) l2.
Proof.
  intros E Hs. revert l2 E. induction Hs as [|x l1 Hs IH Hf]; intros [|y l2] E;
    simplify_eq/=; constructor; [by apply IH|].
  apply List.Forall_map in Hf. rewrite List.Forall_forall in *.
  intros z Hz. rewrite <-H0.
  apply Hf. rewrite H1. by apply in_map.
Qed.

Lemma upsert_prefix now l e n :
  (n ≤ length l)%nat →
  StronglySorted (key_lt pr_endpoint_id) (take n l) →
  (n ≤ length (upsert now l e).1)%nat ∧
  StronglySorted (key_lt pr_endpoint_id) (take n (upsert now l e).1).
Proof.
  intros Hn Hs. unfold upsert. destruct (position_of _ _ l) as [i|]; simpl.
  - rewrite length_alter. split; [done|].
    eapply (sorted_keys (λ x y, ltb x y = true)); [|exact Hs].
    rewrite <-!firstn_map. by rewrite map_key_alter.
  - rewrite length_app, take_app_le by done. split; [simpl; lia|done].
Qed.

Definition upsert_step (now : Z) (s : list PeerRecord * bool) e :=
  let '(l, inserted) := upsert now s.1 e in (l, s.2 || inserted).

Lemma merge_steps_upsert now n ids s :
  (n ≤ length s.1)%nat → StronglySorted (key_lt pr_endpoint_id) (take n s.1) →
  foldl (merge_step now n) s ids = foldl (upsert_step now) s ids.
Proof.
  revert s. induction ids as [|e ids IH]; intros [l b] Hn Hs; simpl in *; [done|].
  unfold merge_step at 2, upsert_step at 2; simpl.
  rewrite add_or_touch_unsorted_upsert by done.
  pose proof (upsert_prefix now l e n Hn Hs) as [Hn' Hs'].
  destruct (upsert now l e) as [l' b']; simpl in *. by apply IH.
Qed.

Lemma merge_endpoint_ids_upsert kp ids hint now :
  merge_endpoint_ids kp ids hint now =
  let '(l, inserted) := foldl (upsert_step now) (kp_peers kp, false) ids in
  with_peers kp (if inserted then sort_peers l else l).
Proof.
  unfold merge_endpoint_ids.
  rewrite merge_steps_upsert; [done|simpl; destruct (_ && _); lia|].
  simpl. destruct (_ && _) eqn:E; [|constructor].
  rewrite firstn_all. apply andb_prop in E as [_ E].
  apply is_sorted_by_strong in E; [done|]. intros x y z. apply ltb_trans.
Qed.

(** *** Updating commutes with sorting *)

Definition touch_head (now : Z) l : list PeerRecord :=
  match l with [] => [] | p :: l' => seen_at now p :: l' end.

Lemma with_key_alter now k k' i l :
  position_of pr_endpoint_id k l = Some i →
  with_key pr_endpoint_id k' (alter (seen_at now) i l) =
  if eqb k k' then touch_head now (with_key pr_endpoint_id k' l)
  else with_key pr_endpoint_id k' l.
Proof.
  unfold with_key. revert i. induction l as [|p l IH]; intros i; simpl; [done|].
  destruct (eqb (pr_endpoint_id p) k) eqn:E.
  - intros [= <-]. apply eqb_true in E as <-.
    change (alter (seen_at now) 0%nat (p :: l)) with (seen_at now p :: l). simpl.
    destruct (eqb (pr_endpoint_id p) k'); reflexivity.
  - destruct (position_of _ k l) as [j|]; simpl; [|done]. intros [= <-].
    change (alter (seen_at now) (S j) (p :: l)) with (p :: alter (seen_at now) j l).
    simpl. rewrite (IH j) by done.
    destruct (eqb (pr_endpoint_id p) k') eqn:E1, (eqb k k') eqn:E2; try done.
    apply eqb_true in E1, E2. subst. by rewrite eqb_refl in E.
Qed.

Lemma alter_sort now k i l :
  position_of pr_endpoint_id k l = Some i →
  ∃ j, position_of pr_endpoint_id k (sort_peers l) = Some j ∧
    alter (seen_at now) j (sort_peers l) = sort_peers (alter (seen_at now) i l).
Proof.
  intros Hi. destruct (position_of _ k (sort_peers l)) as [j|] eqn:Hj.
  - exists j. split; [done|]. apply (sorted_with_key_eq pr_endpoint_id).
    + eapply (sorted_keys (λ x y, leb x y = true)); [|apply (sort_by_sorted pr_endpoint_id l)].
      symmetry. apply map_key_alter.
    + apply sort_by_sorted.
    + intros k'. unfold sort_peers in *. rewrite (with_key_alter now k) by done.
      rewrite !with_key_sort_by. by rewrite (with_key_alter now k) by done.
  - apply position_of_None in Hj. apply position_of_Some in Hi as (x & Hx & <-).
    destruct Hj. unfold sort_peers. rewrite sort_by_perm.
    apply list_elem_of_In, in_map, list_elem_of_In, list_elem_of_lookup. eauto.
Qed.

Lemma position_sort_None k l :
  position_of pr_endpoint_id k l = None →
  position_of pr_endpoint_id k (sort_peers l) = None.
Proof. rewrite !position_of_None. unfold sort_peers. by rewrite sort_by_perm. Qed.

(** The list of single updates, given the list of the batch and whether the
    batch has pushed a peer. *)
Definition settle (s : list PeerRecord * bool) : list PeerRecord :=
  if s.2 then sort_peers s.1 else s.1.

Lemma upsert_settle now s e :
  settle (upsert_step now s e) =
  let '(l, inserted) := upsert now (settle s) e in
  if inserted then sort_peers l else l.
Proof.
  destruct s as [l []]; unfold upsert_step, settle, upsert; simpl;
    destruct (position_of _ _ l) as [i|] eqn:Hi; simpl.
  - destruct (alter_sort now _ _ _ Hi) as (j & -> & <-). done.
  - rewrite (position_sort_None _ _ Hi); simpl. symmetry. apply sort_by_app_sort.
  - done.
  - done.
Qed.

Lemma merge_is_fold kp ids hint now :
  merge_endpoint_ids kp ids hint now = foldl (λ kp e, add_or_touch kp e now) kp ids.
Proof.
  rewrite merge_endpoint_ids_upsert.
  assert (Hgen : ∀ s, foldl (λ kp e, add_or_touch kp e now) (with_peers kp (settle s)) ids =
    with_peers kp (settle (foldl (upsert_step now) s ids))).
  { induction ids as [|e ids IH]; intros s; simpl; [done|].
    rewrite <-IH. f_equal. unfold add_or_touch; simpl.
    rewrite add_or_touch_unsorted_upsert by constructor. rewrite upsert_settle.
    by destruct (upsert now (settle s) e) as [l []]. }
  specialize (Hgen (kp_peers kp, false)). unfold settle in Hgen at 1; simpl in Hgen.
  destruct (foldl _ (kp_peers kp, false) ids) as [l []] eqn:E; unfold settle in Hgen;
    simpl in Hgen; rewrite <-Hgen; f_equal; by destruct kp.
Qed.

(** *** The map that the list implements *)

(** [peers.iter().find(|peer| peer.endpoint_id == key)]. *)
Definition find_peer (k : bytes) l : option PeerRecord :=
  head (with_key pr_endpoint_id k l).

(** One update of the map: refresh an existing record, create a missing one. *)
Definition refreshed (now : Z) (k : bytes) (o : option PeerRecord) : PeerRecord :=
  match o with Some p => seen_at now p | None => new_peer k now end.

Lemma find_peer_add_or_touch kp e now k :
  find_peer k (kp_peers (add_or_touch kp e now)) =
  if eqb (endpoint_id_string e) k
  then Some (refreshed now k (find_peer k (kp_peers kp)))
  else find_peer k (kp_peers kp).
Proof.
  unfold find_peer, add_or_touch. rewrite add_or_touch_unsorted_upsert by constructor.
  unfold upsert. destruct (position_of _ _ (kp_peers kp)) as [i|] eqn:Hi; simpl.
  - rewrite (with_key_alter now (endpoint_id_string e)) by done.
    destruct (eqb _ k) eqn:E; [|done]. apply eqb_true in E as <-.
    destruct (with_key _ _ (kp_peers kp)) as [|p w] eqn:Ew; [|done].
    apply with_key_nil_iff in Ew. rewrite <-position_of_None in Ew. congruence.
  - unfold sort_peers. rewrite with_key_sort_by, with_key_app.
    unfold with_key at 2; simpl. destruct (eqb _ k) eqn:E; [|by rewrite app_nil_r].
    apply eqb_true in E as <-. apply position_of_None in Hi.
    apply with_key_nil_iff in Hi. by rewrite Hi.
Qed.

Lemma refreshed_twice now k o :
  refreshed now k (Some (refreshed now k o)) = refreshed now k o.
Proof. by destruct o. Qed.

Lemma keys_add_or_touch kp e now :
  map pr_endpoint_id (kp_peers (add_or_touch kp e now)) ≡ₚ
  if decide (endpoint_id_string e ∈ map pr_endpoint_id (kp_peers kp))
  then map pr_endpoint_id (kp_peers kp)
  else endpoint_id_string e :: map pr_endpoint_id (kp_peers kp).
Proof.
  unfold add_or_touch. rewrite add_or_touch_unsorted_upsert by constructor.
  unfold upsert. destruct (position_of _ _ (kp_peers kp)) as [i|] eqn:Hi; simpl.
  - rewrite map_key_alter. rewrite decide_True; [done|].
    destruct (decide (endpoint_id_string e ∈ map pr_endpoint_id (kp_peers kp))); [done|].
    rewrite (proj2 (position_of_None _ _ _)) in Hi; done.
  - apply position_of_None in Hi. rewrite decide_False by done. unfold sort_peers.
    rewrite (Permutation_map _ (sort_by_perm _ _)), map_app; simpl.
    by rewrite Permutation_app_comm.
Qed.

Lemma visit_peers_Ok seen l es :
  visit_peers seen l = Ok es ↔
  map endpoint_id_string es = map pr_endpoint_id l ∧ NoDup (map pr_endpoint_id l) ∧
  (∀ k, k ∈ map pr_endpoint_id l → k ∉ seen).
Proof.
  revert seen es. induction l as [|p l IH]; intros seen es; simpl.
  - split; [intros [= <-]; split_and!; [done|constructor|set_solver]|].
    intros (E & _). by destruct es.
  - split.
    + intros E. res_inv. case_bool_decide; [done|]. rewrite parse_endpoint_id_Ok in *.
      match goal with Hv : visit_peers _ _ = _ |- _ => apply IH in Hv as (Hm & Hn & Hs) end.
      simpl. split_and!; [congruence| |].
      * constructor; [|done]. intros Hin. specialize (Hs _ Hin). set_solver.
      * intros k [->|Hin]%elem_of_cons; [done|]. specialize (Hs _ Hin). set_solver.
    + intros (E & Hn & Hs). destruct es as [|e es]; [done|]. simpl in E.
      injection E as E1 E2. inversion Hn as [|? ? Hni Hn']; subst.
      rewrite (proj2 (parse_endpoint_id_Ok _ e)) by done; simpl.
      rewrite bool_decide_false by (apply Hs; left); simpl.
      rewrite (proj2 (IH _ es)); [done|]. split_and!; [done..|].
      intros k Hk. specialize (Hs k). set_solver.
Qed.

(** What a valid peer list is. *)
Definition peers_valid (kp : KnownPeers) : Prop :=
  kp_format_version kp = FORMAT_VERSION ∧ blen (kp_peers kp) ≤ 256 ∧
  NoDup (map pr_endpoint_id (kp_peers kp)) ∧
  ∃ es, map endpoint_id_string es = map pr_endpoint_id (kp_peers kp).

Lemma visit_endpoint_ids_Ok kp es :
  visit_endpoint_ids kp = Ok es ↔
  peers_valid kp ∧ map endpoint_id_string es = map pr_endpoint_id (kp_peers kp).
Proof.
  unfold visit_endpoint_ids, peers_valid. split.
  - intros E. res_inv. rewrite visit_peers_Ok in *.
    rewrite negb_false_iff, Z.eqb_eq, Z.ltb_ge in *. naive_solver.
  - intros [(Hv & Hl & Hn & _) Hm]. rewrite (proj2 (Z.eqb_eq _ _) Hv); simpl.
    rewrite (proj2 (Z.ltb_ge _ _) Hl); simpl.
    apply visit_peers_Ok. split_and!; [done..|set_solver].
Qed.

Lemma KnownPeers_validate_Ok kp : KnownPeers_validate kp = Ok tt ↔ peers_valid kp.
Proof.
  unfold KnownPeers_validate. rewrite bind_Ok. setoid_rewrite visit_endpoint_ids_Ok.
  unfold peers_valid. naive_solver.
Qed.

(** Canonical peers stay canonical, in any number. *)
Definition peers_canonical l : Prop :=
  NoDup (map pr_endpoint_id l) ∧ ∃ es, map endpoint_id_string es ≡ₚ map pr_endpoint_id l.

Lemma add_or_touch_canonical kp e now :
  peers_canonical (kp_peers kp) → peers_canonical (kp_peers (add_or_touch kp e now)).
Proof.
  intros [Hn [es Hes]]. pose proof (keys_add_or_touch kp e now) as Hk.
  unfold peers_canonical. rewrite Hk. setoid_rewrite Hk. case_decide as Hin; [by eauto|].
  split; [by constructor|]. exists (e :: es). simpl. by constructor.
Qed.

Lemma fold_canonical kp ids now :
  peers_canonical (kp_peers kp) →
  peers_canonical (kp_peers (foldl (λ kp e, add_or_touch kp e now) kp ids)).
Proof.
  revert kp. induction ids as [|e ids IH]; intros kp Hc; simpl; [done|].
  by apply IH, add_or_touch_canonical.
Qed.

Lemma canonical_strings l :
  peers_canonical l → ∃ es, map endpoint_id_string es = map pr_endpoint_id l.
Proof.
  intros [_ [es Hes]].
  assert (Hall : ∀ k, k ∈ map pr_endpoint_id l → ∃ e, endpoint_id_string e = k).
  { intros k. rewrite <-Hes, list_elem_of_In, in_map_iff. intros (e & <- & _). eauto. }
  clear Hes. induction (map pr_endpoint_id l) as [|k ks IH]; [by exists []|].
  destruct (Hall k) as [e He]; [left|].
  destruct IH as [es' Hes']; [intros k' Hk'; apply Hall; by right|].
  exists (e :: es'). simpl. congruence.
Qed.

(** The batched [merge_endpoint_ids], with its bisection of the sorted
    prefix and its single final sort, computes exactly what calling
    [add_or_touch] for each identifier in turn computes, whatever the peer
    list, the batch and the iterator's size hint. *)
Lemma merge_endpoint_ids_is_sequential (kp : KnownPeers) (ids : list EndpointId)
    (size_hint now_ms : Z) :
  merge_endpoint_ids kp ids size_hint now_ms =
  foldl (λ kp e, add_or_touch kp e now_ms) kp ids.
Proof. apply merge_is_fold. Qed.

(** The peer list implements a map from endpoint text to record: after a
    merge the lookup of each merged endpoint is its old record (or a record
    created now) marked as seen now, and the lookup of every other key is
    unchanged. *)
Lemma merge_endpoint_ids_lookup (kp : KnownPeers) (ids : list EndpointId)
    (size_hint now_ms : Z) (k : bytes) :
  find_peer k (kp_peers (merge_endpoint_ids kp ids size_hint now_ms)) =
  if decide (k ∈ map endpoint_id_string ids)
  then Some (refreshed now_ms k (find_peer k (kp_peers kp)))
  else find_peer k (kp_peers kp).
Proof.
  rewrite merge_is_fold. revert kp.
  induction ids as [|e ids IH]; intros kp; simpl; [done|].
  rewrite IH, find_peer_add_or_touch. destruct (eqb _ k) eqn:E.
  - apply eqb_true in E as <-. rewrite refreshed_twice.
    rewrite (decide_True (P := _ ∈ endpoint_id_string e :: _)) by left. by case_decide.
  - apply eqb_false in E. repeat case_decide; try done; exfalso; set_solver.
Qed.

(** C39: merging into a valid peer list gives a valid list or, with more than
    256 distinct peers, one that validation rejects for its size; no other
    error can arise. *)
Theorem merge_endpoint_ids_valid (kp : KnownPeers) (ids : list EndpointId)
    (size_hint now_ms : Z) (Hkp : KnownPeers_validate kp = Ok tt) :
  let kp' := merge_endpoint_ids kp ids size_hint now_ms in
  (blen (kp_peers kp') ≤ 256 ∧ KnownPeers_validate kp' = Ok tt) ∨
  (256 < blen (kp_peers kp') ∧
   KnownPeers_validate kp' = Err "known peers list exceeds its maximum size").
Proof.
  intros kp'. apply KnownPeers_validate_Ok in Hkp as (Hv & _ & Hn & es & Hes).
  assert (Hc : peers_canonical (kp_peers kp')).
  { subst kp'. rewrite merge_is_fold. apply fold_canonical. split; [done|].
    exists es. by rewrite Hes. }
  assert (Hv' : kp_format_version kp' = FORMAT_VERSION).
  { subst kp'. unfold merge_endpoint_ids. by destruct (foldl _ _ ids). }
  destruct (Z.leb_spec (blen (kp_peers kp')) 256) as [Hl|Hl]; [left|right].
  - split; [done|]. apply KnownPeers_validate_Ok.
    split_and!; [done..|apply Hc|]. by apply canonical_strings.
  - split; [lia|]. unfold KnownPeers_validate, visit_endpoint_ids.
    rewrite Hv'; simpl. by rewrite (proj2 (Z.ltb_lt _ _) Hl).
Qed.
End known_peers.

(** *** Witnesses *)

Import Ref.

Lemma merge_endpoint_ids_valid_witness :
  let ids := [endpoint "002"; endpoint "001"; endpoint "002"] in
  let kp' := merge_endpoint_ids KnownPeers_empty ids 3 7 in
  (blen (kp_peers kp') ≤ 256 ∧ KnownPeers_validate kp' = Ok tt) ∨
  (256 < blen (kp_peers kp') ∧
   KnownPeers_validate kp' = Err "known peers list exceeds its maximum size").
Proof.
  intros ids kp'. apply (merge_endpoint_ids_valid KnownPeers_empty ids 3 7).
  vm_compute. reflexivity.
Defined.
