(* ===== verification/Ticket.v ===== *)
(** * Share tickets (src/ticket/mod.rs)

    The text form of a share's credentials: validation, encoding and the cursor
    parser.  Parsing and encoding are inverse to each other. *)

From S2P Require Import Prelude Collections Bytes Encoding External Reference Clock Types.

Definition TICKET_PREFIX : bytes := bs "syncbox1:".
Definition TICKET_MAGIC : bytes := bs "SBTK".
Definition CHECKSUM_LENGTH : Z := 16.
Definition MAX_INITIAL_PEERS : Z := 64.
Definition MAX_TICKET_TEXT_LENGTH : Z := 4096.
Definition TICKET_CHECKSUM_DOMAIN : bytes := bs "syncbox-ticket-v1".

Definition too_many_peers : string := "ShareTicket contains too many initial peers".
Definition ticket_too_long : string := "ShareTicket exceeds the maximum supported length".
Definition ticket_truncated : string := "ShareTicket is truncated".

Lemma existsb_negb_forallb {A} (f : A → bool) l :
  forallb f l = true → existsb (λ x, negb (f x)) l = false.
Proof.
  induction l as [|x l IH]; simpl; [done|]. intros [Hx Hl]%andb_true_iff. by rewrite Hx, IH.
Qed.

Section ticket.
Context `{Iroh, Base64Codec, Blake3}.

Record ShareTicket := {
  tk_protocol_version : Z;
  tk_share_id : bytes;
  tk_share_secret : bytes;
  tk_initial_peers : list EndpointId;
}.

(** The loop of [ShareTicket::validate]. *)
Definition check_peer (previous : option bytes) (e : EndpointId) : result (option bytes) :=
  let value := ep_to_string e in
  bail_if (match previous with Some p => leb value p | None => false end)
    "ShareTicket initial peers must be unique and sorted";;
  Ok (Some value).

Definition ShareTicket_validate (t : ShareTicket) : result unit :=
  bail_if (negb (tk_protocol_version t =? TICKET_PROTOCOL_VERSION))
    "unsupported ShareTicket protocol version";;
  bail_if (MAX_INITIAL_PEERS <? blen (tk_initial_peers t)) too_many_peers;;
  try_fold check_peer (tk_initial_peers t) None;; Ok tt.

Definition ShareTicket_new (share_id share_secret : bytes) (initial_peers : list EndpointId)
    : result ShareTicket :=
  let ticket := {|
    tk_protocol_version := TICKET_PROTOCOL_VERSION;
    tk_share_id := share_id;
    tk_share_secret := share_secret;
    tk_initial_peers := sort_by ep_to_string initial_peers;
  |} in
  ShareTicket_validate ticket;; Ok ticket.

Definition ticket_checksum (content : bytes) : bytes :=
  take (Z.to_nat CHECKSUM_LENGTH) (blake3 (TICKET_CHECKSUM_DOMAIN ++ content)).

Definition ticket_content (t : ShareTicket) (peer_count : Z) : bytes :=
  TICKET_MAGIC ++ u16_be (tk_protocol_version t) ++ u16_be peer_count
  ++ tk_share_id t ++ tk_share_secret t ++ concat (map ep_as_bytes (tk_initial_peers t)).

Definition ShareTicket_encode (t : ShareTicket) : result bytes :=
  ShareTicket_validate t;;
  let peer_count := blen (tk_initial_peers t) in
  bail_if (u16_max <? peer_count) too_many_peers;;
  let content := ticket_content t peer_count in
  let value := TICKET_PREFIX ++ b64_encode (content ++ ticket_checksum content) in
  bail_if (MAX_TICKET_TEXT_LENGTH <? blen value) ticket_too_long;;
  Ok value.

(** [take::<N>] of the parser. *)
Local Notation take_at := (cursor_take "ShareTicket length overflow" ticket_truncated).
Local Notation take_app :=
  (cursor_take_app "ShareTicket length overflow" ticket_truncated).

Fixpoint parse_peers (content : bytes) (count : nat) (cursor : Z)
    : result (list EndpointId * Z) :=
  match count with
  | O => Ok ([], cursor)
  | S count =>
      '(part, cursor) ← take_at 32 content cursor;
      e ← ok_or (ep_from_bytes part) "ShareTicket contains an invalid initial endpoint ID";
      '(peers, cursor) ← parse_peers content count cursor;
      Ok (e :: peers, cursor)
  end.

Definition parse_content (content : bytes) : result ShareTicket :=
  '(magic, cursor) ← take_at 4 content 0;
  bail_if (negb (bool_decide (magic = TICKET_MAGIC))) "ShareTicket has an unknown format";;
  '(version, cursor) ← take_at 2 content cursor;
  let protocol_version := be_value version in
  bail_if (negb (protocol_version =? TICKET_PROTOCOL_VERSION))
    "unsupported ShareTicket protocol version";;
  '(count, cursor) ← take_at 2 content cursor;
  let peer_count := be_value count in
  bail_if (MAX_INITIAL_PEERS <? peer_count) too_many_peers;;
  bail_if (negb (blen content =? 4 + 2 + 2 + 32 + 32 + peer_count * 32))
    "ShareTicket has an invalid length or unsupported trailing fields";;
  '(share_id, cursor) ← take_at 32 content cursor;
  '(share_secret, cursor) ← take_at 32 content cursor;
  '(initial_peers, cursor) ← parse_peers content (Z.to_nat peer_count) cursor;
  bail_if (negb (cursor =? blen content)) "ShareTicket has unsupported trailing fields";;
  let ticket := {|
    tk_protocol_version := protocol_version;
    tk_share_id := share_id;
    tk_share_secret := share_secret;
    tk_initial_peers := initial_peers;
  |} in
  ShareTicket_validate ticket;; Ok ticket.

Definition ShareTicket_parse (value : bytes) : result ShareTicket :=
  bail_if (MAX_TICKET_TEXT_LENGTH <? blen value) ticket_too_long;;
  encoded ← ok_or (strip_prefix TICKET_PREFIX value) "ShareTicket must start with syncbox1:";
  bail_if (bool_decide (encoded = []) || existsb (λ b, negb (is_base64url b)) encoded)
    "ShareTicket is not canonical base64url data";;
  bytes ← ok_or (b64_decode encoded) "ShareTicket is not valid base64url data";
  bail_if (negb (bool_decide (b64_encode bytes = encoded)))
    "ShareTicket must use canonical unpadded base64url encoding";;
  bail_if (blen bytes <? 4 + 2 + 2 + 32 + 32 + CHECKSUM_LENGTH) ticket_truncated;;
  let content_length := blen bytes - CHECKSUM_LENGTH in
  let content := take (Z.to_nat content_length) bytes in
  bail_if (negb (bool_decide (ticket_checksum content = drop (Z.to_nat content_length) bytes)))
    "ShareTicket checksum does not match";;
  parse_content content.

(** ** What validation accepts *)

Definition ticket_valid (t : ShareTicket) : Prop :=
  tk_protocol_version t = TICKET_PROTOCOL_VERSION ∧
  blen (tk_initial_peers t) ≤ MAX_INITIAL_PEERS ∧
  StronglySorted (key_lt ep_to_string) (tk_initial_peers t).

Lemma check_peers_Ok l previous :
  is_ok (try_fold check_peer l previous) = true ↔
  StronglySorted (key_lt ep_to_string) l ∧
  (∀ p e, previous = Some p → e ∈ l → ltb p (ep_to_string e) = true).
Proof.
  revert previous. induction l as [|e l IH]; intros previous; simpl.
  - split; [|done]. intros _. split; [constructor|]. by intros ? ? _ ?%not_elem_of_nil.
  - unfold check_peer at 2. destruct previous as [p|]; simpl.
    + destruct (leb (ep_to_string e) p) eqn:E; simpl.
      * split; [done|]. intros [_ Hp]. specialize (Hp p e eq_refl (list_elem_of_here _ _)).
        rewrite leb_ltb, Hp in E. done.
      * rewrite leb_ltb in E. apply negb_false_iff in E. rewrite IH. split.
        -- intros [Hs Hp]. split.
           ++ constructor; [done|]. apply List.Forall_forall. intros x Hx.
              apply (Hp _ x eq_refl). by apply list_elem_of_In.
           ++ intros ? x [= <-] [->|Hx]%elem_of_cons; [done|].
              eapply ltb_trans; [done|]. by apply (Hp _ x eq_refl).
        -- intros [Hs Hp]. inversion Hs as [|? ? Hs' Hall]; subst. split; [done|].
           intros ? x [= <-] Hx. rewrite List.Forall_forall in Hall.
           by apply Hall, list_elem_of_In.
    + rewrite IH. split.
      * intros [Hs Hp]. split; [|done]. constructor; [done|].
        apply List.Forall_forall. intros x Hx. apply (Hp _ x eq_refl). by apply list_elem_of_In.
      * intros [Hs _]. inversion Hs as [|? ? Hs' Hall]; subst. split; [done|].
        intros ? x [= <-] Hx. rewrite List.Forall_forall in Hall. by apply Hall, list_elem_of_In.
Qed.

Lemma ShareTicket_validate_Ok t : ShareTicket_validate t = Ok tt ↔ ticket_valid t.
Proof.
  unfold ShareTicket_validate, ticket_valid. pose proof (check_peers_Ok (tk_initial_peers t) None).
  destruct (Z.eqb_spec (tk_protocol_version t) TICKET_PROTOCOL_VERSION) as [Hv|Hv]; simpl;
    [|naive_solver].
  destruct (Z.ltb_spec MAX_INITIAL_PEERS (blen (tk_initial_peers t))); simpl; [naive_solver lia|].
  destruct (try_fold check_peer _ None); simpl in *; naive_solver.
Qed.

Lemma parse_peers_encoded content peers c rest :
  at_cursor content c (concat (map ep_as_bytes peers) ++ rest) → blen content ≤ u64_max →
  ∃ stop, parse_peers content (length peers) c = Ok (peers, stop) ∧ at_cursor content stop rest.
Proof.
  intros Hc Hmax. revert c Hc. induction peers as [|e peers IH]; intros c Hc; simpl.
  - exists c. by split.
  - simpl in Hc. rewrite <-app_assoc in Hc.
    apply (take_app _ _ 32) in Hc as [-> Hc];
      [|unfold blen; by rewrite length_ep_as_bytes|done].
    simpl. rewrite ep_from_as_bytes. simpl. apply IH in Hc as (stop & -> & Hs).
    exists stop. by split.
Qed.

Lemma parse_peers_Ok content n c rest peers stop :
  at_cursor content c rest → parse_peers content n c = Ok (peers, stop) →
  ∃ rest', rest = concat (map ep_as_bytes peers) ++ rest' ∧ length peers = n ∧
    at_cursor content stop rest'.
Proof.
  revert c rest peers. induction n as [|n IH]; intros c rest peers Hc Hp; simpl in Hp.
  - injection Hp as <- <-. exists rest. done.
  - destruct (take_at 32 content c) as [[part c1]|] eqn:Et; [|done]. simpl in Hp.
    destruct (ep_from_bytes part) as [e|] eqn:Ee; [|done]. simpl in Hp.
    destruct (parse_peers content n c1) as [[l c2]|] eqn:Er; [|done]. simpl in Hp.
    injection Hp as <- <-.
    apply (cursor_take_Ok _ _ _ _ 32 _ _ _ ltac:(lia) Hc) in Et as (r1 & -> & _ & Hc1).
    destruct (IH _ _ _ Hc1 Er) as (r2 & -> & Hl & Hc2). exists r2. simpl.
    rewrite (ep_as_from_bytes _ _ Ee), <-app_assoc, Hl. done.
Qed.

Lemma length_concat_peers peers :
  blen (concat (map ep_as_bytes peers)) = 32 * blen peers.
Proof.
  induction peers as [|e peers IH]; [done|]. simpl. rewrite blen_app, IH. unfold blen.
  rewrite length_ep_as_bytes. simpl length. lia.
Qed.

(** The field widths of the Rust type. *)
Definition ticket_wf (t : ShareTicket) : Prop :=
  length (tk_share_id t) = 32%nat ∧ length (tk_share_secret t) = 32%nat.

Lemma blen_ticket_content t n :
  ticket_wf t → blen (ticket_content t n) = 72 + 32 * blen (tk_initial_peers t).
Proof.
  intros [Hi Hs]. unfold ticket_content. rewrite !blen_app, length_concat_peers.
  unfold blen. rewrite !length_u16_be, Hi, Hs. simpl length. lia.
Qed.

Lemma parse_content_encoded t :
  ticket_wf t → ticket_valid t →
  parse_content (ticket_content t (blen (tk_initial_peers t))) = Ok t.
Proof.
  intros Hw Hv. pose proof (blen_ticket_content t (blen (tk_initial_peers t)) Hw) as Hl.
  destruct Hw as [Hi Hs]. pose proof Hv as (Hver & Hn & _).
  pose proof (blen_nonneg (tk_initial_peers t)). set (n := blen (tk_initial_peers t)) in *.
  unfold MAX_INITIAL_PEERS in Hn. unfold parse_content. set (content := ticket_content t n) in *.
  assert (Hmax : blen content ≤ u64_max) by (u_unfold; lia).
  assert (Hc : at_cursor content 0 (ticket_content t n)) by apply at_cursor_0.
  unfold ticket_content in Hc.
  apply (take_app _ _ 4) in Hc as [-> Hc]; [|done..].
  apply (take_app _ _ 2) in Hc as [E Hc]; [|unfold blen; by rewrite length_u16_be|done].
  cbn [mbind result_bind]. rewrite bool_decide_true by done. cbn [negb bail_if mbind result_bind].
  rewrite E. clear E. cbn [mbind result_bind].
  rewrite u16_be_value by (rewrite Hver; u_unfold; unfold TICKET_PROTOCOL_VERSION; lia).
  rewrite (proj2 (Z.eqb_eq _ _)) by done. cbn [negb bail_if mbind result_bind].
  apply (take_app _ _ 2) in Hc as [-> Hc]; [|unfold blen; by rewrite length_u16_be|done].
  cbn [mbind result_bind]. rewrite u16_be_value by (u_unfold; lia).
  rewrite (proj2 (Z.ltb_ge MAX_INITIAL_PEERS n)) by done. cbn [negb bail_if mbind result_bind].
  rewrite (proj2 (Z.eqb_eq (blen content) _)) by lia. cbn [negb bail_if mbind result_bind].
  apply (take_app _ _ 32) in Hc as [-> Hc]; [|unfold blen; by rewrite Hi|done].
  cbn [mbind result_bind].
  apply (take_app _ _ 32) in Hc as [-> Hc]; [|unfold blen; by rewrite Hs|done].
  cbn [mbind result_bind]. rewrite <-(app_nil_r (concat _)) in Hc.
  apply parse_peers_encoded in Hc as (stop & E & Hc); [|done].
  replace (Z.to_nat n) with (length (tk_initial_peers t)) by (unfold n, blen; lia).
  rewrite E. cbn [mbind result_bind]. rewrite (at_cursor_end _ _ Hc), Z.eqb_refl.
  cbn [negb bail_if mbind result_bind].
  assert (Ht : Build_ShareTicket (tk_protocol_version t) (tk_share_id t) (tk_share_secret t)
    (tk_initial_peers t) = t) by by destruct t.
  rewrite Ht, (proj2 (ShareTicket_validate_Ok t) Hv). done.
Qed.

Lemma parse_content_Ok content t :
  parse_content content = Ok t →
  content = ticket_content t (blen (tk_initial_peers t)) ∧ ticket_wf t ∧ ticket_valid t.
Proof.
  unfold parse_content. pose proof (at_cursor_0 content) as K0.
  destruct (take_at 4 content 0) as [[magic c1]|] eqn:E1; [|done]. cbn [mbind result_bind].
  apply (cursor_take_Ok _ _ _ _ 4 _ _ _ ltac:(lia) K0) in E1 as (r1 & Hr0 & L1 & K1).
  case_bool_decide as Hmagic; [|done]. cbn [negb bail_if mbind result_bind].
  destruct (take_at 2 content c1) as [[version c2]|] eqn:E2; [|done]. cbn [mbind result_bind].
  apply (cursor_take_Ok _ _ _ _ 2 _ _ _ ltac:(lia) K1) in E2 as (r2 & -> & L2 & K2).
  destruct (Z.eqb_spec (be_value version) TICKET_PROTOCOL_VERSION) as [Hver|]; [|done].
  cbn [negb bail_if mbind result_bind].
  destruct (take_at 2 content c2) as [[count c3]|] eqn:E3; [|done]. cbn [mbind result_bind].
  apply (cursor_take_Ok _ _ _ _ 2 _ _ _ ltac:(lia) K2) in E3 as (r3 & -> & L3 & K3).
  destruct (MAX_INITIAL_PEERS <? be_value count); [done|]. cbn [bail_if mbind result_bind].
  destruct (Z.eqb_spec (blen content) (4 + 2 + 2 + 32 + 32 + be_value count * 32)); [|done].
  cbn [negb bail_if mbind result_bind].
  destruct (take_at 32 content c3) as [[id c4]|] eqn:E4; [|done]. cbn [mbind result_bind].
  apply (cursor_take_Ok _ _ _ _ 32 _ _ _ ltac:(lia) K3) in E4 as (r4 & -> & L4 & K4).
  destruct (take_at 32 content c4) as [[secret c5]|] eqn:E5; [|done]. cbn [mbind result_bind].
  apply (cursor_take_Ok _ _ _ _ 32 _ _ _ ltac:(lia) K4) in E5 as (r5 & -> & L5 & K5).
  destruct (parse_peers _ _ c5) as [[peers c6]|] eqn:E6; [|done]. cbn [mbind result_bind].
  destruct (parse_peers_Ok _ _ _ _ _ _ K5 E6) as (r6 & -> & L6 & K6).
  destruct (Z.eqb_spec c6 (blen content)) as [Hend|]; [|done].
  cbn [negb bail_if mbind result_bind].
  destruct (ShareTicket_validate _) as [[]|] eqn:Ev; [|done]. cbn [mbind result_bind].
  intros [= <-]. apply ShareTicket_validate_Ok in Ev.
  assert (r6 = []) as ->.
  { destruct K6 as (_ & Hr6 & _). apply length_zero_iff_nil. unfold blen in *. lia. }
  pose proof (be_value_range count). rewrite app_nil_r in Hr0.
  split; [|split; [split; unfold blen in *; simpl; lia|done]].
  unfold ticket_content; cbn [tk_protocol_version tk_share_id tk_share_secret tk_initial_peers].
  replace (blen peers) with (be_value count) by (unfold blen; lia).
  rewrite !u16_be_of_value by (unfold blen in *; lia). by rewrite Hr0, Hmagic.
Qed.

Lemma length_ticket_checksum content : blen (ticket_checksum content) = CHECKSUM_LENGTH.
Proof.
  unfold ticket_checksum, blen, CHECKSUM_LENGTH. rewrite length_take, length_blake3. lia.
Qed.

(** The text of a valid ticket. *)
Definition ticket_text (t : ShareTicket) : bytes :=
  let content := ticket_content t (blen (tk_initial_peers t)) in
  TICKET_PREFIX ++ b64_encode (content ++ ticket_checksum content).

Lemma blen_ticket_text t :
  ticket_wf t → ticket_valid t → blen (ticket_text t) ≤ MAX_TICKET_TEXT_LENGTH.
Proof.
  intros Hw (_ & Hn & _). unfold ticket_text, MAX_TICKET_TEXT_LENGTH, MAX_INITIAL_PEERS in *.
  pose proof (blen_ticket_content t (blen (tk_initial_peers t)) Hw) as Hc.
  pose proof (length_ticket_checksum (ticket_content t (blen (tk_initial_peers t)))) as Hk.
  set (content := ticket_content t _) in *. rewrite blen_app.
  unfold blen in *. rewrite length_b64_encode, length_app. unfold CHECKSUM_LENGTH in Hk.
  assert (((4 * (length content + length (ticket_checksum content)) + 2) / 3 ≤ 2848)%nat).
  { transitivity ((4 * 2136 + 2) / 3)%nat; [apply Nat.Div0.div_le_mono; lia|].
    apply Nat.leb_le. by vm_compute. }
  change (length TICKET_PREFIX) with 9%nat. lia.
Qed.

Lemma encode_unfold t :
  ShareTicket_encode t =
    (ShareTicket_validate t;;
     bail_if (u16_max <? blen (tk_initial_peers t)) too_many_peers;;
     bail_if (MAX_TICKET_TEXT_LENGTH <? blen (ticket_text t)) ticket_too_long;;
     Ok (ticket_text t)).
Proof. done. Qed.

Lemma encode_valid t :
  ticket_wf t → ticket_valid t → ShareTicket_encode t = Ok (ticket_text t).
Proof.
  intros Hw Hv. rewrite encode_unfold, (proj2 (ShareTicket_validate_Ok t) Hv).
  pose proof (blen_ticket_text t Hw Hv). destruct Hv as (_ & Hn & _).
  unfold MAX_INITIAL_PEERS in Hn. simpl.
  rewrite (proj2 (Z.ltb_ge u16_max _)) by (u_unfold; lia). simpl.
  by rewrite (proj2 (Z.ltb_ge _ _)).
Qed.

Lemma encode_Ok t text :
  ShareTicket_encode t = Ok text → ticket_valid t ∧ text = ticket_text t.
Proof.
  rewrite encode_unfold. destruct (ShareTicket_validate t) as [[]|] eqn:Ev; [|done].
  apply ShareTicket_validate_Ok in Ev. simpl.
  destruct (u16_max <? _); simpl; [done|].
  destruct (MAX_TICKET_TEXT_LENGTH <? _); simpl; [done|]. by intros [= <-].
Qed.

Lemma parse_ticket_text t :
  ticket_wf t → ticket_valid t → ShareTicket_parse (ticket_text t) = Ok t.
Proof.
  intros Hw Hv. unfold ShareTicket_parse.
  rewrite (proj2 (Z.ltb_ge _ _) (blen_ticket_text t Hw Hv)). cbn [bail_if mbind result_bind].
  pose proof (blen_ticket_content t (blen (tk_initial_peers t)) Hw) as Hc.
  pose proof (parse_content_encoded t Hw Hv) as Hp. unfold ticket_text.
  set (content := ticket_content t _) in *. set (raw := content ++ ticket_checksum content).
  rewrite (proj2 (strip_prefix_Some TICKET_PREFIX _ _) eq_refl). cbn [ok_or mbind result_bind].
  pose proof (blen_nonneg (tk_initial_peers t)).
  pose proof (length_ticket_checksum content) as Hk.
  assert (Hlen : blen raw = blen content + CHECKSUM_LENGTH) by (unfold raw; by rewrite blen_app, Hk).
  assert (Hne : b64_encode raw ≠ []).
  { intros E. apply (f_equal length) in E. rewrite length_b64_encode in E.
    change (length []) with 0%nat in E.
    apply Nat.div_small_iff in E; [|done]. unfold CHECKSUM_LENGTH, blen in *. lia. }
  rewrite bool_decide_false by done.
  rewrite (existsb_negb_forallb _ _ (b64_encode_alphabet raw)). cbn [orb bail_if mbind result_bind].
  rewrite b64_decode_encode. cbn [ok_or mbind result_bind].
  rewrite (bool_decide_true (b64_encode raw = b64_encode raw)) by done.
  cbn [negb bail_if mbind result_bind]. rewrite Hlen.
  rewrite (proj2 (Z.ltb_ge _ _)) by lia. cbn [bail_if mbind result_bind].
  replace (blen content + CHECKSUM_LENGTH - CHECKSUM_LENGTH) with (blen content) by lia.
  assert (Z.to_nat (blen content) = length content) as -> by (unfold blen; lia).
  unfold raw. rewrite take_app_length, drop_app_length, bool_decide_true by done. exact Hp.
Qed.

Lemma parse_Ok text t :
  ShareTicket_parse text = Ok t → ticket_wf t ∧ ticket_valid t ∧ text = ticket_text t.
Proof.
  unfold ShareTicket_parse. destruct (MAX_TICKET_TEXT_LENGTH <? blen text); [done|].
  cbn [bail_if mbind result_bind].
  destruct (strip_prefix TICKET_PREFIX text) as [enc|] eqn:Ep; [|done].
  apply strip_prefix_Some in Ep as ->. cbn [ok_or mbind result_bind].
  destruct (bool_decide (enc = []) || _); [done|]. cbn [bail_if mbind result_bind].
  destruct (b64_decode enc) as [raw|]; [|done]. cbn [ok_or mbind result_bind].
  destruct (bool_decide (b64_encode raw = enc)) eqn:Henc; [|done].
  apply bool_decide_eq_true in Henc. cbn [negb bail_if mbind result_bind].
  destruct (Z.ltb_spec (blen raw) (4 + 2 + 2 + 32 + 32 + CHECKSUM_LENGTH)); [done|].
  cbn [bail_if mbind result_bind]. case_bool_decide as Hsum; [|done].
  cbn [negb bail_if mbind result_bind]. intros Hp.
  apply parse_content_Ok in Hp as (Hc & Hw & Hv). split; [done|]. split; [done|].
  unfold ticket_text. rewrite <-Hc, Hsum, take_drop. by rewrite Henc.
Qed.

(** ** Properties *)

(** Every valid ticket has a text, within the length limit, and parsing the
    text gives the ticket back. *)
Lemma ticket_parse_encode (t : ShareTicket) (Hw : ticket_wf t)
    (Hv : ShareTicket_validate t = Ok tt) :
  ∃ text, ShareTicket_encode t = Ok text ∧ ShareTicket_parse text = Ok t.
Proof.
  apply ShareTicket_validate_Ok in Hv. exists (ticket_text t).
  split; [by apply encode_valid|by apply parse_ticket_text].
Qed.

(** A ticket has one text: every text that parses is the encoding of its
    ticket, and the ticket is valid. *)
Lemma ticket_encode_parse (text : bytes) (t : ShareTicket)
    (Hp : ShareTicket_parse text = Ok t) :
  ShareTicket_encode t = Ok text ∧ ShareTicket_validate t = Ok tt.
Proof.
  apply parse_Ok in Hp as (Hw & Hv & ->). split; [by apply encode_valid|].
  by apply ShareTicket_validate_Ok.
Qed.

(** [ShareTicket::new] accepts a list of peers exactly when it has at most
    64 entries and no duplicate, and then the ticket holds the same peers, in
    the order of their text form. *)
Lemma ticket_new_outcome (share_id share_secret : bytes) (peers : list EndpointId) :
  match ShareTicket_new share_id share_secret peers with
  | Ok t =>
      tk_share_id t = share_id ∧ tk_share_secret t = share_secret ∧
      tk_initial_peers t ≡ₚ peers ∧ ShareTicket_validate t = Ok tt ∧
      NoDup peers ∧ blen peers ≤ MAX_INITIAL_PEERS
  | Err _ => ¬ NoDup peers ∨ MAX_INITIAL_PEERS < blen peers
  end.
Proof.
  unfold ShareTicket_new. set (t := Build_ShareTicket _ _ _ _).
  assert (Hp : sort_by ep_to_string peers ≡ₚ peers) by apply sort_by_perm.
  assert (Hl : blen (sort_by ep_to_string peers) = blen peers)
    by (unfold blen; by rewrite Hp).
  pose proof (ShareTicket_validate_Ok t) as Hv.
  destruct (ShareTicket_validate t) as [[]|e] eqn:Ev; simpl.
  - destruct Hv as [Hv _]. destruct (Hv eq_refl) as (_ & Hn & Hs). subst t; simpl in *.
    split_and!; try done; [|lia].
    apply (NoDup_fmap_1 ep_to_string). change (NoDup (map ep_to_string peers)).
    rewrite <-(Permutation_map ep_to_string Hp). by apply sorted_lt_nodup.
  - destruct (Z.le_gt_cases (blen peers) MAX_INITIAL_PEERS) as [Hle|]; [left|right; lia].
    intros Hnd. assert (ticket_valid t) as Ht; [|by apply Hv in Ht].
    subst t; split_and!; simpl; [done|lia|]. apply sorted_le_lt; [apply sort_by_sorted|].
    rewrite (Permutation_map ep_to_string Hp). by apply (NoDup_fmap_2 ep_to_string).
Qed.
End ticket.

(** *** Witnesses *)

Import Ref.

Definition ex_ticket : ShareTicket := {|
  tk_protocol_version := 1;
  tk_share_id := repeat "005"%byte 32;
  tk_share_secret := repeat "006"%byte 32;
  tk_initial_peers := [endpoint "001"; endpoint "002"];
|}.

Lemma ticket_parse_encode_witness :
  ∃ text, ShareTicket_encode ex_ticket = Ok text ∧ ShareTicket_parse text = Ok ex_ticket.
Proof. apply ticket_parse_encode; [done|vm_compute; reflexivity]. Defined.

Lemma ticket_encode_parse_witness :
  ShareTicket_encode ex_ticket = Ok (ticket_text ex_ticket) ∧
  ShareTicket_validate ex_ticket = Ok tt.
Proof.
  apply ticket_encode_parse. apply parse_ticket_text; [done|].
  apply ShareTicket_validate_Ok. vm_compute. reflexivity.
Defined.
