(* ===== verification/ManifestPath.v ===== *)
(** * Manifest paths (src/manifest/path.rs)

    What the sources use of [std::path] on Unix (components, push,
    strip_prefix), and the validation and mapping of manifest-relative paths.
    A validated path never leaves the shared root. *)

From S2P Require Import Prelude Bytes.

(** ** [str::split('/')] *)

Fixpoint split_slash (s : bytes) : list bytes :=
  match s with
  | [] => [[]]
  | c :: s' =>
      if Byte.eqb c slash then [] :: split_slash s'
      else match split_slash s' with
           | [] => [[c]]
           | p :: ps => (c :: p) :: ps
           end
  end.

Fixpoint join_slash (ps : list bytes) : bytes :=
  match ps with
  | [] => []
  | [p] => p
  | p :: ps' => p ++ slash :: join_slash ps'
  end.

Lemma split_slash_nonempty s : split_slash s ≠ [].
Proof. induction s as [|c s IH]; simpl; [done|]. destruct (Byte.eqb c slash); [done|]. by destruct (split_slash s). Qed.

Lemma split_slash_app a b : split_slash (a ++ slash :: b) = split_slash a ++ split_slash b.
Proof.
  induction a as [|c a IH]; simpl; [done|].
  destruct (Byte.eqb c slash); [by rewrite IH|]. rewrite IH.
  pose proof (split_slash_nonempty a). by destruct (split_slash a).
Qed.

Lemma split_slash_none a : slash ∉ a → split_slash a = [a].
Proof.
  induction a as [|c a IH]; simpl; [done|]. intros Hn%not_elem_of_cons.
  destruct (Byte.eqb c slash) eqn:E; [apply byte_eqb_eq in E; naive_solver|].
  by rewrite IH by tauto.
Qed.

Lemma split_slash_pieces s p : p ∈ split_slash s → slash ∉ p.
Proof.
  revert p. induction s as [|c s IH]; simpl; intros p Hp.
  { apply list_elem_of_singleton in Hp as ->. apply not_elem_of_nil. }
  destruct (Byte.eqb c slash) eqn:E.
  - apply elem_of_cons in Hp as [->|Hp]; [apply not_elem_of_nil|auto].
  - assert (slash ≠ c) by (intros <-; by rewrite (proj2 (byte_eqb_eq slash slash)) in E).
    pose proof (split_slash_nonempty s). destruct (split_slash s) as [|q qs]; [done|].
    apply elem_of_cons in Hp as [->|Hp]; [|apply IH; by right].
    rewrite not_elem_of_cons. split; [done|]. apply IH. by left.
Qed.

Lemma join_split s : join_slash (split_slash s) = s.
Proof.
  induction s as [|c s IH]; simpl; [done|].
  pose proof (split_slash_nonempty s). destruct (split_slash s) as [|p ps]; [done|].
  destruct (Byte.eqb c slash) eqn:E.
  - apply byte_eqb_eq in E as ->. simpl. simpl in IH. by rewrite IH.
  - destruct ps; simpl in *; congruence.
Qed.

Lemma split_join ps :
  ps ≠ [] → Forall (λ p, slash ∉ p) ps → split_slash (join_slash ps) = ps.
Proof.
  induction ps as [|p ps IH]; [done|]. intros _ Hf.
  inversion Hf as [|? ? Hp Hps]; subst. destruct ps as [|q ps].
  - simpl. by apply split_slash_none.
  - change (join_slash (p :: q :: ps)) with (p ++ slash :: join_slash (q :: ps)).
    rewrite split_slash_app, split_slash_none, IH by done. done.
Qed.

(** ** [std::path::Path] *)

Inductive Component := RootDir | CurDir | ParentDir | Normal (name : bytes).

Global Instance Component_eq_dec : EqDecision Component.
Proof. solve_decision. Defined.

(** The component a piece between separators stands for: repeated separators
    and interior [.] are dropped. *)
Definition piece_component (p : bytes) : option Component :=
  if bool_decide (p = []) then None
  else if bool_decide (p = [dot]) then None
  else if bool_decide (p = [dot; dot]) then Some ParentDir
  else Some (Normal p).

Definition is_absolute (s : bytes) : bool :=
  match s with c :: _ => Byte.eqb c slash | [] => false end.

(** The leading component: the root, or a [.] that starts a relative path. *)
Definition leading (s : bytes) : list Component :=
  if is_absolute s then [RootDir]
  else if bool_decide (head (split_slash s) = Some [dot]) then [CurDir] else [].

(** [Path::components]. *)
Definition components (s : bytes) : list Component :=
  leading s ++ omap piece_component (split_slash s).

(** [PathBuf::push]. *)
Definition path_push (p c : bytes) : bytes :=
  if is_absolute c then c
  else match last p with
       | Some b => if Byte.eqb b slash then p ++ c else p ++ slash :: c
       | None => p ++ c
       end.

(** [Path::strip_prefix], as the components that are left. *)
Fixpoint strip_components (base cs : list Component) : option (list Component) :=
  match base, cs with
  | [], _ => Some cs
  | x :: base', y :: cs' =>
      if bool_decide (x = y) then strip_components base' cs' else None
  | _ :: _, [] => None
  end.

(** ** The operations of path.rs *)

Definition unsafe_component : string := "manifest path contains an unsafe component".

Definition check_component (count : nat) (c : Component) : result nat :=
  match c with
  | Normal name =>
      bail_if (bool_decide (name = [])) "manifest path contains an invalid component";;
      Ok (S count)
  | _ => Err unsafe_component
  end.

Definition validate_manifest_path (value : bytes) : result unit :=
  bail_if (bool_decide (value = []) || (4096 <? blen value)
           || contains backslash value || contains nul value)
    "manifest path is invalid";;
  bail_if (is_absolute value) "manifest path must be relative";;
  count ← try_fold check_component (components value) 0%nat;
  bail_if (count =? 0)%nat "manifest path is empty".

Definition path_for_manifest (root manifest_path : bytes) : result bytes :=
  validate_manifest_path manifest_path;;
  Ok (foldl path_push root (split_slash manifest_path)).

Definition relative_step (value : bytes) (c : Component) : result bytes :=
  match c with
  | Normal name =>
      bail_if (negb (is_utf8 name)) "local file name is not valid UTF-8";;
      bail_if (bool_decide (name = []) || contains backslash name || contains slash name)
        "local file name cannot be represented safely in a manifest";;
      Ok ((if bool_decide (value = []) then [] else value ++ [slash]) ++ name)
  | _ => Err "local file path cannot be represented safely in a manifest"
  end.

Definition relative_manifest_path (root path : bytes) : result bytes :=
  relative ← ok_or (strip_components (components root) (components path))
               "scanned path is outside its root";
  value ← try_fold relative_step relative [];
  validate_manifest_path value;;
  Ok value.

(** ** Components under [push] *)

Lemma omap_components_app l k :
  omap piece_component (l ++ k) = omap piece_component l ++ omap piece_component k.
Proof. apply omap_app. Qed.

Lemma leading_push_sep q c :
  q ≠ [] → leading (q ++ slash :: c) = leading q.
Proof.
  intros Hq. unfold leading. rewrite split_slash_app.
  pose proof (split_slash_nonempty q) as Hn.
  destruct q as [|b q]; [done|]. simpl is_absolute.
  destruct (Byte.eqb b slash); [done|].
  by destruct (split_slash (b :: q)).
Qed.

Lemma components_push q c :
  q ≠ [] → slash ∉ c →
  components (path_push q c) = components q ++ omap piece_component [c].
Proof.
  intros Hq Hc. unfold path_push.
  assert (is_absolute c = false) as ->.
  { destruct c as [|b c]; [done|]. simpl. destruct (Byte.eqb b slash) eqn:E; [|done].
    apply byte_eqb_eq in E as ->. destruct Hc. by left. }
  destruct (last q) as [b|] eqn:El; [|apply last_None in El; done].
  apply last_Some in El as [q' ->].
  destruct (Byte.eqb b slash) eqn:Eb.
  - apply byte_eqb_eq in Eb as ->. rewrite <-app_assoc; simpl.
    destruct q' as [|b q'].
    + unfold components, leading; simpl. by rewrite (split_slash_none c).
    + unfold components. rewrite !(leading_push_sep (b :: q')) by done.
      rewrite !split_slash_app, (split_slash_none c) by done.
      rewrite !omap_components_app. simpl. by rewrite app_nil_r, app_assoc.
  - unfold components. rewrite leading_push_sep by (by destruct q').
    rewrite split_slash_app, (split_slash_none c), omap_components_app, app_assoc; done.
Qed.

Lemma path_push_nonempty q c : q ≠ [] → slash ∉ c → path_push q c ≠ [].
Proof.
  intros Hq Hc. unfold path_push.
  destruct c as [|b c]; simpl.
  - destruct (last q) as [x|]; [destruct (Byte.eqb x slash)|]; by destruct q.
  - destruct (Byte.eqb b slash); [done|].
    destruct (last q) as [x|]; [destruct (Byte.eqb x slash)|]; by destruct q.
Qed.

Lemma components_push_all root ps :
  root ≠ [] → Forall (λ p, slash ∉ p) ps →
  components (foldl path_push root ps) = components root ++ omap piece_component ps.
Proof.
  intros Hr Hf. revert root Hr. induction Hf as [|p ps Hp Hps IH]; intros root Hr; simpl.
  - by rewrite app_nil_r.
  - rewrite IH by (by apply path_push_nonempty).
    rewrite components_push by done. rewrite <-app_assoc. simpl.
    by destruct (piece_component p).
Qed.

(** ** What validation accepts *)

(** A name of a directory entry: no separator, not [.] or [..]. *)
Definition good_name (p : bytes) : Prop :=
  p ≠ [] ∧ p ≠ [dot] ∧ p ≠ [dot; dot] ∧ slash ∉ p.

(** The names a manifest path goes through. *)
Definition path_names (s : bytes) : list bytes :=
  List.filter (λ p, negb (bool_decide (p = [])) && negb (bool_decide (p = [dot])))
    (split_slash s).

Lemma check_components_Ok cs n m :
  try_fold check_component cs n = Ok m ↔
  ∃ ns, cs = map Normal ns ∧ Forall (λ p, p ≠ []) ns ∧ m = (n + length ns)%nat.
Proof.
  revert n. induction cs as [|c cs IH]; intros n; simpl.
  - split.
    + intros [= ->]. exists []. split_and!; [done|constructor|simpl; lia].
    + intros (ns & E & _ & ->). destruct ns; [|done]. simpl. f_equal. lia.
  - destruct c as [| | |name]; simpl; try (split; [done|intros ([|] & ? & _); done]).
    split.
    + intros H. res_inv. case_bool_decide; [done|]. apply IH in H as (ns & -> & Hf & ->).
      exists (name :: ns). split_and!; [done|by constructor|simpl; lia].
    + intros ([|name' ns] & E & Hf & ->); [done|]. simpl in E.
      injection E as -> E. inversion Hf; subst. rewrite bool_decide_false by done. simpl.
      apply IH. exists ns. split_and!; [done..|simpl; lia].
Qed.

Lemma piece_component_normal ps ns :
  omap piece_component ps = map Normal ns → Forall (λ p, slash ∉ p) ps →
  ns = List.filter (λ p, negb (bool_decide (p = [])) && negb (bool_decide (p = [dot]))) ps ∧
  Forall good_name ns.
Proof.
  revert ns. induction ps as [|p ps IH]; intros ns E Hf; simpl in *.
  - destruct ns; [|done]. split; [done|constructor].
  - inversion Hf as [|? ? Hp Hps]; subst. unfold piece_component in E at 1.
    repeat case_bool_decide; simpl in *; try (by apply IH); try (by destruct ns).
    destruct ns as [|n ns]; [done|]. injection E as <- E.
    destruct (IH ns) as [-> Hg]; [done..|]. split; [done|]. constructor; [done|done].
Qed.

Lemma validate_manifest_path_components value :
  validate_manifest_path value = Ok tt →
  components value = map Normal (path_names value) ∧ path_names value ≠ [] ∧
  Forall good_name (path_names value) ∧
  omap piece_component (split_slash value) = map Normal (path_names value).
Proof.
  unfold validate_manifest_path. intros H. res_inv.
  match goal with Hc : try_fold _ _ _ = Ok _ |- _ =>
    apply check_components_Ok in Hc as (ns & Hns & Hne & ->) end.
  match goal with Ha : is_absolute value = false |- _ => rename Ha into Habs end.
  assert (Ho : omap piece_component (split_slash value) = map Normal ns).
  { unfold components, leading in Hns. rewrite Habs in Hns.
    case_bool_decide; [by destruct ns|done]. }
  destruct (piece_component_normal _ _ Ho) as [Hns' Hg].
  { apply List.Forall_forall. intros p Hp. eapply split_slash_pieces. by apply list_elem_of_In. }
  fold (path_names value) in Hns'. subst ns. split_and!; [done| |done|done].
  intros E. by rewrite E in *.
Qed.

(** ** The relative path of a scanned entry *)

Lemma strip_components_Some base cs rest :
  strip_components base cs = Some rest ↔ cs = base ++ rest.
Proof.
  revert cs. induction base as [|x base IH]; intros cs; simpl; [naive_solver|].
  destruct cs as [|y cs]; [naive_solver|]. case_bool_decide; [|naive_solver].
  subst. rewrite IH. naive_solver.
Qed.

Definition plain_name (p : bytes) : Prop :=
  p ≠ [] ∧ slash ∉ p ∧ backslash ∉ p ∧ is_utf8 p = true.

Lemma relative_step_Ok value c v :
  relative_step value c = Ok v ↔
  ∃ name, c = Normal name ∧ plain_name name ∧
    v = (if bool_decide (value = []) then [] else value ++ [slash]) ++ name.
Proof.
  unfold plain_name. destruct c as [| | |name]; simpl; [naive_solver..|].
  destruct (is_utf8 name) eqn:Eu; simpl; [|naive_solver congruence].
  pose proof (contains_false backslash name). pose proof (contains_false slash name).
  destruct (bool_decide (name = [])) eqn:E; simpl.
  { apply bool_decide_eq_true in E. split; [done|naive_solver]. }
  apply bool_decide_eq_false in E.
  destruct (contains backslash name), (contains slash name); simpl; naive_solver.
Qed.

Lemma relative_fold_from acc cs v :
  acc ≠ [] →
  try_fold relative_step cs acc = Ok v ↔
  ∃ ns, cs = map Normal ns ∧ Forall plain_name ns ∧ v = join_slash (acc :: ns).
Proof.
  revert acc. induction cs as [|c cs IH]; intros acc Ha; simpl.
  - split.
    + intros [= ->]. exists []. split_and!; [done|constructor|done].
    + intros (ns & E & _ & ->). by destruct ns.
  - rewrite bind_Ok. setoid_rewrite relative_step_Ok. split.
    + intros (a & (name & -> & Hn & ->) & H). rewrite bool_decide_false in H by done.
      apply IH in H as (ns & -> & Hf & ->); [|by destruct acc].
      exists (name :: ns). split_and!; [done|by constructor|].
      destruct ns; simpl; rewrite <-!app_assoc; simpl; by rewrite <-?app_assoc.
    + intros ([|name ns] & E & Hf & ->); [done|]. simpl in E. injection E as -> ->.
      inversion Hf; subst. eexists. split; [by eauto|]. rewrite bool_decide_false by done.
      apply IH; [by destruct acc|]. exists ns. split_and!; [done..|].
      destruct ns; simpl; rewrite <-!app_assoc; simpl; by rewrite <-?app_assoc.
Qed.

Lemma relative_fold cs v :
  try_fold relative_step cs [] = Ok v ↔
  ∃ ns, cs = map Normal ns ∧ Forall plain_name ns ∧ v = join_slash ns.
Proof.
  destruct cs as [|c cs]; simpl.
  - split.
    + intros [= <-]. exists []. split_and!; [done|constructor|done].
    + intros (ns & E & _ & ->). by destruct ns.
  - rewrite bind_Ok. setoid_rewrite relative_step_Ok. simpl. split.
    + intros (a & (name & -> & Hn & ->) & H).
      apply relative_fold_from in H as (ns & -> & Hf & ->); [|apply Hn].
      exists (name :: ns). split_and!; [done|by constructor|done].
    + intros ([|name ns] & E & Hf & ->); [done|]. simpl in E. injection E as -> ->.
      inversion Hf as [|? ? Hn Hns]; subst. exists name. split; [by eauto|].
      apply relative_fold_from; [apply Hn|]. eauto.
Qed.

(** A path, a [str], that is spelled with its names only: no [.], no repeated or trailing
    separator. *)
Definition canonical_path (s : bytes) : Prop :=
  is_utf8 s = true ∧ validate_manifest_path s = Ok tt ∧ join_slash (path_names s) = s.

Lemma filter_all {A} (f : A → bool) l : Forall (λ x, f x = true) l → List.filter f l = l.
Proof. induction 1 as [|x l Hx Hl IH]; simpl; [done|]. by rewrite Hx, IH. Qed.

Lemma components_normal_good q name : Normal name ∈ components q → good_name name.
Proof.
  unfold components. rewrite elem_of_app. intros [Hl|Ho].
  - unfold leading in Hl. destruct (is_absolute q); [set_solver|].
    case_bool_decide; set_solver.
  - apply list_elem_of_omap in Ho as (p & Hp & E). unfold piece_component in E.
    repeat case_bool_decide; simplify_eq. repeat split; try done.
    by eapply split_slash_pieces.
Qed.

Lemma join_path_names ns :
  ns ≠ [] → Forall good_name ns → path_names (join_slash ns) = ns.
Proof.
  intros Hne Hg. unfold path_names. rewrite split_join; [|done|].
  - apply filter_all. eapply Forall_impl; [exact Hg|]. intros p (H1 & H2 & _).
    by rewrite !bool_decide_false.
  - eapply Forall_impl; [exact Hg|]. by intros p (_ & _ & _ & ?).
Qed.

Lemma path_for_manifest_components root p q :
  root ≠ [] → path_for_manifest root p = Ok q →
  components q = components root ++ map Normal (path_names p).
Proof.
  unfold path_for_manifest. intros Hr H. res_inv. destruct a.
  apply validate_manifest_path_components in E as (_ & _ & _ & Ho).
  rewrite components_push_all, Ho; [done|done|].
  apply List.Forall_forall. intros x Hx. eapply split_slash_pieces. by apply list_elem_of_In.
Qed.

Lemma names_no_backslash s :
  backslash ∉ s → Forall (λ p, backslash ∉ p) (split_slash s).
Proof.
  induction s as [|c s IH]; simpl; intros Hn; [repeat constructor; by apply not_elem_of_nil|].
  apply not_elem_of_cons in Hn as [Hc Hn]. specialize (IH Hn).
  destruct (Byte.eqb c slash); [by constructor; [apply not_elem_of_nil|]|].
  destruct (split_slash s) as [|p ps]; inversion IH; subst; repeat constructor;
    rewrite ?not_elem_of_cons; try done. split; [done|by apply not_elem_of_nil].
Qed.

Lemma pieces_utf8 s : is_utf8 s = true → Forall (λ p, is_utf8 p = true) (split_slash s).
Proof.
  intros H. rewrite <-(join_split s) in H. revert H. generalize (split_slash s) as ps.
  induction ps as [|p ps IH]; [constructor|]. destruct ps as [|q ps]; [by repeat constructor|].
  change (join_slash (p :: q :: ps)) with (p ++ slash :: join_slash (q :: ps)).
  rewrite is_utf8_slash. intros [Hp Hq]%andb_prop. constructor; [done|by apply IH].
Qed.

Lemma join_utf8 ps : Forall (λ p, is_utf8 p = true) ps → is_utf8 (join_slash ps) = true.
Proof.
  induction 1 as [|p ps Hp Hps IH]; [done|]. destruct ps as [|q ps]; [done|].
  change (join_slash (p :: q :: ps)) with (p ++ slash :: join_slash (q :: ps)).
  by rewrite is_utf8_slash, Hp, IH.
Qed.

Lemma path_names_plain s :
  is_utf8 s = true → validate_manifest_path s = Ok tt → Forall plain_name (path_names s).
Proof.
  intros Hu H. apply pieces_utf8 in Hu. pose proof H as (_ & _ & Hg & _)%validate_manifest_path_components.
  unfold validate_manifest_path in H. res_inv.
  rewrite !orb_false_iff, contains_false in *. destruct_and!.
  assert (Hb : Forall (λ p, backslash ∉ p) (split_slash s)) by (by apply names_no_backslash).
  rewrite List.Forall_forall in *. intros p Hp.
  split_and!; [by apply Hg..| |]; unfold path_names in Hp; apply filter_In in Hp as [? _]; auto.
Qed.

Lemma relative_manifest_path_Ok root q v :
  relative_manifest_path root q = Ok v ↔
  ∃ ns, components q = components root ++ map Normal ns ∧ Forall plain_name ns ∧
    v = join_slash ns ∧ validate_manifest_path v = Ok tt.
Proof.
  unfold relative_manifest_path. split.
  - intros H. res_inv.
    match goal with Hs : strip_components _ _ = _ |- _ => apply strip_components_Some in Hs end.
    match goal with Hf : try_fold _ _ _ = _ |- _ => apply relative_fold in Hf as (ns & -> & ? & ->) end.
    match goal with Hv : validate_manifest_path _ = Ok ?u |- _ => destruct u end.
    by exists ns.
  - intros (ns & Hq & Hf & -> & Hv).
    rewrite (proj2 (strip_components_Some _ _ _) Hq); simpl.
    assert (try_fold relative_step (map Normal ns) [] = Ok (join_slash ns)) as ->
      by (apply relative_fold; eauto).
    simpl. by rewrite Hv.
Qed.

(** ** Properties *)

(** The local path of an accepted manifest path lies strictly below the
    shared root: its components are those of the root followed by at least one
    plain name, never the root, a [.] or a [..]. *)
Lemma path_for_manifest_stays_below_root (root p q : bytes)
    (Hroot : root ≠ []) (Hq : path_for_manifest root p = Ok q) :
  ∃ names, names ≠ [] ∧ Forall good_name names ∧
    components q = components root ++ map Normal names.
Proof.
  exists (path_names p). pose proof Hq as Hc%path_for_manifest_components; [|done].
  unfold path_for_manifest in Hq. res_inv. destruct a.
  apply validate_manifest_path_components in E as (_ & ? & ? & _). done.
Qed.

(** Mapping a canonical manifest path below a root and taking the relative
    path of the result gives the manifest path back. *)
Lemma relative_of_path_for_manifest (root p : bytes)
    (Hroot : root ≠ []) (Hp : canonical_path p) :
  ∃ q, path_for_manifest root p = Ok q ∧ relative_manifest_path root q = Ok p.
Proof.
  destruct Hp as (Hu & Hv & Hj). unfold path_for_manifest. rewrite Hv. simpl.
  eexists. split; [done|]. apply relative_manifest_path_Ok.
  exists (path_names p). split_and!; [|by apply path_names_plain|done|done].
  apply path_for_manifest_components; [done|]. unfold path_for_manifest. by rewrite Hv.
Qed.

(** The manifest path a scan derives from a file below the root is canonical
    and maps back to that file: two different files never share a manifest
    path, and the manifest path of a file is unique. *)
Lemma relative_manifest_path_canonical (root q v : bytes)
    (Hroot : root ≠ []) (Hv : relative_manifest_path root q = Ok v) :
  canonical_path v ∧
  ∃ q', path_for_manifest root v = Ok q' ∧ components q' = components q.
Proof.
  apply relative_manifest_path_Ok in Hv as (ns & Hc & Hf & -> & Hval).
  assert (Hg : Forall good_name ns).
  { apply List.Forall_forall. intros n Hn. apply (components_normal_good q).
    rewrite Hc, elem_of_app. right. by apply list_elem_of_In, in_map. }
  assert (Hne : ns ≠ []).
  { intros ->. unfold validate_manifest_path in Hval. by simpl in Hval. }
  pose proof (join_path_names ns Hne Hg) as Hn. split.
  - split_and!; [|done|by rewrite Hn].
    apply join_utf8. eapply Forall_impl; [exact Hf|]. by intros p (_ & _ & _ & ?).
  - assert (Hq : path_for_manifest root (join_slash ns) =
      Ok (foldl path_push root (split_slash (join_slash ns))))
      by (unfold path_for_manifest; by rewrite Hval).
    eexists. split; [exact Hq|]. apply path_for_manifest_components in Hq; [|done].
    by rewrite Hq, Hn, Hc.
Qed.

(** C40: validation accepts spellings that are not canonical, so two distinct
    manifest paths may name one local file: [a/./b] and [a/b] are both accepted
    and map to the same components. *)
Theorem manifest_paths_may_alias (root : bytes) (Hroot : root ≠ []) :
  ∃ p1 p2 q1 q2, p1 ≠ p2 ∧ path_for_manifest root p1 = Ok q1 ∧
    path_for_manifest root p2 = Ok q2 ∧ components q1 = components q2.
Proof.
  exists (bs "a/./b"), (bs "a/b").
  eexists (foldl path_push root (split_slash (bs "a/./b"))),
          (foldl path_push root (split_slash (bs "a/b"))).
  assert (H1 : validate_manifest_path (bs "a/./b") = Ok tt) by (vm_compute; reflexivity).
  assert (H2 : validate_manifest_path (bs "a/b") = Ok tt) by (vm_compute; reflexivity).
  assert (Q1 : path_for_manifest root (bs "a/./b") =
    Ok (foldl path_push root (split_slash (bs "a/./b"))))
    by (unfold path_for_manifest; by rewrite H1).
  assert (Q2 : path_for_manifest root (bs "a/b") =
    Ok (foldl path_push root (split_slash (bs "a/b"))))
    by (unfold path_for_manifest; by rewrite H2).
  split_and!; [done|exact Q1|exact Q2|].
  by rewrite (path_for_manifest_components _ _ _ Hroot Q1),
             (path_for_manifest_components _ _ _ Hroot Q2).
Qed.

(** *** Witnesses *)

Lemma path_for_manifest_stays_below_root_witness :
  path_for_manifest (bs "/srv/share") (bs "docs//a.txt") = Ok (bs "/srv/share/docs/a.txt") ∧
  ∃ names, names ≠ [] ∧ Forall good_name names ∧
    components (bs "/srv/share/docs/a.txt") =
    components (bs "/srv/share") ++ map Normal names.
Proof.
  assert (H : path_for_manifest (bs "/srv/share") (bs "docs//a.txt") =
    Ok (bs "/srv/share/docs/a.txt")) by (vm_compute; reflexivity).
  split; [exact H|].
  exact (path_for_manifest_stays_below_root (bs "/srv/share") (bs "docs//a.txt") _
           ltac:(discriminate) H).
Defined.

Lemma relative_of_path_for_manifest_witness :
  canonical_path (bs "docs/a.txt") ∧
  ∃ q, path_for_manifest (bs "/srv") (bs "docs/a.txt") = Ok q ∧
    relative_manifest_path (bs "/srv") q = Ok (bs "docs/a.txt").
Proof.
  assert (H : canonical_path (bs "docs/a.txt")) by (split_and!; vm_compute; reflexivity).
  split; [exact H|]. exact (relative_of_path_for_manifest (bs "/srv") _ ltac:(discriminate) H).
Defined.

Lemma relative_manifest_path_canonical_witness :
  relative_manifest_path (bs "/srv") (bs "/srv/./docs/a.txt") = Ok (bs "docs/a.txt") ∧
  canonical_path (bs "docs/a.txt").
Proof.
  assert (H : relative_manifest_path (bs "/srv") (bs "/srv/./docs/a.txt") =
    Ok (bs "docs/a.txt")) by (vm_compute; reflexivity).
  split; [exact H|]. exact (proj1 (relative_manifest_path_canonical (bs "/srv") _ _ ltac:(discriminate) H)).
Defined.

Lemma manifest_paths_may_alias_witness :
  ∃ p1 p2 q1 q2, p1 ≠ p2 ∧ path_for_manifest (bs "/srv") p1 = Ok q1 ∧
    path_for_manifest (bs "/srv") p2 = Ok q2 ∧ components q1 = components q2.
Proof. exact (manifest_paths_may_alias (bs "/srv") ltac:(discriminate)). Defined.
