(* ===== verification/Manifest.v ===== *)
(** * Manifests (src/manifest/model.rs, src/manifest/merge.rs)

    The manifest records, their validation with the thread-local cache of
    accepted authors, and the hierarchy check with its shared-ancestor shortcut.
    Validation is proved equivalent to a declarative well-formedness predicate,
    and its outcome independent of the cache. *)

From S2P Require Import Prelude Collections Bytes External Reference Clock Types ManifestPath.

Definition MAX_MANIFEST_ENTRIES : Z := 100000.
Definition MANIFEST_FORMAT_VERSION : Z := 3.
Definition PREVIOUS_MANIFEST_FORMAT_VERSION : Z := 2.
Definition LEGACY_MANIFEST_FORMAT_VERSION : Z := 1.
Definition MAX_CACHED_AUTHORS : Z := 256.

Record ManifestEntry := {
  me_size : Z;
  me_modified_at_ns : Z;
  me_sha256 : bytes;
  me_permissions : option Z;
  me_version : HlcTimestamp;
}.
Record DirectoryEntry := { de_permissions : option Z; de_version : HlcTimestamp }.
Record SymlinkEntry := { se_target : bytes; se_version : HlcTimestamp }.
Record Tombstone := { tb_version : HlcTimestamp }.

Global Instance ManifestEntry_eq_dec : EqDecision ManifestEntry.
Proof. solve_decision. Defined.
Global Instance DirectoryEntry_eq_dec : EqDecision DirectoryEntry.
Proof. solve_decision. Defined.
Global Instance SymlinkEntry_eq_dec : EqDecision SymlinkEntry.
Proof. solve_decision. Defined.
Global Instance Tombstone_eq_dec : EqDecision Tombstone.
Proof. solve_decision. Defined.

Record Manifest := {
  mf_format_version : Z;
  mf_share_id : bytes;
  mf_scanned_at_ms : Z;
  mf_entries : gmap bytes ManifestEntry;
  mf_directories : gmap bytes DirectoryEntry;
  mf_symlinks : gmap bytes SymlinkEntry;
  mf_tombstones : gmap bytes Tombstone;
}.

Definition Manifest_empty (share_id : bytes) (now_ms : Z) : Manifest := {|
  mf_format_version := MANIFEST_FORMAT_VERSION;
  mf_share_id := share_id;
  mf_scanned_at_ms := now_ms;
  mf_entries := ∅;
  mf_directories := ∅;
  mf_symlinks := ∅;
  mf_tombstones := ∅;
|}.

(** [ManifestRecord] and [ManifestRecordRef]. *)
Inductive ManifestRecord :=
| RFile (e : ManifestEntry)
| RDirectory (e : DirectoryEntry)
| RSymlink (e : SymlinkEntry)
| RTombstone (t : Tombstone).

Global Instance ManifestRecord_eq_dec : EqDecision ManifestRecord.
Proof. solve_decision. Defined.

Definition rec_version (r : ManifestRecord) : HlcTimestamp :=
  match r with
  | RFile e => me_version e
  | RDirectory e => de_version e
  | RSymlink e => se_version e
  | RTombstone t => tb_version t
  end.

Definition is_tombstone (r : ManifestRecord) : bool :=
  match r with RTombstone _ => true | _ => false end.

(** [Manifest::record]. *)
Definition record (m : Manifest) (path : bytes) : option ManifestRecord :=
  match mf_entries m !! path with
  | Some e => Some (RFile e)
  | None =>
      match mf_directories m !! path with
      | Some e => Some (RDirectory e)
      | None =>
          match mf_symlinks m !! path with
          | Some e => Some (RSymlink e)
          | None => RTombstone <$> mf_tombstones m !! path
          end
      end
  end.

(** [Manifest::paths]. *)
Definition paths (m : Manifest) : list bytes :=
  bt_keys (mf_entries m) ++ bt_keys (mf_directories m)
  ++ bt_keys (mf_symlinks m) ++ bt_keys (mf_tombstones m).

(** The paths of files, directories and symbolic links, in the order in which
    the hierarchy check visits them. *)
Definition live_paths (m : Manifest) : list bytes :=
  bt_keys (mf_entries m) ++ bt_keys (mf_directories m) ++ bt_keys (mf_symlinks m).

(** ** The hierarchy check *)

(** [path.match_indices('/')]. *)
Fixpoint slash_positions (i : nat) (s : bytes) : list nat :=
  match s with
  | [] => []
  | c :: s' => (if Byte.eqb c slash then [i] else []) ++ slash_positions (S i) s'
  end.

Definition contains_key {V} (m : gmap bytes V) (k : bytes) : bool :=
  match m !! k with Some _ => true | None => false end.

(** [bytes.get(..=i)]. *)
Definition get_through (i : nat) (s : bytes) : option bytes :=
  if (i <? length s)%nat then Some (take (S i) s) else None.

Definition descendant_error : string := "manifest live path has a descendant".
Definition tombstone_error : string := "manifest has a live path below a tombstone".

Fixpoint check_separators (m : Manifest) (previous_path path : bytes)
    (shared_ancestors : bool) (separators : list nat) : result unit :=
  match separators with
  | [] => Ok tt
  | separator :: rest =>
      let shared :=
        shared_ancestors
        && bool_decide (get_through separator previous_path = Some (take (S separator) path)) in
      if shared then check_separators m previous_path path true rest
      else
        let ancestor := take separator path in
        bail_if (contains_key (mf_entries m) ancestor || contains_key (mf_symlinks m) ancestor)
          descendant_error;;
        bail_if (contains_key (mf_tombstones m) ancestor) tombstone_error;;
        check_separators m previous_path path false rest
  end.

Definition check_live_path (m : Manifest) (previous_path path : bytes) : result bytes :=
  check_separators m previous_path path true (slash_positions 0 path);; Ok path.

Definition validate_manifest_hierarchy (m : Manifest) : result unit :=
  if bool_decide (mf_entries m = ∅) && bool_decide (mf_symlinks m = ∅)
     && bool_decide (mf_tombstones m = ∅)
  then Ok tt
  else try_fold (check_live_path m) (live_paths m) [];; Ok tt.

(** *** The reference: no live path lies below a file, a symbolic link or a
    tombstone *)

Definition blocks (m : Manifest) (a : bytes) : bool :=
  contains_key (mf_entries m) a || contains_key (mf_symlinks m) a
  || contains_key (mf_tombstones m) a.

(** Every proper ancestor of [p], a prefix that ends before a separator, is
    free. *)
Definition ancestors_free (m : Manifest) (p : bytes) : Prop :=
  ∀ a b, p = a ++ slash :: b → blocks m a = false.

Definition hierarchy_ok (m : Manifest) : Prop :=
  ∀ p, p ∈ live_paths m → ancestors_free m p.

Lemma elem_of_slash_positions j i s :
  j ∈ slash_positions i s ↔
  (i ≤ j)%nat ∧ s = take (j - i) s ++ slash :: drop (S (j - i)) s.
Proof.
  revert i. induction s as [|c s IH]; intros i; simpl.
  - split; [by intros ?%not_elem_of_nil|]. intros [_ E]. by destruct (j - i)%nat.
  - rewrite elem_of_app, IH. split.
    + intros [Hj|[Hle E]].
      * destruct (Byte.eqb c slash) eqn:Ec; [|by apply not_elem_of_nil in Hj].
        apply list_elem_of_singleton in Hj as ->. apply byte_eqb_eq in Ec as ->.
        split; [lia|]. by rewrite Nat.sub_diag.
      * split; [lia|]. replace (j - i)%nat with (S (j - S i)) by lia. simpl. by f_equal.
    + intros [Hle E]. destruct (decide (j = i)) as [->|Hne].
      * left. rewrite Nat.sub_diag in E. simpl in E. injection E as ->.
        simpl. by left.
      * right. split; [lia|]. replace (j - i)%nat with (S (j - S i)) in E by lia.
        simpl in E. by injection E.
Qed.

Lemma ancestors_free_positions m p :
  ancestors_free m p ↔ ∀ j, j ∈ slash_positions 0 p → blocks m (take j p) = false.
Proof.
  split.
  - intros Hf j Hj. apply elem_of_slash_positions in Hj as [_ E].
    rewrite Nat.sub_0_r in E. by eapply Hf.
  - intros Hf a b ->. rewrite <-(take_app_length a (slash :: b)). apply Hf.
    apply elem_of_slash_positions. split; [lia|]. rewrite Nat.sub_0_r.
    rewrite take_app_length. f_equal. f_equal.
    rewrite (drop_app_ge a (slash :: b)) by lia.
    by replace (S (length a) - length a)%nat with 1%nat by lia.
Qed.

(** An ancestor shared with a path whose ancestors are free is free. *)
Lemma shared_ancestor_free m prev p j :
  ancestors_free m prev → j ∈ slash_positions 0 p →
  get_through j prev = Some (take (S j) p) → blocks m (take j p) = false.
Proof.
  intros Hf Hj Hg. unfold get_through in Hg.
  destruct (Nat.ltb_spec j (length prev)) as [Hlt|]; [|done]. injection Hg as Hg.
  apply elem_of_slash_positions in Hj as [_ E]. rewrite Nat.sub_0_r in E.
  assert (Hlen : (S j ≤ length p)%nat).
  { apply (f_equal length) in E. rewrite length_app, length_take in E. simpl in E. lia. }
  apply (Hf _ (drop (S j) prev)).
  rewrite <-(take_drop (S j) prev) at 1. rewrite Hg.
  rewrite E at 1. rewrite take_app_ge by (rewrite length_take; lia).
  rewrite length_take. replace (S j - min j (length p))%nat with 1%nat by lia.
  simpl. by rewrite <-app_assoc.
Qed.

Lemma check_separators_Ok m prev p shared js :
  ancestors_free m prev → (∀ j, j ∈ js → j ∈ slash_positions 0 p) →
  check_separators m prev p shared js = Ok tt ↔
  ∀ j, j ∈ js → blocks m (take j p) = false.
Proof.
  intros Hprev. revert shared. induction js as [|j js IH]; intros shared Hjs; simpl.
  { split; [|done]. by intros _ j Hj%not_elem_of_nil. }
  assert (Hcons : ∀ P : Prop, (P ↔ ∀ j, j ∈ js → blocks m (take j p) = false) →
    (blocks m (take j p) = false ∧ P ↔ ∀ i, i ∈ j :: js → blocks m (take i p) = false)).
  { intros P ->. setoid_rewrite elem_of_cons. naive_solver. }
  assert (Hrest : ∀ i, i ∈ js → i ∈ slash_positions 0 p) by (intros; apply Hjs; by right).
  destruct (shared && _) eqn:Es.
  - apply andb_prop in Es as [_ Es%bool_decide_eq_true].
    rewrite <-(Hcons (check_separators m prev p true js = Ok tt)) by (by apply IH).
    split; [|tauto]. intros ?. split; [|done].
    eapply shared_ancestor_free; [done| |done]. apply Hjs. by left.
  - rewrite <-(Hcons (check_separators m prev p false js = Ok tt)) by (by apply IH).
    unfold blocks. destruct (contains_key (mf_entries m) _), (contains_key (mf_symlinks m) _),
      (contains_key (mf_tombstones m) _); simpl; naive_solver.
Qed.

Lemma check_live_paths_Ok m ps prev :
  ancestors_free m prev →
  (∃ last, try_fold (check_live_path m) ps prev = Ok last) ↔
  ∀ p, p ∈ ps → ancestors_free m p.
Proof.
  revert prev. induction ps as [|p ps IH]; intros prev Hprev; simpl.
  { split; [|by eauto]. by intros _ p Hp%not_elem_of_nil. }
  assert (Hp : check_separators m prev p true (slash_positions 0 p) = Ok tt ↔
    ancestors_free m p).
  { rewrite ancestors_free_positions. by apply check_separators_Ok. }
  setoid_rewrite elem_of_cons.
  destruct (check_live_path m prev p) as [p'|e] eqn:E; unfold check_live_path in E;
    destruct (check_separators m prev p true _) as [[]|e']; simplify_eq/=.
  - assert (Hfree : ancestors_free m p') by (by apply Hp).
    pose proof (IH p' Hfree) as Hiff. split.
    + intros Hx q [->|Hq]; [done|]. by apply Hiff.
    + intros Hall. apply Hiff. intros q Hq. apply Hall. by right.
  - split; [intros [? ?]; done|]. intros Hall. discriminate (proj2 Hp (Hall p (or_introl eq_refl))).
Qed.

Lemma blocks_empty m a :
  mf_entries m = ∅ → mf_symlinks m = ∅ → mf_tombstones m = ∅ → blocks m a = false.
Proof. unfold blocks, contains_key. intros -> -> ->. by rewrite !lookup_empty. Qed.

Lemma validate_manifest_hierarchy_Ok m :
  validate_manifest_hierarchy m = Ok tt ↔ hierarchy_ok m.
Proof.
  unfold validate_manifest_hierarchy.
  destruct (_ && _) eqn:E.
  - rewrite !andb_true_iff, !bool_decide_eq_true in E. destruct E as [[??]?].
    split; [|done]. intros _ p _ a b _. by apply blocks_empty.
  - unfold hierarchy_ok. rewrite <-(check_live_paths_Ok m _ []).
    + destruct (try_fold _ _ _); simpl; naive_solver.
    + intros a b Hab. by destruct a.
Qed.

(** ** Records *)

(** [0o7777], the permission bits of a mode. *)
Definition MODE_MASK : Z := 4095.

Definition validate_permissions (permissions : option Z) : result unit :=
  bail_if (match permissions with Some p => MODE_MASK <? p | None => false end)
    "manifest permissions contain unsupported bits".

Definition validate_symlink_target (target : bytes) : result unit :=
  bail_if (bool_decide (target = []) || (4096 <? blen target) || contains nul target)
    "manifest symlink target is invalid".

(** The 64 lowercase hexadecimal digits of a SHA-256. *)
Definition is_sha256_text (s : bytes) : bool := (blen s =? 64) && forallb is_lower_hex s.

(** ** Validation, with the cache of accepted authors

    [V A]: a computation that may fail and that reads and extends the
    thread-local [VALID_AUTHORS]. *)

Definition V (A : Type) : Type := list bytes → result A * list bytes.
Definition v_lift {A} (r : result A) : V A := λ authors, (r, authors).
Definition v_bind {A B} (p : V A) (f : A → V B) : V B := λ authors,
  match p authors with
  | (Ok a, authors') => f a authors'
  | (Err e, authors') => (Err e, authors')
  end.
Fixpoint v_for {A} (f : A → V unit) (l : list A) : V unit :=
  match l with
  | [] => v_lift (Ok tt)
  | x :: l' => v_bind (f x) (λ _, v_for f l')
  end.

Declare Scope v_scope.
Delimit Scope v_scope with V.
Notation "p ;; q" := (v_bind p (λ _, q)) : v_scope.

Section validate.
Context `{Iroh}.

Definition invalid_author : string := "manifest has an invalid HLC author".

Definition validate_timestamp (t : HlcTimestamp) : V unit := λ authors,
  if bool_decide (author t ∈ authors) then (Ok tt, authors)
  else match ep_from_bytes (author t) with
       | None => (Err invalid_author, authors)
       | Some _ =>
           (Ok tt,
            if blen authors <? MAX_CACHED_AUTHORS then authors ++ [author t] else authors)
       end.

Definition ManifestEntry_validate (e : ManifestEntry) : V unit :=
  (v_lift (bail_if (negb (is_sha256_text (me_sha256 e)))
             "manifest file hash must be 64 lowercase hexadecimal characters");;
   v_lift (validate_permissions (me_permissions e));;
   validate_timestamp (me_version e))%V.

Definition DirectoryEntry_validate (e : DirectoryEntry) : V unit :=
  (v_lift (validate_permissions (de_permissions e));;
   validate_timestamp (de_version e))%V.

Definition SymlinkEntry_validate (e : SymlinkEntry) : V unit :=
  (v_lift (validate_symlink_target (se_target e));;
   validate_timestamp (se_version e))%V.

Definition Tombstone_validate (t : Tombstone) : V unit :=
  validate_timestamp (tb_version t).

Definition both_entry_and_tombstone : string :=
  "manifest has both an entry and a tombstone".

Definition format_supported (v : Z) : bool :=
  (v =? LEGACY_MANIFEST_FORMAT_VERSION) || (v =? PREVIOUS_MANIFEST_FORMAT_VERSION)
  || (v =? MANIFEST_FORMAT_VERSION).

(** The checked sum of the four record counts. *)
Definition record_count (m : Manifest) : option Z :=
  total ← checked_add u64_max (Z.of_nat (size (mf_entries m)))
            (Z.of_nat (size (mf_directories m)));
  total ← checked_add u64_max total (Z.of_nat (size (mf_symlinks m)));
  checked_add u64_max total (Z.of_nat (size (mf_tombstones m))).

(** [Manifest::validate], in the cache monad. *)
Definition Manifest_validateV (m : Manifest) (expected : bytes) : V unit :=
  (v_lift (bail_if (negb (format_supported (mf_format_version m)))
             "unsupported manifest format version");;
   v_lift (bail_if (negb (bool_decide (mf_share_id m = expected)))
             "manifest share ID does not match its directory");;
   v_bind (v_lift (ok_or (record_count m) "manifest entry count overflow")) (λ total,
   v_lift (bail_if (MAX_MANIFEST_ENTRIES <? total)
             "manifest exceeds the maximum supported entry count");;
   v_for (λ '(path, entry),
     v_lift (validate_manifest_path path);;
     ManifestEntry_validate entry;;
     v_lift (bail_if (contains_key (mf_directories m) path)
               "manifest has both a file and a directory");;
     v_lift (bail_if (contains_key (mf_tombstones m) path) both_entry_and_tombstone))
     (bt_iter (mf_entries m));;
   v_for (λ '(path, entry),
     v_lift (validate_manifest_path path);;
     DirectoryEntry_validate entry;;
     v_lift (bail_if (contains_key (mf_tombstones m) path) both_entry_and_tombstone))
     (bt_iter (mf_directories m));;
   v_for (λ '(path, entry),
     v_lift (validate_manifest_path path);;
     SymlinkEntry_validate entry;;
     v_lift (bail_if (contains_key (mf_entries m) path || contains_key (mf_directories m) path)
               "manifest has both a live path and a symlink");;
     v_lift (bail_if (contains_key (mf_tombstones m) path) both_entry_and_tombstone))
     (bt_iter (mf_symlinks m));;
   v_for (λ '(path, tombstone),
     v_lift (validate_manifest_path path);;
     Tombstone_validate tombstone)
     (bt_iter (mf_tombstones m));;
   v_lift (validate_manifest_hierarchy m)))%V.

(** [Manifest::validate] on a thread whose cache is empty.  The cache never
    changes the outcome ([manifest_validate_cache_independent]), so the other
    components use this form. *)
Definition Manifest_validate (m : Manifest) (expected : bytes) : result unit :=
  (Manifest_validateV m expected []).1.

(** *** The cache is transparent *)

(** Every cached author is the 32-byte form of an endpoint. *)
Definition sound_cache (authors : list bytes) : Prop :=
  Forall (λ a, is_Some (ep_from_bytes a)) authors ∧ blen authors ≤ MAX_CACHED_AUTHORS.

Definition transparent {A} (p : V A) (r : result A) : Prop :=
  ∀ authors, sound_cache authors → (p authors).1 = r ∧ sound_cache (p authors).2.

Lemma transparent_lift {A} (r : result A) : transparent (v_lift r) r.
Proof. by intros authors. Qed.

Lemma transparent_bind {A B} (p : V A) (f : A → V B) r g :
  transparent p r → (∀ a, transparent (f a) (g a)) →
  transparent (v_bind p f) (mbind g r).
Proof.
  intros Hp Hf authors Hs. unfold v_bind. destruct (Hp authors Hs) as [E Hs'].
  destruct (p authors) as [[a|e] authors']; simpl in *; subst r; simpl; [by apply Hf|done].
Qed.

Lemma transparent_for {A} (f : A → V unit) g l :
  (∀ x, transparent (f x) (g x)) → transparent (v_for f l) (try_for g l).
Proof.
  intros Hf. induction l as [|x l IH]; simpl; [apply transparent_lift|].
  apply (transparent_bind _ _ (g x)); auto.
Qed.

(** The check of one timestamp without a cache. *)
Definition timestamp_check (t : HlcTimestamp) : result unit :=
  ok_or (ep_from_bytes (author t)) invalid_author;; Ok tt.

Lemma transparent_timestamp t : transparent (validate_timestamp t) (timestamp_check t).
Proof.
  intros authors [Hf Hl]. unfold validate_timestamp, timestamp_check.
  case_bool_decide as Hin.
  - simpl. rewrite List.Forall_forall in Hf. rewrite list_elem_of_In in Hin.
    pose proof (Hf _ Hin) as [e He]. rewrite He. split; [done|].
    split; [by apply List.Forall_forall|done].
  - destruct (ep_from_bytes (author t)) as [e|] eqn:E; simpl; [|done].
    split; [done|]. destruct (Z.ltb_spec (blen authors) MAX_CACHED_AUTHORS); [|done].
    split; [apply Forall_app; split; [done|by repeat constructor; exists e]|].
    rewrite blen_app. unfold blen at 2; simpl. lia.
Qed.

(** *** What validation accepts *)

(** [vspec p P]: whatever sound cache it starts from, [p] has one outcome, it
    leaves a sound cache, and it succeeds exactly when [P] holds. *)
Definition vspec (p : V unit) (P : Prop) : Prop :=
  ∃ r, transparent p r ∧ (r = Ok tt ↔ P).

Lemma vspec_iff p (P Q : Prop) : vspec p P → (P ↔ Q) → vspec p Q.
Proof. intros (r & Ht & Hr) HPQ. exists r. by rewrite Hr, HPQ. Qed.

Lemma vspec_lift r : vspec (v_lift r) (r = Ok tt).
Proof. exists r. split; [apply transparent_lift|done]. Qed.

Lemma vspec_seq p q P Q : vspec p P → vspec q Q → vspec (p;; q)%V (P ∧ Q).
Proof.
  intros (r & Hr & HP) (t & Ht & HQ). exists (r;; t). split.
  - by apply (transparent_bind _ _ r (λ _, t)).
  - rewrite <-HP, <-HQ. destruct r as [[]|]; simpl; naive_solver.
Qed.

Lemma vspec_for {A} (f : A → V unit) (P : A → Prop) l :
  (∀ x, vspec (f x) (P x)) → vspec (v_for f l) (∀ x, x ∈ l → P x).
Proof.
  intros Hf. induction l as [|x l IH]; simpl.
  - eapply vspec_iff; [apply vspec_lift|]. split; [|done].
    by intros _ x Hx%not_elem_of_nil.
  - eapply vspec_iff; [apply vspec_seq; [apply Hf|apply IH]|].
    setoid_rewrite elem_of_cons. naive_solver.
Qed.

Lemma vspec_for_map {W} (f : bytes * W → V unit) (P : bytes → W → Prop) (m : gmap bytes W) :
  (∀ k w, vspec (f (k, w)) (P k w)) →
  vspec (v_for f (bt_iter m)) (∀ k w, m !! k = Some w → P k w).
Proof.
  intros Hf. eapply vspec_iff.
  - apply (vspec_for f (λ kw, P kw.1 kw.2)). intros [k w]. apply Hf.
  - setoid_rewrite <-elem_of_bt_iter. split.
    + intros Hall k w Hkw. by apply (Hall (k, w)).
    + intros Hall [k w] Hkw. by apply Hall.
Qed.

Lemma vspec_timestamp t : vspec (validate_timestamp t) (is_Some (ep_from_bytes (author t))).
Proof.
  exists (timestamp_check t). split; [apply transparent_timestamp|].
  unfold timestamp_check. destruct (ep_from_bytes (author t)); simpl; [by split; eauto|].
  split; [done|]. by intros [? ?].
Qed.

Definition path_ok (p : bytes) : Prop := validate_manifest_path p = Ok tt.
Definition author_ok (t : HlcTimestamp) : Prop := is_Some (ep_from_bytes (author t)).
Definition permissions_ok (o : option Z) : Prop := validate_permissions o = Ok tt.
Definition entry_ok (e : ManifestEntry) : Prop :=
  is_sha256_text (me_sha256 e) = true ∧ permissions_ok (me_permissions e) ∧
  author_ok (me_version e).
Definition directory_ok (e : DirectoryEntry) : Prop :=
  permissions_ok (de_permissions e) ∧ author_ok (de_version e).
Definition symlink_ok (e : SymlinkEntry) : Prop :=
  validate_symlink_target (se_target e) = Ok tt ∧ author_ok (se_version e).

Definition total_records (m : Manifest) : Z :=
  Z.of_nat (size (mf_entries m) + size (mf_directories m)
            + size (mf_symlinks m) + size (mf_tombstones m)).

(** A well-formed manifest of a share. *)
Record manifest_valid (m : Manifest) (expected : bytes) : Prop := {
  mv_format : format_supported (mf_format_version m) = true;
  mv_share : mf_share_id m = expected;
  mv_count : total_records m ≤ MAX_MANIFEST_ENTRIES;
  mv_entries p e : mf_entries m !! p = Some e →
    path_ok p ∧ entry_ok e ∧ mf_directories m !! p = None ∧ mf_tombstones m !! p = None;
  mv_directories p e : mf_directories m !! p = Some e →
    path_ok p ∧ directory_ok e ∧ mf_tombstones m !! p = None;
  mv_symlinks p e : mf_symlinks m !! p = Some e →
    path_ok p ∧ symlink_ok e ∧ mf_entries m !! p = None ∧ mf_directories m !! p = None ∧
    mf_tombstones m !! p = None;
  mv_tombstones p t : mf_tombstones m !! p = Some t → path_ok p ∧ author_ok (tb_version t);
  mv_hierarchy : hierarchy_ok m;
}.

Lemma contains_key_false {W} (m : gmap bytes W) k : contains_key m k = false ↔ m !! k = None.
Proof. unfold contains_key. by destruct (m !! k). Qed.

Lemma bail_contains {W} (m : gmap bytes W) k e :
  bail_if (contains_key m k) e = Ok tt ↔ m !! k = None.
Proof. by rewrite bail_if_Ok, contains_key_false. Qed.

Lemma record_count_bound m total :
  record_count m = Some total ∧ total ≤ MAX_MANIFEST_ENTRIES ↔
  total = total_records m ∧ total_records m ≤ MAX_MANIFEST_ENTRIES.
Proof.
  unfold record_count, total_records, checked_add, MAX_MANIFEST_ENTRIES, u64_max. simpl.
  repeat (case_match; simpl); rewrite ?Z.leb_le, ?Z.leb_gt in *;
    simplify_eq; split; intros [??]; simplify_eq; try (split; [f_equal|]); lia.
Qed.

Lemma vspec_count m (q : V unit) Q :
  vspec q Q →
  vspec (v_bind (v_lift (ok_or (record_count m) "manifest entry count overflow")) (λ total,
    v_lift (bail_if (MAX_MANIFEST_ENTRIES <? total)
              "manifest exceeds the maximum supported entry count");; q))%V
    (total_records m ≤ MAX_MANIFEST_ENTRIES ∧ Q).
Proof.
  intros Hq. pose proof (record_count_bound m) as Hc.
  destruct (record_count m) as [total|]; simpl.
  - eapply (vspec_iff (v_lift (bail_if (MAX_MANIFEST_ENTRIES <? total) _);; q)%V).
    { apply vspec_seq; [apply vspec_lift|exact Hq]. }
    rewrite bail_if_Ok, Z.ltb_ge. specialize (Hc total) as Hc'.
    specialize (Hc (total_records m)). naive_solver.
  - exists (Err "manifest entry count overflow"). split; [apply transparent_lift|].
    specialize (Hc (total_records m)). naive_solver.
Qed.

Lemma vspec_absent {W} (m : gmap bytes W) k e :
  vspec (v_lift (bail_if (contains_key m k) e)) (m !! k = None).
Proof. eapply vspec_iff; [apply vspec_lift|apply bail_contains]. Qed.

Lemma vspec_absent2 {W1 W2 : Type} (m : gmap bytes W1) (n : gmap bytes W2) k e :
  vspec (v_lift (bail_if (contains_key m k || contains_key n k) e))
    (m !! k = None ∧ n !! k = None).
Proof.
  eapply vspec_iff; [apply vspec_lift|].
  by rewrite bail_if_Ok, orb_false_iff, !contains_key_false.
Qed.

Lemma vspec_require b e : vspec (v_lift (bail_if (negb b) e)) (b = true).
Proof. eapply vspec_iff; [apply vspec_lift|]. by rewrite bail_if_Ok, negb_false_iff. Qed.

Lemma vspec_manifest m expected :
  vspec (Manifest_validateV m expected) (manifest_valid m expected).
Proof.
  eapply vspec_iff.
  - unfold Manifest_validateV, ManifestEntry_validate, DirectoryEntry_validate,
      SymlinkEntry_validate, Tombstone_validate.
    apply vspec_seq; [apply vspec_require|].
    apply vspec_seq; [apply vspec_require|].
    apply vspec_count.
    repeat first
      [ apply vspec_seq | apply vspec_absent2 | apply vspec_absent | apply vspec_require
      | apply vspec_lift | apply vspec_timestamp | apply vspec_for_map; intros ].
  - rewrite bool_decide_eq_true, validate_manifest_hierarchy_Ok. split.
    + intros (?&?&?&He&Hd&Hs&Ht&?). split; try done; intros p e Hp.
      by destruct (Hs p e Hp) as (?&(?&?)&(?&?)&?).
    + intros [Hf Hsh Hc He Hd Hs Ht Hh].
      split_and!; try done; intros k w Hk.
      by destruct (Hs k w Hk) as (?&(?&?)&?&?&?).
Qed.

Lemma sound_cache_nil : sound_cache [].
Proof. split; [apply Forall_nil_2|]. unfold blen, MAX_CACHED_AUTHORS; simpl; lia. Qed.

Lemma Manifest_validate_Ok m expected :
  Manifest_validate m expected = Ok tt ↔ manifest_valid m expected.
Proof.
  destruct (vspec_manifest m expected) as (r & Ht & Hr). unfold Manifest_validate.
  by destruct (Ht [] sound_cache_nil) as [-> _].
Qed.

(** *** Consequences used by the other components *)

Lemma mv_path_ok m expected p :
  manifest_valid m expected → p ∈ paths m → path_ok p.
Proof.
  intros [_ _ _ He Hd Hs Ht _]. unfold paths. rewrite !elem_of_app, !elem_of_bt_keys.
  intros [[x Hx]|[[x Hx]|[[x Hx]|[x Hx]]]]; naive_solver.
Qed.

Lemma elem_of_paths m p : p ∈ paths m ↔ is_Some (record m p).
Proof.
  unfold paths, record. rewrite !elem_of_app, !elem_of_bt_keys.
  destruct (mf_entries m !! p); [naive_solver|].
  destruct (mf_directories m !! p); [naive_solver|].
  destruct (mf_symlinks m !! p); [naive_solver|].
  rewrite fmap_is_Some, !is_Some_alt. naive_solver.
Qed.

(** In a valid manifest a path has at most one record, and [record] finds it
    whatever its kind. *)
Lemma record_Some m expected p r :
  manifest_valid m expected →
  record m p = Some r ↔
  match r with
  | RFile e => mf_entries m !! p = Some e
  | RDirectory e => mf_directories m !! p = Some e
  | RSymlink e => mf_symlinks m !! p = Some e
  | RTombstone t => mf_tombstones m !! p = Some t
  end.
Proof.
  intros [_ _ _ He Hd Hs _ _]. unfold record.
  destruct (mf_entries m !! p) as [e|] eqn:Ee.
  { destruct (He _ _ Ee) as (_ & _ & Hd' & Ht').
    assert (mf_symlinks m !! p = None) by
      (destruct (mf_symlinks m !! p) eqn:Es; [destruct (Hs _ _ Es)|]; naive_solver).
    destruct r; naive_solver. }
  destruct (mf_directories m !! p) as [d|] eqn:Ed.
  { destruct (Hd _ _ Ed) as (_ & _ & Ht').
    assert (mf_symlinks m !! p = None) by
      (destruct (mf_symlinks m !! p) eqn:Es; [destruct (Hs _ _ Es)|]; naive_solver).
    destruct r; naive_solver. }
  destruct (mf_symlinks m !! p) as [l|] eqn:Es.
  { destruct (Hs _ _ Es) as (_ & _ & _ & _ & Ht'). destruct r; naive_solver. }
  rewrite fmap_Some. destruct r; naive_solver.
Qed.

Lemma record_author_ok m expected p r :
  manifest_valid m expected → record m p = Some r → author_ok (rec_version r).
Proof.
  intros Hm Hr. apply (record_Some m expected) in Hr; [|done].
  destruct Hm as [_ _ _ He Hd Hs Ht _]. unfold entry_ok, directory_ok, symlink_ok in *.
  destruct r; simpl; naive_solver.
Qed.

(** *** Properties *)

(** C22: [Manifest::validate] accepts exactly the well-formed manifests of the
    expected share: a supported format, at most 100000 records, valid paths and
    records, at most one record per path, and no live path below a file, a
    symbolic link or a tombstone. *)
Theorem manifest_validate_iff_valid (m : Manifest) (expected : bytes) :
  Manifest_validate m expected = Ok tt ↔ manifest_valid m expected.
Proof. apply Manifest_validate_Ok. Qed.

(** The thread-local cache of accepted authors is only an optimisation:
    from every cache that holds at most 256 valid authors, validation has the
    same outcome, including which error it reports, and leaves such a cache. *)
Lemma manifest_validate_cache_independent (m : Manifest) (expected : bytes)
    (authors : list bytes) (Hc : sound_cache authors) :
  (Manifest_validateV m expected authors).1 = Manifest_validate m expected ∧
  sound_cache (Manifest_validateV m expected authors).2.
Proof.
  destruct (vspec_manifest m expected) as (r & Ht & _). unfold Manifest_validate.
  destruct (Ht [] sound_cache_nil) as [-> _]. by apply Ht.
Qed.
End validate.

(** The hierarchy check, which skips the ancestors a path shares with the
    path visited before it, accepts exactly the manifests in which no proper
    ancestor of a file, directory or symbolic link is a file, a symbolic link or
    a tombstone. *)
Lemma hierarchy_check_iff_reference (m : Manifest) :
  validate_manifest_hierarchy m = Ok tt ↔ hierarchy_ok m.
Proof. apply validate_manifest_hierarchy_Ok. Qed.

(** *** Witnesses *)

Import Ref.

Lemma manifest_validate_cache_independent_witness :
  let m := Manifest_empty (repeat "000"%byte 32) 5 in
  let authors := [repeat "001"%byte 32; repeat "002"%byte 32] in
  sound_cache authors ∧
  (Manifest_validateV m (repeat "000"%byte 32) authors).1 =
    Manifest_validate m (repeat "000"%byte 32) ∧
  sound_cache (Manifest_validateV m (repeat "000"%byte 32) authors).2.
Proof.
  intros m authors.
  assert (Hc : sound_cache authors).
  { split; [|vm_compute; discriminate].
    repeat constructor; [exists (endpoint "001")|exists (endpoint "002")]; reflexivity. }
  split; [exact Hc|]. exact (manifest_validate_cache_independent m _ authors Hc).
Defined.
