(* ===== verification/Merge.v ===== *)
(** * Last-writer-wins merge (src/manifest/merge.rs)

    [select_record] and [merge_manifests].  Selection is the maximum by version,
    with deletion winning a tie: associative, idempotent, and commutative up to the
    local modification time of files unless two different live records carry the same
    version. *)

From S2P Require Import Prelude Collections Bytes External Reference Clock Types ManifestPath Manifest.

Definition select_record (left right : option ManifestRecord) : option ManifestRecord :=
  match left, right with
  | None, r => r
  | l, None => l
  | Some l, Some r =>
      match cmp (rec_version l) (rec_version r) with
      | Lt => Some r
      | Eq => if is_tombstone r then Some r else Some l
      | Gt => Some l
      end
  end.

(** Inserts a record in the map of its kind. *)
Definition put_record (m : Manifest) (path : bytes) (r : ManifestRecord) : Manifest := {|
  mf_format_version := mf_format_version m;
  mf_share_id := mf_share_id m;
  mf_scanned_at_ms := mf_scanned_at_ms m;
  mf_entries := match r with RFile e => <[path := e]> (mf_entries m) | _ => mf_entries m end;
  mf_directories :=
    match r with RDirectory e => <[path := e]> (mf_directories m) | _ => mf_directories m end;
  mf_symlinks :=
    match r with RSymlink e => <[path := e]> (mf_symlinks m) | _ => mf_symlinks m end;
  mf_tombstones :=
    match r with RTombstone t => <[path := t]> (mf_tombstones m) | _ => mf_tombstones m end;
|}.

Definition merge_path (local remote merged : Manifest) (path : bytes) : Manifest :=
  match select_record (record local path) (record remote path) with
  | Some r => put_record merged path r
  | None => merged
  end.

(** The [BTreeSet] of the paths of both manifests, in order. *)
Definition merge_paths (local remote : Manifest) : list bytes :=
  sort_by id (elements (list_to_set (paths local ++ paths remote) : gset bytes)).

Definition merged_records (local remote : Manifest) (now_ms : Z) : Manifest :=
  foldl (merge_path local remote) (Manifest_empty (mf_share_id local) now_ms)
    (merge_paths local remote).

Definition merge_manifests `{Iroh} (local remote : Manifest) (now_ms : Z) : result Manifest :=
  Manifest_validate local (mf_share_id local);;
  Manifest_validate remote (mf_share_id local);;
  let merged := merged_records local remote now_ms in
  Manifest_validate merged (mf_share_id local);;
  Ok merged.

(** ** Selection *)

(** What is synchronized of a record: all but the local modification time of a file,
    which a scan refreshes under the same version. *)
Definition synced (r : ManifestRecord) : ManifestRecord :=
  match r with
  | RFile e => RFile {| me_size := me_size e; me_modified_at_ns := 0; me_sha256 := me_sha256 e;
                        me_permissions := me_permissions e; me_version := me_version e |}
  | r => r
  end.

(** Two live records that carry one version are the same but for the local modification
    time: the versions of distinct changes differ in wall clock, counter or author. *)
Definition agree (l r : option ManifestRecord) : Prop :=
  ∀ x y, l = Some x → r = Some y → rec_version x = rec_version y →
    is_tombstone x = false → is_tombstone y = false → synced x = synced y.

Lemma synced_version r : rec_version (synced r) = rec_version r.
Proof. by destruct r. Qed.
Lemma synced_tombstone r : is_tombstone (synced r) = is_tombstone r.
Proof. by destruct r. Qed.

(** The rank by which records are selected. *)
Definition rank (r : ManifestRecord) : HlcTimestamp * bool := (rec_version r, is_tombstone r).

Lemma select_some l r :
  select_record (Some l) (Some r) = if ltb (rank l) (rank r) then Some r else
    if is_tombstone l && eqb (rank l) (rank r) then Some r else Some l.
Proof.
  assert (Hr : cmp (rank l) (rank r) =
    then_with (cmp (rec_version l) (rec_version r)) (cmp (is_tombstone l) (is_tombstone r)))
    by done.
  unfold select_record, ltb, eqb. rewrite Hr. clear Hr.
  destruct (cmp (rec_version l) (rec_version r)); simpl;
    by destruct (is_tombstone l), (is_tombstone r).
Qed.

Lemma tombstone_rank_eq x y : is_tombstone x = true → rank x = rank y → x = y.
Proof.
  destruct x as [| | |[]], y as [| | |[]]; try done. unfold rank; simpl. congruence.
Qed.

(** Selection is the left-biased maximum by rank. *)
Lemma select_max l r :
  select_record (Some l) (Some r) = Some (if ltb (rank l) (rank r) then r else l).
Proof.
  rewrite select_some. destruct (ltb _ _); [done|].
  destruct (is_tombstone l) eqn:Et; [|done]. simpl.
  destruct (eqb (rank l) (rank r)) eqn:E; [|done]. apply eqb_true in E.
  f_equal. symmetry. by apply tombstone_rank_eq.
Qed.

Lemma select_None_l a : select_record None a = a.
Proof. by destruct a. Qed.
Lemma select_None_r a : select_record a None = a.
Proof. by destruct a. Qed.

Lemma select_assoc a b c :
  select_record (select_record a b) c = select_record a (select_record b c).
Proof.
  destruct a as [a|]; [|by rewrite !select_None_l].
  destruct b as [b|]; [|by rewrite select_None_l, select_None_r].
  destruct c as [c|]; [|by rewrite !select_None_r].
  rewrite !select_max.
  destruct (ltb (rank a) (rank b)) eqn:Eab, (ltb (rank b) (rank c)) eqn:Ebc;
    rewrite ?select_max, ?Eab, ?Ebc; try done.
  - by rewrite (ltb_trans _ _ _ Eab Ebc).
  - destruct (ltb (rank a) (rank c)) eqn:Eac; [|done].
    assert (leb (rank c) (rank b) = true) by (rewrite leb_ltb; by rewrite Ebc).
    assert (ltb (rank a) (rank b) = true) by (by eapply ltb_leb_trans). congruence.
Qed.

Lemma select_idem a : select_record a a = a.
Proof. destruct a as [a|]; [|done]. rewrite select_max. by destruct (ltb _ _). Qed.

Lemma select_comm a b : agree a b → synced <$> select_record a b = synced <$> select_record b a.
Proof.
  destruct a as [a|], b as [b|]; try done. intros Hag. rewrite !select_max. simpl. f_equal.
  destruct (ltb (rank a) (rank b)) eqn:E1, (ltb (rank b) (rank a)) eqn:E2; try done.
  - by rewrite (ltb_asym _ _ E1) in E2.
  - assert (Hr : rank a = rank b).
    { apply leb_antisym; rewrite leb_ltb; [by rewrite E2|by rewrite E1]. }
    destruct (is_tombstone a) eqn:Et; [by rewrite (tombstone_rank_eq a b)|].
    injection Hr as Hv Ht. by apply Hag; congruence.
Qed.

Lemma select_is_one a b x : select_record a b = Some x → a = Some x ∨ b = Some x.
Proof.
  destruct a as [a|], b as [b|]; simpl; auto. destruct (cmp _ _); [|auto..].
  destruct (is_tombstone b); auto.
Qed.

(** ** Insertion of records *)

Lemma record_put_eq m p r : record m p = None → record (put_record m p r) p = Some r.
Proof.
  unfold record. intros Hm. destruct r; simpl; rewrite ?lookup_insert_eq; simpl;
    repeat (case_match; try done).
Qed.

Lemma record_put_ne m p q r : p ≠ q → record (put_record m p r) q = record m q.
Proof. unfold record. intros. destruct r; simpl; by rewrite ?lookup_insert_ne. Qed.

Lemma merge_path_fold local remote ps m :
  NoDup ps → (∀ p, p ∈ ps → record m p = None) →
  ∀ p, record (foldl (merge_path local remote) m ps) p =
    if decide (p ∈ ps) then select_record (record local p) (record remote p)
    else record m p.
Proof.
  revert m. induction ps as [|q ps IH]; intros m Hnd Hm p; simpl; [done|].
  inversion Hnd as [|? ? Hni Hnd']; subst.
  rewrite IH; [|done|].
  - assert (Hmq : record m q = None) by (apply Hm; by left).
    unfold merge_path. repeat case_decide; try done.
    + set_solver.
    + assert (p = q) as -> by set_solver.
      destruct (select_record _ _); [by apply record_put_eq|done].
    + assert (p ≠ q) by set_solver.
      destruct (select_record _ _); [by apply record_put_ne|done].
  - intros x Hx. assert (x ≠ q) by set_solver. unfold merge_path.
    destruct (select_record _ _); [rewrite record_put_ne by done|]; apply Hm; by right.
Qed.

Lemma merge_paths_nodup l r : NoDup (merge_paths l r).
Proof. unfold merge_paths. rewrite sort_by_perm. apply NoDup_elements. Qed.

Lemma elem_of_merge_paths l r p :
  p ∈ merge_paths l r ↔ is_Some (record l p) ∨ is_Some (record r p).
Proof.
  unfold merge_paths. rewrite sort_by_perm, elem_of_elements, elem_of_list_to_set.
  by rewrite elem_of_app, !elem_of_paths.
Qed.

Lemma record_merged l r now p :
  record (merged_records l r now) p = select_record (record l p) (record r p).
Proof.
  unfold merged_records. rewrite merge_path_fold; [|apply merge_paths_nodup|done].
  case_decide as Hin; [done|]. rewrite elem_of_merge_paths in Hin.
  destruct (record l p), (record r p); try (destruct Hin; naive_solver). done.
Qed.

(** ** Manifests as maps from paths to records *)

(** A path has a record of at most one kind. *)
Definition exclusive (m : Manifest) : Prop :=
  ∀ p r, record m p = Some r ↔
    match r with
    | RFile e => mf_entries m !! p = Some e
    | RDirectory e => mf_directories m !! p = Some e
    | RSymlink e => mf_symlinks m !! p = Some e
    | RTombstone t => mf_tombstones m !! p = Some t
    end.

(** What replacing the record of a path leaves: the other kinds removed. *)
Definition clear_path (m : Manifest) (p : bytes) : Manifest := {|
  mf_format_version := mf_format_version m;
  mf_share_id := mf_share_id m;
  mf_scanned_at_ms := mf_scanned_at_ms m;
  mf_entries := delete p (mf_entries m);
  mf_directories := delete p (mf_directories m);
  mf_symlinks := delete p (mf_symlinks m);
  mf_tombstones := delete p (mf_tombstones m);
|}.

Lemma record_clear m p q :
  record (clear_path m p) q = if decide (q = p) then None else record m q.
Proof.
  unfold record; simpl. case_decide as Hq; [subst q; by rewrite !lookup_delete_eq|].
  by rewrite !lookup_delete_ne.
Qed.

Lemma exclusive_spec m :
  exclusive m ↔
  (∀ p, is_Some (mf_entries m !! p) →
    mf_directories m !! p = None ∧ mf_symlinks m !! p = None ∧ mf_tombstones m !! p = None) ∧
  (∀ p, is_Some (mf_directories m !! p) →
    mf_symlinks m !! p = None ∧ mf_tombstones m !! p = None) ∧
  (∀ p, is_Some (mf_symlinks m !! p) → mf_tombstones m !! p = None).
Proof.
  split.
  - intros Hx. split_and!; intros p [x Hp].
    + pose proof (proj2 (Hx p (RFile x)) Hp) as Hr.
      split_and!; [destruct (mf_directories m !! p) eqn:E
                  |destruct (mf_symlinks m !! p) eqn:E
                  |destruct (mf_tombstones m !! p) eqn:E]; [|done|..]; try done;
        [apply (Hx p (RDirectory d)) in E|apply (Hx p (RSymlink s)) in E
        |apply (Hx p (RTombstone t)) in E]; congruence.
    + pose proof (proj2 (Hx p (RDirectory x)) Hp) as Hr.
      split; [destruct (mf_symlinks m !! p) eqn:E|destruct (mf_tombstones m !! p) eqn:E];
        try done; [apply (Hx p (RSymlink s)) in E|apply (Hx p (RTombstone t)) in E]; congruence.
    + pose proof (proj2 (Hx p (RSymlink x)) Hp) as Hr.
      destruct (mf_tombstones m !! p) eqn:E; [|done].
      apply (Hx p (RTombstone t)) in E; congruence.
  - intros (He & Hd & Hs) p r. specialize (He p). specialize (Hd p). specialize (Hs p).
    unfold record. rewrite !is_Some_alt in *.
    destruct (mf_entries m !! p), (mf_directories m !! p), (mf_symlinks m !! p),
      (mf_tombstones m !! p); destruct r; simpl; naive_solver.
Qed.

(** A record determines the lookups of an exclusive manifest. *)
Lemma exclusive_put m p r :
  exclusive m → record m p = None → exclusive (put_record m p r).
Proof.
  rewrite !exclusive_spec. intros (He & Hd & Hs) Hn.
  assert (mf_entries m !! p = None ∧ mf_directories m !! p = None ∧
          mf_symlinks m !! p = None ∧ mf_tombstones m !! p = None) as (?&?&?&?).
  { unfold record in Hn. repeat case_match; try done.
    by destruct (mf_tombstones m !! p). }
  split_and!; intros q; specialize (He q); specialize (Hd q); specialize (Hs q);
    destruct (decide (p = q)) as [<-|Hne]; destruct r; simpl;
    rewrite ?lookup_insert_eq, ?lookup_insert_ne by done; intros; auto;
    match goal with H : is_Some None |- _ => by destruct H | _ => idtac end; split_and?; auto;
    repeat match goal with H : ?x = None |- _ => rewrite H in * end;
    match goal with H : is_Some None |- _ => by destruct H end.
Qed.

Lemma exclusive_empty share_id now : exclusive (Manifest_empty share_id now).
Proof. intros p []; by split. Qed.

Lemma total_records_paths m : total_records m = Z.of_nat (length (paths m)).
Proof.
  unfold total_records, paths. rewrite !length_app, !length_bt_keys. lia.
Qed.

Lemma paths_nodup m : exclusive m → NoDup (paths m).
Proof.
  rewrite exclusive_spec. intros (He & Hd & Hs). unfold paths.
  repeat (apply NoDup_app; split; [apply bt_iter_nodup|]; split); [..|apply bt_iter_nodup];
    intros p; rewrite ?elem_of_app, !elem_of_bt_keys; intros Hp Hq.
  - destruct (He p Hp) as (E1 & E2 & E3). rewrite E1, E2, E3 in Hq.
    destruct Hq as [[]|[[]|[]]]; done.
  - destruct (Hd p Hp) as (E1 & E2). rewrite E1, E2 in Hq. by destruct Hq as [[]|[]].
  - rewrite (Hs p Hp) in Hq. by destruct Hq.
Qed.

Lemma mv_exclusive `{Iroh} m s : manifest_valid m s → exclusive m.
Proof. intros Hm p r. by apply record_Some with s. Qed.

(** Every record well formed, whatever its kind. *)
Definition record_ok `{Iroh} (r : ManifestRecord) : Prop :=
  match r with
  | RFile e => entry_ok e
  | RDirectory e => directory_ok e
  | RSymlink e => symlink_ok e
  | RTombstone t => author_ok (tb_version t)
  end.

Lemma manifest_valid_records `{Iroh} m s :
  manifest_valid m s ↔
  format_supported (mf_format_version m) = true ∧ mf_share_id m = s ∧
  total_records m ≤ MAX_MANIFEST_ENTRIES ∧ exclusive m ∧
  (∀ p r, record m p = Some r → path_ok p ∧ record_ok r) ∧ hierarchy_ok m.
Proof.
  split.
  - intros Hm. pose proof (mv_exclusive m s Hm) as Hx.
    destruct Hm as [Hf Hs Hc He Hd Hl Ht Hh]. split_and!; try done.
    intros p r Hr. apply Hx in Hr.
    destruct r; simpl; [apply He in Hr|apply Hd in Hr|apply Hl in Hr|apply Ht in Hr];
      naive_solver.
  - intros (Hf & Hs & Hc & Hx & Hr & Hh).
    pose proof (proj1 (exclusive_spec m) Hx) as (He & Hd & Hl).
    split; try done; intros p x Hp.
    + destruct (Hr p (RFile x)) as [? ?]; [by apply Hx|].
      destruct (He p) as (? & ? & ?); [by eexists|]. done.
    + destruct (Hr p (RDirectory x)) as [? ?]; [by apply Hx|].
      destruct (Hd p) as (? & ?); [by eexists|]. done.
    + destruct (Hr p (RSymlink x)) as [? ?]; [by apply Hx|].
      split_and!; try done; [| |by apply Hl; eexists].
      * destruct (mf_entries m !! p) eqn:E; [|done].
        destruct (He p) as (? & ? & ?); [by eexists|congruence].
      * destruct (mf_directories m !! p) eqn:E; [|done].
        destruct (Hd p) as (? & ?); [by eexists|congruence].
    + by apply (Hr p (RTombstone x)), Hx.
Qed.

(** ** The merged manifest *)

Lemma merged_exclusive_fold l r ps m :
  NoDup ps → (∀ p, p ∈ ps → record m p = None) → exclusive m →
  exclusive (foldl (merge_path l r) m ps).
Proof.
  revert m. induction ps as [|q ps IH]; intros m Hnd Hm Hx; simpl; [done|].
  inversion Hnd as [|? ? Hni Hnd']; subst.
  assert (Hmq : record m q = None) by (apply Hm; by left).
  unfold merge_path at 2. destruct (select_record _ _) as [x|].
  - apply IH; [done| |by apply exclusive_put].
    intros p Hp. rewrite record_put_ne by set_solver. apply Hm. by right.
  - apply IH; [done| |done]. intros p Hp. apply Hm. by right.
Qed.

Lemma merged_exclusive l r now : exclusive (merged_records l r now).
Proof.
  apply merged_exclusive_fold; [apply merge_paths_nodup|done|apply exclusive_empty].
Qed.

Lemma merged_header l r now :
  mf_format_version (merged_records l r now) = MANIFEST_FORMAT_VERSION ∧
  mf_share_id (merged_records l r now) = mf_share_id l ∧
  mf_scanned_at_ms (merged_records l r now) = now.
Proof.
  unfold merged_records. generalize (merge_paths l r) as ps.
  assert (∀ ps m,
    mf_format_version (foldl (merge_path l r) m ps) = mf_format_version m ∧
    mf_share_id (foldl (merge_path l r) m ps) = mf_share_id m ∧
    mf_scanned_at_ms (foldl (merge_path l r) m ps) = mf_scanned_at_ms m) as Hf.
  { induction ps as [|p ps IH]; intros m; simpl; [done|].
    destruct (IH (merge_path l r m p)) as (-> & -> & ->). unfold merge_path.
    by destruct (select_record _ _). }
  intros ps. by destruct (Hf ps (Manifest_empty (mf_share_id l) now)) as (-> & -> & ->).
Qed.

Lemma merged_count l r now :
  total_records (merged_records l r now) = Z.of_nat (length (merge_paths l r)).
Proof.
  rewrite total_records_paths. f_equal. apply Permutation_length, NoDup_Permutation.
  - apply paths_nodup, merged_exclusive.
  - apply merge_paths_nodup.
  - intros p. rewrite elem_of_paths, record_merged, elem_of_merge_paths.
    destruct (record l p), (record r p); simpl; rewrite ?is_Some_alt;
      repeat case_match; naive_solver.
Qed.

Lemma manifest_ext a b :
  exclusive a → exclusive b → (∀ p, record a p = record b p) →
  mf_entries a = mf_entries b ∧ mf_directories a = mf_directories b ∧
  mf_symlinks a = mf_symlinks b ∧ mf_tombstones a = mf_tombstones b.
Proof.
  intros Ha Hb Hab. split_and!; apply map_eq; intros p; apply option_eq; intros x.
  - pose proof (Ha p (RFile x)). pose proof (Hb p (RFile x)).
    specialize (Hab p). simpl in *. rewrite <-H, <-H0. by rewrite Hab.
  - pose proof (Ha p (RDirectory x)). pose proof (Hb p (RDirectory x)).
    specialize (Hab p). simpl in *. rewrite <-H, <-H0. by rewrite Hab.
  - pose proof (Ha p (RSymlink x)). pose proof (Hb p (RSymlink x)).
    specialize (Hab p). simpl in *. rewrite <-H, <-H0. by rewrite Hab.
  - pose proof (Ha p (RTombstone x)). pose proof (Hb p (RTombstone x)).
    specialize (Hab p). simpl in *. rewrite <-H, <-H0. by rewrite Hab.
Qed.

Section merging.
Context `{Iroh}.

Lemma merged_records_ok l r now s :
  manifest_valid l s → manifest_valid r s →
  ∀ p x, record (merged_records l r now) p = Some x → path_ok p ∧ record_ok x.
Proof.
  intros Hl Hr p x. rewrite record_merged. intros [E|E]%select_is_one.
  - apply manifest_valid_records in Hl as (_ & _ & _ & _ & Hok & _). eauto.
  - apply manifest_valid_records in Hr as (_ & _ & _ & _ & Hok & _). eauto.
Qed.

Lemma merged_valid l r now :
  manifest_valid l (mf_share_id l) → manifest_valid r (mf_share_id l) →
  Manifest_validate (merged_records l r now) (mf_share_id l) = Ok tt ↔
  Z.of_nat (length (merge_paths l r)) ≤ MAX_MANIFEST_ENTRIES ∧
  hierarchy_ok (merged_records l r now).
Proof.
  intros Hl Hr. rewrite Manifest_validate_Ok, manifest_valid_records, merged_count.
  destruct (merged_header l r now) as (-> & -> & _).
  pose proof (merged_exclusive l r now). pose proof (merged_records_ok l r now _ Hl Hr).
  naive_solver.
Qed.

Lemma merge_manifests_Ok l r now m :
  merge_manifests l r now = Ok m →
  manifest_valid l (mf_share_id l) ∧ manifest_valid r (mf_share_id l) ∧
  manifest_valid m (mf_share_id l) ∧ m = merged_records l r now.
Proof.
  unfold merge_manifests. intros Hm. res_inv.
  repeat match goal with u : unit |- _ => destruct u end.
  repeat match goal with E : Manifest_validate _ _ = Ok _ |- _ =>
    apply Manifest_validate_Ok in E end. done.
Qed.

(** Merging a sequence of remote manifests into a local one. *)
Definition merge_all (m : Manifest) (ms : list Manifest) (now : Z) : result Manifest :=
  try_fold (λ acc r, merge_manifests acc r now) ms m.

Lemma merge_all_record m ms now a p :
  merge_all m ms now = Ok a →
  record a p = foldl (λ acc r, select_record acc (record r p)) (record m p) ms.
Proof.
  unfold merge_all. revert m. induction ms as [|r ms IH]; intros m Hm; simpl in *.
  - by injection Hm as ->.
  - res_inv. apply merge_manifests_Ok in E as (_ & _ & _ & ->).
    rewrite (IH _ Hm). by rewrite record_merged.
Qed.

Lemma merge_all_exclusive m ms now a :
  exclusive m → merge_all m ms now = Ok a → exclusive a.
Proof.
  intros Hx. unfold merge_all.
  apply (try_fold_inv exclusive); [|done]. intros s r s' _ _ Hs.
  apply merge_manifests_Ok in Hs as (_ & _ & _ & ->). apply merged_exclusive.
Qed.

Lemma merge_all_share m ms now a : merge_all m ms now = Ok a → mf_share_id a = mf_share_id m.
Proof.
  unfold merge_all. revert m. induction ms as [|r ms IH]; intros m Hm; simpl in *.
  - by injection Hm as ->.
  - res_inv. apply merge_manifests_Ok in E as (_ & _ & _ & ->). rewrite (IH _ Hm). apply merged_header.
Qed.

Lemma merge_all_Ok_format m ms now a :
  ms ≠ [] → merge_all m ms now = Ok a → mf_format_version a = MANIFEST_FORMAT_VERSION.
Proof.
  unfold merge_all. revert m. induction ms as [|r ms IH]; intros m Hne Hm; simpl in *; [done|].
  res_inv. apply merge_manifests_Ok in E as (_ & _ & _ & ->). destruct ms as [|r' ms].
  - injection Hm as <-. apply merged_header.
  - by eapply IH.
Qed.
End merging.

(** [x] is a record of greatest rank among [os]. *)
Definition winner (os : list (option ManifestRecord)) (w : option ManifestRecord) : Prop :=
  w ∈ os ∧ ∀ o, o ∈ os → leb (rank <$> o) (rank <$> w) = true.

Lemma select_winner a b :
  (select_record a b = a ∨ select_record a b = b) ∧
  leb (rank <$> a) (rank <$> select_record a b) = true ∧
  leb (rank <$> b) (rank <$> select_record a b) = true.
Proof.
  destruct a as [a|], b as [b|];
    rewrite ?select_max, ?select_None_l, ?select_None_r, ?leb_refl; auto.
  destruct (ltb (rank a) (rank b)) eqn:E; rewrite leb_refl; split_and!; auto.
  - change (leb (rank a) (rank b) = true). by apply ltb_leb.
  - change (leb (rank b) (rank a) = true). by rewrite leb_ltb, E.
Qed.

Lemma foldl_winner o os : winner (o :: os) (foldl select_record o os).
Proof.
  revert o. induction os as [|o' os IH]; intros o; simpl.
  - split; [by left|]. intros x Hx%list_elem_of_singleton. subst. apply leb_refl.
  - destruct (IH (select_record o o')) as [Hin Hmax].
    destruct (select_winner o o') as (Hs & Hl & Hr).
    pose proof (Hmax _ (list_elem_of_here _ _)) as Hm. split.
    + apply elem_of_cons in Hin as [->|Hin]; [|by do 2 right].
      destruct Hs as [->| ->]; [by left|by right; left].
    + intros x [->|[->|Hx]%elem_of_cons]%elem_of_cons;
        [by eapply leb_trans|by eapply leb_trans|]. apply Hmax. by right.
Qed.

Lemma winner_unique os os' w w' :
  (∀ o, o ∈ os ↔ o ∈ os') → (∀ a b, a ∈ os → b ∈ os → agree a b) →
  winner os w → winner os' w' → synced <$> w = synced <$> w'.
Proof.
  intros Hos Hag [Hw Hmax] [Hw' Hmax']. apply Hos in Hw'.
  assert (Hr : rank <$> w = rank <$> w').
  { apply leb_antisym; [apply Hmax'; by apply Hos|by apply Hmax]. }
  destruct w as [w|], w' as [w'|]; try done. injection Hr as Hv Ht.
  simpl. f_equal. destruct (is_tombstone w) eqn:Et.
  - rewrite (tombstone_rank_eq w w'); [done|done|]. unfold rank. congruence.
  - by apply (Hag _ _ Hw Hw').
Qed.

(** ** Properties *)

(** Merging two well-formed manifests of one share either returns a
    well-formed manifest in which every path has the record that
    [select_record] picks among the two, or reports an error, and it reports an
    error only when both together name more than 100000 paths or the selected
    records put a live path below a file, a symbolic link or a tombstone. *)
Lemma merge_manifests_outcome `{Iroh} (l r : Manifest) (now : Z)
    (Hl : manifest_valid l (mf_share_id l)) (Hr : manifest_valid r (mf_share_id l)) :
  match merge_manifests l r now with
  | Ok m =>
      manifest_valid m (mf_share_id l) ∧ mf_scanned_at_ms m = now ∧
      (∀ p, record m p = select_record (record l p) (record r p))
  | Err _ =>
      MAX_MANIFEST_ENTRIES < Z.of_nat (length (merge_paths l r)) ∨
      ¬ hierarchy_ok (merged_records l r now)
  end.
Proof.
  pose proof (merged_valid l r now Hl Hr) as Hv.
  unfold merge_manifests. rewrite (proj2 (Manifest_validate_Ok l _) Hl),
    (proj2 (Manifest_validate_Ok r _) Hr). simpl.
  destruct (Manifest_validate (merged_records l r now) (mf_share_id l)) as [[]|e] eqn:E; simpl.
  - split_and!; [by apply Manifest_validate_Ok|apply merged_header|apply record_merged].
  - destruct (Z.le_gt_cases (Z.of_nat (length (merge_paths l r))) MAX_MANIFEST_ENTRIES)
      as [Hle|Hgt]; [right|by left].
    intros Hh. pose proof (proj2 Hv (conj Hle Hh)). congruence.
Qed.

(** Last-writer-wins converges: two replicas that merged the same set of manifests, in
    whatever order and however often each, hold the same synchronized records, provided
    live records of a path with the same version are the same. *)
Lemma merge_all_converges `{Iroh} (m m' : Manifest) (ms ms' : list Manifest)
    (now now' : Z) (a b : Manifest)
    (Hsame : ∀ x, x ∈ m :: ms ↔ x ∈ m' :: ms')
    (Hag : ∀ p x y, x ∈ m :: ms → y ∈ m :: ms → agree (record x p) (record y p))
    (Ha : merge_all m ms now = Ok a) (Hb : merge_all m' ms' now' = Ok b) p :
  synced <$> record a p = synced <$> record b p.
Proof.
  rewrite (merge_all_record _ _ _ _ p Ha), (merge_all_record _ _ _ _ p Hb).
  assert (Hf : ∀ x xs, foldl (λ acc r, select_record acc (record r p)) x xs =
    foldl select_record x (map (λ r, record r p) xs)).
  { intros x xs. revert x. induction xs as [|y ys IH]; intros x; simpl; [done|apply IH]. }
  rewrite !Hf.
  apply (winner_unique (map (λ r, record r p) (m :: ms)) (map (λ r, record r p) (m' :: ms')));
    [| |apply foldl_winner|apply foldl_winner].
  - intros o. rewrite !list_elem_of_In, !in_map_iff.
    by setoid_rewrite <-list_elem_of_In; setoid_rewrite Hsame.
  - intros o o'. rewrite !list_elem_of_In, !in_map_iff. setoid_rewrite <-list_elem_of_In.
    intros (x & <- & ?) (y & <- & ?). by apply Hag.
Qed.

(** *** Witnesses *)

Import Ref.

(** The manifest of share [00..0] with the given records at path [a]. *)
Definition ex_share : bytes := repeat "000"%byte 32.
Definition ex_version (w : Z) (author : byte) : HlcTimestamp :=
  {| wall_ms := w; counter := 0; author := repeat author 32 |}.
Definition ex_file (w : Z) (author : byte) : ManifestRecord := RFile {|
  me_size := 3; me_modified_at_ns := 0; me_sha256 := repeat "0"%byte 64;
  me_permissions := None; me_version := ex_version w author |}.
Definition ex_manifest (path : bytes) (r : ManifestRecord) : Manifest :=
  put_record (Manifest_empty ex_share 0) path r.

Lemma ex_exclusive p r : exclusive (ex_manifest p r).
Proof. apply exclusive_put; [apply exclusive_empty|done]. Qed.

Lemma ex_record p q r : record (ex_manifest p r) q = if decide (q = p) then Some r else None.
Proof.
  case_decide as Hq; [subst; by apply record_put_eq|]. unfold ex_manifest.
  by rewrite record_put_ne.
Qed.

Lemma merge_manifests_outcome_witness :
  let l := ex_manifest (bs "a") (ex_file 1 "001") in
  let r := ex_manifest (bs "a/b") (ex_file 2 "002") in
  manifest_valid l ex_share ∧ manifest_valid r ex_share ∧
  match merge_manifests l r 7 with
  | Ok m =>
      manifest_valid m (mf_share_id l) ∧ mf_scanned_at_ms m = 7 ∧
      (∀ p, record m p = select_record (record l p) (record r p))
  | Err _ =>
      MAX_MANIFEST_ENTRIES < Z.of_nat (length (merge_paths l r)) ∨
      ¬ hierarchy_ok (merged_records l r 7)
  end.
Proof.
  intros l r.
  assert (Hl : manifest_valid l ex_share)
    by (apply Manifest_validate_Ok; vm_compute; reflexivity).
  assert (Hr : manifest_valid r ex_share)
    by (apply Manifest_validate_Ok; vm_compute; reflexivity).
  split; [exact Hl|split; [exact Hr|]]. exact (merge_manifests_outcome l r 7 Hl Hr).
Defined.
