(* ===== verification/Storage.v ===== *)
(** * Durable state (src/storage/mod.rs, src/storage/atomic.rs)

    The state files of a share, as a map from paths to contents; [serde_json] is
    a parameter.  Every write goes to a temporary file that replaces the target:
    whatever fails, and wherever the process dies, a state file holds its old or
    its new contents in full. *)

From S2P Require Import Prelude Collections Bytes External Reference Framing Clock Types Peers ManifestPath Manifest Merge.

Definition SMALL_STATE_MAX_BYTES : Z := 1024 * 1024.
Definition MANIFEST_MAX_BYTES : Z := 64 * 1024 * 1024.
Definition IDENTITY_KEY_BYTES : Z := 32.

(** The regular files of the data directory. *)
Notation files := (gmap bytes bytes).

(** ** Layout *)

Section layout.
Context `{HexCodec}.

Definition shares_dir (root : bytes) : bytes := path_push root (bs "shares").

Definition share_dir (root share_id : bytes) : bytes :=
  path_push (path_push root (bs "shares")) (share_id_to_string share_id).

(** [share_path(share_id, Some(name))]. *)
Definition share_path (root share_id name : bytes) : bytes :=
  path_push (share_dir root share_id) name.

Definition share_config (root id : bytes) : bytes := share_path root id (bs "config.json").
Definition share_manifest (root id : bytes) : bytes := share_path root id (bs "manifest.json").
Definition share_clock (root id : bytes) : bytes := share_path root id (bs "clock.json").
Definition share_known_peers (root id : bytes) : bytes :=
  share_path root id (bs "known_peers.json").
Definition share_runtime_status (root id : bytes) : bytes :=
  share_path root id (bs "runtime-status.json").
Definition share_tmp_dir (root id : bytes) : bytes := share_path root id (bs "tmp").
End layout.

(** ** Atomic replacement *)

(** Where a write fails, if it does: the parent directory, the creation of the
    temporary file, its mode, its contents after some chunks, its flush, the
    replacement, or the flush of the directory. *)
Inductive fault :=
| NoFault | DirFault | CreateFault | ModeFault | WriteFault (written : nat) | SyncFault
| ReplaceFault | SyncParentFault.

Definition fault_eqb (f g : fault) : bool :=
  match f, g with
  | NoFault, NoFault | DirFault, DirFault | CreateFault, CreateFault | ModeFault, ModeFault
  | SyncFault, SyncFault | ReplaceFault, ReplaceFault | SyncParentFault, SyncParentFault => true
  | WriteFault n, WriteFault m => (n =? m)%nat
  | _, _ => false
  end.

(** The temporary name: [.{name}.{pid}.{random}.tmp] beside the target. *)
Definition temporary_path (dir name nonce : bytes) : bytes :=
  path_push dir ([dot] ++ name ++ [dot] ++ nonce ++ bs ".tmp").

(** The states while the chunks are written, and the last of them. *)
Definition write_states (fs : files) (temporary : bytes) (chunks : list bytes) : list files :=
  map (λ n, <[temporary := concat (take n chunks)]> fs) (seq 0 (S (length chunks))).

Definition write_error : string := "unable to write temporary state file".

(** [atomic_write_with]: every state the directory goes through, in order, the
    outcome and the final state.  [nonce] is the process id and random part of
    the temporary name. *)
Definition atomic_write_with (fs : files) (dir name nonce : bytes) (chunks : list bytes)
    (f : fault) : list files * result unit * files :=
  let path := path_push dir name in
  let temporary := temporary_path dir name nonce in
  let cleanup (visited : list files) (now : files) (message : string) :=
    (visited ++ [delete temporary now], Err message, delete temporary now) in
  if fault_eqb f DirFault then ([fs], Err "unable to create data directory", fs)
  else if fault_eqb f CreateFault || contains_key fs temporary
  then cleanup [fs] fs "unable to create temporary state file"
  else if fault_eqb f ModeFault
  then cleanup [fs; <[temporary := []]> fs] (<[temporary := []]> fs)
         "unable to set persistent state file permissions"
  else
    let cut := match f with WriteFault n => take n chunks | _ => chunks end in
    let visited := fs :: write_states fs temporary cut in
    let staged := <[temporary := concat cut]> fs in
    match f with
    | WriteFault _ => cleanup visited staged write_error
    | SyncFault => cleanup visited staged "unable to flush temporary state file"
    | ReplaceFault =>
        cleanup visited staged "unable to atomically replace persistent state"
    | _ =>
        let replaced := <[path := concat cut]> (delete temporary staged) in
        match f with
        | SyncParentFault =>
            cleanup (visited ++ [replaced]) replaced "unable to flush state directory"
        | _ => (visited ++ [replaced], Ok tt, replaced)
        end
    end.

Lemma path_push_inj dir a b :
  is_absolute a = false → is_absolute b = false → path_push dir a = path_push dir b → a = b.
Proof.
  unfold path_push. intros -> ->. destruct (last dir) as [c|]; [destruct (Byte.eqb c slash)|];
    intros E; apply app_inv_head in E; congruence.
Qed.

Lemma temporary_ne dir name nonce :
  is_absolute name = false → temporary_path dir name nonce ≠ path_push dir name.
Proof.
  intros Hn E. apply path_push_inj in E; [|done..]. apply (f_equal length) in E.
  simpl in E. rewrite length_app in E. simpl in E. lia.
Qed.

(** The target and the files beside it in one state of the write. *)
Definition old_or_new (fs : files) (path temporary new : bytes) (s : files) : Prop :=
  (s !! path = fs !! path ∨ s !! path = Some new) ∧
  ∀ q, q ≠ path → q ≠ temporary → s !! q = fs !! q.

Lemma old_or_new_staged fs path temporary new x :
  temporary ≠ path → old_or_new fs path temporary new (<[temporary := x]> fs).
Proof.
  intros Hne. split; [left; by rewrite lookup_insert_ne|].
  intros q Hq Hq'. by rewrite lookup_insert_ne.
Qed.

Lemma old_or_new_delete fs path temporary new s :
  temporary ≠ path → old_or_new fs path temporary new s →
  old_or_new fs path temporary new (delete temporary s).
Proof.
  intros Hne [Hp Hq]. split; [by rewrite lookup_delete_ne|].
  intros q H1 H2. rewrite lookup_delete_ne by done. by apply Hq.
Qed.

Lemma old_or_new_refl fs path temporary new : old_or_new fs path temporary new fs.
Proof. split; auto. Qed.

Lemma old_or_new_replaced fs path temporary new x :
  temporary ≠ path →
  old_or_new fs path temporary new (<[path := new]> (delete temporary (<[temporary := x]> fs))).
Proof.
  intros Hne. split; [right; by rewrite lookup_insert_eq|].
  intros q H1 H2. by rewrite lookup_insert_ne, lookup_delete_ne, lookup_insert_ne.
Qed.

Lemma write_states_old_or_new fs path temporary new chunks ns :
  temporary ≠ path →
  Forall (old_or_new fs path temporary new)
    (map (λ n : nat, <[temporary := concat (take n chunks)]> fs) ns).
Proof.
  intros Hne. apply List.Forall_forall. intros s Hs.
  apply in_map_iff in Hs as (n & <- & _). by apply old_or_new_staged.
Qed.

(** What a completed write leaves: the new contents and no temporary file. *)
Lemma atomic_write_Ok fs dir name nonce chunks f visited fs' :
  is_absolute name = false →
  atomic_write_with fs dir name nonce chunks f = (visited, Ok tt, fs') →
  fs' !! path_push dir name = Some (concat chunks) ∧
  fs' !! temporary_path dir name nonce = None ∧
  (∀ q, q ≠ path_push dir name → fs' !! q = fs !! q).
Proof.
  intros Hn. pose proof (temporary_ne dir name nonce Hn) as Hne. unfold atomic_write_with.
  destruct (fault_eqb f DirFault); [done|].
  destruct (contains_key fs (temporary_path dir name nonce)) eqn:Et;
    [by destruct (fault_eqb f CreateFault)|].
  destruct (fault_eqb f CreateFault); [done|]. simpl. destruct (fault_eqb f ModeFault); [done|].
  unfold contains_key in Et.
  destruct (fs !! temporary_path dir name nonce) eqn:Ek; [done|].
  destruct f; try done; intros [= <- <-]; rewrite lookup_insert_eq, lookup_insert_ne, lookup_delete_eq by done;
    (split; [done|split; [done|]]); intros q Hq; rewrite lookup_insert_ne by done;
    (destruct (decide (q = temporary_path dir name nonce)) as [->|];
      [by rewrite lookup_delete_eq|by rewrite lookup_delete_ne, lookup_insert_ne]).
Qed.

Lemma atomic_write_states fs (dir name nonce : bytes) (chunks : list bytes) (f : fault) :
  is_absolute name = false →
  let '(visited, r, fs') := atomic_write_with fs dir name nonce chunks f in
  let path := path_push dir name in
  let temporary := temporary_path dir name nonce in
  Forall (old_or_new fs path temporary (concat chunks)) (fs' :: visited) ∧
  (r = Ok tt → fs' !! path = Some (concat chunks)) ∧
  (f ≠ DirFault → fs' !! temporary = None).
Proof.
  intros Hn.
  pose proof (temporary_ne dir name nonce Hn) as Hne.
  pose proof (atomic_write_Ok fs dir name nonce chunks f) as Hok.
  destruct (atomic_write_with fs dir name nonce chunks f) as [[visited r] fs'] eqn:Ew.
  split_and!; [|intros ->; by apply (Hok visited fs')|].
  - revert Ew. unfold atomic_write_with.
    set (path := path_push dir name) in *. set (temporary := temporary_path dir name nonce) in *.
    pose proof (old_or_new_refl fs path temporary (concat chunks)) as Hr.
    pose proof (λ x, old_or_new_staged fs path temporary (concat chunks) x Hne) as Hs.
    pose proof (λ s, old_or_new_delete fs path temporary (concat chunks) s Hne) as Hd.
    pose proof (λ l ns, write_states_old_or_new fs path temporary (concat chunks) l ns Hne) as Hw.
    pose proof (λ x, old_or_new_replaced fs path temporary (concat chunks) x Hne) as Hp.
    destruct (fault_eqb f DirFault), (fault_eqb f CreateFault || contains_key fs temporary),
      (fault_eqb f ModeFault); try destruct f; intros [= <- _ <-];
      auto 20 using Forall_cons_2, Forall_nil_2, Forall_app_2.
  - revert Ew. unfold atomic_write_with. set (temporary := temporary_path dir name nonce) in *.
    destruct f; simpl; try done; intros Ew _; revert Ew;
      try (destruct (contains_key fs temporary));
      intros [= _ _ <-]; rewrite ?lookup_delete_eq; try done;
      rewrite lookup_insert_ne by done; by rewrite lookup_delete_eq.
Qed.

(** ** Reading and writing state files *)

(** [read_bounded]: [metadata.len()] and the bytes read agree on an unchanged
    file. *)
Definition read_bounded (fs : files) (path : bytes) (max_bytes : Z) : result bytes :=
  data ← ok_or (fs !! path) "unable to inspect";
  bail_if (max_bytes <? blen data) "exceeds the maximum supported size";;
  Ok data.

(** [serde_json] ignores the newline that ends a state file. *)
Class JsonState (T : Type) := {
  json_state :: Json T;
  from_slice_newline (b : bytes) : from_slice (b ++ ["010"%byte]) = from_slice b;
}.

Definition read_state {T} `{JsonState T} (fs : files) (path : bytes) (max_bytes : Z)
    : result T :=
  data ← read_bounded fs path max_bytes;
  ok_or (from_slice data) "unable to parse".

(** The environment of one write: the temporary name's nonce, how the buffered
    writer cuts the contents, and the fault. *)
Record write_env := {
  we_nonce : bytes;
  we_cut : bytes → list bytes;
  we_fault : fault;
}.
Definition cuts (env : write_env) : Prop := ∀ b, concat (we_cut env b) = b.

(** The serializer writes to the temporary file: where it fails, the write does. *)
Definition unserialized (f : fault) : fault :=
  match f with DirFault | CreateFault | ModeFault => f | _ => WriteFault 0 end.

Definition atomic_write_json {T} `{JsonState T} (fs : files) (dir name : bytes) (value : T)
    (env : write_env) : result unit * files :=
  match to_vec value with
  | None =>
      let '(_, _, fs') := atomic_write_with fs dir name (we_nonce env) []
        (unserialized (we_fault env)) in
      (Err "unable to serialize persistent state", fs')
  | Some b =>
      let '(_, r, fs') := atomic_write_with fs dir name (we_nonce env)
        (we_cut env (b ++ ["010"%byte])) (we_fault env) in
      (r, fs')
  end.

Lemma atomic_write_json_Ok {T} `{JsonState T} fs dir name (value : T) env fs' :
  is_absolute name = false → cuts env →
  atomic_write_json fs dir name value env = (Ok tt, fs') →
  ∃ b, to_vec value = Some b ∧ fs' !! path_push dir name = Some (b ++ ["010"%byte]) ∧
    (∀ q, q ≠ path_push dir name → fs' !! q = fs !! q).
Proof.
  intros Hn Hc. unfold atomic_write_json. destruct (to_vec value) as [b|]; [|by destruct (atomic_write_with _ _ _ _ _ _) as [[??]?]].
  destruct (atomic_write_with _ _ _ _ _ _) as [[visited r] fs0] eqn:Ew.
  intros [= -> ->]. apply atomic_write_Ok in Ew as (Hp & _ & Hq); [|done].
  exists b. by rewrite Hc in Hp.
Qed.

(** Whatever happens, only the target and the temporary file are touched. *)
Lemma atomic_write_json_others {T} `{JsonState T} fs dir name (value : T) env q :
  is_absolute name = false → q ≠ path_push dir name → q ≠ temporary_path dir name (we_nonce env) →
  (atomic_write_json fs dir name value env).2 !! q = fs !! q.
Proof.
  intros Hn Hq Ht.
  assert (Hw : ∀ chunks f, (atomic_write_with fs dir name (we_nonce env) chunks f).2 !! q = fs !! q).
  { intros chunks f. pose proof (atomic_write_states fs dir name (we_nonce env) chunks f Hn) as Hs.
    destruct (atomic_write_with _ _ _ _ _ _) as [[visited r] fs']. destruct Hs as [Hs _].
    inversion Hs as [|? ? [_ Hall] _]; subst. by apply Hall. }
  unfold atomic_write_json. destruct (to_vec value) as [b|].
  - specialize (Hw (we_cut env (b ++ ["010"%byte])) (we_fault env)).
    by destruct (atomic_write_with _ _ _ _ _ _) as [[??]?].
  - specialize (Hw [] (unserialized (we_fault env))).
    by destruct (atomic_write_with _ _ _ _ _ _) as [[??]?].
Qed.
Lemma atomic_write_json_frame {T} `{JsonState T} fs dir name other (value : T) env :
  is_absolute name = false → is_absolute other = false → other ≠ name →
  head other ≠ Some dot →
  (atomic_write_json fs dir name value env).2 !! path_push dir other =
    fs !! path_push dir other.
Proof.
  intros Hn Ho Hne Hdot. apply atomic_write_json_others; [done| |].
  - intros E. by apply path_push_inj in E.
  - intros E. apply path_push_inj in E; [|done..]. by subst other.
Qed.

(** Whatever happens, the file has its old contents or the text of the value. *)
Lemma atomic_write_json_outcome {T} `{JsonState T} fs dir name (value : T) env :
  is_absolute name = false → cuts env →
  let fs' := (atomic_write_json fs dir name value env).2 in
  fs' !! path_push dir name = fs !! path_push dir name ∨
  ∃ b, to_vec value = Some b ∧ fs' !! path_push dir name = Some (b ++ ["010"%byte]).
Proof.
  intros Hn Hc. pose proof (temporary_ne dir name (we_nonce env) Hn) as Hne.
  unfold atomic_write_json. destruct (to_vec value) as [b|].
  - pose proof (atomic_write_states fs dir name (we_nonce env) (we_cut env (b ++ ["010"%byte]))
      (we_fault env) Hn) as Hs.
    destruct (atomic_write_with _ _ _ _ _ _) as [[visited r] fs']. destruct Hs as [Hs _].
    inversion Hs as [|? ? [[Hp|Hp] _] _]; subst; simpl; [by left|]. right. exists b.
    by rewrite Hc in Hp.
  - left. unfold atomic_write_with. destruct (we_fault env); simpl;
      try (destruct (contains_key fs _); simpl); rewrite ?lookup_delete_ne, ?lookup_insert_ne by done;
      done.
Qed.

(** What was written is read back, if it is within the limit of the reader. *)
Lemma read_state_written {T} `{JsonState T} (fs : files) path (value : T) b max :
  to_vec value = Some b → fs !! path = Some (b ++ ["010"%byte]) →
  read_state fs path max =
    if max <? blen b + 1 then Err "exceeds the maximum supported size" else Ok value.
Proof.
  intros Hb Hp. unfold read_state, read_bounded. rewrite Hp. simpl. rewrite blen_app.
  unfold blen at 2. simpl length. change (Z.of_nat 1) with 1.
  destruct (max <? blen b + 1); simpl; [done|].
  by rewrite from_slice_newline, (from_slice_to_vec value b Hb).
Qed.

Section share_state.
Context `{HexCodec, Iroh} `{!JsonState ShareConfig} `{!JsonState Manifest}
  `{!JsonState ClockState} `{!JsonState KnownPeers} `{!JsonState RuntimeStatus}.
Implicit Types (root share_id : bytes) (fs : files).

Definition load_config fs root share_id : result ShareConfig :=
  config ← read_state fs (share_config root share_id) SMALL_STATE_MAX_BYTES;
  ShareConfig_validate config share_id;; Ok config.

Definition save_config fs root (config : ShareConfig) (env : write_env)
    : result unit * files :=
  match ShareConfig_validate config (cfg_share_id config) with
  | Err e => (Err e, fs)
  | Ok _ => atomic_write_json fs (share_dir root (cfg_share_id config)) (bs "config.json")
              config env
  end.

Definition load_manifest fs root share_id : result Manifest :=
  manifest ← read_state fs (share_manifest root share_id) MANIFEST_MAX_BYTES;
  Manifest_validate manifest share_id;; Ok manifest.

(** [DataPaths::save_manifest]. *)
Definition store_manifest fs root (manifest : Manifest) (env : write_env)
    : result unit * files :=
  match Manifest_validate manifest (mf_share_id manifest) with
  | Err e => (Err e, fs)
  | Ok _ => atomic_write_json fs (share_dir root (mf_share_id manifest)) (bs "manifest.json")
              manifest env
  end.

Definition load_clock fs root share_id : result ClockState :=
  clock ← read_state fs (share_clock root share_id) SMALL_STATE_MAX_BYTES;
  ClockState_validate clock;; Ok clock.

Definition save_clock fs root share_id (clock : ClockState) (env : write_env)
    : result unit * files :=
  match ClockState_validate clock with
  | Err e => (Err e, fs)
  | Ok _ => atomic_write_json fs (share_dir root share_id) (bs "clock.json") clock env
  end.

Definition load_known_peers fs root share_id : result KnownPeers :=
  peers ← read_state fs (share_known_peers root share_id) SMALL_STATE_MAX_BYTES;
  KnownPeers_validate peers;; Ok peers.

Definition load_known_peer_ids fs root share_id : result (list EndpointId) :=
  peers ← read_state fs (share_known_peers root share_id) SMALL_STATE_MAX_BYTES;
  endpoint_ids peers.

Definition save_known_peers fs root share_id (peers : KnownPeers) (env : write_env)
    : result unit * files :=
  match KnownPeers_validate peers with
  | Err e => (Err e, fs)
  | Ok _ => atomic_write_json fs (share_dir root share_id) (bs "known_peers.json") peers env
  end.

Definition load_runtime_status fs root share_id : result (option RuntimeStatus) :=
  match fs !! share_runtime_status root share_id with
  | None => Ok None
  | Some _ =>
      status ← read_state fs (share_runtime_status root share_id) SMALL_STATE_MAX_BYTES;
      RuntimeStatus_validate status;; Ok (Some status)
  end.

Definition save_runtime_status fs root share_id (status : RuntimeStatus) (env : write_env)
    : result unit * files :=
  match RuntimeStatus_validate status with
  | Err e => (Err e, fs)
  | Ok _ => atomic_write_json fs (share_dir root share_id) (bs "runtime-status.json") status env
  end.

(** ** Properties *)

(** C28: a state file is replaced atomically: in every state the directory goes
    through, also when the write fails at any point or the process stops there,
    the file has its old contents or all of its new ones and no other file but
    the temporary one is touched; on success the new contents are in place, and
    the temporary file is gone. *)
Theorem atomic_write_crash_safe fs (dir name nonce : bytes) (chunks : list bytes) (f : fault)
    (Hn : is_absolute name = false) :
  let '(visited, r, fs') := atomic_write_with fs dir name nonce chunks f in
  let path := path_push dir name in
  let temporary := temporary_path dir name nonce in
  Forall (old_or_new fs path temporary (concat chunks)) (fs' :: visited) ∧
  (r = Ok tt → fs' !! path = Some (concat chunks)) ∧
  (f ≠ DirFault → fs' !! temporary = None).
Proof. by apply atomic_write_states. Qed.

(** A saved manifest is loaded back unchanged, provided its JSON text fits
    the limit of the reader; saving itself does not check that limit. *)
Lemma load_stored_manifest fs fs' root (m : Manifest) (env : write_env) (b : bytes)
    (Hc : cuts env) (Hb : to_vec m = Some b)
    (Hs : store_manifest fs root m env = (Ok tt, fs')) :
  load_manifest fs' root (mf_share_id m) =
    (if MANIFEST_MAX_BYTES <? blen b + 1 then Err "exceeds the maximum supported size"
     else Ok m) ∧
  (∀ q, q ≠ share_manifest root (mf_share_id m) → fs' !! q = fs !! q).
Proof.
  unfold store_manifest in Hs.
  destruct (Manifest_validate m (mf_share_id m)) as [[]|] eqn:Ev; [|done].
  apply atomic_write_json_Ok in Hs as (b' & Hb' & Hp & Hq); [|done|done].
  rewrite Hb in Hb'. injection Hb' as <-. split; [|exact Hq].
  unfold load_manifest. change (path_push _ _) with (share_manifest root (mf_share_id m)) in Hp.
  rewrite (read_state_written _ _ _ _ _ Hb Hp).
  destruct (MANIFEST_MAX_BYTES <? blen b + 1); simpl; [done|]. by rewrite Ev.
Qed.
End share_state.

(** *** Witnesses *)

Import Ref.

Fixpoint strip_newlines (b : bytes) : bytes :=
  match b with
  | [] => []
  | c :: b' =>
      match strip_newlines b' with
      | [] => if Byte.eqb c "010"%byte then [] else [c]
      | r => c :: r
      end
  end.

Lemma strip_newlines_snoc b : strip_newlines (b ++ ["010"%byte]) = strip_newlines b.
Proof. induction b as [|c b IH]; simpl; [done|]. by rewrite IH. Qed.

(** A codec that knows one value and its text. *)
Section single.
Context {T : Type} `{EqDecision T} (value : T).

Definition single_to_vec (x : T) : option bytes :=
  if decide (x = value) then Some (bs "value") else None.
Definition single_from_slice (b : bytes) : option T :=
  if decide (strip_newlines b = bs "value") then Some value else None.
Lemma single_roundtrip x b : single_to_vec x = Some b → single_from_slice b = Some x.
Proof. unfold single_to_vec. case_decide as Hx; [|done]. subst x. by intros [= <-]. Qed.
Lemma single_self : single_to_vec value = Some (bs "value").
Proof. unfold single_to_vec. by rewrite decide_True. Qed.
Lemma single_newline b : single_from_slice (b ++ ["010"%byte]) = single_from_slice b.
Proof. unfold single_from_slice. by rewrite strip_newlines_snoc. Qed.

Definition single_json : Json T :=
  {| to_vec := single_to_vec; from_slice := single_from_slice;
     from_slice_to_vec := single_roundtrip |}.
Definition single_state : JsonState T :=
  {| json_state := single_json; from_slice_newline := single_newline |}.
End single.

(** A codec that knows two values and their texts. *)
Section two_values.
Context {T : Type} `{EqDecision T} (x y : T).

Definition two_to_vec (v : T) : option bytes :=
  if decide (v = x) then Some (bs "x") else if decide (v = y) then Some (bs "y") else None.
Definition two_from_slice (b : bytes) : option T :=
  if decide (strip_newlines b = bs "x") then Some x
  else if decide (strip_newlines b = bs "y") then Some y else None.
Lemma two_roundtrip v b : two_to_vec v = Some b → two_from_slice b = Some v.
Proof.
  unfold two_to_vec. case_decide; [subst v; by intros [= <-]|].
  case_decide; [|done]. subst v. by intros [= <-].
Qed.
Lemma two_newline b : two_from_slice (b ++ ["010"%byte]) = two_from_slice b.
Proof. unfold two_from_slice. by rewrite strip_newlines_snoc. Qed.

Definition two_json : Json T :=
  {| to_vec := two_to_vec; from_slice := two_from_slice; from_slice_to_vec := two_roundtrip |}.
Definition two_state : JsonState T :=
  {| json_state := two_json; from_slice_newline := two_newline |}.
End two_values.

(** A codec that knows a list of values: the text of the n-th has n + 1 letters. *)
Section table.
Context {T : Type} `{EqDecision T} (values : list T).

Definition table_to_vec (v : T) : option bytes :=
  (λ p, repeat "x"%byte (S p.1)) <$> list_find (λ w, w = v) values.
Definition table_from_slice (b : bytes) : option T :=
  match length (strip_newlines b) with O => None | S i => values !! i end.

Lemma strip_letters n : strip_newlines (repeat "x"%byte n) = repeat "x"%byte n.
Proof. induction n as [|n IH]; [done|]. simpl. rewrite IH. by destruct n. Qed.
Lemma table_roundtrip v b : table_to_vec v = Some b → table_from_slice b = Some v.
Proof.
  unfold table_to_vec, table_from_slice. destruct (list_find _ _) as [[i w]|] eqn:E; [|done].
  intros [= <-]. apply list_find_Some in E as (Hi & -> & _). cbn [fst].
  pose proof (strip_letters (S i)) as Hs. cbn [repeat] in Hs. rewrite Hs. cbn [length]. by rewrite repeat_length.
Qed.
Lemma table_newline b : table_from_slice (b ++ ["010"%byte]) = table_from_slice b.
Proof. unfold table_from_slice. by rewrite strip_newlines_snoc. Qed.

Definition table_json : Json T :=
  {| to_vec := table_to_vec; from_slice := table_from_slice; from_slice_to_vec := table_roundtrip |}.
Definition table_state : JsonState T :=
  {| json_state := table_json; from_slice_newline := table_newline |}.
End table.

Global Instance ShareConfig_eq_dec : EqDecision ShareConfig.
Proof. solve_decision. Defined.
Global Instance ClockState_eq_dec : EqDecision ClockState.
Proof. solve_decision. Defined.
Global Instance Manifest_eq_dec : EqDecision Manifest.
Proof. solve_decision. Defined.

Global Instance PeerRecord_eq_dec : EqDecision PeerRecord.
Proof. solve_decision. Defined.
Global Instance KnownPeers_eq_dec : EqDecision KnownPeers.
Proof. solve_decision. Defined.

Definition ex_share_config : ShareConfig := {|
  cfg_format_version := 1; cfg_share_id := ex_share; cfg_share_secret := repeat "006"%byte 32;
  cfg_name := bs "photos"; cfg_local_directory := bs "/home/photos"; cfg_created_at_ms := 0;
  cfg_initial_peers := []; cfg_initial_sync_complete := false |}.

Definition ex_env : write_env :=
  {| we_nonce := bs "7.9"; we_cut := λ b, [b]; we_fault := NoFault |}.
Lemma ex_env_cuts : cuts ex_env.
Proof. intros b. simpl. apply app_nil_r. Qed.

Lemma atomic_write_crash_safe_witness :
  let fs : files := {[bs "/d/clock.json" := bs "old"]} in
  let '(visited, r, fs') :=
    atomic_write_with fs (bs "/d") (bs "clock.json") (bs "7.9") [bs "ne"; bs "w"]
      SyncParentFault in
  let path := path_push (bs "/d") (bs "clock.json") in
  let temporary := temporary_path (bs "/d") (bs "clock.json") (bs "7.9") in
  Forall (old_or_new fs path temporary (concat [bs "ne"; bs "w"])) (fs' :: visited) ∧
  (r = Ok tt → fs' !! path = Some (concat [bs "ne"; bs "w"])) ∧
  (SyncParentFault ≠ DirFault → fs' !! temporary = None).
Proof.
  intros fs. exact (atomic_write_crash_safe fs (bs "/d") (bs "clock.json") (bs "7.9")
    [bs "ne"; bs "w"] SyncParentFault eq_refl).
Defined.

Lemma load_stored_manifest_witness :
  let m := ex_manifest (bs "a") (ex_file 1 "001") in
  let codec := single_state m in
  let fs' := (store_manifest (∅ : files) (bs "/d") m ex_env).2 in
  load_manifest fs' (bs "/d") (mf_share_id m) =
    (if MANIFEST_MAX_BYTES <? blen (bs "value") + 1
     then Err "exceeds the maximum supported size" else Ok m) ∧
  (∀ q, q ≠ share_manifest (bs "/d") (mf_share_id m) → fs' !! q = (∅ : files) !! q).
Proof.
  intros m codec fs'.
  assert (Hb : to_vec m = Some (bs "value")) by apply single_self.
  assert (Hs : store_manifest ∅ (bs "/d") m ex_env = (Ok tt, fs')).
  { subst fs'. unfold store_manifest.
    assert (Manifest_validate m (mf_share_id m) = Ok tt) as -> by (vm_compute; reflexivity).
    unfold atomic_write_json. rewrite Hb. reflexivity. }
  exact (load_stored_manifest ∅ fs' (bs "/d") m ex_env (bs "value") ex_env_cuts Hb Hs).
Defined.
