(* ===== verification/Digest.v ===== *)
(** * The synchronization digest (src/manifest/model.rs)

    The bytes hashed by [sync_digest_after_validation] determine the
    synchronized state, and depend on nothing else. *)

From S2P Require Import Prelude Collections Bytes Encoding External Reference Clock Types ManifestPath Manifest Merge.

Definition update_digest_len (length : Z) : bytes := u64_be length.
Definition update_digest_bytes (value : bytes) : bytes :=
  update_digest_len (blen value) ++ value.
Definition update_digest_permissions (permissions : option Z) : bytes :=
  match permissions with
  | Some p => ["001"%byte] ++ u16_be p
  | None => ["000"%byte]
  end.
Definition update_digest_timestamp (t : HlcTimestamp) : bytes :=
  u64_be (wall_ms t) ++ u32_be (counter t) ++ author t.

Definition digest_domain : bytes := bs "syncbox-manifest-digest-v1" ++ [nul].

Definition digest_file (pe : bytes * ManifestEntry) : bytes :=
  update_digest_bytes pe.1 ++ u64_be (me_size pe.2) ++ update_digest_bytes (me_sha256 pe.2)
  ++ update_digest_permissions (me_permissions pe.2)
  ++ update_digest_timestamp (me_version pe.2).
Definition digest_directory (pe : bytes * DirectoryEntry) : bytes :=
  update_digest_bytes pe.1 ++ update_digest_permissions (de_permissions pe.2)
  ++ update_digest_timestamp (de_version pe.2).
Definition digest_symlink (pe : bytes * SymlinkEntry) : bytes :=
  update_digest_bytes pe.1 ++ update_digest_bytes (se_target pe.2)
  ++ update_digest_timestamp (se_version pe.2).
Definition digest_tombstone (pe : bytes * Tombstone) : bytes :=
  update_digest_bytes pe.1 ++ update_digest_timestamp (tb_version pe.2).

(** One map: its length, then its records in key order. *)
Definition digest_map {W} (enc : bytes * W → bytes) (m : gmap bytes W) : bytes :=
  update_digest_len (blen (bt_iter m)) ++ concat (map enc (bt_iter m)).

(** The bytes fed to the hasher. *)
Definition digest_input (m : Manifest) : bytes :=
  digest_domain ++ u16_be (mf_format_version m) ++ mf_share_id m
  ++ digest_map digest_file (mf_entries m)
  ++ digest_map digest_directory (mf_directories m)
  ++ digest_map digest_symlink (mf_symlinks m)
  ++ digest_map digest_tombstone (mf_tombstones m).

Definition sync_digest_after_validation `{Blake3} (m : Manifest) : bytes :=
  blake3 (digest_input m).

Definition sync_digest `{Blake3, Iroh} (m : Manifest) (expected : bytes) : result bytes :=
  Manifest_validate m expected;; Ok (sync_digest_after_validation m).

(** ** The synchronized state *)

(** A file record without the local modification time. *)
Definition synced_file (e : ManifestEntry) : Z * bytes * option Z * HlcTimestamp :=
  (me_size e, me_sha256 e, me_permissions e, me_version e).

(** Two manifests describe the same synchronized state. *)
Record same_sync (m n : Manifest) : Prop := {
  ss_format : mf_format_version m = mf_format_version n;
  ss_share : mf_share_id m = mf_share_id n;
  ss_entries : synced_file <$> mf_entries m = synced_file <$> mf_entries n;
  ss_directories : mf_directories m = mf_directories n;
  ss_symlinks : mf_symlinks m = mf_symlinks n;
  ss_tombstones : mf_tombstones m = mf_tombstones n;
}.

(** The widths of the Rust fields. *)
Definition text_wf (s : bytes) : Prop := is_u64 (blen s).
Definition permissions_wf (o : option Z) : Prop := from_option is_u16 True o.
Definition file_wf (pe : bytes * ManifestEntry) : Prop :=
  text_wf pe.1 ∧ is_u64 (me_size pe.2) ∧ text_wf (me_sha256 pe.2) ∧
  permissions_wf (me_permissions pe.2) ∧ hlc_wf (me_version pe.2).
Definition directory_wf (pe : bytes * DirectoryEntry) : Prop :=
  text_wf pe.1 ∧ permissions_wf (de_permissions pe.2) ∧ hlc_wf (de_version pe.2).
Definition symlink_wf (pe : bytes * SymlinkEntry) : Prop :=
  text_wf pe.1 ∧ text_wf (se_target pe.2) ∧ hlc_wf (se_version pe.2).
Definition tombstone_wf (pe : bytes * Tombstone) : Prop :=
  text_wf pe.1 ∧ hlc_wf (tb_version pe.2).

Definition map_wf {W} (P : bytes * W → Prop) (m : gmap bytes W) : Prop :=
  is_u64 (blen (bt_iter m)) ∧ Forall P (bt_iter m).

Record manifest_wf (m : Manifest) : Prop := {
  mw_format : is_u16 (mf_format_version m);
  mw_share : length (mf_share_id m) = 32%nat;
  mw_entries : map_wf file_wf (mf_entries m);
  mw_directories : map_wf directory_wf (mf_directories m);
  mw_symlinks : map_wf symlink_wf (mf_symlinks m);
  mw_tombstones : map_wf tombstone_wf (mf_tombstones m);
}.

(** ** The parts are self-delimiting *)

Lemma reads_permissions : reads update_digest_permissions permissions_wf id.
Proof.
  intros [x|] [y|] s t Hx Hy E; unfold update_digest_permissions in E.
  - rewrite <-!app_assoc in E. apply app_inv_head in E.
    apply reads_u16 in E as [Eq ->]; [|done..]. unfold id in Eq. by rewrite Eq.
  - done.
  - done.
  - by apply app_inv_head in E.
Qed.

Lemma reads_timestamp : reads update_digest_timestamp hlc_wf id.
Proof.
  intros x y s t (Hx1 & Hx2 & Hx3) (Hy1 & Hy2 & Hy3) E.
  unfold update_digest_timestamp in E. rewrite <-!app_assoc in E.
  apply reads_u64 in E as [E1 E]; [|done..]. apply reads_u32 in E as [E2 E]; [|done..].
  apply app_inj_len in E as [E3 ->]; [|congruence].
  destruct x, y; unfold id in *; simpl in *; by subst.
Qed.

Ltac reads_parts E :=
  unfold digest_file, digest_directory, digest_symlink, digest_tombstone in E;
  rewrite <-?app_assoc in E;
  repeat first
    [ let F := fresh "F" in apply reads_prefixed in E as [F E]; [|done..]
    | let F := fresh "F" in apply reads_u64 in E as [F E]; [|done..]
    | let F := fresh "F" in apply reads_permissions in E as [F E]; [|done..]
    | let F := fresh "F" in apply reads_timestamp in E as [F E]; [|done..] ];
  unfold id in *.

Lemma reads_file : reads digest_file file_wf (prod_map id synced_file).
Proof.
  intros [p x] [q y] s t (Hx1 & Hx2 & Hx3 & Hx4 & Hx5) (Hy1 & Hy2 & Hy3 & Hy4 & Hy5) E;
    simpl in *. reads_parts E. unfold synced_file; simpl in *. split; [congruence|done].
Qed.
Lemma reads_directory : reads digest_directory directory_wf id.
Proof.
  intros [p []] [q []] s t (Hx1 & Hx2 & Hx3) (Hy1 & Hy2 & Hy3) E; simpl in *.
  reads_parts E. simpl in *. split; [congruence|done].
Qed.
Lemma reads_symlink : reads digest_symlink symlink_wf id.
Proof.
  intros [p []] [q []] s t (Hx1 & Hx2 & Hx3) (Hy1 & Hy2 & Hy3) E; simpl in *.
  reads_parts E. simpl in *. split; [congruence|done].
Qed.
Lemma reads_tombstone : reads digest_tombstone tombstone_wf id.
Proof.
  intros [p []] [q []] s t (Hx1 & Hx2) (Hy1 & Hy2) E; simpl in *.
  reads_parts E. simpl in *. split; [congruence|done].
Qed.

Lemma reads_digest_map {W B} enc P (f : bytes * W → B) :
  reads enc P f → reads (digest_map enc) (map_wf P) (λ m, map f (bt_iter m)).
Proof.
  intros Hr. unfold digest_map, map_wf, update_digest_len.
  apply (reads_comp bt_iter (λ l, u64_be (blen l) ++ concat (map enc l))
           (λ l, is_u64 (blen l) ∧ Forall P l) (map f)).
  by apply reads_counted.
Qed.

Lemma map_bt_iter_fmap {W B} (f : W → B) (m : gmap bytes W) :
  map (prod_map id f) (bt_iter m) = bt_iter (f <$> m).
Proof.
  rewrite <-(sort_by_id fst (map (prod_map id f) (bt_iter m))).
  - apply sort_by_perm_eq.
    + rewrite map_map. apply (bt_iter_nodup m).
    + unfold bt_iter. rewrite map_to_list_fmap. apply (Permutation_map (prod_map id f)).
      apply sort_by_perm.
  - pose proof (sort_by_sorted fst (map_to_list m)) as Hs. unfold bt_iter.
    induction Hs as [|x l Hs IH Hall]; simpl; constructor; [done|].
    clear Hs IH. induction Hall; simpl; constructor; done.
Qed.

(** The hashed bytes determine the synchronized state. *)
Lemma digest_input_inj m n :
  manifest_wf m → manifest_wf n → digest_input m = digest_input n → same_sync m n.
Proof.
  intros [Hf Hs He Hd Hl Ht] [Hf' Hs' He' Hd' Hl' Ht'] E. unfold digest_input in E.
  apply app_inv_head in E. apply reads_u16 in E as [Ef E]; [|done..].
  apply app_inj_len in E as [Es E]; [|congruence].
  apply (reads_digest_map _ _ _ reads_file) in E as [Ee E]; [|done..].
  apply (reads_digest_map _ _ _ reads_directory) in E as [Ed E]; [|done..].
  apply (reads_digest_map _ _ _ reads_symlink) in E as [El E]; [|done..].
  rewrite <-(app_nil_r (digest_map _ (mf_tombstones m))),
    <-(app_nil_r (digest_map _ (mf_tombstones n))) in E.
  apply (reads_digest_map _ _ _ reads_tombstone) in E as [Et _]; [|done..].
  rewrite !map_id in Ed, El, Et. rewrite !map_bt_iter_fmap in Ee.
  split; [done|done|..]; by apply bt_iter_inj.
Qed.

Lemma digest_map_ext {W B} (enc : bytes * W → bytes) (f : W → B) (m n : gmap bytes W) :
  (∀ p x y, f x = f y → enc (p, x) = enc (p, y)) → f <$> m = f <$> n →
  digest_map enc m = digest_map enc n.
Proof.
  intros Henc E. unfold digest_map.
  assert (Hl : map (prod_map id f) (bt_iter m) = map (prod_map id f) (bt_iter n))
    by by rewrite !map_bt_iter_fmap, E.
  assert (map enc (bt_iter m) = map enc (bt_iter n) ∧ blen (bt_iter m) = blen (bt_iter n))
    as [-> ->]; [|done].
  revert Hl. generalize (bt_iter m) (bt_iter n). clear E. unfold blen.
  induction l as [|[p x] l IH]; intros [|[q y] k] Hl; simplify_eq/=; [done|].
  destruct (IH k) as [-> ?]; [done|]. rewrite (Henc q x y) by done. split; [done|lia].
Qed.

Lemma digest_input_same m n : same_sync m n → digest_input m = digest_input n.
Proof.
  unfold digest_input. intros [-> -> He -> -> ->].
  rewrite (digest_map_ext digest_file synced_file (mf_entries m) (mf_entries n)); [done| |done].
  intros p x y [= E1 E2 E3 E4]. unfold digest_file; simpl. by rewrite E1, E2, E3, E4.
Qed.

(** ** Properties *)

(** C25: manifests that describe the same synchronized state have the same
    digest, whatever their scan and modification times; manifests with equal
    digests describe the same synchronized state, unless two different inputs of
    the hash collide. *)
Theorem sync_digest_identifies_state `{Blake3} (m n : Manifest)
    (Hm : manifest_wf m) (Hn : manifest_wf n) :
  (same_sync m n → sync_digest_after_validation m = sync_digest_after_validation n) ∧
  (sync_digest_after_validation m = sync_digest_after_validation n →
   same_sync m n ∨
   (digest_input m ≠ digest_input n ∧ blake3 (digest_input m) = blake3 (digest_input n))).
Proof.
  unfold sync_digest_after_validation. split.
  - intros E. by rewrite (digest_input_same m n E).
  - intros E. destruct (decide (digest_input m = digest_input n)) as [Ei|Ei]; [left|by right].
    by apply digest_input_inj.
Qed.

(** *** Witnesses *)

Import Ref.

Lemma map_wf_empty {W} (P : bytes * W → Prop) : map_wf P ∅.
Proof. split; rewrite bt_iter_empty; [u_unfold; unfold blen; simpl; lia|apply Forall_nil_2]. Qed.

Lemma map_wf_singleton {W} (P : bytes * W → Prop) k w : P (k, w) → map_wf P {[k := w]}.
Proof.
  intros HP. unfold map_wf, bt_iter. rewrite map_to_list_singleton. simpl.
  split; [u_unfold; unfold blen; simpl; lia|by repeat constructor].
Qed.

Lemma ex_manifest_wf w : is_u64 w → manifest_wf (ex_manifest (bs "a") (ex_file w "001")).
Proof.
  intros Hw. split; [by vm_compute|done| |apply map_wf_empty..].
  apply (map_wf_singleton file_wf). unfold file_wf, text_wf, permissions_wf, hlc_wf.
  u_unfold. simpl. repeat split; first [lia|by vm_compute].
Qed.

Lemma sync_digest_identifies_state_witness :
  let m := ex_manifest (bs "a") (ex_file 1 "001") in
  let n := ex_manifest (bs "a") (ex_file 2 "001") in
  (same_sync m n → sync_digest_after_validation m = sync_digest_after_validation n) ∧
  (sync_digest_after_validation m = sync_digest_after_validation n →
   same_sync m n ∨
   (digest_input m ≠ digest_input n ∧ blake3 (digest_input m) = blake3 (digest_input n))).
Proof.
  intros m n.
  apply (sync_digest_identifies_state m n); apply ex_manifest_wf; u_unfold; lia.
Defined.
