(* ===== verification/Auth.v ===== *)
(** * Authentication (src/network/auth.rs)

    The hello messages with which two peers prove that they hold the share's
    secret.  A handshake between honest peers succeeds; an accepted proof is the
    MAC of exactly the roles, the share, the transport identities and the nonces;
    and different transcripts give different MAC inputs. *)

From S2P Require Import Prelude Bytes Encoding External Reference Framing Clock Types.

Definition AUTH_MAGIC : bytes := bs "SBXA".
Definition CLIENT_HELLO_LENGTH : Z := 4 + 2 + 32 + 32 + 32 + 32.
Definition SERVER_HELLO_LENGTH : Z := 4 + 2 + 32 + 32 + 32 + 32 + 32.

(** [put]: copies [value] at the cursor; [None] is the panic of a slice out of
    range. *)
Definition put (value : bytes) (tc : bytes * Z) : option (bytes * Z) :=
  let '(target, cursor) := tc in
  let stop := cursor + blen value in
  if stop <=? blen target
  then Some (take (Z.to_nat cursor) target ++ value ++ drop (Z.to_nat stop) target, stop)
  else None.

Section auth.
Context `{Iroh, Hmac}.

Definition proof (config : ShareConfig) (role : bytes) (client server : EndpointId)
    (nonces : list bytes) : bytes :=
  hmac_sha256 (cfg_share_secret config)
    (bs "syncbox/auth/v1" ++ role ++ cfg_share_id config ++ ep_as_bytes client
     ++ ep_as_bytes server ++ concat nonces).

Definition client_proof (config : ShareConfig) (client server : EndpointId) (nonce : bytes)
    : bytes := proof config (bs "client") client server [nonce].

Definition server_proof (config : ShareConfig) (client server : EndpointId)
    (client_nonce server_nonce : bytes) : bytes :=
  proof config (bs "server") client server [client_nonce; server_nonce].

(** The final buffer, without its cursor. *)
Definition make_client_hello (config : ShareConfig) (client server : EndpointId)
    (nonce : bytes) : option bytes :=
  let output := (repeat nul (Z.to_nat CLIENT_HELLO_LENGTH), 0) in
  output ← put AUTH_MAGIC output;
  output ← put (u16_be PROTOCOL_VERSION) output;
  output ← put (cfg_share_id config) output;
  output ← put (ep_as_bytes client) output;
  output ← put nonce output;
  output ← put (client_proof config client server nonce) output;
  Some output.1.

Definition make_server_hello (config : ShareConfig) (client server : EndpointId)
    (client_nonce server_nonce : bytes) : option bytes :=
  let output := (repeat nul (Z.to_nat SERVER_HELLO_LENGTH), 0) in
  output ← put AUTH_MAGIC output;
  output ← put (u16_be PROTOCOL_VERSION) output;
  output ← put (cfg_share_id config) output;
  output ← put (ep_as_bytes server) output;
  output ← put client_nonce output;
  output ← put server_nonce output;
  output ← put (server_proof config client server client_nonce server_nonce) output;
  Some output.1.

Record ClientHello := {
  ch_share_id : bytes;
  ch_client_id : EndpointId;
  ch_nonce : bytes;
  ch_proof : bytes;
}.

Record ServerHello := {
  sh_share_id : bytes;
  sh_server_id : EndpointId;
  sh_client_nonce : bytes;
  sh_server_nonce : bytes;
  sh_proof : bytes;
}.

Local Notation auth_take := (cursor_take "sync authentication length overflow"
  "sync authentication is truncated").
Local Notation auth_take_app := (cursor_take_app "sync authentication length overflow"
  "sync authentication is truncated").

Definition read_hello_error : string := "unable to read sync authentication".
Definition magic_error : string := "invalid sync authentication magic".
Definition version_error : string := "unsupported sync protocol version".

Definition read_client_hello (recv : bytes) : result (ClientHello * bytes) :=
  '(bytes, recv) ← read_exact CLIENT_HELLO_LENGTH recv read_hello_error;
  '(magic, cursor) ← auth_take 4 bytes 0;
  bail_if (negb (bool_decide (magic = AUTH_MAGIC))) magic_error;;
  '(version, cursor) ← auth_take 2 bytes cursor;
  bail_if (negb (be_value version =? PROTOCOL_VERSION)) version_error;;
  '(share_id, cursor) ← auth_take 32 bytes cursor;
  '(client_bytes, cursor) ← auth_take 32 bytes cursor;
  client_id ← ok_or (ep_from_bytes client_bytes) "invalid sync client endpoint ID";
  '(nonce, cursor) ← auth_take 32 bytes cursor;
  '(proof, cursor) ← auth_take 32 bytes cursor;
  Ok ({| ch_share_id := share_id; ch_client_id := client_id; ch_nonce := nonce;
         ch_proof := proof |}, recv).

Definition read_server_hello (recv : bytes) : result (ServerHello * bytes) :=
  '(bytes, recv) ← read_exact SERVER_HELLO_LENGTH recv read_hello_error;
  '(magic, cursor) ← auth_take 4 bytes 0;
  bail_if (negb (bool_decide (magic = AUTH_MAGIC))) magic_error;;
  '(version, cursor) ← auth_take 2 bytes cursor;
  bail_if (negb (be_value version =? PROTOCOL_VERSION)) version_error;;
  '(share_id, cursor) ← auth_take 32 bytes cursor;
  '(server_bytes, cursor) ← auth_take 32 bytes cursor;
  server_id ← ok_or (ep_from_bytes server_bytes) "invalid sync server endpoint ID";
  '(client_nonce, cursor) ← auth_take 32 bytes cursor;
  '(server_nonce, cursor) ← auth_take 32 bytes cursor;
  '(proof, cursor) ← auth_take 32 bytes cursor;
  Ok ({| sh_share_id := share_id; sh_server_id := server_id; sh_client_nonce := client_nonce;
         sh_server_nonce := server_nonce; sh_proof := proof |}, recv).

Definition validate_client_hello (hello : ClientHello) (config : ShareConfig)
    (transport_client server : EndpointId) : result unit :=
  bail_if (negb (bool_decide (ch_share_id hello = cfg_share_id config))
           || negb (bool_decide (ch_client_id hello = transport_client)))
    "sync client authentication is not bound to its transport identity";;
  bail_if (negb (bool_decide
      (client_proof config (ch_client_id hello) server (ch_nonce hello) = ch_proof hello)))
    "sync client authentication failed".

Definition validate_server_hello (hello : ServerHello) (config : ShareConfig)
    (client transport_server : EndpointId) (expected_client_nonce : bytes) : result unit :=
  bail_if (negb (bool_decide (sh_share_id hello = cfg_share_id config))
           || negb (bool_decide (sh_server_id hello = transport_server))
           || negb (bool_decide (sh_client_nonce hello = expected_client_nonce)))
    "sync server authentication is not bound to its transport identity";;
  bail_if (negb (bool_decide
      (server_proof config client (sh_server_id hello) (sh_client_nonce hello)
         (sh_server_nonce hello) = sh_proof hello)))
    "sync server authentication failed".

(** ** Writing and reading a hello *)

(** Filling a buffer from left to right writes the concatenation. *)
Lemma put_app written room value :
  (length value ≤ length room)%nat →
  put value (written ++ room, blen written) =
    Some ((written ++ value) ++ drop (length value) room, blen (written ++ value)).
Proof.
  intros Hl. unfold put. rewrite !blen_app.
  rewrite (proj2 (Z.leb_le _ _)) by (unfold blen; lia).
  assert (Z.to_nat (blen written) = length written) as -> by (unfold blen; lia).
  assert (Z.to_nat (blen written + blen value) = length written + length value)%nat as ->
    by (unfold blen; lia).
  rewrite take_app_length, <-drop_drop, drop_app_length. by rewrite app_assoc.
Qed.

Lemma make_client_hello_eq config client server nonce :
  length (cfg_share_id config) = 32%nat → length nonce = 32%nat →
  make_client_hello config client server nonce =
    Some (AUTH_MAGIC ++ u16_be PROTOCOL_VERSION ++ cfg_share_id config ++ ep_as_bytes client
          ++ nonce ++ client_proof config client server nonce).
Proof.
  intros Hi Hn. unfold make_client_hello. set (room := repeat nul _).
  assert (Hroom : length room = 134%nat) by done. clearbody room.
  pose proof (length_ep_as_bytes client) as Hc. pose proof (length_u16_be PROTOCOL_VERSION) as Hv.
  assert (Hp : length (client_proof config client server nonce) = 32%nat)
    by apply length_hmac_sha256.
  set (pr := client_proof _ _ _ _) in *.
  change (room, 0) with ([] ++ room, blen (@nil byte)).
  repeat (rewrite put_app by (rewrite ?length_drop, ?Hroom; simpl; lia); cbn [mbind option_bind]).
  cbn [fst]. rewrite !drop_drop. f_equal. rewrite drop_ge, app_nil_r; [|simpl; lia].
  by rewrite <-!app_assoc.
Qed.

Lemma make_server_hello_eq config client server cn sn :
  length (cfg_share_id config) = 32%nat → length cn = 32%nat → length sn = 32%nat →
  make_server_hello config client server cn sn =
    Some (AUTH_MAGIC ++ u16_be PROTOCOL_VERSION ++ cfg_share_id config ++ ep_as_bytes server
          ++ cn ++ sn ++ server_proof config client server cn sn).
Proof.
  intros Hi Hn Hs. unfold make_server_hello. set (room := repeat nul _).
  assert (Hroom : length room = 166%nat) by done. clearbody room.
  pose proof (length_ep_as_bytes server) as Hc. pose proof (length_u16_be PROTOCOL_VERSION) as Hv.
  assert (Hp : length (server_proof config client server cn sn) = 32%nat)
    by apply length_hmac_sha256.
  set (pr := server_proof _ _ _ _ _) in *.
  change (room, 0) with ([] ++ room, blen (@nil byte)).
  repeat (rewrite put_app by (rewrite ?length_drop, ?Hroom; simpl; lia); cbn [mbind option_bind]).
  cbn [fst]. rewrite !drop_drop. f_equal. rewrite drop_ge, app_nil_r; [|simpl; lia].
  by rewrite <-!app_assoc.
Qed.

(** Reads the next field of the message at the cursor [Hc]. *)
Local Ltac take_field Hc Hmax :=
  match goal with
  | |- context [cursor_take _ _ ?n _ _] =>
      let E := fresh "E" in
      apply (auth_take_app _ _ n) in Hc as [E Hc];
        [rewrite E; clear E; cbn [mbind result_bind]|first [reflexivity|unfold blen; lia]|exact Hmax]
  end.

Lemma read_client_hello_app share_id client nonce pr rest :
  length share_id = 32%nat → length nonce = 32%nat → length pr = 32%nat →
  read_client_hello
    ((AUTH_MAGIC ++ u16_be PROTOCOL_VERSION ++ share_id ++ ep_as_bytes client ++ nonce ++ pr)
     ++ rest) =
  Ok ({| ch_share_id := share_id; ch_client_id := client; ch_nonce := nonce; ch_proof := pr |},
      rest).
Proof.
  intros Hi Hn Hp. pose proof (length_ep_as_bytes client) as Hc.
  pose proof (length_u16_be PROTOCOL_VERSION) as Hv.
  set (msg := AUTH_MAGIC ++ _). assert (Hlen : blen msg = CLIENT_HELLO_LENGTH).
  { unfold msg, blen. rewrite !length_app, Hv, Hi, Hc, Hn, Hp. done. }
  unfold read_client_hello. rewrite read_exact_app by done. cbn [mbind result_bind].
  assert (Hmax : blen msg ≤ u64_max) by (rewrite Hlen; by vm_compute).
  assert (Ha : at_cursor msg 0 (AUTH_MAGIC ++ u16_be PROTOCOL_VERSION ++ share_id ++
    ep_as_bytes client ++ nonce ++ pr ++ [])) by (rewrite app_nil_r; apply at_cursor_0).
  clearbody msg.
  take_field Ha Hmax. rewrite bool_decide_true by done. cbn [negb bail_if mbind result_bind].
  take_field Ha Hmax. rewrite u16_be_value by by vm_compute.
  rewrite Z.eqb_refl. cbn [negb bail_if mbind result_bind].
  take_field Ha Hmax. take_field Ha Hmax. rewrite ep_from_as_bytes. cbn [ok_or mbind result_bind].
  take_field Ha Hmax. take_field Ha Hmax. done.
Qed.

Lemma read_server_hello_app share_id server cn sn pr rest :
  length share_id = 32%nat → length cn = 32%nat → length sn = 32%nat → length pr = 32%nat →
  read_server_hello
    ((AUTH_MAGIC ++ u16_be PROTOCOL_VERSION ++ share_id ++ ep_as_bytes server ++ cn ++ sn ++ pr)
     ++ rest) =
  Ok ({| sh_share_id := share_id; sh_server_id := server; sh_client_nonce := cn;
         sh_server_nonce := sn; sh_proof := pr |}, rest).
Proof.
  intros Hi Hn Hs Hp. pose proof (length_ep_as_bytes server) as Hc.
  pose proof (length_u16_be PROTOCOL_VERSION) as Hv.
  set (msg := AUTH_MAGIC ++ _). assert (Hlen : blen msg = SERVER_HELLO_LENGTH).
  { unfold msg, blen. rewrite !length_app, Hv, Hi, Hc, Hn, Hs, Hp. done. }
  unfold read_server_hello. rewrite read_exact_app by done. cbn [mbind result_bind].
  assert (Hmax : blen msg ≤ u64_max) by (rewrite Hlen; by vm_compute).
  assert (Ha : at_cursor msg 0 (AUTH_MAGIC ++ u16_be PROTOCOL_VERSION ++ share_id ++
    ep_as_bytes server ++ cn ++ sn ++ pr ++ [])) by (rewrite app_nil_r; apply at_cursor_0).
  clearbody msg.
  take_field Ha Hmax. rewrite bool_decide_true by done. cbn [negb bail_if mbind result_bind].
  take_field Ha Hmax. rewrite u16_be_value by by vm_compute.
  rewrite Z.eqb_refl. cbn [negb bail_if mbind result_bind].
  take_field Ha Hmax. take_field Ha Hmax. rewrite ep_from_as_bytes. cbn [ok_or mbind result_bind].
  take_field Ha Hmax. take_field Ha Hmax. take_field Ha Hmax. done.
Qed.

(** ** Transcripts *)

(** What a proof vouches for. *)
Inductive transcript :=
| ClientSays (share_id : bytes) (client server : EndpointId) (nonce : bytes)
| ServerSays (share_id : bytes) (client server : EndpointId) (client_nonce server_nonce : bytes).

(** The bytes that are authenticated. *)
Definition transcript_input (t : transcript) : bytes :=
  match t with
  | ClientSays i c s n =>
      bs "syncbox/auth/v1" ++ bs "client" ++ i ++ ep_as_bytes c ++ ep_as_bytes s ++ n
  | ServerSays i c s n m =>
      bs "syncbox/auth/v1" ++ bs "server" ++ i ++ ep_as_bytes c ++ ep_as_bytes s ++ n ++ m
  end.

Definition transcript_wf (t : transcript) : Prop :=
  match t with
  | ClientSays i _ _ n => length i = 32%nat ∧ length n = 32%nat
  | ServerSays i _ _ n m => length i = 32%nat ∧ length n = 32%nat ∧ length m = 32%nat
  end.

Lemma transcript_input_inj t u :
  transcript_wf t → transcript_wf u → transcript_input t = transcript_input u → t = u.
Proof.
  destruct t as [i c s n|i c s n m], u as [i' c' s' n'|i' c' s' n' m'];
    unfold transcript_input, transcript_wf; intros Ht Hu E; try discriminate E.
  - destruct Ht as [Hi Hn], Hu as [Hi' Hn']. do 2 (apply app_inv_head in E).
    apply app_inj_len in E as [-> E]; [|congruence].
    apply app_inj_len in E as [Ec E]; [|by rewrite !length_ep_as_bytes].
    apply app_inj_len in E as [Es ->]; [|by rewrite !length_ep_as_bytes].
    by apply (inj ep_as_bytes) in Ec as ->, Es as ->.
  - destruct Ht as (Hi & Hn & Hm), Hu as (Hi' & Hn' & Hm'). do 2 (apply app_inv_head in E).
    apply app_inj_len in E as [-> E]; [|congruence].
    apply app_inj_len in E as [Ec E]; [|by rewrite !length_ep_as_bytes].
    apply app_inj_len in E as [Es E]; [|by rewrite !length_ep_as_bytes].
    apply app_inj_len in E as [-> ->]; [|congruence].
    by apply (inj ep_as_bytes) in Ec as ->, Es as ->.
Qed.

Lemma client_proof_eq config c s n :
  client_proof config c s n =
    hmac_sha256 (cfg_share_secret config) (transcript_input (ClientSays (cfg_share_id config) c s n)).
Proof. unfold client_proof, proof. simpl. by rewrite app_nil_r. Qed.

Lemma server_proof_eq config c s n m :
  server_proof config c s n m =
    hmac_sha256 (cfg_share_secret config)
      (transcript_input (ServerSays (cfg_share_id config) c s n m)).
Proof. unfold server_proof, proof. simpl. by rewrite app_nil_r. Qed.

(** ** Properties *)

(** C26: the handshake of two peers that hold the same share succeeds: each
    hello fills its buffer exactly, is read back with the rest of the stream
    untouched, and is accepted by the other side. *)
Theorem handshake_completes (config : ShareConfig) (client server : EndpointId)
    (client_nonce server_nonce to_server to_client : bytes)
    (Hi : length (cfg_share_id config) = 32%nat)
    (Hc : length client_nonce = 32%nat) (Hs : length server_nonce = 32%nat) :
  ∃ m1 m2 h1 h2,
    make_client_hello config client server client_nonce = Some m1 ∧
    read_client_hello (m1 ++ to_server) = Ok (h1, to_server) ∧
    validate_client_hello h1 config client server = Ok tt ∧
    make_server_hello config client server (ch_nonce h1) server_nonce = Some m2 ∧
    read_server_hello (m2 ++ to_client) = Ok (h2, to_client) ∧
    validate_server_hello h2 config client server client_nonce = Ok tt.
Proof.
  assert (Hp : ∀ role c s ns, length (proof config role c s ns) = 32%nat)
    by (intros; apply length_hmac_sha256).
  do 4 eexists. split_and!; [by apply make_client_hello_eq| | | | |].
  - apply read_client_hello_app; [done|done|apply Hp].
  - unfold validate_client_hello; simpl. by rewrite !bool_decide_true.
  - by apply make_server_hello_eq.
  - apply read_server_hello_app; [done..|apply Hp].
  - unfold validate_server_hello; simpl. by rewrite !bool_decide_true.
Qed.

Lemma hello_accepted config client server nonce h r :
  (validate_client_hello h config client server = Ok tt ↔
   ch_share_id h = cfg_share_id config ∧ ch_client_id h = client ∧
   ch_proof h = hmac_sha256 (cfg_share_secret config)
     (transcript_input (ClientSays (cfg_share_id config) client server (ch_nonce h)))) ∧
  (validate_server_hello r config client server nonce = Ok tt ↔
   sh_share_id r = cfg_share_id config ∧ sh_server_id r = server ∧ sh_client_nonce r = nonce ∧
   sh_proof r = hmac_sha256 (cfg_share_secret config)
     (transcript_input
        (ServerSays (cfg_share_id config) client server nonce (sh_server_nonce r)))).
Proof.
  unfold validate_client_hello, validate_server_hello.
  rewrite client_proof_eq, server_proof_eq. split; split.
  - intros Hv. res_inv. bool_inv. naive_solver.
  - intros (-> & -> & ->). by rewrite !bool_decide_true.
  - intros Hv. res_inv. bool_inv. naive_solver.
  - intros (-> & -> & -> & ->). by rewrite !bool_decide_true.
Qed.

(** A hello is accepted exactly when it names the share and the transport
    identity of the peer (for the server's, also the client's own nonce) and its
    proof is the MAC, under the share's secret, of the transcript the receiver
    expects. *)
Lemma hello_accepted_iff (config : ShareConfig) (client server : EndpointId)
    (nonce : bytes) (h : ClientHello) (r : ServerHello) :
  (validate_client_hello h config client server = Ok tt ↔
   ch_share_id h = cfg_share_id config ∧ ch_client_id h = client ∧
   ch_proof h = hmac_sha256 (cfg_share_secret config)
     (transcript_input (ClientSays (cfg_share_id config) client server (ch_nonce h)))) ∧
  (validate_server_hello r config client server nonce = Ok tt ↔
   sh_share_id r = cfg_share_id config ∧ sh_server_id r = server ∧ sh_client_nonce r = nonce ∧
   sh_proof r = hmac_sha256 (cfg_share_secret config)
     (transcript_input
        (ServerSays (cfg_share_id config) client server nonce (sh_server_nonce r)))).
Proof. apply hello_accepted. Qed.

(** A hello with this proof is accepted by a holder of [config] as saying [t], for the
    endpoints of the connection and, in a client, for the nonce it sent. *)
Definition accepted_as (config : ShareConfig) (t : transcript) (p : bytes) : Prop :=
  match t with
  | ClientSays i c s n => ∃ h, validate_client_hello h config c s = Ok tt ∧
      ch_share_id h = i ∧ ch_nonce h = n ∧ ch_proof h = p
  | ServerSays i c s n m => ∃ r, validate_server_hello r config c s n = Ok tt ∧
      sh_share_id r = i ∧ sh_server_nonce r = m ∧ sh_proof r = p
  end.

Lemma accepted_as_mac config t p :
  accepted_as config t p → p = hmac_sha256 (cfg_share_secret config) (transcript_input t).
Proof.
  destruct t as [i c s n|i c s n m].
  - intros (h & Hv & <- & <- & <-).
    by apply (hello_accepted config c s [] h (Build_ServerHello [] c [] [] [])) in Hv as (-> & _ & ->).
  - intros (r & Hv & <- & <- & <-).
    by apply (hello_accepted config c s n (Build_ClientHello [] c [] []) r) in Hv as (-> & _ & _ & ->).
Qed.

(** The MAC collides on two different pairs of a secret and a transcript. *)
Definition mac_collision (secret : bytes) (t : transcript) (secret' : bytes) (t' : transcript) : Prop :=
  (secret, transcript_input t) ≠ (secret', transcript_input t') ∧
  hmac_sha256 secret (transcript_input t) = hmac_sha256 secret' (transcript_input t').

Lemma equal_proofs secret t secret' t' :
  transcript_wf t → transcript_wf t' →
  hmac_sha256 secret (transcript_input t) = hmac_sha256 secret' (transcript_input t') →
  (secret = secret' ∧ t = t') ∨ mac_collision secret t secret' t'.
Proof.
  intros Ht Ht' E.
  destruct (decide ((secret, transcript_input t) = (secret', transcript_input t'))) as [Ei|];
    [left|by right]. injection Ei as -> Ei. split; [done|by apply transcript_input_inj].
Qed.

(** C27: a proof is good for one purpose.  When one proof is accepted twice, by holders of
    any two shares and in either role, both accepted it as the same transcript under the
    same secret: as a client's, for the same share, client, server and client nonce; or as a
    server's, for the same share, client, server, client nonce and server nonce; unless
    the MAC collides.  In particular a client's proof is not accepted as a server's. *)
Theorem proof_not_reusable (config config' : ShareConfig) (t t' : transcript) (p : bytes)
    (Ht : transcript_wf t) (Ht' : transcript_wf t')
    (Hp : accepted_as config t p) (Hp' : accepted_as config' t' p) :
  (cfg_share_secret config = cfg_share_secret config' ∧ t = t') ∨
  mac_collision (cfg_share_secret config) t (cfg_share_secret config') t'.
Proof.
  apply accepted_as_mac in Hp, Hp'. apply equal_proofs; [done|done|congruence].
Qed.
End auth.

(** *** Witnesses *)

Import Ref.

Definition ex_config : ShareConfig := {|
  cfg_format_version := 1;
  cfg_share_id := repeat "005"%byte 32;
  cfg_share_secret := repeat "006"%byte 32;
  cfg_name := bs "photos";
  cfg_local_directory := bs "/home/photos";
  cfg_created_at_ms := 0;
  cfg_initial_peers := [];
  cfg_initial_sync_complete := false;
|}.

Lemma handshake_completes_witness :
  let client := endpoint "001" in
  let server := endpoint "002" in
  ∃ m1 m2 h1 h2,
    make_client_hello ex_config client server (repeat "007"%byte 32) = Some m1 ∧
    read_client_hello (m1 ++ bs "x") = Ok (h1, bs "x") ∧
    validate_client_hello h1 ex_config client server = Ok tt ∧
    make_server_hello ex_config client server (ch_nonce h1) (repeat "008"%byte 32) = Some m2 ∧
    read_server_hello (m2 ++ bs "y") = Ok (h2, bs "y") ∧
    validate_server_hello h2 ex_config client server (repeat "007"%byte 32) = Ok tt.
Proof. intros client server. by apply handshake_completes. Defined.

(** The proof of the client's hello of a handshake. *)
Definition ex_says : transcript :=
  ClientSays (cfg_share_id ex_config) (endpoint "001") (endpoint "002") (repeat "007"%byte 32).
Definition ex_proof : bytes :=
  client_proof ex_config (endpoint "001") (endpoint "002") (repeat "007"%byte 32).

Lemma ex_accepted : accepted_as ex_config ex_says ex_proof.
Proof.
  exists {| ch_share_id := cfg_share_id ex_config; ch_client_id := endpoint "001";
            ch_nonce := repeat "007"%byte 32; ch_proof := ex_proof |}.
  split; [vm_compute; reflexivity|done].
Qed.

Lemma proof_not_reusable_witness :
  accepted_as ex_config ex_says ex_proof ∧
  ((cfg_share_secret ex_config = cfg_share_secret ex_config ∧ ex_says = ex_says) ∨
   mac_collision (cfg_share_secret ex_config) ex_says (cfg_share_secret ex_config) ex_says).
Proof.
  split; [exact ex_accepted|].
  exact (proof_not_reusable ex_config ex_config ex_says ex_says ex_proof (conj eq_refl eq_refl)
    (conj eq_refl eq_refl) ex_accepted ex_accepted).
Defined.
