(* ===== verification/Scheduling.v ===== *)
(** * Peer scheduling (src/network/scheduling.rs)

    When a share is scanned, when a peer is tried again, and which of the due
    peers are tried.  Instants and durations are milliseconds. *)

From S2P Require Import Prelude Collections Bytes External Reference.

Definition SYNC_INTERVAL : Z := 5000.
Definition FULL_SCAN_INTERVAL : Z := 60000.
Definition IDLE_PEER_INTERVAL : Z := 30000.
Definition MAX_CONCURRENT_PEERS : Z := 2.

(** [Instant::saturating_duration_since]. *)
Definition elapsed_since (now last : Z) : Z := saturating_sub now last.

Definition scan_due (last_scan : option Z) (now : Z) (watching dirty : bool) : bool :=
  match last_scan with
  | None => true
  | Some last =>
      let elapsed := elapsed_since now last in
      (dirty && (SYNC_INTERVAL <=? elapsed))
      || ((if watching then FULL_SCAN_INTERVAL else SYNC_INTERVAL) <=? elapsed)
  end.

Record PeerSyncOutcome := { ps_pending_downloads : Z; ps_pending_updates : Z }.

Record SyncOutcome := {
  so_connected : bool;
  so_connected_peers : Z;
  so_pending_downloads : Z;
  so_pending_updates : Z;
  so_unsupported_items : Z;
}.

Record PeerSchedule := {
  sch_next_at : option Z;
  sch_last_attempted_generation : Z;
  sch_failures : Z;
  sch_last_outcome : option PeerSyncOutcome;
}.

Definition PeerSchedule_default : PeerSchedule := {|
  sch_next_at := None;
  sch_last_attempted_generation := 0;
  sch_failures := 0;
  sch_last_outcome := None;
|}.

Definition retry_now (s : PeerSchedule) : PeerSchedule := {|
  sch_next_at := None;
  sch_last_attempted_generation := sch_last_attempted_generation s;
  sch_failures := 0;
  sch_last_outcome := sch_last_outcome s;
|}.

Definition due (s : PeerSchedule) (now generation : Z) : bool :=
  negb (generation =? sch_last_attempted_generation s)
  || match sch_next_at s with None => true | Some at_ => at_ <=? now end.

(** The delay after a failed attempt; [jitter] is the random draw below 1000. *)
Definition backoff (failures jitter : Z) : Z :=
  Z.min (SYNC_INTERVAL * Z.shiftl 1 (Z.min failures 3) + jitter) IDLE_PEER_INTERVAL.

Definition after_attempt (s : PeerSchedule) (now generation jitter : Z)
    (outcome : option SyncOutcome) : PeerSchedule :=
  let last_outcome :=
    match outcome with
    | Some o =>
        if so_connected o
        then Some {| ps_pending_downloads := so_pending_downloads o;
                     ps_pending_updates := so_pending_updates o |}
        else None
    | None => None
    end in
  let failed :=
    (backoff (sch_failures s) jitter, saturating_add u32_max (sch_failures s) 1) in
  let '(delay, failures) :=
    match outcome with
    | Some o =>
        if so_connected o
        then (if (0 <? so_pending_downloads o) || (0 <? so_pending_updates o)
              then SYNC_INTERVAL else IDLE_PEER_INTERVAL, 0)
        else failed
    | None => failed
    end in
  {| sch_next_at := Some (now + delay);
     sch_last_attempted_generation := generation;
     sch_failures := failures;
     sch_last_outcome := last_outcome |}.

Inductive InitialSyncStatus := InitialComplete | InitialPending | InitialOffline.

Definition initial_sync_status (o : SyncOutcome) : InitialSyncStatus :=
  if negb (so_connected o) then InitialOffline
  else if (so_pending_downloads o =? 0) && (so_pending_updates o =? 0)
          && (so_unsupported_items o =? 0)
  then InitialComplete else InitialPending.

Section peers.
Context `{Iroh}.
Implicit Types (schedules : gmap EndpointId PeerSchedule) (peer : EndpointId).

Definition SyncOutcome_default : SyncOutcome := {|
  so_connected := false; so_connected_peers := 0; so_pending_downloads := 0;
  so_pending_updates := 0; so_unsupported_items := 0 |}.

Definition summarize_step (summary : SyncOutcome) (o : PeerSyncOutcome) : SyncOutcome := {|
  so_connected := true;
  so_connected_peers := saturating_add u64_max (so_connected_peers summary) 1;
  so_pending_downloads :=
    saturating_add u64_max (so_pending_downloads summary) (ps_pending_downloads o);
  so_pending_updates :=
    saturating_add u64_max (so_pending_updates summary) (ps_pending_updates o);
  so_unsupported_items := so_unsupported_items summary;
|}.

(** The loop over the values of the map, in the order [values] gives. *)
Definition summarize_values (values : list PeerSchedule) : SyncOutcome :=
  foldl summarize_step SyncOutcome_default (omap sch_last_outcome values).

Definition summarize_peer_outcomes schedules : SyncOutcome :=
  summarize_values (map snd (map_to_list schedules)).

(** [schedules.get(&peer).is_none_or(|s| s.due(now, generation))]. *)
Definition peer_due schedules (now generation : Z) peer : bool :=
  match schedules !! peer with None => true | Some s => due s now generation end.

Definition peer_next_at schedules peer : option Z := schedules !! peer ≫= sch_next_at.

(** One of the four slots that hold the peers selected so far. *)
Definition slot : Type := option (option Z * EndpointId).

(** [entry.is_none_or(|(at, _)| next_at < at)]. *)
Definition slot_after (next_at : option Z) (entry : slot) : bool :=
  match entry with None => true | Some (at_, _) => ltb next_at at_ end.

Fixpoint position_where {A} (f : A → bool) (l : list A) : option nat :=
  match l with
  | [] => None
  | x :: l' => if f x then Some 0%nat else S <$> position_where f l'
  end.

(** [slice::rotate_right(1)]. *)
Definition rotate_right {A} (l : list A) : list A :=
  match last l with Some x => x :: removelast l | None => [] end.

Definition select_step schedules (now generation : Z) (selected : list slot) peer
    : list slot :=
  if negb (peer_due schedules now generation peer) then selected
  else
    let next_at := peer_next_at schedules peer in
    match position_where (slot_after next_at) selected with
    | Some position =>
        let rotated := take position selected ++ rotate_right (drop position selected) in
        <[position := Some (next_at, peer)]> rotated
    | None => selected
    end.

Definition select_due_peers (candidates : list EndpointId) schedules (now generation : Z)
    : list EndpointId :=
  if blen candidates <=? 1
  then List.filter (peer_due schedules now generation) candidates
  else
    let selected :=
      foldl (select_step schedules now generation) (repeat None 4) candidates in
    map snd (omap id selected).

(** ** Selection is a bounded stable sort *)

(** [n] slots that hold [l]. *)
Definition slots (n : nat) (l : list (option Z * EndpointId)) : list slot :=
  map Some l ++ repeat None (n - length l).

Definition insert_slot (x : option Z * EndpointId) (selected : list slot) : list slot :=
  match position_where (slot_after x.1) selected with
  | Some position =>
      <[position := Some x]> (take position selected ++ rotate_right (drop position selected))
  | None => selected
  end.

Lemma insert_slot_cons x e l :
  insert_slot x (e :: l) =
    if slot_after x.1 e then Some x :: removelast (e :: l) else e :: insert_slot x l.
Proof.
  unfold insert_slot; simpl position_where. destruct (slot_after x.1 e); simpl.
  - unfold rotate_right. destruct (last (e :: l)) as [y|] eqn:El; [done|].
    by apply last_None in El.
  - by destruct (position_where _ l).
Qed.

Lemma slots_nil n : slots n [] = repeat None n.
Proof. unfold slots; simpl. by rewrite Nat.sub_0_r. Qed.

Lemma removelast_slots n l :
  (length l ≤ S n)%nat → removelast (slots (S n) l) = slots n (take n l).
Proof.
  revert n. induction l as [|x l IH]; intros n Hl.
  - rewrite take_nil. unfold slots; simpl. rewrite Nat.sub_0_r.
    clear Hl. induction n as [|n IH]; [done|]. simpl in *. by rewrite IH.
  - destruct n as [|n].
    + destruct l; [done|simpl in Hl; lia].
    + change (slots (S (S n)) (x :: l)) with (Some x :: slots (S n) l).
      change (slots (S n) (take (S n) (x :: l))) with (Some x :: slots n (take n l)).
      rewrite <-IH by (simpl in Hl; lia).
      assert (slots (S n) l ≠ []).
      { unfold slots. simpl in Hl. destruct l; simpl; [by destruct n|done]. }
      by destruct (slots (S n) l).
Qed.

Lemma insert_slots x n l :
  (length l ≤ n)%nat → insert_slot x (slots n l) = slots n (take n (insert_after fst x l)).
Proof.
  revert n. induction l as [|y l IH]; intros [|n] Hl; try (simpl in Hl; lia).
  - done.
  - pose proof (removelast_slots n [] Hl) as Hr. rewrite take_nil in Hr.
    rewrite !slots_nil in *. simpl repeat in *. rewrite insert_slot_cons. cbn [slot_after].
    etrans; [exact (f_equal (cons (Some x)) Hr)|]. unfold slots. simpl. by rewrite take_nil, Nat.sub_0_r.
  - change (slots (S n) (y :: l)) with (Some y :: slots n l). rewrite insert_slot_cons.
    destruct y as [at_ q]; cbn [insert_after slot_after fst].
    change ((at_, q).1) with at_. destruct (ltb x.1 at_); cbn [take].
    + change (Some (at_, q) :: slots n l) with (slots (S n) ((at_, q) :: l)).
      by rewrite removelast_slots by done.
    + rewrite IH by (simpl in Hl; lia). done.
Qed.

Lemma take_insert_after n x (l : list (option Z * EndpointId)) :
  take n (insert_after fst x (take n l)) = take n (insert_after fst x l).
Proof.
  revert n. induction l as [|y l IH]; intros [|n]; simpl; try done.
  destruct (ltb x.1 y.1); simpl; [|by rewrite IH]. f_equal.
  destruct n; simpl; [done|]. f_equal. rewrite take_take. f_equal. lia.
Qed.

Lemma select_fold schedules now generation ps l :
  foldl (select_step schedules now generation) (slots 4 (take 4 (sort_by fst l))) ps =
  slots 4 (take 4 (sort_by fst (l ++
    map (λ p, (peer_next_at schedules p, p))
      (List.filter (peer_due schedules now generation) ps)))).
Proof.
  revert l. induction ps as [|p ps IH]; intros l; simpl; [by rewrite app_nil_r|].
  unfold select_step at 2. destruct (peer_due schedules now generation p) eqn:Ed; simpl; [|apply IH].
  pose proof (insert_slots (peer_next_at schedules p, p) 4 (take 4 (sort_by fst l))) as Hi.
  unfold insert_slot in Hi; simpl fst in Hi. rewrite Hi by (rewrite length_take; lia).
  rewrite take_insert_after, <-sort_by_snoc, IH. by rewrite <-app_assoc.
Qed.

Lemma omap_slots n l : omap id (slots n l) = l.
Proof.
  unfold slots. generalize (n - length l)%nat as k. intros k.
  induction l as [|x l IH]; [by induction k|]. exact (f_equal (cons x) IH).
Qed.

Lemma select_due_peers_sorted (candidates : list EndpointId) schedules
    (now generation : Z) :
  select_due_peers candidates schedules now generation =
  take 4 (sort_by (peer_next_at schedules)
            (List.filter (peer_due schedules now generation) candidates)).
Proof.
  unfold select_due_peers. destruct (Z.leb_spec (blen candidates) 1) as [Hl|Hl].
  - destruct candidates as [|p [|q l]]; [done| |unfold blen in Hl; simpl in Hl; lia].
    simpl. by destruct (peer_due schedules now generation p).
  - pose proof (select_fold schedules now generation candidates []) as Hf.
    change (slots 4 (take 4 (sort_by fst []))) with (repeat (@None (option Z * EndpointId)) 4) in Hf.
    unfold slot in *. rewrite Hf, omap_slots, app_nil_l, sort_by_map. cbn [fst].
    rewrite <-firstn_map, map_map. simpl. by rewrite map_id.
Qed.

(** ** Properties *)

(** The peers to try are the first four of the due candidates in the order
    of their next attempt, those never tried first, ties in the order of the
    candidates: the four rotating slots are a bounded stable sort. *)
Lemma select_due_peers_spec (candidates : list EndpointId) schedules
    (now generation : Z) :
  select_due_peers candidates schedules now generation =
  take 4 (sort_by (peer_next_at schedules)
            (List.filter (peer_due schedules now generation) candidates)).
Proof. apply select_due_peers_sorted. Qed.
End peers.

(** After an attempt a peer is due again, for the same local generation,
    exactly when a delay between 5 and 30 seconds has passed: 30 seconds when the
    peer was reached and nothing is pending, 5 when something is, and after
    failures a delay that grows from 5 seconds to the cap; a new generation makes
    it due at once, and the failure count stays a 32-bit number. *)
Lemma after_attempt_schedules (s : PeerSchedule) (now generation jitter : Z)
    (outcome : option SyncOutcome)
    (Hj : 0 ≤ jitter < 1000) (Hf : is_u32 (sch_failures s)) :
  let s' := after_attempt s now generation jitter outcome in
  ∃ delay, SYNC_INTERVAL ≤ delay ≤ IDLE_PEER_INTERVAL ∧ is_u32 (sch_failures s') ∧
    (∀ t, due s' t generation = true ↔ now + delay ≤ t) ∧
    (∀ t g, g ≠ generation → due s' t g = true) ∧
    (∀ o, outcome = Some o → so_connected o = true →
       sch_failures s' = 0 ∧
       (delay = IDLE_PEER_INTERVAL ↔
        so_pending_downloads o ≤ 0 ∧ so_pending_updates o ≤ 0)) ∧
    (from_option so_connected false outcome = false →
       delay = backoff (sch_failures s) jitter ∧
       sch_failures s' = Z.min u32_max (sch_failures s + 1)).
Proof.
  assert (Hb : SYNC_INTERVAL ≤ backoff (sch_failures s) jitter ≤ IDLE_PEER_INTERVAL).
  { unfold backoff, SYNC_INTERVAL, IDLE_PEER_INTERVAL. u_unfold.
    assert (1 ≤ Z.shiftl 1 (Z.min (sch_failures s) 3)).
    { rewrite Z.shiftl_1_l. pose proof (Z.pow_pos_nonneg 2 (Z.min (sch_failures s) 3)). lia. }
    lia. }
  assert (Hdue : ∀ s d, sch_next_at s = Some (now + d) →
    sch_last_attempted_generation s = generation →
    (∀ t, due s t generation = true ↔ now + d ≤ t) ∧ (∀ t g, g ≠ generation → due s t g = true)).
  { intros s0 d Hn Hg. unfold due. rewrite Hn, Hg. split.
    - intros t. rewrite Z.eqb_refl; simpl. apply Z.leb_le.
    - intros t g Hne. by rewrite (proj2 (Z.eqb_neq _ _)). }
  assert (Hu : is_u32 (saturating_add u32_max (sch_failures s) 1))
    by (unfold saturating_add; u_unfold; lia).
  intros s'. unfold after_attempt in s'.
  destruct outcome as [o|]; [destruct (so_connected o) eqn:Ec|]; simpl in s'.
  - exists (if (0 <? so_pending_downloads o) || (0 <? so_pending_updates o)
            then SYNC_INTERVAL else IDLE_PEER_INTERVAL).
    destruct (Hdue s' _ eq_refl eq_refl) as [Hd1 Hd2].
    split; [by destruct (_ || _)|]. split; [done|]. split_and!; [done|done| |].
    + intros o' [= <-] _. split; [done|].
      destruct (Z.ltb_spec 0 (so_pending_downloads o)), (Z.ltb_spec 0 (so_pending_updates o));
        simpl; unfold SYNC_INTERVAL, IDLE_PEER_INTERVAL; lia.
    + simpl. congruence.
  - exists (backoff (sch_failures s) jitter). destruct (Hdue s' _ eq_refl eq_refl) as [Hd1 Hd2].
    split; [done|]. split; [done|]. split_and!; [done|done|congruence|done].
  - exists (backoff (sch_failures s) jitter). destruct (Hdue s' _ eq_refl eq_refl) as [Hd1 Hd2].
    split; [done|]. split; [done|]. split_and!; [done|done|congruence|done].
Qed.

(** *** Witnesses *)

Lemma after_attempt_schedules_witness :
  let s' := after_attempt PeerSchedule_default 100 3 250 None in
  ∃ delay, SYNC_INTERVAL ≤ delay ≤ IDLE_PEER_INTERVAL ∧ is_u32 (sch_failures s') ∧
    (∀ t, due s' t 3 = true ↔ 100 + delay ≤ t) ∧
    (∀ t g, g ≠ 3 → due s' t g = true) ∧
    (∀ o, None = Some o → so_connected o = true →
       sch_failures s' = 0 ∧
       (delay = IDLE_PEER_INTERVAL ↔
        so_pending_downloads o ≤ 0 ∧ so_pending_updates o ≤ 0)) ∧
    (from_option so_connected false None = false →
       delay = backoff 0 250 ∧ sch_failures s' = Z.min u32_max (0 + 1)).
Proof.
  apply (after_attempt_schedules PeerSchedule_default 100 3 250 None); [lia|].
  u_unfold; simpl; lia.
Defined.
