(* ===== verification/DataDir.v ===== *)
(** * Directories of the data root ([std::fs] as src/storage/mod.rs uses it)

    The files and the directories by path, with [create_dir_all], [rename] of a
    directory and [remove_dir_all].  [tree_ok] is the shape of a file system: what
    exists has its parents.  The lemmas give the files after each operation. *)

From S2P Require Import Prelude Collections Bytes External Reference Framing Clock Types Peers ManifestPath Manifest Merge Storage.

Record data_dir := {
  dd_files : files;
  dd_dirs : gset bytes;
}.

Definition with_dd_files (d : data_dir) (fs : files) : data_dir :=
  {| dd_files := fs; dd_dirs := dd_dirs d |}.

(** What follows a directory in the path of something below it. *)
Definition below (dir p : bytes) : option bytes := strip_prefix (dir ++ [slash]) p.
Definition inside (dir p : bytes) : bool :=
  bool_decide (p = dir) || match below dir p with Some _ => true | None => false end.

(** The directories a path goes through. *)
Fixpoint parents_from (seen rest : bytes) : list bytes :=
  match rest with
  | [] => []
  | c :: rest' =>
      (if Byte.eqb c slash && negb (bool_decide (seen = [])) then [seen] else [])
      ++ parents_from (seen ++ [c]) rest'
  end.
Definition parents (p : bytes) : list bytes := parents_from [] p.

(** The refusals of the system: a directory it does not create, a mode it does
    not set. *)
Record dir_env := {
  de_mkdir : bytes → bool;
  de_chmod : bytes → bool;
}.

(** Creates the missing directories of a list, up to a failure. *)
Fixpoint mkdirs (d : data_dir) (paths : list bytes) (env : dir_env) : bool * data_dir :=
  match paths with
  | [] => (true, d)
  | p :: ps =>
      if bool_decide (p ∈ dd_dirs d) then mkdirs d ps env
      else if contains_key (dd_files d) p || de_mkdir env p then (false, d)
      else mkdirs {| dd_files := dd_files d; dd_dirs := {[p]} ∪ dd_dirs d |} ps env
  end.

(** [create_secure_dir]: [fs::create_dir_all], then the mode. *)
Definition create_secure_dir (d : data_dir) (path : bytes) (env : dir_env) : result unit * data_dir :=
  match mkdirs d (parents path ++ [path]) env with
  | (false, d') => (Err "unable to create data directory", d')
  | (true, d') => (if de_chmod env path then Err "unable to set permissions" else Ok tt, d')
  end.

Fixpoint create_secure_dirs (d : data_dir) (paths : list bytes) (env : dir_env)
    : result unit * data_dir :=
  match paths with
  | [] => (Ok tt, d)
  | p :: ps =>
      match create_secure_dir d p env with
      | (Ok _, d') => create_secure_dirs d' ps env
      | (Err e, d') => (Err e, d')
      end
  end.

(** [fs::rename] of a directory to a name that is not used. *)
Definition rename_path (from to p : bytes) : bytes :=
  if bool_decide (p = from) then to
  else match below from p with Some rest => to ++ slash :: rest | None => p end.
Definition rename_dir (d : data_dir) (from to : bytes) : data_dir := {|
  dd_files := list_to_map (map (λ '(p, c), (rename_path from to p, c)) (map_to_list (dd_files d)));
  dd_dirs := set_map (rename_path from to) (dd_dirs d) |}.

(** [fs::remove_dir_all]; [kept] is what a failed removal leaves. *)
Definition remove_dir_all (d : data_dir) (dir : bytes) (kept : gset bytes) : data_dir := {|
  dd_files := filter (λ pc, inside dir pc.1 = false ∨ pc.1 ∈ kept) (dd_files d);
  dd_dirs := filter (λ p, inside dir p = false ∨ p ∈ kept) (dd_dirs d) |}.

(** ** The shape of the tree *)

Definition tree_ok (d : data_dir) : Prop :=
  (∀ p, is_Some (dd_files d !! p) → Forall (.∈ dd_dirs d) (parents p)) ∧
  (∀ p, p ∈ dd_dirs d → Forall (.∈ dd_dirs d) (parents p)).

(** Nothing exists at or below a path. *)
Definition vacant (d : data_dir) (dir : bytes) : Prop :=
  ∀ q, inside dir q = true → dd_files d !! q = None ∧ q ∉ dd_dirs d.

Lemma below_Some dir p rest : below dir p = Some rest ↔ p = dir ++ slash :: rest.
Proof. unfold below. rewrite strip_prefix_Some, <-app_assoc. done. Qed.

Lemma inside_true dir p : inside dir p = true ↔ p = dir ∨ ∃ rest, p = dir ++ slash :: rest.
Proof.
  unfold inside. rewrite orb_true_iff, bool_decide_eq_true. apply or_iff_compat_l.
  destruct (below dir p) as [r|] eqn:E.
  - apply below_Some in E. naive_solver.
  - split; [done|]. intros [r Hr%below_Some]. congruence.
Qed.
Lemma inside_refl dir : inside dir dir = true.
Proof. apply inside_true. by left. Qed.
Lemma inside_child dir rest : inside dir (dir ++ slash :: rest) = true.
Proof. apply inside_true. eauto. Qed.
Lemma inside_false dir p : inside dir p = false ↔ p ≠ dir ∧ ∀ rest, p ≠ dir ++ slash :: rest.
Proof. rewrite <-not_true_iff_false, inside_true. naive_solver. Qed.

Lemma parents_from_spec seen rest q :
  q ∈ parents_from seen rest ↔
  q ≠ [] ∧ ∃ a b, q = seen ++ a ∧ rest = a ++ slash :: b.
Proof.
  revert seen. induction rest as [|c rest IH]; intros seen; simpl.
  - rewrite elem_of_nil. split; [done|]. intros (_ & [|x a] & b & _ & Hr); done.
  - rewrite elem_of_app, IH. split.
    + intros [Hq|(Hq & a & b & -> & ->)].
      * destruct (Byte.eqb c slash) eqn:Ec; simpl in Hq; [|by apply elem_of_nil in Hq].
        case_bool_decide as Hs; simpl in Hq; [by apply elem_of_nil in Hq|].
        apply list_elem_of_singleton in Hq as ->. split; [done|]. exists [], rest.
        apply byte_eqb_eq in Ec as ->. by rewrite app_nil_r.
      * split; [done|]. exists (c :: a), b. by rewrite <-app_assoc.
    + intros (Hq & [|c' a] & b & -> & E); simplify_eq/=.
      * left. rewrite app_nil_r in *. rewrite bool_decide_eq_false_2 by done. simpl.
        apply list_elem_of_singleton. done.
      * right. split; [done|]. exists a, b. by rewrite <-app_assoc.
Qed.
Lemma elem_of_parents q p : q ∈ parents p ↔ q ≠ [] ∧ ∃ rest, p = q ++ slash :: rest.
Proof. unfold parents. rewrite parents_from_spec. naive_solver. Qed.

Lemma parents_child dir name q :
  slash ∉ name → q ∈ parents (dir ++ slash :: name) → q = dir ∨ q ∈ parents dir.
Proof.
  rewrite !elem_of_parents. intros Hn [Hq [r E]].
  apply app_eq_app in E as (l & [[-> E]|[-> E]]); destruct l as [|c l]; simplify_eq/=;
    rewrite ?app_nil_r; auto.
  - right. eauto.
  - set_solver.
Qed.

Lemma tree_vacant d dir :
  dir ≠ [] → tree_ok d → dir ∉ dd_dirs d → dd_files d !! dir = None → vacant d dir.
Proof.
  intros Hne [Hf Hd] Hnd Hnf q [->|[rest ->]]%inside_true; [done|].
  assert (dir ∈ parents (dir ++ slash :: rest)) as Hp by (apply elem_of_parents; eauto).
  split.
  - apply eq_None_not_Some. intros Hs%Hf. rewrite Forall_forall in Hs. by apply Hnd, Hs.
  - intros Hs%Hd. rewrite Forall_forall in Hs. by apply Hnd, Hs.
Qed.

Lemma inside_trans dir q p : inside dir q = true → inside q p = true → inside dir p = true.
Proof.
  rewrite !inside_true. intros [->|[r ->]] [->|[r' ->]]; [by left|by right; eauto..|].
  right. exists (r ++ slash :: r'). by rewrite <-app_assoc.
Qed.
Lemma inside_length dir p : inside dir p = true → (length dir ≤ length p)%nat.
Proof. intros [->|[r ->]]%inside_true; [done|]. rewrite length_app. lia. Qed.

(** ** Creating directories *)

Lemma mkdirs_files d ps env : dd_files (mkdirs d ps env).2 = dd_files d.
Proof.
  revert d. induction ps as [|p ps IH]; intros d; simpl; [done|].
  case_bool_decide; [apply IH|]. destruct (_ || _); [done|]. by rewrite IH.
Qed.

Lemma mkdirs_dirs d ps env q :
  q ∈ dd_dirs (mkdirs d ps env).2 → q ∈ dd_dirs d ∨ q ∈ ps.
Proof.
  revert d. induction ps as [|p ps IH]; intros d; simpl; [by left|].
  case_bool_decide; [intros [?|?]%IH; set_solver|]. destruct (_ || _); [by left|].
  intros [Hq|?]%IH; simpl in *; set_solver.
Qed.
Lemma mkdirs_mono d ps env : dd_dirs d ⊆ dd_dirs (mkdirs d ps env).2.
Proof.
  revert d. induction ps as [|p ps IH]; intros d; simpl; [done|].
  case_bool_decide; [apply IH|]. destruct (_ || _); [done|].
  etrans; [|apply IH]. simpl. set_solver.
Qed.
Lemma mkdirs_done d ps env d' : mkdirs d ps env = (true, d') → Forall (.∈ dd_dirs d') ps.
Proof.
  revert d. induction ps as [|p ps IH]; intros d; simpl; [constructor|].
  case_bool_decide as Hp.
  - intros E. constructor; [|by eapply IH]. pose proof (mkdirs_mono d ps env) as Hm.
    rewrite E in Hm. by apply Hm.
  - destruct (_ || _); [done|]. intros E. constructor; [|by eapply IH].
    pose proof (mkdirs_mono {| dd_files := dd_files d; dd_dirs := {[p]} ∪ dd_dirs d |} ps env) as Hm.
    rewrite E in Hm. apply Hm. simpl. set_solver.
Qed.

(** Directories are created from the top, so the tree keeps its shape. *)
Lemma mkdirs_tree d made ps env :
  tree_ok d → Forall (.∈ dd_dirs d) made →
  (∀ l p r, ps = l ++ p :: r → parents p ⊆ made ++ l) → tree_ok (mkdirs d ps env).2.
Proof.
  revert d made. induction ps as [|p ps IH]; intros d made Ht Hd Hps; simpl; [done|].
  assert (Hnext : ∀ l q r, ps = l ++ q :: r → parents q ⊆ (made ++ [p]) ++ l).
  { intros l q r ->. rewrite <-app_assoc. by apply (Hps (p :: l) q r). }
  case_bool_decide as Hp.
  - apply (IH d (made ++ [p])); [done| |done]. apply Forall_app. by repeat constructor.
  - destruct (_ || _); [done|]. apply (IH _ (made ++ [p])); [| |done]; simpl.
    + destruct Ht as [Hf Hdirs]. split; simpl.
      * intros q Hq. eapply Forall_impl; [by apply Hf|]. set_solver.
      * intros q [->%elem_of_singleton|Hq]%elem_of_union.
        -- apply Forall_forall. intros x Hx. pose proof (Hps [] p ps eq_refl x Hx) as Hin.
           rewrite app_nil_r in Hin. rewrite Forall_forall in Hd. set_solver.
        -- eapply Forall_impl; [by apply Hdirs|]. set_solver.
    + apply Forall_app. split; [eapply Forall_impl; [exact Hd|]; set_solver|].
      repeat constructor. set_solver.
Qed.

Lemma elem_of_parents_snoc q seen c :
  q ∈ parents (seen ++ [c]) → q ∈ parents seen ∨ (c = slash ∧ q = seen ∧ seen ≠ []).
Proof.
  rewrite !elem_of_parents. intros [Hq [rest E]].
  destruct rest as [|x rest' _] using rev_ind.
  - apply app_inj_tail in E as [-> ->]. auto.
  - rewrite app_comm_cons, app_assoc in E. apply app_inj_tail in E as [-> _]. eauto.
Qed.

Lemma parents_from_prefix seen rest l p r q :
  parents_from seen rest = l ++ p :: r → q ∈ parents p → q ∈ parents seen ∨ q ∈ l.
Proof.
  revert seen l. induction rest as [|c rest IH]; intros seen l; simpl; [by destruct l|].
  destruct (Byte.eqb c slash && negb (bool_decide (seen = []))) eqn:Ec; simpl.
  - destruct l as [|x l]; simpl; intros [= E0 E]; [subst p; by left|]. intros Hq.
    destruct (IH (seen ++ [c]) l E Hq) as [[?|(_ & ? & _)]%elem_of_parents_snoc|?]; subst; set_solver.
  - intros E Hq. destruct (IH (seen ++ [c]) l E Hq)
      as [[?|(-> & -> & Hs)]%elem_of_parents_snoc|?]; [by left| |by right].
    by rewrite bool_decide_eq_false_2 in Ec.
Qed.

Lemma create_secure_dir_files d p env : dd_files (create_secure_dir d p env).2 = dd_files d.
Proof.
  pose proof (mkdirs_files d (parents p ++ [p]) env) as Hf. unfold create_secure_dir.
  by destruct (mkdirs _ _ _) as [[] ?].
Qed.

Lemma create_secure_dir_tree d p env : tree_ok d → tree_ok (create_secure_dir d p env).2.
Proof.
  intros Ht. assert (tree_ok (mkdirs d (parents p ++ [p]) env).2) as Hm;
    [|unfold create_secure_dir; by destruct (mkdirs _ _ _) as [[] ?]].
  apply (mkdirs_tree d []); [done|constructor|].
  intros l q r E. simpl. intros x Hx.
  destruct r as [|y r' _] using rev_ind.
  - apply app_inj_tail in E as [<- <-]. done.
  - rewrite app_comm_cons, app_assoc in E. apply app_inj_tail in E as [E _].
    destruct (parents_from_prefix [] p l q r' x E Hx) as [Hn|]; [|done].
    apply elem_of_nil in Hn as [].
Qed.

Lemma create_secure_dirs_files d ps env : dd_files (create_secure_dirs d ps env).2 = dd_files d.
Proof.
  revert d. induction ps as [|p ps IH]; intros d; simpl; [done|].
  pose proof (create_secure_dir_files d p env) as Hf.
  destruct (create_secure_dir d p env) as [[?|?] d']; simpl in *; [|done]. by rewrite IH.
Qed.

Lemma create_secure_dirs_tree d ps env : tree_ok d → tree_ok (create_secure_dirs d ps env).2.
Proof.
  revert d. induction ps as [|p ps IH]; intros d Ht; simpl; [done|].
  pose proof (create_secure_dir_tree d p env Ht) as Hf.
  destruct (create_secure_dir d p env) as [[?|?] d']; simpl in *; auto.
Qed.

(** Only the directories asked for and their parents are created. *)
Lemma create_secure_dirs_dirs d ps env q :
  q ∈ dd_dirs (create_secure_dirs d ps env).2 →
  q ∈ dd_dirs d ∨ ∃ p, p ∈ ps ∧ inside q p = true.
Proof.
  revert d. induction ps as [|p ps IH]; intros d; simpl; [by left|].
  assert (Hone : q ∈ dd_dirs (create_secure_dir d p env).2 → q ∈ dd_dirs d ∨ inside q p = true).
  { pose proof (mkdirs_dirs d (parents p ++ [p]) env q) as Hm. unfold create_secure_dir.
    intros Hq. destruct Hm as [?|[[_ Hp]%elem_of_parents|Hp%list_elem_of_singleton]%elem_of_app].
    - by destruct (mkdirs _ _ _) as [[] ?].
    - by left.
    - right. apply inside_true. by right.
    - right. subst. apply inside_refl. }
  destruct (create_secure_dir d p env) as [[?|?] d']; simpl in *.
  - intros [Hq|(x & Hx & Hi)]%IH; [destruct (Hone Hq); [by left|]|]; right; set_solver.
  - intros Hq. destruct (Hone Hq); [by left|]. right. set_solver.
Qed.

Lemma create_secure_dirs_mono d ps env : dd_dirs d ⊆ dd_dirs (create_secure_dirs d ps env).2.
Proof.
  revert d. induction ps as [|p ps IH]; intros d; simpl; [done|].
  assert (dd_dirs d ⊆ dd_dirs (create_secure_dir d p env).2) as Hs.
  { pose proof (mkdirs_mono d (parents p ++ [p]) env). unfold create_secure_dir.
    by destruct (mkdirs _ _ _) as [[] ?]. }
  destruct (create_secure_dir d p env) as [[?|?] d']; simpl in *; [|done]. by etrans; [|apply IH].
Qed.

Lemma create_secure_dirs_Ok d ps env d' :
  create_secure_dirs d ps env = (Ok tt, d') → Forall (.∈ dd_dirs d') ps.
Proof.
  revert d. induction ps as [|p ps IH]; intros d; simpl; [constructor|].
  destruct (create_secure_dir d p env) as [[?|?] d1] eqn:E; [|done]. intros E'.
  constructor; [|by eapply IH]. pose proof (create_secure_dirs_mono d1 ps env) as Hm.
  rewrite E' in Hm. apply Hm. unfold create_secure_dir in E.
  destruct (mkdirs _ _ _) as [[] d2] eqn:Em; [|done]. injection E as _ <-.
  apply mkdirs_done in Em. apply Forall_app in Em as [_ Em]. by inversion Em.
Qed.

(** ** Renaming *)

Section rename.
Context (d : data_dir) (from to : bytes).
Context (Hvacant : vacant d to) (Hout : inside from to = false) (Hin : inside to from = false).

Lemma rename_path_inside p : inside from p = true → ∃ rest,
  p = from ++ rest ∧ rename_path from to p = to ++ rest ∧ (rest = [] ∨ ∃ r, rest = slash :: r).
Proof using.
  intros [->|[r ->]]%inside_true; unfold rename_path.
  - exists []. rewrite !app_nil_r, bool_decide_eq_true_2 by done. auto.
  - exists (slash :: r). rewrite bool_decide_eq_false_2.
    + rewrite (proj2 (below_Some from _ r)) by done. eauto.
    + intros E%(f_equal length). rewrite length_app in E. simpl in E. lia.
Qed.
Lemma rename_path_outside p : inside from p = false → rename_path from to p = p.
Proof using.
  unfold rename_path, inside. rewrite orb_false_iff. intros [-> Hb]. by destruct (below from p).
Qed.

Lemma rename_path_inj p q :
  inside to p = false → inside to q = false →
  rename_path from to p = rename_path from to q → p = q.
Proof using.
  intros Hp Hq. destruct (inside from p) eqn:Ep; destruct (inside from q) eqn:Eq.
  - destruct (rename_path_inside p Ep) as (r & -> & -> & _).
    destruct (rename_path_inside q Eq) as (r' & -> & -> & _). by intros <-%app_inv_head.
  - destruct (rename_path_inside p Ep) as (r & -> & -> & Hr). rewrite (rename_path_outside q Eq).
    intros <-. apply inside_false in Hq as [H1 H2]. destruct Hr as [->|[r' ->]].
    + by rewrite app_nil_r in H1.
    + by destruct (H2 r').
  - destruct (rename_path_inside q Eq) as (r & -> & -> & Hr). rewrite (rename_path_outside p Ep).
    intros ->. apply inside_false in Hp as [H1 H2]. destruct Hr as [->|[r' ->]].
    + by rewrite app_nil_r in H1.
    + by destruct (H2 r').
  - by rewrite !rename_path_outside.
Qed.

Lemma existing_outside p : is_Some (dd_files d !! p) ∨ p ∈ dd_dirs d → inside to p = false.
Proof using Hvacant.
  intros Hp. apply not_true_iff_false. intros [Hf Hd]%Hvacant.
  destruct Hp as [[? Hp]|Hp]; [congruence|done].
Qed.

Lemma lookup_rename q c :
  dd_files (rename_dir d from to) !! q = Some c ↔
  ∃ p, rename_path from to p = q ∧ dd_files d !! p = Some c.
Proof using Hvacant.
  simpl. rewrite <-elem_of_list_to_map.
  - rewrite list_elem_of_In, in_map_iff. split.
    + intros ([p x] & [= <- ->] & Hp%list_elem_of_In%elem_of_map_to_list). eauto.
    + intros (p & <- & Hp). exists (p, c). split; [done|].
      by apply list_elem_of_In, elem_of_map_to_list.
  - change (map ?f ?l) with (f <$> l). rewrite <-list_fmap_compose.
    apply NoDup_fmap_2_strong; [|apply NoDup_map_to_list].
    intros [p x] [p' x'] Hp%elem_of_map_to_list Hp'%elem_of_map_to_list; simpl. intros E.
    apply rename_path_inj in E as ->; [|apply existing_outside; eauto..]. congruence.
Qed.

(** What the new name holds, and what the rest does. *)
Lemma lookup_rename_inside rest :
  rest = [] ∨ (∃ r, rest = slash :: r) →
  dd_files (rename_dir d from to) !! (to ++ rest) = dd_files d !! (from ++ rest).
Proof using Hvacant.
  intros Hr.
  assert (inside from (from ++ rest) = true ∧ inside to (to ++ rest) = true) as [Hi Ho].
  { destruct Hr as [->|[r ->]]; [rewrite !app_nil_r|]; split; auto using inside_refl, inside_child. }
  apply option_eq. intros c. rewrite lookup_rename. split.
  - intros (p & Hp & Hc). destruct (inside from p) eqn:Ep.
    + destruct (rename_path_inside p Ep) as (r' & -> & E & _). rewrite E in Hp.
      by apply app_inv_head in Hp as <-.
    + rewrite rename_path_outside in Hp by done. subst p.
      destruct (Hvacant _ Ho) as [? _]. congruence.
  - intros Hc. exists (from ++ rest). split; [|done].
    destruct (rename_path_inside _ Hi) as (r' & E & -> & _). by apply app_inv_head in E as <-.
Qed.

Lemma lookup_rename_outside q :
  inside from q = false → inside to q = false →
  dd_files (rename_dir d from to) !! q = dd_files d !! q.
Proof using Hvacant.
  intros Hf Ht. apply option_eq. intros c. rewrite lookup_rename. split.
  - intros (p & Hp & Hc). destruct (inside from p) eqn:Ep.
    + destruct (rename_path_inside p Ep) as (r' & -> & E & Hr). rewrite E in Hp. subst q.
      apply inside_false in Ht as [H1 H2]. destruct Hr as [->|[r ->]];
        [by rewrite app_nil_r in H1|by destruct (H2 r)].
    + by rewrite rename_path_outside in Hp by done; subst q.
  - intros Hc. exists q. by rewrite rename_path_outside.
Qed.

Lemma rename_inside_inside p : inside from p = true → inside to (rename_path from to p) = true.
Proof using.
  intros (r & -> & -> & [->|[r' ->]])%rename_path_inside;
    rewrite ?app_nil_r; auto using inside_refl, inside_child.
Qed.

(** Nothing is left under the old name. *)
Lemma inside_apart q : inside from q = true → inside to q = false.
Proof using Hout Hin.
  clear Hvacant.  rewrite inside_false. intros Hq.
  assert (∀ r, q = to ++ r → r = [] ∨ (∃ r', r = slash :: r') → False) as Hno.
  { intros r E Hr.
    assert (Hq' : ∃ s, q = from ++ s ∧ (s = [] ∨ ∃ s', s = slash :: s')).
    { apply inside_true in Hq as [->|[s ->]]; [exists []; rewrite app_nil_r; auto|eauto]. }
    destruct Hq' as (s & E' & Hs). rewrite E in E'.
    apply app_eq_app in E' as (l & [[-> ->]|[-> ->]]).
    - destruct l as [|c l]; [rewrite app_nil_r, inside_refl in Hout; done|].
      destruct Hs as [?|[s' [= -> _]]]; [done|]. by rewrite inside_child in Hout.
    - destruct l as [|c l]; [rewrite app_nil_r, inside_refl in Hin; done|].
      destruct Hr as [?|[s' [= -> _]]]; [done|]. by rewrite inside_child in Hin. }
  split; [intros ->; apply (Hno []); rewrite ?app_nil_r; auto|].
  intros r ->. apply (Hno (slash :: r)); eauto.
Qed.

Lemma rename_vacant : vacant (rename_dir d from to) from.
Proof using Hvacant Hout Hin.
  intros q Hq. assert (∀ p, rename_path from to p ≠ q) as Hno.
  { intros p <-. destruct (inside from p) eqn:Ep.
    - apply rename_inside_inside in Ep. by rewrite inside_apart in Ep.
    - rewrite rename_path_outside in Hq; congruence. }
  split.
  - apply eq_None_not_Some. intros [c (p & Hp & _)%lookup_rename]. by apply (Hno p).
  - simpl. intros (p & Hp & _)%elem_of_map. by apply (Hno p).
Qed.

Lemma rename_dirs_outside q :
  inside from q = false → inside to q = false →
  q ∈ dd_dirs (rename_dir d from to) ↔ q ∈ dd_dirs d.
Proof using.
  intros Hf Ht. simpl. rewrite elem_of_map. split.
  - intros (p & -> & Hp). destruct (inside from p) eqn:Ep.
    + apply rename_inside_inside in Ep. congruence.
    + by rewrite rename_path_outside.
  - intros Hq. exists q. by rewrite rename_path_outside.
Qed.
Lemma rename_dirs_inside rest :
  rest = [] ∨ (∃ r, rest = slash :: r) → from ++ rest ∈ dd_dirs d →
  to ++ rest ∈ dd_dirs (rename_dir d from to).
Proof using.
  intros Hr Hd. simpl. apply elem_of_map. exists (from ++ rest). split; [|done].
  assert (inside from (from ++ rest) = true) as Hi.
  { destruct Hr as [->|[r ->]]; [rewrite !app_nil_r|]; auto using inside_refl, inside_child. }
  destruct (rename_path_inside _ Hi) as (r' & E & -> & _). by apply app_inv_head in E as <-.
Qed.
End rename.

(** ** Removing *)

Lemma lookup_remove_outside d dir kept q :
  inside dir q = false → dd_files (remove_dir_all d dir kept) !! q = dd_files d !! q.
Proof.
  intros Hq. simpl. apply option_eq. intros c. rewrite map_lookup_filter_Some. simpl. naive_solver.
Qed.
Lemma remove_dirs_outside d dir kept q :
  inside dir q = false → q ∈ dd_dirs (remove_dir_all d dir kept) ↔ q ∈ dd_dirs d.
Proof. intros Hq. simpl. rewrite elem_of_filter. naive_solver. Qed.
Lemma remove_dir_all_vacant d dir : vacant (remove_dir_all d dir ∅) dir.
Proof.
  intros q Hq. simpl. split.
  - apply map_lookup_filter_None. right. intros c _. simpl. rewrite Hq. set_solver.
  - rewrite elem_of_filter, Hq. set_solver.
Qed.
Lemma remove_vacant d dir dir' kept : vacant d dir' → vacant (remove_dir_all d dir kept) dir'.
Proof.
  intros Hv q [Hf Hd]%Hv. simpl. split.
  - apply map_lookup_filter_None. by left.
  - rewrite elem_of_filter. naive_solver.
Qed.

(** The shape of a concrete tree. *)
Definition tree_okb (d : data_dir) : bool :=
  forallb (λ p, forallb (λ q, bool_decide (q ∈ dd_dirs d)) (parents p))
    (elements (dd_dirs d) ++ map fst (map_to_list (dd_files d))).
Lemma tree_okb_ok d : tree_okb d = true → tree_ok d.
Proof.
  unfold tree_okb. rewrite forallb_forall. intros Hall.
  assert (Hp : ∀ p, In p (elements (dd_dirs d) ++ map fst (map_to_list (dd_files d))) →
    Forall (.∈ dd_dirs d) (parents p)).
  { intros p Hin%Hall. rewrite forallb_forall in Hin. apply Forall_forall.
    intros q Hq%list_elem_of_In%Hin. by apply bool_decide_eq_true in Hq. }
  split; intros p Hx; apply Hp, in_app_iff; [right|left].
  - destruct Hx as [c Hc]. apply in_map_iff. exists (p, c). split; [done|].
    by apply list_elem_of_In, elem_of_map_to_list.
  - by apply list_elem_of_In, elem_of_elements.
Qed.
