(* ===== verification/Shares.v ===== *)
(** * Registered shares (src/storage/mod.rs, src/storage/locks.rs)

    The data directory with its sub-directories: [create_share_state] builds a share
    in a staging directory and publishes it with one rename, [remove_share_state]
    unregisters it with one rename before deleting its files, [list_share_ids]
    lists what is registered.  Whatever fails, a share is registered in full or not
    at all, and no other share is touched.  The identity key is stored beside them. *)

From S2P Require Import Prelude Collections Bytes External Reference Framing Clock Types Peers ManifestPath Manifest Merge Storage DataDir.

Section layout.
Context `{HexCodec}.
Implicit Types (root share_id nonce : bytes).

(** [DataPaths::discover] on Unix; [override_path] is [SYNCBOX_DATA_DIR]. *)
Definition discover (override_path : option bytes) : result bytes :=
  match override_path with
  | Some root =>
      bail_if (negb (is_absolute root)) "SYNCBOX_DATA_DIR must be an absolute path";; Ok root
  | None => Ok (bs "/var/lib/syncbox")
  end.

Definition identity_dir root : bytes := path_push root (bs "identity").
Definition identity_key root : bytes := path_push (identity_dir root) (bs "device.key").
Definition locks_dir root : bytes := path_push root (bs "locks").
Definition share_lock root share_id : bytes :=
  path_push (locks_dir root) (share_id_to_string share_id ++ bs ".lock").
Definition registry_lock root : bytes := path_push (locks_dir root) (bs "registry.lock").
Definition identity_lock root : bytes := path_push (locks_dir root) (bs "identity.lock").
Definition device_run_lock root : bytes := path_push (locks_dir root) (bs "device-run.lock").

(** [.{share_id}-{pid}-{random}.tmp] and [.removed]; [nonce] is the last two. *)
Definition staging_dir root share_id nonce : bytes :=
  path_push (shares_dir root) ([dot] ++ share_id_to_string share_id ++ bs "-" ++ nonce ++ bs ".tmp").
Definition removed_dir root share_id nonce : bytes :=
  path_push (shares_dir root)
    ([dot] ++ share_id_to_string share_id ++ bs "-" ++ nonce ++ bs ".removed").

Definition ensure_layout (d : data_dir) root (env : dir_env) : result unit * data_dir :=
  create_secure_dirs d [root; identity_dir root; shares_dir root; locks_dir root] env.

(** ** Lock files *)

(** The file is created if it is missing, never truncated. *)
Definition open_lock_file (d : data_dir) (path : bytes) : data_dir :=
  with_dd_files d (if contains_key (dd_files d) path then dd_files d else <[path := []]> (dd_files d)).

Definition create_lock_file (d : data_dir) (path : bytes) (fails : bool) : result unit * data_dir :=
  if fails then (Err "unable to create lock file", d) else (Ok tt, open_lock_file d path).

(** What the system answers about an advisory lock. *)
Inductive lock_answer := LockFree | LockHeld | LockFault.

(** [acquire_lock] waits while another process holds it, so only a fault stops it. *)
Definition acquire_lock (d : data_dir) (path : bytes) (opens : bool) (answer : lock_answer)
    : result unit * data_dir :=
  if opens then
    (match answer with LockFault => Err "unable to lock" | _ => Ok tt end, open_lock_file d path)
  else (Err "unable to open lock file", d).

Definition try_acquire_lock (d : data_dir) (path : bytes) (opens : bool) (answer : lock_answer)
    : result bool * data_dir :=
  if opens then
    (match answer with
     | LockFree => Ok true
     | LockHeld => Ok false
     | LockFault => Err "unable to lock"
     end, open_lock_file d path)
  else (Err "unable to open lock file", d).

Definition share_lock_is_held (d : data_dir) root share_id (opens : bool) (answer : lock_answer)
    : result bool :=
  if contains_key (dd_files d) (share_lock root share_id) then
    bail_if (negb opens) "unable to open lock file";;
    match answer with
    | LockFree => Ok false
    | LockHeld => Ok true
    | LockFault => Err "unable to inspect lock file"
    end
  else Ok false.

(** [ensure_layout] before the lock, as every [acquire_*_lock] of [DataPaths]. *)
Definition acquire_after_layout (d : data_dir) root (path : bytes) (env : dir_env) (opens : bool)
    (answer : lock_answer) : result unit * data_dir :=
  match ensure_layout d root env with
  | (Err e, d) => (Err e, d)
  | (Ok _, d) => acquire_lock d path opens answer
  end.
Definition try_acquire_after_layout (d : data_dir) root (path : bytes) (env : dir_env)
    (opens : bool) (answer : lock_answer) : result bool * data_dir :=
  match ensure_layout d root env with
  | (Err e, d) => (Err e, d)
  | (Ok _, d) => try_acquire_lock d path opens answer
  end.

Definition ensure_share_layout (d : data_dir) root share_id (env : dir_env) (lock_fails : bool)
    : result unit * data_dir :=
  match ensure_layout d root env with
  | (Err e, d) => (Err e, d)
  | (Ok _, d) =>
      match create_secure_dirs d [share_dir root share_id; share_tmp_dir root share_id] env with
      | (Err e, d) => (Err e, d)
      | (Ok _, d) => create_lock_file d (share_lock root share_id) lock_fails
      end
  end.

(** ** Listing *)

(** The names of the directories directly in [dir]; [readable] is whether the system
    lists it. *)
Definition dir_names (d : data_dir) (dir : bytes) : list bytes :=
  omap (λ p, match below dir p with
             | Some name => if contains slash name then None else Some name
             | None => None
             end) (elements (dd_dirs d)).

Definition list_share_ids (d : data_dir) root (readable : bool) : result (list bytes) :=
  let directory := shares_dir root in
  if bool_decide (directory ∈ dd_dirs d) then
    bail_if (negb readable) "unable to list registered shares";;
    Ok (sort_by id (omap (λ name, if is_utf8 name then result_ok (share_id_parse name) else None)
                      (dir_names d directory)))
  else if contains_key (dd_files d) directory
  then Err "registered shares path is not a directory"
  else Ok [].

Definition share_exists (d : data_dir) root share_id : bool :=
  bool_decide (share_dir root share_id ∈ dd_dirs d).
End layout.

(** ** Creating a share *)

Section create.
Context `{HexCodec, Iroh} `{!JsonState ShareConfig} `{!JsonState Manifest}
  `{!JsonState ClockState} `{!JsonState KnownPeers} `{!JsonState RuntimeStatus}.
Implicit Types (root share_id : bytes).

(** What the system does during the creation: refused directories, the random part
    of the staging name, the five writes, which of the last steps fail and what the
    clean-up leaves. *)
Record create_env := {
  ce_dirs : dir_env;
  ce_nonce : bytes;
  ce_config : write_env;
  ce_manifest : write_env;
  ce_clock : write_env;
  ce_peers : write_env;
  ce_runtime : write_env;
  ce_rename_fails : bool;
  ce_sync_fails : bool;
  ce_lock_fails : bool;
  ce_cleanup_left : gset bytes;
}.

(** Runs [k] on the directory after a write, unless it failed. *)
Definition then_write (d : data_dir) (w : result unit * files)
    (k : data_dir → result unit * data_dir) : result unit * data_dir :=
  match w with
  | (Err e, fs) => (Err e, with_dd_files d fs)
  | (Ok _, fs) => k (with_dd_files d fs)
  end.

(** The closure of [create_share_state]: the five files, then the publication. *)
Definition write_share (d : data_dir) root (staging target : bytes) (config : ShareConfig)
    (manifest : Manifest) (clock : ClockState) (peers : KnownPeers) (runtime : RuntimeStatus)
    (env : create_env) : result unit * data_dir :=
  then_write d (atomic_write_json (dd_files d) staging (bs "config.json") config (ce_config env)) (λ d,
  then_write d (atomic_write_json (dd_files d) staging (bs "manifest.json") manifest (ce_manifest env)) (λ d,
  then_write d (atomic_write_json (dd_files d) staging (bs "clock.json") clock (ce_clock env)) (λ d,
  then_write d (atomic_write_json (dd_files d) staging (bs "known_peers.json") peers (ce_peers env)) (λ d,
  then_write d (atomic_write_json (dd_files d) staging (bs "runtime-status.json") runtime (ce_runtime env)) (λ d,
    if ce_rename_fails env then (Err "unable to publish registered share directory", d)
    else
      let d := rename_dir d staging target in
      if ce_sync_fails env then (Err "unable to flush state directory", d)
      else create_lock_file d (share_lock root (cfg_share_id config)) (ce_lock_fails env)))))).

Definition create_share_state (d : data_dir) root (config : ShareConfig) (manifest : Manifest)
    (clock : ClockState) (peers : KnownPeers) (runtime : RuntimeStatus) (env : create_env)
    : result unit * data_dir :=
  let share_id := cfg_share_id config in
  match (ShareConfig_validate config share_id;; Manifest_validate manifest share_id;;
         ClockState_validate clock;; KnownPeers_validate peers;; RuntimeStatus_validate runtime) with
  | Err e => (Err e, d)
  | Ok _ =>
      match ensure_layout d root (ce_dirs env) with
      | (Err e, d) => (Err e, d)
      | (Ok _, d) =>
          let target := share_dir root share_id in
          if bool_decide (target ∈ dd_dirs d) || contains_key (dd_files d) target
          then (Err "registered share directory already exists", d)
          else
            let staging := staging_dir root share_id (ce_nonce env) in
            match create_secure_dirs d [staging; path_push staging (bs "tmp")] (ce_dirs env) with
            | (Err e, d) => (Err e, d)
            | (Ok _, d) =>
                match write_share d root staging target config manifest clock peers runtime env with
                | (Ok _, d) => (Ok tt, d)
                | (Err e, d) =>
                    (Err e, remove_dir_all d staging (ce_cleanup_left env))
                end
            end
      end
  end.

(** ** Removing a share *)

(** The random part of the new name, which step fails, and what a failed removal
    left of the directory. *)
Record remove_env := {
  re_nonce : bytes;
  re_rename_fails : bool;
  re_sync_fails : bool;
  re_leftover : option (gset bytes);
  re_last_sync_fails : bool;
}.

Definition remove_share_state (d : data_dir) root share_id (env : remove_env)
    : result unit * data_dir :=
  let shares := shares_dir root in
  let target := path_push shares (share_id_to_string share_id) in
  if negb (bool_decide (root ∈ dd_dirs d)) then (Err "Syncbox data root is not a directory", d)
  else if negb (bool_decide (shares ∈ dd_dirs d))
  then (Err "registered shares path is not a directory", d)
  else if negb (bool_decide (target ∈ dd_dirs d))
  then (Err "registered share path is not a directory", d)
  else if re_rename_fails env then (Err "unable to unregister share directory", d)
  else
    let removed := removed_dir root share_id (re_nonce env) in
    let d := rename_dir d target removed in
    if re_sync_fails env then (Err "unable to flush state directory", d)
    else match re_leftover env with
         | Some leftover =>
             (Err "unable to remove unregistered share state", remove_dir_all d removed leftover)
         | None =>
             let d := remove_dir_all d removed ∅ in
             (if re_last_sync_fails env then Err "unable to flush state directory" else Ok tt, d)
         end.
End create.

(** ** The identity key *)

Section identity.
Implicit Types root : bytes.

Definition load_identity_bytes (d : data_dir) root : result (option bytes) :=
  match dd_files d !! identity_key root with
  | None =>
      bail_if (bool_decide (identity_key root ∈ dd_dirs d)) "is not a regular file";; Ok None
  | Some _ =>
      data ← read_bounded (dd_files d) (identity_key root) IDENTITY_KEY_BYTES;
      bail_if (negb (blen data =? IDENTITY_KEY_BYTES))
        "device identity file is malformed; expected exactly 32 bytes";;
      Ok (Some data)
  end.

(** [atomic_write] of the 32 bytes, after the layout. *)
Definition save_identity_bytes (d : data_dir) root (key : bytes) (dirs : dir_env)
    (env : write_env) : result unit * data_dir :=
  match ensure_layout d root dirs with
  | (Err e, d) => (Err e, d)
  | (Ok _, d) =>
      let '(_, r, fs) := atomic_write_with (dd_files d) (identity_dir root) (bs "device.key")
        (we_nonce env) (we_cut env key) (we_fault env) in
      (r, with_dd_files d fs)
  end.

(** [identity::load_or_create] under the identity lock; [generated] is the new key. *)
Definition load_or_create (d : data_dir) root (generated : bytes) (dirs : dir_env) (opens : bool)
    (answer : lock_answer) (env : write_env) : result bytes * data_dir :=
  match acquire_after_layout d root (identity_lock root) dirs opens answer with
  | (Err e, d) => (Err e, d)
  | (Ok _, d) =>
      match load_identity_bytes d root with
      | Err e => (Err e, d)
      | Ok (Some key) => (Ok key, d)
      | Ok None =>
          match save_identity_bytes d root generated dirs env with
          | (Err e, d) => (Err e, d)
          | (Ok _, d) => (Ok generated, d)
          end
      end
  end.

Definition load_existing (d : data_dir) root : result (option bytes) := load_identity_bytes d root.
End identity.

(** ** Paths of the layout *)

Lemma path_push_join dir name c :
  last dir = Some c → c ≠ slash → is_absolute name = false →
  path_push dir name = dir ++ slash :: name.
Proof.
  intros Hl Hc Hn. unfold path_push. rewrite Hn, Hl. by rewrite (proj2 (byte_eqb_neq c slash)).
Qed.

Lemma last_path_push dir name c : last name = Some c → last (path_push dir name) = Some c.
Proof.
  intros Hl. unfold path_push. destruct (is_absolute name); [done|].
  destruct (last dir) as [b|]; [destruct (Byte.eqb b slash)|];
    rewrite last_app, ?last_cons, Hl; done.
Qed.

Section paths.
Context `{HexCodec}.
Implicit Types (root share_id nonce name : bytes).

Lemma shares_push root name :
  is_absolute name = false → path_push (shares_dir root) name = shares_dir root ++ slash :: name.
Proof. intros Hn. by apply (path_push_join _ _ "s"%byte); [apply last_path_push|..]. Qed.

Lemma hex_digit_plain c : is_lower_hex c = true → c ≠ slash ∧ c ≠ dot.
Proof. intros Hc. split; intros ->; discriminate Hc. Qed.

Lemma share_name_plain share_id c : c ∈ share_id_to_string share_id → c ≠ slash ∧ c ≠ dot.
Proof.
  intros Hc. apply hex_digit_plain. pose proof (hex_encode_lower share_id) as Hl.
  rewrite forallb_forall in Hl. by apply Hl, list_elem_of_In.
Qed.

Lemma share_name_relative share_id : is_absolute (share_id_to_string share_id) = false.
Proof.
  pose proof (share_name_plain share_id) as Hp. unfold is_absolute.
  destruct (share_id_to_string share_id) as [|c s]; [done|]. simpl.
  apply byte_eqb_neq. apply Hp. set_solver.
Qed.

Lemma lock_name_relative share_id : is_absolute (share_id_to_string share_id ++ bs ".lock") = false.
Proof.
  pose proof (share_name_relative share_id) as Hr. by destruct (share_id_to_string share_id).
Qed.

Lemma share_dir_eq root share_id :
  share_dir root share_id = shares_dir root ++ slash :: share_id_to_string share_id.
Proof. apply shares_push, share_name_relative. Qed.
Lemma dotted_apart root share_id name :
  head name = Some dot →
  let S := shares_dir root in
  inside (share_dir root share_id) (S ++ slash :: name) = false ∧
  inside (S ++ slash :: name) (share_dir root share_id) = false.
Proof.
  intros Hd. simpl. rewrite share_dir_eq, !inside_false.
  pose proof (share_name_plain share_id) as Hp.
  destruct name as [|c name]; [done|]. injection Hd as ->.
  assert (Hno : ∀ r, dot :: name ≠ share_id_to_string share_id ++ r ∨
    head r ≠ Some slash ∧ r ≠ []).
  { intros r. destruct (share_id_to_string share_id) as [|x h]; simpl.
    - destruct r as [|y r]; [by left|]. destruct (decide (y = dot)) as [->|Hy];
        [right; split; done|left; congruence].
    - left. intros [= <- _]. destruct (Hp dot); set_solver. }
  split_and!.
  - intros E%app_inv_head. injection E as E. destruct (Hno []) as [Hn|[_ Hn]]; [|done].
    by rewrite app_nil_r in Hn.
  - intros r E. rewrite <-app_assoc in E. apply app_inv_head in E. simpl in E. injection E as E.
    destruct (Hno (slash :: r)) as [Hn|[Hn _]]; done.
  - intros E%app_inv_head. injection E as E. destruct (Hp dot); [rewrite E|]; set_solver.
  - intros r E. rewrite <-app_assoc in E. apply app_inv_head in E. simpl in E. injection E as E.
    destruct (Hp dot); [rewrite E|]; set_solver.
Qed.

Lemma shares_apart root share_id other q :
  is_array 32 share_id → is_array 32 other → other ≠ share_id →
  inside (share_dir root other) q = true → inside (share_dir root share_id) q = false.
Proof.
  intros H1 H2 Hne Hq. apply inside_false. rewrite !share_dir_eq in *.
  assert (Hl : ∀ id, is_array 32 id → length (share_id_to_string id) = 64%nat).
  { intros id Hid. unfold share_id_to_string. by rewrite length_hex_encode, Hid. }
  assert (Hno : ∀ r r', share_id_to_string other ++ r ≠ share_id_to_string share_id ++ r').
  { intros r r' E. apply app_inj_1 in E as [E _]; [|by rewrite !Hl].
    apply Hne. unfold share_id_to_string in E. apply (f_equal hex_decode) in E.
    rewrite !hex_decode_encode in E. congruence. }
  apply inside_true in Hq as [->|[r ->]]; split.
  - intros E%app_inv_head. injection E as E. apply (Hno [] []). by rewrite !app_nil_r.
  - intros r E. rewrite <-app_assoc in E. apply app_inv_head in E. simpl in E. injection E as E.
    apply (Hno [] (slash :: r)). by rewrite app_nil_r.
  - intros E. rewrite <-app_assoc in E. apply app_inv_head in E. simpl in E. injection E as E.
    apply (Hno (slash :: r) []). by rewrite app_nil_r.
  - intros r' E. rewrite <-!app_assoc in E. apply app_inv_head in E. simpl in E. injection E as E.
    by apply (Hno (slash :: r) (slash :: r')).
Qed.

Lemma locks_apart root name x :
  is_absolute name = false →
  inside (shares_dir root ++ slash :: x) (path_push (locks_dir root) name) = false.
Proof.
  intros Hn. rewrite (path_push_join _ _ "s"%byte) by (by try apply last_path_push).
  assert (Hno : ∀ y z, path_push root (bs "locks") ++ y ≠ path_push root (bs "shares") ++ z).
  { intros y z. unfold path_push.
    change (is_absolute (bs "locks")) with false. change (is_absolute (bs "shares")) with false.
    destruct (last root) as [b|]; [destruct (Byte.eqb b slash)|];
      rewrite <-!app_assoc; intros E%app_inv_head; discriminate E. }
  apply inside_false. split; [apply Hno|]. intros r E. rewrite <-app_assoc in E. by apply Hno in E.
Qed.
End paths.

(** ** Publishing a share *)

Definition only_below (dir : bytes) (fs fs' : files) : Prop :=
  ∀ q, inside dir q = false → fs' !! q = fs !! q.

Section publish.
Context `{HexCodec, Iroh} `{!JsonState ShareConfig} `{!JsonState Manifest}
  `{!JsonState ClockState} `{!JsonState KnownPeers} `{!JsonState RuntimeStatus}.
Implicit Types (root share_id staging target : bytes).

(** The texts of the five state files, by name. *)
Definition state_texts (config : ShareConfig) (manifest : Manifest) (clock : ClockState)
    (peers : KnownPeers) (runtime : RuntimeStatus) : option files :=
  match to_vec config, to_vec manifest, to_vec clock, to_vec peers, to_vec runtime with
  | Some c, Some m, Some k, Some p, Some r =>
      let nl : bytes := ["010"%byte] in
      Some (<[bs "runtime-status.json" := r ++ nl]> (<[bs "known_peers.json" := p ++ nl]>
           (<[bs "clock.json" := k ++ nl]> (<[bs "manifest.json" := m ++ nl]>
           {[bs "config.json" := c ++ nl]}))))
  | _, _, _, _, _ => None
  end.

(** The share is there with exactly those files. *)
Definition published (d : data_dir) target (texts : files) : Prop :=
  target ∈ dd_dirs d ∧ target ++ slash :: bs "tmp" ∈ dd_dirs d ∧ dd_files d !! target = None ∧
  ∀ rest, dd_files d !! (target ++ slash :: rest) = texts !! rest.

Definition all_cut (env : create_env) : Prop :=
  cuts (ce_config env) ∧ cuts (ce_manifest env) ∧ cuts (ce_clock env) ∧ cuts (ce_peers env) ∧
  cuts (ce_runtime env).

Lemma only_below_refl dir fs : only_below dir fs fs.
Proof. by intros q Hq. Qed.
Lemma only_below_trans dir fs1 fs2 fs3 :
  only_below dir fs1 fs2 → only_below dir fs2 fs3 → only_below dir fs1 fs3.
Proof. intros Ha Hb q Hq. by rewrite Hb, Ha. Qed.

Section writes.
Context (staging : bytes) (c0 : byte) (Hlast : last staging = Some c0) (Hc0 : c0 ≠ slash).

Lemma staged_push name : is_absolute name = false → path_push staging name = staging ++ slash :: name.
Proof using Hlast Hc0. by apply (path_push_join _ _ c0). Qed.

Lemma staged_write {T} `{!JsonState T} fs name (v : T) env :
  is_absolute name = false → only_below staging fs (atomic_write_json fs staging name v env).2.
Proof using Hlast Hc0.
  intros Hn q Hq. apply inside_false in Hq as [_ Hq].
  apply atomic_write_json_others; [done|rewrite staged_push by done; apply Hq|].
  unfold temporary_path. rewrite staged_push by done. apply Hq.
Qed.

(** One write of the closure: a failure ends it with the files outside unchanged. *)
Lemma then_write_staged {T} `{!JsonState T} d0 d name (v : T) env k
    (P : result unit * data_dir → Prop) :
  is_absolute name = false → cuts env → only_below staging (dd_files d0) (dd_files d) →
  (∀ e fs, only_below staging (dd_files d0) fs → P (Err e, with_dd_files d fs)) →
  (∀ b fs, to_vec v = Some b → only_below staging (dd_files d0) fs →
     (∀ q, fs !! q = <[staging ++ slash :: name := b ++ ["010"%byte]]> (dd_files d) !! q) →
     P (k (with_dd_files d fs))) →
  P (then_write d (atomic_write_json (dd_files d) staging name v env) k).
Proof using Hlast Hc0.
  intros Hn Hc Ho Herr Hok.
  pose proof (staged_write (dd_files d) name v env Hn) as Hw.
  destruct (atomic_write_json (dd_files d) staging name v env) as [[[]|e] fs] eqn:E; simpl in *.
  - apply atomic_write_json_Ok in E as (b & Hb & Hp & Hq); [|done|done].
    rewrite staged_push in Hp, Hq by done.
    apply (Hok b); [done|by eapply only_below_trans|].
    intros q. destruct (decide (q = staging ++ slash :: name)) as [->|Hne].
    + by rewrite lookup_insert_eq.
    + rewrite lookup_insert_ne by done. by apply Hq.
  - apply Herr. by eapply only_below_trans.
Qed.
End writes.

(** What the closure leaves: nothing published, or the whole share. *)
Definition closure_outcome (d : data_dir) root staging target (config : ShareConfig)
    (texts : option files) (out : result unit * data_dir) : Prop :=
  (∃ e fs, out = (Err e, with_dd_files d fs) ∧ only_below staging (dd_files d) fs) ∨
  (∃ t, texts = Some t ∧ published out.2 target t ∧ vacant out.2 staging ∧
     (∀ q, inside staging q = false → inside target q = false →
        (q ≠ share_lock root (cfg_share_id config) → dd_files out.2 !! q = dd_files d !! q) ∧
        (q ∈ dd_dirs out.2 ↔ q ∈ dd_dirs d)) ∧
     (out.1 = Ok tt → is_Some (dd_files out.2 !! share_lock root (cfg_share_id config)))).

Lemma published_rename d staging target texts :
  vacant d target → inside staging target = false → inside target staging = false →
  staging ∈ dd_dirs d → staging ++ slash :: bs "tmp" ∈ dd_dirs d → dd_files d !! staging = None →
  (∀ rest, dd_files d !! (staging ++ slash :: rest) = texts !! rest) →
  published (rename_dir d staging target) target texts.
Proof.
  intros Hv H1 H2 Hs Ht Hn Htx. unfold published. split_and!.
  - pose proof (rename_dirs_inside d staging target [] (or_introl eq_refl)) as Hd.
    rewrite !app_nil_r in Hd. by apply Hd.
  - apply rename_dirs_inside; [eauto|done].
  - pose proof (lookup_rename_inside d staging target Hv [] (or_introl eq_refl)) as Hf.
    rewrite !app_nil_r in Hf. by rewrite Hf.
  - intros rest. rewrite lookup_rename_inside by eauto. apply Htx.
Qed.

Lemma open_lock_published d target texts path :
  inside target path = false → published d target texts → published (open_lock_file d path) target texts.
Proof.
  intros Hi (H1 & H2 & H3 & H4). apply inside_false in Hi as [Hi1 Hi2].
  unfold published, open_lock_file. simpl. split_and!; [done|done| |].
  - destruct (contains_key _ _); [done|]. by rewrite lookup_insert_ne.
  - intros rest. destruct (contains_key _ _); [done|]. rewrite lookup_insert_ne; [done|].
    intros E. by apply (Hi2 rest).
Qed.

Lemma open_lock_file_lookup d path q : q ≠ path → dd_files (open_lock_file d path) !! q = dd_files d !! q.
Proof. intros Hq. simpl. destruct (contains_key _ _); [done|]. by rewrite lookup_insert_ne. Qed.
Lemma open_lock_file_is_Some d path : is_Some (dd_files (open_lock_file d path) !! path).
Proof.
  simpl. destruct (contains_key (dd_files d) path) eqn:E; [|rewrite lookup_insert_eq; eauto].
  unfold contains_key in E. destruct (dd_files d !! path); [eauto|done].
Qed.
Lemma open_lock_vacant d path dir : inside dir path = false → vacant d dir → vacant (open_lock_file d path) dir.
Proof.
  intros Hi Hv q Hq. destruct (Hv q Hq) as [Hf Hd]. split; [|done].
  rewrite open_lock_file_lookup; [done|]. intros ->. congruence.
Qed.

(** The files of [staging] in one state of the closure. *)
Definition staged (fs : files) staging (texts : files) : Prop :=
  fs !! staging = None ∧ ∀ rest, fs !! (staging ++ slash :: rest) = texts !! rest.

Lemma staged_insert fs fs' staging texts name (x : bytes) :
  staged fs staging texts →
  (∀ q, fs' !! q = <[staging ++ slash :: name := x]> fs !! q) →
  staged fs' staging (<[name := x]> texts).
Proof.
  intros [Hn Ht] Hq. split.
  - rewrite Hq, lookup_insert_ne; [done|]. intros E%(f_equal length).
    rewrite length_app in E. simpl in E. lia.
  - intros rest. rewrite Hq. destruct (decide (rest = name)) as [->|Hne].
    + by rewrite !lookup_insert_eq.
    + rewrite !lookup_insert_ne; [apply Ht|done|]. intros E%app_inv_head. congruence.
Qed.

Lemma write_share_outcome d root staging target (c0 : byte) config manifest clock peers runtime env :
  last staging = Some c0 → c0 ≠ slash → all_cut env →
  vacant d target → inside staging target = false → inside target staging = false →
  inside target (share_lock root (cfg_share_id config)) = false →
  inside staging (share_lock root (cfg_share_id config)) = false →
  staging ∈ dd_dirs d → staging ++ slash :: bs "tmp" ∈ dd_dirs d →
  (∀ q, inside staging q = true → dd_files d !! q = None) →
  closure_outcome d root staging target config (state_texts config manifest clock peers runtime)
    (write_share d root staging target config manifest clock peers runtime env).
Proof.
  intros Hl Hc0 (Hk1 & Hk2 & Hk3 & Hk4 & Hk5) Hv H1 H2 Hlk1 Hlk2 Hs Ht Hempty. unfold write_share.
  assert (Hstop : ∀ e fs, only_below staging (dd_files d) fs →
    closure_outcome d root staging target config (state_texts config manifest clock peers runtime)
      (Err e, with_dd_files d fs)) by (left; eauto).
  apply (then_write_staged staging c0 Hl Hc0 d); [done|done|apply only_below_refl|by auto|].
  intros b1 fs1 Hb1 Ho1 Hq1.
  apply (then_write_staged staging c0 Hl Hc0 d); [done|done|done|by auto|]. intros b2 fs2 Hb2 Ho2 Hq2.
  apply (then_write_staged staging c0 Hl Hc0 d); [done|done|done|by auto|]. intros b3 fs3 Hb3 Ho3 Hq3.
  apply (then_write_staged staging c0 Hl Hc0 d); [done|done|done|by auto|]. intros b4 fs4 Hb4 Ho4 Hq4.
  apply (then_write_staged staging c0 Hl Hc0 d); [done|done|done|by auto|]. intros b5 fs5 Hb5 Ho5 Hq5.
  destruct (ce_rename_fails env); [apply Hstop; exact Ho5|].
  right. unfold state_texts. rewrite Hb1, Hb2, Hb3, Hb4, Hb5. eexists. split; [done|].
  simpl in Hq2, Hq3, Hq4, Hq5.
  assert (Hst : staged (dd_files d) staging ∅).
  { split; [apply Hempty, inside_refl|]. intros rest. rewrite Hempty by apply inside_child. done. }
  eapply staged_insert in Hst; [|exact Hq1]. eapply staged_insert in Hst; [|exact Hq2].
  eapply staged_insert in Hst; [|exact Hq3]. eapply staged_insert in Hst; [|exact Hq4].
  eapply staged_insert in Hst; [|exact Hq5]. destruct Hst as [Hst1 Hst2].
  match goal with |- context [rename_dir ?x _ _] => set (d5 := x) end.
  assert (Hv5 : vacant d5 target).
  { intros q Hq. destruct (Hv q Hq) as [Hf Hd]. split; [|exact Hd]. simpl. rewrite <-Hf. apply Ho5.
    by apply (inside_apart target staging). }
  pose proof (published_rename d5 staging target _ Hv5 H1 H2 Hs Ht Hst1 Hst2) as Hp.
  pose proof (rename_vacant d5 staging target Hv5 H1 H2) as Hrv.
  assert (Hout : ∀ q, inside staging q = false → inside target q = false →
    dd_files (rename_dir d5 staging target) !! q = dd_files d !! q ∧
    (q ∈ dd_dirs (rename_dir d5 staging target) ↔ q ∈ dd_dirs d)).
  { intros q Hq Hq'. split; [rewrite lookup_rename_outside by done; by apply Ho5|].
    by rewrite rename_dirs_outside. }
  destruct (ce_sync_fails env).
  { simpl. split_and!; [exact Hp|exact Hrv| |done]. intros q Hq Hq'. split; [|by apply Hout].
    intros _. by apply Hout. }
  unfold create_lock_file. destruct (ce_lock_fails env).
  { split_and!; [exact Hp|exact Hrv| |done]. intros q Hq Hq'. split; [|by apply Hout].
    intros _. by apply Hout. }
  split_and!.
  - by apply open_lock_published.
  - by apply open_lock_vacant.
  - intros q Hq Hq'. split; [|by apply Hout]. intros Hne.
    etrans; [by apply open_lock_file_lookup|]. by apply Hout.
  - intros _. apply open_lock_file_is_Some.
Qed.

(** ** Registration *)

Lemma share_dir_longer root id p :
  is_array 32 id → p ∈ [root; identity_dir root; shares_dir root; locks_dir root] →
  (length p < length (share_dir root id))%nat.
Proof.
  intros Hid Hp. rewrite share_dir_eq, length_app. simpl.
  replace (length (share_id_to_string id)) with 64%nat
    by (unfold share_id_to_string; rewrite length_hex_encode, Hid; done).
  assert (Hl : ∀ n, is_absolute n = false →
    (length root + length n ≤ length (path_push root n) ≤ length root + S (length n))%nat).
  { intros n Hn. unfold path_push. rewrite Hn.
    destruct (last root) as [b|]; [destruct (Byte.eqb b slash)|]; rewrite length_app; simpl; lia. }
  pose proof (Hl (bs "shares") eq_refl). pose proof (Hl (bs "identity") eq_refl).
  pose proof (Hl (bs "locks") eq_refl). simpl length in *.
  repeat (apply elem_of_cons in Hp as [->|Hp]); [..|by apply elem_of_nil in Hp];
    unfold identity_dir, shares_dir, locks_dir in *; simpl length in *; lia.
Qed.

(** The layout creates nothing in a share. *)
Lemma ensure_layout_in_share d root id env q :
  is_array 32 id → inside (share_dir root id) q = true →
  q ∈ dd_dirs (ensure_layout d root env).2 ↔ q ∈ dd_dirs d.
Proof.
  intros Hid Hq. split; [|apply create_secure_dirs_mono].
  intros [?|(p & Hp & Hi)]%create_secure_dirs_dirs; [done|].
  apply (share_dir_longer root id p Hid) in Hp. apply inside_length in Hi, Hq. lia.
Qed.

Lemma staging_facts root id id' nonce :
  let staging := staging_dir root id' nonce in
  staging = shares_dir root ++ slash ::
    ([dot] ++ share_id_to_string id' ++ bs "-" ++ nonce ++ bs ".tmp") ∧
  last staging = Some "p"%byte ∧
  inside (share_dir root id) staging = false ∧ inside staging (share_dir root id) = false.
Proof.
  set (name := [dot] ++ share_id_to_string id' ++ bs "-" ++ nonce ++ bs ".tmp").
  assert (staging_dir root id' nonce = shares_dir root ++ slash :: name) as -> by by apply shares_push.
  split; [done|]. split; [|by apply dotted_apart].
  subst name. rewrite !app_comm_cons, !app_assoc, last_app. done.
Qed.

Lemma staging_apart root id' nonce id q :
  inside (share_dir root id) q = true → inside (staging_dir root id' nonce) q = false.
Proof. destruct (staging_facts root id id' nonce) as (_ & _ & ? & ?). by apply inside_apart. Qed.

Lemma removed_apart root id' nonce :
  (∃ name, removed_dir root id' nonce = shares_dir root ++ slash :: name) ∧
  ∀ id q, inside (share_dir root id) q = true → inside (removed_dir root id' nonce) q = false.
Proof.
  set (name := [dot] ++ share_id_to_string id' ++ bs "-" ++ nonce ++ bs ".removed").
  assert (removed_dir root id' nonce = shares_dir root ++ slash :: name) as -> by by apply shares_push.
  split; [eauto|]. intros id q. destruct (dotted_apart root id name eq_refl) as [? ?].
  by apply inside_apart.
Qed.

Lemma share_lock_apart root id id' : inside (share_dir root id) (share_lock root id') = false.
Proof. rewrite share_dir_eq. apply locks_apart, lock_name_relative. Qed.

Lemma staging_in_share d root id id' nonce env q :
  inside (share_dir root id) q = true →
  let staging := staging_dir root id' nonce in
  q ∈ dd_dirs (create_secure_dirs d [staging; path_push staging (bs "tmp")] env).2 ↔ q ∈ dd_dirs d.
Proof.
  intros Hq staging. split; [|apply create_secure_dirs_mono].
  intros [?|(p & Hp & Hi)]%create_secure_dirs_dirs; [done|].
  pose proof (inside_trans _ _ _ Hq Hi) as Hs.
  destruct (staging_facts root id id' nonce) as (_ & Hl & H1 & H2).
  rewrite (inside_apart staging (share_dir root id) H2 H1) in Hs; [done|].
  repeat (apply elem_of_cons in Hp as [->|Hp]); [apply inside_refl| |by apply elem_of_nil in Hp].
  rewrite (staged_push staging "p"%byte) by done. apply inside_child.
Qed.

(** What a registration leaves in the share's directory: the new share in full where
    there was none, or what was there. *)
Definition registered_or_as_before (d d' : data_dir) target (texts : option files) : Prop :=
  (vacant d target ∧ ∃ t, texts = Some t ∧ published d' target t) ∨
  (∀ q, inside target q = true → dd_files d' !! q = dd_files d !! q ∧ (q ∈ dd_dirs d' ↔ q ∈ dd_dirs d)).

(** The steps before the closure change no file and no share. *)
Definition quiet root (d d' : data_dir) : Prop :=
  dd_files d' = dd_files d ∧
  ∀ id q, is_array 32 id → inside (share_dir root id) q = true → q ∈ dd_dirs d' ↔ q ∈ dd_dirs d.

Lemma ensure_layout_quiet d root env : quiet root d (ensure_layout d root env).2.
Proof. split; [apply create_secure_dirs_files|]. intros id q. apply ensure_layout_in_share. Qed.

Lemma staging_quiet d root id nonce env :
  let staging := staging_dir root id nonce in
  quiet root d (create_secure_dirs d [staging; path_push staging (bs "tmp")] env).2.
Proof.
  intros staging. split; [apply create_secure_dirs_files|]. intros id' q _. apply staging_in_share.
Qed.

Lemma quiet_trans root d1 d2 d3 : quiet root d1 d2 → quiet root d2 d3 → quiet root d1 d3.
Proof.
  intros [Hf Hd] [Hf' Hd']. split; [congruence|]. intros id q Hid Hq. by rewrite Hd', Hd.
Qed.

Lemma quiet_exists root d d' other :
  quiet root d d' → is_array 32 other → share_exists d' root other = share_exists d root other.
Proof.
  intros [_ Hd] Ho. unfold share_exists. apply bool_decide_ext, (Hd other); [done|apply inside_refl].
Qed.

(** The statement about a result of [create_share_state]. *)
Definition create_outcome (d : data_dir) root share_id staging (texts : option files)
    (out : result unit * data_dir) : Prop :=
  registered_or_as_before d out.2 (share_dir root share_id) texts ∧
  (out.1 = Ok tt → (∃ t, texts = Some t ∧ published out.2 (share_dir root share_id) t) ∧
     is_Some (dd_files out.2 !! share_lock root share_id)) ∧
  (∀ q, inside (share_dir root share_id) q = false → inside staging q = false →
     q ≠ share_lock root share_id → dd_files out.2 !! q = dd_files d !! q) ∧
  (∀ other, is_array 32 other → other ≠ share_id →
     share_exists out.2 root other = share_exists d root other).

Lemma quiet_outcome d d' root share_id staging texts e :
  is_array 32 share_id → quiet root d d' → create_outcome d root share_id staging texts (Err e, d').
Proof.
  intros Hid Hq. pose proof Hq as [Hf Hd]. unfold create_outcome. simpl. split_and!.
  - right. intros q Hi. rewrite Hf. split; [done|]. by apply (Hd share_id).
  - done.
  - intros q _ _ _. by rewrite Hf.
  - intros other Ho _. by apply quiet_exists.
Qed.

(** The clean-up of the staging directory changes nothing of that. *)
Lemma cleanup_outcome (d d' : data_dir) root share_id staging texts e kept :
  (∀ id q, inside (share_dir root id) q = true → inside staging q = false) →
  create_outcome d root share_id staging texts (Err e, d') →
  create_outcome d root share_id staging texts (Err e, remove_dir_all d' staging kept).
Proof.
  intros Hin (Ha & _ & Hc & Hd). unfold create_outcome. simpl fst. simpl snd in *. split_and!.
  - destruct Ha as [[Hv (t & Ht & Hp1 & Hp2 & Hp3 & Hp4)]|Ha].
    + left. split; [done|]. exists t. split; [done|].
      split_and!; rewrite ?remove_dirs_outside, ?lookup_remove_outside;
        eauto using inside_refl, inside_child.
      intros rest. rewrite lookup_remove_outside; eauto using inside_child.
    + right. intros q Hq. rewrite lookup_remove_outside, remove_dirs_outside by eauto. by apply Ha.
  - done.
  - intros q Hq Hs Hl. rewrite lookup_remove_outside by done. by apply Hc.
  - intros other Ho Hne. rewrite <-Hd by done. unfold share_exists. apply bool_decide_ext.
    rewrite remove_dirs_outside; [done|]. eapply Hin, inside_refl.
Qed.

(** The closure, after the quiet steps. *)
Lemma closure_create_outcome (d d' : data_dir) root config staging texts out :
  is_array 32 (cfg_share_id config) → quiet root d d' →
  (∀ id q, inside (share_dir root id) q = true → inside staging q = false) →
  vacant d' (share_dir root (cfg_share_id config)) →
  closure_outcome d' root staging (share_dir root (cfg_share_id config)) config texts out →
  create_outcome d root (cfg_share_id config) staging texts out.
Proof.
  set (share_id := cfg_share_id config). set (target := share_dir root share_id).
  intros Hid Hquiet Hin Hv. pose proof Hquiet as [Hf Hd].
  intros [(e & fs & -> & Ho)|(t & -> & Hp & Hvs & Hrest & Hlock)]; unfold create_outcome.
  - simpl. split_and!; [right|done| |].
    + intros q Hq. simpl. rewrite Ho, Hf by eauto. split; [done|]. by apply (Hd share_id).
    + intros q _ Hq _. by rewrite Ho, Hf.
    + intros other Hother _. by rewrite <-(quiet_exists root d d').
  - split_and!; [left; split; [|eauto]|intros Hr; split; eauto| |].
    + intros q Hq. destruct (Hv q Hq) as [Hn Hnd]. rewrite Hf in Hn. split; [done|].
      by rewrite <-(Hd share_id).
    + intros q Hq Hs Hl. rewrite <-Hf. by apply Hrest.
    + intros other Hother Hne. rewrite <-(quiet_exists root d d') by done. unfold share_exists.
      apply bool_decide_ext, Hrest; [eapply Hin, inside_refl|].
      apply (shares_apart root share_id other); auto using inside_refl.
Qed.

(** Whatever fails, [create_share_state] ends like that. *)
Lemma create_share_state_outcome d root (config : ShareConfig) (manifest : Manifest)
    (clock : ClockState) (peers : KnownPeers) (runtime : RuntimeStatus) (env : create_env) :
  is_array 32 (cfg_share_id config) → tree_ok d → all_cut env →
  staging_dir root (cfg_share_id config) (ce_nonce env) ∉ dd_dirs d →
  dd_files d !! staging_dir root (cfg_share_id config) (ce_nonce env) = None →
  create_outcome d root (cfg_share_id config) (staging_dir root (cfg_share_id config) (ce_nonce env))
    (state_texts config manifest clock peers runtime)
    (create_share_state d root config manifest clock peers runtime env).
Proof.
  set (share_id := cfg_share_id config). set (target := share_dir root share_id).
  set (staging := staging_dir root share_id (ce_nonce env)).
  intros Hid Htree Hcut Hunused Hunused'.
  destruct (staging_facts root share_id share_id (ce_nonce env)) as (Es & Hl & H1 & _).
  pose proof (staging_apart root share_id (ce_nonce env)) as Hapart. fold staging in Hapart.
  assert (Hvs : vacant d staging) by (apply tree_vacant; [by subst staging; rewrite Es; destruct (shares_dir root)|done..]).
  unfold create_share_state. fold share_id. fold target. fold staging.
  destruct (_ ;; _) as [[]|e]; [|by apply quiet_outcome].
  pose proof (ensure_layout_quiet d root (ce_dirs env)) as Hq1.
  assert (Ht1 : tree_ok (ensure_layout d root (ce_dirs env)).2) by by apply create_secure_dirs_tree.
  destruct (ensure_layout d root (ce_dirs env)) as [[[]|e] d1]; simpl in Hq1, Ht1; [|by apply quiet_outcome].
  case_bool_decide as Ed; [by apply quiet_outcome|].
  destruct (contains_key (dd_files d1) target) eqn:Ek; [by apply quiet_outcome|]. simpl orb. cbv iota.
  pose proof (quiet_trans _ _ _ _ Hq1 (staging_quiet d1 root share_id (ce_nonce env) (ce_dirs env))) as Hq2.
  pose proof (create_secure_dirs_Ok d1 [staging; path_push staging (bs "tmp")] (ce_dirs env)) as Hmade.
  fold staging in Hq2.
  destruct (create_secure_dirs d1 _ (ce_dirs env)) as [[[]|e] d2] eqn:E2; simpl in Hq2; [|by apply quiet_outcome].
  specialize (Hmade d2 eq_refl). apply Forall_cons in Hmade as [Hs1 [Hs2 _]%Forall_cons].
  rewrite (staged_push staging "p"%byte) in Hs2 by done.
  assert (Hv2 : vacant d2 target).
  { assert (Hv1 : vacant d1 target).
    { apply tree_vacant; [|done|done|].
      - subst target. rewrite share_dir_eq. by destruct (shares_dir root).
      - unfold contains_key in Ek. by destruct (dd_files d1 !! target). }
    destruct Hq1 as [Hf1 Hd1], Hq2 as [Hf2 Hd2]. intros q Hq. destruct (Hv1 q Hq) as [Hn Hnd].
    split; [congruence|]. by rewrite (Hd2 share_id), <-(Hd1 share_id). }
  pose proof (write_share_outcome d2 root staging target "p"%byte config manifest clock peers runtime env) as Hw.
  specialize (Hw Hl ltac:(done) Hcut Hv2 ltac:(by apply (Hapart share_id), inside_refl) H1).
  assert (Hout : create_outcome d root share_id staging (state_texts config manifest clock peers runtime)
    (write_share d2 root staging target config manifest clock peers runtime env)).
  { apply (closure_create_outcome d d2); [done|done|done|done|]. apply Hw; [| |done|done|].
    - apply share_lock_apart.
    - subst staging. rewrite Es. apply locks_apart, lock_name_relative.
    - intros q Hq. destruct Hq2 as [-> _]. by apply Hvs. }
  destruct (write_share _ _ _ _ _ _ _ _ _ _) as [[[]|e] d3]; [done|]. by apply cleanup_outcome.
Qed.

(** C29: [create_share_state] is all or nothing, whichever of its steps fails: the
    share's directory then holds exactly the five validated state files, or what it
    held before (nothing, unless the share was already registered).  A success means
    the former and a lock file.  Files elsewhere are untouched but for the staging
    directory, and no other share appears or disappears. *)
Theorem create_share_state_atomic d root (config : ShareConfig) (manifest : Manifest)
    (clock : ClockState) (peers : KnownPeers) (runtime : RuntimeStatus) (env : create_env)
    (Hid : is_array 32 (cfg_share_id config)) (Htree : tree_ok d) (Hcut : all_cut env)
    (Hunused : staging_dir root (cfg_share_id config) (ce_nonce env) ∉ dd_dirs d)
    (Hunused' : dd_files d !! staging_dir root (cfg_share_id config) (ce_nonce env) = None) :
  let share_id := cfg_share_id config in
  let target := share_dir root share_id in
  let staging := staging_dir root share_id (ce_nonce env) in
  let '(r, d') := create_share_state d root config manifest clock peers runtime env in
  let texts := state_texts config manifest clock peers runtime in
  registered_or_as_before d d' target texts ∧
  (r = Ok tt → (∃ t, texts = Some t ∧ published d' target t) ∧
     is_Some (dd_files d' !! share_lock root share_id)) ∧
  (∀ q, inside target q = false → inside staging q = false → q ≠ share_lock root share_id →
     dd_files d' !! q = dd_files d !! q) ∧
  (∀ other, is_array 32 other → other ≠ share_id →
     share_exists d' root other = share_exists d root other).
Proof.
  intros share_id target staging.
  pose proof (create_share_state_outcome d root config manifest clock peers runtime env
    Hid Htree Hcut Hunused Hunused') as Hgoal.
  by destruct (create_share_state _ _ _ _ _ _ _ _).
Qed.

(** The statement about a result of [remove_share_state]. *)
Definition remove_outcome (d : data_dir) root share_id (removed : bytes)
    (out : result unit * data_dir) : Prop :=
  (out.2 = d ∧ is_ok out.1 = false ∨ vacant out.2 (share_dir root share_id)) ∧
  (out.1 = Ok tt → share_exists d root share_id = true ∧
     vacant out.2 (share_dir root share_id) ∧ vacant out.2 removed) ∧
  (∀ q, inside (share_dir root share_id) q = false → inside removed q = false →
     dd_files out.2 !! q = dd_files d !! q ∧ (q ∈ dd_dirs out.2 ↔ q ∈ dd_dirs d)).

Lemma remove_share_state_spec d root share_id (env : remove_env) :
  tree_ok d → removed_dir root share_id (re_nonce env) ∉ dd_dirs d →
  dd_files d !! removed_dir root share_id (re_nonce env) = None →
  remove_outcome d root share_id (removed_dir root share_id (re_nonce env))
    (remove_share_state d root share_id env).
Proof.
  set (target := share_dir root share_id). set (removed := removed_dir root share_id (re_nonce env)).
  intros Htree Hunused Hunused'. unfold remove_outcome. fold target.
  set (name := [dot] ++ share_id_to_string share_id ++ bs "-" ++ re_nonce env ++ bs ".removed").
  assert (Er : removed = shares_dir root ++ slash :: name) by by apply shares_push.
  destruct (dotted_apart root share_id name eq_refl) as [H1 H2]. rewrite <-Er in H1, H2. fold target in H1, H2.
  assert (Hv : vacant d removed) by (apply tree_vacant; [rewrite Er; by destruct (shares_dir root)|done..]).
  unfold remove_share_state. fold (share_dir root share_id). fold target. fold removed.
  repeat (case_bool_decide; simpl negb; cbv iota; [|split_and!; auto; done]).
  destruct (re_rename_fails env); [split_and!; auto; done|].
  pose proof (rename_vacant d target removed Hv H1 H2) as Hrv.
  assert (Hout : ∀ q, inside target q = false → inside removed q = false →
    dd_files (rename_dir d target removed) !! q = dd_files d !! q ∧
    (q ∈ dd_dirs (rename_dir d target removed) ↔ q ∈ dd_dirs d)).
  { intros q Hq Hq'. by rewrite lookup_rename_outside, rename_dirs_outside. }
  assert (Hgone : ∀ kept q, inside target q = false → inside removed q = false →
    dd_files (remove_dir_all (rename_dir d target removed) removed kept) !! q = dd_files d !! q ∧
    (q ∈ dd_dirs (remove_dir_all (rename_dir d target removed) removed kept) ↔ q ∈ dd_dirs d)).
  { intros kept q Hq Hq'. rewrite lookup_remove_outside, remove_dirs_outside by done. by apply Hout. }
  destruct (re_sync_fails env); [split_and!; [by right|done|exact Hout]|].
  destruct (re_leftover env) as [kept|].
  - split_and!; [right; by apply remove_vacant|done|apply Hgone].
  - split_and!; [right; by apply remove_vacant| |apply Hgone].
    intros _. split; [by apply bool_decide_eq_true|].
    split; [by apply remove_vacant|apply remove_dir_all_vacant].
Qed.

(** C30: [remove_share_state] unregisters a share with one rename: whichever step
    fails, the data directory is as it was or nothing is left under the share's name;
    after a success nothing is left of it at all.  Everything outside the share's
    directory and its new name is untouched. *)
Theorem remove_share_state_outcome d root share_id (env : remove_env)
    (Htree : tree_ok d) (Hunused : removed_dir root share_id (re_nonce env) ∉ dd_dirs d)
    (Hunused' : dd_files d !! removed_dir root share_id (re_nonce env) = None) :
  let target := share_dir root share_id in
  let removed := removed_dir root share_id (re_nonce env) in
  let '(r, d') := remove_share_state d root share_id env in
  (d' = d ∧ is_ok r = false ∨ vacant d' target) ∧
  (r = Ok tt → share_exists d root share_id = true ∧ vacant d' target ∧ vacant d' removed) ∧
  (∀ q, inside target q = false → inside removed q = false →
     dd_files d' !! q = dd_files d !! q ∧ (q ∈ dd_dirs d' ↔ q ∈ dd_dirs d)).
Proof.
  intros target removed.
  pose proof (remove_share_state_spec d root share_id env Htree Hunused Hunused') as Hgoal.
  by destruct (remove_share_state _ _ _ _).
Qed.

(** ** Listing *)

Lemma hex_is_utf8 s : forallb is_lower_hex s = true → is_utf8 s = true.
Proof.
  induction s as [|c s IH]; [done|]. simpl. intros [Hc Hs]%andb_true_iff.
  unfold is_utf8. simpl. unfold utf8_lead.
  assert (byte_val c <? 128 = true) as ->; [|by apply IH].
  unfold is_lower_hex, is_ascii_digit, in_range in Hc. apply Z.ltb_lt. lia.
Qed.

Lemma NoDup_omap_inj {A B} (f : A → option B) l :
  (∀ x y b, f x = Some b → f y = Some b → x = y) → NoDup l → NoDup (omap f l).
Proof.
  intros Hf. induction 1 as [|x l Hx _ IH]; simpl; [constructor|].
  destruct (f x) as [b|] eqn:E; [|done]. constructor; [|done].
  intros (y & Hy & Ey)%list_elem_of_omap. by rewrite (Hf x y b) in Hx.
Qed.

(** The share a directory of the layout registers. *)
Definition listed root (p : bytes) : option bytes :=
  match below (shares_dir root) p with
  | Some name =>
      if contains slash name then None
      else if is_utf8 name then result_ok (share_id_parse name) else None
  | None => None
  end.

Lemma listed_Some root p id :
  listed root p = Some id ↔ p = share_dir root id ∧ is_array 32 id.
Proof.
  unfold listed. rewrite share_dir_eq. split.
  - destruct (below (shares_dir root) p) as [name|] eqn:Eb; [|done].
    destruct (contains slash name); [done|]. destruct (is_utf8 name); [|done].
    destruct (share_id_parse name) as [id'|] eqn:Ep; [|done]. intros [= ->].
    apply share_id_parse_Ok in Ep as [<- ?]. by apply below_Some in Eb as ->.
  - intros [-> Hid]. rewrite (proj2 (below_Some _ _ _) eq_refl).
    assert (contains slash (share_id_to_string id) = false) as ->.
    { apply contains_false. by intros [? _]%share_name_plain. }
    rewrite hex_is_utf8 by apply hex_encode_lower.
    by rewrite (proj2 (share_id_parse_Ok _ id)).
Qed.

Lemma dir_names_listed d root :
  omap (λ name, if is_utf8 name then result_ok (share_id_parse name) else None)
    (dir_names d (shares_dir root)) = omap (listed root) (elements (dd_dirs d)).
Proof.
  unfold dir_names. induction (elements (dd_dirs d)) as [|p ps IH]; [done|]. simpl. unfold listed at 1.
  destruct (below (shares_dir root) p) as [name|]; [|exact IH].
  destruct (contains slash name); [exact IH|]. simpl.
  destruct (if is_utf8 name then _ else _); [f_equal|]; exact IH.
Qed.

Lemma list_share_ids_spec d root readable l :
  tree_ok d → list_share_ids d root readable = Ok l →
  NoDup l ∧ StronglySorted (key_le id) l ∧
  (∀ share_id, share_id ∈ l ↔ is_array 32 share_id ∧ share_exists d root share_id = true).
Proof.
  intros Htree Hl.
  assert (Hex : ∀ id', share_exists d root id' = true → shares_dir root ∈ dd_dirs d).
  { intros id' He%bool_decide_eq_true. apply Htree in He. rewrite Forall_forall in He. apply He.
    rewrite share_dir_eq. apply elem_of_parents. split; [|eauto].
    unfold shares_dir, path_push. simpl. destruct root; [done|].
    by destruct (last _) as [?|]; [destruct (Byte.eqb _ _)|]. }
  unfold list_share_ids in Hl. case_bool_decide as Hd.
  - destruct readable; [|done]. injection Hl as <-.
    rewrite dir_names_listed.
    assert (Hnd : NoDup (omap (listed root) (elements (dd_dirs d)))).
    { apply NoDup_omap_inj; [|apply NoDup_elements].
      intros x y b [-> _]%listed_Some [-> _]%listed_Some. done. }
    split_and!.
    + by rewrite sort_by_perm.
    + apply sort_by_sorted.
    + intros share_id. rewrite sort_by_perm, list_elem_of_omap. unfold share_exists.
      rewrite bool_decide_eq_true. split.
      * intros (p & Hp%elem_of_elements & [-> ?]%listed_Some). done.
      * intros [Hid He]. exists (share_dir root share_id).
        by rewrite elem_of_elements, listed_Some.
  - destruct (contains_key _ _); [done|]. injection Hl as <-.
    split_and!; [constructor|constructor|]. intros share_id. rewrite elem_of_nil.
    split; [done|]. by intros [_ ?%Hex].
Qed.

(** [list_share_ids] is the sorted list of exactly the registered shares, each
    once: the staging and removed directories a crash leaves behind are never
    listed, nor is anything else in the directory. *)
Lemma list_share_ids_complete d root readable l (Htree : tree_ok d)
    (Hl : list_share_ids d root readable = Ok l) :
  NoDup l ∧ StronglySorted (key_le id) l ∧
  (∀ share_id, share_id ∈ l ↔ is_array 32 share_id ∧ share_exists d root share_id = true).
Proof. by apply (list_share_ids_spec d root readable). Qed.
End publish.

(** ** The identity key *)

Section identity_theorems.
Implicit Types root : bytes.

(** Opening the identity lock does not touch the key. *)
Lemma identity_lock_ne root : identity_key root ≠ identity_lock root.
Proof.
  unfold identity_key, identity_lock.
  rewrite (path_push_join (locks_dir root) _ "s"%byte), (path_push_join (identity_dir root) _ "y"%byte)
    by (done || by apply last_path_push).
  unfold identity_dir, locks_dir, path_push.
  change (is_absolute (bs "identity")) with false. change (is_absolute (bs "locks")) with false.
  destruct (last root) as [b|]; [destruct (Byte.eqb b slash)|];
    rewrite <-!app_assoc; intros E%app_inv_head; discriminate E.
Qed.

Lemma load_identity_stored d root key :
  load_identity_bytes d root = Ok (Some key) ↔
  dd_files d !! identity_key root = Some key ∧ is_array 32 key.
Proof.
  unfold load_identity_bytes, read_bounded, is_array, blen, IDENTITY_KEY_BYTES.
  destruct (dd_files d !! identity_key root) as [data|] eqn:E; simpl;
    [|case_bool_decide; simpl; naive_solver].
  destruct (32 <? Z.of_nat (length data)) eqn:E1; simpl; [split; [done|intros [[= ->] ?]; lia]|].
  destruct (Z.of_nat (length data) =? 32) eqn:E2; simpl; split; intros; simplify_eq;
    [split; [done|lia]|naive_solver|naive_solver lia].
Qed.

Lemma acquire_after_layout_key d root dirs opens answer :
  dd_files (acquire_after_layout d root (identity_lock root) dirs opens answer).2 !! identity_key root =
    dd_files d !! identity_key root.
Proof.
  unfold acquire_after_layout, ensure_layout.
  pose proof (create_secure_dirs_files d [root; identity_dir root; shares_dir root; locks_dir root] dirs) as Hf.
  destruct (create_secure_dirs _ _ _) as [[[]|e] d1]; simpl in Hf; [|simpl; by rewrite Hf].
  unfold acquire_lock. destruct opens; simpl; [|by rewrite Hf].
  destruct (contains_key _ _); rewrite ?lookup_insert_ne, Hf by (apply not_eq_sym, identity_lock_ne); done.
Qed.

(** The device identity is stable: once [load_or_create] has returned a key,
    every later call returns that key whatever new key it would generate and whatever
    else succeeds, and [load_existing] finds it. *)
Lemma identity_is_stable d d' root (generated generated' key : bytes) (dirs dirs' : dir_env)
    (opens opens' : bool) (answer answer' : lock_answer) (env env' : write_env)
    (Hc : cuts env) (Hg : is_array 32 generated)
    (H1 : load_or_create d root generated dirs opens answer env = (Ok key, d')) :
  is_array 32 key ∧ load_existing d' root = Ok (Some key) ∧
  (let '(r, d'') := load_or_create d' root generated' dirs' opens' answer' env' in
   (r = Ok key ∨ is_ok r = false) ∧ load_existing d'' root = Ok (Some key)).
Proof.
  assert (Hkey : dd_files d' !! identity_key root = Some key ∧ is_array 32 key).
  { unfold load_or_create in H1.
    destruct (acquire_after_layout _ _ _ _ _ _) as [[[]|e] d1]; [|done].
    destruct (load_identity_bytes d1 root) as [[k|]|e] eqn:El; [| |done].
    - injection H1 as -> ->. by apply load_identity_stored.
    - unfold save_identity_bytes in H1. destruct (ensure_layout d1 root dirs) as [[[]|e] d2]; [|done].
      destruct (atomic_write_with _ _ _ _ _ _) as [[v [[]|e]] fs] eqn:Ew; [|done].
      injection H1 as <- <-. apply atomic_write_Ok in Ew as [Hw _]; [|done].
      rewrite Hc in Hw. done. }
  destruct Hkey as [Hk Ha]. split; [done|]. split; [by apply load_identity_stored|].
  unfold load_or_create. pose proof (acquire_after_layout_key d' root dirs' opens' answer') as Hd1.
  destruct (acquire_after_layout _ _ _ _ _ _) as [[[]|e] d1]; simpl in Hd1; rewrite Hk in Hd1;
    assert (Hl : load_identity_bytes d1 root = Ok (Some key)) by by apply load_identity_stored.
  - rewrite Hl. auto.
  - auto.
Qed.
End identity_theorems.

(** *** Witnesses *)

Import Ref.

Definition ex_stopped : RuntimeStatus := RuntimeStatus_stopped 0.
#[local] Instance ex_codec_config : JsonState ShareConfig := single_state ex_share_config.
#[local] Instance ex_codec_manifest : JsonState Manifest := single_state (Manifest_empty ex_share 0).
#[local] Instance ex_codec_clock : JsonState ClockState := single_state ClockState_new.
#[local] Instance ex_codec_peers : JsonState KnownPeers := single_state KnownPeers_empty.
#[local] Instance ex_codec_status : JsonState RuntimeStatus := single_state ex_stopped.

Definition ex_dirs : dir_env := {| de_mkdir := λ _, false; de_chmod := λ _, false |}.
Definition ex_create_env : create_env := {|
  ce_dirs := ex_dirs; ce_nonce := bs "7-9"; ce_config := ex_env; ce_manifest := ex_env;
  ce_clock := ex_env; ce_peers := ex_env; ce_runtime := ex_env; ce_rename_fails := false;
  ce_sync_fails := false; ce_lock_fails := false; ce_cleanup_left := ∅ |}.
Definition ex_data_dir : data_dir := {| dd_files := ∅; dd_dirs := ∅ |}.

Lemma create_share_state_atomic_witness :
  let root := bs "/d" in
  let share_id := cfg_share_id ex_share_config in
  let target := share_dir root share_id in
  let texts := state_texts ex_share_config (Manifest_empty ex_share 0) ClockState_new
    KnownPeers_empty ex_stopped in
  ∃ d', create_share_state ex_data_dir root ex_share_config (Manifest_empty ex_share 0)
    ClockState_new KnownPeers_empty ex_stopped ex_create_env = (Ok tt, d') ∧
  (∃ t, texts = Some t ∧ published d' target t) ∧
  is_Some (dd_files d' !! share_lock root share_id).
Proof.
  intros root share_id target texts.
  pose proof (create_share_state_atomic ex_data_dir root ex_share_config (Manifest_empty ex_share 0)
    ClockState_new KnownPeers_empty ex_stopped ex_create_env) as Hc.
  specialize (Hc eq_refl (tree_okb_ok ex_data_dir eq_refl)).
  assert (Hcut : all_cut ex_create_env) by (repeat split; apply ex_env_cuts).
  specialize (Hc Hcut ltac:(vm_compute; set_solver) eq_refl).
  assert (Hok : is_ok (create_share_state ex_data_dir root ex_share_config (Manifest_empty ex_share 0)
    ClockState_new KnownPeers_empty ex_stopped ex_create_env).1 = true) by (vm_compute; reflexivity).
  destruct (create_share_state _ _ _ _ _ _ _ _) as [[[]|e] d']; [|discriminate Hok].
  exists d'. split; [done|]. destruct Hc as (_ & Hreg & _). by apply Hreg.
Defined.

Definition ex_registered : data_dir := {|
  dd_files := {[share_config (bs "/d") ex_share := bs "{}"]};
  dd_dirs := {[bs "/d"; shares_dir (bs "/d"); share_dir (bs "/d") ex_share]} |}.
Lemma ex_registered_tree : tree_ok ex_registered.
Proof. apply tree_okb_ok. vm_compute. reflexivity. Qed.
Definition ex_remove_env : remove_env := {|
  re_nonce := bs "7-9"; re_rename_fails := false; re_sync_fails := false; re_leftover := None;
  re_last_sync_fails := false |}.

Lemma remove_share_state_outcome_witness :
  ∃ d', remove_share_state ex_registered (bs "/d") ex_share ex_remove_env = (Ok tt, d') ∧
  vacant d' (share_dir (bs "/d") ex_share).
Proof.
  pose proof (remove_share_state_outcome ex_registered (bs "/d") ex_share ex_remove_env
    ex_registered_tree) as Hr.
  assert (Hu : removed_dir (bs "/d") ex_share (re_nonce ex_remove_env) ∉ dd_dirs ex_registered)
    by (apply (bool_decide_unpack _); vm_compute; exact I).
  assert (Hu' : dd_files ex_registered !! removed_dir (bs "/d") ex_share (re_nonce ex_remove_env) = None)
    by (vm_compute; reflexivity).
  specialize (Hr Hu Hu').
  assert (Hok : is_ok (remove_share_state ex_registered (bs "/d") ex_share ex_remove_env).1 = true)
    by (vm_compute; reflexivity).
  destruct (remove_share_state _ _ _ _) as [[[]|e] d']; [|discriminate Hok].
  exists d'. split; [done|]. destruct Hr as (_ & Hr & _). destruct (Hr eq_refl) as (_ & Hv & _).
  exact Hv.
Defined.

Lemma list_share_ids_complete_witness :
  list_share_ids ex_registered (bs "/d") true = Ok [ex_share] ∧
  NoDup [ex_share] ∧ StronglySorted (key_le id) [ex_share] ∧
  (∀ share_id, share_id ∈ [ex_share] ↔
     is_array 32 share_id ∧ share_exists ex_registered (bs "/d") share_id = true).
Proof.
  assert (Hl : list_share_ids ex_registered (bs "/d") true = Ok [ex_share])
    by (vm_compute; reflexivity).
  split; [exact Hl|].
  exact (list_share_ids_complete ex_registered (bs "/d") true [ex_share] ex_registered_tree Hl).
Defined.

Lemma identity_is_stable_witness :
  let key := repeat "005"%byte 32 in
  ∃ d', load_or_create ex_data_dir (bs "/d") key ex_dirs true LockFree ex_env = (Ok key, d') ∧
  load_existing d' (bs "/d") = Ok (Some key).
Proof.
  intros key.
  destruct (load_or_create ex_data_dir (bs "/d") key ex_dirs true LockFree ex_env) as [r d'] eqn:E.
  assert (Hr : (load_or_create ex_data_dir (bs "/d") key ex_dirs true LockFree ex_env).1 = Ok key)
    by (vm_compute; reflexivity).
  rewrite E in Hr. simpl in Hr. subst r.
  exists d'. split; [done|].
  apply (identity_is_stable ex_data_dir d' (bs "/d") key key key ex_dirs ex_dirs true true LockFree
    LockFree ex_env ex_env ex_env_cuts eq_refl E).
Defined.
