(* ===== verification/State.v ===== *)
(** * The state of a running share (src/network/state.rs, src/runtime/mod.rs)

    The manifest cache in front of the manifest file, the runtime status cache,
    the peer schedules and the known peers.  Lock poisoning is not modelled: the
    operations run one at a time, as the locks of the source make them. *)

From S2P Require Import Prelude Collections Bytes External Reference Framing Clock Types Peers ManifestPath Manifest Merge Storage Digest Scheduling.

Record ManifestSnapshot := {
  ms_digest : bytes;
  ms_manifest : Manifest;
}.

Definition from_validated `{Blake3} (m : Manifest) : ManifestSnapshot :=
  {| ms_digest := sync_digest_after_validation m; ms_manifest := m |}.

(** [fetch_add(1)] on an [AtomicU64]. *)
Definition fetch_add (z : Z) : Z := (z + 1) mod 2 ^ 64.

Section share.
Context `{HexCodec, Iroh, Blake3} `{!JsonState ShareConfig} `{!JsonState Manifest}
  `{!JsonState ClockState} `{!JsonState KnownPeers} `{!JsonState RuntimeStatus}.

Record ActiveShare := {
  as_files : files;
  as_root : bytes;
  as_share_id : bytes;
  as_config : ShareConfig;
  as_runtime_status : option RuntimeStatus;
  as_manifest_generation : Z;
  as_network_generation : Z;
  as_manifest_cache : option ManifestSnapshot;
  as_peer_schedule : gmap EndpointId PeerSchedule;
  as_local_endpoint_id : EndpointId;
}.
Implicit Types s : ActiveShare.

Definition with_files s (fs : files) : ActiveShare := {|
  as_files := fs; as_root := as_root s; as_share_id := as_share_id s;
  as_config := as_config s; as_runtime_status := as_runtime_status s;
  as_manifest_generation := as_manifest_generation s;
  as_network_generation := as_network_generation s;
  as_manifest_cache := as_manifest_cache s; as_peer_schedule := as_peer_schedule s;
  as_local_endpoint_id := as_local_endpoint_id s |}.
Definition with_cache s (cache : option ManifestSnapshot) (generation : Z) : ActiveShare := {|
  as_files := as_files s; as_root := as_root s; as_share_id := as_share_id s;
  as_config := as_config s; as_runtime_status := as_runtime_status s;
  as_manifest_generation := generation;
  as_network_generation := as_network_generation s;
  as_manifest_cache := cache; as_peer_schedule := as_peer_schedule s;
  as_local_endpoint_id := as_local_endpoint_id s |}.
Definition with_schedule s (network_generation : Z) (schedule : gmap EndpointId PeerSchedule)
    : ActiveShare := {|
  as_files := as_files s; as_root := as_root s; as_share_id := as_share_id s;
  as_config := as_config s; as_runtime_status := as_runtime_status s;
  as_manifest_generation := as_manifest_generation s;
  as_network_generation := network_generation;
  as_manifest_cache := as_manifest_cache s; as_peer_schedule := schedule;
  as_local_endpoint_id := as_local_endpoint_id s |}.
Definition with_config s (config : ShareConfig) : ActiveShare := {|
  as_files := as_files s; as_root := as_root s; as_share_id := as_share_id s;
  as_config := config; as_runtime_status := as_runtime_status s;
  as_manifest_generation := as_manifest_generation s;
  as_network_generation := as_network_generation s;
  as_manifest_cache := as_manifest_cache s; as_peer_schedule := as_peer_schedule s;
  as_local_endpoint_id := as_local_endpoint_id s |}.
Definition with_runtime s (fs : files) (status : option RuntimeStatus) : ActiveShare := {|
  as_files := fs; as_root := as_root s; as_share_id := as_share_id s;
  as_config := as_config s; as_runtime_status := status;
  as_manifest_generation := as_manifest_generation s;
  as_network_generation := as_network_generation s;
  as_manifest_cache := as_manifest_cache s; as_peer_schedule := as_peer_schedule s;
  as_local_endpoint_id := as_local_endpoint_id s |}.

(** ** Manifests *)

Definition manifest_snapshot s : result ManifestSnapshot * ActiveShare :=
  match as_manifest_cache s with
  | Some snapshot => (Ok snapshot, s)
  | None =>
      match load_manifest (as_files s) (as_root s) (as_share_id s) with
      | Err e => (Err e, s)
      | Ok manifest =>
          let snapshot := from_validated manifest in
          (Ok snapshot, with_cache s (Some snapshot) (as_manifest_generation s))
      end
  end.

Definition save_manifest s (manifest : Manifest) (env : write_env)
    : result unit * ActiveShare :=
  if negb (bool_decide (mf_share_id manifest = as_share_id s))
  then (Err "manifest belongs to another share", s)
  else
    let '(r, fs) := store_manifest (as_files s) (as_root s) manifest env in
    let s := with_files s fs in
    match r with
    | Err e => (Err e, with_cache s None (fetch_add (as_manifest_generation s)))
    | Ok _ =>
        (Ok tt, with_cache s (Some (from_validated manifest))
                  (fetch_add (as_manifest_generation s)))
    end.

Definition replace_config s (config : ShareConfig) : ActiveShare := with_config s config.

(** ** Peers *)

Definition retry_peers s : ActiveShare :=
  with_schedule s (fetch_add (as_network_generation s)) (retry_now <$> as_peer_schedule s).

Definition record_peer_attempt s (peer : EndpointId) (generation network_generation : Z)
    (outcome : option SyncOutcome) (now jitter : Z) : ActiveShare :=
  let schedule := default PeerSchedule_default (as_peer_schedule s !! peer) in
  let schedule := after_attempt schedule now generation jitter outcome in
  let schedule :=
    if as_network_generation s =? network_generation then schedule else retry_now schedule in
  with_schedule s (as_network_generation s) (<[peer := schedule]> (as_peer_schedule s)).

(** The endpoints a peer reported, without the local one. *)
Definition reported_endpoints s (peers : list bytes) : result (list EndpointId) :=
  ids ← try_map parse_endpoint_id peers;
  Ok (List.filter (λ e, negb (bool_decide (e = as_local_endpoint_id s))) ids).

Definition merge_remote_peers s (peers : list bytes) (authenticated_peer : option EndpointId)
    (now_ms : Z) (env : write_env) : result unit * ActiveShare :=
  match (known ← load_known_peers (as_files s) (as_root s) (as_share_id s);
         ids ← reported_endpoints s peers; Ok (known, ids)) with
  | Err e => (Err e, s)
  | Ok (known, ids) =>
      let ids :=
        match authenticated_peer with
        | Some peer => if bool_decide (peer = as_local_endpoint_id s) then ids else ids ++ [peer]
        | None => ids
        end in
      let known := merge_endpoint_ids known ids (blen ids) now_ms in
      let '(r, fs) := save_known_peers (as_files s) (as_root s) (as_share_id s) known env in
      (r, with_files s fs)
  end.

(** [Vec::dedup]. *)
Fixpoint dedup (l : list bytes) : list bytes :=
  match l with
  | x :: (y :: _) as l' => if bool_decide (x = y) then dedup l' else x :: dedup l'
  | _ => l
  end.

Definition known_peer_strings s (remote : EndpointId) : result (list bytes) :=
  peers ← load_known_peers (as_files s) (as_root s) (as_share_id s);
  let local_id := ep_to_string (as_local_endpoint_id s) in
  let remote_id := ep_to_string remote in
  let values := map pr_endpoint_id
    (List.filter (λ p, negb (bool_decide (pr_endpoint_id p = local_id))
                       && negb (bool_decide (pr_endpoint_id p = remote_id)))
       (kp_peers peers)) in
  Ok (take 256 (dedup (sort_by id values))).

(** ** Runtime status *)

(** [RuntimeStatusCache::update]; [pid] is the process id. *)
Definition update_status s (now_ms pid : Z) (heartbeat : bool)
    (update : RuntimeStatus → Z → RuntimeStatus) (env : write_env)
    : result unit * ActiveShare :=
  match (match as_runtime_status s with
         | Some status => Ok status
         | None =>
             loaded ← load_runtime_status (as_files s) (as_root s) (as_share_id s);
             Ok (default (RuntimeStatus_stopped now_ms) loaded)
         end) with
  | Err e => (Err e, with_runtime s (as_files s) None)
  | Ok previous =>
      let status :=
        if rs_process_id previous =? 0 then {|
          rs_format_version := rs_format_version previous;
          rs_process_id := pid; rs_started_at_ms := now_ms;
          rs_heartbeat_at_ms := rs_heartbeat_at_ms previous;
          rs_state := rs_state previous; rs_health := rs_health previous;
          rs_connected_peers := rs_connected_peers previous;
          rs_pending_downloads := rs_pending_downloads previous;
          rs_pending_updates := rs_pending_updates previous;
          rs_last_scan_at_ms := rs_last_scan_at_ms previous;
          rs_last_remote_update_at_ms := rs_last_remote_update_at_ms previous;
          rs_last_sync_at_ms := rs_last_sync_at_ms previous;
          rs_last_connection_at_ms := rs_last_connection_at_ms previous;
          rs_last_error := rs_last_error previous |}
        else previous in
      let status := update status now_ms in
      if negb heartbeat && bool_decide (status = previous)
      then (Ok tt, with_runtime s (as_files s) (Some previous))
      else
        let status := {|
          rs_format_version := rs_format_version status;
          rs_process_id := rs_process_id status; rs_started_at_ms := rs_started_at_ms status;
          rs_heartbeat_at_ms := now_ms;
          rs_state := rs_state status; rs_health := rs_health status;
          rs_connected_peers := rs_connected_peers status;
          rs_pending_downloads := rs_pending_downloads status;
          rs_pending_updates := rs_pending_updates status;
          rs_last_scan_at_ms := rs_last_scan_at_ms status;
          rs_last_remote_update_at_ms := rs_last_remote_update_at_ms status;
          rs_last_sync_at_ms := rs_last_sync_at_ms status;
          rs_last_connection_at_ms := rs_last_connection_at_ms status;
          rs_last_error := rs_last_error status |} in
        let '(r, fs) :=
          save_runtime_status (as_files s) (as_root s) (as_share_id s) status env in
        match r with
        | Err e => (Err e, with_runtime s fs None)
        | Ok _ => (Ok tt, with_runtime s fs (Some status))
        end
  end.

Definition update_runtime s (now_ms pid : Z) (update : RuntimeStatus → Z → RuntimeStatus)
    (env : write_env) : result unit * ActiveShare :=
  update_status s now_ms pid false update env.

(** A status with another state, health, peer count and error. *)
Definition restate (state : RuntimeState) (health : SyncHealth) (error : option bytes)
    (r : RuntimeStatus) : RuntimeStatus := {|
  rs_format_version := rs_format_version r; rs_process_id := rs_process_id r;
  rs_started_at_ms := rs_started_at_ms r; rs_heartbeat_at_ms := rs_heartbeat_at_ms r;
  rs_state := state; rs_health := health; rs_connected_peers := 0;
  rs_pending_downloads := rs_pending_downloads r; rs_pending_updates := rs_pending_updates r;
  rs_last_scan_at_ms := rs_last_scan_at_ms r;
  rs_last_remote_update_at_ms := rs_last_remote_update_at_ms r;
  rs_last_sync_at_ms := rs_last_sync_at_ms r;
  rs_last_connection_at_ms := rs_last_connection_at_ms r; rs_last_error := error |}.

Definition set_runtime_state s (now_ms pid : Z) (state : RuntimeState) (health : SyncHealth)
    (error : option bytes) (env : write_env) : result unit * ActiveShare :=
  update_runtime s now_ms pid (λ r _, restate state health error r) env.

Definition set_runtime_error s (now_ms pid : Z) (message : bytes) (env : write_env)
    : result unit * ActiveShare :=
  update_runtime s now_ms pid (λ r _, restate Degraded Offline (Some message) r) env.

Definition refresh_heartbeat s (now_ms pid : Z) (env : write_env) : result unit * ActiveShare :=
  update_status s now_ms pid true (λ r _, r) env.

Definition set_stopped s (now_ms pid : Z) (env : write_env) : result unit * ActiveShare :=
  update_runtime s now_ms pid (λ r _, {|
    rs_format_version := rs_format_version r; rs_process_id := 0;
    rs_started_at_ms := rs_started_at_ms r; rs_heartbeat_at_ms := rs_heartbeat_at_ms r;
    rs_state := Stopped; rs_health := rs_health r; rs_connected_peers := 0;
    rs_pending_downloads := rs_pending_downloads r; rs_pending_updates := rs_pending_updates r;
    rs_last_scan_at_ms := rs_last_scan_at_ms r;
    rs_last_remote_update_at_ms := rs_last_remote_update_at_ms r;
    rs_last_sync_at_ms := rs_last_sync_at_ms r;
    rs_last_connection_at_ms := rs_last_connection_at_ms r;
    rs_last_error := rs_last_error r |}) env.

(** ** The cache is coherent *)

(** The operations on a share, each with the environment of its writes. *)
Inductive share_op :=
| OpSnapshot
| OpSave (m : Manifest) (env : write_env)
| OpConfig (c : ShareConfig)
| OpRetry
| OpAttempt (peer : EndpointId) (generation network_generation : Z)
    (outcome : option SyncOutcome) (now jitter : Z)
| OpPeers (peers : list bytes) (authenticated : option EndpointId) (now : Z) (env : write_env)
| OpStatus (now pid : Z) (heartbeat : bool) (update : RuntimeStatus → Z → RuntimeStatus)
    (env : write_env).

Definition run_op s (op : share_op) : ActiveShare :=
  match op with
  | OpSnapshot => (manifest_snapshot s).2
  | OpSave m env => (save_manifest s m env).2
  | OpConfig c => replace_config s c
  | OpRetry => retry_peers s
  | OpAttempt p g n o now j => record_peer_attempt s p g n o now j
  | OpPeers ps a now env => (merge_remote_peers s ps a now env).2
  | OpStatus now pid hb f env => (update_status s now pid hb f env).2
  end.

Definition op_env (op : share_op) : option write_env :=
  match op with
  | OpSave _ env | OpPeers _ _ _ env | OpStatus _ _ _ _ env => Some env
  | _ => None
  end.
(** The buffered writer of every write loses nothing. *)
Definition op_ok (op : share_op) : Prop := ∀ env, op_env op = Some env → cuts env.

(** The manifest in the manifest file, whatever its size. *)
Definition disk_manifest s : option Manifest :=
  as_files s !! share_manifest (as_root s) (as_share_id s) ≫= from_slice.

Definition snapshot_ok s (snapshot : ManifestSnapshot) : Prop :=
  disk_manifest s = Some (ms_manifest snapshot) ∧
  Manifest_validate (ms_manifest snapshot) (as_share_id s) = Ok tt ∧
  ms_digest snapshot = sync_digest_after_validation (ms_manifest snapshot).

Definition coherent s : Prop :=
  ∀ snapshot, as_manifest_cache s = Some snapshot → snapshot_ok s snapshot.

Lemma load_manifest_disk s m :
  load_manifest (as_files s) (as_root s) (as_share_id s) = Ok m →
  snapshot_ok s (from_validated m).
Proof.
  unfold load_manifest, read_state, read_bounded, snapshot_ok, disk_manifest.
  destruct (as_files s !! share_manifest (as_root s) (as_share_id s)) as [data|]; [|done]. simpl.
  destruct (MANIFEST_MAX_BYTES <? blen data); simpl; [done|].
  destruct (from_slice data) as [m'|]; simpl; [|done].
  destruct (Manifest_validate m' (as_share_id s)) as [[]|] eqn:Ev; simpl; [|done].
  by intros [= <-].
Qed.

Lemma coherent_snapshot s :
  coherent s → coherent (manifest_snapshot s).2.
Proof.
  intros Hc. unfold manifest_snapshot. destruct (as_manifest_cache s) as [snap|]; [done|].
  destruct (load_manifest _ _ _) as [m|] eqn:El; simpl; [|done].
  intros snap [= <-]. by apply load_manifest_disk in El.
Qed.

Lemma coherent_save s m env : cuts env → coherent (save_manifest s m env).2 ∨
  save_manifest s m env = (Err "manifest belongs to another share", s).
Proof.
  intros Hcut. unfold save_manifest. case_bool_decide as Hid; simpl; [left|by right].
  destruct (store_manifest (as_files s) (as_root s) m env) as [[[]|e] fs] eqn:Es; simpl; [|done].
  intros snap [= <-]. unfold store_manifest in Es.
  destruct (Manifest_validate m (mf_share_id m)) as [[]|] eqn:Ev; [|done].
  apply atomic_write_json_Ok in Es as (b & Hb & Hp & _); [|done|done].
  unfold snapshot_ok, disk_manifest. simpl. rewrite <-Hid.
  change (share_manifest (as_root s) (mf_share_id m))
    with (path_push (share_dir (as_root s) (mf_share_id m)) (bs "manifest.json")).
  rewrite Hp. simpl. by rewrite from_slice_newline, (from_slice_to_vec m b Hb).
Qed.

(** Writing another state file leaves the manifest file alone. *)
Lemma coherent_frame s s' :
  coherent s → as_root s' = as_root s → as_share_id s' = as_share_id s →
  as_manifest_cache s' = as_manifest_cache s →
  as_files s' !! share_manifest (as_root s) (as_share_id s) =
    as_files s !! share_manifest (as_root s) (as_share_id s) → coherent s'.
Proof.
  intros Hc Hr Hi Hm Hf snap Hs. rewrite Hm in Hs. destruct (Hc snap Hs) as (Hd & Hv & Hg).
  unfold snapshot_ok, disk_manifest in *. rewrite Hr, Hi, Hf. done.
Qed.

(** Nothing but the other state files and the status changes. *)
Definition undisturbed s s' : Prop :=
  as_root s' = as_root s ∧ as_share_id s' = as_share_id s ∧ as_config s' = as_config s ∧
  as_local_endpoint_id s' = as_local_endpoint_id s ∧ as_manifest_cache s' = as_manifest_cache s ∧
  as_files s' !! share_manifest (as_root s) (as_share_id s) =
    as_files s !! share_manifest (as_root s) (as_share_id s).

Lemma coherent_undisturbed s s' : undisturbed s s' → coherent s → coherent s'.
Proof. intros (Hr & Hi & _ & _ & Hm & Hf) Hc. by apply (coherent_frame s). Qed.

Lemma peers_undisturbed s ps a now env : undisturbed s (merge_remote_peers s ps a now env).2.
Proof.
  unfold merge_remote_peers. destruct (mbind _ _) as [[known ids]|]; [|done].
  set (known' := merge_endpoint_ids _ _ _ _). unfold save_known_peers.
  destruct (KnownPeers_validate known'); [|done].
  pose proof (atomic_write_json_frame (as_files s) (share_dir (as_root s) (as_share_id s))
    (bs "known_peers.json") (bs "manifest.json") known' env eq_refl eq_refl
    ltac:(done) ltac:(done)) as Hf.
  destruct (atomic_write_json _ _ _ known' env) as [r fs]; by split_and!.
Qed.
Lemma coherent_peers s ps a now env : coherent s → coherent (merge_remote_peers s ps a now env).2.
Proof. apply coherent_undisturbed, peers_undisturbed. Qed.

Lemma status_undisturbed s now pid hb f env : undisturbed s (update_status s now pid hb f env).2.
Proof.
  unfold update_status.
  destruct (match as_runtime_status s with Some _ => _ | None => _ end) as [previous|]; [|done].
  set (status := f _ now). destruct (negb hb && _); [by split_and!|].
  set (status' := Build_RuntimeStatus _ _ _ _ _ _ _ _ _ _ _ _ _ _). unfold save_runtime_status.
  destruct (RuntimeStatus_validate status'); [|by split_and!].
  pose proof (atomic_write_json_frame (as_files s) (share_dir (as_root s) (as_share_id s))
    (bs "runtime-status.json") (bs "manifest.json") status' env eq_refl eq_refl
    ltac:(done) ltac:(done)) as Hf.
  destruct (atomic_write_json _ _ _ status' env) as [[|] fs]; by split_and!.
Qed.
(** What an update shows of the status: everything but the process and the times. *)
Definition reported (r : RuntimeStatus) : RuntimeState * SyncHealth * Z * Z * Z * option bytes :=
  (rs_state r, rs_health r, rs_connected_peers r, rs_pending_downloads r, rs_pending_updates r, rs_last_error r).

Lemma update_reports {A} (show : RuntimeState * SyncHealth * Z * Z * Z * option bytes → A) (v : A)
    s now pid f env s' :
  (∀ r now, show (reported (f r now)) = v) → update_runtime s now pid f env = (Ok tt, s') →
  ∃ status, as_runtime_status s' = Some status ∧ show (reported status) = v.
Proof.
  intros Hf. unfold update_runtime, update_status.
  destruct (match as_runtime_status s with Some _ => _ | None => _ end) as [previous|]; [|done].
  destruct (negb false && _) eqn:Eb.
  - intros [= <-]. simpl. eexists. split; [done|]. simpl in Eb. apply bool_decide_eq_true in Eb.
    by rewrite <-Eb, Hf.
  - destruct (save_runtime_status _ _ _ _ _) as [[[]|e] fs]; [|done]. intros [= <-]. simpl.
    eexists. split; [done|]. unfold reported. simpl. apply Hf.
Qed.

Lemma coherent_status s now pid hb f env : coherent s → coherent (update_status s now pid hb f env).2.
Proof. apply coherent_undisturbed, status_undisturbed. Qed.

Lemma coherent_op s op : op_ok op → coherent s → coherent (run_op s op).
Proof.
  intros Hop Hc. destruct op; simpl.
  - by apply coherent_snapshot.
  - destruct (coherent_save s m env) as [|Hs]; [by apply Hop|done|]. by rewrite Hs.
  - by apply (coherent_frame s).
  - by apply (coherent_frame s).
  - by apply (coherent_frame s).
  - by apply coherent_peers.
  - by apply coherent_status.
Qed.

Lemma coherent_run s ops : Forall op_ok ops → coherent s → coherent (foldl run_op s ops).
Proof.
  intros Ho. revert s. induction Ho as [|op ops Hop Ho IH]; intros s Hc; simpl; [done|].
  by apply IH, coherent_op.
Qed.

(** ** Properties *)

(** C38: whatever operations ran since the share was loaded, and however its
    writes failed, the snapshot a share hands out is the manifest in its
    manifest file, validated for the share, with its own digest; a failed
    snapshot changes nothing. *)
Theorem snapshot_is_stored_manifest s (ops : list share_op)
    (Hinit : as_manifest_cache s = None) (Hops : Forall op_ok ops) :
  let s1 := foldl run_op s ops in
  match manifest_snapshot s1 with
  | (Ok snapshot, s2) => snapshot_ok s1 snapshot ∧ as_files s2 = as_files s1
  | (Err _, s2) => s2 = s1
  end.
Proof.
  intros s1. assert (Hc : coherent s1).
  { apply coherent_run; [done|]. intros snap. by rewrite Hinit. }
  unfold manifest_snapshot. destruct (as_manifest_cache s1) as [snap|] eqn:Em.
  - split; [by apply Hc|done].
  - destruct (load_manifest _ _ _) as [m|] eqn:El; [|done]. split; [|done].
    by apply load_manifest_disk.
Qed.

(** A network change is never lost: if the network generation moved while an
    attempt was under way, recording the attempt leaves the peer due at once,
    without backoff; otherwise the attempt is scheduled as usual, and no other
    peer is touched. *)
Lemma attempt_respects_network_change s (peer : EndpointId)
    (generation network_generation now jitter t : Z) (outcome : option SyncOutcome) :
  let s' := record_peer_attempt s peer generation network_generation outcome now jitter in
  (as_network_generation s ≠ network_generation →
   peer_due (as_peer_schedule s') t generation peer = true ∧
   (sch_failures <$> as_peer_schedule s' !! peer) = Some 0) ∧
  (as_network_generation s = network_generation →
   as_peer_schedule s' !! peer = Some (after_attempt
     (default PeerSchedule_default (as_peer_schedule s !! peer)) now generation jitter outcome)) ∧
  (∀ q, q ≠ peer → as_peer_schedule s' !! q = as_peer_schedule s !! q).
Proof.
  unfold record_peer_attempt; simpl. split_and!.
  - intros Hne. rewrite (proj2 (Z.eqb_neq _ _)) by done.
    unfold peer_due. rewrite lookup_insert_eq; simpl. split; [|done].
    unfold due; simpl. apply orb_true_r.
  - intros <-. rewrite Z.eqb_refl. by rewrite lookup_insert_eq.
  - intros q Hq. by rewrite lookup_insert_ne.
Qed.
End share.

(** *** Witnesses *)

Import Ref.

Definition ex_active : ActiveShare := {|
  as_files := ∅; as_root := bs "/d"; as_share_id := ex_share; as_config := ex_share_config;
  as_runtime_status := None; as_manifest_generation := 0; as_network_generation := 0;
  as_manifest_cache := None; as_peer_schedule := ∅; as_local_endpoint_id := endpoint "001" |}.

Lemma snapshot_is_stored_manifest_witness :
  let m := ex_manifest (bs "a") (ex_file 1 "001") in
  let c1 := single_state m in
  let c2 := single_state KnownPeers_empty in
  let c3 := single_state (RuntimeStatus_stopped 0) in
  let s1 := foldl run_op ex_active [OpSave m ex_env; OpRetry; OpSnapshot] in
  match manifest_snapshot s1 with
  | (Ok snapshot, s2) => snapshot_ok s1 snapshot ∧ as_files s2 = as_files s1
  | (Err _, s2) => s2 = s1
  end.
Proof.
  intros m c1 c2 c3.
  apply (snapshot_is_stored_manifest ex_active [OpSave m ex_env; OpRetry; OpSnapshot]);
    [reflexivity|].
  repeat constructor; intros env He; simpl in He; [|discriminate He..].
  injection He as <-. exact ex_env_cuts.
Defined.
