(* ===== verification/Wire.v ===== *)
(** * Protocol messages and their validation (src/network/wire.rs) *)

From S2P Require Import Prelude Collections Bytes External Reference Clock Types ManifestPath Manifest Merge Digest.

Definition MAX_CONTROL_FRAME_BYTES : Z := 96 * 1024 * 1024.
Definition MAX_TRANSFER_FILES : Z := 256.

Record SyncRequest := {
  sr_protocol_version : Z;
  sr_share_id : bytes;
  sr_manifest_digest : bytes;
  sr_known_peers : list bytes;
}.

Record SyncResponse := {
  sp_protocol_version : Z;
  sp_share_id : bytes;
  sp_manifest_digest : bytes;
  sp_known_peers : list bytes;
}.

Record ManifestMessage := {
  mm_protocol_version : Z;
  mm_share_id : bytes;
  mm_manifest : Manifest;
}.

Record TransferFile := {
  tf_path : bytes;
  tf_sha256 : bytes;
  tf_size : Z;
  tf_offset : Z;
}.

Record TransferRequest := {
  tr_protocol_version : Z;
  tr_share_id : bytes;
  tr_download_paths : list bytes;
  tr_download_resumes : list TransferFile;
  tr_uploads : list TransferFile;
}.

Record TransferReady := {
  ty_protocol_version : Z;
  ty_share_id : bytes;
  ty_uploads : list TransferFile;
}.

Record TransferResponse := {
  ts_protocol_version : Z;
  ts_share_id : bytes;
  ts_manifest : Manifest;
  ts_files : list TransferFile;
}.

Record FilePayload := {
  fp_path : bytes;
  fp_sha256 : bytes;
  fp_content : bytes;
}.

Global Instance TransferFile_eq_dec : EqDecision TransferFile.
Proof. solve_decision. Defined.

(** A message of another protocol version or share. *)
Definition incompatible (protocol_version : Z) (message_share_id share_id : bytes) : bool :=
  negb (protocol_version =? PROTOCOL_VERSION)
  || negb (bool_decide (message_share_id = share_id)).

(** The loops that reject duplicates: [check] on every item, then insertion of
    its key in the [HashSet]. *)
Fixpoint unique_for {A} (check : A → result unit) (key : A → bytes) (duplicate : string)
    (unique : gset bytes) (l : list A) : result (gset bytes) :=
  match l with
  | [] => Ok unique
  | x :: l' =>
      check x;;
      bail_if (bool_decide (key x ∈ unique)) duplicate;;
      unique_for check key duplicate ({[key x]} ∪ unique) l'
  end.

Definition too_many_files : string := "network transfer contains too many files".
Definition duplicate_files : string := "network transfer contains duplicate file paths".

Definition validate_sha256 (value : bytes) : result unit :=
  bail_if (negb (is_sha256_text value))
    "network transfer hash must be 64 lowercase hexadecimal characters".

Definition validate_transfer_file (file : TransferFile) : result unit :=
  validate_manifest_path (tf_path file);;
  validate_sha256 (tf_sha256 file);;
  bail_if (tf_size file <? tf_offset file)
    "network transfer resume offset exceeds file size".

Definition validate_transfer_file_shapes (files : list TransferFile) : result unit :=
  bail_if (MAX_TRANSFER_FILES <? blen files) too_many_files;;
  unique_for validate_transfer_file tf_path duplicate_files ∅ files;; Ok tt.

Definition check_in_manifest (m : Manifest) (file : TransferFile) : result unit :=
  entry ← ok_or (mf_entries m !! tf_path file)
    "network transfer file is not present in its manifest";
  bail_if (negb (bool_decide (me_sha256 entry = tf_sha256 file))
           || negb (me_size entry =? tf_size file))
    "network transfer file metadata does not match its manifest".

(** [validate_transfer_files] and [validate_transfer_files_iter]. *)
Definition validate_transfer_files (files : list TransferFile) (m : Manifest) : result unit :=
  validate_transfer_file_shapes files;; try_for (check_in_manifest m) files.

Definition validate_path_list_unique (paths : list bytes) : result (gset bytes) :=
  bail_if (MAX_TRANSFER_FILES <? blen paths) "network file request contains too many paths";;
  unique_for validate_manifest_path id "network file request contains duplicate paths" ∅ paths.

Definition validate_path_list (paths : list bytes) : result unit :=
  validate_path_list_unique paths;; Ok tt.

(** The pairwise comparison of [validate_transfer_ready] and
    [send_upload_chunks]. *)
Definition same_file (x y : TransferFile) : bool :=
  bool_decide (tf_path x = tf_path y) && bool_decide (tf_sha256 x = tf_sha256 y)
  && (tf_size x =? tf_size y).

Definition validate_transfer_ready (ready : TransferReady) (share_id : bytes)
    (requested : list TransferFile) : result unit :=
  bail_if (incompatible (ty_protocol_version ready) (ty_share_id ready) share_id)
    "file transfer ready message has an incompatible protocol or share ID";;
  validate_transfer_file_shapes (ty_uploads ready);;
  bail_if (negb (blen (ty_uploads ready) =? blen requested))
    "file transfer ready message has an unexpected upload count";;
  try_for (λ '(actual, expected), bail_if (negb (same_file actual expected))
      "file transfer ready message does not match the request")
    (zip (ty_uploads ready) requested).

Section wire.
Context `{Iroh}.

Definition validate_wire_peers (peers : list bytes) : result unit :=
  bail_if (256 <? blen peers) "network peer list is too large";;
  unique_for (λ peer, parse_endpoint_id peer;; Ok tt) id
    "network peer list contains duplicates" ∅ peers;; Ok tt.

Definition validate_sync_request (request : SyncRequest) (share_id : bytes) : result unit :=
  bail_if (incompatible (sr_protocol_version request) (sr_share_id request) share_id)
    "sync request has an incompatible protocol or share ID";;
  validate_wire_peers (sr_known_peers request).

Definition validate_sync_response (response : SyncResponse) (share_id : bytes) : result unit :=
  bail_if (incompatible (sp_protocol_version response) (sp_share_id response) share_id)
    "sync response has an incompatible protocol or share ID";;
  validate_wire_peers (sp_known_peers response).

(** [ValidatedManifest]: the manifest, once it has passed validation. *)
Definition ValidatedManifest_validate (m : Manifest) (share_id : bytes) : result Manifest :=
  Manifest_validate m share_id;; Ok m.
Definition for_share (validated : Manifest) (share_id : bytes) : result Manifest :=
  bail_if (negb (bool_decide (mf_share_id validated = share_id)))
    "manifest share ID does not match its directory";;
  Ok validated.

Definition validate_manifest_message `{Blake3} (message : ManifestMessage)
    (share_id expected_digest : bytes) : result Manifest :=
  bail_if (incompatible (mm_protocol_version message) (mm_share_id message) share_id)
    "manifest message has an incompatible protocol or share ID";;
  validated ← ValidatedManifest_validate (mm_manifest message) share_id;
  bail_if (negb (bool_decide
      (sync_digest_after_validation (mm_manifest message) = expected_digest)))
    "manifest message does not match its advertised digest";;
  Ok validated.

Definition validate_transfer_request_with_validated_manifest (request : TransferRequest)
    (share_id : bytes) (manifest : Manifest) : result unit :=
  bail_if (incompatible (tr_protocol_version request) (tr_share_id request) share_id)
    "file transfer request has an incompatible protocol or share ID";;
  m ← for_share manifest share_id;
  requested_downloads ← validate_path_list_unique (tr_download_paths request);
  validate_transfer_files (tr_uploads request) m;;
  validate_transfer_file_shapes (tr_download_resumes request);;
  try_for (λ resume, bail_if (negb (bool_decide (tf_path resume ∈ requested_downloads)))
      "network transfer resume path was not requested")
    (tr_download_resumes request).

Definition validate_transfer_request (request : TransferRequest) (share_id : bytes)
    (manifest : Manifest) : result unit :=
  bail_if (incompatible (tr_protocol_version request) (tr_share_id request) share_id)
    "file transfer request has an incompatible protocol or share ID";;
  validated ← ValidatedManifest_validate manifest share_id;
  validate_transfer_request_with_validated_manifest request share_id validated.

Definition validate_transfer_response (response : TransferResponse) (share_id : bytes)
    : result Manifest :=
  bail_if (incompatible (ts_protocol_version response) (ts_share_id response) share_id)
    "file transfer response has an incompatible protocol or share ID";;
  validated ← ValidatedManifest_validate (ts_manifest response) share_id;
  validate_transfer_files (ts_files response) (ts_manifest response);;
  Ok validated.
End wire.

Section payloads.
Context `{Base64Codec, HexCodec, Sha256}.

Definition check_payload (m : Manifest) (unique : gset bytes) (file : FilePayload)
    : result (gset bytes) :=
  validate_manifest_path (fp_path file);;
  bail_if (bool_decide (fp_path file ∈ unique)) duplicate_files;;
  entry ← ok_or (mf_entries m !! fp_path file) "network file is not present in its manifest";
  bail_if (negb (bool_decide (me_sha256 entry = fp_sha256 file)))
    "network file hash does not match its manifest";;
  data ← ok_or (b64_decode (fp_content file)) "network file payload is not valid base64url";
  bail_if (negb (bool_decide (b64_encode data = fp_content file)))
    "network file payload must use canonical base64url encoding";;
  bail_if (negb (blen data =? me_size entry)) "network file payload has an invalid length";;
  bail_if (negb (bool_decide (hex_encode (sha256 data) = me_sha256 entry)))
    "network file payload has an invalid hash";;
  Ok ({[fp_path file]} ∪ unique).

Definition validate_file_payloads (files : list FilePayload) (m : Manifest) : result unit :=
  bail_if (MAX_TRANSFER_FILES <? blen files) too_many_files;;
  try_fold (check_payload m) files ∅;; Ok tt.
End payloads.

(** ** What the validators accept *)

Lemma unique_for_Ok {A} (check : A → result unit) key dup unique l s :
  unique_for check key dup unique l = Ok s ↔
  Forall (λ x, check x = Ok tt) l ∧ NoDup (map key l) ∧
  (∀ k, k ∈ map key l → k ∉ unique) ∧ s = list_to_set (map key l) ∪ unique.
Proof.
  revert unique. induction l as [|x l IH]; intros unique; simpl.
  - split; [intros [= <-]|intros (_ & _ & _ & ->)]; [|f_equal; set_solver].
    split_and!; [apply Forall_nil_2|constructor|by intros ? ?%not_elem_of_nil|set_solver].
  - destruct (check x) as [[]|e] eqn:Ec; simpl.
    + case_bool_decide as Hin; simpl.
      * split; [done|]. intros (_ & _ & Hn & _). by destruct (Hn (key x)); [left|].
      * rewrite IH, Forall_cons, NoDup_cons. split.
        -- intros (Hc & Hnd & Hn & ->). split_and!; try done.
           ++ intros Hk. apply (Hn (key x)) in Hk. set_solver.
           ++ intros k [->|Hk]%elem_of_cons; [done|]. apply Hn in Hk. set_solver.
           ++ set_solver.
        -- intros ((_ & Hc) & (Hni & Hnd) & Hn & ->). split_and!; try done; [|set_solver].
           intros k Hk. apply not_elem_of_union. split; [|apply Hn; by right].
           intros ->%elem_of_singleton. done.
    + rewrite Forall_cons. split; [done|]. intros [[? _] _]. congruence.
Qed.

Definition file_shape_ok (f : TransferFile) : Prop :=
  validate_manifest_path (tf_path f) = Ok tt ∧ is_sha256_text (tf_sha256 f) = true ∧
  tf_offset f ≤ tf_size f.

(** Whole lists: few, distinct, well-shaped files. *)
Definition shapes_ok (files : list TransferFile) : Prop :=
  blen files ≤ MAX_TRANSFER_FILES ∧ Forall file_shape_ok files ∧ NoDup (map tf_path files).

Lemma validate_transfer_file_Ok f : validate_transfer_file f = Ok tt ↔ file_shape_ok f.
Proof.
  unfold validate_transfer_file, file_shape_ok, validate_sha256.
  destruct (validate_manifest_path (tf_path f)) as [[]|]; simpl; [|naive_solver].
  destruct (is_sha256_text (tf_sha256 f)); simpl; [|naive_solver].
  destruct (Z.ltb_spec (tf_size f) (tf_offset f)); simpl; naive_solver lia.
Qed.

Lemma validate_shapes_Ok files :
  validate_transfer_file_shapes files = Ok tt ↔ shapes_ok files.
Proof.
  unfold validate_transfer_file_shapes, shapes_ok.
  destruct (Z.ltb_spec MAX_TRANSFER_FILES (blen files)); simpl; [naive_solver lia|].
  pose proof (unique_for_Ok validate_transfer_file tf_path duplicate_files ∅ files) as Hu.
  assert (Hf : Forall (λ x, validate_transfer_file x = Ok tt) files ↔ Forall file_shape_ok files).
  { split; intros Ha; (eapply Forall_impl; [exact Ha|]); intros x; apply validate_transfer_file_Ok. }
  destruct (unique_for _ _ _ _ _) as [s|e]; simpl.
  - split; [intros _|done]. destruct (Hu s) as [Hu1 _]. destruct (Hu1 eq_refl) as (? & ? & _).
    split_and!; [lia|by apply Hf|done].
  - split; [done|]. intros (_ & Ha & Hnd). exfalso.
    assert (Hok : Err e = Ok (list_to_set (map tf_path files) ∪ ∅ : gset bytes)); [|done].
    apply Hu. split_and!; [by apply Hf|done|set_solver|done].
Qed.

(** The file is recorded in the manifest with this hash and size. *)
Definition in_manifest (m : Manifest) (f : TransferFile) : Prop :=
  ∃ e, mf_entries m !! tf_path f = Some e ∧ me_sha256 e = tf_sha256 f ∧ me_size e = tf_size f.

Lemma check_in_manifest_Ok m f : check_in_manifest m f = Ok tt ↔ in_manifest m f.
Proof.
  unfold check_in_manifest, in_manifest. destruct (mf_entries m !! tf_path f) as [e|]; simpl;
    [|naive_solver].
  case_bool_decide; simpl; [|naive_solver].
  destruct (Z.eqb_spec (me_size e) (tf_size f)); simpl; naive_solver.
Qed.

Lemma validate_transfer_files_Ok files m :
  validate_transfer_files files m = Ok tt ↔ shapes_ok files ∧ Forall (in_manifest m) files.
Proof.
  unfold validate_transfer_files. rewrite <-validate_shapes_Ok.
  destruct (validate_transfer_file_shapes files) as [[]|]; simpl; [|naive_solver].
  rewrite try_for_Ok. assert (Forall (λ x, check_in_manifest m x = Ok tt) files ↔
    Forall (in_manifest m) files); [|naive_solver].
  split; intros Ha; (eapply Forall_impl; [exact Ha|]); intros x; apply check_in_manifest_Ok.
Qed.

Lemma validate_path_list_Ok paths s :
  validate_path_list_unique paths = Ok s ↔
  blen paths ≤ MAX_TRANSFER_FILES ∧ Forall (λ p, validate_manifest_path p = Ok tt) paths ∧
  NoDup paths ∧ s = list_to_set paths.
Proof.
  unfold validate_path_list_unique.
  destruct (Z.ltb_spec MAX_TRANSFER_FILES (blen paths)); simpl; [naive_solver lia|].
  rewrite unique_for_Ok, map_id. split.
  - intros (? & ? & _ & ->). split_and!; [lia|done|done|set_solver].
  - intros (_ & ? & ? & ->). split_and!; [done|done|set_solver|set_solver].
Qed.

Lemma transfer_request_accepted `{Iroh} (request : TransferRequest) (share_id : bytes)
    (m : Manifest) :
  validate_transfer_request request share_id m = Ok tt ↔
  tr_protocol_version request = PROTOCOL_VERSION ∧ tr_share_id request = share_id ∧
  manifest_valid m share_id ∧
  (blen (tr_download_paths request) ≤ MAX_TRANSFER_FILES ∧ NoDup (tr_download_paths request) ∧
   Forall (λ p, validate_manifest_path p = Ok tt) (tr_download_paths request)) ∧
  (shapes_ok (tr_uploads request) ∧ Forall (in_manifest m) (tr_uploads request)) ∧
  (shapes_ok (tr_download_resumes request) ∧
   ∀ f, f ∈ tr_download_resumes request → tf_path f ∈ tr_download_paths request).
Proof.
  unfold validate_transfer_request, validate_transfer_request_with_validated_manifest,
    ValidatedManifest_validate, for_share, incompatible.
  rewrite <-Manifest_validate_Ok, <-validate_transfer_files_Ok, <-validate_shapes_Ok.
  destruct (Z.eqb_spec (tr_protocol_version request) PROTOCOL_VERSION); simpl; [|naive_solver].
  case_bool_decide as Hs; simpl; [|naive_solver].
  destruct (Manifest_validate m share_id) as [[]|] eqn:Em; simpl; [|naive_solver].
  apply Manifest_validate_Ok in Em as Hm. rewrite bool_decide_true by apply (mv_share _ _ Hm).
  simpl. pose proof (validate_path_list_Ok (tr_download_paths request)) as Hp.
  destruct (validate_path_list_unique _) as [s|err]; simpl.
  - destruct (Hp s) as [(? & ? & ? & ->) _]; [done|]. clear Hp.
    destruct (validate_transfer_files _ m) as [[]|]; simpl; [|naive_solver].
    destruct (validate_transfer_file_shapes _) as [[]|]; simpl; [|naive_solver].
    rewrite try_for_Ok, List.Forall_forall.
    assert (∀ f, bail_if (negb (bool_decide
        (tf_path f ∈ (list_to_set (tr_download_paths request) : gset bytes))))
        "network transfer resume path was not requested" = Ok tt ↔
      tf_path f ∈ tr_download_paths request) as Hb.
    { intros f. rewrite bail_if_Ok, negb_false_iff, bool_decide_eq_true. set_solver. }
    setoid_rewrite <-list_elem_of_In. naive_solver.
  - split; [done|]. intros (_ & _ & _ & (? & ? & ?) & _). exfalso.
    assert (Err err = Ok (list_to_set (tr_download_paths request) : gset bytes)); [|done].
    by apply Hp.
Qed.

(** ** Properties *)

(** A transfer request is accepted exactly when it has this protocol and
    share, at most 256 distinct safe download paths, at most 256 distinct uploads
    that match the requester's manifest in hash and size, and resume positions
    within their files that refer to requested downloads only. *)
Lemma transfer_request_accepted_iff `{Iroh} (request : TransferRequest) (share_id : bytes)
    (m : Manifest) :
  validate_transfer_request request share_id m = Ok tt ↔
  tr_protocol_version request = PROTOCOL_VERSION ∧ tr_share_id request = share_id ∧
  manifest_valid m share_id ∧
  (blen (tr_download_paths request) ≤ MAX_TRANSFER_FILES ∧ NoDup (tr_download_paths request) ∧
   Forall (λ p, validate_manifest_path p = Ok tt) (tr_download_paths request)) ∧
  (shapes_ok (tr_uploads request) ∧ Forall (in_manifest m) (tr_uploads request)) ∧
  (shapes_ok (tr_download_resumes request) ∧
   ∀ f, f ∈ tr_download_resumes request → tf_path f ∈ tr_download_paths request).
Proof. apply transfer_request_accepted. Qed.
