(* ===== verification/LocalFs.v ===== *)
(** * The shared directory (src/network/local.rs)

    The tree below the root of a share, as seen by the process: nodes by the
    names that lead to them.  [safe_local_path] checks, name by name, that a
    manifest path goes through directories only, so that no operation leaves the
    tree through a symbolic link. *)

From S2P Require Import Prelude Collections Bytes External Reference ManifestPath Manifest.

(** The class of permission bits that applies to the process. *)
Inductive relation_to := Owner | Member | Stranger.

Inductive kind :=
| KFile (content : bytes)
| KDir
| KSymlink (target : bytes)
| KSpecial.

Record node := {
  n_kind : kind;
  n_mode : Z;
  n_relation : relation_to;
  n_modified : Z;
}.

(** The root is at []; a node is at the names below it. *)
Notation tree := (gmap (list bytes) node).

(** The outcome of a system call: [Outside] marks a path that would leave the
    tree through a symbolic link. *)
Inductive io_error := NotFound | Refused | Outside.
Inductive io (A : Type) := Done (a : A) | Fails (e : io_error).
Arguments Done {_} _.
Arguments Fails {_} _.

Definition is_dir (n : node) : bool := match n_kind n with KDir => true | _ => false end.
Definition is_file (n : node) : bool := match n_kind n with KFile _ => true | _ => false end.
Definition is_symlink (n : node) : bool :=
  match n_kind n with KSymlink _ => true | _ => false end.

(** Permission bits, octal 0300, 0030 and 0003: write and search. *)
Definition OWNER_WX : Z := 192.
Definition GROUP_WX : Z := 24.
Definition OTHER_WX : Z := 3.

(** The bits that apply to the process, of a class given for the owner. *)
Definition bits_for (n : node) (owner group other : Z) : bool :=
  let required :=
    match n_relation n with Owner => owner | Member => group | Stranger => other end in
  Z.land (n_mode n) required =? required.

(** Whether the process may search a directory (octal 0100, 0010, 0001). *)
Definition may_search (n : node) : bool := bits_for n 64 8 1.

(** Whether the process may change the entries of a directory. *)
Definition may_write (n : node) : bool := bits_for n OWNER_WX GROUP_WX OTHER_WX.

(** The directories a path goes through, from the root on. *)
Definition prefixes (p : list bytes) : list (list bytes) :=
  map (λ n, take n p) (seq 0 (length p)).

(** The directories a path goes through are there and may be searched. *)
Fixpoint walk (t : tree) (ps : list (list bytes)) : io unit :=
  match ps with
  | [] => Done tt
  | p :: ps' =>
      match t !! p with
      | None => Fails NotFound
      | Some n =>
          if is_dir n then (if may_search n then walk t ps' else Fails Refused)
          else Fails (if is_symlink n then Outside else Refused)
      end
  end.

(** [fs::symlink_metadata]. *)
Definition lstat (t : tree) (p : list bytes) : io node :=
  match walk t (prefixes p) with
  | Fails e => Fails e
  | Done _ => match t !! p with Some n => Done n | None => Fails NotFound end
  end.

(** The directory that holds [p], for a path below the root. *)
Definition parent (p : list bytes) : list bytes := removelast p.

Definition new_node (k : kind) (mode now : Z) : node :=
  {| n_kind := k; n_mode := mode; n_relation := Owner; n_modified := now |}.

(** [fs::create_dir]: [mode] is what the umask leaves of 0777. *)
Definition create_dir (t : tree) (p : list bytes) (mode now : Z) : io tree :=
  match lstat t p with
  | Done _ => Fails Refused
  | Fails NotFound =>
      match lstat t (parent p) with
      | Done d =>
          if is_dir d && may_write d then Done (<[p := new_node KDir mode now]> t)
          else Fails Refused
      | Fails e => Fails e
      end
  | Fails e => Fails e
  end.

(** [directory_root]: the registered directory is there. *)
Definition directory_root (t : tree) : result unit :=
  match t !! [] with
  | None => Err "unable to inspect local directory"
  | Some n => bail_if (negb (is_dir n)) "registered local path is not a directory"
  end.

(** ** [safe_local_path] *)

Definition symlink_parent : string := "shared path contains a symbolic link".
Definition parent_not_dir : string := "shared path parent is not a directory".

(** The environment of a call: the mode of new directories, the time, and the changes of
    modes that fail although the process owns the node, as on a read-only file system. *)
Record env := { e_mode : Z; e_now : Z; e_chmod_fails : list bytes → Z → bool }.

(** The loop over the parents.  A piece that the path drops, such as [.], names
    the directory reached so far. *)
Fixpoint safe_parents (t : tree) (e : env) (reached : list bytes) (pieces : list bytes)
    (writing : bool) : result unit * tree :=
  match pieces with
  | [] => (Ok tt, t)
  | piece :: rest =>
      let next :=
        if bool_decide (piece = []) || bool_decide (piece = [dot]) then reached
        else reached ++ [piece] in
      match lstat t next with
      | Done n =>
          if is_symlink n then (Err symlink_parent, t)
          else if negb (is_dir n) then (Err parent_not_dir, t)
          else safe_parents t e next rest writing
      | Fails NotFound =>
          if writing then
            match create_dir t next (e_mode e) (e_now e) with
            | Done t' => safe_parents t' e next rest writing
            | Fails _ => (Err "unable to create shared directory", t)
            end
          else safe_parents t e next rest writing
      | Fails _ => (Err "unable to inspect", t)
      end
  end.

(** The names below the root that the target stands for. *)
Definition safe_local_path (t : tree) (e : env) (manifest_path : bytes) (writing : bool)
    : result (list bytes) * tree :=
  match validate_manifest_path manifest_path with
  | Err m => (Err m, t)
  | Ok _ =>
      let '(r, t') := safe_parents t e [] (removelast (split_slash manifest_path)) writing in
      match r with
      | Err m => (Err m, t')
      | Ok _ => (Ok (path_names manifest_path), t')
      end
  end.

Definition manifest_path_depth (path : bytes) : nat :=
  (length (List.filter (Byte.eqb slash) path) + 1)%nat.

(** ** Directories on the way *)

(** Every directory on the way is present or, from some point on, missing. *)
Definition clear_way (t : tree) (p : list bytes) : Prop :=
  ∀ q n, q ∈ prefixes p → t !! q = Some n → is_dir n = true.

Lemma walk_Outside t ps :
  (∀ q n, q ∈ ps → t !! q = Some n → is_dir n = true) → walk t ps ≠ Fails Outside.
Proof.
  induction ps as [|p ps IH]; intros Hc; simpl; [done|].
  destruct (t !! p) as [n|] eqn:E; [|done].
  rewrite (Hc p n) by (done || by left). destruct (may_search n); [|done]. apply IH.
  intros q m Hq. apply Hc. by right.
Qed.

Lemma lstat_not_outside t p : clear_way t p → lstat t p ≠ Fails Outside.
Proof.
  intros Hc. unfold lstat. pose proof (walk_Outside t (prefixes p) Hc).
  destruct (walk t (prefixes p)); [by destruct (t !! p)|congruence].
Qed.

Lemma walk_Done t ps :
  walk t ps = Done tt ↔
  ∀ q, q ∈ ps → ∃ n, t !! q = Some n ∧ is_dir n = true ∧ may_search n = true.
Proof.
  induction ps as [|p ps IH]; simpl.
  - split; [|done]. by intros _ q ?%not_elem_of_nil.
  - destruct (t !! p) as [n|] eqn:E.
    + destruct (is_dir n) eqn:Ed; [destruct (may_search n) eqn:Es|].
      * rewrite IH. split.
        -- intros Hq q [->|Hin]%elem_of_cons; [by exists n|by apply Hq].
        -- intros Hq q Hin. apply Hq. by right.
      * split; [done|]. intros Hq. destruct (Hq p) as (m & Hm & _ & Hs); [by left|]. congruence.
      * split; [done|]. intros Hq. destruct (Hq p) as (m & Hm & Hd & _); [by left|]. congruence.
    + split; [done|]. intros Hq. destruct (Hq p) as (m & Hm & _); [by left|]. congruence.
Qed.

Lemma walk_NotFound t ps :
  walk t ps = Fails NotFound → ∃ q, q ∈ ps ∧ t !! q = None.
Proof.
  induction ps as [|p ps IH]; simpl; [done|]. destruct (t !! p) as [n|] eqn:E.
  - destruct (is_dir n); [|by destruct (is_symlink n)]. destruct (may_search n); [|done].
    intros (q & Hq & Hn)%IH. exists q. split; [by right|done].
  - intros _. exists p. split; [by left|done].
Qed.

Lemma elem_of_prefixes q p : q ∈ prefixes p ↔ ∃ r, p = q ++ r ∧ r ≠ [].
Proof.
  unfold prefixes. rewrite list_elem_of_In, in_map_iff. split.
  - intros (n & <- & Hn%in_seq). exists (drop n p). rewrite take_drop. split; [done|].
    intros E. apply (f_equal length) in E. rewrite length_drop in E. simpl in E. lia.
  - intros (r & -> & Hr). exists (length q). rewrite take_app_length. split; [done|].
    apply in_seq. rewrite length_app. destruct r; [done|simpl; lia].
Qed.

Lemma prefixes_snoc p x : prefixes (p ++ [x]) = prefixes p ++ [p].
Proof.
  unfold prefixes. rewrite length_app, Nat.add_1_r, seq_S, map_app. simpl.
  rewrite take_app_length. f_equal. apply map_ext_in. intros n Hn%in_seq.
  by rewrite take_app_le by lia.
Qed.

(** A tree: its root is a directory, and so is the parent of every node. *)
Definition tree_wf (t : tree) : Prop :=
  (∃ d, t !! [] = Some d ∧ is_dir d = true) ∧
  ∀ p x n, t !! (p ++ [x]) = Some n → ∃ d, t !! p = Some d ∧ is_dir d = true.

(** No node on the way to [p], nor [p] itself, is anything but a directory. *)
Definition safe (t : tree) (p : list bytes) : Prop :=
  ∀ q r n, p = q ++ r → t !! q = Some n → is_dir n = true.

Lemma safe_clear t p x : safe t p → clear_way t (p ++ [x]).
Proof.
  intros Hs q n Hq Hn. rewrite prefixes_snoc, elem_of_app, elem_of_prefixes, list_elem_of_singleton in Hq.
  destruct Hq as [(r & -> & _)| ->]; [by eapply Hs|]. eapply (Hs p []); [by rewrite app_nil_r|done].
Qed.

Lemma safe_clear_self t p : safe t p → clear_way t p.
Proof. intros Hs q n (r & -> & _)%elem_of_prefixes Hn. by eapply Hs. Qed.

Lemma tree_wf_ancestors t p r n :
  tree_wf t → r ≠ [] → t !! (p ++ r) = Some n → ∃ d, t !! p = Some d ∧ is_dir d = true.
Proof.
  intros [_ Hw] Hr. revert n. induction r as [|x r IH] using rev_ind; intros n Hn; [done|].
  rewrite app_assoc in Hn. apply Hw in Hn as (d & Hd & Hdir).
  destruct r as [|y r]; [by rewrite app_nil_r in Hd; eauto|]. by eapply IH.
Qed.

Lemma lstat_Done t p n : lstat t p = Done n → t !! p = Some n.
Proof.
  unfold lstat. destruct (walk _ _); [|done]. destruct (t !! p); [|done]. by intros [= ->].
Qed.

Lemma lstat_NotFound t p : tree_wf t → lstat t p = Fails NotFound → t !! p = None.
Proof.
  intros Hw. unfold lstat. destruct (walk t (prefixes p)) as [|e] eqn:Ewalk.
  - by destruct (t !! p).
  - intros [= ->]. apply walk_NotFound in Ewalk as (q & (r & -> & Hr)%elem_of_prefixes & Hq).
    destruct (t !! (q ++ r)) as [n|] eqn:En; [|done].
    destruct (tree_wf_ancestors t q r n) as (d & Hd & _); [done..|]. congruence.
Qed.

Lemma create_dir_Done t p mode now t' :
  tree_wf t → p ≠ [] → create_dir t p mode now = Done t' →
  t !! p = None ∧ t' = <[p := new_node KDir mode now]> t ∧ tree_wf t'.
Proof.
  intros Hw Hp. unfold create_dir. destruct (lstat t p) as [|[]] eqn:El; try done.
  destruct (lstat t (parent p)) as [d|] eqn:Ed; [|done].
  destruct (is_dir d) eqn:Edir; [|done]. destruct (may_write d); [|done]. simpl.
  intros [= <-]. apply lstat_NotFound in El as Hn; [|done]. apply lstat_Done in Ed.
  split_and!; [done|done|]. destruct Hw as [(d0 & Hd0 & Hdir0) Hw]. split.
  - exists d0. by rewrite lookup_insert_ne.
  - intros q x n Hq. destruct (decide (q ++ [x] = p)) as [<-|Hne].
    + unfold parent in Ed. rewrite removelast_last in Ed. exists d.
      rewrite lookup_insert_ne; [done|]. intros E. apply (f_equal length) in E.
      rewrite length_app in E. simpl in E. lia.
    + rewrite lookup_insert_ne in Hq by done. destruct (Hw q x n Hq) as (d' & Hd' & Hdir').
      destruct (decide (q = p)) as [->|]; [congruence|]. exists d'. by rewrite lookup_insert_ne.
Qed.

(** Only directories are added. *)
Definition grown (t t' : tree) : Prop :=
  (∀ q n, t !! q = Some n → t' !! q = Some n) ∧
  (∀ q n, t !! q = None → t' !! q = Some n → is_dir n = true).

Lemma grown_refl t : grown t t.
Proof. split; [done|]. congruence. Qed.

Lemma grown_trans t1 t2 t3 : grown t1 t2 → grown t2 t3 → grown t1 t3.
Proof.
  intros [H1 D1] [H2 D2]. split; [eauto|]. intros q n Hq Hn.
  destruct (t2 !! q) as [m|] eqn:E; [|by eapply D2].
  pose proof (H2 q m E). assert (m = n) by congruence. subst. by eapply D1.
Qed.

Definition piece_names (pieces : list bytes) : list bytes :=
  List.filter (λ p, negb (bool_decide (p = [])) && negb (bool_decide (p = [dot]))) pieces.

Lemma piece_names_cons piece rest :
  piece_names (piece :: rest) =
    (if bool_decide (piece = []) || bool_decide (piece = [dot]) then [] else [piece])
    ++ piece_names rest.
Proof. unfold piece_names; simpl. repeat case_bool_decide; done. Qed.

Lemma safe_snoc t p x :
  safe t p → (∀ n, t !! (p ++ [x]) = Some n → is_dir n = true) → safe t (p ++ [x]).
Proof.
  intros Hs Hx q r n E Hn. destruct r as [|y r _] using rev_ind.
  - rewrite app_nil_r in E. subst q. by apply Hx.
  - rewrite app_assoc in E. apply app_inj_tail in E as [E _]. by eapply Hs.
Qed.

Lemma safe_parents_Ok t e reached pieces writing t' :
  tree_wf t → safe t reached → safe_parents t e reached pieces writing = (Ok tt, t') →
  tree_wf t' ∧ grown t t' ∧ safe t' (reached ++ piece_names pieces) ∧
  (writing = false → t' = t).
Proof.
  revert t reached. induction pieces as [|piece rest IH]; intros t reached Hw Hs Hp; simpl in Hp.
  - injection Hp as <-. rewrite app_nil_r. split_and!; [done|apply grown_refl|done|done].
  - rewrite piece_names_cons, app_assoc.
    set (skip := bool_decide (piece = []) || bool_decide (piece = [dot])) in *.
    assert (Hnext : (if skip then reached else reached ++ [piece]) =
      reached ++ (if skip then [] else [piece])) by (destruct skip; by rewrite ?app_nil_r).
    rewrite Hnext in Hp. set (next := reached ++ _) in *.
    assert (Hsafe : (∀ n, t !! next = Some n → is_dir n = true) → safe t next).
    { intros Hd. unfold next in *. destruct skip; [by rewrite app_nil_r in *|].
      by apply safe_snoc. }
    destruct (lstat t next) as [n|[]] eqn:El; [| |done|done].
    + apply lstat_Done in El. destruct (is_symlink n); [done|].
      destruct (is_dir n) eqn:Ed; [|done]. simpl in Hp.
      apply IH in Hp; [done|done|]. apply Hsafe. intros m Hm. congruence.
    + apply lstat_NotFound in El as Hn; [|done]. destruct writing.
      * destruct (create_dir t next _ _) as [t1|] eqn:Ec; [|done].
        assert (Hne : next ≠ []) by (intros E; rewrite E in Hn; by destruct Hw as [(? & ? & _) _]; congruence).
        apply create_dir_Done in Ec as (_ & -> & Hw1); [|done|done].
        set (d := new_node KDir (e_mode e) (e_now e)) in *.
        assert (Hg : grown t (<[next := d]> t)).
        { split.
          - intros q m Hm. rewrite lookup_insert_ne; [done|congruence].
          - intros q m Hq Hm. destruct (decide (q = next)) as [->|].
            + rewrite lookup_insert_eq in Hm. by injection Hm as <-.
            + rewrite lookup_insert_ne in Hm by done. congruence. }
        apply IH in Hp as (Hw' & Hg' & Hs' & _); [|done|].
        -- split_and!; [done|by eapply grown_trans|done|done].
        -- assert (Hst : safe t next) by (apply Hsafe; congruence).
           intros q r m E Hm. destruct (decide (q = next)) as [->|].
           ++ rewrite lookup_insert_eq in Hm. by injection Hm as <-.
           ++ rewrite lookup_insert_ne in Hm by done. by eapply Hst.
      * apply IH in Hp; [done|done|]. apply Hsafe. congruence.
Qed.

Lemma split_names path :
  ∃ last_piece, path_names path =
    piece_names (removelast (split_slash path)) ++ piece_names [last_piece].
Proof.
  pose proof (split_slash_nonempty path) as Hne.
  exists (List.last (split_slash path) []). unfold path_names, piece_names.
  rewrite <-List.filter_app. by rewrite <-app_removelast_last.
Qed.

Lemma safe_local_path_Ok t e path writing names t' :
  tree_wf t → safe_local_path t e path writing = (Ok names, t') →
  names = path_names path ∧ names ≠ [] ∧ tree_wf t' ∧ grown t t' ∧ clear_way t' names ∧
  (writing = false → t' = t).
Proof.
  intros Hw. unfold safe_local_path.
  destruct (validate_manifest_path path) as [[]|] eqn:Ev; [|done].
  destruct (safe_parents t e [] _ writing) as [[[]|] t1] eqn:Ep; [|done].
  intros [= <- <-]. apply safe_parents_Ok in Ep as (Hw' & Hg & Hs & Hr); [|done|].
  - simpl in Hs. destruct (split_names path) as (x & Hx).
    apply validate_manifest_path_components in Ev as (_ & Hne & _).
    split_and!; try done. rewrite Hx.
    rewrite piece_names_cons. destruct (_ || _).
    + rewrite !app_nil_r. by apply safe_clear_self.
    + rewrite app_nil_r. by apply safe_clear.
  - destruct Hw as [(d & Hd & Hdir) _]. intros q r n E Hn.
    destruct q, r; simplify_eq; congruence.
Qed.

(** ** Permissions on the way *)

Definition set_mode (n : node) (mode : Z) : node :=
  {| n_kind := n_kind n; n_mode := mode; n_relation := n_relation n;
     n_modified := n_modified n |}.

(** [fs::set_permissions], on a path that was found not to be a link: only the
    owner may, and the system can still refuse.  [n_mode] holds the twelve permission
    bits. *)
Definition chmod (e : env) (t : tree) (p : list bytes) (mode : Z) : io tree :=
  match lstat t p with
  | Done n =>
      if is_symlink n then Fails Outside
      else match n_relation n with
           | Owner => if e_chmod_fails e p mode then Fails Refused else Done (<[p := set_mode n mode]> t)
           | _ => Fails Refused
           end
  | Fails e => Fails e
  end.

Record PermissionRestore := { pr_path : list bytes; pr_permissions : Z }.

Definition directory_mode_allows_non_owner_writes (permissions : Z) : bool :=
  existsb (λ required, Z.land permissions required =? required) [GROUP_WX; OTHER_WX].

Definition prepare_inspected_directory_for_write (e : env) (t : tree) (p : list bytes) (n : node)
    (restore_existing_permissions : bool) (restores : list PermissionRestore)
    : result (list PermissionRestore) * tree :=
  if is_symlink n then (Err symlink_parent, t)
  else if negb (is_dir n) then (Err parent_not_dir, t)
  else if Z.land (n_mode n) OWNER_WX =? OWNER_WX then (Ok restores, t)
  else
    match chmod e t p (Z.lor (n_mode n) OWNER_WX) with
    | Done t' =>
        (Ok (if restore_existing_permissions
             then restores ++ [{| pr_path := p; pr_permissions := n_mode n |}]
             else restores), t')
    | Fails _ =>
        if directory_mode_allows_non_owner_writes (n_mode n) then (Ok restores, t)
        else (Err "unable to make shared directory writable", t)
    end.

Definition prepare_directory_for_write (e : env) (t : tree) (p : list bytes)
    (restore_existing_permissions : bool) (restores : list PermissionRestore)
    : result (list PermissionRestore) * tree :=
  match lstat t p with
  | Done n => prepare_inspected_directory_for_write e t p n restore_existing_permissions restores
  | Fails _ => (Err "unable to inspect shared directory", t)
  end.

(** The loop of [with_writable_parents] over the parents: what is to be restored
    is returned also when the preparation fails. *)
Fixpoint prepare_parents (t : tree) (e : env) (reached : list bytes) (pieces : list bytes)
    (create_missing_parents : bool) (restores : list PermissionRestore)
    : result unit * list PermissionRestore * tree :=
  match pieces with
  | [] => (Ok tt, restores, t)
  | piece :: rest =>
      let next :=
        if bool_decide (piece = []) || bool_decide (piece = [dot]) then reached
        else reached ++ [piece] in
      match lstat t next with
      | Done n =>
          match prepare_inspected_directory_for_write e t next n true restores with
          | (Ok restores', t') =>
              prepare_parents t' e next rest create_missing_parents restores'
          | (Err m, t') => (Err m, restores, t')
          end
      | Fails NotFound =>
          if create_missing_parents then
            match create_dir t next (e_mode e) (e_now e) with
            | Fails _ => (Err "unable to create shared directory", restores, t)
            | Done t' =>
                match prepare_directory_for_write e t' next false restores with
                | (Ok restores', t'') =>
                    prepare_parents t'' e next rest create_missing_parents restores'
                | (Err m, t'') => (Err m, restores, t'')
                end
            end
          else prepare_parents t e next rest create_missing_parents restores
      | Fails _ => (Err "unable to inspect", restores, t)
      end
  end.

(** [restores.into_iter().rev().try_for_each]. *)
Definition restore_failed : string := "unable to restore permissions on shared directory".
Fixpoint restore_loop (e : env) (t : tree) (restores : list PermissionRestore) : result unit * tree :=
  match restores with
  | [] => (Ok tt, t)
  | r :: rest =>
      match chmod e t (pr_path r) (pr_permissions r) with
      | Done t' => restore_loop e t' rest
      | Fails _ => (Err restore_failed, t)
      end
  end.
Definition restore_parent_permissions (e : env) (t : tree) (restores : list PermissionRestore)
    : result unit * tree := restore_loop e t (rev restores).

(** The preparation: the root, then the parents. *)
Definition prepare_way (t : tree) (e : env) (manifest_path : bytes)
    (create_missing_parents : bool) : result unit * list PermissionRestore * tree :=
  match prepare_directory_for_write e t [] true [] with
  | (Ok restores, t0) =>
      prepare_parents t0 e [] (removelast (split_slash manifest_path))
        create_missing_parents restores
  | (Err m, t0) => (Err m, [], t0)
  end.

Definition with_writable_parents {A : Type} (t : tree) (e : env) (manifest_path : bytes)
    (create_missing_parents : bool) (operation : tree → result A * tree) : result A * tree :=
  match validate_manifest_path manifest_path with
  | Err m => (Err m, t)
  | Ok _ =>
      let '(preparation, restores, t1) := prepare_way t e manifest_path create_missing_parents in
      match preparation with
      | Err m => (Err m, (restore_parent_permissions e t1 restores).2)
      | Ok _ =>
          let '(r, t2) := operation t1 in
          let '(restored, t3) := restore_parent_permissions e t2 restores in
          (match r, restored with
           | Err m, _ => Err m
           | Ok _, Err m => Err m
           | Ok value, Ok _ => Ok value
           end, t3)
      end
  end.

(** ** Changing the tree *)

Definition has_children (t : tree) (p : list bytes) : bool :=
  existsb (λ '(q, _), (length q =? S (length p))%nat && bool_decide (take (length p) q = p))
    (map_to_list t).

(** The directory of [p] can be changed. *)
Definition parent_writable (t : tree) (p : list bytes) : bool :=
  match lstat t (parent p) with Done d => is_dir d && may_write d | Fails _ => false end.

Definition remove_file (t : tree) (p : list bytes) : io tree :=
  match lstat t p with
  | Done n => if negb (is_dir n) && parent_writable t p then Done (delete p t) else Fails Refused
  | Fails e => Fails e
  end.

Definition remove_dir (t : tree) (p : list bytes) : io tree :=
  match lstat t p with
  | Done n =>
      if is_dir n && negb (has_children t p) && parent_writable t p
      then Done (delete p t) else Fails Refused
  | Fails e => Fails e
  end.

(** [fs::rename] of a node staged outside the tree over [p]. *)
Definition install (t : tree) (p : list bytes) (n : node) : io tree :=
  match lstat t p with
  | Fails NotFound => if parent_writable t p then Done (<[p := n]> t) else Fails Refused
  | Done old =>
      if negb (is_dir old) && parent_writable t p then Done (<[p := n]> t) else Fails Refused
  | Fails e => Fails e
  end.

Definition set_permissions (e : env) (t : tree) (target : list bytes) (permissions : Z) (directory : bool)
    : result unit * tree :=
  match lstat t target with
  | Fails _ => (Err "unable to inspect shared path", t)
  | Done n =>
      if is_symlink n then (Err "refusing to change permissions on symbolic link", t)
      else if negb (Bool.eqb directory (is_dir n)) || (negb directory && negb (is_file n))
      then (Err "shared path has an unexpected type", t)
      else if n_mode n =? permissions then (Ok tt, t)
      else match chmod e t target permissions with
           | Done t' => (Ok tt, t')
           | Fails _ => (Err "unable to set permissions", t)
           end
  end.

(** Runs [k] on the target of a manifest path. *)
Definition on_target {A : Type} (t : tree) (e : env) (manifest_path : bytes) (writing : bool)
    (k : list bytes → tree → result A * tree) : result A * tree :=
  match safe_local_path t e manifest_path writing with
  | (Ok target, t') => k target t'
  | (Err m, t') => (Err m, t')
  end.

(** A system call whose failure is an error of the operation. *)
Definition sys {A : Type} (t : tree) (call : io tree) (message : string) (k : tree → result A * tree)
    : result A * tree :=
  match call with Done t' => k t' | Fails _ => (Err message, t) end.

Definition set_local_file_permissions (t : tree) (e : env) (manifest_path : bytes)
    (permissions : option Z) : result unit * tree :=
  match permissions with
  | None => (Ok tt, t)
  | Some permissions =>
      with_writable_parents t e manifest_path false (λ t,
        on_target t e manifest_path false (λ target t,
          set_permissions e t target permissions false))
  end.

Definition set_local_directory_permissions (t : tree) (e : env) (manifest_path : bytes)
    (permissions : option Z) : result unit * tree :=
  match permissions with
  | None => (Ok tt, t)
  | Some permissions =>
      with_writable_parents t e manifest_path false (λ t,
        on_target t e manifest_path false (λ target t,
          set_permissions e t target permissions true))
  end.

Definition ensure_local_directory (t : tree) (e : env) (manifest_path : bytes)
    : result unit * tree :=
  with_writable_parents t e manifest_path true (λ t,
    on_target t e manifest_path true (λ target t,
      let create t :=
        sys t (create_dir t target (e_mode e) (e_now e)) "unable to create shared directory"
          (λ t', (Ok tt, t')) in
      match lstat t target with
      | Done n =>
          if is_symlink n
          then sys t (remove_file t target) "unable to replace shared symlink" create
          else if is_dir n then (Ok tt, t)
          else if is_file n
          then sys t (remove_file t target) "unable to replace shared file" create
          else (Err "refusing to replace non-directory", t)
      | Fails NotFound => create t
      | Fails _ => (Err "unable to inspect shared directory", t)
      end)).

Definition remove_local_path (t : tree) (e : env) (manifest_path : bytes)
    : result unit * tree :=
  with_writable_parents t e manifest_path false (λ t,
    on_target t e manifest_path false (λ target t,
      match lstat t target with
      | Done n =>
          if is_file n || is_symlink n
          then sys t (remove_file t target) "unable to remove shared path" (λ t', (Ok tt, t'))
          else if is_dir n
          then sys t (remove_dir t target) "unable to remove empty shared directory"
                 (λ t', (Ok tt, t'))
          else (Ok tt, t)
      | Fails NotFound => (Ok tt, t)
      | Fails _ => (Err "unable to inspect", t)
      end)).

(** ** Installing files and links *)

(** A staged transfer: what lies at its path outside the tree. *)
Inductive staged := StagedFile (content : bytes) (mode : Z) | StagedOther | StagedMissing.

(** Octal 0200, 0020, 0002 and 0022. *)
Definition may_write_file (n : node) : bool := bits_for n 128 16 2.
Definition GROUP_OTHER_W : Z := 18.

(** [fs::write] and [fs::copy] over a regular file or a missing path: the
    contents are replaced in place; a copy also takes the mode of its source. *)
Definition write_file (t : tree) (p : list bytes) (content : bytes) (copied_mode : option Z)
    (e : env) : io tree :=
  match lstat t p with
  | Fails NotFound =>
      if parent_writable t p
      then Done (<[p := new_node (KFile content) (default (e_mode e) copied_mode) (e_now e)]> t)
      else Fails Refused
  | Done n =>
      if is_file n && may_write_file n
         && match n_relation n, copied_mode with Owner, _ | _, None => true | _, _ => false end
      then Done (<[p := {| n_kind := KFile content; n_mode := default (n_mode n) copied_mode;
                           n_relation := n_relation n; n_modified := e_now e |}]> t)
      else Fails Refused
  | Fails e => Fails e
  end.

Definition with_writable_cross_device_target {A : Type} (e : env) (t : tree) (target : list bytes)
    (final_permissions : option Z) (operation : tree → result A * tree) : result A * tree :=
  let run t restore_permissions :=
    let '(r, t') := operation t in
    match restore_permissions with
    | Some permissions =>
        if negb (is_ok r) || match final_permissions with None => true | Some _ => false end
        then sys t' (chmod e t' target permissions) "unable to restore permissions on shared file"
               (λ t'', (r, t''))
        else (r, t')
    | None => (r, t')
    end in
  match lstat t target with
  | Done n =>
      if is_symlink n then (Err "refusing to replace symbolic link", t)
      else if negb (is_file n) then (Err "refusing to replace non-file", t)
      else if Z.land (n_mode n) 128 =? 0
      then match chmod e t target (Z.lor (n_mode n) 128) with
           | Done t' => run t' (Some (n_mode n))
           | Fails _ =>
               if negb (Z.land (n_mode n) GROUP_OTHER_W =? 0) then run t None
               else (Err "unable to make shared file writable", t)
           end
      else run t None
  | Fails NotFound => run t None
  | Fails _ => (Err "unable to inspect shared file", t)
  end.

Definition write_cross_device_target (t : tree) (e : env) (target : list bytes)
    (content : bytes) (final_permissions : option Z) : result unit * tree :=
  with_writable_cross_device_target e t target final_permissions (λ t,
    sys t (write_file t target content None e) "unable to install downloaded file"
      (λ t', (Ok tt, t'))).

(** What stands in the way of a new file or link: a link or an empty directory is
    removed, a regular file stays to be replaced. *)
Definition clear_target {A : Type} (t : tree) (target : list bytes) (inspect : string)
    (k : tree → result A * tree) : result A * tree :=
  match lstat t target with
  | Done n =>
      if is_dir n then sys t (remove_dir t target) "unable to replace shared directory" k
      else if is_symlink n
      then sys t (remove_file t target) "unable to replace shared symlink" k
      else if is_file n then k t
      else (Err "refusing to replace non-file", t)
  | Fails NotFound => k t
  | Fails _ => (Err inspect, t)
  end.

(** [write_local_staged_file]; [cross] is a rename across devices. *)
Definition write_local_staged_file (t : tree) (e : env) (manifest_path : bytes)
    (source : staged) (permissions : option Z) (cross : bool) : result unit * tree :=
  with_writable_parents t e manifest_path true (λ t,
    on_target t e manifest_path true (λ target t,
      clear_target t target "unable to inspect shared path" (λ t,
        match source with
        | StagedMissing => (Err "unable to inspect staged file", t)
        | StagedOther => (Err "staged transfer is not a regular file", t)
        | StagedFile content mode =>
            let '(r, t) :=
              if cross
              then with_writable_cross_device_target e t target permissions (λ t,
                     sys t (write_file t target content (Some mode) e)
                       "unable to install staged file" (λ t', (Ok tt, t')))
              else sys t (install t target (new_node (KFile content) mode (e_now e)))
                     "unable to install staged file" (λ t', (Ok tt, t')) in
            match r with
            | Err m => (Err m, t)
            | Ok _ => set_local_file_permissions t e manifest_path permissions
            end
        end))).

(** [write_local_file]: the contents staged under a fresh temporary name. *)
Definition write_local_file (t : tree) (e : env) (manifest_path content : bytes)
    (permissions : option Z) (cross : bool) : result unit * tree :=
  with_writable_parents t e manifest_path true (λ t,
    on_target t e manifest_path true (λ target t,
      clear_target t target "unable to inspect shared file" (λ t,
        let '(r, t) :=
          if cross then write_cross_device_target t e target content permissions
          else sys t (install t target (new_node (KFile content) (e_mode e) (e_now e)))
                 "unable to install downloaded file" (λ t', (Ok tt, t')) in
        match r with
        | Err m => (Err m, t)
        | Ok _ => set_local_file_permissions t e manifest_path permissions
        end))).

(** [write_local_symlink] on Unix.  The link is staged and renamed; across devices
    it is created in place, with the same result. *)
Definition write_local_symlink (t : tree) (e : env) (manifest_path target : bytes)
    : result unit * tree :=
  match validate_manifest_path manifest_path with
  | Err m => (Err m, t)
  | Ok _ =>
      if bool_decide (target = []) || (4096 <? blen target) || contains nul target
      then (Err "remote symlink target is invalid", t)
      else
        with_writable_parents t e manifest_path true (λ t,
          on_target t e manifest_path true (λ local_target t,
            let link t :=
              sys t (install t local_target (new_node (KSymlink target) 511 (e_now e)))
                "unable to install symlink" (λ t', (Ok tt, t')) in
            match lstat t local_target with
            | Done n =>
                if is_dir n
                then sys t (remove_dir t local_target) "unable to replace shared directory" link
                else if is_file n || is_symlink n
                then sys t (remove_file t local_target) "unable to replace shared path" link
                else (Err "refusing to replace non-file", t)
            | Fails NotFound => link t
            | Fails _ => (Err "unable to inspect shared path", t)
            end))
  end.

(** ** Reading *)

(** Octal 0400, and 0044. *)
Definition OWNER_R : Z := 256.
Definition GROUP_OTHER_R : Z := 36.

Definition with_readable_file {A : Type} (e : env) (t : tree) (target : list bytes) (n : node)
    (operation : tree → result A * tree) : result A * tree :=
  let run t restore_permissions :=
    let '(r, t') := operation t in
    match restore_permissions with
    | None => (r, t')
    | Some permissions =>
        match chmod e t' target permissions with
        | Done t'' => (r, t'')
        | Fails _ =>
            (match r with Err m => Err m
             | Ok _ => Err "unable to restore permissions on shared file" end, t')
        end
    end in
  if is_symlink n then (Err "refusing to read symbolic link", t)
  else if negb (is_file n) then (Err "shared path is not a regular file", t)
  else if Z.land (n_mode n) OWNER_R =? 0
  then match chmod e t target (Z.lor (n_mode n) OWNER_R) with
       | Done t' => run t' (Some (n_mode n))
       | Fails _ =>
           if negb (Z.land (n_mode n) GROUP_OTHER_R =? 0) then run t None
           else (Err "unable to make shared file readable", t)
       end
  else run t None.

(** The contents of a regular file. *)
Definition file_content (n : node) : bytes :=
  match n_kind n with KFile c => c | _ => [] end.

(** Whether the process may read a file (octal 0400, 0040, 0004). *)
Definition may_read (n : node) : bool := bits_for n 256 32 4.

(** [File::open] for reading. *)
Definition open_file (t : tree) (p : list bytes) : io node :=
  match lstat t p with
  | Done n => if is_file n && may_read n then Done n else Fails Refused
  | Fails e => Fails e
  end.

Section hashing.
Context `{HexCodec, Sha256}.

Definition local_file_matches_entry (t : tree) (e : env) (manifest_path : bytes)
    (expected_size : Z) (expected_sha256 : bytes) : result bool * tree :=
  with_writable_parents t e manifest_path false (λ t,
    on_target t e manifest_path false (λ target t,
      match lstat t target with
      | Done n =>
          if is_symlink n then (Err "refusing to use symbolic link", t)
          else if is_file n && (blen (file_content n) =? expected_size)
          then with_readable_file e t target n (λ t,
                 match open_file t target with
                 | Fails _ => (Err "unable to read shared file", t)
                 | Done f =>
                     (Ok ((blen (file_content f) =? expected_size)
                          && (n_modified f =? n_modified n)
                          && bool_decide (hex_encode (sha256 (file_content f)) = expected_sha256)),
                      t)
                 end)
          else (Ok false, t)
      | Fails NotFound => (Ok false, t)
      | Fails _ => (Err "unable to inspect shared file", t)
      end)).
End hashing.

(** ** Permissions on the way are restored *)

(** The directories on the way to the target of a path, the root included. *)
Definition on_way (manifest_path : bytes) (q : list bytes) : Prop :=
  ∃ r, piece_names (removelast (split_slash manifest_path)) = q ++ r.

#[export] Instance on_way_dec manifest_path q : Decision (on_way manifest_path q).
Proof. apply (prefix_dec q (piece_names (removelast (split_slash manifest_path)))). Defined.

(** Every directory above [q] can be searched. *)
Definition reachable (t : tree) (q : list bytes) : Prop :=
  ∀ p, p ∈ prefixes q → ∃ d, t !! p = Some d ∧ is_dir d = true ∧ may_search d = true.

Lemma lstat_reachable t p n : lstat t p = Done n ↔ reachable t p ∧ t !! p = Some n.
Proof.
  unfold lstat, reachable. pose proof (walk_Done t (prefixes p)) as Hw.
  destruct (walk t (prefixes p)) as [[]|e].
  - rewrite <-Hw. destruct (t !! p); naive_solver.
  - split; [done|]. intros [Hr _]. by apply Hw in Hr.
Qed.

Lemma set_mode_dir n m : is_dir (set_mode n m) = is_dir n.
Proof. done. Qed.

Lemma set_mode_same n m : n_mode n = m → set_mode n m = n.
Proof. destruct n; simpl. by intros ->. Qed.

Lemma chmod_Done e t p mode t' :
  chmod e t p mode = Done t' ↔
  ∃ n, reachable t p ∧ t !! p = Some n ∧ is_symlink n = false ∧ n_relation n = Owner ∧
    e_chmod_fails e p mode = false ∧ t' = <[p := set_mode n mode]> t.
Proof.
  unfold chmod. destruct (lstat t p) as [n|err] eqn:El.
  - apply lstat_reachable in El as [Hr Hn]. split.
    + destruct (is_symlink n) eqn:Es; [done|]. destruct (n_relation n) eqn:Er; try done.
      destruct (e_chmod_fails e p mode) eqn:Ef; [done|]. intros [= <-]. exists n. done.
    + intros (n' & _ & Hn' & Hs & Hr' & Hf & ->). assert (n' = n) as -> by congruence.
      by rewrite Hs, Hr', Hf.
  - split; [done|]. intros (n & Hr & Hn & _).
    assert (lstat t p = Done n) by by apply lstat_reachable. congruence.
Qed.

(** No change of a mode fails. *)
Definition reliable (e : env) : Prop := ∀ p mode, e_chmod_fails e p mode = false.

Lemma land_lor_192 m : Z.land (Z.lor m OWNER_WX) OWNER_WX = OWNER_WX.
Proof.
  apply Z.bits_inj'. intros k _. rewrite Z.land_spec, Z.lor_spec.
  destruct (Z.testbit m k), (Z.testbit OWNER_WX k); done.
Qed.

Lemma owner_wx_search n :
  n_relation n = Owner → Z.land (n_mode n) OWNER_WX = OWNER_WX → may_search n = true.
Proof.
  intros Hr Hm. unfold may_search, bits_for. rewrite Hr. apply Z.eqb_eq.
  assert (Z.land (n_mode n) 64 = Z.land (Z.land (n_mode n) OWNER_WX) 64) as ->;
    [by rewrite <-Z.land_assoc|by rewrite Hm].
Qed.

(** A directory above another is a shorter path. *)
Lemma prefixes_shorter q p : q ∈ prefixes p → (length q < length p)%nat.
Proof.
  intros (r & -> & Hr)%elem_of_prefixes. rewrite length_app. destruct r; [done|simpl; lia].
Qed.

Lemma reachable_ext t t' q :
  (∀ p, p ∈ prefixes q → t' !! p = t !! p) → reachable t q → reachable t' q.
Proof. intros He Hr p Hp. rewrite He by done. by apply Hr. Qed.

(** What is to be restored: the owner's directories that were made writable, from
    the root down. *)
Definition shorter (a b : PermissionRestore) : Prop :=
  (length (pr_path a) < length (pr_path b))%nat.

Record prepared (t0 t : tree) (restores : list PermissionRestore) (reached : list bytes)
    : Prop := {
  pp_each r : r ∈ restores →
    (∃ rest, reached = pr_path r ++ rest) ∧ reachable t (pr_path r) ∧
    ∃ n, t !! pr_path r = Some (set_mode n (Z.lor (n_mode n) OWNER_WX)) ∧
      is_dir n = true ∧ n_relation n = Owner ∧ pr_permissions r = n_mode n ∧
      (t0 !! pr_path r = Some n ∨ t0 !! pr_path r = None);
  pp_sorted : StronglySorted shorter restores;
  pp_kept q n : t0 !! q = Some n → (∀ r, r ∈ restores → pr_path r ≠ q) → t !! q = Some n;
}.

(** Restoring puts back the modes from the deepest directory up, whatever changed
    elsewhere; if a change of a mode fails, the directories above keep theirs. *)
Lemma restore_some e t restores :
  StronglySorted shorter restores →
  (∀ r, r ∈ restores → reachable t (pr_path r) ∧
     ∃ n, t !! pr_path r = Some n ∧ is_symlink n = false ∧ n_relation n = Owner) →
  ∃ kept back res t', restores = kept ++ back ∧ restore_parent_permissions e t restores = (res, t') ∧
    ((res = Ok tt ∧ kept = []) ∨ (res = Err restore_failed ∧ ¬ reliable e)) ∧
    (∀ r, r ∈ back → t' !! pr_path r =
       (λ n, set_mode n (pr_permissions r)) <$> t !! pr_path r) ∧
    (∀ q, (∀ r, r ∈ back → pr_path r ≠ q) → t' !! q = t !! q).
Proof.
  unfold restore_parent_permissions. revert t.
  induction restores as [|r rs IH] using rev_ind; intros t Hs Hr.
  - exists [], [], (Ok tt), t. split_and!; [done|done|by left|by intros ? ?%not_elem_of_nil|done].
  - rewrite rev_unit. simpl.
    destruct (Hr r) as (Hreach & n & Hn & Hl & Ho); [apply elem_of_app; right; by left|].
    destruct (e_chmod_fails e (pr_path r) (pr_permissions r)) eqn:Ef.
    { exists (rs ++ [r]), [], (Err restore_failed), t.
      assert (chmod e t (pr_path r) (pr_permissions r) = Fails Refused) as ->.
      { unfold chmod. by rewrite (proj2 (lstat_reachable t (pr_path r) n) (conj Hreach Hn)), Hl, Ho, Ef. }
      rewrite app_nil_r. split_and!; [done|done| |by intros ? ?%not_elem_of_nil|done].
      right. split; [done|]. intros Hrel. by rewrite Hrel in Ef. }
    set (t1 := <[pr_path r := set_mode n (pr_permissions r)]> t).
    rewrite (proj2 (chmod_Done e t (pr_path r) (pr_permissions r) t1)); [|by exists n].
    apply StronglySorted_app in Hs as (Hlt & Hs & _).
    assert (Hne : ∀ x, x ∈ rs → pr_path x ≠ pr_path r).
    { intros x Hx E. specialize (Hlt x r Hx ltac:(by left)). unfold shorter in Hlt.
      rewrite E in Hlt. lia. }
    destruct (IH t1) as (kept & back & res & t' & -> & Hrest & Hres & Hset & Hkeep); [done| |].
    { intros x Hx. destruct (Hr x) as (Hx1 & m & Hm & Hm1 & Hm2); [apply elem_of_app; by left|].
      split.
      - eapply reachable_ext; [|exact Hx1]. intros p Hp%prefixes_shorter.
        unfold t1. rewrite lookup_insert_ne; [done|]. intros E.
        specialize (Hlt x r Hx ltac:(by left)). unfold shorter in Hlt. rewrite <-E in Hp. lia.
      - exists m. unfold t1. rewrite lookup_insert_ne by (symmetry; by apply Hne). done. }
    assert (Hne' : ∀ x, x ∈ back → pr_path x ≠ pr_path r)
      by (intros x Hx; apply Hne, elem_of_app; by right).
    exists kept, (back ++ [r]), res, t'. split_and!; [by rewrite app_assoc|done|done| |].
    + intros x [Hx|Hx]%elem_of_app.
      * rewrite (Hset x Hx). unfold t1. by rewrite lookup_insert_ne by (symmetry; by apply Hne').
      * apply list_elem_of_singleton in Hx as ->. rewrite Hkeep by done.
        unfold t1. by rewrite lookup_insert_eq, Hn.
    + intros q Hq. rewrite Hkeep.
      * unfold t1. rewrite lookup_insert_ne; [done|]. apply Hq. apply elem_of_app. right. by left.
      * intros x Hx. apply Hq. apply elem_of_app. by left.
Qed.

Lemma may_write_search n : may_write n = true → may_search n = true.
Proof.
  unfold may_write, may_search, bits_for. intros Hw%Z.eqb_eq. apply Z.eqb_eq.
  assert (Hsub : ∀ a b, Z.land (n_mode n) a = a → Z.land a b = b → Z.land (n_mode n) b = b).
  { intros a b Ha Hb. by rewrite <-Hb, Z.land_assoc, Ha. }
  destruct (n_relation n); by eapply Hsub.
Qed.

(** A new directory takes the place of nothing. *)
Lemma create_dir_fresh t p mode now t' :
  create_dir t p mode now = Done t' →
  t !! p = None ∧ t' = <[p := new_node KDir mode now]> t.
Proof.
  unfold create_dir. destruct (lstat t p) as [|[]] eqn:El; try done.
  destruct (lstat t (parent p)) as [d|] eqn:Ed; [|done].
  destruct (is_dir d) eqn:Edir; [|done]. destruct (may_write d) eqn:Ew; [|done]. simpl.
  intros [= <-]. split; [|done]. apply lstat_reachable in Ed as [Hr Hd].
  destruct (t !! p) as [n|] eqn:En; [|done]. exfalso.
  assert (lstat t p = Done n); [|congruence]. apply lstat_reachable. split; [|done].
  destruct p as [|x p _] using rev_ind; [by intros q (? & ? & ?)%elem_of_prefixes; destruct q|].
  unfold parent in *. rewrite removelast_last in *. intros q. rewrite prefixes_snoc.
  intros [Hq| ->%list_elem_of_singleton]%elem_of_app; [by apply Hr|].
  exists d. split_and!; [done|done|by apply may_write_search].
Qed.

(** Going down one name, or staying. *)
Definition descends (reached next : list bytes) : Prop :=
  next = reached ∨ ∃ x, next = reached ++ [x].

Lemma descends_prefix reached next p rest :
  descends reached next → reached = p ++ rest → ∃ rest', next = p ++ rest'.
Proof.
  intros [->|[x ->]] ->; [by eauto|]. exists (rest ++ [x]). by rewrite app_assoc.
Qed.

(** A change at a directory that is not to be restored leaves the rest as it is. *)
Lemma prepared_update t0 t restores reached next m :
  prepared t0 t restores reached → descends reached next →
  (∀ r, r ∈ restores → pr_path r ≠ next) →
  (∀ n, t0 !! next = Some n → m = n) →
  prepared t0 (<[next := m]> t) restores next.
Proof.
  intros [He Hs Hk] Hd Hne Hm. split; [|done|].
  - intros r Hr. destruct (He r Hr) as ((rest & Hrest) & Hreach & n & Hn & Hprops).
    pose proof (descends_prefix _ _ _ _ Hd Hrest) as Hp.
    split_and!; [done| |].
    + eapply reachable_ext; [|done]. intros p Hp'%prefixes_shorter.
      rewrite lookup_insert_ne; [done|]. intros E. destruct Hp as (rest' & ->).
      subst p. rewrite length_app in Hp'. lia.
    + exists n. rewrite lookup_insert_ne by (symmetry; by apply Hne). done.
  - intros q n Hq Hr. destruct (decide (q = next)) as [->|].
    + rewrite lookup_insert_eq. by rewrite (Hm n Hq).
    + rewrite lookup_insert_ne by done. by apply Hk.
Qed.

Lemma prepared_descend t0 t restores reached next :
  prepared t0 t restores reached → descends reached next → prepared t0 t restores next.
Proof.
  intros [He Hs Hk] Hd. split; [|done|done].
  intros r Hr. destruct (He r Hr) as ((rest & Hrest) & Hreach & Hn).
  split_and!; [by eapply descends_prefix|done|done].
Qed.

Lemma prepared_fresh t0 t restores reached next :
  prepared t0 t restores reached → t !! next = None →
  t0 !! next = None ∧ ∀ r, r ∈ restores → pr_path r ≠ next.
Proof.
  intros Hp Hn.
  assert (Hne : ∀ r, r ∈ restores → pr_path r ≠ next).
  { intros r Hr E. destruct (pp_each _ _ _ _ Hp r Hr) as (_ & _ & n & Hr' & _). congruence. }
  split; [|done]. destruct (t0 !! next) as [n|] eqn:E; [|done].
  pose proof (pp_kept _ _ _ _ Hp next n E Hne). congruence.
Qed.

Lemma prepared_chmod t0 t restores reached next n :
  prepared t0 t restores reached → descends reached next → lstat t next = Done n →
  is_dir n = true → n_relation n = Owner → Z.land (n_mode n) OWNER_WX ≠ OWNER_WX →
  prepared t0 (<[next := set_mode n (Z.lor (n_mode n) OWNER_WX)]> t)
    (restores ++ [{| pr_path := next; pr_permissions := n_mode n |}]) next.
Proof.
  intros Hp Hd [Hr Hn]%lstat_reachable Hdir Ho Hm.
  assert (Hne : ∀ r, r ∈ restores → pr_path r ≠ next).
  { intros r Hr' E. destruct (pp_each _ _ _ _ Hp r Hr') as (_ & _ & m & Hm' & _).
    rewrite E, Hn in Hm'. injection Hm' as ->. simpl in Hm. by rewrite land_lor_192 in Hm. }
  assert (Hlt : ∀ r, r ∈ restores → (length (pr_path r) < length next)%nat).
  { intros r Hr'. destruct (pp_each _ _ _ _ Hp r Hr') as ((rest & Hrest) & _).
    destruct (descends_prefix _ _ _ _ Hd Hrest) as (rest' & E). specialize (Hne r Hr').
    rewrite E, length_app. destruct rest'; [|simpl; lia]. by rewrite app_nil_r in E. }
  set (m := set_mode n (Z.lor (n_mode n) OWNER_WX)).
  destruct Hp as [He Hs Hk]. split.
  - intros r [Hr'|Hr']%elem_of_app.
    + destruct (He r Hr') as ((rest & Hrest) & Hreach & k & Hk' & Hprops).
      split_and!; [by eapply descends_prefix| |].
      * eapply reachable_ext; [|done]. intros p Hp'%prefixes_shorter.
        rewrite lookup_insert_ne; [done|]. intros E. specialize (Hlt r Hr'). subst p. lia.
      * exists k. rewrite lookup_insert_ne by (symmetry; by apply Hne). done.
    + apply list_elem_of_singleton in Hr' as ->. simpl. split_and!.
      * exists []. by rewrite app_nil_r.
      * eapply reachable_ext; [|done]. intros p Hp'%prefixes_shorter.
        rewrite lookup_insert_ne; [done|]. intros ->. lia.
      * exists n. rewrite lookup_insert_eq. split_and!; try done.
        destruct (t0 !! next) as [k|] eqn:E; [|by right]. left.
        pose proof (Hk next k E Hne). congruence.
  - apply StronglySorted_app. split_and!; [|done|by repeat constructor].
    intros a b Ha Hb%list_elem_of_singleton. subst b. by apply Hlt.
  - intros q k Hq Hr'. destruct (decide (q = next)) as [->|].
    + exfalso. eapply Hr'; [apply elem_of_app; right; by left|done].
    + rewrite lookup_insert_ne by done. apply Hk; [done|]. intros r Hin. apply Hr'.
      apply elem_of_app. by left.
Qed.

Lemma chmod_lstat e t p mode n :
  lstat t p = Done n → is_dir n = true →
  (n_relation n = Owner ∧ chmod e t p mode = Done (<[p := set_mode n mode]> t)) ∨
  ∃ err, chmod e t p mode = Fails err.
Proof.
  intros Hl Hd. unfold chmod. rewrite Hl. unfold is_symlink, is_dir in *.
  destruct (n_kind n); try done. destruct (n_relation n); eauto. destruct (e_chmod_fails e p mode); eauto.
Qed.

Lemma prepared_inspected e t0 t restores reached next n r t' :
  prepared t0 t restores reached → descends reached next → lstat t next = Done n →
  prepare_inspected_directory_for_write e t next n true restores = (r, t') →
  prepared t0 t' (match r with Ok restores' => restores' | Err _ => restores end) next.
Proof.
  intros Hp Hd Hl. pose proof (prepared_descend _ _ _ _ _ Hp Hd) as Hstay.
  unfold prepare_inspected_directory_for_write.
  destruct (is_symlink n); [by intros [= <- <-]|].
  destruct (is_dir n) eqn:Edir; simpl; [|by intros [= <- <-]].
  destruct (Z.eqb_spec (Z.land (n_mode n) OWNER_WX) OWNER_WX); [by intros [= <- <-]|].
  destruct (chmod_lstat e t next (Z.lor (n_mode n) OWNER_WX) n) as [[Ho Hc]|[err Hc]]; [done..| |];
    rewrite Hc.
  - intros [= <- <-]. by apply (prepared_chmod t0 t restores reached).
  - destruct (directory_mode_allows_non_owner_writes _); by intros [= <- <-].
Qed.

Lemma prepared_created e t0 t restores reached next r t' :
  prepared t0 t restores reached → descends reached next →
  t0 !! next = None → (∀ r, r ∈ restores → pr_path r ≠ next) →
  prepare_directory_for_write e t next false restores = (r, t') →
  prepared t0 t' (match r with Ok restores' => restores' | Err _ => restores end) next.
Proof.
  intros Hp Hd H0 Hne. pose proof (prepared_descend _ _ _ _ _ Hp Hd) as Hstay.
  unfold prepare_directory_for_write, prepare_inspected_directory_for_write.
  destruct (lstat t next) as [n|] eqn:Hl; [|by intros [= <- <-]].
  destruct (is_symlink n); [by intros [= <- <-]|].
  destruct (is_dir n) eqn:Edir; simpl; [|by intros [= <- <-]].
  destruct (Z.eqb_spec (Z.land (n_mode n) OWNER_WX) OWNER_WX); [by intros [= <- <-]|].
  destruct (chmod_lstat e t next (Z.lor (n_mode n) OWNER_WX) n) as [[Ho Hc]|[err Hc]]; [done..| |];
    rewrite Hc.
  - intros [= <- <-]. apply (prepared_update t0 t restores next); try done; [by left|congruence].
  - destruct (directory_mode_allows_non_owner_writes _); by intros [= <- <-].
Qed.

Lemma prepared_parents t0 e pieces create t reached restores r restores' t' :
  prepared t0 t restores reached →
  prepare_parents t e reached pieces create restores = (r, restores', t') →
  ∃ past rest, piece_names pieces = past ++ rest ∧ prepared t0 t' restores' (reached ++ past) ∧
    (is_ok r = true → rest = []).
Proof.
  revert t reached restores. induction pieces as [|piece pieces IH]; intros t reached restores Hp;
    cbn [prepare_parents].
  { intros [= <- <- <-]. exists [], []. by rewrite (app_nil_r reached). }
  rewrite piece_names_cons.
  set (skip := bool_decide (piece = []) || bool_decide (piece = [dot])).
  set (next := if skip then reached else reached ++ [piece]).
  assert (Hnext : next = reached ++ if skip then [] else [piece])
    by (unfold next; destruct skip; by rewrite ?app_nil_r).
  assert (Hd : descends reached next)
    by (unfold next; destruct skip; [by left|right; by eexists]).
  pose proof (prepared_descend _ _ _ _ _ Hp Hd) as Hstay.
  assert (Hstop : ∀ m t' restores, prepared t0 t' restores next →
    ∃ past rest, (if skip then [] else [piece]) ++ piece_names pieces = past ++ rest ∧
      prepared t0 t' restores (reached ++ past) ∧ (is_ok (A:=unit) (Err m) = true → rest = [])).
  { intros m u rs Hu. exists (if skip then [] else [piece]), (piece_names pieces).
    rewrite <-Hnext. done. }
  assert (Hgo : ∀ t restores, prepared t0 t restores next →
    prepare_parents t e next pieces create restores = (r, restores', t') →
    ∃ past rest, (if skip then [] else [piece]) ++ piece_names pieces = past ++ rest ∧
      prepared t0 t' restores' (reached ++ past) ∧ (is_ok r = true → rest = [])).
  { intros u rs Hu Hrun. destruct (IH u next rs Hu Hrun) as (past & rest & -> & Hp' & Hr).
    exists ((if skip then [] else [piece]) ++ past), rest.
    split_and!; [by rewrite app_assoc|by rewrite app_assoc, <-Hnext|done]. }
  destruct (lstat t next) as [n|[]] eqn:El; [| |intros [= <- <- <-]; by apply Hstop..].
  - destruct (prepare_inspected_directory_for_write _ _ _ _ _ _) as [q u] eqn:Eq.
    apply (prepared_inspected e t0 _ _ reached) in Eq; [|done..].
    destruct q; [by apply Hgo|intros [= <- <- <-]; by apply Hstop].
  - destruct create; [|by apply Hgo].
    destruct (create_dir t next _ _) as [u|] eqn:Ec; [|intros [= <- <- <-]; by apply Hstop].
    apply create_dir_fresh in Ec as (Hnone & ->).
    destruct (prepared_fresh _ _ _ _ _ Hp Hnone) as [H0 Hne].
    destruct (prepare_directory_for_write _ _ _ _ _) as [q u] eqn:Eq.
    apply (prepared_created e t0 _ _ next) in Eq; [|by apply (prepared_update t0 t restores reached);
      [..|congruence]|by left|done|done].
    destruct q; [by apply Hgo|intros [= <- <- <-]; by apply Hstop].
Qed.

Lemma prepared_start t : prepared t t [] [].
Proof. split; [by intros ? ?%not_elem_of_nil|constructor|done]. Qed.

(** The preparation as a whole. *)
Lemma prepared_all t e path create r restores t1 :
  prepare_way t e path create = (r, restores, t1) →
  ∃ past, on_way path past ∧ prepared t t1 restores past ∧
    (is_ok r = true → past = piece_names (removelast (split_slash path))).
Proof.
  pose proof (prepared_start t) as Hp.
  unfold prepare_way, prepare_directory_for_write. destruct (lstat t []) as [n|] eqn:El.
  - destruct (prepare_inspected_directory_for_write _ _ _ _ _ _) as [q u] eqn:Eq.
    apply (prepared_inspected e t _ _ []) in Eq; [|done|by left|done].
    destruct q as [rs|m].
    + intros (past & rest & Hn & Hd & Hok)%(prepared_parents t); [|done].
      exists past. split_and!; [by exists rest|done|]. intros ->%Hok. by rewrite app_nil_r in Hn.
    + intros [= <- <- <-]. exists []. split; [by eexists|done].
  - intros [= <- <- <-]. exists []. split; [by eexists|done].
Qed.

(** A directory of the owner that stayed writable. *)
Definition left_writable (n : node) (now : option node) : Prop :=
  is_dir n = true ∧ n_relation n = Owner ∧ now = Some (set_mode n (Z.lor (n_mode n) OWNER_WX)).

(** What the operation left in place is restored, unless a change of a mode fails. *)
Lemma prepared_restore e t0 t t2 restores reached :
  prepared t0 t restores reached →
  (∀ p n, (∃ rest, reached = p ++ rest) → t !! p = Some n → t2 !! p = Some n) →
  ∃ res t3, restore_parent_permissions e t2 restores = (res, t3) ∧
    (res = Ok tt ∨ (res = Err restore_failed ∧ ¬ reliable e)) ∧
    (∀ q n, t0 !! q = Some n → (t !! q = t2 !! q) ∨ (∃ rest, reached = q ++ rest) →
       t3 !! q = Some n ∨ (res = Err restore_failed ∧ (∃ rest, reached = q ++ rest) ∧ left_writable n (t3 !! q))) ∧
    (∀ q, ¬ (∃ rest, reached = q ++ rest) → t3 !! q = t2 !! q).
Proof.
  intros Hp Hop. destruct (restore_some e t2 restores) as (kept & back & res & t3 & Hsplit & Hr & Hres & Hset & Hkeep).
  - apply Hp.
  - intros r Hr. destruct (pp_each _ _ _ _ Hp r Hr) as ((rest & Hrest) & Hreach & n & Hn & Hd & Ho & _).
    split.
    + intros p Hpre. destruct (Hreach p Hpre) as (d & Hd' & Hs). exists d. split; [|done].
      apply Hop; [|done]. apply elem_of_prefixes in Hpre as (rest' & E & _).
      exists (rest' ++ rest). by rewrite Hrest, E, app_assoc.
    + eexists. split; [apply Hop; [by eauto|exact Hn]|].
      unfold is_symlink, is_dir in *. simpl. by destruct (n_kind n).
  - assert (Hback : ∀ r, r ∈ back → r ∈ restores) by (intros r Hin; rewrite Hsplit; apply elem_of_app; by right).
    exists res, t3. split_and!; [done|destruct Hres as [[? _]|?]; auto| |].
    + intros q n Hq Hside.
      destruct (decide (Exists (λ r, pr_path r = q) back)) as [Hin|Hout].
      * left. apply Exists_exists in Hin as (r & Hr' & <-). rewrite (Hset r Hr').
        destruct (pp_each _ _ _ _ Hp r (Hback r Hr')) as ((rest & Hrest) & _ & m & Hm & _ & _ & Hmode & Hor).
        rewrite (Hop _ _ ltac:(by eauto) Hm). simpl. f_equal. destruct Hor as [Hor|]; [|congruence].
        assert (m = n) as -> by congruence. destruct n; simpl in *. by rewrite Hmode.
      * assert (Hno : ∀ r, r ∈ back → pr_path r ≠ q).
        { intros r Hr' E. apply Hout, Exists_exists. by exists r. }
        rewrite (Hkeep q Hno).
        destruct (decide (Exists (λ r, pr_path r = q) kept)) as [Hin|Hout'].
        -- right. apply Exists_exists in Hin as (r & Hr' & <-).
           destruct Hres as [[_ ->]|[-> _]]; [by apply elem_of_nil in Hr'|].
           destruct (pp_each _ _ _ _ Hp r) as ((rest & Hrest) & _ & m & Hm & Hd & Ho & _ & Hor);
             [rewrite Hsplit; apply elem_of_app; by left|].
           destruct Hor as [Hor|]; [|congruence]. assert (m = n) as -> by congruence.
           split_and!; [done|by eauto|split_and!; [done|done|apply Hop; [by eauto|done]]].
        -- left. assert (Hno' : ∀ r, r ∈ restores → pr_path r ≠ q).
           { intros r Hr' E. rewrite Hsplit in Hr'. apply elem_of_app in Hr' as [Hr'|Hr'];
               [apply Hout'|apply Hout]; apply Exists_exists; by exists r. }
           pose proof (pp_kept _ _ _ _ Hp q n Hq Hno') as Ht.
           destruct Hside as [<-|Hpre]; [done|by apply Hop].
    + intros q Hq. apply Hkeep. intros r Hr' <-. apply Hq.
      by destruct (pp_each _ _ _ _ Hp r (Hback r Hr')) as (? & _).
Qed.

(** An operation that leaves the directories on the way to its target alone. *)
Definition spares_way {A : Type} (path : bytes) (operation : tree → result A * tree) : Prop :=
  ∀ s q n, on_way path q → s !! q = Some n → (operation s).2 !! q = Some n.

Lemma writable_parents_restored {A : Type} (t : tree) (e : env) (path : bytes) (create : bool)
    (operation : tree → result A * tree) (r : result A) (t' : tree) :
  spares_way path operation →
  with_writable_parents t e path create operation = (r, t') →
  (∀ q n, on_way path q → t !! q = Some n →
     t' !! q = Some n ∨ (is_ok r = false ∧ ¬ reliable e ∧ left_writable n (t' !! q))) ∧
  ((∃ m, r = Err m ∧ ∀ q n, ¬ on_way path q → t !! q = Some n → t' !! q = Some n) ∨
   ∃ s, (r = (operation s).1 ∨ (r = Err restore_failed ∧ ¬ reliable e)) ∧
     (∀ q n, ¬ on_way path q → t !! q = Some n → s !! q = Some n) ∧
     (∀ q, ¬ on_way path q → t' !! q = (operation s).2 !! q)).
Proof.
  intros Hop. unfold with_writable_parents.
  destruct (validate_manifest_path path) as [|m]; [|intros [= <- <-]; split; [by left|left; by eauto]].
  destruct (prepare_way t e path create) as [[prep restores] t1] eqn:Eprep.
  apply prepared_all in Eprep as (reached & (tail & Hway) & Hp & Hok).
  assert (Hsub : ∀ q, (∃ rest, reached = q ++ rest) → on_way path q).
  { intros q (rest & ->). exists (rest ++ tail). by rewrite Hway, app_assoc. }
  destruct prep as [[]|m].
  - destruct (operation t1) as [ro t2] eqn:Eo.
    assert (Hspare : ∀ q n, on_way path q → t1 !! q = Some n → t2 !! q = Some n).
    { intros q n. specialize (Hop t1 q n). by rewrite Eo in Hop. }
    destruct (prepared_restore e t t1 t2 restores reached Hp) as (res & t3 & -> & Hres & Hback & Hrest).
    { intros p n Hpre. apply Hspare. by apply Hsub. }
    intros [= <- <-]. split.
    + intros q n (rest & Hq) Hn. destruct (Hback q n Hn) as [?|(-> & _ & Hleft)]; [|by left|right].
      * right. exists rest. by rewrite Hok.
      * destruct Hres as [?|[_ Hrel]]; [done|]. by destruct ro.
    + right. exists t1. rewrite Eo. simpl. split_and!.
      * destruct ro, Hres as [->|[-> Hrel]]; auto.
      * intros q n Hq Hn. apply (pp_kept _ _ _ _ Hp); [done|]. intros r Hr <-. apply Hq, Hsub.
        by destruct (pp_each _ _ _ _ Hp r Hr) as (? & _).
      * intros q Hq. apply Hrest. intros Hpre. by apply Hq, Hsub.
  - destruct (prepared_restore e t t1 t1 restores reached Hp) as (res & t3 & -> & Hres & Hback & Hrest); [done|].
    intros [= <- <-]. simpl. split.
    + intros q n _ Hn. destruct (Hback q n Hn) as [?|(-> & _ & Hleft)]; [by left|by left|right].
      destruct Hres as [?|[_ Hrel]]; [done|]. done.
    + left. exists m. split; [done|]. intros q n Hq Hn.
      destruct (Hback q n Hn) as [?|(_ & Hpre & _)]; [by left|done|]. by destruct Hq; apply Hsub.
Qed.

(** ** Nothing but the target changes *)

(** An operation that changes no node but [p]; it may add others. *)
Definition touches_only {A : Type} (p : list bytes) (operation : tree → result A * tree) : Prop :=
  ∀ s q n, q ≠ p → s !! q = Some n → (operation s).2 !! q = Some n.

Lemma touches_only_writable {A : Type} (e : env) (path : bytes) (create : bool) (operation : tree → result A * tree) :
  reliable e → ¬ on_way path (path_names path) → touches_only (path_names path) operation →
  touches_only (path_names path) (λ t, with_writable_parents t e path create operation).
Proof.
  intros Hrel Hway Hop t q n Hq Hn.
  destruct (with_writable_parents t e path create operation) as [r t'] eqn:E. simpl.
  apply writable_parents_restored in E as [Hon Hor].
  - destruct (decide (on_way path q)) as [Hw|Hw]; [by destruct (Hon q n Hw Hn) as [?|(_ & ? & _)]|].
    destruct Hor as [(m & _ & Hall)|(s & _ & Hs & Ht)]; [by apply Hall|]. rewrite Ht by done. apply Hop; [done|by apply Hs].
  - intros s p m Hp. apply Hop. by intros ->.
Qed.

Lemma touches_safe_parents t e reached pieces writing q n :
  t !! q = Some n → (safe_parents t e reached pieces writing).2 !! q = Some n.
Proof.
  revert t reached. induction pieces as [|piece rest IH]; intros t reached Hq; simpl; [done|].
  destruct (lstat t _) as [m|[]]; [|destruct writing|done..].
  - destruct (is_symlink m); [done|]. destruct (is_dir m); [|done]. by apply IH.
  - destruct (create_dir t _ _ _) as [t'|] eqn:Ec; [|done]. apply IH.
    apply create_dir_fresh in Ec as [Hnone ->]. rewrite lookup_insert_ne; [done|congruence].
  - by apply IH.
Qed.

Lemma touches_on_target {A : Type} (e : env) (path : bytes) (writing : bool)
    (k : list bytes → tree → result A * tree) :
  touches_only (path_names path) (k (path_names path)) →
  touches_only (path_names path) (λ t, on_target t e path writing k).
Proof.
  intros Hk t q n Hq Hn. unfold on_target, safe_local_path.
  destruct (validate_manifest_path path); [|done].
  pose proof (touches_safe_parents t e [] (removelast (split_slash path)) writing q n Hn) as Hs.
  destruct (safe_parents _ _ _ _ _) as [[[]|m] t']; simpl in *; [by apply Hk|done].
Qed.

Lemma touches_chmod e p mode s t' q n :
  chmod e s p mode = Done t' → q ≠ p → s !! q = Some n → t' !! q = Some n.
Proof. intros (m & _ & _ & _ & _ & _ & ->)%chmod_Done ? ?. by rewrite lookup_insert_ne. Qed.

Lemma touches_remove_file p s t' q n :
  remove_file s p = Done t' → q ≠ p → s !! q = Some n → t' !! q = Some n.
Proof.
  unfold remove_file. destruct (lstat s p); [|done]. destruct (negb _ && _); [|done].
  intros [= <-] ? ?. by rewrite lookup_delete_ne.
Qed.

Lemma touches_remove_dir p s t' q n :
  remove_dir s p = Done t' → q ≠ p → s !! q = Some n → t' !! q = Some n.
Proof.
  unfold remove_dir. destruct (lstat s p); [|done]. destruct (_ && _); [|done].
  intros [= <-] ? ?. by rewrite lookup_delete_ne.
Qed.

Lemma touches_install p m s t' q n :
  install s p m = Done t' → q ≠ p → s !! q = Some n → t' !! q = Some n.
Proof.
  unfold install. destruct (lstat s p) as [old|[]]; [| |done..].
  all: destruct (_ : bool); [|done]; intros [= <-] ? ?; by rewrite lookup_insert_ne.
Qed.

Lemma touches_create_dir p mode now s t' q n :
  create_dir s p mode now = Done t' → s !! q = Some n → t' !! q = Some n.
Proof. intros [Hn ->]%create_dir_fresh Hq. rewrite lookup_insert_ne; [done|congruence]. Qed.

Lemma touches_write_file p content mode e s t' q n :
  write_file s p content mode e = Done t' → q ≠ p → s !! q = Some n → t' !! q = Some n.
Proof.
  unfold write_file. destruct (lstat s p) as [old|[]]; [| |done..].
  all: destruct (_ : bool); [|done]; intros [= <-] ? ?; by rewrite lookup_insert_ne.
Qed.

(** A system call that touches [p] only, and what follows it. *)
Lemma touches_sys {A : Type} (p : list bytes) (s : tree) (call : io tree) (message : string)
    (k : tree → result A * tree) (q : list bytes) (n : node) :
  q ≠ p → s !! q = Some n → (∀ t', call = Done t' → t' !! q = Some n) → touches_only p k →
  (sys s call message k).2 !! q = Some n.
Proof. intros Hq Hn Hc Hk. unfold sys. destruct call; [|done]. apply Hk; [done|]. by apply Hc. Qed.

Lemma touches_done {A : Type} p (r : result A) : touches_only p (λ t, (r, t)).
Proof. by intros s q n. Qed.

Create HintDb touches.
#[export] Hint Resolve touches_chmod touches_remove_file touches_remove_dir touches_install : touches.
#[export] Hint Resolve touches_create_dir touches_write_file touches_done : touches.

(** Splits an operation at its tests and system calls. *)
Ltac touches :=
  repeat match goal with
  | |- touches_only _ _ => intros ? ? ? ? ?; cbv beta zeta
  | |- context [match lstat ?t ?p with _ => _ end] => destruct (lstat t p) as [?|[]]
  | |- context [if ?b then _ else _] => destruct b
  | |- (sys _ _ _ _).2 !! _ = Some _ => eapply touches_sys; [eassumption|eassumption| |]
  | |- ∀ _, _ = Done _ → _ => intros ? ?
  | |- (_, _).2 !! _ = Some _ => assumption
  end; try (by eauto with touches).

Lemma touches_set_permissions (e : env) p permissions directory :
  touches_only p (λ t, set_permissions e t p permissions directory).
Proof.
  unfold set_permissions. touches.
  destruct (chmod _ _ _ _) eqn:E; simpl; [by eauto with touches|done].
Qed.

Lemma touches_cross {A : Type} (e : env) (p : list bytes) (final : option Z) (operation : tree → result A * tree) :
  touches_only p operation →
  touches_only p (λ t, with_writable_cross_device_target e t p final operation).
Proof.
  intros Hop.
  assert (Hrun : ∀ restore, touches_only p (λ t, let '(r, t') := operation t in
    match restore with
    | Some permissions =>
        if negb (is_ok r) || match final with None => true | Some _ => false end
        then sys t' (chmod e t' p permissions) "unable to restore permissions on shared file"
               (λ t'', (r, t''))
        else (r, t')
    | None => (r, t')
    end)).
  { intros restore t q n Hq Hn. specialize (Hop t q n Hq Hn).
    destruct (operation t) as [r t']. simpl in Hop. destruct restore; touches. }
  unfold with_writable_cross_device_target. intros t q n Hq Hn.
  destruct (lstat t p) as [m|[]]; [|by apply (Hrun None)|done..].
  destruct (is_symlink m); [done|]. destruct (negb _); [done|].
  destruct (_ =? 0); [|by apply (Hrun None)].
  destruct (chmod e t p _) as [t'|] eqn:Ec.
  - apply (Hrun (Some (n_mode m))); [done|]. by eapply touches_chmod.
  - destruct (negb _); [by apply (Hrun None)|done].
Qed.

Lemma touches_clear {A : Type} (p : list bytes) (inspect : string) (k : tree → result A * tree) :
  touches_only p k → touches_only p (λ t, clear_target t p inspect k).
Proof. intros Hk. unfold clear_target. touches. all: by apply Hk. Qed.

(** The operations of this component, each as a change of the tree. *)
Inductive local_operation :=
| EnsureDirectory
| RemovePath
| FilePermissions (permissions : option Z)
| DirectoryPermissions (permissions : option Z)
| WriteFile (content : bytes) (permissions : option Z) (cross : bool)
| WriteStagedFile (source : staged) (permissions : option Z) (cross : bool)
| WriteSymlink (target : bytes).

Definition perform (o : local_operation) (t : tree) (e : env) (path : bytes)
    : result unit * tree :=
  match o with
  | EnsureDirectory => ensure_local_directory t e path
  | RemovePath => remove_local_path t e path
  | FilePermissions permissions => set_local_file_permissions t e path permissions
  | DirectoryPermissions permissions => set_local_directory_permissions t e path permissions
  | WriteFile content permissions cross => write_local_file t e path content permissions cross
  | WriteStagedFile source permissions cross =>
      write_local_staged_file t e path source permissions cross
  | WriteSymlink target => write_local_symlink t e path target
  end.

Section frame.
Context (e : env) (path : bytes).
Hypothesis works : reliable e.
Hypothesis off_way : ¬ on_way path (path_names path).

Lemma touches_file_permissions (permissions : option Z) :
  touches_only (path_names path) (λ t, set_local_file_permissions t e path permissions).
Proof.
  destruct permissions; [|apply touches_done].
  apply touches_only_writable, touches_on_target; [done|done|]. apply touches_set_permissions.
Qed.

(** A step that touches the target only, then its permissions. *)
Lemma touches_then_permissions (permissions : option Z) (f : tree → result unit * tree) :
  touches_only (path_names path) f →
  touches_only (path_names path) (λ t, let '(r, t') := f t in
    match r with
    | Err m => (Err m, t')
    | Ok _ => set_local_file_permissions t' e path permissions
    end).
Proof.
  intros Hf t q n Hq Hn. specialize (Hf t q n Hq Hn). destruct (f t) as [[[]|m] t']; [|done].
  by apply touches_file_permissions.
Qed.

Lemma perform_touches (o : local_operation) : touches_only (path_names path) (λ t, perform o t e path).
Proof.
  destruct o; simpl.
  - apply touches_only_writable, touches_on_target; [done|done|]. touches.
  - apply touches_only_writable, touches_on_target; [done|done|]. touches.
  - apply touches_file_permissions.
  - destruct permissions; [|apply touches_done].
    apply touches_only_writable, touches_on_target; [done|done|]. apply touches_set_permissions.
  - apply touches_only_writable, touches_on_target; [done|done|].
    apply touches_clear, touches_then_permissions. destruct cross; [|touches].
    apply touches_cross. touches.
  - apply touches_only_writable, touches_on_target; [done|done|].
    apply touches_clear. destruct source; [|apply touches_done..].
    apply touches_then_permissions. destruct cross; [|touches]. apply touches_cross. touches.
  - unfold write_local_symlink. destruct (validate_manifest_path path); [|apply touches_done].
    destruct (_ || _); [apply touches_done|].
    apply touches_only_writable, touches_on_target; [done|done|]. touches.
Qed.
End frame.

(** ** Properties *)

(** When [safe_local_path] accepts a manifest path, the target lies below the
    root, every node on the way to it is a directory, so that no system call on the
    target is redirected by a symbolic link, and nothing that existed was changed; an
    inspection changes nothing at all. *)
Lemma safe_local_path_confined (t : tree) (e : env) (path : bytes) (writing : bool)
    (target : list bytes) (t' : tree) :
  tree_wf t → safe_local_path t e path writing = (Ok target, t') →
  target = path_names path ∧ target ≠ [] ∧
  clear_way t' target ∧ lstat t' target ≠ Fails Outside ∧
  (∀ q n, t !! q = Some n → t' !! q = Some n) ∧ (writing = false → t' = t).
Proof.
  intros Hw H. apply safe_local_path_Ok in H as (-> & Hne & _ & [Hg _] & Hc & Hr); [|done].
  split_and!; try done. by apply lstat_not_outside.
Qed.

(** C11: the directories on the way to the target of an operation, which leaves them in
    place itself, are made writable for it and get their modes back.  If the result is a
    success, every one of them is the node it was.  If it is an error, each is the node it
    was or, only where a change of a mode by its owner can fail, has write and search
    permission for the owner in addition.  The result is an error of the preparation, with
    nothing off the way changed; or the result of the operation, run on a tree with every
    node off the way in place, whose effect off the way is what remains; or, only where a
    change of a mode can fail, the error of restoring after that operation. *)
Theorem with_writable_parents_restores {A : Type} (t : tree) (e : env) (path : bytes)
    (create : bool) (operation : tree → result A * tree) (r : result A) (t' : tree)
    (Hop : spares_way path operation)
    (Hrun : with_writable_parents t e path create operation = (r, t')) :
  (∀ q n, on_way path q → t !! q = Some n →
     t' !! q = Some n ∨ (is_ok r = false ∧ ¬ reliable e ∧ left_writable n (t' !! q))) ∧
  ((∃ m, r = Err m ∧ ∀ q n, ¬ on_way path q → t !! q = Some n → t' !! q = Some n) ∨
   ∃ s, (r = (operation s).1 ∨ (r = Err restore_failed ∧ ¬ reliable e)) ∧
     (∀ q n, ¬ on_way path q → t !! q = Some n → s !! q = Some n) ∧
     (∀ q, ¬ on_way path q → t' !! q = (operation s).2 !! q)).
Proof. by apply (writable_parents_restored t e path create operation r t' Hop). Qed.

(** No operation on a manifest path changes or removes any node of the shared
    tree but the one the path names, whatever its outcome, as long as the owner can change
    modes: the modes of the directories made writable on the way are back, and other files
    and links are untouched. *)
Lemma local_operation_frame (o : local_operation) (t : tree) (e : env) (path : bytes)
    (q : list bytes) (n : node) :
  reliable e → ¬ on_way path (path_names path) → q ≠ path_names path →
  t !! q = Some n → (perform o t e path).2 !! q = Some n.
Proof. intros Hrel Hw Hq Hn. by apply (perform_touches e path Hrel Hw o). Qed.

(** ** Witnesses *)

(** A read-only directory [d] of the owner with a file [f] below a shared root. *)
Definition name_d : bytes := [Byte.x64].
Definition name_f : bytes := [Byte.x66].
Definition path_df : bytes := [Byte.x64; Byte.x2f; Byte.x66].
Definition ex_tree : tree :=
  <[[] := new_node KDir 448 0]>
  (<[[name_d] := new_node KDir 365 0]>
  (<[[name_d; name_f] := new_node (KFile []) 420 0]> ∅)).
Definition ex_local_env : env := {| e_mode := 493; e_now := 7; e_chmod_fails := λ _ _, false |}.
Definition remove_op : tree → result unit * tree := λ t, (Ok tt, delete [name_d; name_f] t).

Lemma ex_tree_wf : tree_wf ex_tree.
Proof.
  split; [by eexists|]. intros p x n. unfold ex_tree.
  rewrite !lookup_insert_Some, lookup_empty. intros Hn.
  assert (p ++ [x] = [name_d] ∨ p ++ [x] = [name_d; name_f]) as [E|E].
  { destruct Hn as [[E _]|[_ [[E _]|[_ [[E _]|[_ ?]]]]]]; [by destruct p|by left|by right|done]. }
  - assert (p = []) as ->; [by destruct p as [|? [|]]; simplify_eq/=|by eexists].
  - apply (app_inj_tail p [name_d] x name_f) in E as [-> _]. by eexists.
Qed.

Lemma way_df q : on_way path_df q → q = [] ∨ q = [name_d].
Proof.
  intros (r & E). change (piece_names _) with [name_d] in E.
  destruct q as [|a [|b q]]; [by left|right; by simplify_eq/=|by simplify_eq/=].
Qed.

Lemma off_df : ¬ on_way path_df (path_names path_df).
Proof. intros [E|E]%way_df; discriminate E. Qed.

Definition ex_safe : result (list bytes) * tree :=
  safe_local_path ex_tree ex_local_env path_df false.
Definition ex_run : result unit * tree :=
  with_writable_parents ex_tree ex_local_env path_df false remove_op.

Lemma safe_local_path_confined_witness :
  ex_safe.1 = Ok [name_d; name_f] ∧ lstat ex_safe.2 [name_d; name_f] ≠ Fails Outside.
Proof.
  assert (Hr : ex_safe.1 = Ok [name_d; name_f]) by (vm_compute; reflexivity).
  split; [exact Hr|].
  assert (E : safe_local_path ex_tree ex_local_env path_df false = (Ok [name_d; name_f], ex_safe.2))
    by (fold ex_safe; rewrite <-Hr; apply surjective_pairing).
  exact (proj1 (proj2 (proj2 (proj2 (safe_local_path_confined ex_tree ex_local_env path_df false
    [name_d; name_f] ex_safe.2 ex_tree_wf E))))).
Defined.

Lemma with_writable_parents_restores_witness :
  ex_run.1 = Ok tt ∧ ex_run.2 !! [name_d; name_f] = None ∧
  ex_run.2 !! [name_d] = Some (new_node KDir 365 0).
Proof.
  assert (Hr : ex_run.1 = Ok tt) by (vm_compute; reflexivity).
  split; [exact Hr|split; [vm_compute; reflexivity|]].
  assert (E : with_writable_parents ex_tree ex_local_env path_df false remove_op = (Ok tt, ex_run.2))
    by (fold ex_run; rewrite <-Hr; apply surjective_pairing).
  assert (Hspare : spares_way path_df remove_op).
  { intros s q n Hq Hn. simpl. rewrite lookup_delete_ne; [exact Hn|].
    intros <-. destruct (way_df _ Hq) as [E'|E']; discriminate E'. }
  destruct (proj1 (with_writable_parents_restores ex_tree ex_local_env path_df false remove_op
    (Ok tt) ex_run.2 Hspare E) [name_d] (new_node KDir 365 0)) as [Hd|(Hd & _)];
    [| |exact Hd|discriminate Hd].
  - exists []. reflexivity.
  - vm_compute. reflexivity.
Defined.

Lemma local_operation_frame_witness :
  (perform RemovePath ex_tree ex_local_env path_df).1 = Ok tt ∧
  (perform RemovePath ex_tree ex_local_env path_df).2 !! [name_d; name_f] = None ∧
  (perform RemovePath ex_tree ex_local_env path_df).2 !! [name_d] = Some (new_node KDir 365 0).
Proof.
  split; [vm_compute; reflexivity|split; [vm_compute; reflexivity|]].
  apply (local_operation_frame RemovePath ex_tree ex_local_env path_df [name_d]
    (new_node KDir 365 0)); [intros p mode; reflexivity|exact off_df|discriminate|vm_compute; reflexivity].
Defined.
