(* ===== verification/Partial.v ===== *)
(** * Partial downloads (src/network/transfer.rs)

    The temporary directory of a share, where a download grows until it has the
    size and the hash of its manifest entry.  A name in it is free, a regular file
    or something else; [refuses] says which system calls the operating system
    fails, whatever the state. *)

From S2P Require Import Prelude Collections Bytes External Reference Framing Clock Types ManifestPath Manifest Wire.

Definition HASH_BUFFER_BYTES : Z := 64 * 1024.

Inductive partial := PFile (content : bytes) | POther.
Notation partials := (gmap bytes partial).

(** The system calls on a partial that can fail. *)
Inductive partial_call := PInspect | PRemove | POpen | PResize | PWrite | PFlush | PRead.

Definition not_regular : string := "transfer partial path is not a regular file".
Definition cannot_inspect : string := "unable to inspect transfer partial".

(** [write_all] at a position of a file. *)
Definition write_at (content : bytes) (position : Z) (data : bytes) : bytes :=
  take (Z.to_nat position) content ++ data
    ++ drop (Z.to_nat position + length data) content.

Section partials.
Context `{HexCodec, Sha256} (refuses : partial_call → bytes → bool).

(** What [partial_path] hashes, and the name it makes below [share_tmp_dir]. *)
Definition partial_key (manifest_path sha256_text : bytes) : bytes :=
  manifest_path ++ [nul] ++ sha256_text.
Definition partial_path (manifest_path sha256_text : bytes) : bytes :=
  bs "chunk-" ++ hex_encode (sha256 (partial_key manifest_path sha256_text)) ++ bs ".part".
Definition partial_of (file : TransferFile) : bytes :=
  partial_path (tf_path file) (tf_sha256 file).

Definition partial_size (ps : partials) (manifest_path sha256_text : bytes) (size : Z)
    : result Z * partials :=
  let path := partial_path manifest_path sha256_text in
  if refuses PInspect path then (Err cannot_inspect, ps)
  else match ps !! path with
  | Some (PFile content) =>
      if blen content <=? size then (Ok (blen content), ps)
      else if refuses PRemove path
      then (Err "unable to remove oversized transfer partial", ps)
      else (Ok 0, delete path ps)
  | Some POther => (Err not_regular, ps)
  | None => (Ok 0, ps)
  end.

(** [ensure_partial_file]: the file is there, [offset] bytes long.  A missing
    temporary directory is created. *)
Definition ensure_partial_file (ps : partials) (path : bytes) (offset : Z)
    : result unit * partials :=
  let open ps content :=
    if refuses POpen path then (Err "unable to open transfer partial", ps)
    else
      let ps := <[path := PFile content]> ps in
      if negb (blen content =? offset) then
        if refuses PResize path then (Err "unable to resize transfer partial", ps)
        else (Ok tt, <[path := PFile (resize content offset)]> ps)
      else (Ok tt, ps) in
  if refuses PInspect path then (Err cannot_inspect, ps)
  else match ps !! path with
  | Some (PFile content) => open ps content
  | Some POther => (Err not_regular, ps)
  | None => open ps []
  end.

(** The loop that hashes a file block by block: the bytes hashed and the buffer. *)
Fixpoint hash_loop (fuel : nat) (source buffer hashed : bytes) : bytes * bytes :=
  match fuel with
  | O => (hashed, buffer)
  | S fuel =>
      let block := take (Z.to_nat HASH_BUFFER_BYTES) source in
      if bool_decide (block = []) then (hashed, buffer)
      else hash_loop fuel (drop (Z.to_nat HASH_BUFFER_BYTES) source)
             (block ++ drop (length block) buffer) (hashed ++ block)
  end.

Definition invalid_size : string := "transfer partial has an invalid size".
Definition invalid_hash : string := "transfer partial hash does not match its manifest".

Definition verify_partial (ps : partials) (path : bytes) (file : TransferFile) (buffer : bytes)
    : result bytes * partials :=
  if refuses PInspect path then (Err cannot_inspect, ps)
  else match ps !! path with
  | None => (Err cannot_inspect, ps)
  | Some POther => (Err invalid_size, ps)
  | Some (PFile content) =>
      if negb (blen content =? tf_size file) then (Err invalid_size, ps)
      else if refuses POpen path then (Err "unable to open transfer partial", ps)
      else if refuses PRead path then (Err "unable to read transfer partial", ps)
      else
        let buffer :=
          if blen buffer <? HASH_BUFFER_BYTES then resize buffer HASH_BUFFER_BYTES else buffer in
        let '(hashed, buffer) := hash_loop (S (length content)) content buffer [] in
        if negb (bool_decide (hex_encode (sha256 hashed) = tf_sha256 file)) then
          if refuses PRemove path
          then (Err "transfer partial hash does not match its manifest; unable to remove invalid transfer partial", ps)
          else (Err invalid_hash, delete path ps)
        else (Ok buffer, ps)
  end.

(** ** What they do *)

(** Whatever is at the path, what is reported fits in the file. *)
Lemma partial_size_Ok ps path sha size n ps' :
  0 ≤ size → partial_size ps path sha size = (Ok n, ps') →
  0 ≤ n ≤ size ∧
  ((∃ c, ps !! partial_path path sha = Some (PFile c) ∧ ps' = ps ∧ n = blen c) ∨
   (n = 0 ∧ ps' = delete (partial_path path sha) ps ∧ ps !! partial_path path sha ≠ Some POther)).
Proof.
  intros Hs. unfold partial_size. set (name := partial_path path sha).
  destruct (refuses PInspect name); [done|].
  destruct (ps !! name) as [[c|]|] eqn:E; [|done|].
  - destruct (Z.leb_spec (blen c) size).
    + intros [= <- <-]. pose proof (blen_nonneg c). split; [lia|]. left. by exists c.
    + destruct (refuses PRemove name); [done|]. intros [= <- <-]. split; [lia|]. by right.
  - intros [= <- <-]. split; [lia|]. right. by rewrite delete_id.
Qed.

(** A partial never changes while its size is taken, except that one which is too
    long is removed; the others stay. *)
Lemma partial_size_frame ps path sha size r ps' q :
  partial_size ps path sha size = (r, ps') → q ≠ partial_path path sha → ps' !! q = ps !! q.
Proof.
  unfold partial_size. set (name := partial_path path sha). intros Hp Hq. revert Hp.
  destruct (refuses PInspect name); [by intros [= _ <-]|].
  destruct (ps !! name) as [[c|]|]; [|by intros [= _ <-]..].
  destruct (blen c <=? size); [by intros [= _ <-]|].
  destruct (refuses PRemove name); intros [= _ <-]; [done|]. by rewrite lookup_delete_ne.
Qed.

Lemma ensure_partial_Ok ps path offset ps' :
  0 ≤ offset → ensure_partial_file ps path offset = (Ok tt, ps') →
  ∃ c, (ps !! path = Some (PFile c) ∨ (ps !! path = None ∧ c = [])) ∧
    ps' = <[path := PFile (resize c offset)]> ps.
Proof.
  intros Ho. unfold ensure_partial_file. destruct (refuses PInspect path); [done|].
  assert (Hgo : ∀ c, (if refuses POpen path then (Err "unable to open transfer partial", ps)
    else
      let ps := <[path := PFile c]> ps in
      if negb (blen c =? offset) then
        if refuses PResize path then (Err "unable to resize transfer partial", ps)
        else (Ok tt, <[path := PFile (resize c offset)]> ps)
      else (Ok tt, ps)) = (Ok tt, ps') → ps' = <[path := PFile (resize c offset)]> ps).
  { intros c. destruct (refuses POpen path); [done|]. simpl.
    destruct (Z.eqb_spec (blen c) offset) as [<-|]; simpl.
    - intros [= <-]. unfold resize, blen. rewrite Nat2Z.id, take_ge, Nat.sub_diag by done.
      by rewrite app_nil_r.
    - destruct (refuses PResize path); [done|]. intros [= <-]. by rewrite insert_insert_eq. }
  destruct (ps !! path) as [[c|]|]; [|done|]; intros E%Hgo; [exists c|exists []]; auto.
Qed.

Lemma ensure_partial_frame ps path offset r ps' q :
  ensure_partial_file ps path offset = (r, ps') → q ≠ path → ps' !! q = ps !! q.
Proof.
  intros Hp Hq. revert Hp. unfold ensure_partial_file. destruct (refuses PInspect path); [by intros [= _ <-]|].
  assert (Hgo : ∀ c, (if refuses POpen path then (Err "unable to open transfer partial", ps)
    else
      let ps := <[path := PFile c]> ps in
      if negb (blen c =? offset) then
        if refuses PResize path then (Err "unable to resize transfer partial", ps)
        else (Ok tt, <[path := PFile (resize c offset)]> ps)
      else (Ok tt, ps)) = (r, ps') → ps' !! q = ps !! q).
  { intros c. repeat destruct (refuses _ _); simpl; try destruct (negb _);
      intros [= _ <-]; by rewrite ?lookup_insert_ne. }
  destruct (ps !! path) as [[c|]|]; [|by intros [= _ <-]|]; apply Hgo.
Qed.

Lemma hash_loop_all fuel source buffer hashed :
  (length source < fuel)%nat → (hash_loop fuel source buffer hashed).1 = hashed ++ source.
Proof.
  revert source buffer hashed. induction fuel as [|fuel IH]; intros source buffer hashed Hf; [lia|].
  cbn [hash_loop]. remember (Z.to_nat HASH_BUFFER_BYTES) as block eqn:Eb.
  assert (0 < block)%nat by (subst block; unfold HASH_BUFFER_BYTES; lia).
  case_bool_decide as Ht.
  - destruct source; [by rewrite app_nil_r|]. by destruct block; [lia|].
  - rewrite IH; [by rewrite <-app_assoc, take_drop|].
    assert (source ≠ []) by (intros ->; by rewrite take_nil in Ht).
    rewrite length_drop. destruct source; [done|simpl in *; lia].
Qed.

(** A partial that passes has the size and the hash of its file, and stays. *)
Lemma verify_partial_Ok ps path file buffer buffer' ps' :
  verify_partial ps path file buffer = (Ok buffer', ps') →
  ps' = ps ∧ ∃ c, ps !! path = Some (PFile c) ∧ blen c = tf_size file ∧
    hex_encode (sha256 c) = tf_sha256 file.
Proof.
  unfold verify_partial. destruct (refuses PInspect path); [done|].
  destruct (ps !! path) as [[c|]|]; [|done..].
  destruct (Z.eqb_spec (blen c) (tf_size file)); [|done]. cbn [negb].
  destruct (refuses POpen path); [done|]. destruct (refuses PRead path); [done|].
  destruct (hash_loop _ _ _ _) as [hashed b'] eqn:El.
  assert (hashed = c) as -> by (change hashed with (hashed, b').1; rewrite <-El;
    by rewrite hash_loop_all by lia).
  case_bool_decide; simpl; [|by destruct (refuses PRemove path)].
  intros [= <- <-]. split; [done|]. by exists c.
Qed.

Lemma verify_partial_complete ps path file buffer c :
  refuses PInspect path = false → refuses POpen path = false → refuses PRead path = false →
  ps !! path = Some (PFile c) → blen c = tf_size file → hex_encode (sha256 c) = tf_sha256 file →
  ∃ buffer', verify_partial ps path file buffer = (Ok buffer', ps).
Proof.
  intros H1 H2 H3 Hp Hl Hs. unfold verify_partial. rewrite H1, H2, H3, Hp, Hl, Z.eqb_refl.
  cbn [negb]. destruct (hash_loop _ _ _ _) as [hashed b'] eqn:El.
  assert (hashed = c) as -> by (change hashed with (hashed, b').1; rewrite <-El;
    by rewrite hash_loop_all by lia).
  rewrite bool_decide_true by done. by exists b'.
Qed.

Lemma verify_partial_frame ps path file buffer r ps' q :
  verify_partial ps path file buffer = (r, ps') → q ≠ path → ps' !! q = ps !! q.
Proof.
  intros Hp Hq. revert Hp. unfold verify_partial. destruct (refuses PInspect path); [by intros [= _ <-]|].
  destruct (ps !! path) as [[c|]|]; [|by intros [= _ <-]..].
  destruct (negb _); [by intros [= _ <-]|].
  destruct (refuses POpen path); [by intros [= _ <-]|].
  destruct (refuses PRead path); [by intros [= _ <-]|].
  destruct (hash_loop _ _ _ _). destruct (negb _); [|by intros [= _ <-]].
  destruct (refuses PRemove path); intros [= _ <-]; [done|]. by rewrite lookup_delete_ne.
Qed.
End partials.
