(* ===== verification/Streaming.v ===== *)
(** * Sending and receiving file contents (src/network/transfer.rs)

    The sender reads shared files and writes chunk frames; the receiver appends
    the payloads to partials and checks size and hash.  Whatever the peer sends, a
    file is reported complete only with the size and hash that were announced; an
    honest stream completes every file, and a stream cut anywhere leaves partials
    from which the transfer resumes. *)

From S2P Require Import Prelude Collections Bytes External Reference Framing Clock Types ManifestPath Manifest Wire LocalFs Partial.

(** ** Receiving *)

Record CompletedFile := {
  cf_file : TransferFile;
  cf_staged_path : bytes;
}.

(** [destination.write_all] at the position of the open file. *)
Definition write_partial (ps : partials) (path : bytes) (position : Z) (data : bytes) : partials :=
  match ps !! path with
  | Some (PFile content) => <[path := PFile (write_at content position data)]> ps
  | _ => ps
  end.

Definition index_overflow : string := "transfer file index overflow".

Section receive.
Context `{HexCodec, Sha256} (refuses : partial_call → bytes → bool).

(** The loop over the chunks of one file. *)
Fixpoint receive_loop (fuel : nat) (ps : partials) (path : bytes) (index size offset : Z)
    (buffer recv : bytes) : result (bytes * bytes) * partials :=
  if offset <? size then
    match fuel with
    | O => (Err "out of fuel", ps)
    | S fuel =>
        match read_chunk recv index offset (size - offset) buffer with
        | Err m => (Err m, ps)
        | Ok (count, buffer, recv) =>
            if refuses PWrite path then (Err "unable to write transfer partial", ps)
            else receive_loop fuel
                   (write_partial ps path offset (take (Z.to_nat count) buffer))
                   path index size (offset + count) buffer recv
        end
    end
  else (Ok (buffer, recv), ps).

Definition receive_file (ps : partials) (index : Z) (file : TransferFile) (buffer recv : bytes)
    : result (bytes * bytes) * partials :=
  let path := partial_of file in
  match ensure_partial_file refuses ps path (tf_offset file) with
  | (Err _, ps) => (Err "unable to prepare transfer", ps)
  | (Ok _, ps) =>
      match receive_loop (S (length recv)) ps path index (tf_size file) (tf_offset file)
              buffer recv with
      | (Err m, ps) => (Err m, ps)
      | (Ok (buffer, recv), ps) =>
          if refuses PFlush path then (Err "unable to flush transfer partial", ps)
          else match verify_partial refuses ps path file buffer with
               | (Err m, ps) => (Err m, ps)
               | (Ok buffer, ps) => (Ok (buffer, recv), ps)
               end
      end
  end.

Fixpoint receive_from (ps : partials) (index : Z) (files : list TransferFile)
    (buffer recv : bytes) (completed : list CompletedFile)
    : result (list CompletedFile * bytes) * partials :=
  match files with
  | [] => (Ok (completed, recv), ps)
  | file :: files =>
      if u32_max <? index then (Err index_overflow, ps)
      else match receive_file ps index file buffer recv with
           | (Err m, ps) => (Err m, ps)
           | (Ok (buffer, recv), ps) =>
               receive_from ps (index + 1) files buffer recv
                 (completed ++ [{| cf_file := file; cf_staged_path := partial_of file |}])
           end
  end.

(** [receive_file_chunks], and [receive_download_chunks], which calls it. *)
Definition receive_file_chunks (ps : partials) (files : list TransferFile) (recv : bytes)
    : result (list CompletedFile * bytes) * partials :=
  match validate_transfer_file_shapes files with
  | Err m => (Err m, ps)
  | Ok _ => receive_from ps 0 files [] recv []
  end.

Definition receive_upload_chunks (ps : partials) (share_id : bytes)
    (requested ready : list TransferFile) (recv : bytes)
    : result (list CompletedFile * bytes) * partials :=
  match validate_transfer_ready
          {| ty_protocol_version := PROTOCOL_VERSION; ty_share_id := share_id;
             ty_uploads := ready |} share_id requested with
  | Err m => (Err m, ps)
  | Ok _ => receive_file_chunks ps ready recv
  end.
End receive.

(** ** Sending *)

(** The moments at which the sender looks at a shared file, which may change
    meanwhile. *)
Inductive moment := Inspected | Opened | Finished.

Definition changed_before : string := "shared file changed before chunk transfer".
Definition changed_during : string := "shared file changed during chunk transfer".

(** [count] bytes of a file from a position on. *)
Definition slice (content : bytes) (position count : Z) : bytes :=
  take (Z.to_nat count) (drop (Z.to_nat position) content).

Section send.
Context (view : Z → moment → tree) (read_count : Z → Z → Z).

(** The loop over one file.  A read returns between one byte and what was asked
    for and is left, as [read_count] decides. *)
Fixpoint send_loop (fuel : nat) (content : bytes) (index size offset buffer_len : Z)
    (writer : bytes) : result bytes :=
  if offset <? size then
    match fuel with
    | O => Err "out of fuel"
    | S fuel =>
        let wanted := Z.min (size - offset) buffer_len in
        let available := Z.min wanted (blen content - offset) in
        if available <=? 0 then Err "shared file ended during chunk transfer"
        else
          let count := Z.max 1 (Z.min (read_count index offset) available) in
          writer ← write_chunk writer index offset (slice content offset count);
          send_loop fuel content index size (offset + count) buffer_len writer
    end
  else Ok writer.

(** One file; the length of the buffer and the stream are threaded. *)
Definition send_file (e : env) (index : Z) (file : TransferFile) (buffer_len : Z) (writer : bytes)
    : result (Z * bytes) :=
  target ← (safe_local_path (view index Inspected) e (tf_path file) false).1;
  match lstat (view index Inspected) target with
  | Fails _ => Err "unable to inspect shared file"
  | Done n =>
      bail_if (negb (is_file n) || is_symlink n
               || negb (blen (file_content n) =? tf_size file)) changed_before;;
      match open_file (view index Opened) target with
      | Fails _ => Err "unable to open shared file"
      | Done source =>
          let content := file_content source in
          let required := Z.min (Z.max 0 (tf_size file - tf_offset file)) MAX_CHUNK_BYTES in
          let buffer_len := if buffer_len <? required then required else buffer_len in
          writer ← send_loop (S (Z.to_nat (blen content - tf_offset file))) content index
                     (tf_size file) (tf_offset file) buffer_len writer;
          match lstat (view index Finished) target with
          | Fails _ => Err "unable to inspect shared file"
          | Done n =>
              bail_if (negb (is_file n) || negb (blen (file_content n) =? tf_size file))
                changed_during;;
              Ok (buffer_len, writer)
          end
      end
  end.

Fixpoint send_from (e : env) (index : Z) (files : list TransferFile) (buffer_len : Z)
    (writer : bytes) : result bytes :=
  match files with
  | [] => Ok writer
  | file :: files =>
      bail_if (u32_max <? index) index_overflow;;
      '(buffer_len, writer) ← send_file e index file buffer_len writer;
      send_from e (index + 1) files buffer_len writer
  end.

Definition send_file_chunks_from_root (e : env) (files : list TransferFile) (writer : bytes)
    : result bytes :=
  directory_root (view 0 Inspected);; send_from e 0 files 0 writer.

Definition send_upload_chunks (e : env) (requested ready : list TransferFile) (writer : bytes)
    : result bytes :=
  validate_transfer_file_shapes requested;;
  validate_transfer_file_shapes ready;;
  bail_if (negb (blen requested =? blen ready)) "upload resume list has an unexpected length";;
  try_for (λ '(request, resume), bail_if (negb (same_file request resume))
      "upload resume metadata does not match the request") (zip requested ready);;
  send_file_chunks_from_root e ready writer.
End send.

(** ** The receiver whatever the peer sends *)

Section sound.
Context `{HexCodec, Sha256} (refuses : partial_call → bytes → bool).

Lemma write_partial_ne ps path position data q :
  q ≠ path → write_partial ps path position data !! q = ps !! q.
Proof. intros Hq. unfold write_partial. repeat case_match; by rewrite ?lookup_insert_ne. Qed.

Lemma receive_loop_frame fuel ps path index size offset buffer recv r ps' q :
  receive_loop refuses fuel ps path index size offset buffer recv = (r, ps') →
  q ≠ path → ps' !! q = ps !! q.
Proof.
  revert ps offset buffer recv.
  induction fuel as [|fuel IH]; intros ps offset buffer recv; simpl;
    destruct (offset <? size); try by intros [= _ <-].
  destruct (read_chunk _ _ _ _ _) as [[[count b] rest]|]; [|by intros [= _ <-]].
  destruct (refuses PWrite path); [by intros [= _ <-]|].
  intros Hr Hq. rewrite (IH _ _ _ _ Hr Hq). by apply write_partial_ne.
Qed.

(** Every chunk takes bytes from the stream: the loop ends before the fuel. *)
Lemma receive_loop_ends fuel ps path index size offset buffer recv :
  (length recv < fuel)%nat →
  (receive_loop refuses fuel ps path index size offset buffer recv).1 ≠ Err "out of fuel".
Proof.
  revert ps offset buffer recv.
  induction fuel as [|fuel IH]; intros ps offset buffer recv Hf; [lia|]. simpl.
  destruct (offset <? size); [|done].
  destruct (read_chunk _ _ _ _ _) as [[[count b] rest]|m] eqn:Er.
  - destruct (refuses PWrite path); [done|]. apply IH.
    apply read_chunk_Ok in Er as (_ & _ & _ & ->).
    rewrite length_app, length_chunk_header in Hf. rewrite length_app in Hf. lia.
  - simpl. intros [= ->]. revert Er. unfold read_chunk, read_exact.
    destruct (16 <=? blen recv); [|done]. cbn [mbind result_bind].
    destruct (negb _ || _); [done|]. cbn [mbind result_bind bail_if].
    destruct (_ || _); [done|]. cbn [mbind result_bind bail_if]. by destruct (_ <=? _).
Qed.

Lemma receive_file_frame ps index file buffer recv r ps' q :
  receive_file refuses ps index file buffer recv = (r, ps') →
  q ≠ partial_of file → ps' !! q = ps !! q.
Proof.
  intros Hr Hq. revert Hr. unfold receive_file.
  destruct (ensure_partial_file _ _ _ _) as [[[]|m] ps1] eqn:Ee;
    pose proof (ensure_partial_frame _ _ _ _ _ _ _ Ee Hq) as E1; [|by intros [= _ <-]].
  destruct (receive_loop _ _ _ _ _ _ _ _ _) as [[[b rest]|m] ps2] eqn:El;
    pose proof (receive_loop_frame _ _ _ _ _ _ _ _ _ _ _ El Hq) as E2;
    [|intros [= _ <-]; congruence].
  destruct (refuses PFlush _); [intros [= _ <-]; congruence|].
  destruct (verify_partial _ _ _ _ _) as [[b'|m] ps3] eqn:Ev;
    pose proof (verify_partial_frame _ _ _ _ _ _ _ _ Ev Hq) as E3; intros [= _ <-]; congruence.
Qed.

(** The file that a transfer announces is at its staged path. *)
Definition is_complete (ps : partials) (file : TransferFile) : Prop :=
  ∃ content, ps !! partial_of file = Some (PFile content) ∧ blen content = tf_size file ∧
    hex_encode (sha256 content) = tf_sha256 file.

Lemma receive_file_complete ps index file buffer recv b rest ps' :
  receive_file refuses ps index file buffer recv = (Ok (b, rest), ps') → is_complete ps' file.
Proof.
  unfold receive_file.
  destruct (ensure_partial_file _ _ _ _) as [[[]|m] ps1]; [|done].
  destruct (receive_loop _ _ _ _ _ _ _ _ _) as [[[b1 rest1]|m] ps2]; [|done].
  destruct (refuses PFlush _); [done|].
  destruct (verify_partial _ _ _ _ _) as [[b'|m] ps3] eqn:Ev; [|done]. intros [= _ _ <-].
  by apply verify_partial_Ok in Ev as (-> & Hc).
Qed.

Lemma receive_from_complete ps index files buffer recv completed out rest ps' :
  NoDup (map partial_of files) →
  receive_from refuses ps index files buffer recv completed = (Ok (out, rest), ps') →
  out = completed ++ map (λ f, {| cf_file := f; cf_staged_path := partial_of f |}) files ∧
  Forall (is_complete ps') files ∧
  ∀ q, q ∉ map partial_of files → ps' !! q = ps !! q.
Proof.
  revert ps index buffer recv completed.
  induction files as [|file files IH]; intros ps index buffer recv completed Hnd; simpl.
  - intros [= <- _ <-]. rewrite app_nil_r. by split_and!.
  - destruct (u32_max <? index); [done|]. apply NoDup_cons in Hnd as [Hni Hnd].
    destruct (receive_file _ _ _ _ _ _) as [[[b1 rest1]|m] ps1] eqn:Ef; [|done].
    pose proof (receive_file_complete _ _ _ _ _ _ _ _ Ef) as (c & Hc & Hprops).
    intros Hr. apply IH in Hr as (-> & Hall & Hframe); [|done].
    split_and!; [by rewrite <-app_assoc| |].
    + constructor; [|done]. exists c. by rewrite Hframe.
    + intros q [Hq Hq']%not_elem_of_cons. rewrite Hframe by done.
      by eapply receive_file_frame.
Qed.

(** No collision among the names of these partials. *)
Definition distinct_hashes (files : list TransferFile) : Prop :=
  ∀ f g, f ∈ files → g ∈ files →
    sha256 (partial_key (tf_path f) (tf_sha256 f)) =
    sha256 (partial_key (tf_path g) (tf_sha256 g)) →
    partial_key (tf_path f) (tf_sha256 f) = partial_key (tf_path g) (tf_sha256 g).

Lemma hex_encode_inj a b : hex_encode a = hex_encode b → a = b.
Proof.
  intros E. assert (Some a = Some b) as [= ->]; [|done].
  by rewrite <-!hex_decode_encode, E.
Qed.

Lemma partial_of_inj f g :
  file_shape_ok f → file_shape_ok g →
  (sha256 (partial_key (tf_path f) (tf_sha256 f)) =
   sha256 (partial_key (tf_path g) (tf_sha256 g)) →
   partial_key (tf_path f) (tf_sha256 f) = partial_key (tf_path g) (tf_sha256 g)) →
  partial_of f = partial_of g → tf_path f = tf_path g.
Proof.
  intros (_ & Hf & _) (_ & Hg & _) Hinj E. unfold partial_of, partial_path in E.
  apply app_inv_head, app_inv_tail, hex_encode_inj, Hinj in E.
  unfold partial_key, is_sha256_text in *. bool_inv.
  apply app_inj_2 in E as [E _]; [done|]. unfold blen in *. rewrite !length_app. simpl. lia.
Qed.

Lemma partials_distinct files :
  shapes_ok files → distinct_hashes files → NoDup (map partial_of files).
Proof.
  intros (_ & Hs & Hnd) Hd. induction files as [|f files IH]; simpl; [constructor|].
  inversion Hs as [|? ? Hf Hs']; subst. apply NoDup_cons in Hnd as [Hni Hnd].
  constructor; [|apply IH; [done..|]; intros x y Hx Hy; apply Hd; by right].
  rewrite list_elem_of_In, in_map_iff. intros (g & E & Hg). apply Hni.
  apply partial_of_inj in E as <-.
  - by apply list_elem_of_In, in_map.
  - rewrite List.Forall_forall in Hs'. by apply Hs'.
  - done.
  - apply Hd; [right; by apply list_elem_of_In|by left].
Qed.
End sound.

(** ** Honest streams *)

(** The frames of the rest of a file, from [offset] on, however it is cut. *)
Inductive honest (index : Z) (content : bytes) : Z → bytes → Prop :=
| honest_end : honest index content (blen content) []
| honest_chunk offset count rest :
    1 ≤ count ≤ MAX_CHUNK_BYTES → 0 ≤ offset → offset + count ≤ blen content →
    honest index content (offset + count) rest →
    honest index content offset
      (chunk_header index offset count ++ slice content offset count ++ rest).

Lemma blen_slice content position count :
  0 ≤ position → 0 ≤ count → position + count ≤ blen content →
  blen (slice content position count) = count.
Proof. intros. unfold slice, blen in *. rewrite length_take, length_drop. lia. Qed.

Lemma take_slice content position count :
  0 ≤ position → 0 ≤ count →
  take (Z.to_nat position) content ++ slice content position count =
  take (Z.to_nat (position + count)) content.
Proof.
  intros. unfold slice. rewrite Z2Nat.inj_add by lia.
  rewrite <-(take_drop (Z.to_nat position) content) at 3.
  destruct (decide (Z.to_nat position ≤ length content)%nat).
  - rewrite take_app_ge by (rewrite length_take; lia). f_equal. f_equal.
    rewrite length_take. lia.
  - rewrite (drop_ge content) by lia. rewrite take_nil, !app_nil_r.
    by rewrite (take_ge content (Z.to_nat position)), take_ge by lia.
Qed.

Lemma write_chunk_slice writer index offset data :
  1 ≤ blen data ≤ MAX_CHUNK_BYTES →
  write_chunk writer index offset data =
    Ok (writer ++ chunk_header index offset (blen data) ++ data).
Proof.
  intros Hd. unfold write_chunk, write_all.
  rewrite bool_decide_false by (intros ->; unfold blen in Hd; simpl in Hd; lia).
  rewrite (proj2 (Z.ltb_ge MAX_CHUNK_BYTES _)) by lia.
  assert (MAX_CHUNK_BYTES ≤ u32_max) by (unfold MAX_CHUNK_BYTES; u_unfold; lia).
  rewrite (proj2 (Z.ltb_ge u32_max _)) by lia. simpl. by rewrite <-app_assoc.
Qed.

Lemma read_honest_chunk index offset data rest remaining buffer :
  1 ≤ blen data ≤ MAX_CHUNK_BYTES → blen data ≤ remaining →
  read_chunk (chunk_header index offset (blen data) ++ data ++ rest) index offset remaining buffer
    = Ok (blen data, data ++ drop (length data) buffer, rest).
Proof.
  intros Hd Hr. pose proof (write_chunk_slice [] index offset data Hd) as Hw.
  destruct (read_write_chunk [] index offset data _ rest remaining buffer Hw Hr)
    as (frame & E & Hread & _). simpl in E. subst frame. by rewrite <-app_assoc in Hread.
Qed.

Lemma read_count_range w a : 1 ≤ a → 1 ≤ Z.max 1 (Z.min w a) ≤ a.
Proof. lia. Qed.

(** The sender makes an honest stream of a file that does not change. *)
Lemma send_loop_honest read_count fuel content index offset buffer_len writer :
  0 ≤ offset ≤ blen content → 0 < buffer_len ≤ MAX_CHUNK_BYTES ∨ offset = blen content →
  blen content - offset < Z.of_nat fuel →
  ∃ s, send_loop read_count fuel content index (blen content) offset buffer_len writer
         = Ok (writer ++ s) ∧ honest index content offset s.
Proof.
  revert offset writer. induction fuel as [|fuel IH]; intros offset writer Ho Hb Hf; [lia|].
  cbn [send_loop]. destruct (Z.ltb_spec offset (blen content)) as [Hlt|Hge].
  - destruct Hb as [Hb|]; [|lia]. set (available := Z.min _ _).
    assert (1 ≤ available ≤ MAX_CHUNK_BYTES ∧ offset + available ≤ blen content) as [Ha Hend]
      by (subst available; lia).
    rewrite (proj2 (Z.leb_gt available 0)) by lia.
    set (count := Z.max 1 _). pose proof (read_count_range (read_count index offset) available
      (proj1 Ha)) as Hc. fold count in Hc.
    assert (Hs : blen (slice content offset count) = count) by (apply blen_slice; lia).
    rewrite write_chunk_slice by (rewrite Hs; lia). rewrite Hs. cbn [mbind result_bind].
    destruct (IH (offset + count) (writer ++ chunk_header index offset count
      ++ slice content offset count)) as (s & -> & Hh); [lia|by left|lia|].
    eexists. rewrite <-!app_assoc. split; [reflexivity|]. constructor; [lia..|done].
  - assert (offset = blen content) as -> by lia. exists []. rewrite app_nil_r.
    split; [done|constructor].
Qed.

Lemma take_0_nil {A} (l : list A) : take (Z.to_nat 0) l = [].
Proof. done. Qed.

Lemma write_partial_next ps path content offset count :
  0 ≤ offset → 0 ≤ count → offset + count ≤ blen content →
  ps !! path = Some (PFile (take (Z.to_nat offset) content)) →
  write_partial ps path offset (slice content offset count) =
    <[path := PFile (take (Z.to_nat (offset + count)) content)]> ps.
Proof.
  intros Ho Hc Hle Hp. unfold write_partial. rewrite Hp. f_equal. f_equal. unfold write_at.
  rewrite take_take, Nat.min_id, drop_ge; [|rewrite length_take; lia].
  rewrite app_nil_r. by apply take_slice.
Qed.

Section deliver.
Context `{HexCodec, Sha256} (refuses : partial_call → bytes → bool).

Lemma receive_loop_honest index content offset s :
  honest index content offset s →
  ∀ fuel ps path buffer rest, 0 ≤ offset → refuses PWrite path = false →
  ps !! path = Some (PFile (take (Z.to_nat offset) content)) → (length s < fuel)%nat →
  ∃ buffer', receive_loop refuses fuel ps path index (blen content) offset buffer (s ++ rest) =
    (Ok (buffer', rest), <[path := PFile content]> ps).
Proof.
  induction 1 as [|offset count s Hc Ho Hle Hh IH]; intros fuel ps path buffer rest Hpos Hw Hp Hf;
    (destruct fuel as [|fuel]; [lia|]); cbn [receive_loop].
  - rewrite Z.ltb_irrefl. exists buffer. simpl. rewrite insert_id; [done|].
    rewrite Hp. f_equal. f_equal. apply take_ge. unfold blen. lia.
  - rewrite (proj2 (Z.ltb_lt _ _)) by lia.
    assert (Hs : blen (slice content offset count) = count) by (apply blen_slice; lia).
    pose proof (read_honest_chunk index offset (slice content offset count) (s ++ rest)
      (blen content - offset) buffer) as Hread. rewrite Hs in Hread.
    rewrite <-!app_assoc, Hread, Hw by lia. rewrite take_app_length' by (unfold blen in Hs; lia).
    rewrite (write_partial_next _ _ content) by (done || lia).
    destruct (IH fuel (<[path := PFile (take (Z.to_nat (offset + count)) content)]> ps) path
      (slice content offset count ++ drop (length (slice content offset count)) buffer) rest)
      as (b & ->); [lia|done|by rewrite lookup_insert_eq| |].
    + rewrite !length_app in Hf. rewrite length_chunk_header in Hf. lia.
    + exists b. by rewrite insert_insert_eq.
Qed.

(** A stream cut before its end leaves a longer prefix of the file, or the same. *)
Lemma receive_loop_cut index content offset s :
  honest index content offset s →
  ∀ r t fuel ps path buffer, s = r ++ t → t ≠ [] → 0 ≤ offset →
  ps !! path = Some (PFile (take (Z.to_nat offset) content)) → (length r < fuel)%nat →
  ∃ m k, receive_loop refuses fuel ps path index (blen content) offset buffer r =
    (Err m, <[path := PFile (take (Z.to_nat k) content)]> ps) ∧ offset ≤ k ≤ blen content.
Proof.
  induction 1 as [|offset count s Hc Ho Hle Hh IH];
    intros r t fuel ps path buffer E Ht Hpos Hp Hf;
    (destruct fuel as [|fuel]; [lia|]); cbn [receive_loop].
  - symmetry in E. by apply app_eq_nil in E as [_ ->].
  - rewrite (proj2 (Z.ltb_lt _ _)) by lia.
    assert (Hs : blen (slice content offset count) = count) by (apply blen_slice; lia).
    assert (Hstay : <[path := PFile (take (Z.to_nat offset) content)]> ps = ps)
      by by apply insert_id.
    destruct (read_chunk r index offset _ buffer) as [[[c b] r']|m] eqn:Er.
    2: { exists m, offset. rewrite Hstay. split; [done|lia]. }
    destruct (refuses PWrite path) eqn:Hw.
    { eexists _, offset. rewrite Hstay. split; [done|lia]. }
    apply read_chunk_Ok in Er as (Hc1 & Hc2 & Hc3 & Hr).
    rewrite Hr, <-!app_assoc in E. apply app_inj_1 in E as [Eh E];
      [|by rewrite !length_chunk_header].
    assert (c = count) as ->.
    { pose proof (chunk_header_parts index offset c) as (_ & _ & Hd1).
      pose proof (chunk_header_parts index offset count) as (_ & _ & Hd2).
      rewrite Eh, Hd1 in Hd2. apply (f_equal be_value) in Hd2.
      unfold MAX_CHUNK_BYTES in *. rewrite !u32_be_value in Hd2; [done|u_unfold; lia..]. }
    apply app_inj_1 in E as [Ed E].
    2: { unfold blen in *. rewrite length_take. lia. }
    rewrite <-Ed, (write_partial_next _ _ content) by (done || lia).
    destruct (IH r' t fuel (<[path := PFile (take (Z.to_nat (offset + count)) content)]> ps) path b)
      as (m & k & -> & Hk); [done|done|lia|by rewrite lookup_insert_eq| |].
    + rewrite Hr in Hf. rewrite !length_app, length_chunk_header in Hf. lia.
    + exists m, k. rewrite insert_insert_eq. split; [done|lia].
Qed.
End deliver.

(** ** Whole transfers *)

Section transfers.
Context `{HexCodec, Sha256}.
Implicit Types (files : list TransferFile) (contents : TransferFile → bytes).

(** The announced size and hash are those of the contents. *)
Definition describes (file : TransferFile) (content : bytes) : Prop :=
  blen content = tf_size file ∧ hex_encode (sha256 content) = tf_sha256 file ∧
  0 ≤ tf_offset file ≤ tf_size file.

(** The partial holds at least the part of the file that is not sent again. *)
Definition resumable (ps : partials) (file : TransferFile) (content : bytes) : Prop :=
  (ps !! partial_of file = None ∧ tf_offset file = 0) ∨
  ∃ k, ps !! partial_of file = Some (PFile (take (Z.to_nat k) content)) ∧
    tf_offset file ≤ k ≤ blen content.

(** The shared tree serves the file. *)
Definition served (t : tree) (e : env) (file : TransferFile) (content : bytes) : Prop :=
  ∃ target n, (safe_local_path t e (tf_path file) false).1 = Ok target ∧
    open_file t target = Done n ∧ file_content n = content.

(** Honest streams of the files, one after the other. *)
Inductive honest_files contents : Z → list TransferFile → bytes → Prop :=
| honest_nil index : honest_files contents index [] []
| honest_cons index file files s stream :
    honest index (contents file) (tf_offset file) s →
    honest_files contents (index + 1) files stream →
    honest_files contents index (file :: files) (s ++ stream).

Lemma open_file_Done t p n :
  open_file t p = Done n → lstat t p = Done n ∧ is_file n = true ∧ is_symlink n = false.
Proof.
  unfold open_file. destruct (lstat t p) as [m|]; [|done].
  destruct (is_file m) eqn:Ef; [|done]. destruct (may_read m); [|done]. intros [= ->].
  split_and!; [done|done|]. unfold is_file, is_symlink in *. by destruct (n_kind n).
Qed.

Lemma send_file_honest t e read_count index file content buffer_len writer :
  served t e file content → describes file content → 0 ≤ buffer_len ≤ MAX_CHUNK_BYTES →
  ∃ b s, send_file (λ _ _, t) read_count e index file buffer_len writer = Ok (b, writer ++ s) ∧
    honest index content (tf_offset file) s ∧ 0 ≤ b ≤ MAX_CHUNK_BYTES.
Proof.
  intros (target & n & Hsafe & Hopen & Hn) (Hsize & _ & Hoff) Hb.
  pose proof (open_file_Done t target n Hopen) as (Hl & Hf & Hs).
  unfold send_file. rewrite Hsafe. cbn [mbind result_bind]. rewrite Hl, Hf, Hs, Hn, Hsize, Z.eqb_refl.
  cbn [negb orb bail_if mbind result_bind]. rewrite Hopen, Hn.
  set (required := Z.min _ _). set (b := if buffer_len <? required then required else buffer_len).
  assert (Hr : 0 ≤ required ≤ MAX_CHUNK_BYTES) by (subst required; unfold MAX_CHUNK_BYTES; lia).
  assert (Hb' : 0 ≤ b ≤ MAX_CHUNK_BYTES ∧ required ≤ b).
  { subst b. destruct (Z.ltb_spec buffer_len required); lia. }
  destruct (send_loop_honest read_count (S (Z.to_nat (blen content - tf_offset file))) content index
    (tf_offset file) b writer) as (s & Hsend & Hh).
  - lia.
  - destruct (decide (tf_offset file = blen content)); [by right|left].
    subst required. unfold MAX_CHUNK_BYTES in *. lia.
  - lia.
  - rewrite <-Hsize, Hsend. cbn [mbind result_bind].
    exists b, s. by split_and!; [..|lia|lia].
Qed.

Lemma send_from_honest t e read_count contents files index buffer_len writer :
  0 ≤ index → index + blen files ≤ u32_max → 0 ≤ buffer_len ≤ MAX_CHUNK_BYTES →
  Forall (λ f, served t e f (contents f) ∧ describes f (contents f)) files →
  ∃ stream, send_from (λ _ _, t) read_count e index files buffer_len writer = Ok (writer ++ stream)
    ∧ honest_files contents index files stream.
Proof.
  revert index buffer_len writer. induction files as [|f files IH]; intros index b w Hi Hu Hb Hall.
  - exists []. rewrite app_nil_r. split; [done|constructor].
  - inversion Hall as [|? ? [Hserved Hdesc] Hall']; subst. cbn [send_from].
    rewrite blen_cons in Hu. pose proof (blen_nonneg files).
    rewrite (proj2 (Z.ltb_ge u32_max index)) by lia. cbn [bail_if mbind result_bind].
    destruct (send_file_honest t e read_count index f (contents f) b w) as (b' & s & -> & Hh & Hb');
      [done..|]. cbn [mbind result_bind].
    destruct (IH (index + 1) b' (w ++ s)) as (stream & -> & Hrest); [lia|lia|done|done|].
    exists (s ++ stream). rewrite app_assoc. split; [done|by constructor].
Qed.

Context (refuses : partial_call → bytes → bool).
Hypothesis no_faults : ∀ call path, refuses call path = false.

Lemma resize_prefix (content : bytes) k offset :
  0 ≤ offset ≤ k → k ≤ blen content →
  resize (take (Z.to_nat k) content) offset = take (Z.to_nat offset) content.
Proof.
  intros Ho Hk. unfold resize. rewrite take_take, Nat.min_l by lia.
  rewrite length_take. replace (Z.to_nat offset - _)%nat with 0%nat by (unfold blen in Hk; lia).
  by rewrite app_nil_r.
Qed.

Lemma ensure_resumable ps file content :
  describes file content → resumable ps file content →
  ensure_partial_file refuses ps (partial_of file) (tf_offset file) =
    (Ok tt, <[partial_of file := PFile (take (Z.to_nat (tf_offset file)) content)]> ps).
Proof.
  intros (Hsize & _ & Hoff) Hres. unfold ensure_partial_file. rewrite !no_faults.
  destruct Hres as [[-> ->]|(k & -> & Hk)].
  - simpl. done.
  - assert (Hlen : blen (take (Z.to_nat k) content) = k).
    { unfold blen in *. rewrite length_take. lia. }
    rewrite Hlen. destruct (Z.eqb_spec k (tf_offset file)) as [->|]; simpl; [done|].
    rewrite insert_insert_eq, resize_prefix by lia. done.
Qed.

Lemma receive_file_honest ps index file content s buffer rest :
  describes file content → resumable ps file content →
  honest index content (tf_offset file) s →
  ∃ b, receive_file refuses ps index file buffer (s ++ rest) =
    (Ok (b, rest), <[partial_of file := PFile content]> ps).
Proof.
  intros Hd Hres Hh. unfold receive_file. rewrite (ensure_resumable _ _ content) by done.
  destruct Hd as (Hsize & Hhash & Hoff).
  set (ps1 := <[_ := _]> ps).
  destruct (receive_loop_honest refuses _ _ _ _ Hh (S (length (s ++ rest))) ps1 (partial_of file)
    buffer rest) as (b & E); [lia|done|by apply lookup_insert_eq|rewrite length_app; lia|].
  rewrite <-Hsize, E, no_faults. subst ps1. rewrite insert_insert_eq.
  destruct (verify_partial_complete refuses (<[partial_of file := PFile content]> ps)
    (partial_of file) file b content) as (b' & ->); [done..|by rewrite lookup_insert_eq|done|done|].
  by exists b'.
Qed.

(** Receiving one file leaves the others as resumable as before. *)
Lemma resumable_ne ps file content q x :
  partial_of file ≠ q → resumable ps file content → resumable (<[q := x]> ps) file content.
Proof. intros Hq. unfold resumable. by rewrite lookup_insert_ne. Qed.

Lemma receive_from_honest contents files index stream :
  honest_files contents index files stream →
  ∀ ps buffer rest completed, NoDup (map partial_of files) →
  0 ≤ index → index + blen files ≤ u32_max →
  Forall (λ f, describes f (contents f) ∧ resumable ps f (contents f)) files →
  ∃ ps', receive_from refuses ps index files buffer (stream ++ rest) completed =
    (Ok (completed ++ map (λ f, {| cf_file := f; cf_staged_path := partial_of f |}) files, rest),
     ps') ∧
    Forall (λ f, ps' !! partial_of f = Some (PFile (contents f))) files ∧
    (∀ q, q ∉ map partial_of files → ps' !! q = ps !! q).
Proof.
  induction 1 as [index|index f files s stream Hh Hrest IH];
    intros ps buffer rest completed Hnd Hi Hu Hall; cbn [receive_from].
  - exists ps. rewrite app_nil_r. by split_and!.
  - inversion Hall as [|? ? [Hdesc Hres] Hall']; subst. apply NoDup_cons in Hnd as [Hni Hnd].
    rewrite blen_cons in Hu. pose proof (blen_nonneg files).
    rewrite (proj2 (Z.ltb_ge u32_max index)) by lia. rewrite <-app_assoc.
    destruct (receive_file_honest ps index f (contents f) s buffer (stream ++ rest)) as (b & ->);
      [done..|].
    destruct (IH (<[partial_of f := PFile (contents f)]> ps) b rest
      (completed ++ [{| cf_file := f; cf_staged_path := partial_of f |}]))
      as (ps' & -> & Hdone & Hframe); [done|lia|lia| |].
    + rewrite List.Forall_forall in *. intros g Hg. destruct (Hall' g Hg) as [? ?].
      split; [done|]. apply resumable_ne; [|done]. intros E. apply Hni. rewrite <-E.
      by apply list_elem_of_In, in_map.
    + exists ps'. split_and!; [by rewrite <-app_assoc| |].
      * constructor; [|done]. by rewrite Hframe, lookup_insert_eq.
      * intros q [Hq1 Hq2]%not_elem_of_cons. rewrite Hframe by done.
        by rewrite lookup_insert_ne.
Qed.

Lemma receive_file_cut ps index file content s r t buffer :
  describes file content → resumable ps file content →
  honest index content (tf_offset file) s → s = r ++ t → t ≠ [] →
  ∃ m k, receive_file refuses ps index file buffer r =
    (Err m, <[partial_of file := PFile (take (Z.to_nat k) content)]> ps) ∧
    tf_offset file ≤ k ≤ blen content.
Proof.
  intros Hd Hres Hh E Ht. unfold receive_file. rewrite (ensure_resumable _ _ content) by done.
  destruct Hd as (Hsize & Hhash & Hoff). set (ps1 := <[_ := _]> ps).
  destruct (receive_loop_cut refuses _ _ _ _ Hh r t (S (length r)) ps1 (partial_of file) buffer)
    as (m & k & Hloop & Hk); [done|done|lia|by apply lookup_insert_eq|lia|].
  rewrite <-Hsize, Hloop. subst ps1. rewrite insert_insert_eq. exists m, k. split; [done|lia].
Qed.

Lemma resumable_take ps file content k :
  tf_offset file ≤ k ≤ blen content →
  resumable (<[partial_of file := PFile (take (Z.to_nat k) content)]> ps) file content.
Proof. intros Hk. right. exists k. by rewrite lookup_insert_eq. Qed.

Lemma split_stream {A} (s stream r t : list A) :
  s ++ stream = r ++ t →
  (∃ l, r = s ++ l ∧ stream = l ++ t) ∨ (∃ l, s = r ++ l ∧ l ≠ []).
Proof.
  intros [(l & -> & ->)|(l & -> & ->)]%app_eq_inv; [|left; by exists l].
  destruct l as [|x l]; [left; exists []; by rewrite !app_nil_r|right; by eexists].
Qed.

Lemma receive_from_cut contents files index stream :
  honest_files contents index files stream →
  ∀ ps buffer r t completed, stream = r ++ t → t ≠ [] → NoDup (map partial_of files) →
  0 ≤ index → index + blen files ≤ u32_max →
  Forall (λ f, describes f (contents f) ∧ resumable ps f (contents f)) files →
  ∃ m ps', receive_from refuses ps index files buffer r completed = (Err m, ps') ∧
    Forall (λ f, resumable ps' f (contents f)) files ∧
    (∀ q, q ∉ map partial_of files → ps' !! q = ps !! q).
Proof.
  induction 1 as [index|index f files s stream Hh Hrest IH];
    intros ps buffer r t completed E Ht Hnd Hi Hu Hall; cbn [receive_from].
  { symmetry in E. by apply app_eq_nil in E as [_ ->]. }
  inversion Hall as [|? ? [Hdesc Hres] Hall']; subst. apply NoDup_cons in Hnd as [Hni Hnd].
  rewrite blen_cons in Hu. pose proof (blen_nonneg files).
  rewrite (proj2 (Z.ltb_ge u32_max index)) by lia.
  assert (Hother : ∀ x, Forall (λ g, describes g (contents g) ∧
    resumable (<[partial_of f := x]> ps) g (contents g)) files).
  { intros x. rewrite List.Forall_forall in *. intros g Hg. destruct (Hall' g Hg) as [? ?].
    split; [done|]. apply resumable_ne; [|done]. intros Eg. apply Hni. rewrite <-Eg.
    by apply list_elem_of_In, in_map. }
  apply split_stream in E as [(l & -> & ->)|(l & -> & Hl)].
  - destruct (receive_file_honest ps index f (contents f) s buffer l) as (b & ->); [done..|].
    destruct (IH (<[partial_of f := PFile (contents f)]> ps) b l t
      (completed ++ [{| cf_file := f; cf_staged_path := partial_of f |}]))
      as (m & ps' & -> & Hdone & Hframe); [done|done|done|lia|lia|apply Hother|].
    exists m, ps'. split_and!; [done| |].
    + constructor; [|done]. right. exists (blen (contents f)). destruct Hdesc as (? & _ & ?).
      split; [|lia]. rewrite Hframe, lookup_insert_eq by done. f_equal. f_equal. symmetry.
      apply take_ge. unfold blen. lia.
    + intros q [Hq1 Hq2]%not_elem_of_cons. rewrite Hframe by done. by rewrite lookup_insert_ne.
  - destruct (receive_file_cut ps index f (contents f) _ r l buffer Hdesc Hres Hh)
      as (m & k & -> & Hk); [done|done|].
    eexists m, _. split_and!; [done| |].
    + constructor; [by apply resumable_take|].
      eapply Forall_impl; [apply Hother|]. by intros g [_ ?].
    + intros q [Hq1 Hq2]%not_elem_of_cons. by rewrite lookup_insert_ne.
Qed.
End transfers.

(** ** Properties *)

(** C8: whatever the peer sends, when the receiver reports a transfer complete it
    reports the announced files in order, and each has at its staged path contents of
    exactly the announced size and hash, if the partial names do not collide; partials of
    other transfers are untouched. *)
Theorem received_files_verified `{HexCodec, Sha256} (refuses : partial_call → bytes → bool)
    (ps ps' : partials) (files : list TransferFile) (recv rest : bytes)
    (completed : list CompletedFile) :
  distinct_hashes files →
  receive_file_chunks refuses ps files recv = (Ok (completed, rest), ps') →
  map cf_file completed = files ∧
  (∀ c, c ∈ completed → ∃ content,
     ps' !! cf_staged_path c = Some (PFile content) ∧
     blen content = tf_size (cf_file c) ∧
     hex_encode (sha256 content) = tf_sha256 (cf_file c)) ∧
  (∀ q, q ∉ map partial_of files → ps' !! q = ps !! q).
Proof.
  intros Hd. unfold receive_file_chunks.
  destruct (validate_transfer_file_shapes files) as [[]|] eqn:Ev; [|done].
  apply validate_shapes_Ok in Ev. intros Hr.
  apply receive_from_complete in Hr as (-> & Hall & Hframe); [|by apply partials_distinct].
  simpl. split_and!; [by rewrite map_map, map_id| |done].
  intros c (f & <- & Hf)%list_elem_of_In%in_map_iff. simpl.
  rewrite List.Forall_forall in Hall. by apply Hall.
Qed.

(** C9: a transfer of files that do not change completes: however the sender's
    reads are cut, and from whatever honest partials the receiver resumes, the sender
    sends all files, and the receiver takes exactly that stream and ends with the
    contents of every file. *)
Theorem transfer_completes `{HexCodec, Sha256} (refuses : partial_call → bytes → bool)
    (t : tree) (e : env) (read_count : Z → Z → Z) (ps : partials) (files : list TransferFile)
    (contents : TransferFile → bytes) (rest : bytes) :
  (∀ call path, refuses call path = false) → directory_root t = Ok tt → shapes_ok files → distinct_hashes files →
  Forall (λ f, served t e f (contents f) ∧ describes f (contents f) ∧
               resumable ps f (contents f)) files →
  ∃ stream ps', send_file_chunks_from_root (λ _ _, t) read_count e files [] = Ok stream ∧
    receive_file_chunks refuses ps files (stream ++ rest) =
      (Ok (map (λ f, {| cf_file := f; cf_staged_path := partial_of f |}) files, rest), ps') ∧
    Forall (λ f, ps' !! partial_of f = Some (PFile (contents f))) files.
Proof.
  intros Hno Hroot Hshape Hd Hall.
  assert (Hlen : 0 + blen files ≤ u32_max).
  { destruct Hshape as (Hl & _). unfold MAX_TRANSFER_FILES in Hl. u_unfold. lia. }
  destruct (send_from_honest t e read_count contents files 0 0 []) as (stream & Hsend & Hh);
    [lia|done|unfold MAX_CHUNK_BYTES; lia| |].
  { eapply Forall_impl; [exact Hall|]. by intros f (? & ? & ?). }
  destruct (receive_from_honest refuses Hno contents files 0 stream Hh ps [] rest [])
    as (ps' & Hrecv & Hdone & _); [by apply partials_distinct|lia|done| |].
  { eapply Forall_impl; [exact Hall|]. by intros f (? & ? & ?). }
  exists stream, ps'. split_and!; [|  |done].
  { unfold send_file_chunks_from_root. by rewrite Hroot. }
  unfold receive_file_chunks. by rewrite (proj2 (validate_shapes_Ok files) Hshape).
Qed.


(** ** Witnesses *)

Import Ref.

Definition no_refusal : partial_call → bytes → bool := λ _ _, false.
Definition ex_content : bytes := bs "hello".
Definition ex_source : tree :=
  <[[name_d; name_f] := new_node (KFile ex_content) 420 0]> ex_tree.
Definition ex_transfer (offset : Z) : TransferFile := {|
  tf_path := path_df; tf_sha256 := hex_encode (sha256 ex_content);
  tf_size := 5; tf_offset := offset |}.
(** Two bytes of the file are there already. *)
Definition ex_partials : partials :=
  {[partial_of (ex_transfer 2) := PFile (bs "he")]}.

Lemma ex_shapes : shapes_ok [ex_transfer 2].
Proof. apply validate_shapes_Ok. vm_compute. reflexivity. Qed.

Lemma ex_distinct : distinct_hashes [ex_transfer 2].
Proof. intros f g ->%list_elem_of_singleton ->%list_elem_of_singleton. done. Qed.

Lemma ex_ready :
  Forall (λ f, served ex_source ex_local_env f ex_content ∧ describes f ex_content ∧
               resumable ex_partials f ex_content) [ex_transfer 2].
Proof.
  constructor; [|constructor]. split_and!.
  - exists [name_d; name_f], (new_node (KFile ex_content) 420 0).
    split_and!; vm_compute; reflexivity.
  - split_and!; vm_compute; congruence.
  - right. exists 2. split; [vm_compute; reflexivity|vm_compute; split; congruence].
Qed.

(** The rest of the file in chunks of two bytes and one. *)
Definition ex_stream : bytes :=
  chunk_header 0 2 2 ++ bs "ll" ++ chunk_header 0 4 1 ++ bs "o".

Definition ex_done : CompletedFile :=
  {| cf_file := ex_transfer 2; cf_staged_path := partial_of (ex_transfer 2) |}.
Definition ex_received : result (list CompletedFile * bytes) * partials :=
  receive_file_chunks no_refusal ex_partials [ex_transfer 2] (ex_stream ++ bs "x").

Lemma received_files_verified_witness :
  ex_received.1 = Ok ([ex_done], bs "x") ∧
  ∃ content, ex_received.2 !! cf_staged_path ex_done = Some (PFile content) ∧
    blen content = tf_size (cf_file ex_done) ∧
    hex_encode (sha256 content) = tf_sha256 (cf_file ex_done).
Proof.
  assert (Hr : ex_received.1 = Ok ([ex_done], bs "x")) by (vm_compute; reflexivity).
  split; [exact Hr|].
  assert (Hout : receive_file_chunks no_refusal ex_partials [ex_transfer 2] (ex_stream ++ bs "x") =
    (Ok ([ex_done], bs "x"), ex_received.2))
    by (fold ex_received; rewrite <-Hr; apply surjective_pairing).
  exact (proj1 (proj2 (received_files_verified no_refusal ex_partials ex_received.2 [ex_transfer 2]
    (ex_stream ++ bs "x") (bs "x") [ex_done] ex_distinct Hout)) ex_done (list_elem_of_here _ _)).
Defined.

Lemma transfer_completes_witness :
  ∃ stream ps', send_file_chunks_from_root (λ _ _, ex_source) (λ _ _, 2) ex_local_env
      [ex_transfer 2] [] = Ok stream ∧
    receive_file_chunks no_refusal ex_partials [ex_transfer 2] (stream ++ bs "x") =
      (Ok ([{| cf_file := ex_transfer 2; cf_staged_path := partial_of (ex_transfer 2) |}], bs "x"),
       ps') ∧
    Forall (λ f, ps' !! partial_of f = Some (PFile ex_content)) [ex_transfer 2].
Proof.
  apply (transfer_completes no_refusal ex_source ex_local_env (λ _ _, 2) ex_partials
    [ex_transfer 2] (λ _, ex_content) (bs "x") (λ _ _, eq_refl) eq_refl ex_shapes ex_distinct ex_ready).
Defined.

