(* ===== verification/Planning.v ===== *)
(** * Planning a transfer (src/network/transfer.rs)

    Which files a peer asks for, which it offers, and from which offsets each file
    is resumed.  What one side plans, the other side accepts. *)

From S2P Require Import Prelude Collections Bytes External Reference Framing Clock Types ManifestPath Manifest Merge Wire LocalFs Partial.

Definition MIN_BINARY_SEARCH_RESUMES : Z := 64.

(** The record is a file with this size and hash. *)
Definition same_content (r : option ManifestRecord) (entry : ManifestEntry) : bool :=
  match r with
  | Some (RFile e) =>
      (me_size e =? me_size entry) && bool_decide (me_sha256 e = me_sha256 entry)
  | _ => false
  end.

(** The remote file is the selected one, by version and kind of record. *)
Definition remote_selected (local : option ManifestRecord) (remote : ManifestRecord) : bool :=
  match select_record local (Some remote) with
  | Some selected =>
      bool_decide (rec_version selected = rec_version remote)
      && Bool.eqb (is_tombstone selected) (is_tombstone remote)
  | None => false
  end.

(** The local file is the selected one. *)
Definition local_selected (local : ManifestRecord) (remote : option ManifestRecord) : bool :=
  match select_record (Some local) remote with
  | Some winner =>
      bool_decide (rec_version winner = rec_version local) && negb (is_tombstone winner)
  | None => false
  end.

Definition wants_download (local : Manifest) (path : bytes) (entry : ManifestEntry) : bool :=
  remote_selected (record local path) (RFile entry)
  && negb (same_content (record local path) entry).
Definition wants_upload (remote : Manifest) (path : bytes) (entry : ManifestEntry) : bool :=
  local_selected (RFile entry) (record remote path)
  && negb (same_content (record remote path) entry).

Definition file_of (path : bytes) (entry : ManifestEntry) (offset : Z) : TransferFile := {|
  tf_path := path; tf_sha256 := me_sha256 entry; tf_size := me_size entry;
  tf_offset := offset |}.

Section plan.
Context `{HexCodec, Sha256} (refuses : partial_call → bytes → bool).

(** The loop over the remote files, which stops at 256 downloads. *)
Fixpoint plan_downloads (ps : partials) (local : Manifest) (entries : list (bytes * ManifestEntry))
    (download_paths : list bytes) (download_resumes : list TransferFile)
    : result (list bytes * list TransferFile) * partials :=
  match entries with
  | [] => (Ok (download_paths, download_resumes), ps)
  | (path, entry) :: entries =>
      if wants_download local path entry then
        let download_paths := download_paths ++ [path] in
        match partial_size refuses ps path (me_sha256 entry) (me_size entry) with
        | (Err m, ps) => (Err m, ps)
        | (Ok offset, ps) =>
            let download_resumes := download_resumes ++ [file_of path entry offset] in
            if blen download_paths =? MAX_TRANSFER_FILES
            then (Ok (download_paths, download_resumes), ps)
            else plan_downloads ps local entries download_paths download_resumes
        end
      else plan_downloads ps local entries download_paths download_resumes
  end.

(** The loop over the local files: the uploads, and how many there would be. *)
Definition plan_upload (remote : Manifest) (state : list TransferFile * Z)
    (item : bytes * ManifestEntry) : list TransferFile * Z :=
  let '(uploads, requested) := state in
  let '(path, entry) := item in
  if wants_upload remote path entry
  then (if blen uploads <? MAX_TRANSFER_FILES then uploads ++ [file_of path entry 0] else uploads,
        requested + 1)
  else state.

Definition make_transfer_request (ps : partials) (share_id : bytes) (local remote : Manifest)
    : result (TransferRequest * Z) * partials :=
  match plan_downloads ps local (bt_iter (mf_entries remote)) [] [] with
  | (Err m, ps) => (Err m, ps)
  | (Ok (download_paths, download_resumes), ps) =>
      let '(uploads, requested) := foldl (plan_upload remote) ([], 0) (bt_iter (mf_entries local)) in
      let pending_updates := Z.max 0 (requested - blen uploads) in
      (Ok ({| tr_protocol_version := PROTOCOL_VERSION; tr_share_id := share_id;
              tr_download_paths := download_paths; tr_download_resumes := download_resumes;
              tr_uploads := uploads |}, pending_updates), ps)
  end.

(** [iter().map(...).collect::<Result<Vec<_>>>()] of [make_transfer_ready]. *)
Fixpoint ready_uploads (ps : partials) (files : list TransferFile)
    : result (list TransferFile) * partials :=
  match files with
  | [] => (Ok [], ps)
  | file :: files =>
      match partial_size refuses ps (tf_path file) (tf_sha256 file) (tf_size file) with
      | (Err m, ps) => (Err m, ps)
      | (Ok offset, ps) =>
          match ready_uploads ps files with
          | (Err m, ps) => (Err m, ps)
          | (Ok uploads, ps) =>
              (Ok ({| tf_path := tf_path file; tf_sha256 := tf_sha256 file;
                      tf_size := tf_size file; tf_offset := offset |} :: uploads), ps)
          end
      end
  end.

Definition make_transfer_ready (ps : partials) (request : TransferRequest) (m : Manifest)
    : result TransferReady * partials :=
  match validate_transfer_files (tr_uploads request) m with
  | Err e => (Err e, ps)
  | Ok _ =>
      match ready_uploads ps (tr_uploads request) with
      | (Err e, ps) => (Err e, ps)
      | (Ok uploads, ps) =>
          (Ok {| ty_protocol_version := PROTOCOL_VERSION;
                 ty_share_id := tr_share_id request; ty_uploads := uploads |}, ps)
      end
  end.
End plan.

(** ** The files of a response *)

Definition find_resume (use_binary_search : bool) (resumes : list TransferFile) (path : bytes)
    : option TransferFile :=
  if use_binary_search
  then match binary_search_by (λ r, cmp (tf_path r) path) resumes with
       | Some index => resumes !! index
       | None => None
       end
  else List.find (λ r, bool_decide (tf_path r = path)) resumes.

(** The offset a resume gives for an entry. *)
Definition resume_offset (resume : option TransferFile) (entry : ManifestEntry) : Z :=
  match resume with
  | Some r =>
      if bool_decide (tf_sha256 r = me_sha256 entry) && (tf_size r =? me_size entry)
      then Z.min (tf_offset r) (me_size entry) else 0
  | None => 0
  end.

Definition transfer_files_loop (use_binary_search : bool) (m : Manifest)
    (resumes : list TransferFile) (paths : list bytes) : list TransferFile :=
  foldl (λ files path,
    match mf_entries m !! path with
    | None => files
    | Some entry =>
        files ++ [file_of path entry
          (resume_offset (find_resume use_binary_search resumes path) entry)]
    end) [] paths.

(** [dedup_by(|left, right| left.path == right.path)]. *)
Fixpoint dedup_paths (l : list TransferFile) : list TransferFile :=
  match l with
  | x :: l' =>
      match dedup_paths l' with
      | y :: k => if bool_decide (tf_path x = tf_path y) then x :: k else x :: y :: k
      | [] => [x]
      end
  | [] => []
  end.

Definition build_transfer_files (m : Manifest) (paths : list bytes) (resumes : list TransferFile)
    : result (list TransferFile) :=
  validate_path_list paths;;
  validate_transfer_file_shapes resumes;;
  let use_binary_search :=
    (MIN_BINARY_SEARCH_RESUMES <=? blen paths) && (MIN_BINARY_SEARCH_RESUMES <=? blen resumes)
    && is_sorted_by (λ l r, leb (tf_path l) (tf_path r)) resumes in
  Ok (dedup_paths (sort_by tf_path (transfer_files_loop use_binary_search m resumes paths))).

(** [build_file_payloads]: whole files in one message. *)
Section payloads.
Context `{HexCodec, Sha256, Base64Codec}.

Fixpoint file_payloads (t : tree) (e : env) (m : Manifest) (paths : list bytes)
    : result (list FilePayload) :=
  match paths with
  | [] => Ok []
  | path :: paths =>
      match mf_entries m !! path with
      | None => file_payloads t e m paths
      | Some entry =>
          target ← (safe_local_path t e path false).1;
          match lstat t target with
          | Done n =>
              if is_file n && (blen (file_content n) =? me_size entry) then
                match open_file t target with
                | Fails _ => Err "unable to read shared file"
                | Done f =>
                    let data := file_content f in
                    if (blen data =? me_size entry)
                       && bool_decide (hex_encode (sha256 data) = me_sha256 entry)
                    then files ← file_payloads t e m paths;
                         Ok ({| fp_path := path; fp_sha256 := me_sha256 entry;
                                fp_content := b64_encode data |} :: files)
                    else file_payloads t e m paths
                end
              else file_payloads t e m paths
          | Fails _ => file_payloads t e m paths
          end
      end
  end.

Definition build_file_payloads (t : tree) (e : env) (m : Manifest) (paths : list bytes)
    : result (list FilePayload) :=
  validate_path_list paths;; directory_root t;; file_payloads t e m paths.
End payloads.

(** ** What is planned *)

(** The files of the remote manifest that are wanted, and those of the local one
    that are offered, in path order. *)
Definition wanted_downloads (local remote : Manifest) : list (bytes * ManifestEntry) :=
  List.filter (λ '(path, entry), wants_download local path entry) (bt_iter (mf_entries remote)).
Definition wanted_uploads (local remote : Manifest) : list (bytes * ManifestEntry) :=
  List.filter (λ '(path, entry), wants_upload remote path entry) (bt_iter (mf_entries local)).

(** How many fit in one request. *)
Definition per_request : nat := Z.to_nat MAX_TRANSFER_FILES.

Section planned.
Context `{HexCodec, Sha256} (refuses : partial_call → bytes → bool).

(** A file with the offset of its partial. *)
Definition planned (item : bytes * ManifestEntry) (file : TransferFile) : Prop :=
  ∃ offset, file = file_of item.1 item.2 offset ∧ (0 ≤ me_size item.2 → 0 ≤ offset ≤ me_size item.2).

Lemma partial_size_planned ps path entry offset ps' :
  partial_size refuses ps path (me_sha256 entry) (me_size entry) = (Ok offset, ps') →
  planned (path, entry) (file_of path entry offset).
Proof.
  intros Hp. exists offset. split; [done|]. intros Hs.
  by apply partial_size_Ok in Hp as [? _].
Qed.

Lemma plan_downloads_spec local entries ps paths resumes P R ps' :
  (length paths < per_request)%nat →
  plan_downloads refuses ps local entries paths resumes = (Ok (P, R), ps') →
  ∃ more, P = paths ++ map fst (take (per_request - length paths)
      (List.filter (λ '(path, entry), wants_download local path entry) entries)) ∧
    R = resumes ++ more ∧
    Forall2 planned (take (per_request - length paths)
      (List.filter (λ '(path, entry), wants_download local path entry) entries)) more.
Proof.
  revert ps paths resumes. induction entries as [|[path entry] entries IH];
    intros ps paths resumes Hlt; cbn [plan_downloads].
  - intros [= <- <- _]. exists []. simpl. rewrite take_nil, !app_nil_r. by split_and!.
  - cbn [List.filter]. destruct (wants_download local path entry); [|by apply IH].
    destruct (partial_size _ _ _ _ _) as [[offset|m] ps1] eqn:Ep; [|done].
    apply partial_size_planned in Ep.
    replace (per_request - length paths)%nat with (S (per_request - S (length paths))) by lia.
    cbn [take firstn]. destruct (Z.eqb_spec (blen (paths ++ [path])) MAX_TRANSFER_FILES) as [E|E].
    + intros [= <- <- _]. rewrite blen_app in E. unfold blen, per_request in *. simpl in E.
      replace (Z.to_nat MAX_TRANSFER_FILES - S (length paths))%nat with 0%nat by lia.
      eexists. split_and!; [done|done|]. by repeat constructor.
    + rewrite blen_app in E. intros Hr. apply IH in Hr as (more & -> & -> & Hm).
      * rewrite length_app in *. simpl length in *. rewrite Nat.add_1_r in *.
        eexists. rewrite <-!app_assoc. split_and!; [done|done|]. by constructor.
      * rewrite length_app. unfold blen, per_request in *. simpl in *. lia.
Qed.

Lemma plan_upload_spec remote entries uploads requested :
  (length uploads ≤ per_request)%nat →
  let W := List.filter (λ '(path, entry), wants_upload remote path entry) entries in
  foldl (plan_upload remote) (uploads, requested) entries =
    (uploads ++ map (λ '(path, entry), file_of path entry 0)
       (take (per_request - length uploads) W), requested + blen W).
Proof.
  revert uploads requested. induction entries as [|[path entry] entries IH];
    intros uploads requested Hle W; subst W; cbn [foldl List.filter].
  - rewrite take_nil. simpl. rewrite app_nil_r. f_equal. unfold blen; simpl; lia.
  - unfold plan_upload at 2. destruct (wants_upload remote path entry); [|by apply IH].
    rewrite blen_cons. destruct (Z.ltb_spec (blen uploads) MAX_TRANSFER_FILES) as [Hlt|Hge].
    + rewrite IH by (rewrite length_app; unfold blen, per_request in *; simpl; lia).
      rewrite length_app, <-app_assoc. simpl length.
      replace (per_request - length uploads)%nat with (S (per_request - (length uploads + 1)))
        by (unfold blen, per_request in *; lia).
      cbn [take firstn map]. f_equal. lia.
    + rewrite IH by done.
      replace (per_request - length uploads)%nat with 0%nat by (unfold blen, per_request in *; lia).
      simpl. f_equal. lia.
Qed.

Lemma make_transfer_request_Ok ps share_id local remote request pending ps' :
  make_transfer_request refuses ps share_id local remote = (Ok (request, pending), ps') →
  tr_protocol_version request = PROTOCOL_VERSION ∧ tr_share_id request = share_id ∧
  tr_download_paths request = map fst (take per_request (wanted_downloads local remote)) ∧
  Forall2 planned (take per_request (wanted_downloads local remote)) (tr_download_resumes request) ∧
  tr_uploads request =
    map (λ '(path, entry), file_of path entry 0) (take per_request (wanted_uploads local remote)) ∧
  pending = Z.max 0 (blen (wanted_uploads local remote) - MAX_TRANSFER_FILES).
Proof.
  unfold make_transfer_request.
  destruct (plan_downloads _ _ _ _ _ _) as [[[P R]|m] ps1] eqn:Ed; [|done].
  apply plan_downloads_spec in Ed as (more & -> & -> & Hm); [|unfold per_request, MAX_TRANSFER_FILES; simpl; lia].
  rewrite plan_upload_spec by (simpl; lia). intros [= <- <- _].
  cbn [tr_protocol_version tr_share_id tr_download_paths tr_download_resumes tr_uploads].
  change (length (@nil bytes)) with 0%nat in *. change (length (@nil TransferFile)) with 0%nat.
  rewrite Nat.sub_0_r in *. split_and!; [done..|]. cbn [app].
  change (List.filter (λ '(path, entry), wants_upload remote path entry) (bt_iter (mf_entries local)))
    with (wanted_uploads local remote).
  unfold blen. rewrite length_map, length_take. unfold per_request. unfold MAX_TRANSFER_FILES. lia.
Qed.
End planned.

(** ** The other side accepts *)

Lemma filter_fst_nodup {A B} (f : A * B → bool) l :
  NoDup (map fst l) → NoDup (map fst (List.filter f l)).
Proof.
  induction l as [|x l IH]; simpl; [done|]. intros [Hni Hnd]%NoDup_cons.
  destruct (f x); simpl; [|by apply IH]. constructor; [|by apply IH].
  intros Hin. apply Hni. revert Hin. rewrite !list_elem_of_In, !in_map_iff.
  intros (y & Ey & Hy%filter_In). exists y. naive_solver.
Qed.

Lemma take_nodup {A} n (l : list A) : NoDup l → NoDup (take n l).
Proof. intros Hnd. rewrite <-(take_drop n l) in Hnd. by apply NoDup_app in Hnd as [? _]. Qed.

(** Sizes are u64. *)
Definition sizes_ok (m : Manifest) : Prop :=
  ∀ p e, mf_entries m !! p = Some e → 0 ≤ me_size e.

Section accepted.
Context `{Iroh}.
Implicit Types m : Manifest.

(** A selection of the files of a valid manifest. *)
Definition picks (m : Manifest) (l : list (bytes * ManifestEntry)) : Prop :=
  NoDup (map fst l) ∧ (length l ≤ per_request)%nat ∧
  ∀ p e, (p, e) ∈ l → mf_entries m !! p = Some e.

Lemma picks_take m f :
  picks m (take per_request (List.filter f (bt_iter (mf_entries m)))).
Proof.
  split_and!.
  - rewrite <-firstn_map. apply take_nodup, filter_fst_nodup, bt_iter_nodup.
  - rewrite length_take. lia.
  - intros p e Hin%elem_of_take. destruct Hin as (i & Hi & _).
    apply elem_of_bt_iter. apply list_elem_of_lookup_2, list_elem_of_In, filter_In in Hi as [Hi _].
    by apply list_elem_of_In.
Qed.

Lemma picks_entry m s l p e :
  manifest_valid m s → picks m l → (p, e) ∈ l →
  validate_manifest_path p = Ok tt ∧ is_sha256_text (me_sha256 e) = true.
Proof.
  intros Hm (_ & _ & Hin) Hp. destruct (mv_entries _ _ Hm p e) as (? & (? & _) & _); [by apply Hin|].
  done.
Qed.

(** Files built on such a selection are well shaped. *)
Lemma picks_shapes m s l files :
  manifest_valid m s → sizes_ok m → picks m l →
  Forall2 planned l files → shapes_ok files ∧ Forall (in_manifest m) files ∧
  map tf_path files = map fst l.
Proof.
  intros Hm Hsz Hp HF.
  assert (Hmap : map tf_path files = map fst l).
  { clear Hp. induction HF as [|[p e] f l files (o & -> & _) HF IH]; simpl; [done|]. by rewrite IH. }
  assert (Hlen : length files = length l) by (symmetry; by eapply Forall2_length).
  assert (Hin : ∀ f, f ∈ files → ∃ p e, (p, e) ∈ l ∧ planned (p, e) f).
  { intros f (i & Hi)%list_elem_of_lookup.
    destruct (Forall2_lookup_r _ _ _ _ _ HF Hi) as ([p e] & Hl & Hpl).
    exists p, e. split; [by eapply list_elem_of_lookup_2|done]. }
  split_and!; [|..|done].
  - split_and!.
    + destruct Hp as (_ & Hl & _). unfold blen, per_request, MAX_TRANSFER_FILES in *. lia.
    + apply List.Forall_forall. intros f Hf%list_elem_of_In.
      destruct (Hin f Hf) as (p & e & Hpe & (o & -> & Ho)).
      destruct (picks_entry m s l p e) as [? ?]; [done..|]. split_and!; [done|done|].
      simpl in *. destruct Hp as (_ & _ & He). pose proof (Hsz p e (He p e Hpe)). lia.
    + rewrite Hmap. by destruct Hp as (? & _).
  - apply List.Forall_forall. intros f Hf%list_elem_of_In.
    destruct (Hin f Hf) as (p & e & Hpe & (o & -> & _)). exists e. destruct Hp as (_ & _ & He).
    split_and!; [by apply He|done|done].
Qed.
End accepted.

Lemma planned_zero l :
  Forall (λ '(_, e), 0 ≤ me_size e) l →
  Forall2 planned l (map (λ '(path, entry), file_of path entry 0) l).
Proof.
  induction 1 as [|[p e] l He HF IH]; simpl; constructor; [|done].
  exists 0. split; [done|]. simpl in *. lia.
Qed.

Lemma ready_uploads_Ok `{HexCodec, Sha256} refuses ps files uploads ps' :
  Forall (λ f, 0 ≤ tf_size f) files →
  ready_uploads refuses ps files = (Ok uploads, ps') →
  Forall2 (λ f u, same_file u f = true ∧ 0 ≤ tf_offset u ≤ tf_size u) files uploads.
Proof.
  intros Hs. revert ps uploads ps'. induction Hs as [|f files Hf Hs IH]; intros ps uploads ps'; simpl.
  - intros [= <- _]. constructor.
  - destruct (partial_size _ _ _ _ _) as [[offset|m] ps1] eqn:Ep; [|done].
    destruct (ready_uploads _ _ _) as [[us|m] ps2] eqn:Er; [|done]. intros [= <- _].
    apply partial_size_Ok in Ep as [? _]; [|done]. constructor; [|by eapply IH].
    split; [|done]. unfold same_file; simpl. rewrite !bool_decide_true, Z.eqb_refl by done. done.
Qed.

Lemma same_file_shape f u :
  file_shape_ok f → same_file u f = true → tf_offset u ≤ tf_size u → file_shape_ok u.
Proof.
  intros (Hp & Hh & _) Hsame Ho. unfold same_file in Hsame.
  apply andb_prop in Hsame as [Hsame _]. apply andb_prop in Hsame as [E1 E2].
  apply bool_decide_eq_true in E1, E2. unfold file_shape_ok. by rewrite E1, E2.
Qed.

(** The list is a copy of the requested one with offsets of its own. *)
Lemma ready_shapes files uploads :
  shapes_ok files →
  Forall2 (λ f u, same_file u f = true ∧ 0 ≤ tf_offset u ≤ tf_size u) files uploads →
  shapes_ok uploads ∧ blen uploads = blen files ∧
  Forall (λ '(u, f), same_file u f = true) (zip uploads files).
Proof.
  intros (Hl & Hs & Hnd) HF.
  assert (Hlen : length files = length uploads) by by eapply Forall2_length.
  assert (Hpaths : map tf_path uploads = map tf_path files).
  { clear Hl Hs Hnd Hlen. induction HF as [|f u files uploads [Hsame _] HF IH]; simpl; [done|].
    rewrite IH. unfold same_file in Hsame. bool_inv. by f_equal. }
  split_and!.
  - split_and!; [unfold blen in *; lia| |by rewrite Hpaths].
    clear Hl Hnd Hlen Hpaths. induction HF as [|f u files uploads [Hsame Ho] HF IH]; [constructor|].
    inversion Hs; subst. constructor; [|by apply IH]. eapply same_file_shape; [done|done|lia].
  - unfold blen. lia.
  - clear -HF. induction HF as [|f u files uploads [Hsame _] HF IH]; simpl; constructor; done.
Qed.

(** ** Resumes *)

Lemma find_binary_linear resumes path :
  shapes_ok resumes →
  is_sorted_by (λ l r, leb (tf_path l) (tf_path r)) resumes = true →
  find_resume true resumes path = find_resume false resumes path.
Proof.
  intros (_ & _ & Hnd) Hs. unfold find_resume.
  assert (Hsorted : StronglySorted (key_lt tf_path) resumes).
  { apply sorted_le_lt; [|done]. apply is_sorted_by_strong; [|done].
    intros x y z. apply leb_trans. }
  rewrite binary_search_position by done. clear.
  induction resumes as [|r resumes IH]; simpl; [done|].
  destruct (eqb (tf_path r) path) eqn:E.
  - apply eqb_true in E. by rewrite bool_decide_true.
  - apply eqb_false in E. rewrite bool_decide_false by done. rewrite <-IH.
    by destruct (position_of tf_path path resumes).
Qed.

(** The files of the requested paths that the manifest has, in request order. *)
Definition present (m : Manifest) (paths : list bytes) : list (bytes * ManifestEntry) :=
  omap (λ p, (λ e, (p, e)) <$> mf_entries m !! p) paths.

Lemma transfer_files_loop_map b m resumes paths :
  transfer_files_loop b m resumes paths =
  map (λ '(p, e), file_of p e (resume_offset (find_resume b resumes p) e)) (present m paths).
Proof.
  unfold transfer_files_loop.
  assert (Hgen : ∀ acc, foldl (λ files path, match mf_entries m !! path with
      | None => files
      | Some entry => files ++ [file_of path entry
          (resume_offset (find_resume b resumes path) entry)] end) acc paths =
    acc ++ map (λ '(p, e), file_of p e (resume_offset (find_resume b resumes p) e))
      (present m paths)); [|apply (Hgen [])].
  induction paths as [|p paths IH]; intros acc; simpl; [by rewrite app_nil_r|].
  rewrite IH. destruct (mf_entries m !! p); simpl; [by rewrite <-app_assoc|done].
Qed.

Lemma elem_of_present m paths p e :
  (p, e) ∈ present m paths ↔ p ∈ paths ∧ mf_entries m !! p = Some e.
Proof.
  unfold present. rewrite list_elem_of_omap. split.
  - intros (q & Hq & E). destruct (mf_entries m !! q) eqn:El; simplify_eq/=. done.
  - intros [Hp He]. exists p. by rewrite He.
Qed.

Lemma present_nodup m paths : NoDup paths → NoDup (map fst (present m paths)).
Proof.
  unfold present. induction 1 as [|p paths Hni Hnd IH]; simpl; [constructor|].
  destruct (mf_entries m !! p) as [e|]; simpl; [|done]. constructor; [|done].
  rewrite list_elem_of_In, in_map_iff. intros ([q e'] & <- & Hin%list_elem_of_In).
  by apply elem_of_present in Hin as [? _].
Qed.

Lemma length_present m paths : (length (present m paths) ≤ length paths)%nat.
Proof.
  induction paths as [|p paths IH]; [done|].
  assert (Hc : present m (p :: paths) = match mf_entries m !! p with
    | Some e => (p, e) :: present m paths | None => present m paths end)
    by (unfold present; simpl; by destruct (mf_entries m !! p)).
  rewrite Hc. destruct (mf_entries m !! p); simpl; lia.
Qed.

Lemma dedup_paths_id l : NoDup (map tf_path l) → dedup_paths l = l.
Proof.
  induction l as [|x l IH]; simpl; [done|]. intros [Hni Hnd]%NoDup_cons.
  rewrite IH by done. destruct l as [|y l]; [done|].
  rewrite bool_decide_false; [done|]. intros E. apply Hni. rewrite E. by left.
Qed.

Lemma resume_offset_range resumes b p e :
  Forall (λ r, 0 ≤ tf_offset r) resumes → 0 ≤ me_size e →
  0 ≤ resume_offset (find_resume b resumes p) e ≤ me_size e.
Proof.
  intros Hr He. unfold resume_offset. destruct (find_resume b resumes p) as [r|] eqn:E; [|lia].
  destruct (_ && _); [|lia]. rewrite List.Forall_forall in Hr.
  assert (List.In r resumes) as Hin.
  { unfold find_resume in E. destruct b.
    - destruct (binary_search_by _ _); [|done]. apply list_elem_of_In. by eapply list_elem_of_lookup_2.
    - by apply find_some in E as [? _]. }
  specialize (Hr r Hin). lia.
Qed.

(** ** Properties *)

(** A planned request asks for the first 256 files, in path order, that the
    remote manifest wins with other contents, offers the first 256 that the local one
    wins, counts the offers left out, gives for every download an offset within the
    file, and is accepted by the peer's validation against the manifest it was sent. *)
Lemma planned_request_accepted `{HexCodec, Sha256, Iroh}
    (refuses : partial_call → bytes → bool) (ps ps' : partials) (share_id : bytes)
    (local remote : Manifest) (request : TransferRequest) (pending : Z) :
  manifest_valid local share_id → manifest_valid remote share_id →
  sizes_ok local → sizes_ok remote →
  make_transfer_request refuses ps share_id local remote = (Ok (request, pending), ps') →
  validate_transfer_request request share_id local = Ok tt ∧
  tr_download_paths request = map fst (take per_request (wanted_downloads local remote)) ∧
  map tf_path (tr_download_resumes request) = tr_download_paths request ∧
  tr_uploads request =
    map (λ '(path, entry), file_of path entry 0) (take per_request (wanted_uploads local remote)) ∧
  pending = Z.max 0 (blen (wanted_uploads local remote) - MAX_TRANSFER_FILES).
Proof.
  intros Hl Hr Sl Sr Hreq.
  apply make_transfer_request_Ok in Hreq as (Hv & Hs & Hd & Hres & Hu & Hp).
  pose proof (picks_take remote (λ '(path, entry), wants_download local path entry)) as Pd.
  pose proof (picks_take local (λ '(path, entry), wants_upload remote path entry)) as Pu.
  destruct (picks_shapes remote share_id _ _ Hr Sr Pd Hres) as (Rs & _ & Rp).
  destruct (picks_shapes local share_id _ (tr_uploads request) Hl Sl Pu) as (Us & Ui & _).
  { rewrite Hu. apply planned_zero, List.Forall_forall. intros [p e] Hin%list_elem_of_In.
    apply (Sl p). by apply Pu. }
  assert (Rd : map tf_path (tr_download_resumes request) = tr_download_paths request)
    by by rewrite Rp, Hd.
  split_and!; [|done|done|done|done]. apply transfer_request_accepted.
  split_and!; try done.
  - rewrite Hd. destruct Pd as (_ & Hlen & _). unfold blen. rewrite length_map.
    unfold wanted_downloads, per_request, MAX_TRANSFER_FILES in *. lia.
  - rewrite Hd. by destruct Pd as (? & _).
  - rewrite Hd. apply List.Forall_forall. intros p ([q e] & <- & Hin)%in_map_iff.
    apply list_elem_of_In in Hin. by apply (picks_entry remote share_id _ q e Hr Pd).
  - intros f Hf. rewrite <-Rd. apply list_elem_of_In, in_map. by apply list_elem_of_In.
Qed.

(** The answer to an upload offer repeats the offered files in order with the
    offsets to resume from, each within its file, and passes the check the offering
    side makes against its own request. *)
Lemma transfer_ready_accepted `{HexCodec, Sha256} (refuses : partial_call → bytes → bool)
    (ps ps' : partials) (request : TransferRequest) (m : Manifest) (ready : TransferReady) :
  sizes_ok m → make_transfer_ready refuses ps request m = (Ok ready, ps') →
  validate_transfer_ready ready (tr_share_id request) (tr_uploads request) = Ok tt ∧
  Forall (λ f, 0 ≤ tf_offset f ≤ tf_size f) (ty_uploads ready).
Proof.
  intros Hsz. unfold make_transfer_ready.
  destruct (validate_transfer_files (tr_uploads request) m) as [[]|] eqn:Ev; [|done].
  apply validate_transfer_files_Ok in Ev as [Hshape Hin].
  destruct (ready_uploads _ _ _) as [[uploads|] ps1] eqn:Er; [|done]. intros [= <- _].
  apply ready_uploads_Ok in Er.
  2: { eapply Forall_impl; [exact Hin|]. intros f (e & He & _ & <-). by eapply Hsz. }
  destruct (ready_shapes _ _ Hshape Er) as (Hu & Hlen & Hzip). split.
  - unfold validate_transfer_ready, incompatible. simpl.
    rewrite bool_decide_true by done. simpl.
    rewrite (proj2 (validate_shapes_Ok uploads) Hu), Hlen, Z.eqb_refl. simpl.
    apply try_for_Ok. eapply Forall_impl; [exact Hzip|]. intros [u f] Hsame. by rewrite Hsame.
  - simpl. clear -Er. induction Er as [|? ? ? ? [_ ?]]; by constructor.
Qed.

(** The files a response announces are exactly the requested ones that the
    manifest has, in strictly increasing path order, with hash and size from the
    manifest and the offset of the matching resume, found by binary search on long
    sorted lists as by a linear scan; and they pass the requester's validation. *)
Lemma build_transfer_files_spec `{Iroh} (m : Manifest) (share_id : bytes)
    (paths : list bytes) (resumes files : list TransferFile) :
  manifest_valid m share_id → sizes_ok m → Forall (λ r, 0 ≤ tf_offset r) resumes →
  build_transfer_files m paths resumes = Ok files →
  files = sort_by tf_path (map (λ '(path, entry), file_of path entry
    (resume_offset (List.find (λ r, bool_decide (tf_path r = path)) resumes) entry))
    (present m paths)) ∧
  StronglySorted (key_lt tf_path) files ∧ validate_transfer_files files m = Ok tt.
Proof.
  intros Hm Hsz Hoff. unfold build_transfer_files, validate_path_list.
  destruct (validate_path_list_unique paths) as [s|] eqn:Ep; [|done].
  apply validate_path_list_Ok in Ep as (Hlen & Hpaths & Hnd & _). cbn [mbind result_bind].
  destruct (validate_transfer_file_shapes resumes) as [[]|] eqn:Es; [|done].
  apply validate_shapes_Ok in Es. cbn [mbind result_bind]. set (b := _ && _). intros [= <-].
  assert (Hlin : ∀ p, find_resume b resumes p = find_resume false resumes p).
  { intros p. destruct b eqn:Eb; [|done]. subst b. apply andb_prop in Eb as [_ Eb].
    by apply find_binary_linear. }
  rewrite transfer_files_loop_map.
  set (l := map _ (present m paths)).
  assert (El : l = map (λ '(p, e), file_of p e (resume_offset (find_resume false resumes p) e))
    (present m paths)).
  { apply map_ext. intros [p e]. by rewrite Hlin. }
  clearbody l. subst l. set (l := map _ (present m paths)).
  assert (Hl : map tf_path l = map fst (present m paths)).
  { subst l. rewrite map_map. apply map_ext. by intros [p e]. }
  assert (Hsn : NoDup (map tf_path (sort_by tf_path l))).
  { rewrite (Permutation_map tf_path (sort_by_perm tf_path l)), Hl. by apply present_nodup. }
  rewrite dedup_paths_id by done. split_and!; [done| |].
  - apply sorted_le_lt; [apply sort_by_sorted|done].
  - assert (Hin : ∀ f, f ∈ sort_by tf_path l → file_shape_ok f ∧ in_manifest m f).
    { intros f. rewrite sort_by_perm. subst l. intros ([p e] & <- & Hpe)%list_elem_of_In%in_map_iff.
      apply list_elem_of_In, elem_of_present in Hpe as [Hp He].
      destruct (mv_entries _ _ Hm p e He) as (Hpath & (Hh & _) & _).
      pose proof (resume_offset_range resumes false p e Hoff (Hsz p e He)) as [_ Hrange].
      split; [split_and!; [done|done|exact Hrange]|by exists e]. }
    apply validate_transfer_files_Ok. split; [split_and!|].
    + unfold blen. rewrite (Permutation_length (sort_by_perm tf_path l)). subst l. rewrite length_map.
      pose proof (length_present m paths). unfold blen in Hlen. lia.
    + apply List.Forall_forall. intros f Hf%list_elem_of_In. by apply Hin.
    + done.
    + apply List.Forall_forall. intros f Hf%list_elem_of_In. by apply Hin.
Qed.

(** ** Witnesses *)

Import Ref.

Definition ex_local : Manifest := ex_manifest (bs "a") (ex_file 1 "001").
Definition ex_remote : Manifest := ex_manifest (bs "b") (ex_file 2 "002").

Lemma ex_local_valid : manifest_valid ex_local ex_share.
Proof. apply Manifest_validate_Ok. vm_compute. reflexivity. Qed.
Lemma ex_remote_valid : manifest_valid ex_remote ex_share.
Proof. apply Manifest_validate_Ok. vm_compute. reflexivity. Qed.

Lemma ex_sizes path w author : sizes_ok (ex_manifest path (ex_file w author)).
Proof.
  intros p e. unfold ex_manifest, ex_file. simpl. rewrite lookup_insert_Some, lookup_empty.
  intros [[_ <-]|[_ ?]]; [simpl; lia|done].
Qed.

Definition never : partial_call → bytes → bool := λ _ _, false.
Definition no_partials : partials := ∅.
Definition ex_request : TransferRequest := {|
  tr_protocol_version := PROTOCOL_VERSION; tr_share_id := ex_share;
  tr_download_paths := [bs "b"];
  tr_download_resumes := [{| tf_path := bs "b"; tf_sha256 := repeat "0"%byte 64; tf_size := 3;
                             tf_offset := 0 |}];
  tr_uploads := [{| tf_path := bs "a"; tf_sha256 := repeat "0"%byte 64; tf_size := 3;
                    tf_offset := 0 |}] |}.

Lemma planned_request_accepted_witness :
  validate_transfer_request ex_request ex_share ex_local = Ok tt.
Proof.
  apply (proj1 (planned_request_accepted never no_partials no_partials ex_share ex_local ex_remote ex_request 0
    ex_local_valid ex_remote_valid (ex_sizes _ _ _) (ex_sizes _ _ _)
    ltac:(vm_compute; reflexivity))).
Defined.

Lemma transfer_ready_accepted_witness :
  validate_transfer_ready {| ty_protocol_version := PROTOCOL_VERSION; ty_share_id := ex_share;
    ty_uploads := tr_uploads ex_request |} ex_share (tr_uploads ex_request) = Ok tt.
Proof.
  apply (proj1 (transfer_ready_accepted never no_partials no_partials ex_request ex_local
    {| ty_protocol_version := PROTOCOL_VERSION; ty_share_id := ex_share;
       ty_uploads := tr_uploads ex_request |} (ex_sizes _ _ _) ltac:(vm_compute; reflexivity))).
Defined.

Lemma build_transfer_files_spec_witness :
  validate_transfer_files (tr_uploads ex_request) ex_local = Ok tt.
Proof.
  apply (proj2 (proj2 (build_transfer_files_spec ex_local ex_share [bs "x"; bs "a"] []
    (tr_uploads ex_request) ex_local_valid (ex_sizes _ _ _) (List.Forall_nil _)
    ltac:(vm_compute; reflexivity)))).
Defined.
