(* ===== verification/Apply.v ===== *)
(** * Applying a peer's manifest and files (src/network/transfer.rs)

    [apply_remote_transfer_impl]: deletions first, deepest paths first, then
    directories, links and files, then the modes of the directories; the manifest
    is saved with the records that were applied, after the clock has observed it.
    When no download is left pending, the new manifest is the merge of the local
    and the remote one. *)

From S2P Require Import Prelude Collections Bytes External Reference Framing Clock Types Peers ManifestPath Manifest Merge Storage Digest Scheduling State Wire LocalFs Partial Streaming.

(** ** [std::cmp::Reverse] *)

Record reverse (A : Type) := Reverse { unreverse : A }.
Arguments Reverse {_} _.
Arguments unreverse {_} _.

Global Instance reverse_ord {A} `{!Ord A} : Ord (reverse A) := λ x y,
  cmp (unreverse y) (unreverse x).
Global Instance reverse_total {A} `{TotalOrd A} : TotalOrd (reverse A).
Proof.
  split; unfold cmp, reverse_ord.
  - intros [x] [y]; simpl. rewrite cmp_eq. naive_solver.
  - intros [x] [y]; simpl. apply cmp_antisym.
  - intros [x] [y] [z]; simpl. intros Hx Hy. by eapply cmp_trans.
Qed.

(** ** Records *)

(** [remote_record_wins]. *)
Definition remote_record_wins (local remote : option ManifestRecord) : bool :=
  match local, remote with
  | None, Some _ => true
  | Some l, Some r =>
      ltb (rec_version l) (rec_version r)
      || (bool_decide (rec_version r = rec_version l) && is_tombstone r && negb (is_tombstone l))
  | _, _ => false
  end.

Record ApplyOutcome := {
  ao_pending_downloads : Z;
  ao_applied_records : Z;
  ao_unsupported_items : Z;
}.

Inductive IncomingFile := IBytes (data : bytes) | IStaged (path : bytes).

(** The state of the loops: the shared tree, the staged files, the candidate
    manifest ([None] while it is borrowed) and the counters. *)
Record applying := {
  ap_tree : tree;
  ap_partials : partials;
  ap_candidate : option Manifest;
  ap_pending : Z;
  ap_applied : Z;
}.

(** A fallible loop that keeps what it did before it fails. *)
Fixpoint each {A S : Type} (f : A → S → result unit * S) (l : list A) (s : S) : result unit * S :=
  match l with
  | [] => (Ok tt, s)
  | x :: l' =>
      match f x s with
      | (Ok _, s') => each f l' s'
      | (Err m, s') => (Err m, s')
      end
  end.

(** The candidate after a record was put in place of any other of its path. *)
Definition replace_record (m : Manifest) (path : bytes) (r : ManifestRecord) : Manifest :=
  put_record (clear_path m path) path r.

(** Unchanged contents: the link map is left alone. *)
Definition refresh_entry (m : Manifest) (path : bytes) (entry : ManifestEntry) : Manifest := {|
  mf_format_version := mf_format_version m;
  mf_share_id := mf_share_id m;
  mf_scanned_at_ms := mf_scanned_at_ms m;
  mf_entries := <[path := entry]> (mf_entries m);
  mf_directories := delete path (mf_directories m);
  mf_symlinks := mf_symlinks m;
  mf_tombstones := delete path (mf_tombstones m);
|}.

(** Deepest paths first, then in descending order. *)
Definition depth_key (path : bytes) : reverse (Z * bytes) :=
  Reverse (Z.of_nat (manifest_path_depth path), path).

(** [unsupported_symlink_count] where links are supported. *)
Definition unsupported_symlink_count (m : Manifest) : Z := 0.

Section loops.
Context `{HexCodec, Sha256} (e : env) (cross : bytes → bool) (local : Manifest).

(** One more record applied, through [to_mut]. *)
Definition applied (st : applying) (t : tree) (ps : partials) (f : Manifest → Manifest)
    : applying := {|
  ap_tree := t; ap_partials := ps;
  ap_candidate := Some (f (default local (ap_candidate st)));
  ap_pending := ap_pending st; ap_applied := saturating_add u64_max (ap_applied st) 1 |}.
Definition in_tree (st : applying) (t : tree) : applying := {|
  ap_tree := t; ap_partials := ap_partials st; ap_candidate := ap_candidate st;
  ap_pending := ap_pending st; ap_applied := ap_applied st |}.

Definition apply_deletion (item : bytes * Tombstone) (st : applying) : result unit * applying :=
  let '(path, tombstone) := item in
  match remove_local_path (ap_tree st) e path with
  | (Err m, t) => (Err m, in_tree st t)
  | (Ok _, t) =>
      (Ok tt, applied st t (ap_partials st) (λ m, replace_record m path (RTombstone tombstone)))
  end.

Definition apply_directory (item : bytes * DirectoryEntry) (st : applying)
    : result unit * applying :=
  let '(path, entry) := item in
  if negb (remote_record_wins (record local path) (Some (RDirectory entry))) then (Ok tt, st)
  else match ensure_local_directory (ap_tree st) e path with
       | (Err m, t) => (Err m, in_tree st t)
       | (Ok _, t) =>
           (Ok tt, applied st t (ap_partials st) (λ m, replace_record m path (RDirectory entry)))
       end.

Definition apply_symlink (item : bytes * SymlinkEntry) (st : applying)
    : result unit * applying :=
  let '(path, entry) := item in
  if negb (remote_record_wins (record local path) (Some (RSymlink entry))) then (Ok tt, st)
  else match write_local_symlink (ap_tree st) e path (se_target entry) with
       | (Err m, t) => (Err m, in_tree st t)
       | (Ok _, t) =>
           (Ok tt, applied st t (ap_partials st) (λ m, replace_record m path (RSymlink entry)))
       end.

(** What lies at a staged path. *)
Definition staged_source (ps : partials) (path : bytes) : staged :=
  match ps !! path with
  | Some (PFile content) => StagedFile content (e_mode e)
  | Some POther => StagedOther
  | None => StagedMissing
  end.

(** A file that came with the transfer is installed. *)
Definition install_incoming (st : applying) (path : bytes) (entry : ManifestEntry)
    (incoming : IncomingFile) : result unit * tree * partials :=
  match incoming with
  | IBytes data =>
      let '(r, t) :=
        write_local_file (ap_tree st) e path data (me_permissions entry) (cross path) in
      (r, t, ap_partials st)
  | IStaged staged_path =>
      let '(r, t) :=
        write_local_staged_file (ap_tree st) e path (staged_source (ap_partials st) staged_path)
          (me_permissions entry) (cross path) in
      (r, t, match r with Ok _ => delete staged_path (ap_partials st)
                        | Err _ => ap_partials st end)
  end.

(** The local file still has the contents that the manifest records for it. *)
Definition unchanged_content (t : tree) (path : bytes) (entry : ManifestEntry)
    : result bool * tree :=
  match mf_entries local !! path with
  | Some local_entry =>
      if (me_size local_entry =? me_size entry)
         && bool_decide (me_sha256 local_entry = me_sha256 entry)
      then local_file_matches_entry t e path (me_size entry) (me_sha256 entry)
      else (Ok false, t)
  | None => (Ok false, t)
  end.

Definition apply_file (file_data : gmap bytes IncomingFile) (item : bytes * ManifestEntry)
    (st : applying) : result unit * applying :=
  let '(path, entry) := item in
  if negb (remote_record_wins (record local path) (Some (RFile entry))) then (Ok tt, st)
  else match file_data !! path with
  | Some incoming =>
      match install_incoming st path entry incoming with
      | (Err m, t, ps) => (Err m, in_tree st t)
      | (Ok _, t, ps) => (Ok tt, applied st t ps (λ m, replace_record m path (RFile entry)))
      end
  | None =>
      match unchanged_content (ap_tree st) path entry with
      | (Err m, t) => (Err m, in_tree st t)
      | (Ok true, t) =>
          match set_local_file_permissions t e path (me_permissions entry) with
          | (Err m, t) => (Err m, in_tree st t)
          | (Ok _, t) => (Ok tt, applied st t (ap_partials st) (λ m, refresh_entry m path entry))
          end
      | (Ok false, t) =>
          (Ok tt, {| ap_tree := t; ap_partials := ap_partials st; ap_candidate := ap_candidate st;
                     ap_pending := saturating_add u64_max (ap_pending st) 1;
                     ap_applied := ap_applied st |})
      end
  end.

(** The directories whose modes are set at the end. *)
Definition won_directories (remote : Manifest) : list (bytes * DirectoryEntry) :=
  List.filter (λ '(path, entry),
      remote_record_wins (record local path) (Some (RDirectory entry)))
    (bt_iter (mf_directories remote)).
Definition won_tombstones (remote : Manifest) : list (bytes * Tombstone) :=
  List.filter (λ '(path, tombstone),
      remote_record_wins (record local path) (Some (RTombstone tombstone)))
    (bt_iter (mf_tombstones remote)).

Definition apply_mode (item : bytes * DirectoryEntry) (st : applying) : result unit * applying :=
  let '(path, entry) := item in
  let '(r, t) := set_local_directory_permissions (ap_tree st) e path (de_permissions entry) in
  (r, in_tree st t).

(** The loops in order; each runs only if those before it succeeded. *)
Definition apply_loops (remote : Manifest) (file_data : gmap bytes IncomingFile) (st : applying)
    : result unit * applying :=
  match each apply_deletion (sort_by (λ '(path, _), depth_key path) (won_tombstones remote)) st with
  | (Err m, st) => (Err m, st)
  | (Ok _, st) =>
  match each apply_directory (bt_iter (mf_directories remote)) st with
  | (Err m, st) => (Err m, st)
  | (Ok _, st) =>
  match each apply_symlink (bt_iter (mf_symlinks remote)) st with
  | (Err m, st) => (Err m, st)
  | (Ok _, st) =>
  match each (apply_file file_data) (bt_iter (mf_entries remote)) st with
  | (Err m, st) => (Err m, st)
  | (Ok _, st) =>
      each apply_mode (sort_by (λ '(path, _), depth_key path) (won_directories remote)) st
  end end end end.
End loops.

(** The manifest with another scan time. *)
Definition with_scan_time (m : Manifest) (now_ms : Z) : Manifest := {|
  mf_format_version := mf_format_version m; mf_share_id := mf_share_id m;
  mf_scanned_at_ms := now_ms; mf_entries := mf_entries m; mf_directories := mf_directories m;
  mf_symlinks := mf_symlinks m; mf_tombstones := mf_tombstones m |}.

Definition same_records (m n : Manifest) : bool :=
  bool_decide (mf_entries m = mf_entries n) && bool_decide (mf_directories m = mf_directories n)
  && bool_decide (mf_symlinks m = mf_symlinks n)
  && bool_decide (mf_tombstones m = mf_tombstones n).

Section apply.
Context `{HexCodec, Iroh, Blake3, Sha256} `{!JsonState ShareConfig} `{!JsonState Manifest}
  `{!JsonState ClockState} `{!JsonState KnownPeers} `{!JsonState RuntimeStatus}.
Implicit Types s : ActiveShare.

(** The versions [observe_manifest_clock] goes through. *)
Definition observed_versions (m : Manifest) : list HlcTimestamp :=
  map me_version (bt_values (mf_entries m)) ++ map de_version (bt_values (mf_directories m))
    ++ map tb_version (bt_values (mf_tombstones m)).

Definition observe_all (clock : ClockState) (m : Manifest) (now_ms : Z) : result ClockState :=
  try_fold (λ c v, observe c v now_ms) (observed_versions m) clock.

Definition observe_manifest_clock s (m : Manifest) (now_ms : Z) (env : write_env)
    : result unit * ActiveShare :=
  match (clock ← load_clock (as_files s) (as_root s) (as_share_id s);
         observe_all clock m now_ms) with
  | Err m => (Err m, s)
  | Ok clock =>
      let '(r, fs) := save_clock (as_files s) (as_root s) (as_share_id s) clock env in
      (r, with_files s fs)
  end.

(** The end of [apply_remote_transfer_impl]: the candidate, if there is one, is
    validated and saved. *)
Definition commit_candidate s (local : Manifest) (candidate : option Manifest)
    (now_ms observed_ms : Z) (clock_env manifest_env : write_env) : result unit * ActiveShare :=
  match candidate with
  | None => (Ok tt, s)
  | Some candidate =>
      let candidate := with_scan_time candidate now_ms in
      match Manifest_validate candidate (as_share_id s) with
      | Err m => (Err m, s)
      | Ok _ =>
          if same_records candidate local then (Ok tt, s)
          else match observe_manifest_clock s candidate observed_ms clock_env with
               | (Err m, s) => (Err m, s)
               | (Ok _, s) => save_manifest s candidate manifest_env
               end
      end
  end.

Definition apply_remote_transfer_impl s (t : tree) (ps : partials) (e : env)
    (cross : bytes → bool) (remote : Manifest) (file_data : gmap bytes IncomingFile)
    (now_ms observed_ms : Z) (clock_env manifest_env : write_env)
    : result ApplyOutcome * ActiveShare * tree * partials :=
  match directory_root t with
  | Err m => (Err m, s, t, ps)
  | Ok _ =>
      match manifest_snapshot s with
      | (Err m, s) => (Err m, s, t, ps)
      | (Ok snapshot, s) =>
          let local := ms_manifest snapshot in
          let start := {| ap_tree := t; ap_partials := ps; ap_candidate := None;
                          ap_pending := 0; ap_applied := 0 |} in
          match apply_loops e cross local remote file_data start with
          | (Err m, st) => (Err m, s, ap_tree st, ap_partials st)
          | (Ok _, st) =>
              match commit_candidate s local (ap_candidate st) now_ms observed_ms clock_env
                      manifest_env with
              | (Err m, s) => (Err m, s, ap_tree st, ap_partials st)
              | (Ok _, s) =>
                  (Ok {| ao_pending_downloads := ap_pending st;
                         ao_applied_records := ap_applied st;
                         ao_unsupported_items :=
                           unsupported_symlink_count (default local (ap_candidate st)) |},
                   s, ap_tree st, ap_partials st)
              end
          end
      end
  end.

(** [apply_remote_transfer]: the contents come in the message. *)
Definition apply_remote_transfer `{Base64Codec} s (t : tree) (ps : partials) (e : env)
    (cross : bytes → bool) (remote : Manifest) (files : list FilePayload)
    (now_ms observed_ms : Z) (clock_env manifest_env : write_env)
    : result ApplyOutcome * ActiveShare * tree * partials :=
  match (Manifest_validate remote (as_share_id s);;
         validate_file_payloads files remote;;
         try_map (λ f, data ← ok_or (b64_decode (fp_content f))
                          "network file payload is not valid base64url";
                       Ok (fp_path f, IBytes data)) files) with
  | Err m => (Err m, s, t, ps)
  | Ok file_data =>
      apply_remote_transfer_impl s t ps e cross remote
        (foldl (λ m '(path, data), <[path := data]> m) ∅ file_data) now_ms observed_ms clock_env
        manifest_env
  end.

(** [apply_validated_remote_staged_transfer]: the contents are staged; what is
    left of them is removed after a success. *)
Definition apply_validated_remote_staged_transfer s (t : tree) (ps : partials) (e : env)
    (cross : bytes → bool) (remote : Manifest) (files : list CompletedFile)
    (now_ms observed_ms : Z) (clock_env manifest_env : write_env)
    : result ApplyOutcome * ActiveShare * tree * partials :=
  match (m ← for_share remote (as_share_id s);
         validate_transfer_files (map cf_file files) m) with
  | Err m => (Err m, s, t, ps)
  | Ok _ =>
      let file_data := foldl (λ m f, <[tf_path (cf_file f) := IStaged (cf_staged_path f)]> m)
                         ∅ files in
      match apply_remote_transfer_impl s t ps e cross remote file_data now_ms observed_ms
              clock_env manifest_env with
      | (Ok outcome, s, t, ps) =>
          (Ok outcome, s, t, foldl (λ ps f, delete (cf_staged_path f) ps) ps files)
      | failed => failed
      end
  end.

(** [apply_remote_staged_transfer]. *)
Definition apply_remote_staged_transfer s (t : tree) (ps : partials) (e : env)
    (cross : bytes → bool) (remote : Manifest) (files : list CompletedFile)
    (now_ms observed_ms : Z) (clock_env manifest_env : write_env)
    : result ApplyOutcome * ActiveShare * tree * partials :=
  match ValidatedManifest_validate remote (as_share_id s) with
  | Err m => (Err m, s, t, ps)
  | Ok remote =>
      apply_validated_remote_staged_transfer s t ps e cross remote files now_ms observed_ms
        clock_env manifest_env
  end.
End apply.

(** ** Selection and application agree *)

Lemma wins_select local r :
  select_record local (Some r) =
  if remote_record_wins local (Some r) then Some r else local.
Proof.
  destruct local as [l|]; [|done]. rewrite select_max. unfold remote_record_wins.
  assert (Hr : ltb (rank l) (rank r) = ltb (rec_version l) (rec_version r)
    || (bool_decide (rec_version r = rec_version l) && is_tombstone r && negb (is_tombstone l))).
  { unfold rank, ltb at 1, cmp, prod_ord; simpl.
    pose proof (cmp_eq (rec_version l) (rec_version r)) as He.
    unfold ltb. destruct (cmp (rec_version l) (rec_version r)) eqn:E; simpl.
    - rewrite bool_decide_true by (symmetry; by apply He).
      by destruct (is_tombstone l), (is_tombstone r).
    - done.
    - rewrite bool_decide_false; [done|]. intros Heq. symmetry in Heq. by apply He in Heq. }
  rewrite Hr. by destruct (_ || _).
Qed.

Lemma exclusive_clear m p : exclusive m → exclusive (clear_path m p).
Proof.
  rewrite !exclusive_spec. intros (He & Hd & Hs). simpl.
  split_and!; intros q; destruct (decide (q = p)) as [->|Hne];
    rewrite ?lookup_delete_eq, ?lookup_delete_ne by done; auto; by intros [? ?].
Qed.

Lemma exclusive_replace m p r : exclusive m → exclusive (replace_record m p r).
Proof.
  intros Hx. apply exclusive_put; [by apply exclusive_clear|]. rewrite record_clear.
  by rewrite decide_True.
Qed.

Lemma record_replace m p r q :
  record (replace_record m p r) q = if decide (q = p) then Some r else record m q.
Proof.
  unfold replace_record. case_decide as Hq.
  - subst q. apply record_put_eq. by rewrite record_clear, decide_True.
  - rewrite record_put_ne by done. by rewrite record_clear, decide_False.
Qed.

(** Refreshing the entry of a path that has one replaces its record. *)
Lemma refresh_is_replace m p e0 e :
  exclusive m → record m p = Some (RFile e0) → refresh_entry m p e = replace_record m p (RFile e).
Proof.
  intros Hx Hr. apply Hx in Hr.
  apply exclusive_spec in Hx as (He & _ & _). destruct (He p) as (_ & Hs & _); [by eexists|].
  unfold refresh_entry, replace_record, put_record, clear_path; simpl.
  by rewrite insert_delete_eq, (delete_id _ p Hs).
Qed.

Lemma each_inv {A S : Type} (P : S → list A → Prop) (f : A → S → result unit * S) l s s' :
  P s [] →
  (∀ past x future st st', l = past ++ x :: future → P st past → f x st = (Ok tt, st') →
     P st' (past ++ [x])) →
  each f l s = (Ok tt, s') → P s' l.
Proof.
  intros H0 Hstep.
  assert (Hgen : ∀ future past st, l = past ++ future → P st past →
    each f future st = (Ok tt, s') → P s' l).
  { induction future as [|x future IH]; intros past st E Hp; simpl.
    - intros [= <-]. by rewrite E, app_nil_r.
    - destruct (f x st) as [[[]|m] st1] eqn:Ef; [|done].
      apply (IH (past ++ [x])); [by rewrite <-app_assoc|by eapply Hstep]. }
  by apply (Hgen l []).
Qed.

Section tracking.
Context `{HexCodec, Sha256} (e : env) (cross : bytes → bool) (local : Manifest).
Hypothesis local_exclusive : exclusive local.

(** The candidate of a state, borrowed or not. *)
Definition current (st : applying) : Manifest := default local (ap_candidate st).

(** What the candidate holds after the remote records [seen] were gone through:
    the winning ones, except those of the files left [pending]. *)
Record tracks (st : applying) (seen : list (bytes * ManifestRecord)) (pending : list bytes)
    : Prop := {
  tk_exclusive : exclusive (current st);
  tk_header : mf_share_id (current st) = mf_share_id local;
  tk_records p : record (current st) p = record local p ∨
    ∃ r, (p, r) ∈ seen ∧ remote_record_wins (record local p) (Some r) = true ∧
      record (current st) p = Some r;
  tk_seen p r : (p, r) ∈ seen → remote_record_wins (record local p) (Some r) = true →
    record (current st) p = Some r ∨ p ∈ pending;
  tk_files p : p ∈ pending →
    ∃ entry, (p, RFile entry) ∈ seen ∧ remote_record_wins (record local p) (Some (RFile entry)) = true;
  tk_pending : ap_pending st = Z.min u64_max (blen pending);
}.

Lemma pending_more (seen : list (bytes * ManifestRecord)) x (pending : list bytes) :
  (∀ p, p ∈ pending → ∃ entry, (p, RFile entry) ∈ seen ∧
     remote_record_wins (record local p) (Some (RFile entry)) = true) →
  ∀ p, p ∈ pending → ∃ entry, (p, RFile entry) ∈ seen ++ [x] ∧
     remote_record_wins (record local p) (Some (RFile entry)) = true.
Proof.
  intros Hf p Hp. destruct (Hf p Hp) as (entry & Hin & Hw). exists entry.
  split; [apply elem_of_app; by left|done].
Qed.

Lemma tracks_skip st seen pending p r :
  tracks st seen pending → remote_record_wins (record local p) (Some r) = false →
  tracks st (seen ++ [(p, r)]) pending.
Proof.
  intros [Hx Hh Hr Hs Hf Hp] Hw. split; try done; [| |by apply pending_more].
  - intros q. destruct (Hr q) as [|(x & Hin & ?)]; [by left|right; exists x].
    split; [apply elem_of_app; by left|done].
  - intros q x [Hin|Hin]%elem_of_app Hwins; [by apply Hs|].
    apply list_elem_of_singleton in Hin. simplify_eq. congruence.
Qed.

Lemma tracks_pend st st' seen pending p entry :
  tracks st seen pending → remote_record_wins (record local p) (Some (RFile entry)) = true →
  ap_candidate st' = ap_candidate st →
  ap_pending st' = saturating_add u64_max (ap_pending st) 1 →
  tracks st' (seen ++ [(p, RFile entry)]) (pending ++ [p]).
Proof.
  intros [Hx Hh Hr Hs Hf Hp] Hw Hc Hn. unfold current in *.
  split; unfold current; rewrite ?Hc; try done.
  - intros q. destruct (Hr q) as [|(x & Hin & ?)]; [by left|right; exists x].
    split; [apply elem_of_app; by left|done].
  - intros q x [Hin|Hin]%elem_of_app Hwins.
    + destruct (Hs q x) as [|]; [done|done|by left|right; apply elem_of_app; by left].
    + apply list_elem_of_singleton in Hin. simplify_eq. right. apply elem_of_app. right. by left.
  - intros q [Hq|Hq]%elem_of_app; [by apply (pending_more _ _ pending)|].
    apply list_elem_of_singleton in Hq as ->. exists entry. split; [|done].
    apply elem_of_app. right. by left.
  - rewrite Hn, Hp, blen_app, blen_cons, blen_nil. unfold saturating_add.
    pose proof (blen_nonneg pending). lia.
Qed.

Lemma tracks_applied st st' seen pending p r :
  tracks st seen pending → p ∉ map fst seen →
  remote_record_wins (record local p) (Some r) = true →
  ap_candidate st' = Some (replace_record (current st) p r) →
  ap_pending st' = ap_pending st → tracks st' (seen ++ [(p, r)]) pending.
Proof.
  intros [Hx Hh Hr Hs Hf Hp] Hni Hw Hc Hn.
  split; unfold current; rewrite ?Hc; simpl.
  - by apply exclusive_replace.
  - done.
  - intros q. rewrite record_replace. case_decide as Hq.
    + subst q. right. exists r. split_and!; [apply elem_of_app; right; by left|done|done].
    + destruct (Hr q) as [|(x & Hin & ?)]; [by left|right; exists x].
      split; [apply elem_of_app; by left|done].
  - intros q x [Hin|Hin]%elem_of_app Hwins; rewrite record_replace.
    + rewrite decide_False; [by apply Hs|]. intros ->. apply Hni.
      change p with (p, x).1. by apply list_elem_of_In, in_map, list_elem_of_In.
    + apply list_elem_of_singleton in Hin. simplify_eq. left. by rewrite decide_True.
  - by apply pending_more.
  - by rewrite Hn.
Qed.

(** A path that was not gone through has its local record. *)
Lemma tracks_fresh st seen pending p :
  tracks st seen pending → p ∉ map fst seen → record (current st) p = record local p.
Proof.
  intros Ht Hni. destruct (tk_records _ _ _ Ht p) as [|(r & Hin & _)]; [done|].
  destruct Hni. change p with (p, r).1. by apply list_elem_of_In, in_map, list_elem_of_In.
Qed.

(** One step of a loop that applies the record [g x]. *)
Definition step_tracks {A : Type} (l : list A) (f : A → applying → result unit * applying)
    (g : A → bytes * ManifestRecord) : Prop :=
  ∀ x st st' seen pending, x ∈ l → tracks st seen pending → (g x).1 ∉ map fst seen →
    f x st = (Ok tt, st') → ∃ pending', tracks st' (seen ++ [g x]) pending'.

Lemma each_tracks {A : Type} f (g : A → bytes * ManifestRecord) l st st' seen pending :
  step_tracks l f g → NoDup (map fst (seen ++ map g l)) → tracks st seen pending →
  each f l st = (Ok tt, st') → ∃ pending', tracks st' (seen ++ map g l) pending'.
Proof.
  intros Hstep Hnd Hstart.
  apply (each_inv (λ s past, ∃ pending', tracks s (seen ++ map g past) pending')).
  - exists pending. by rewrite app_nil_r.
  - intros past x future s s' -> (pending1 & Hp) Hf.
    destruct (Hstep x s s' (seen ++ map g past) pending1) as (pending2 & H2); [|done| |done|].
    + apply elem_of_app. right. by left.
    + rewrite (map_app g), app_assoc, (map_app fst) in Hnd. apply NoDup_app in Hnd as (_ & Hdis & _).
      intros Hin. apply (Hdis _ Hin). simpl. by left.
    + exists pending2. by rewrite map_app, app_assoc.
Qed.

Lemma deletion_tracks l :
  (∀ x, x ∈ l → remote_record_wins (record local x.1) (Some (RTombstone x.2)) = true) →
  step_tracks l (apply_deletion e local) (λ x, (x.1, RTombstone x.2)).
Proof.
  intros Hl [p tb] st st' seen pending Hin Ht Hni. apply Hl in Hin. simpl in *.
  destruct (remove_local_path _ _ _) as [[[]|m] t]; [|done]. intros [= <-].
  exists pending. by eapply tracks_applied.
Qed.

Lemma directory_tracks l : step_tracks l (apply_directory e local) (λ x, (x.1, RDirectory x.2)).
Proof.
  intros [p d] st st' seen pending _ Ht Hni. simpl.
  destruct (remote_record_wins _ _) eqn:Hw; simpl.
  - destruct (ensure_local_directory _ _ _) as [[[]|m] t]; [|done]. intros [= <-].
    exists pending. by eapply tracks_applied.
  - intros [= <-]. exists pending. by apply tracks_skip.
Qed.

Lemma symlink_tracks l : step_tracks l (apply_symlink e local) (λ x, (x.1, RSymlink x.2)).
Proof.
  intros [p d] st st' seen pending _ Ht Hni. simpl.
  destruct (remote_record_wins _ _) eqn:Hw; simpl.
  - destruct (write_local_symlink _ _ _ _) as [[[]|m] t]; [|done]. intros [= <-].
    exists pending. by eapply tracks_applied.
  - intros [= <-]. exists pending. by apply tracks_skip.
Qed.

Lemma file_tracks file_data l :
  step_tracks l (apply_file e cross local file_data) (λ x, (x.1, RFile x.2)).
Proof.
  intros [p entry] st st' seen pending _ Ht Hni. simpl in Hni. simpl.
  destruct (remote_record_wins _ _) eqn:Hw; simpl;
    [|intros [= <-]; exists pending; by apply tracks_skip].
  destruct (file_data !! p) as [incoming|].
  - destruct (install_incoming _ _ _ _ _ _) as [[[[]|m] t] ps]; [|done]. intros [= <-].
    exists pending. by eapply tracks_applied.
  - unfold unchanged_content. destruct (mf_entries local !! p) as [le|] eqn:El.
    2: { intros [= <-]. exists (pending ++ [p]). by eapply tracks_pend. }
    destruct (_ && _).
    2: { intros [= <-]. exists (pending ++ [p]). by eapply tracks_pend. }
    destruct (local_file_matches_entry _ _ _ _ _) as [[[]|m] t]; [| |done].
    + destruct (set_local_file_permissions _ _ _ _) as [[[]|m] t']; [|done]. intros [= <-].
      exists pending. eapply tracks_applied; [done|done|done| |done]. simpl. f_equal.
      apply (refresh_is_replace _ _ le); [apply (tk_exclusive _ _ _ Ht)|].
      change (record (current st) p = Some (RFile le)).
      rewrite (tracks_fresh _ _ _ _ Ht Hni). by apply local_exclusive.
    + intros [= <-]. exists (pending ++ [p]). by eapply tracks_pend.
Qed.
End tracking.

(** ** The loops together *)

Lemma elem_of_filter_In {A} (f : A → bool) l x : x ∈ List.filter f l ↔ x ∈ l ∧ f x = true.
Proof. by rewrite !list_elem_of_In, filter_In. Qed.

Lemma elem_of_map_In {A B} (f : A → B) l y : y ∈ map f l ↔ ∃ x, f x = y ∧ x ∈ l.
Proof. rewrite list_elem_of_In, in_map_iff. by setoid_rewrite list_elem_of_In. Qed.

(** Records of one manifest, listed kind by kind, have distinct paths. *)
Lemma disjoint_kinds m (a b : list (bytes * ManifestRecord)) :
  NoDup (map fst a) → NoDup (map fst b) →
  (∀ p r, (p, r) ∈ a → record m p = Some r) → (∀ p r, (p, r) ∈ b → record m p = Some r) →
  (∀ p r, (p, r) ∈ a → (p, r) ∈ b → False) → NoDup (map fst (a ++ b)).
Proof.
  intros Ha Hb Ra Rb Hd. rewrite map_app. apply NoDup_app. split_and!; [done| |done].
  intros p ([q r] & <- & Hin)%elem_of_map_In ([q' r'] & E & Hin')%elem_of_map_In. simpl in E. subst q'.
  apply Ra in Hin as H1. apply Rb in Hin' as H2. assert (r' = r) as -> by congruence.
  by eapply Hd.
Qed.

Section merging.
Context `{HexCodec, Sha256} (e : env) (cross : bytes → bool) (local remote : Manifest).
Hypothesis local_exclusive : exclusive local.
Hypothesis remote_exclusive : exclusive remote.

(** The remote records in the order of the loops. *)
Definition deletions : list (bytes * ManifestRecord) :=
  map (λ x, (x.1, RTombstone x.2))
    (sort_by (λ '(path, _), depth_key path) (won_tombstones local remote)).
Definition of_kind {X} (f : X → ManifestRecord) (m : gmap bytes X) : list (bytes * ManifestRecord) :=
  map (λ x, (x.1, f x.2)) (bt_iter m).

Lemma elem_of_kind {X} (f : X → ManifestRecord) (m : gmap bytes X) p r :
  (p, r) ∈ of_kind f m ↔ ∃ x, m !! p = Some x ∧ r = f x.
Proof.
  unfold of_kind. rewrite elem_of_map_In. split.
  - intros ([q x] & E & Hin%elem_of_bt_iter). simplify_eq/=. by exists x.
  - intros (x & Hx & ->). exists (p, x). split; [done|by apply elem_of_bt_iter].
Qed.

Lemma kind_nodup {X} (f : X → ManifestRecord) (m : gmap bytes X) : NoDup (map fst (of_kind f m)).
Proof. unfold of_kind. rewrite map_map. apply (bt_iter_nodup m). Qed.

Lemma elem_of_deletions p r :
  (p, r) ∈ deletions ↔ ∃ tb, mf_tombstones remote !! p = Some tb ∧ r = RTombstone tb ∧
    remote_record_wins (record local p) (Some r) = true.
Proof.
  unfold deletions. rewrite elem_of_map_In. setoid_rewrite sort_by_perm. unfold won_tombstones. split.
  - intros ([q tb] & E & [Hin Hw]%elem_of_filter_In). simplify_eq/=. exists tb.
    by split_and!; [apply elem_of_bt_iter|..].
  - intros (tb & Htb & -> & Hw). exists (p, tb). split; [done|].
    apply elem_of_filter_In. split; [by apply elem_of_bt_iter|done].
Qed.

Lemma deletions_nodup : NoDup (map fst deletions).
Proof.
  unfold deletions. rewrite map_map.
  rewrite (Permutation_map _ (sort_by_perm _ (won_tombstones local remote))).
  change (NoDup (map fst (won_tombstones local remote))). unfold won_tombstones.
  pose proof (bt_iter_nodup (mf_tombstones remote)) as Hnd. unfold bt_keys in Hnd.
  induction (bt_iter (mf_tombstones remote)) as [|x l IH]; simpl; [constructor|].
  apply NoDup_cons in Hnd as [Hni Hnd]. specialize (IH Hnd).
  destruct x as [p tb]. simpl in *. destruct (remote_record_wins _ _); [|done]. simpl.
  constructor; [|done]. intros (y & Ey & [Hy _]%elem_of_filter_In)%elem_of_map_In. apply Hni.
  apply elem_of_map_In. by exists y.
Qed.

Definition all_seen : list (bytes * ManifestRecord) :=
  ((deletions ++ of_kind RDirectory (mf_directories remote)) ++ of_kind RSymlink (mf_symlinks remote))
  ++ of_kind RFile (mf_entries remote).

Lemma seen_remote p r : (p, r) ∈ all_seen → record remote p = Some r.
Proof.
  unfold all_seen. rewrite !elem_of_app, !elem_of_kind, elem_of_deletions.
  intros [[[(x & Hx & -> & _)|(x & Hx & ->)]|(x & Hx & ->)]|(x & Hx & ->)];
    by apply remote_exclusive.
Qed.

Lemma remote_seen p r :
  record remote p = Some r → remote_record_wins (record local p) (Some r) = true →
  (p, r) ∈ all_seen.
Proof.
  intros Hr%remote_exclusive Hw. unfold all_seen.
  rewrite !elem_of_app, !elem_of_kind, elem_of_deletions. destruct r; eauto 10.
Qed.

Lemma seen_nodup : NoDup (map fst all_seen).
Proof.
  pose proof seen_remote as Hs. unfold all_seen in *.
  assert (Hk : ∀ a b, (∀ p r, (p, r) ∈ a ++ b → record remote p = Some r) →
    (∀ p r, (p, r) ∈ a → record remote p = Some r) ∧
    (∀ p r, (p, r) ∈ b → record remote p = Some r)).
  { intros a b Hab. split; intros p r Hin; apply Hab, elem_of_app; auto. }
  destruct (Hk _ _ Hs) as [H1 Hf]. destruct (Hk _ _ H1) as [H2 Hl]. destruct (Hk _ _ H2) as [Hd Hdir].
  repeat (apply (disjoint_kinds remote); [| | done | done |]);
    try apply kind_nodup; try apply deletions_nodup; intros p r;
    rewrite ?elem_of_app, ?elem_of_kind, ?elem_of_deletions; naive_solver.
Qed.

Lemma mode_tracks l st st' seen pending :
  tracks local st seen pending → each (apply_mode e) l st = (Ok tt, st') →
  tracks local st' seen pending.
Proof.
  intros Ht. apply (each_inv (λ s _, tracks local s seen pending)); [done|].
  intros past [p d] future s s' _ Hs. unfold apply_mode.
  destruct (set_local_directory_permissions _ _ _ _) as [r t]. intros [= -> <-].
  by destruct Hs; split.
Qed.

Lemma apply_loops_tracks file_data t ps st :
  apply_loops e cross local remote file_data
    {| ap_tree := t; ap_partials := ps; ap_candidate := None; ap_pending := 0; ap_applied := 0 |}
    = (Ok tt, st) →
  ∃ pending, tracks local st all_seen pending.
Proof.
  pose proof seen_nodup as Hnd. unfold apply_loops, all_seen in *.
  set (start := {| ap_tree := t |}).
  assert (Hstart : tracks local start [] []).
  { split; [done|done|by left|by intros ? ? ?%not_elem_of_nil|by intros ? ?%not_elem_of_nil|].
    unfold blen. simpl. u_unfold. lia. }
  destruct (each (apply_deletion e local) _ start) as [[[]|m] st1] eqn:E1; [|done].
  pose proof Hnd as Hnd1. rewrite map_app in Hnd1. apply NoDup_app in Hnd1 as [Hnd1 _].
  pose proof Hnd1 as Hnd2. rewrite map_app in Hnd2. apply NoDup_app in Hnd2 as [Hnd2 _].
  pose proof Hnd2 as Hnd3. rewrite map_app in Hnd3. apply NoDup_app in Hnd3 as [Hnd3 _].
  eapply (each_tracks local _ _ _ _ _ []) in E1 as (q1 & T1); [|apply deletion_tracks|exact Hnd3|exact Hstart].
  2: { intros [p tb]. rewrite sort_by_perm. unfold won_tombstones. by intros [_ ?]%elem_of_filter_In. }
  destruct (each (apply_directory e local) _ st1) as [[[]|m] st2] eqn:E2; [|done].
  eapply (each_tracks local) in E2 as (q2 & T2); [|apply directory_tracks|exact Hnd2|exact T1].
  destruct (each (apply_symlink e local) _ st2) as [[[]|m] st3] eqn:E3; [|done].
  eapply (each_tracks local) in E3 as (q3 & T3); [|apply symlink_tracks|exact Hnd1|exact T2].
  destruct (each (apply_file e cross local file_data) _ st3) as [[[]|m] st4] eqn:E4; [|done].
  eapply (each_tracks local) in E4 as (q4 & T4); [|by apply file_tracks|exact Hnd|exact T3].
  intros E5. exists q4. by eapply mode_tracks.
Qed.

(** What the candidate records in the end. *)
Lemma tracked_merge st pending :
  tracks local st all_seen pending →
  ∀ p, (p ∉ pending →
        record (current local st) p = select_record (record local p) (record remote p)) ∧
    (record (current local st) p = record local p ∨
     record (current local st) p = select_record (record local p) (record remote p)) ∧
    (p ∈ pending → ∃ entry, mf_entries remote !! p = Some entry ∧
       select_record (record local p) (record remote p) = Some (RFile entry)).
Proof.
  intros [Hx Hh Hr Hs Hf Hp] p. split_and!.
  - intros Hnp. destruct (record remote p) as [r|] eqn:Er; [rewrite wins_select|rewrite select_None_r].
    + destruct (remote_record_wins _ _) eqn:Hw.
      * by destruct (Hs p r) as [|]; [by apply remote_seen|..].
      * destruct (Hr p) as [|(r' & Hin & Hw' & _)]; [done|].
        apply seen_remote in Hin. congruence.
    + destruct (Hr p) as [|(r' & Hin & _)]; [done|]. apply seen_remote in Hin. congruence.
  - destruct (Hr p) as [|(r' & Hin & Hw' & E)]; [by left|right].
    apply seen_remote in Hin. rewrite Hin, wins_select, Hw'. done.
  - intros Hin. destruct (Hf p Hin) as (entry & Hseen%seen_remote & Hw).
    exists entry. split; [by apply remote_exclusive in Hseen|]. by rewrite Hseen, wins_select, Hw.
Qed.
End merging.

(** ** The stored manifest *)

Section commit.
Context `{HexCodec, Iroh, Blake3, Sha256} `{!JsonState ShareConfig} `{!JsonState Manifest}
  `{!JsonState ClockState} `{!JsonState KnownPeers} `{!JsonState RuntimeStatus}.
Implicit Types s : ActiveShare.

(** A snapshot that was taken is a validated manifest of the share, and stays. *)
Lemma snapshot_taken s snapshot s1 :
  coherent s → manifest_snapshot s = (Ok snapshot, s1) →
  manifest_valid (ms_manifest snapshot) (as_share_id s) ∧
  as_share_id s1 = as_share_id s ∧ as_manifest_cache s1 = Some snapshot.
Proof.
  intros Hc. unfold manifest_snapshot. destruct (as_manifest_cache s) as [snap|] eqn:Em.
  - intros [= <- <-]. destruct (Hc snap Em) as (_ & Hv & _).
    split_and!; [by apply Manifest_validate_Ok|done|done].
  - destruct (load_manifest _ _ _) as [m|] eqn:El; [|done]. intros [= <- <-].
    apply load_manifest_disk in El as (_ & Hv & _).
    split_and!; [by apply Manifest_validate_Ok|done|done].
Qed.

Lemma record_scan_time m now p : record (with_scan_time m now) p = record m p.
Proof. done. Qed.

Lemma same_records_record m n p : same_records m n = true → record m p = record n p.
Proof. unfold same_records. 
  intros Hs. bool_inv. unfold record.
  repeat match goal with E : _ = _ :> gmap _ _ |- _ => rewrite E; clear E end. done.
Qed.

Lemma observe_manifest_clock_frame s m now env r s' :
  observe_manifest_clock s m now env = (r, s') →
  as_share_id s' = as_share_id s ∧ as_manifest_cache s' = as_manifest_cache s.
Proof.
  unfold observe_manifest_clock. destruct (mbind _ _); [|by intros [= _ <-]].
  destruct (save_clock _ _ _ _ _). by intros [= _ <-].
Qed.

(** After the commit the share hands out the records of the candidate. *)
Lemma commit_candidate_Ok s local candidate now observed ce me s' snapshot :
  as_manifest_cache s = Some snapshot → ms_manifest snapshot = local →
  commit_candidate s local candidate now observed ce me = (Ok tt, s') →
  ∃ snapshot', manifest_snapshot s' = (Ok snapshot', s') ∧
    ∀ p, record (ms_manifest snapshot') p = record (default local candidate) p.
Proof.
  intros Hcache Hlocal. unfold commit_candidate. destruct candidate as [c|]; simpl.
  2: { intros [= <-]. exists snapshot. unfold manifest_snapshot. rewrite Hcache. by subst. }
  destruct (Manifest_validate _ _) as [[]|]; [|done].
  destruct (same_records _ _) eqn:Es.
  { intros [= <-]. exists snapshot. unfold manifest_snapshot. rewrite Hcache.
    split; [done|]. intros p. rewrite Hlocal.
    by rewrite <-(same_records_record _ _ p Es), record_scan_time. }
  destruct (observe_manifest_clock _ _ _ _) as [[[]|m] s1]; [|done].
  unfold save_manifest. destruct (negb _); [done|].
  destruct (store_manifest _ _ _ _) as [[[]|m] fs]; [|done]. intros [= <-].
  eexists. split; [unfold manifest_snapshot; simpl; reflexivity|]. intros p. apply record_scan_time.
Qed.

(** What a successful application leaves. *)
Lemma apply_impl_merge s s' (t t' : tree) (ps ps' : partials) (e : env) (cross : bytes → bool)
    (remote : Manifest) (file_data : gmap bytes IncomingFile)
    (now observed : Z) (clock_env manifest_env : write_env) (outcome : ApplyOutcome) :
  coherent s → Manifest_validate remote (as_share_id s) = Ok tt →
  apply_remote_transfer_impl s t ps e cross remote file_data now observed clock_env
    manifest_env =
    (Ok outcome, s', t', ps') →
  ∃ before after pending,
    (manifest_snapshot s).1 = Ok before ∧ (manifest_snapshot s').1 = Ok after ∧
    ao_pending_downloads outcome = Z.min u64_max (blen pending) ∧
    let local := record (ms_manifest before) in
    let new := record (ms_manifest after) in
    (∀ p, p ∉ pending → new p = select_record (local p) (record remote p)) ∧
    (∀ p, p ∈ pending → ∃ entry, mf_entries remote !! p = Some entry ∧
       select_record (local p) (record remote p) = Some (RFile entry)) ∧
    (∀ p, new p = local p ∨ new p = select_record (local p) (record remote p)).
Proof.
  intros Hc Hv%Manifest_validate_Ok. unfold apply_remote_transfer_impl.
  destruct (directory_root t); [|done].
  destruct (manifest_snapshot s) as [[before|] s1] eqn:Esnap; [|done].
  apply snapshot_taken in Esnap as (Hlocal & Hid & Hcache); [|done].
  destruct (apply_loops _ _ _ _ _ _) as [[[]|] st] eqn:Eloops; [|done].
  apply mv_exclusive in Hlocal. apply mv_exclusive in Hv.
  apply (apply_loops_tracks e cross _ _ Hlocal Hv) in Eloops as (pending & Ht).
  destruct (commit_candidate _ _ _ _ _ _ _) as [[[]|] s2] eqn:Ecommit; [|done].
  intros [= <- <- _ _].
  apply (commit_candidate_Ok _ _ _ _ _ _ _ _ before) in Ecommit as (after & Hafter & Hrec); [|done..].
  exists before, after, pending. rewrite Hafter. simpl.
  pose proof (tracked_merge _ _ Hv _ _ Ht) as Hm. unfold current in Hm.
  split_and!; [done|done|apply (tk_pending _ _ _ _ Ht)|..]; intros p; rewrite ?Hrec; apply Hm.
Qed.

(** ** Properties *)

(** C2: applying a peer's manifest is merging it: after a successful application
    the share's manifest has, for every path but those of the files still to be
    downloaded, exactly the record that merging the local and the remote manifest
    selects; a pending path is a file of the peer that wins, keeps its local record or
    none, and the outcome counts them. *)
Theorem apply_is_merge s s' (t t' : tree) (ps ps' : partials) (e : env) (cross : bytes → bool)
    (remote : Manifest) (file_data : gmap bytes IncomingFile)
    (now observed : Z) (clock_env manifest_env : write_env) (outcome : ApplyOutcome) :
  coherent s → Manifest_validate remote (as_share_id s) = Ok tt →
  apply_remote_transfer_impl s t ps e cross remote file_data now observed clock_env
    manifest_env =
    (Ok outcome, s', t', ps') →
  ∃ before after pending,
    (manifest_snapshot s).1 = Ok before ∧ (manifest_snapshot s').1 = Ok after ∧
    ao_pending_downloads outcome = Z.min u64_max (blen pending) ∧
    let local := record (ms_manifest before) in
    let new := record (ms_manifest after) in
    (∀ p, p ∉ pending → new p = select_record (local p) (record remote p)) ∧
    (∀ p, p ∈ pending → ∃ entry, mf_entries remote !! p = Some entry ∧
       select_record (local p) (record remote p) = Some (RFile entry)) ∧
    (∀ p, new p = local p ∨ new p = select_record (local p) (record remote p)).
Proof. apply apply_impl_merge. Qed.
End commit.

(** ** Versions and the clock *)

Lemma observe_all_covers c m now c' :
  observe_all c m now = Ok c' → clock_le c c' ∧ ∀ v, v ∈ observed_versions m → covers c' v.
Proof.
  unfold observe_all. generalize (observed_versions m) as vs. intros vs. revert c.
  induction vs as [|v vs IH]; intros c; simpl.
  - intros [= <-]. split; [apply clock_le_refl|by intros ? ?%not_elem_of_nil].
  - destruct (observe c v now) as [c1|] eqn:Eo; [|done]. simpl. intros Hc.
    apply observe_spec in Eo as (_ & _ & Hv & Hle). destruct (IH c1 Hc) as [Hle' Hall].
    split; [by eapply clock_le_trans|]. intros u [->|Hu]%elem_of_cons; [|by apply Hall].
    by eapply covers_le.
Qed.

Lemma elem_of_observed m p r :
  exclusive m → record m p = Some r → (∀ l, r ≠ RSymlink l) → rec_version r ∈ observed_versions m.
Proof.
  intros Hx Hr%Hx Hl. unfold observed_versions. rewrite !elem_of_app, !elem_of_map_In.
  setoid_rewrite elem_of_bt_values. destruct r as [x|x|x|x]; [..|by destruct (Hl x)|]; eauto 10.
Qed.

(** C23: after the clock has observed an applied manifest, every version it issues
    is greater than that of every file, directory and deletion in it: later local
    changes win over what was applied. *)
Theorem later_changes_win (c c' c'' : ClockState) (m : Manifest) (now : Z)
    (ops : list clock_op) (ts : list HlcTimestamp) :
  exclusive m → observe_all c m now = Ok c' → run_clock ops c' = Ok (c'', ts) →
  ∀ p r t, record m p = Some r → (∀ l, r ≠ RSymlink l) → t ∈ ts → ltb (rec_version r) t = true.
Proof.
  intros Hx [_ Hall]%observe_all_covers Hrun p r t Hr Hl Ht.
  pose proof (run_clock_after ops c' c'' ts (rec_version r)) as Hafter.
  rewrite List.Forall_forall in Hafter.
  apply Hafter; [by eapply Hall, elem_of_observed|done|by apply list_elem_of_In].
Qed.

(** *** Witnesses *)

Import Ref.

Lemma later_changes_win_witness :
  let m := ex_manifest (bs "a") (ex_file 9 "002") in
  let c' := {| clock_format_version := 1; last_wall_ms := 9; last_counter := 1 |} in
  observe_all ClockState_new m 5 = Ok c' ∧
  ltb (ex_version 9 "002") {| wall_ms := 9; counter := 2; author := repeat "001"%byte 32 |} = true.
Proof.
  intros m c'. assert (Ho : observe_all ClockState_new m 5 = Ok c') by (vm_compute; reflexivity).
  split; [exact Ho|].
  apply (later_changes_win ClockState_new c'
    {| clock_format_version := 1; last_wall_ms := 9; last_counter := 2 |} m 5
    [OpTick 5 (repeat "001"%byte 32)]
    [{| wall_ms := 9; counter := 2; author := repeat "001"%byte 32 |}]
    (ex_exclusive _ _) Ho ltac:(vm_compute; reflexivity) (bs "a") (ex_file 9 "002"));
    [vm_compute; reflexivity|discriminate|left].
Defined.

(** A share with a file [a], and a peer that deleted it. *)
Definition ex_before : Manifest := ex_manifest (bs "a") (ex_file 1 "001").
Definition ex_deletion : Manifest :=
  ex_manifest (bs "a") (RTombstone {| tb_version := ex_version 2 "002" |}).
Definition ex_after : Manifest := with_scan_time ex_deletion 8.
Definition ex_clock (w n : Z) : ClockState :=
  {| clock_format_version := 1; last_wall_ms := w; last_counter := n |}.

#[local] Instance ex_codec_config : JsonState ShareConfig := two_state ex_share_config ex_share_config.
#[local] Instance ex_codec_manifest : JsonState Manifest := two_state ex_before ex_after.
#[local] Instance ex_codec_clock : JsonState ClockState := two_state (ex_clock 1 0) (ex_clock 8 0).
#[local] Instance ex_codec_peers : JsonState KnownPeers := two_state KnownPeers_empty KnownPeers_empty.
#[local] Instance ex_codec_status : JsonState RuntimeStatus :=
  two_state (RuntimeStatus_stopped 0) (RuntimeStatus_stopped 0).

Definition ex_applying : ActiveShare := {|
  as_files := <[share_manifest (bs "/d") ex_share := bs "x"]>
    {[share_clock (bs "/d") ex_share := bs "x"]};
  as_root := bs "/d"; as_share_id := ex_share; as_config := ex_share_config;
  as_runtime_status := None; as_manifest_generation := 0; as_network_generation := 0;
  as_manifest_cache := Some (from_validated ex_before); as_peer_schedule := ∅;
  as_local_endpoint_id := endpoint "001" |}.

Lemma ex_applying_coherent : coherent ex_applying.
Proof.
  intros snapshot [= <-]. split; [|split; [vm_compute; reflexivity|reflexivity]].
  unfold disk_manifest, ex_applying. simpl. rewrite lookup_insert_eq. simpl.
  unfold two_from_slice. by rewrite decide_True.
Qed.

Definition ex_shared : tree :=
  <[[] := new_node KDir 448 0]> {[[bs "a"] := new_node (KFile (bs "abc")) 420 0]}.
Definition ex_applied : result ApplyOutcome * ActiveShare * tree * partials :=
  apply_remote_transfer_impl ex_applying ex_shared ∅ ex_local_env (λ _, false) ex_deletion ∅ 8 8
    ex_env ex_env.
Definition ex_outcome : ApplyOutcome :=
  {| ao_pending_downloads := 0; ao_applied_records := 1; ao_unsupported_items := 0 |}.

Lemma apply_is_merge_witness :
  ex_applied.1.1.1 = Ok ex_outcome ∧ ex_applied.1.2 !! [bs "a"] = None ∧
  ∃ before after pending,
    (manifest_snapshot ex_applying).1 = Ok before ∧
    (manifest_snapshot ex_applied.1.1.2).1 = Ok after ∧
    ao_pending_downloads ex_outcome = Z.min u64_max (blen pending) ∧
    let local := record (ms_manifest before) in
    let new := record (ms_manifest after) in
    (∀ p, p ∉ pending → new p = select_record (local p) (record ex_deletion p)) ∧
    (∀ p, p ∈ pending → ∃ entry, mf_entries ex_deletion !! p = Some entry ∧
       select_record (local p) (record ex_deletion p) = Some (RFile entry)) ∧
    (∀ p, new p = local p ∨ new p = select_record (local p) (record ex_deletion p)).
Proof.
  assert (Hr : ex_applied.1.1.1 = Ok ex_outcome) by (vm_compute; reflexivity).
  split; [exact Hr|split; [vm_compute; reflexivity|]].
  assert (Hrun : apply_remote_transfer_impl ex_applying ex_shared ∅ ex_local_env (λ _, false)
      ex_deletion ∅ 8 8 ex_env ex_env =
    (Ok ex_outcome, ex_applied.1.1.2, ex_applied.1.2, ex_applied.2)).
  { fold ex_applied. rewrite <-Hr. by destruct ex_applied as [[[? ?] ?] ?]. }
  exact (apply_is_merge ex_applying ex_applied.1.1.2 ex_shared ex_applied.1.2 ∅ ex_applied.2
    ex_local_env (λ _, false) ex_deletion ∅ 8 8 ex_env ex_env ex_outcome ex_applying_coherent
    ltac:(vm_compute; reflexivity) Hrun).
Defined.
