(* ===== verification/Scan.v ===== *)
(** * Scanning the shared directory (src/manifest/scan.rs)

    [discover_entries] walks the directory and hashes what changed;
    [scan_manifest_cached_after_validation] compares what it found with the
    previous manifest, stamps every change with a tick of the clock and turns what
    vanished into tombstones.  A scanned manifest describes the directory, a change
    is newer than everything the clock covered, and a scan of an unchanged directory
    reads no file and changes nothing. *)

From S2P Require Import Prelude Collections Bytes External Reference Clock Types ManifestPath Manifest Merge LocalFs.

(** [WalkDir::new(root).follow_links(false)] of the walkdir crate: every node at or
    below the root once, with its type; [None] is an entry that it could not read. *)
Class WalkDir := {
  walk_dir : tree → list (option (list bytes * node));
  walk_dir_sound t p n : Some (p, n) ∈ walk_dir t → t !! p = Some n;
  walk_dir_complete t p n :
    tree_wf t → None ∉ walk_dir t → t !! p = Some n → Some (p, n) ∈ walk_dir t;
}.

(** ** Metadata *)

Definition permissions_from_metadata (n : node) : option Z := Some (Z.land (n_mode n) MODE_MASK).

Definition is_none {A} (o : option A) : bool := match o with None => true | Some _ => false end.

Definition permissions_match (left right : option Z) (unknown_matches : bool) : bool :=
  (unknown_matches && (is_none left || is_none right)) || bool_decide (left = right).

Definition selected_permissions (previous discovered : option Z) : option Z := discovered.

(** Nanoseconds since the epoch: 0 before it, at most [u64::MAX]. *)
Definition modified_at_ns (n : node) : Z := Z.min (Z.max 0 (n_modified n)) u64_max.

Definition metadata_len (n : node) : Z := blen (file_content n).

(** [fs::read_link]. *)
Definition read_link (t : tree) (p : list bytes) : io bytes :=
  match lstat t p with
  | Done n => match n_kind n with KSymlink target => Done target | _ => Fails Refused end
  | Fails e => Fails e
  end.

(** ** Hashing *)

Section hashing.
Context `{HexCodec, Sha256}.

(** The read loop: what each [read] returned, until it returned nothing. *)
Fixpoint hash_reads (hashed : bytes) (pieces : list bytes) : bytes :=
  match pieces with
  | [] => sha256 hashed
  | piece :: rest => if bool_decide (piece = []) then sha256 hashed else hash_reads (hashed ++ piece) rest
  end.

(** The rounds of [hash_stable_file]; in round [k] the file is opened and read as
    [reads k] says, and then has the metadata given there. *)
Fixpoint hash_rounds (reads : nat → io (list bytes * node)) (first : node) (rounds : list nat)
    : result (Z * Z * bytes * option Z) :=
  match rounds with
  | [] => Err "local file changed while it was being scanned"
  | k :: rest =>
      match reads k with
      | Fails _ => Err "unable to open local file"
      | Done (pieces, after) =>
          if (metadata_len after =? metadata_len first)
             && (modified_at_ns after =? modified_at_ns first)
             && permissions_match (permissions_from_metadata first)
                  (permissions_from_metadata after) false
          then Ok (metadata_len first, modified_at_ns first, hex_encode (hash_reads [] pieces),
                   selected_permissions None (permissions_from_metadata first))
          else hash_rounds reads first rest
      end
  end.

Definition hash_stable_file (reads : nat → io (list bytes * node)) (expected_metadata : node)
    : result (Z * Z * bytes * option Z) :=
  hash_rounds reads expected_metadata [0; 1; 2]%nat.
End hashing.

(** ** Discovery *)

Record DiscoveredFile := {
  df_size : Z;
  df_modified_at_ns : Z;
  df_sha256 : bytes;
  df_permissions : option Z;
}.
Record DiscoveredDirectory := { dd_permissions : option Z }.
Record DiscoveredSymlink := { ds_target : bytes }.

Record DiscoveredEntries := {
  d_files : gmap bytes DiscoveredFile;
  d_directories : gmap bytes DiscoveredDirectory;
  d_symlinks : gmap bytes DiscoveredSymlink;
}.
Definition DiscoveredEntries_new : DiscoveredEntries :=
  {| d_files := ∅; d_directories := ∅; d_symlinks := ∅ |}.

(** What one entry is recorded as. *)
Inductive Discovered :=
| DFile (f : DiscoveredFile)
| DDirectory (d : DiscoveredDirectory)
| DSymlink (l : DiscoveredSymlink).

Definition add_discovered (d : DiscoveredEntries) (item : bytes * Discovered)
    : DiscoveredEntries :=
  let '(path, x) := item in {|
    d_files := match x with DFile f => <[path := f]> (d_files d) | _ => d_files d end;
    d_directories :=
      match x with DDirectory f => <[path := f]> (d_directories d) | _ => d_directories d end;
    d_symlinks :=
      match x with DSymlink f => <[path := f]> (d_symlinks d) | _ => d_symlinks d end |}.

(** Sockets, devices and pipes are skipped. *)
Definition is_special (n : node) : bool := negb (is_dir n) && negb (is_file n) && negb (is_symlink n).

Definition too_many (d : DiscoveredEntries) : bool :=
  match (count ← checked_add u64_max (Z.of_nat (size (d_files d)))
                   (Z.of_nat (size (d_directories d)));
         checked_add u64_max count (Z.of_nat (size (d_symlinks d)))) with
  | None => true
  | Some count => MAX_MANIFEST_ENTRIES <=? count
  end.

(** ** Results *)

Inductive Cow := Borrowed (m : Manifest) | Owned (m : Manifest).
Definition into_owned (c : Cow) : Manifest := match c with Borrowed m | Owned m => m end.

Record ScanResult (M : Type) := {
  sr_manifest : M;
  sr_clock : ClockState;
  sr_files : Z;
  sr_tombstones : Z;
  sr_changes : Z;
  sr_changed : bool;
  sr_manifest_changed : bool;
}.
Arguments sr_manifest {_} _.
Arguments sr_clock {_} _.
Arguments sr_files {_} _.
Arguments sr_tombstones {_} _.
Arguments sr_changes {_} _.
Arguments sr_changed {_} _.
Arguments sr_manifest_changed {_} _.

Section scan.
Context `{HexCodec, Sha256, Iroh, WalkDir} (root : bytes).
(** What reading each file gives, round by round. *)
Context (reads : list bytes → nat → io (list bytes * node)).

(** The digest is reused when size, time and permissions are the recorded ones. *)
Definition fast_path (old : ManifestEntry) (n : node) (unknown_permissions_match : bool) : bool :=
  (me_size old =? metadata_len n) && (modified_at_ns n =? me_modified_at_ns old)
  && permissions_match (permissions_from_metadata n) (me_permissions old)
       unknown_permissions_match.

Definition discover_file (previous : Manifest) (unknown_permissions_match : bool) (path : bytes)
    (names : list bytes) (n : node) : result DiscoveredFile :=
  let slow :=
    '(size, modified, digest, permissions) ← hash_stable_file (reads names) n;
    Ok {| df_size := size; df_modified_at_ns := modified; df_sha256 := digest;
          df_permissions := permissions |} in
  match mf_entries previous !! path with
  | Some old =>
      if fast_path old n unknown_permissions_match
      then Ok {| df_size := me_size old; df_modified_at_ns := me_modified_at_ns old;
                 df_sha256 := me_sha256 old; df_permissions := me_permissions old |}
      else slow
  | None => slow
  end.

(** The part of the loop that inspects an entry, once it is known to be counted. *)
Definition inspect (t : tree) (previous : Manifest) (unknown_permissions_match : bool)
    (names : list bytes) (n : node) : result (bytes * Discovered) :=
  path ← relative_manifest_path root (foldl path_push root names);
  if is_symlink n then
    match read_link t names with
    | Fails _ => Err "unable to read symlink"
    | Done target =>
        bail_if (negb (is_utf8 target)) "local symlink target is not valid UTF-8";;
        validate_symlink_target target;;
        Ok (path, DSymlink {| ds_target := target |})
    end
  else
    match lstat t names with
    | Fails _ => Err "unable to inspect local path"
    | Done metadata =>
        if is_dir n
        then Ok (path, DDirectory {| dd_permissions := permissions_from_metadata metadata |})
        else
          f ← discover_file previous unknown_permissions_match path names metadata;
          Ok (path, DFile f)
    end.

Definition discover_entry (t : tree) (previous : Manifest) (unknown_permissions_match : bool)
    (d : DiscoveredEntries) (entry : option (list bytes * node)) : result DiscoveredEntries :=
  '(names, n) ← ok_or entry "unable to scan local directory";
  if bool_decide (components (foldl path_push root names) = components root) then Ok d
  else if is_special n then Ok d
  else
    bail_if (too_many d) "local directory exceeds the maximum supported file count";;
    item ← inspect t previous unknown_permissions_match names n;
    Ok (add_discovered d item).

Definition discover_entries (t : tree) (previous : Manifest) (unknown_permissions_match : bool)
    : result DiscoveredEntries :=
  metadata ← ok_or (t !! []) "unable to inspect local directory";
  bail_if (negb (is_dir metadata)) "local path is not a directory";;
  try_fold (discover_entry t previous unknown_permissions_match) (walk_dir t)
    DiscoveredEntries_new.

(** ** Comparison with the previous manifest *)

(** [a.iter().zip(&b).all(f)]. *)
Definition zip_all {A B} (f : A → B → bool) (l : list A) (r : list B) : bool :=
  forallb (λ '(x, y), f x y) (zip l r).

Definition file_equal (unknown : bool) (old : bytes * ManifestEntry)
    (new : bytes * DiscoveredFile) : bool :=
  bool_decide (old.1 = new.1) && (me_size old.2 =? df_size new.2)
  && (me_modified_at_ns old.2 =? df_modified_at_ns new.2)
  && bool_decide (me_sha256 old.2 = df_sha256 new.2)
  && permissions_match (me_permissions old.2) (df_permissions new.2) unknown.
Definition directory_equal (unknown : bool) (old : bytes * DirectoryEntry)
    (new : bytes * DiscoveredDirectory) : bool :=
  bool_decide (old.1 = new.1)
  && permissions_match (de_permissions old.2) (dd_permissions new.2) unknown.
Definition symlink_equal (old : bytes * SymlinkEntry) (new : bytes * DiscoveredSymlink) : bool :=
  bool_decide (old.1 = new.1) && bool_decide (se_target old.2 = ds_target new.2).

Definition matches_previous (d : DiscoveredEntries) (previous : Manifest)
    (unknown_permissions_match : bool) : bool :=
  if negb (mf_format_version previous =? MANIFEST_FORMAT_VERSION)
     || negb (size (mf_entries previous) =? size (d_files d))%nat
     || negb (size (mf_directories previous) =? size (d_directories d))%nat
     || negb (zip_all (file_equal unknown_permissions_match)
                (bt_iter (mf_entries previous)) (bt_iter (d_files d)))
     || negb (zip_all (directory_equal unknown_permissions_match)
                (bt_iter (mf_directories previous)) (bt_iter (d_directories d)))
  then false
  else (size (mf_symlinks previous) =? size (d_symlinks d))%nat
       && zip_all symlink_equal (bt_iter (mf_symlinks previous)) (bt_iter (d_symlinks d)).

(** ** The scan *)

(** The variables of the loops. *)
Record scanning := {
  sc_clock : ClockState;
  sc_entries : gmap bytes ManifestEntry;
  sc_directories : gmap bytes DirectoryEntry;
  sc_symlinks : gmap bytes SymlinkEntry;
  sc_tombstones : gmap bytes Tombstone;
  sc_changes : Z;
}.

Context (previous : Manifest) (endpoint_id : EndpointId) (now_ms : Z).

(** One more change, with a new version. *)
Definition stamp (st : scanning) : result (ClockState * HlcTimestamp * Z) :=
  '(clock, version) ← tick (sc_clock st) now_ms (ep_as_bytes endpoint_id);
  Ok (clock, version, saturating_add u64_max (sc_changes st) 1).

Definition file_unchanged (unknown : bool) (entry : ManifestEntry) (f : DiscoveredFile) : bool :=
  (me_size entry =? df_size f) && bool_decide (me_sha256 entry = df_sha256 f)
  && permissions_match (me_permissions entry) (df_permissions f) unknown.

(** A known file keeps its version; only the recorded time follows the disk. *)
Definition keep_entry (old : ManifestEntry) (f : DiscoveredFile) : ManifestEntry := {|
  me_size := me_size old; me_modified_at_ns := df_modified_at_ns f; me_sha256 := df_sha256 f;
  me_permissions := me_permissions old; me_version := me_version old |}.
Definition new_entry (old : option ManifestEntry) (f : DiscoveredFile) (version : HlcTimestamp)
    : ManifestEntry := {|
  me_size := df_size f; me_modified_at_ns := df_modified_at_ns f; me_sha256 := df_sha256 f;
  me_permissions := selected_permissions (old ≫= me_permissions) (df_permissions f);
  me_version := version |}.

Definition scan_file (unknown : bool) (st : scanning) (item : bytes * DiscoveredFile)
    : result scanning :=
  let '(path, f) := item in
  let old_entry := mf_entries previous !! path in
  '(clock, entry, changes) ←
    match old_entry with
    | Some old =>
        if file_unchanged unknown old f then Ok (sc_clock st, keep_entry old f, sc_changes st)
        else '(clock, version, changes) ← stamp st; Ok (clock, new_entry old_entry f version, changes)
    | None => '(clock, version, changes) ← stamp st; Ok (clock, new_entry old_entry f version, changes)
    end;
  Ok {| sc_clock := clock; sc_entries := <[path := entry]> (sc_entries st);
        sc_directories := sc_directories st; sc_symlinks := delete path (sc_symlinks st);
        sc_tombstones := delete path (sc_tombstones st); sc_changes := changes |}.

Definition scan_directory (unknown : bool) (st : scanning) (item : bytes * DiscoveredDirectory)
    : result scanning :=
  let '(path, d) := item in
  let old_entry := mf_directories previous !! path in
  let fresh :=
    '(clock, version, changes) ← stamp st;
    Ok (clock,
        {| de_permissions := selected_permissions (old_entry ≫= de_permissions) (dd_permissions d);
           de_version := version |}, changes) in
  '(clock, entry, changes) ←
    match old_entry with
    | Some old =>
        if permissions_match (de_permissions old) (dd_permissions d) unknown
        then Ok (sc_clock st, old, sc_changes st) else fresh
    | None => fresh
    end;
  Ok {| sc_clock := clock; sc_entries := sc_entries st;
        sc_directories := <[path := entry]> (sc_directories st);
        sc_symlinks := delete path (sc_symlinks st);
        sc_tombstones := delete path (sc_tombstones st); sc_changes := changes |}.

Definition scan_symlink (st : scanning) (item : bytes * DiscoveredSymlink) : result scanning :=
  let '(path, l) := item in
  let fresh :=
    '(clock, version, changes) ← stamp st;
    Ok (clock, {| se_target := ds_target l; se_version := version |}, changes) in
  '(clock, entry, changes) ←
    match mf_symlinks previous !! path with
    | Some old =>
        if bool_decide (se_target old = ds_target l) then Ok (sc_clock st, old, sc_changes st)
        else fresh
    | None => fresh
    end;
  Ok {| sc_clock := clock; sc_entries := sc_entries st; sc_directories := sc_directories st;
        sc_symlinks := <[path := entry]> (sc_symlinks st);
        sc_tombstones := delete path (sc_tombstones st); sc_changes := changes |}.

(** A path that was live and was not found becomes a tombstone. *)
Definition scan_missing (st : scanning) (path : bytes) : result scanning :=
  if negb (contains_key (sc_entries st) path) && negb (contains_key (sc_directories st) path)
     && negb (contains_key (sc_symlinks st) path)
  then
    '(clock, version, changes) ← stamp st;
    Ok {| sc_clock := clock; sc_entries := sc_entries st; sc_directories := sc_directories st;
          sc_symlinks := sc_symlinks st;
          sc_tombstones := <[path := {| tb_version := version |}]> (sc_tombstones st);
          sc_changes := changes |}
  else Ok st.

(** The four loops. *)
Definition scan_loops (unknown : bool) (d : DiscoveredEntries) (clock : ClockState)
    : result scanning :=
  let st := {| sc_clock := clock; sc_entries := ∅; sc_directories := ∅; sc_symlinks := ∅;
               sc_tombstones := mf_tombstones previous; sc_changes := 0 |} in
  st ← try_fold (scan_file unknown) (bt_iter (d_files d)) st;
  st ← try_fold (scan_directory unknown) (bt_iter (d_directories d)) st;
  st ← try_fold scan_symlink (bt_iter (d_symlinks d)) st;
  try_fold scan_missing (live_paths previous) st.

Definition scanned_manifest (st : scanning) : Manifest := {|
  mf_format_version := MANIFEST_FORMAT_VERSION; mf_share_id := mf_share_id previous;
  mf_scanned_at_ms := now_ms; mf_entries := sc_entries st; mf_directories := sc_directories st;
  mf_symlinks := sc_symlinks st; mf_tombstones := sc_tombstones st |}.

Definition unknown_permissions : bool :=
  negb (mf_format_version previous =? LEGACY_MANIFEST_FORMAT_VERSION).

Definition scan_manifest_cached_after_validation (t : tree) (clock : ClockState)
    : result (ScanResult Cow) :=
  ClockState_validate clock;;
  discovered ← discover_entries t previous unknown_permissions;
  if matches_previous discovered previous unknown_permissions then
    Ok {| sr_manifest := Borrowed previous; sr_clock := clock;
          sr_files := Z.of_nat (size (mf_entries previous));
          sr_tombstones := Z.of_nat (size (mf_tombstones previous));
          sr_changes := 0; sr_changed := false; sr_manifest_changed := false |}
  else
    st ← scan_loops unknown_permissions discovered clock;
    let manifest_changed :=
      negb (mf_format_version previous =? MANIFEST_FORMAT_VERSION)
      || negb (bool_decide (mf_entries previous = sc_entries st))
      || negb (bool_decide (mf_directories previous = sc_directories st))
      || negb (bool_decide (mf_symlinks previous = sc_symlinks st))
      || negb (bool_decide (mf_tombstones previous = sc_tombstones st)) in
    Manifest_validate (scanned_manifest st) (mf_share_id previous);;
    Ok {| sr_manifest := Owned (scanned_manifest st); sr_clock := sc_clock st;
          sr_files := Z.of_nat (size (sc_entries st));
          sr_tombstones := Z.of_nat (size (sc_tombstones st));
          sr_changes := sc_changes st; sr_changed := 0 <? sc_changes st;
          sr_manifest_changed := manifest_changed |}.

Definition scan_manifest (t : tree) (clock : ClockState) : result (ScanResult Manifest) :=
  Manifest_validate previous (mf_share_id previous);;
  scanned ← scan_manifest_cached_after_validation t clock;
  let m := into_owned (sr_manifest scanned) in
  Ok {| sr_manifest := {| mf_format_version := mf_format_version m; mf_share_id := mf_share_id m;
                          mf_scanned_at_ms := now_ms; mf_entries := mf_entries m;
                          mf_directories := mf_directories m; mf_symlinks := mf_symlinks m;
                          mf_tombstones := mf_tombstones m |};
        sr_clock := sr_clock scanned; sr_files := sr_files scanned;
        sr_tombstones := sr_tombstones scanned; sr_changes := sr_changes scanned;
        sr_changed := sr_changed scanned; sr_manifest_changed := sr_manifest_changed scanned |}.
End scan.

(** ** What is discovered *)

(** The tree below the root of a share, with names as a directory holds them. *)
Definition disk_tree (t : tree) : Prop :=
  tree_wf t ∧ ∀ p n, t !! p = Some n → Forall good_name p.

Lemma good_names_components root names :
  root ≠ [] → Forall good_name names →
  components (foldl path_push root names) = components root ++ map Normal names.
Proof.
  intros Hr Hg. rewrite components_push_all; [|done|].
  - f_equal. induction Hg as [|p ps (H1 & H2 & H3 & _) _ IH]; [done|].
    assert (piece_component p = Some (Normal p)) as Hp
      by (unfold piece_component; by rewrite !bool_decide_false).
    change (omap piece_component (p :: ps)) with
      (match piece_component p with Some c => c :: omap piece_component ps
       | None => omap piece_component ps end). by rewrite Hp, IH.
  - eapply Forall_impl; [exact Hg|]. by intros p (_ & _ & _ & ?).
Qed.

Lemma Normal_inj_list ns ms : map Normal ns = map Normal ms → ns = ms.
Proof. revert ms. induction ns as [|n ns IH]; intros [|m ms]; simpl; try done. intros [= -> E]. f_equal; auto. Qed.

(** The root itself is skipped. *)
Lemma good_names_root root names :
  root ≠ [] → Forall good_name names →
  components (foldl path_push root names) = components root ↔ names = [].
Proof.
  intros Hr Hg. rewrite good_names_components by done. split; [|intros ->; apply app_nil_r].
  intros E. apply (f_equal length) in E. rewrite length_app, length_map in E.
  destruct names; [done|simpl in E; lia].
Qed.

Lemma good_names_relative root names path :
  root ≠ [] → Forall good_name names →
  relative_manifest_path root (foldl path_push root names) = Ok path ↔
  Forall plain_name names ∧ path = join_slash names ∧ path_ok path.
Proof.
  intros Hr Hg. rewrite relative_manifest_path_Ok, good_names_components by done. split.
  - intros (ns & E & Hf & -> & Hv). apply app_inv_head, Normal_inj_list in E as <-. done.
  - intros (Hf & -> & Hv). by exists names.
Qed.

Lemma join_slash_inj ns ms :
  ns ≠ [] → ms ≠ [] → Forall good_name ns → Forall good_name ms →
  join_slash ns = join_slash ms → ns = ms.
Proof.
  intros Hn Hm Gn Gm E. rewrite <-(join_path_names ns Hn Gn), <-(join_path_names ms Hm Gm).
  by rewrite E.
Qed.

(** Adding items whose paths determine them. *)
Definition functional {A} (items : list (bytes * A)) : Prop :=
  ∀ p x y, (p, x) ∈ items → (p, y) ∈ items → x = y.

Lemma add_all_discovered items :
  functional items →
  let d := foldl add_discovered DiscoveredEntries_new items in
  (∀ p f, d_files d !! p = Some f ↔ (p, DFile f) ∈ items) ∧
  (∀ p f, d_directories d !! p = Some f ↔ (p, DDirectory f) ∈ items) ∧
  (∀ p f, d_symlinks d !! p = Some f ↔ (p, DSymlink f) ∈ items).
Proof.
  induction items as [|[q x] items IH] using rev_ind; intros Hf.
  { split_and!; intros p f; simpl; rewrite lookup_empty;
      (split; [done|by intros ?%not_elem_of_nil]). }
  rewrite foldl_snoc. destruct IH as (IH1 & IH2 & IH3).
  { intros p y z Hy Hz. eapply Hf; apply elem_of_app; by left. }
  assert (Hq : ∀ y, (q, y) ∈ items → y = x).
  { intros y Hy. eapply (Hf q); apply elem_of_app; [by left|right; by apply list_elem_of_singleton]. }
  set (d := foldl add_discovered DiscoveredEntries_new items) in *.
  assert (Hsnoc : ∀ p y, (p, y) ∈ items ++ [(q, x)] ↔
    (q = p ∧ x = y) ∨ (q ≠ p ∧ (p, y) ∈ items)).
  { intros p y. rewrite elem_of_app, list_elem_of_singleton. split.
    - intros [Hy|[= -> ->]]; [|by left]. destruct (decide (q = p)) as [<-|]; [|by right].
      left. by rewrite (Hq y Hy).
    - intros [[-> ->]|[_ Hy]]; [by right|by left]. }
  assert (Hother : ∀ p y, x ≠ y → (p, y) ∈ items ++ [(q, x)] ↔ (p, y) ∈ items).
  { intros p y Hne. rewrite Hsnoc. split; [tauto|]. intros Hy. right. split; [|done].
    intros <-. by apply Hne, eq_sym, Hq. }
  clearbody d. clear Hf Hq.
  split_and!; intros p f; destruct x; simpl;
    first [ rewrite lookup_insert_Some, Hsnoc, ?IH1, ?IH2, ?IH3; clear; naive_solver
          | rewrite Hother, ?IH1, ?IH2, ?IH3 by done; done ].
Qed.

Section discovery.
Context `{HexCodec, Sha256, Iroh, WalkDir} (root : bytes) (Hroot : root ≠ []).
Context (reads : list bytes → nat → io (list bytes * node)).
Context (t : tree) (Ht : disk_tree t) (previous : Manifest) (unknown : bool).

(** The entries that are inspected. *)
Definition counted (entry : option (list bytes * node)) : bool :=
  match entry with
  | Some (names, n) => negb (bool_decide (names = [])) && negb (is_special n)
  | None => true
  end.

(** A node below the root that was recorded as [x] at [path]. *)
Definition seen (path : bytes) (x : Discovered) : Prop :=
  ∃ names n, t !! names = Some n ∧ counted (Some (names, n)) = true ∧
    inspect root reads t previous unknown names n = Ok (path, x).

Lemma counted_true names n :
  counted (Some (names, n)) = true ↔ names ≠ [] ∧ is_special n = false.
Proof. unfold counted. rewrite andb_true_iff, !negb_true_iff, bool_decide_eq_false. done. Qed.

Lemma discover_entry_cases d names n :
  t !! names = Some n →
  discover_entry root reads t previous unknown d (Some (names, n)) =
    if counted (Some (names, n)) then
      bail_if (too_many d) "local directory exceeds the maximum supported file count";;
      item ← inspect root reads t previous unknown names n;
      Ok (add_discovered d item)
    else Ok d.
Proof.
  intros Hn. unfold discover_entry, counted. simpl.
  pose proof (proj2 Ht names n Hn) as Hg.
  rewrite (bool_decide_ext _ _ (good_names_root root names Hroot Hg)).
  case_bool_decide; simpl; [done|]. by destruct (is_special n).
Qed.

Lemma inspect_key names n path x :
  Forall good_name names → inspect root reads t previous unknown names n = Ok (path, x) →
  Forall plain_name names ∧ path = join_slash names ∧ path_ok path.
Proof.
  intros Hg. unfold inspect. rewrite bind_Ok.
  intros (p & Hp%(good_names_relative _ _ _ Hroot Hg) & Hi). destruct (is_symlink n).
  - destruct (read_link t names); [|done]. res_inv. by simplify_eq.
  - destruct (lstat t names); [|done]. destruct (is_dir n); res_inv; by simplify_eq.
Qed.

(** What the loop over [l] records. *)
Definition inspected (l : list (option (list bytes * node))) (item : bytes * Discovered) : Prop :=
  ∃ names n, Some (names, n) ∈ l ∧ counted (Some (names, n)) = true ∧
    inspect root reads t previous unknown names n = Ok item.

Lemma inspected_cons names n l item :
  inspected (Some (names, n) :: l) item ↔
  (counted (Some (names, n)) = true ∧
   inspect root reads t previous unknown names n = Ok item) ∨ inspected l item.
Proof.
  unfold inspected. setoid_rewrite elem_of_cons. split.
  - intros (names' & n' & [[= -> ->]|E] & Hx); [by left|right; by exists names', n'].
  - intros [Hx|(names' & n' & E & Hx)]; [exists names, n|exists names', n']; tauto.
Qed.

Lemma discover_fold l d d' :
  (∀ names n, Some (names, n) ∈ l → t !! names = Some n) →
  try_fold (discover_entry root reads t previous unknown) l d = Ok d' →
  None ∉ l ∧
  (∀ names n, Some (names, n) ∈ l → counted (Some (names, n)) = true →
    ∃ item, inspect root reads t previous unknown names n = Ok item) ∧
  ∃ items, d' = foldl add_discovered d items ∧ ∀ item, item ∈ items ↔ inspected l item.
Proof.
  revert d. induction l as [|entry l IH]; intros d Hl Hd.
  { simpl in Hd. injection Hd as <-. split; [by apply not_elem_of_nil|].
    split; [by intros ? ? ?%not_elem_of_nil|]. exists []. split; [done|].
    intros item. split; [by intros ?%not_elem_of_nil|]. by intros (? & ? & ?%not_elem_of_nil & _). }
  cbn [try_fold] in Hd. apply bind_Ok in Hd as (d1 & Hentry & Hd).
  assert (Hl' : ∀ names n, Some (names, n) ∈ l → t !! names = Some n)
    by (intros; apply Hl; by right).
  destruct (IH d1 Hl' Hd) as (Hnone & Hall & items & -> & Hitems).
  destruct entry as [[names n]|]; [|done].
  assert (Hn : t !! names = Some n) by (apply Hl; by left).
  rewrite discover_entry_cases in Hentry by done.
  split; [by intros [|?]%elem_of_cons|].
  destruct (counted (Some (names, n))) eqn:Ec.
  - apply bind_Ok in Hentry as (_ & _ & Hentry).
    apply bind_Ok in Hentry as (item & Hi & [= <-]). split.
    + intros names' n' [[= -> ->]|Hin]%elem_of_cons Hx; [by eexists|by apply Hall].
    + exists (item :: items). split; [done|]. intros x.
      rewrite elem_of_cons, Hitems, inspected_cons, Ec, Hi. intuition congruence.
  - injection Hentry as <-. split.
    + intros names' n' [[= -> ->]|Hin]%elem_of_cons Hx; [congruence|by apply Hall].
    + exists items. split; [done|]. intros x. rewrite Hitems, inspected_cons, Ec.
      intuition congruence.
Qed.

Lemma seen_functional p x y : seen p x → seen p y → x = y.
Proof.
  intros (ns & n & Hn & [Hne _]%counted_true & Hi) (ms & m & Hm & [Hme _]%counted_true & Hj).
  pose proof (proj2 Ht _ _ Hn) as Gn. pose proof (proj2 Ht _ _ Hm) as Gm.
  pose proof (inspect_key ns n p x Gn Hi) as (_ & E & _).
  pose proof (inspect_key ms m p y Gm Hj) as (_ & E' & _).
  assert (ns = ms) as -> by (apply join_slash_inj; congruence). congruence.
Qed.

(** Discovery records exactly the nodes below the root that are not special. *)
Lemma discover_entries_spec d :
  discover_entries root reads t previous unknown = Ok d →
  (∀ p f, d_files d !! p = Some f ↔ seen p (DFile f)) ∧
  (∀ p f, d_directories d !! p = Some f ↔ seen p (DDirectory f)) ∧
  (∀ p f, d_symlinks d !! p = Some f ↔ seen p (DSymlink f)) ∧
  (∀ names n, t !! names = Some n → counted (Some (names, n)) = true →
    ∃ x, seen (join_slash names) x ∧
      inspect root reads t previous unknown names n = Ok (join_slash names, x)).
Proof.
  unfold discover_entries. intros Hd. apply bind_Ok in Hd as (r & _ & Hd).
  apply bind_Ok in Hd as (u & _ & Hd).
  apply discover_fold in Hd as (Hnone & Hall & items & -> & Hitems); [|apply walk_dir_sound].
  assert (Hwalk : ∀ names n, Some (names, n) ∈ walk_dir t ↔ t !! names = Some n).
  { split; [apply walk_dir_sound|]. by apply walk_dir_complete; [apply Ht|]. }
  assert (Hseen : ∀ p x, (p, x) ∈ items ↔ seen p x).
  { intros p x. rewrite Hitems. unfold inspected, seen. by setoid_rewrite Hwalk. }
  destruct (add_all_discovered items) as (A1 & A2 & A3).
  { intros p x y Hx%Hseen Hy%Hseen. by eapply seen_functional. }
  split_and!; [intros; rewrite ?A1, ?A2, ?A3; apply Hseen..|]. intros names n Hn Hc.
  destruct (Hall names n) as ([p x] & Hx); [by apply Hwalk|done|].
  pose proof (inspect_key names n p x (proj2 Ht _ _ Hn) Hx) as (_ & -> & _).
  exists x. split; [|done]. by exists names, n.
Qed.

(** *** What each kind of node is recorded as *)

Lemma hash_rounds_Ok (rs : nat → io (list bytes * node)) n rounds size modified digest permissions :
  hash_rounds rs n rounds = Ok (size, modified, digest, permissions) →
  size = metadata_len n ∧ modified = modified_at_ns n ∧
  permissions = permissions_from_metadata n ∧
  ∃ k pieces after, k ∈ rounds ∧ rs k = Done (pieces, after) ∧
    metadata_len after = metadata_len n ∧ modified_at_ns after = modified_at_ns n ∧
    digest = hex_encode (hash_reads [] pieces).
Proof.
  induction rounds as [|k rounds IH]; simpl; [done|].
  destruct (rs k) as [[pieces after]|] eqn:Er; [|done]. destruct (_ && _) eqn:Es.
  - intros [= <- <- <- <-]. bool_inv. split_and!; [done..|].
    exists k, pieces, after. split_and!; [by left|done..].
  - intros (? & ? & ? & k' & pieces' & after' & Hk & Hx)%IH. split_and!; [done..|].
    exists k', pieces', after'. split; [by right|done].
Qed.

Lemma permissions_match_refl o b : permissions_match o o b = true.
Proof. unfold permissions_match. rewrite bool_decide_true by done. apply orb_true_r. Qed.

Lemma permissions_match_sym l r b : permissions_match l r b = permissions_match r l b.
Proof.
  unfold permissions_match. rewrite (orb_comm (is_none l)). f_equal.
  apply bool_decide_ext. naive_solver.
Qed.

(** The digest of a discovered file: reused, or of what a stable round read. *)
Definition digest_of (path : bytes) (names : list bytes) (n : node) (f : DiscoveredFile) : Prop :=
  (∃ old, mf_entries previous !! path = Some old ∧ fast_path old n unknown = true ∧
    df_sha256 f = me_sha256 old ∧ df_permissions f = me_permissions old) ∨
  (df_permissions f = permissions_from_metadata n ∧
   ∃ k pieces after, reads names k = Done (pieces, after) ∧
    metadata_len after = metadata_len n ∧ modified_at_ns after = modified_at_ns n ∧
    df_sha256 f = hex_encode (hash_reads [] pieces)).

Lemma discover_file_Ok path names n f :
  discover_file reads previous unknown path names n = Ok f →
  df_size f = metadata_len n ∧ df_modified_at_ns f = modified_at_ns n ∧
  permissions_match (df_permissions f) (permissions_from_metadata n) unknown = true ∧
  digest_of path names n f.
Proof.
  unfold discover_file. set (slow := mbind _ (hash_stable_file (reads names) n)).
  assert (Hslow : slow = Ok f → df_size f = metadata_len n ∧ df_modified_at_ns f = modified_at_ns n ∧
    permissions_match (df_permissions f) (permissions_from_metadata n) unknown = true ∧
    digest_of path names n f).
  { subst slow. intros ([[[sz md] dg] pm] & Hh & [= <-])%bind_Ok.
    apply hash_rounds_Ok in Hh as (-> & -> & -> & k & pieces & after & _ & Hx).
    split_and!; [done..|apply permissions_match_refl|]. right. split; [done|].
    by exists k, pieces, after. }
  destruct (mf_entries previous !! path) as [old|] eqn:Eo; [|exact Hslow].
  destruct (fast_path old n unknown) eqn:Ef; [|exact Hslow].
  intros [= <-]; simpl. pose proof Ef as Ef'. unfold fast_path in Ef'. bool_inv.
  split_and!; [done..|by rewrite permissions_match_sym|]. left. by exists old.
Qed.

Lemma lstat_seen names n m : t !! names = Some n → lstat t names = Done m → m = n.
Proof. intros Hn Hm%lstat_Done. congruence. Qed.

Lemma seen_kind p x :
  seen p x →
  ∃ names n, t !! names = Some n ∧ names ≠ [] ∧ p = join_slash names ∧ path_ok p ∧
  match x with
  | DFile f => is_file n = true ∧ discover_file reads previous unknown p names n = Ok f
  | DDirectory d => is_dir n = true ∧ d = {| dd_permissions := permissions_from_metadata n |}
  | DSymlink l => n_kind n = KSymlink (ds_target l) ∧ validate_symlink_target (ds_target l) = Ok tt
  end.
Proof.
  intros (names & n & Hn & [Hne Hs]%counted_true & Hi).
  pose proof (inspect_key names n p x (proj2 Ht _ _ Hn) Hi) as (_ & Hp & Hok).
  exists names, n. split_and!; [done..|]. unfold inspect in Hi.
  apply bind_Ok in Hi as (path & _ & Hi). unfold is_special in Hs.
  destruct (is_symlink n) eqn:El.
  - unfold read_link in Hi. destruct (lstat t names) as [m|] eqn:Em; [|done].
    pose proof (lstat_seen names n m Hn Em) as ->. destruct (n_kind n) eqn:Ek; try done.
    apply bind_Ok in Hi as (_ & _ & Hi). apply bind_Ok in Hi as ([] & Hv & [= -> <-]). done.
  - destruct (lstat t names) as [m|] eqn:Em; [|done].
    pose proof (lstat_seen names n m Hn Em) as ->. destruct (is_dir n) eqn:Ed.
    + by injection Hi as <- <-.
    + apply bind_Ok in Hi as (f & Hf & [= <- <-]). simpl in Hs. split; [|done].
      by destruct (is_file n).
Qed.
End discovery.

(** ** The loops *)

Section loops.
Context `{Iroh} (previous : Manifest) (endpoint_id : EndpointId) (now_ms : Z) (unknown : bool).
Context (c0 : ClockState).
Implicit Types st : scanning.

(** A version issued by this scan: greater than all that the clock covered before
    it, and covered by the clock after it. *)
Definition issued st (v : HlcTimestamp) : Prop :=
  (∀ x, covers c0 x → ltb x v = true) ∧ covers (sc_clock st) v ∧
  author v = ep_as_bytes endpoint_id ∧ 0 < sc_changes st.

(** From one state of the scan to a later one. *)
Definition advances st st' : Prop :=
  clock_le (sc_clock st) (sc_clock st') ∧ sc_changes st ≤ sc_changes st'.

Lemma issued_advances st st' v : advances st st' → issued st v → issued st' v.
Proof.
  intros [Hc Hn] (H1 & H2 & H3 & H4). split_and!; [done|by eapply covers_le|done|lia].
Qed.

Lemma advances_refl st : advances st st.
Proof. split; [apply clock_le_refl|lia]. Qed.

(** The record of a file, of a directory, of a link. *)
Definition file_out st (p : bytes) (f : DiscoveredFile) (e : ManifestEntry) : Prop :=
  (∃ old, mf_entries previous !! p = Some old ∧ file_unchanged unknown old f = true ∧
    e = keep_entry old f) ∨
  (e = new_entry (mf_entries previous !! p) f (me_version e) ∧ issued st (me_version e)).
Definition directory_out st (p : bytes) (d : DiscoveredDirectory) (e : DirectoryEntry) : Prop :=
  (mf_directories previous !! p = Some e ∧
   permissions_match (de_permissions e) (dd_permissions d) unknown = true) ∨
  (de_permissions e = dd_permissions d ∧ issued st (de_version e)).
Definition symlink_out st (p : bytes) (l : DiscoveredSymlink) (e : SymlinkEntry) : Prop :=
  se_target e = ds_target l ∧
  (mf_symlinks previous !! p = Some e ∨ issued st (se_version e)).

Lemma file_out_advances st st' p f e : advances st st' → file_out st p f e → file_out st' p f e.
Proof. intros Ha [Hk|[He Hi]]; [by left|right]. split; [done|by eapply issued_advances]. Qed.
Lemma directory_out_advances st st' p d e :
  advances st st' → directory_out st p d e → directory_out st' p d e.
Proof. intros Ha [Hk|[He Hi]]; [by left|right]. split; [done|by eapply issued_advances]. Qed.
Lemma symlink_out_advances st st' p l e :
  advances st st' → symlink_out st p l e → symlink_out st' p l e.
Proof. intros Ha [Ht [Hk|Hi]]; (split; [done|]); [by left|right; by eapply issued_advances]. Qed.

(** The clock only advances, and only with the number of changes. *)
Definition sound_clock st : Prop :=
  clock_le c0 (sc_clock st) ∧ is_u64 (sc_changes st) ∧ (sc_changes st = 0 → sc_clock st = c0).

Lemma stamp_Ok st st' v :
  sound_clock st → stamp endpoint_id now_ms st = Ok (sc_clock st', v, sc_changes st') →
  sound_clock st' ∧ advances st st' ∧ issued st' v.
Proof.
  intros (Hc & Hn & _) Hs. unfold stamp in Hs.
  apply bind_Ok in Hs as ([clock w] & Ht & [= E1 <- E2]). rewrite E1 in Ht. clear E1.
  pose proof (tick_covers _ _ _ _ _ Ht) as [Hcov Hle].
  pose proof (tick_spec _ _ _ _ _ Ht) as (Ha & _).
  assert (Hpos : 0 < sc_changes st' ∧ sc_changes st ≤ sc_changes st' ≤ u64_max).
  { rewrite <-E2. unfold saturating_add. u_unfold. lia. }
  unfold sound_clock, advances, issued, is_u64. split_and!.
  - by eapply clock_le_trans.
  - lia.
  - lia.
  - lia.
  - done.
  - lia.
  - intros x Hx. eapply tick_after; [|done]. by eapply covers_le.
  - done.
  - done.
  - lia.
Qed.

Lemma sound_clock_same st st' :
  sound_clock st → sc_clock st' = sc_clock st → sc_changes st' = sc_changes st →
  sound_clock st' ∧ advances st st'.
Proof.
  intros Hs E1 E2. unfold sound_clock, advances. rewrite E1, E2.
  split; [done|]. split; [apply clock_le_refl|lia].
Qed.

(** A map with a value for each item of a list. *)
Definition keys {A : Type} (l : list (bytes * A)) : list bytes := map fst l.
Definition built {A V : Type} (l : list (bytes * A)) (m : gmap bytes V) (R : bytes → A → V → Prop)
    : Prop :=
  (∀ p v, m !! p = Some v → ∃ a, (p, a) ∈ l ∧ R p a v) ∧ (∀ p, p ∈ keys l → is_Some (m !! p)).

Lemma keys_snoc {A : Type} (l : list (bytes * A)) p a : keys (l ++ [(p, a)]) = keys l ++ [p].
Proof. unfold keys. by rewrite map_app. Qed.

Lemma built_nil {A V : Type} (R : bytes → A → V → Prop) : built [] ∅ R.
Proof. split; [intros p v; by rewrite lookup_empty|by intros p ?%not_elem_of_nil]. Qed.

Lemma built_delete {A V : Type} (p : bytes) (m : gmap bytes V) (R : bytes → A → V → Prop) :
  built [] m R → built [] (delete p m) R.
Proof.
  intros [Hm Hk]. split; [|by intros q ?%not_elem_of_nil].
  intros q v [_ Hv]%lookup_delete_Some. by apply Hm.
Qed.

Lemma built_mono {A V : Type} (l : list (bytes * A)) (m : gmap bytes V) (R R' : bytes → A → V → Prop) :
  (∀ p a v, R p a v → R' p a v) → built l m R → built l m R'.
Proof. intros HR [Hm Hk]. split; [|done]. intros p v (a & Ha & Hv)%Hm. eauto. Qed.

Lemma built_insert {A V : Type} (l : list (bytes * A)) (m : gmap bytes V) (R : bytes → A → V → Prop)
    (p : bytes) (a : A) (v : V) :
  built l m R → R p a v → built (l ++ [(p, a)]) (<[p := v]> m) R.
Proof.
  intros [Hm Hk] Hv. split.
  - intros q w [[<- <-]|[_ Hw]]%lookup_insert_Some.
    + exists a. split; [|done]. apply elem_of_app. right. by apply list_elem_of_singleton.
    + destruct (Hm q w Hw) as (b & Hb & ?). exists b. split; [|done]. apply elem_of_app. by left.
  - intros q. rewrite keys_snoc, elem_of_app, list_elem_of_singleton. intros [Hq| ->].
    + apply Hk in Hq as [w Hw]. destruct (decide (p = q)) as [->|].
      * rewrite lookup_insert_eq. eauto.
      * rewrite lookup_insert_ne by done. eauto.
    + rewrite lookup_insert_eq. eauto.
Qed.

(** Before the last loop: [fs], [ds] and [ls] are the items that are done. *)
Record scan_inv (fs : list (bytes * DiscoveredFile)) (ds : list (bytes * DiscoveredDirectory))
    (ls : list (bytes * DiscoveredSymlink)) st : Prop := {
  si_clock : sound_clock st;
  si_entries : built fs (sc_entries st) (file_out st);
  si_directories : built ds (sc_directories st) (directory_out st);
  si_symlinks : built ls (sc_symlinks st) (symlink_out st);
  si_tombstones p : sc_tombstones st !! p =
    if decide (p ∈ keys fs ++ keys ds ++ keys ls) then None else mf_tombstones previous !! p;
}.

Lemma tombstones_delete (m : gmap bytes Tombstone) (K K' : list bytes) (q : bytes) :
  (∀ p, m !! p = if decide (p ∈ K) then None else mf_tombstones previous !! p) →
  (∀ p, p ∈ K' ↔ p ∈ K ∨ p = q) →
  ∀ p, delete q m !! p = if decide (p ∈ K') then None else mf_tombstones previous !! p.
Proof.
  intros Hm HK p. specialize (HK p). destruct (decide (p = q)) as [->|Hne].
  - rewrite lookup_delete_eq, decide_True; [done|tauto].
  - rewrite lookup_delete_ne, Hm by done. repeat case_decide; tauto.
Qed.

(** The part of the state that a step keeps. *)
Lemma scan_inv_advances fs ds ls st st' :
  scan_inv fs ds ls st → advances st st' →
  built fs (sc_entries st) (file_out st') ∧ built ds (sc_directories st) (directory_out st') ∧
  built ls (sc_symlinks st) (symlink_out st').
Proof.
  intros [_ He Hd Hl _] Ha. split_and!.
  - eapply built_mono; [|exact He]. intros p a v. by apply file_out_advances.
  - eapply built_mono; [|exact Hd]. intros p a v. by apply directory_out_advances.
  - eapply built_mono; [|exact Hl]. intros p a v. by apply symlink_out_advances.
Qed.

Lemma scan_file_inv fs p f st st' :
  scan_inv fs [] [] st → scan_file previous endpoint_id now_ms unknown st (p, f) = Ok st' →
  scan_inv (fs ++ [(p, f)]) [] [] st'.
Proof.
  intros Hi Hs. unfold scan_file in Hs.
  apply bind_Ok in Hs as ([[clock entry] changes] & Hstep & [= <-]).
  set (st' := Build_scanning _ _ _ _ _ _).
  assert (Hout : sound_clock st' ∧ advances st st' ∧ file_out st' p f entry).
  { assert (Hfresh : ('(clock, version, changes) ← stamp endpoint_id now_ms st;
        Ok (clock, new_entry (mf_entries previous !! p) f version, changes))
        = Ok (clock, entry, changes) → sound_clock st' ∧ advances st st' ∧ file_out st' p f entry).
    { intros ([[c v] n] & Hst & [= -> <- ->])%bind_Ok.
      destruct (stamp_Ok st st' v) as (? & ? & ?); [apply Hi|exact Hst|].
      split_and!; [done..|]. by right. }
    destruct (mf_entries previous !! p) as [old|] eqn:Eo; [|by apply Hfresh].
    destruct (file_unchanged unknown old f) eqn:Eu; [|by apply Hfresh].
    injection Hstep as <- <- <-.
    destruct (sound_clock_same st st') as [? ?]; [apply Hi|done..|].
    split_and!; [done..|]. left. by exists old. }
  destruct Hout as (Hc & Ha & Ho). destruct (scan_inv_advances _ _ _ _ _ Hi Ha) as (Be & Bd & Bl).
  split; [done|by apply built_insert|done|by apply built_delete|].
  eapply tombstones_delete; [apply Hi|]. intros q. rewrite keys_snoc. simpl. set_solver.
Qed.

Lemma scan_directory_inv fs ds p d st st' :
  scan_inv fs ds [] st → scan_directory previous endpoint_id now_ms unknown st (p, d) = Ok st' →
  scan_inv fs (ds ++ [(p, d)]) [] st'.
Proof.
  intros Hi Hs. unfold scan_directory in Hs.
  apply bind_Ok in Hs as ([[clock entry] changes] & Hstep & [= <-]).
  set (st' := Build_scanning _ _ _ _ _ _).
  assert (Hout : sound_clock st' ∧ advances st st' ∧ directory_out st' p d entry).
  { set (fresh := mbind _ (stamp _ _ _)) in Hstep.
    assert (Hfresh : fresh = Ok (clock, entry, changes) →
      sound_clock st' ∧ advances st st' ∧ directory_out st' p d entry).
    { subst fresh. intros ([[c v] n] & Hst & [= -> <- ->])%bind_Ok.
      destruct (stamp_Ok st st' v) as (? & ? & ?); [apply Hi|exact Hst|].
      split_and!; [done..|]. by right. }
    destruct (mf_directories previous !! p) as [old|] eqn:Eo; [|by apply Hfresh].
    destruct (permissions_match (de_permissions old) _ unknown) eqn:Eu; [|by apply Hfresh].
    injection Hstep as <- <- <-.
    destruct (sound_clock_same st st') as [? ?]; [apply Hi|done..|].
    split_and!; [done..|]. by left. }
  destruct Hout as (Hc & Ha & Ho). destruct (scan_inv_advances _ _ _ _ _ Hi Ha) as (Be & Bd & Bl).
  split; [done|done|by apply built_insert|by apply built_delete|].
  eapply tombstones_delete; [apply Hi|]. intros q. rewrite keys_snoc. simpl. set_solver.
Qed.

Lemma scan_symlink_inv fs ds ls p l st st' :
  scan_inv fs ds ls st → scan_symlink previous endpoint_id now_ms st (p, l) = Ok st' →
  scan_inv fs ds (ls ++ [(p, l)]) st'.
Proof.
  intros Hi Hs. unfold scan_symlink in Hs.
  apply bind_Ok in Hs as ([[clock entry] changes] & Hstep & [= <-]).
  set (st' := Build_scanning _ _ _ _ _ _).
  assert (Hout : sound_clock st' ∧ advances st st' ∧ symlink_out st' p l entry).
  { set (fresh := mbind _ (stamp _ _ _)) in Hstep.
    assert (Hfresh : fresh = Ok (clock, entry, changes) →
      sound_clock st' ∧ advances st st' ∧ symlink_out st' p l entry).
    { subst fresh. intros ([[c v] n] & Hst & [= -> <- ->])%bind_Ok.
      destruct (stamp_Ok st st' v) as (? & ? & ?); [apply Hi|exact Hst|].
      split_and!; [done..|]. split; [done|]. by right. }
    destruct (mf_symlinks previous !! p) as [old|] eqn:Eo; [|by apply Hfresh].
    case_bool_decide; [|by apply Hfresh]. injection Hstep as <- <- <-.
    destruct (sound_clock_same st st') as [? ?]; [apply Hi|done..|].
    split_and!; [done..|]. split; [done|]. by left. }
  destruct Hout as (Hc & Ha & Ho). destruct (scan_inv_advances _ _ _ _ _ Hi Ha) as (Be & Bd & Bl).
  split; [done|done|done|by apply built_insert|].
  eapply tombstones_delete; [apply Hi|]. intros q. rewrite keys_snoc. set_solver.
Qed.

(** Nothing was found at [p]. *)
Definition gone st (p : bytes) : Prop :=
  sc_entries st !! p = None ∧ sc_directories st !! p = None ∧ sc_symlinks st !! p = None.

Lemma gone_iff st p :
  negb (contains_key (sc_entries st) p) && negb (contains_key (sc_directories st) p)
    && negb (contains_key (sc_symlinks st) p) = true ↔ gone st p.
Proof. unfold gone. rewrite !andb_true_iff, !negb_true_iff, !contains_key_false. tauto. Qed.

Record missing_inv st (ms : list bytes) st' : Prop := {
  mi_clock : sound_clock st';
  mi_advances : advances st st';
  mi_entries : sc_entries st' = sc_entries st;
  mi_directories : sc_directories st' = sc_directories st;
  mi_symlinks : sc_symlinks st' = sc_symlinks st;
  mi_gone p : p ∈ ms → gone st p →
    ∃ tb, sc_tombstones st' !! p = Some tb ∧ issued st' (tb_version tb);
  mi_rest p : p ∉ ms ∨ ¬ gone st p → sc_tombstones st' !! p = sc_tombstones st !! p;
}.

Lemma scan_missing_loop st ms st' :
  sound_clock st → try_fold (scan_missing endpoint_id now_ms) ms st = Ok st' →
  missing_inv st ms st'.
Proof.
  intros Hs. apply (try_fold_prefix (missing_inv st)).
  2: { split; [done|apply advances_refl|done|done|done| |done]. by intros p ?%not_elem_of_nil. }
  intros ps p rest s1 s2 _ [Hc Ha E1 E2 E3 Hg Hr] Hstep. unfold scan_missing in Hstep.
  assert (Hgone : gone s1 p ↔ gone st p) by (unfold gone; by rewrite E1, E2, E3).
  destruct (_ && _) eqn:Eg; rewrite ?gone_iff in Eg.
  - apply bind_Ok in Hstep as ([[clock v] n] & Hst & [= <-]). set (s2 := Build_scanning _ _ _ _ _ _).
    destruct (stamp_Ok s1 s2 v) as (Hc2 & Ha2 & Hi2); [done|exact Hst|].
    split; try done.
    + destruct Ha, Ha2. split; [by eapply clock_le_trans|lia].
    + intros q Hq Hgq. destruct (decide (q = p)) as [->|Hne].
      * eexists. split; [apply lookup_insert_eq|done].
      * destruct (Hg q) as (tb & Htb & Hi); [set_solver|done|]. exists tb.
        split; [by simpl; rewrite lookup_insert_ne|by eapply issued_advances].
    + intros q Hq. simpl. destruct (decide (q = p)) as [->|Hne].
      * exfalso. set_solver.
      * rewrite lookup_insert_ne by done. apply Hr. set_solver.
  - injection Hstep as <-. split; try done.
    + intros q Hq Hgq. apply Hg; [|done].
      apply elem_of_app in Hq as [Hq|Hq%list_elem_of_singleton]; [done|]. subst q.
      apply Hgone, gone_iff in Hgq. congruence.
    + intros q Hq. apply Hr. set_solver.
Qed.

(** *** The outcome of the four loops *)

Definition found (d : DiscoveredEntries) (p : bytes) : Prop :=
  is_Some (d_files d !! p) ∨ is_Some (d_directories d !! p) ∨ is_Some (d_symlinks d !! p).

Record scan_out (d : DiscoveredEntries) st : Prop := {
  so_clock : sound_clock st;
  so_entries p : option_Forall2 (file_out st p) (d_files d !! p) (sc_entries st !! p);
  so_directories p :
    option_Forall2 (directory_out st p) (d_directories d !! p) (sc_directories st !! p);
  so_symlinks p : option_Forall2 (symlink_out st p) (d_symlinks d !! p) (sc_symlinks st !! p);
  so_found p : found d p → sc_tombstones st !! p = None;
  so_gone p : ¬ found d p → p ∈ live_paths previous →
    ∃ tb, sc_tombstones st !! p = Some tb ∧ issued st (tb_version tb);
  so_kept p : ¬ found d p → p ∉ live_paths previous →
    sc_tombstones st !! p = mf_tombstones previous !! p;
}.

Lemma built_lookup {A V : Type} (items : gmap bytes A) (m : gmap bytes V)
    (R : bytes → A → V → Prop) :
  built (bt_iter items) m R → ∀ p, option_Forall2 (R p) (items !! p) (m !! p).
Proof.
  intros [Hm Hk] p. destruct (m !! p) as [v|] eqn:Ev.
  - destruct (Hm p v Ev) as (a & Ha%elem_of_bt_iter & Hr). rewrite Ha. by constructor.
  - destruct (items !! p) as [a|] eqn:Ea; [|constructor]. exfalso.
    destruct (Hk p) as [v Hv]; [|congruence]. apply (elem_of_bt_keys items). eauto.
Qed.

Lemma option_Forall2_None {A B} (R : A → B → Prop) x y :
  option_Forall2 R x y → x = None ↔ y = None.
Proof. by intros []. Qed.

Lemma scan_loops_spec d st :
  scan_loops previous endpoint_id now_ms unknown d c0 = Ok st → scan_out d st.
Proof.
  unfold scan_loops. set (st0 := Build_scanning _ _ _ _ _ _). intros Hs.
  apply bind_Ok in Hs as (st1 & H1 & Hs). apply bind_Ok in Hs as (st2 & H2 & Hs).
  apply bind_Ok in Hs as (st3 & H3 & H4).
  assert (I0 : scan_inv [] [] [] st0).
  { split; [|apply built_nil..|done]. split_and!; [apply clock_le_refl|u_unfold; simpl; lia|done]. }
  apply (try_fold_prefix (λ fs, scan_inv fs [] [])) in H1 as I1; [|
    by intros fs [p f] rest s s' _; apply scan_file_inv|done].
  apply (try_fold_prefix (λ ds, scan_inv (bt_iter (d_files d)) ds [])) in H2 as I2; [|
    by intros ds [p f] rest s s' _; apply scan_directory_inv|done].
  apply (try_fold_prefix (λ ls, scan_inv (bt_iter (d_files d)) (bt_iter (d_directories d)) ls)) in H3 as I3; [|
    by intros ls [p f] rest s s' _; apply scan_symlink_inv|done].
  apply scan_missing_loop in H4 as [Hc Ha E1 E2 E3 Hg Hr]; [|apply I3].
  destruct (scan_inv_advances _ _ _ _ _ I3 Ha) as (Be & Bd & Bl).
  rewrite <-E1 in Be. rewrite <-E2 in Bd. rewrite <-E3 in Bl.
  pose proof (built_lookup _ _ _ Be) as Fe. pose proof (built_lookup _ _ _ Bd) as Fd.
  pose proof (built_lookup _ _ _ Bl) as Fl.
  assert (Hfound : ∀ p, p ∈ keys (bt_iter (d_files d)) ++ keys (bt_iter (d_directories d))
    ++ keys (bt_iter (d_symlinks d)) ↔ found d p).
  { intros p. unfold found. rewrite !elem_of_app. by rewrite <-!elem_of_bt_keys. }
  assert (Hgone : ∀ p, gone st3 p ↔ ¬ found d p).
  { intros p. unfold gone, found. rewrite <-E1, <-E2, <-E3.
    rewrite <-(option_Forall2_None _ _ _ (Fe p)), <-(option_Forall2_None _ _ _ (Fd p)),
      <-(option_Forall2_None _ _ _ (Fl p)), !eq_None_not_Some. tauto. }
  split; [done..| | |].
  - intros p Hp. rewrite Hr by (right; rewrite Hgone; tauto).
    rewrite (si_tombstones _ _ _ _ I3), decide_True; [done|]. by apply Hfound.
  - intros p Hp Hl. apply Hg; [done|]. by apply Hgone.
  - intros p Hp Hl. rewrite Hr by (by left).
    rewrite (si_tombstones _ _ _ _ I3), decide_False; [done|]. by rewrite Hfound.
Qed.
End loops.

(** ** Comparing with the previous manifest *)

Lemma option_Forall2_size {A B : Type} (R : bytes → A → B → Prop) (m : gmap bytes A)
    (n : gmap bytes B) :
  (∀ k, option_Forall2 (R k) (m !! k) (n !! k)) → size m = size n.
Proof.
  intros Hr. rewrite <-!length_bt_keys. f_equal. apply bt_keys_eq. intros k.
  destruct (Hr k); split; intros [? ?]; done || eauto.
Qed.

Lemma option_Forall2_weaken {A B} (R R' : A → B → Prop) x y :
  option_Forall2 R x y → (∀ a b, x = Some a → y = Some b → R a b → R' a b) → option_Forall2 R' x y.
Proof. intros [a b Hr|] HR; constructor. by apply HR. Qed.

Lemma option_Forall2_flip {A B} (R : A → B → Prop) (R' : B → A → Prop) x y :
  option_Forall2 R x y → (∀ a b, x = Some a → y = Some b → R a b → R' b a) → option_Forall2 R' y x.
Proof. intros [a b Hr|] HR; constructor. by apply HR. Qed.

Lemma option_Forall2_right {A B} (R : A → B → Prop) x y b :
  option_Forall2 R x y → y = Some b → ∃ a, x = Some a ∧ R a b.
Proof. intros [a b' Hr|] E; [|done]. injection E as <-. eauto. Qed.

Lemma option_Forall2_left {A B} (R : A → B → Prop) x y a :
  option_Forall2 R x y → x = Some a → ∃ b, y = Some b ∧ R a b.
Proof. intros [a' b Hr|] E; [|done]. injection E as <-. eauto. Qed.

Lemma zip_all_lookup {A B : Type} (f : bytes * A → bytes * B → bool) (R : A → B → Prop)
    (m : gmap bytes A) (n : gmap bytes B) :
  (∀ x y, f x y = true ↔ x.1 = y.1 ∧ R x.2 y.2) →
  size m = size n ∧ zip_all f (bt_iter m) (bt_iter n) = true ↔
  ∀ k, option_Forall2 R (m !! k) (n !! k).
Proof.
  intros Hf.
  assert (Hz : zip_all f (bt_iter m) (bt_iter n) = true ↔
    Forall (λ '(x, y), x.1 = y.1 ∧ R x.2 y.2) (zip (bt_iter m) (bt_iter n))).
  { unfold zip_all. rewrite forallb_forall, List.Forall_forall. split.
    - intros Hall [x y] Hin. apply Hf. by apply (Hall (x, y)).
    - intros Hall [x y] Hin. apply Hf. by apply (Hall (x, y)). }
  rewrite Hz. split.
  - intros [Hs Hall]. by apply bt_zip_lookup.
  - intros Hr. pose proof (option_Forall2_size (λ _, R) _ _ Hr) as Hs. split; [done|].
    by apply bt_zip_lookup.
Qed.

Definition file_matches (unknown : bool) (o : ManifestEntry) (f : DiscoveredFile) : Prop :=
  me_size o = df_size f ∧ me_modified_at_ns o = df_modified_at_ns f ∧
  me_sha256 o = df_sha256 f ∧ permissions_match (me_permissions o) (df_permissions f) unknown = true.
Definition directory_matches (unknown : bool) (o : DirectoryEntry) (f : DiscoveredDirectory) : Prop :=
  permissions_match (de_permissions o) (dd_permissions f) unknown = true.
Definition symlink_matches (o : SymlinkEntry) (f : DiscoveredSymlink) : Prop :=
  se_target o = ds_target f.

(** The previous manifest already describes what was discovered. *)
Definition up_to_date (unknown : bool) (d : DiscoveredEntries) (previous : Manifest) : Prop :=
  (∀ p, option_Forall2 (file_matches unknown) (mf_entries previous !! p) (d_files d !! p)) ∧
  (∀ p, option_Forall2 (directory_matches unknown) (mf_directories previous !! p)
          (d_directories d !! p)) ∧
  (∀ p, option_Forall2 symlink_matches (mf_symlinks previous !! p) (d_symlinks d !! p)).

Lemma matches_previous_iff (unknown : bool) (d : DiscoveredEntries) (previous : Manifest) :
  matches_previous d previous unknown = true ↔
  mf_format_version previous = MANIFEST_FORMAT_VERSION ∧ up_to_date unknown d previous.
Proof.
  unfold up_to_date.
  rewrite <-(zip_all_lookup (file_equal unknown)), <-(zip_all_lookup (directory_equal unknown)),
    <-(zip_all_lookup symlink_equal).
  - unfold matches_previous.
    rewrite <-!Nat.eqb_eq, <-Z.eqb_eq.
    destruct (mf_format_version previous =? _), (size (mf_entries previous) =? _)%nat,
      (size (mf_directories previous) =? _)%nat, (size (mf_symlinks previous) =? _)%nat,
      (zip_all (file_equal unknown) _ _), (zip_all (directory_equal unknown) _ _),
      (zip_all symlink_equal _ _); simpl; intuition congruence.
  - intros [p x] [q y]. unfold symlink_equal, symlink_matches; simpl.
    by rewrite andb_true_iff, !bool_decide_eq_true.
  - intros [p x] [q y]. unfold directory_equal, directory_matches; simpl.
    by rewrite andb_true_iff, bool_decide_eq_true.
  - intros [p x] [q y]. unfold file_equal, file_matches; simpl.
    rewrite !andb_true_iff, !bool_decide_eq_true, !Z.eqb_eq. tauto.
Qed.

(** ** What a scan returns *)

Section outcome.
Context `{HexCodec, Sha256, Iroh, WalkDir} (root : bytes).
Context (reads : list bytes → nat → io (list bytes * node)).
Context (previous : Manifest) (endpoint_id : EndpointId) (now_ms : Z).
Context (t : tree) (clock : ClockState).
Let unknown : bool := unknown_permissions previous.

(** Either nothing changed, or the loops ran and their manifest is valid. *)
Inductive scanned (d : DiscoveredEntries) : ScanResult Cow → Prop :=
| scanned_borrowed r :
    mf_format_version previous = MANIFEST_FORMAT_VERSION → up_to_date unknown d previous →
    sr_manifest r = Borrowed previous → sr_clock r = clock → sr_changes r = 0 →
    sr_manifest_changed r = false → scanned d r
| scanned_owned r st :
    scan_loops previous endpoint_id now_ms unknown d clock = Ok st →
    scan_out previous endpoint_id unknown clock d st →
    sr_manifest r = Owned (scanned_manifest previous now_ms st) → sr_clock r = sc_clock st →
    sr_changes r = sc_changes st →
    (sr_manifest_changed r = false →
      sc_entries st = mf_entries previous ∧ sc_directories st = mf_directories previous ∧
      sc_symlinks st = mf_symlinks previous ∧ sc_tombstones st = mf_tombstones previous) →
    manifest_valid (scanned_manifest previous now_ms st) (mf_share_id previous) → scanned d r.

Lemma scan_scanned r :
  scan_manifest_cached_after_validation root reads previous endpoint_id now_ms t clock = Ok r →
  ∃ d, discover_entries root reads t previous unknown = Ok d ∧ scanned d r.
Proof.
  unfold scan_manifest_cached_after_validation. fold unknown. intros Hs.
  apply bind_Ok in Hs as (_ & _ & Hs). apply bind_Ok in Hs as (d & Hd & Hs). exists d. split; [done|].
  destruct (matches_previous d previous unknown) eqn:Em.
  - injection Hs as <-. apply matches_previous_iff in Em as [Hf Hu]. by apply scanned_borrowed.
  - apply bind_Ok in Hs as (st & Hl & Hs). apply bind_Ok in Hs as ([] & Hv & [= <-]).
    eapply scanned_owned; simpl; [done|by eapply scan_loops_spec|done..| |].
    + intros Hc. bool_inv. done.
    + by apply Manifest_validate_Ok.
Qed.

Lemma scanned_valid d r :
  manifest_valid previous (mf_share_id previous) → scanned d r →
  manifest_valid (into_owned (sr_manifest r)) (mf_share_id previous).
Proof. intros Hp [r' _ _ -> _ _ _|r' st _ _ -> _ _ _ Hv]; done. Qed.
End outcome.

(** ** The scanned manifest describes the directory *)

Section described.
Context `{HexCodec, Sha256, Iroh, WalkDir} (root : bytes) (Hroot : root ≠ []).
Context (reads : list bytes → nat → io (list bytes * node)).
Context (t : tree) (Ht : disk_tree t) (previous : Manifest) (unknown : bool).

(** The files do not change while they are read. *)
Definition quiet : Prop :=
  ∀ names n k, t !! names = Some n → is_file n = true →
    match open_file t names with
    | Done _ => ∃ pieces, reads names k = Done (pieces, n) ∧ Forall (λ p, p ≠ []) pieces ∧
        concat pieces = file_content n
    | Fails e => reads names k = Fails e
    end.

(** What the fast path relies on: a file whose size, time and permissions are the
    recorded ones has the recorded contents. *)
Definition trusted : Prop :=
  ∀ names n old, t !! names = Some n → is_file n = true →
    mf_entries previous !! join_slash names = Some old → fast_path old n unknown = true →
    me_sha256 old = hex_encode (sha256 (file_content n)).

(** The digests a scan may record for a file: that of its contents; or, where the
    previous manifest has a record with the size, the time and the permissions of the file,
    the digest of that record. *)
Definition own_digest (path : bytes) (n : node) (digest : bytes) : Prop :=
  digest = hex_encode (sha256 (file_content n)).
Definition own_or_reused (path : bytes) (n : node) (digest : bytes) : Prop :=
  own_digest path n digest ∨
  ∃ old, mf_entries previous !! path = Some old ∧ fast_path old n unknown = true ∧ digest = me_sha256 old.

(** The record of a node in a manifest, with the digests that [D] allows. *)
Definition represents (D : bytes → node → bytes → Prop) (m : Manifest) (path : bytes) (n : node) : Prop :=
  match n_kind n with
  | KFile content => ∃ e, mf_entries m !! path = Some e ∧ me_size e = blen content ∧
      D path n (me_sha256 e) ∧ me_modified_at_ns e = modified_at_ns n ∧
      permissions_match (me_permissions e) (permissions_from_metadata n) unknown = true
  | KDir => ∃ e, mf_directories m !! path = Some e ∧
      permissions_match (de_permissions e) (permissions_from_metadata n) unknown = true
  | KSymlink target => ∃ e, mf_symlinks m !! path = Some e ∧ se_target e = target
  | KSpecial => path ∉ live_paths m
  end.

(** The manifest has a record for every node below the root and no other live path. *)
Definition describes_with (D : bytes → node → bytes → Prop) (m : Manifest) : Prop :=
  (∀ names n, names ≠ [] → t !! names = Some n → represents D m (join_slash names) n) ∧
  (∀ p, p ∈ live_paths m → ∃ names n, t !! names = Some n ∧ counted (Some (names, n)) = true ∧
    p = join_slash names).
Definition describes : Manifest → Prop := describes_with own_digest.

Lemma hash_reads_concat hashed pieces :
  Forall (λ p, p ≠ []) pieces → hash_reads hashed pieces = sha256 (hashed ++ concat pieces).
Proof.
  intros Hf. revert hashed. induction Hf as [|p ps Hp Hps IH]; intros hashed; simpl.
  - by rewrite app_nil_r.
  - rewrite bool_decide_false by done. by rewrite IH, app_assoc.
Qed.

Lemma digest_correct names n f :
  quiet → t !! names = Some n → is_file n = true →
  digest_of reads previous unknown (join_slash names) names n f →
  own_or_reused (join_slash names) n (df_sha256 f).
Proof.
  intros Hq Hn Hf [(old & Ho & Hfast & -> & _)|(_ & k & pieces & after & Hr & _ & _ & ->)].
  - right. by exists old.
  - left. unfold own_digest. specialize (Hq names n k Hn Hf). destruct (open_file t names); [|congruence].
    destruct Hq as (ps & Hr' & Hne & Hc). rewrite Hr in Hr'. injection Hr' as -> ->.
    rewrite hash_reads_concat by done. simpl. by rewrite Hc.
Qed.

(** The permissions of a record that matches what was discovered. *)
Lemma permissions_through p names n f (o : ManifestEntry) :
  mf_entries previous !! p = Some o → digest_of reads previous unknown p names n f →
  permissions_match (me_permissions o) (df_permissions f) unknown = true →
  permissions_match (me_permissions o) (permissions_from_metadata n) unknown = true.
Proof.
  intros Ho [(old & Ho' & Hfast & _)|[-> _]] Hm; [|done].
  assert (old = o) as -> by congruence. unfold fast_path in Hfast. bool_inv.
  by rewrite permissions_match_sym.
Qed.

(** A record that agrees with what was discovered. *)
Definition entry_agrees (p : bytes) (f : DiscoveredFile) (e : ManifestEntry) : Prop :=
  me_size e = df_size f ∧ me_modified_at_ns e = df_modified_at_ns f ∧ me_sha256 e = df_sha256 f ∧
  (me_permissions e = df_permissions f ∨
   ∃ o, mf_entries previous !! p = Some o ∧ me_permissions o = me_permissions e ∧
     permissions_match (me_permissions o) (df_permissions f) unknown = true).

Lemma permissions_match_true l r b :
  permissions_match l r b = true → permissions_match l r true = true.
Proof. unfold permissions_match. destruct b; simpl; [done|]. intros ->. apply orb_true_r. Qed.

Lemma agrees_fast p names n f e :
  discover_file reads previous unknown p names n = Ok f → entry_agrees p f e →
  fast_path e n true = true.
Proof.
  intros (E1 & E2 & E3 & E4)%discover_file_Ok (A1 & A2 & _ & A4). unfold fast_path.
  rewrite A1, E1, A2, E2, !Z.eqb_refl, permissions_match_sym. simpl.
  apply (permissions_match_true _ _ unknown).
  destruct A4 as [->|(o & Ho & <- & Hmatch)]; [done|]. by eapply permissions_through.
Qed.

Definition agrees (d : DiscoveredEntries) (m : Manifest) : Prop :=
  (∀ p, option_Forall2 (entry_agrees p) (d_files d !! p) (mf_entries m !! p)) ∧
  (∀ p, option_Forall2 (λ x e, permissions_match (de_permissions e) (dd_permissions x) unknown = true)
          (d_directories d !! p) (mf_directories m !! p)) ∧
  (∀ p, option_Forall2 (λ x e, se_target e = ds_target x) (d_symlinks d !! p) (mf_symlinks m !! p)).

(** A manifest that agrees with what was discovered describes the directory. *)
Lemma agrees_describes_with d m :
  quiet → discover_entries root reads t previous unknown = Ok d → agrees d m →
  describes_with own_or_reused m.
Proof.
  intros Hq Hd (Fe & Fd & Fl).
  destruct (discover_entries_spec root Hroot reads t Ht previous unknown d Hd)
    as (Sf & Sd & Sl & Hall).
  assert (Hlive : ∀ p, p ∈ live_paths m → ∃ x, seen root reads t previous unknown p x).
  { intros p. unfold live_paths. rewrite !elem_of_app, !elem_of_bt_keys.
    intros [[x Hx]|[[x Hx]|[x Hx]]].
    - destruct (option_Forall2_right _ _ _ _ (Fe p) Hx) as (f & Hf & _). exists (DFile f). by apply Sf.
    - destruct (option_Forall2_right _ _ _ _ (Fd p) Hx) as (f & Hf & _).
      exists (DDirectory f). by apply Sd.
    - destruct (option_Forall2_right _ _ _ _ (Fl p) Hx) as (f & Hf & _).
      exists (DSymlink f). by apply Sl. }
  assert (Hnames : ∀ p, p ∈ live_paths m → ∃ names n, t !! names = Some n ∧
    counted (Some (names, n)) = true ∧ p = join_slash names).
  { intros p (x & names & n & Hn & Hc & Hi)%Hlive. exists names, n. split_and!; [done..|].
    by apply (inspect_key root Hroot reads t previous unknown) in Hi as (_ & ? & _); [|eapply Ht]. }
  split; [|exact Hnames]. intros names n Hne Hn. destruct (is_special n) eqn:Es.
  { unfold represents. destruct (n_kind n) eqn:Ek; unfold is_special, is_dir, is_file, is_symlink in Es;
      rewrite Ek in Es; try done. intros (ms & m' & Hm & [Hme Hms]%counted_true & E)%Hnames.
    apply join_slash_inj in E as <-; [|done|done|by eapply Ht|by eapply Ht].
    assert (m' = n) as -> by congruence. unfold is_special, is_dir, is_file, is_symlink in Hms.
    by rewrite Ek in Hms. }
  destruct (Hall names n Hn) as (x & Hx & Hi); [by apply counted_true|].
  pose proof (seen_kind root Hroot reads t Ht previous unknown _ _ Hx)
    as (ms & m' & Hm & Hme & E & _ & Hk).
  apply join_slash_inj in E as <-; [|done|done|by eapply Ht|by eapply Ht].
  assert (m' = n) as -> by congruence. unfold represents.
  destruct x as [f|x|x].
  - destruct Hk as [Hf Hdf]. unfold is_file in Hf. destruct (n_kind n) as [content| | |] eqn:Ek; try done.
    pose proof (discover_file_Ok _ _ _ _ _ _ _ Hdf) as (E1 & E2 & E3 & E4).
    apply Sf in Hx.
    destruct (option_Forall2_left _ _ _ _ (Fe _) Hx) as (e & Ee & A1 & A2 & A3 & A4). exists e.
    assert (Hc : file_content n = content) by (unfold file_content; by rewrite Ek).
    split_and!; [done|by rewrite A1, E1; unfold metadata_len; rewrite Hc| |by rewrite A2|].
    + rewrite A3. apply (digest_correct names); [done..|unfold is_file; by rewrite Ek|done].
    + destruct A4 as [->|(o & Ho & <- & Hmatch)]; [done|]. by eapply permissions_through.
  - destruct Hk as [Hf ->]. unfold is_dir in Hf. destruct (n_kind n) eqn:Ek; try done.
    apply Sd in Hx. destruct (option_Forall2_left _ _ _ _ (Fd _) Hx) as (e & Ee & A1). by exists e.
  - destruct Hk as [-> _]. apply Sl in Hx.
    destruct (option_Forall2_left _ _ _ _ (Fl _) Hx) as (e & Ee & A1). by exists e.
Qed.

(** Where reused digests can be trusted, all are those of the files. *)
Lemma trusted_describes m : trusted → describes_with own_or_reused m → describes m.
Proof.
  intros Htr [Hall Hlive]. split; [|done]. intros names n Hne Hn. specialize (Hall names n Hne Hn).
  unfold represents in *. destruct (n_kind n) as [content| | |] eqn:Ek; try done.
  destruct Hall as (e & He & Hsize & Hdigest & Hrest). exists e. split_and!; try done; [|apply Hrest..].
  destruct Hdigest as [Hown|(old & Hold & Hfast & ->)]; [done|]. apply (Htr names n old); try done.
  unfold is_file. by rewrite Ek.
Qed.
Lemma agrees_describes d m :
  quiet → trusted → discover_entries root reads t previous unknown = Ok d → agrees d m →
  describes m.
Proof. intros ? Htr ? ?. apply trusted_describes; [done|]. by eapply agrees_describes_with. Qed.
End described.

Lemma scanned_agrees `{HexCodec, Sha256, Iroh, WalkDir} (previous : Manifest)
    (endpoint_id : EndpointId) (now_ms : Z) (clock : ClockState) (d : DiscoveredEntries)
    (r : ScanResult Cow) :
  scanned previous endpoint_id now_ms clock d r →
  agrees previous (unknown_permissions previous) d (into_owned (sr_manifest r)).
Proof.
  intros Hs. split_and!; destruct Hs as [r' Hf (Ue & Ud & Ul) -> _ _ _|r' st Hl Ho -> _ _ _ _]; intros p; simpl.
  - eapply option_Forall2_flip; [apply Ue|]. intros o f Ho _ (? & ? & ? & ?).
    split_and!; [done..|]. right. by exists o.
  - eapply option_Forall2_weaken; [apply Ho|]. intros f e _ _ [(o & Ho' & Hu & ->)|[-> _]].
    + unfold file_unchanged in Hu. bool_inv. split_and!; [done..|]. right. by exists o.
    + split_and!; try done. by left.
  - eapply option_Forall2_flip; [apply Ud|]. by intros o f _ _ ?.
  - eapply option_Forall2_weaken; [apply Ho|]. intros f e _ _ [[_ ?]|[-> _]]; [done|].
    apply permissions_match_refl.
  - eapply option_Forall2_flip; [apply Ul|]. by intros o f _ _ ?.
  - eapply option_Forall2_weaken; [apply Ho|]. by intros f e _ _ [? _].
Qed.

(** ** Versions *)

(** The record [y] as a scan keeps it: only the time of a file is refreshed. *)
Definition refreshed (y x : ManifestRecord) : Prop :=
  match y, x with
  | RFile o, RFile e => me_size e = me_size o ∧ me_sha256 e = me_sha256 o ∧
      me_permissions e = me_permissions o ∧ me_version e = me_version o
  | _, _ => x = y
  end.

Lemma refreshed_rank y x : refreshed y x → rank x = rank y.
Proof.
  unfold rank. destruct y, x; simpl; try (by intros [= ->]). by intros (_ & _ & _ & ->).
Qed.

Lemma refreshed_refl y : refreshed y y.
Proof. by destruct y. Qed.

#[export] Instance found_dec (d : DiscoveredEntries) (p : bytes) : Decision (found d p).
Proof. unfold found. apply _. Defined.

(** A version newer than all that [c0] covers, which [c] covers in turn. *)
Definition newer `{Iroh} (c0 c : ClockState) (endpoint_id : EndpointId) (v : HlcTimestamp) : Prop :=
  (∀ x, covers c0 x → ltb x v = true) ∧ covers c v ∧ author v = ep_as_bytes endpoint_id.

Lemma select_newer x y : ltb (rec_version y) (rec_version x) = true →
  select_record (Some x) (Some y) = Some x ∧ select_record (Some y) (Some x) = Some x.
Proof.
  intros Hlt%ltb_lt. unfold select_record. rewrite Hlt, (cmp_antisym (rec_version y)), Hlt. done.
Qed.

Section versions.
Context `{HexCodec, Sha256, Iroh, WalkDir}.
Context (previous : Manifest) (endpoint_id : EndpointId) (now_ms : Z) (clock : ClockState).
Context (Hp : manifest_valid previous (mf_share_id previous)).

Lemma scanned_record d r p x :
  scanned previous endpoint_id now_ms clock d r →
  record (into_owned (sr_manifest r)) p = Some x →
  (∃ y, record previous p = Some y ∧ refreshed y x) ∨
  (newer clock (sr_clock r) endpoint_id (rec_version x) ∧ 0 < sr_changes r).
Proof.
  intros [r' _ _ -> _ _ _|r' st _ Ho -> -> -> _ Hv]; simpl.
  { intros Hx. left. exists x. split; [done|apply refreshed_refl]. }
  assert (Hi : ∀ v, issued endpoint_id clock st v →
    newer clock (sc_clock st) endpoint_id v ∧ 0 < sc_changes st).
  { by intros v (? & ? & ? & ?). }
  rewrite (record_Some _ _ _ _ Hv). destruct x as [e|e|e|tb]; simpl; intros Hx.
  - destruct (option_Forall2_right _ _ _ _ (so_entries _ _ _ _ _ _ Ho p) Hx)
      as (f & _ & [(old & Hold & Hu & ->)|[_ ?]]); [left|right; by apply Hi].
    exists (RFile old). rewrite (record_Some _ _ _ _ Hp). split; [done|].
    unfold file_unchanged in Hu. bool_inv. done.
  - destruct (option_Forall2_right _ _ _ _ (so_directories _ _ _ _ _ _ Ho p) Hx)
      as (f & _ & [[Hold _]|[_ ?]]); [left|right; by apply Hi].
    exists (RDirectory e). by rewrite (record_Some _ _ _ _ Hp).
  - destruct (option_Forall2_right _ _ _ _ (so_symlinks _ _ _ _ _ _ Ho p) Hx)
      as (f & _ & _ & [Hold|?]); [left|right; by apply Hi].
    exists (RSymlink e). by rewrite (record_Some _ _ _ _ Hp).
  - destruct (decide (found d p)) as [Hf|Hf].
    { rewrite (so_found _ _ _ _ _ _ Ho p Hf) in Hx. done. }
    destruct (decide (p ∈ live_paths previous)) as [Hl|Hl].
    + destruct (so_gone _ _ _ _ _ _ Ho p Hf Hl) as (tb' & Htb & ?). right.
      assert (tb' = tb) as -> by congruence. by apply Hi.
    + left. exists (RTombstone tb). rewrite (record_Some _ _ _ _ Hp). split; [|done].
      by rewrite <-(so_kept _ _ _ _ _ _ Ho p Hf Hl).
Qed.

(** No path is forgotten. *)
Lemma scanned_keeps_paths d r p :
  scanned previous endpoint_id now_ms clock d r → is_Some (record previous p) →
  is_Some (record (into_owned (sr_manifest r)) p).
Proof.
  intros [r' _ _ -> _ _ _|r' st _ Ho -> _ _ _ _]; simpl; [done|]. rewrite <-!elem_of_paths.
  unfold paths. rewrite !elem_of_app, !elem_of_bt_keys. simpl. intros Hx.
  destruct (decide (found d p)) as [Hf|Hf].
  - destruct Hf as [[f Hf]|[[f Hf]|[f Hf]]].
    + destruct (option_Forall2_left _ _ _ _ (so_entries _ _ _ _ _ _ Ho p) Hf) as (? & ? & _). eauto.
    + destruct (option_Forall2_left _ _ _ _ (so_directories _ _ _ _ _ _ Ho p) Hf) as (? & ? & _).
      eauto.
    + destruct (option_Forall2_left _ _ _ _ (so_symlinks _ _ _ _ _ _ Ho p) Hf) as (? & ? & _). eauto.
  - destruct (decide (p ∈ live_paths previous)) as [Hl|Hl].
    + destruct (so_gone _ _ _ _ _ _ Ho p Hf Hl) as (tb & Htb & _). eauto.
    + rewrite (so_kept _ _ _ _ _ _ Ho p Hf Hl). unfold live_paths in Hl.
      rewrite !elem_of_app, !elem_of_bt_keys in Hl. naive_solver.
Qed.

Lemma scanned_clock d r :
  scanned previous endpoint_id now_ms clock d r →
  clock_le clock (sr_clock r) ∧ 0 ≤ sr_changes r ∧ (sr_changes r = 0 → sr_clock r = clock).
Proof.
  intros [r' _ _ _ -> -> _|r' st _ Ho _ -> -> _ _].
  - split_and!; [apply clock_le_refl|done|done].
  - destruct (so_clock _ _ _ _ _ _ Ho) as (Hc & [Hn _] & Hz). done.
Qed.
End versions.

(** ** Scanning again *)

(** Two discoveries with the same paths of each kind. *)
Definition same_keys (d1 d2 : DiscoveredEntries) : Prop :=
  (∀ p, is_Some (d_files d1 !! p) ↔ is_Some (d_files d2 !! p)) ∧
  (∀ p, is_Some (d_directories d1 !! p) ↔ is_Some (d_directories d2 !! p)) ∧
  (∀ p, is_Some (d_symlinks d1 !! p) ↔ is_Some (d_symlinks d2 !! p)).

Definition same_kind (x y : Discovered) : Prop :=
  match x, y with
  | DFile _, DFile _ | DDirectory _, DDirectory _ | DSymlink _, DSymlink _ => True
  | _, _ => False
  end.

Lemma same_keys_too_many d1 d2 : same_keys d1 d2 → too_many d1 = too_many d2.
Proof.
  intros (H1 & H2 & H3). unfold too_many.
  assert (Hs : ∀ (A B : Type) (m : gmap bytes A) (n : gmap bytes B),
    (∀ p, is_Some (m !! p) ↔ is_Some (n !! p)) → size m = size n).
  { intros A B m n Hmn. rewrite <-!length_bt_keys. f_equal. by apply bt_keys_eq. }
  by rewrite (Hs _ _ _ _ H1), (Hs _ _ _ _ H2), (Hs _ _ _ _ H3).
Qed.

Lemma is_Some_insert {A : Type} (m : gmap bytes A) (p q : bytes) (x : A) :
  is_Some (<[p := x]> m !! q) ↔ p = q ∨ is_Some (m !! q).
Proof. rewrite lookup_insert_is_Some. destruct (decide (p = q)); naive_solver. Qed.

Lemma same_keys_add d1 d2 p x y :
  same_keys d1 d2 → same_kind x y →
  same_keys (add_discovered d1 (p, x)) (add_discovered d2 (p, y)).
Proof.
  intros (H1 & H2 & H3) Hk. unfold same_keys.
  destruct x, y; try done; simpl; split_and!; intros q;
    rewrite ?is_Some_insert, ?H1, ?H2, ?H3; done.
Qed.

Section rescan.
Context `{HexCodec, Sha256, Iroh, WalkDir} (root : bytes) (Hroot : root ≠ []).
Context (reads1 reads2 : list bytes → nat → io (list bytes * node)).
Context (t : tree) (Ht : disk_tree t) (m1 m2 : Manifest) (u1 u2 : bool).

(** A second discovery that succeeds wherever the first did. *)
Lemma discover_again d1 :
  (∀ names n p x, t !! names = Some n → counted (Some (names, n)) = true →
    inspect root reads1 t m1 u1 names n = Ok (p, x) →
    ∃ y, inspect root reads2 t m2 u2 names n = Ok (p, y) ∧ same_kind x y) →
  discover_entries root reads1 t m1 u1 = Ok d1 →
  ∃ d2, discover_entries root reads2 t m2 u2 = Ok d2 ∧ same_keys d1 d2.
Proof.
  intros Hi. unfold discover_entries. destruct (t !! []) as [n0|]; [|done].
  cbn [ok_or mbind result_bind]. destruct (bail_if _ _) as [[]|]; [|done].
  cbn [mbind result_bind].
  assert (Hl : ∀ names n, Some (names, n) ∈ walk_dir t → t !! names = Some n) by apply walk_dir_sound.
  assert (Hk : same_keys DiscoveredEntries_new DiscoveredEntries_new) by done.
  revert Hl Hk. generalize DiscoveredEntries_new at 1 3 as e1.
  generalize DiscoveredEntries_new as e2. generalize (walk_dir t) as l.
  induction l as [|entry l IH]; intros e2 e1 Hl Hk Hd; cbn [try_fold] in Hd |- *.
  { injection Hd as <-. by exists e2. }
  apply bind_Ok in Hd as (e1' & He & Hd). destruct entry as [[names n]|]; [|done].
  assert (Hn : t !! names = Some n) by (apply Hl; by left).
  assert (Hl' : ∀ names n, Some (names, n) ∈ l → t !! names = Some n)
    by (intros; apply Hl; by right).
  rewrite (discover_entry_cases root Hroot) in He |- * by done.
  destruct (counted (Some (names, n))) eqn:Ec.
  - rewrite <-(same_keys_too_many _ _ Hk). destruct (too_many e1); [done|].
    cbn [bail_if mbind result_bind] in He |- *. apply bind_Ok in He as ([p x] & Hx & [= <-]).
    destruct (Hi names n p x Hn Ec Hx) as (y & -> & Hxy). cbn [mbind result_bind].
    eapply IH; [done| |exact Hd]. by apply same_keys_add.
  - injection He as <-. cbn [mbind result_bind]. by eapply IH.
Qed.

(** A file whose record agrees with the disk is not read again. *)
Lemma rediscover_file p names n (e : ManifestEntry) :
  mf_entries m2 !! p = Some e → fast_path e n u2 = true →
  discover_file reads2 m2 u2 p names n = Ok {|
    df_size := me_size e; df_modified_at_ns := me_modified_at_ns e;
    df_sha256 := me_sha256 e; df_permissions := me_permissions e |}.
Proof. intros He Hf. unfold discover_file. by rewrite He, Hf. Qed.
End rescan.

Section properties.
Context `{HexCodec, Sha256, Iroh, WalkDir}.


(** C4: a scan never goes back: every path of the previous manifest still has a
    record, every record of the scanned manifest is the previous one (with a
    file's time refreshed) or carries a version of this endpoint greater than all
    versions the clock covered, which the new clock covers in turn; so when the
    clock covers the previous manifest, the scanned records win every merge
    against the previous ones, and a change found by a scan reaches the peers. *)
Theorem scan_supersedes_previous (root : bytes)
    (reads : list bytes → nat → io (list bytes * node)) (previous : Manifest)
    (endpoint_id : EndpointId) (now_ms : Z) (t : tree) (clock : ClockState) (r : ScanResult Cow)
    (Hp : manifest_valid previous (mf_share_id previous))
    (Hscan : scan_manifest_cached_after_validation root reads previous endpoint_id now_ms t clock
             = Ok r) :
  let m := into_owned (sr_manifest r) in
  manifest_valid m (mf_share_id previous) ∧
  (∀ p, is_Some (record previous p) → is_Some (record m p)) ∧
  (∀ p x, record m p = Some x →
    (∃ y, record previous p = Some y ∧ refreshed y x) ∨
    newer clock (sr_clock r) endpoint_id (rec_version x)) ∧
  ((∀ p y, record previous p = Some y → covers clock (rec_version y)) →
   ∀ p, select_record (record m p) (record previous p) = record m p).
Proof.
  intros m. apply scan_scanned in Hscan as (d & _ & Hs).
  pose proof (λ p x, scanned_record _ _ _ _ Hp d r p x Hs) as Hrec.
  split_and!; [by eapply scanned_valid|intros p; by eapply scanned_keeps_paths| |].
  - intros p x Hx. destruct (Hrec p x Hx) as [?|[? _]]; [by left|by right].
  - intros Hcov p. destruct (record previous p) as [y|] eqn:Ey; [|apply select_None_r].
    destruct (scanned_keeps_paths _ _ _ _ d r p Hs) as [x Hx]; [by rewrite Ey|].
    fold m in Hx. rewrite Hx.
    destruct (Hrec p x Hx) as [(y' & Hy' & Hr)|[(Hn & _) _]].
    + rewrite Ey in Hy'. injection Hy' as <-. rewrite select_max, (refreshed_rank _ _ Hr).
      by rewrite ltb_irrefl.
    + by apply select_newer, Hn, (Hcov p).
Qed.

(** What a second discovery finds, against the manifest of the first scan. *)
Definition recorded_file (e : ManifestEntry) : DiscoveredFile := {|
  df_size := me_size e; df_modified_at_ns := me_modified_at_ns e; df_sha256 := me_sha256 e;
  df_permissions := me_permissions e |}.
Definition redone (m : Manifest) (p : bytes) (x y : Discovered) : Prop :=
  match x with
  | DFile _ => ∃ e, mf_entries m !! p = Some e ∧ y = DFile (recorded_file e)
  | _ => y = x
  end.

Lemma redone_kind m p x y : redone m p x y → same_kind x y.
Proof. destruct x; simpl; [by intros (e & _ & ->)|by intros ->..]. Qed.

Lemma reinspect (root : bytes) (reads reads' : list bytes → nat → io (list bytes * node))
    (previous m : Manifest) (unknown : bool) (t : tree) (d : DiscoveredEntries) :
  root ≠ [] → disk_tree t → discover_entries root reads t previous unknown = Ok d →
  agrees previous unknown d m →
  ∀ names n p x, t !! names = Some n → counted (Some (names, n)) = true →
    inspect root reads t previous unknown names n = Ok (p, x) →
    ∃ y, inspect root reads' t m true names n = Ok (p, y) ∧ redone m p x y.
Proof.
  intros Hroot Ht Hd (Fe & _ & _) names n p x Hn Hc Hi.
  destruct (discover_entries_spec root Hroot reads t Ht previous unknown d Hd) as (Sf & _).
  pose proof Hi as Hi'. unfold inspect in Hi |- *.
  apply bind_Ok in Hi as (path & -> & Hi). cbn [mbind result_bind].
  assert (Hother : ∀ q z, Ok (q, z) = Ok (p, x) → (∀ f, z ≠ DFile f) →
    ∃ y, Ok (q, z) = Ok (p, y) ∧ redone m p x y).
  { intros q z [= -> ->] Hz. exists x. split; [done|]. by destruct x as [f| |]; [destruct (Hz f)|..]. }
  destruct (is_symlink n).
  { destruct (read_link t names); [|done]. apply bind_Ok in Hi as (? & -> & Hi).
    apply bind_Ok in Hi as (? & -> & Hi). by apply Hother. }
  destruct (lstat t names) as [n'|] eqn:El; [|done].
  assert (n' = n) as -> by (by eapply lstat_seen).
  destruct (is_dir n); [by apply Hother|].
  apply bind_Ok in Hi as (f & Hf & [= <- <-]).
  assert (Hp : d_files d !! path = Some f) by (apply Sf; by exists names, n).
  destruct (option_Forall2_left _ _ _ _ (Fe path) Hp) as (e & He & Ha).
  rewrite (rediscover_file _ _ _ _ _ _ e); [|done|by eapply agrees_fast].
  eexists. split; [done|]. by exists e.
Qed.

Lemma rediscovered (root : bytes) (reads reads' : list bytes → nat → io (list bytes * node))
    (previous m : Manifest) (unknown : bool) (t : tree) (d : DiscoveredEntries) :
  root ≠ [] → disk_tree t → discover_entries root reads t previous unknown = Ok d →
  agrees previous unknown d m →
  ∃ d', discover_entries root reads' t m true = Ok d' ∧ up_to_date true d' m.
Proof.
  intros Hroot Ht Hd Ha.
  pose proof (reinspect root reads reads' previous m unknown t d Hroot Ht Hd Ha) as Hre.
  destruct Ha as (Fe & Fd & Fl).
  destruct (discover_again root Hroot reads reads' t Ht previous m unknown true d)
    as (d' & Hd' & K1 & K2 & K3); [|done|].
  { intros names n p x Hn Hc Hi. destruct (Hre names n p x Hn Hc Hi) as (y & Hy & Hk).
    exists y. split; [done|by eapply redone_kind]. }
  exists d'. split; [done|].
  destruct (discover_entries_spec root Hroot reads t Ht previous unknown d Hd) as (Sf & Sd & Sl & _).
  destruct (discover_entries_spec root Hroot reads' t Ht m true d' Hd') as (Sf' & Sd' & Sl' & _).
  assert (Hseen : ∀ p x, seen root reads t previous unknown p x →
    ∃ y, seen root reads' t m true p y ∧ redone m p x y).
  { intros p x (names & n & Hn & Hc & Hi). destruct (Hre names n p x Hn Hc Hi) as (y & Hy & Hk).
    exists y. split; [|done]. by exists names, n. }
  split_and!; intros p.
  - specialize (Fe p). specialize (K1 p). destruct (d_files d !! p) as [f|] eqn:Ef.
    + destruct (Hseen p (DFile f)) as (y & Hy & e & He & ->); [by apply Sf|].
      apply Sf' in Hy. rewrite He, Hy. constructor. split_and!; try done. apply permissions_match_refl.
    + apply option_Forall2_None in Fe as [Fe _]. rewrite Fe by done.
      destruct (d_files d' !! p); [by destruct (proj2 K1 ltac:(eauto))|constructor].
  - specialize (Fd p). specialize (K2 p). destruct (d_directories d !! p) as [f|] eqn:Ef.
    + destruct (Hseen p (DDirectory f)) as (y & Hy & ->); [by apply Sd|].
      apply Sd' in Hy. rewrite Hy. destruct (option_Forall2_left _ _ _ _ Fd eq_refl) as (e & -> & Hm).
      constructor. by eapply permissions_match_true.
    + apply option_Forall2_None in Fd as [Fd _]. rewrite Fd by done.
      destruct (d_directories d' !! p); [by destruct (proj2 K2 ltac:(eauto))|constructor].
  - specialize (Fl p). specialize (K3 p). destruct (d_symlinks d !! p) as [f|] eqn:Ef.
    + destruct (Hseen p (DSymlink f)) as (y & Hy & ->); [by apply Sl|].
      apply Sl' in Hy. rewrite Hy. destruct (option_Forall2_left _ _ _ _ Fl eq_refl) as (e & -> & Hm).
      by constructor.
    + apply option_Forall2_None in Fl as [Fl _]. rewrite Fl by done.
      destruct (d_symlinks d' !! p); [by destruct (proj2 K3 ltac:(eauto))|constructor].
Qed.

(** C5: scanning again what was just scanned finds nothing to do, whatever the
    clock, the time and the files' contents are: it borrows the manifest, ticks no
    clock, and succeeds even when no file can be read, because no file is hashed a
    second time. *)
Theorem rescan_finds_nothing (root : bytes)
    (reads reads' : list bytes → nat → io (list bytes * node)) (previous : Manifest)
    (endpoint_id endpoint_id' : EndpointId) (now_ms now_ms' : Z) (t : tree)
    (clock clock' : ClockState) (r : ScanResult Cow)
    (Hroot : root ≠ []) (Ht : disk_tree t) (Hclock : ClockState_validate clock' = Ok tt)
    (Hscan : scan_manifest_cached_after_validation root reads previous endpoint_id now_ms t clock
             = Ok r) :
  let m := into_owned (sr_manifest r) in
  scan_manifest_cached_after_validation root reads' m endpoint_id' now_ms' t clock' =
    Ok {| sr_manifest := Borrowed m; sr_clock := clock';
          sr_files := Z.of_nat (size (mf_entries m));
          sr_tombstones := Z.of_nat (size (mf_tombstones m));
          sr_changes := 0; sr_changed := false; sr_manifest_changed := false |}.
Proof.
  intros m. apply scan_scanned in Hscan as (d & Hd & Hs).
  assert (Hformat : mf_format_version m = MANIFEST_FORMAT_VERSION).
  { subst m. by destruct Hs as [r' Hf _ -> _ _ _|r' st _ _ -> _ _ _ _]. }
  apply scanned_agrees in Hs. fold m in Hs.
  destruct (rediscovered root reads reads' previous m _ t d Hroot Ht Hd Hs) as (d' & Hd' & Hu).
  unfold scan_manifest_cached_after_validation. rewrite Hclock. cbn [mbind result_bind].
  assert (unknown_permissions m = true) as -> by (unfold unknown_permissions; by rewrite Hformat).
  rewrite Hd'. cbn [mbind result_bind]. by rewrite (proj2 (matches_previous_iff _ _ _) (conj Hformat Hu)).
Qed.
End properties.

(** *** Witnesses *)

Import Ref.

(** The entries of a tree in the order of its map. *)
Lemma elem_of_all_entries (t : tree) p n : Some (p, n) ∈ map Some (map_to_list t) ↔ t !! p = Some n.
Proof.
  rewrite list_elem_of_In, in_map_iff, <-elem_of_map_to_list. split.
  - intros ([q m] & [= -> ->] & Hin). by apply list_elem_of_In.
  - intros Hn. exists (p, n). split; [done|]. by apply list_elem_of_In.
Qed.
#[export] Instance walk_ref : WalkDir := {|
  walk_dir t := map Some (map_to_list t);
  walk_dir_sound t p n := proj1 (elem_of_all_entries t p n);
  walk_dir_complete t p n _ _ := proj2 (elem_of_all_entries t p n) |}.

Definition ex_reads (names : list bytes) (k : nat) : io (list bytes * node) :=
  match open_file ex_tree names with
  | Done n => Done (if bool_decide (file_content n = []) then [] else [file_content n], n)
  | Fails e => Fails e
  end.
Definition ex_scan (previous : Manifest) (clock : ClockState) : result (ScanResult Cow) :=
  scan_manifest_cached_after_validation (bs "/s") ex_reads previous (endpoint "001") 5 ex_tree clock.

Lemma ex_disk_tree : disk_tree ex_tree.
Proof.
  split; [apply ex_tree_wf|]. intros p n Hp. apply elem_of_map_to_list in Hp.
  vm_compute in Hp. repeat (apply elem_of_cons in Hp as [Hp|Hp]); [..|by apply not_elem_of_nil in Hp];
    injection Hp as -> _; repeat constructor; try done; set_solver.
Qed.

Lemma ex_quiet : quiet ex_reads ex_tree.
Proof.
  intros names n k Hn Hf. unfold ex_reads. destruct (open_file ex_tree names) as [n'|e] eqn:Eo; [|done].
  assert (n' = n) as ->.
  { unfold open_file in Eo. destruct (lstat ex_tree names) as [m|] eqn:El; [|done].
    apply lstat_Done in El. destruct (is_file m && may_read m); [|done]. congruence. }
  eexists. split; [done|]. case_bool_decide as Ec; simpl; [by rewrite Ec|].
  split; [by repeat constructor|]. by rewrite app_nil_r.
Qed.


Definition ex_previous : Manifest := ex_manifest (bs "gone") (ex_file 1 "001").
Definition ex_clock : ClockState :=
  {| clock_format_version := 1; last_wall_ms := 1; last_counter := 0 |}.

Lemma scan_supersedes_previous_witness :
  ∃ r, ex_scan ex_previous ex_clock = Ok r ∧
    let m := into_owned (sr_manifest r) in
    manifest_valid m (mf_share_id ex_previous) ∧ is_Some (record m (bs "gone")) ∧
    select_record (record m (bs "gone")) (record ex_previous (bs "gone")) = record m (bs "gone").
Proof.
  assert (Hok : is_ok (ex_scan ex_previous ex_clock) = true) by (vm_compute; reflexivity).
  destruct (ex_scan ex_previous ex_clock) as [r|e] eqn:E; [|discriminate Hok].
  exists r. split; [reflexivity|].
  assert (Hv : manifest_valid ex_previous (mf_share_id ex_previous))
    by (apply Manifest_validate_Ok; vm_compute; reflexivity).
  destruct (scan_supersedes_previous (bs "/s") ex_reads ex_previous (endpoint "001") 5 ex_tree
              ex_clock r Hv E) as (H1 & H2 & _ & H4).
  split; [exact H1|]. split.
  - apply H2. unfold ex_previous. rewrite ex_record. by eexists.
  - apply H4. intros p y. unfold ex_previous. rewrite ex_record. case_decide; [|discriminate].
    intros [= <-]. right. split; [reflexivity|discriminate].
Defined.

Lemma rescan_finds_nothing_witness :
  ∃ r, ex_scan ex_previous ex_clock = Ok r ∧
    ∃ r', scan_manifest_cached_after_validation (bs "/s") (λ _ _, Fails Refused)
      (into_owned (sr_manifest r)) (endpoint "002") 9 ex_tree ClockState_new = Ok r' ∧
    sr_changes r' = 0.
Proof.
  assert (Hok : is_ok (ex_scan ex_previous ex_clock) = true) by (vm_compute; reflexivity).
  destruct (ex_scan ex_previous ex_clock) as [r|e] eqn:E; [|discriminate Hok].
  exists r. split; [reflexivity|]. eexists. split.
  - exact (rescan_finds_nothing (bs "/s") ex_reads (λ _ _, Fails Refused) ex_previous
             (endpoint "001") (endpoint "002") 5 9 ex_tree ex_clock ClockState_new r
             ltac:(discriminate) ex_disk_tree eq_refl E).
  - reflexivity.
Defined.
