(* ===== verification/ScanSuccess.v ===== *)
(** * When a scan succeeds (src/manifest/scan.rs)

    The manifest that the loops of a scan build is valid whenever it is not too
    large: what lies above a file in the directory is a directory, so the hierarchy
    check of [Manifest::validate] cannot fail on a scanned tree.  Together with the
    walk and the clock this gives the conditions under which a scan returns a
    manifest. *)

From S2P Require Import Prelude Collections Bytes External Reference Clock Types ManifestPath Manifest Merge LocalFs Scan.

(** ** Validity of what a scan builds *)

Lemma sha256_text `{HexCodec, Sha256} b : is_sha256_text (hex_encode (sha256 b)) = true.
Proof.
  unfold is_sha256_text, blen. rewrite length_hex_encode, length_sha256, hex_encode_lower. done.
Qed.

Lemma hash_reads_text `{HexCodec, Sha256} hashed pieces :
  is_sha256_text (hex_encode (hash_reads hashed pieces)) = true.
Proof.
  revert hashed. induction pieces as [|p ps IH]; intros hashed; simpl; [apply sha256_text|].
  case_bool_decide; [apply sha256_text|apply IH].
Qed.

Lemma metadata_permissions_ok n : permissions_ok (permissions_from_metadata n).
Proof.
  unfold permissions_ok, validate_permissions, permissions_from_metadata, MODE_MASK.
  apply bail_if_Ok, Z.ltb_ge. change 4095 with (Z.ones 12). rewrite Z.land_ones by lia.
  pose proof (Z.mod_pos_bound (n_mode n) (2 ^ 12)). change (Z.ones 12) with 4095. lia.
Qed.

(** A proper ancestor of a path is spelled by a proper prefix of its names. *)
Lemma ancestor_names names a b :
  names ≠ [] → Forall good_name names → join_slash names = a ++ slash :: b →
  ∃ ns rest, names = ns ++ rest ∧ ns ≠ [] ∧ rest ≠ [] ∧ a = join_slash ns.
Proof.
  intros Hne Hg E. exists (split_slash a), (split_slash b).
  split_and!; [|apply split_slash_nonempty..|by rewrite join_split].
  rewrite <-split_slash_app, <-E, split_join; [done|done|].
  eapply Forall_impl; [exact Hg|]. by intros p (_ & _ & _ & ?).
Qed.

Section valid.
Context `{HexCodec, Sha256, Iroh, WalkDir} (root : bytes) (Hroot : root ≠ []).
Context (reads : list bytes → nat → io (list bytes * node)).
Context (t : tree) (Ht : disk_tree t) (previous : Manifest) (unknown : bool).
Context (endpoint_id : EndpointId) (now_ms : Z) (clock : ClockState).
Context (Hp : manifest_valid previous (mf_share_id previous)).
Context (d : DiscoveredEntries) (Hd : discover_entries root reads t previous unknown = Ok d).
Context (st : scanning) (Ho : scan_out previous endpoint_id unknown clock d st).
Let m : Manifest := scanned_manifest previous now_ms st.

Lemma issued_author v : issued endpoint_id clock st v → author_ok v.
Proof. intros (_ & _ & Ha & _). unfold author_ok. rewrite Ha, ep_from_as_bytes. eauto. Qed.

(** The kinds of what was discovered at a path exclude one another. *)
Lemma discovered_exclusive p :
  (is_Some (d_files d !! p) → d_directories d !! p = None ∧ d_symlinks d !! p = None) ∧
  (is_Some (d_directories d !! p) → d_symlinks d !! p = None).
Proof.
  destruct (discover_entries_spec root Hroot reads t Ht previous unknown d Hd) as (Sf & Sd & Sl & _).
  pose proof (seen_functional root Hroot reads t Ht previous unknown p) as Hfun. split.
  - intros [f Hf%Sf]. split; apply eq_None_not_Some; intros [x Hx].
    + apply Sd in Hx. discriminate (Hfun _ _ Hf Hx).
    + apply Sl in Hx. discriminate (Hfun _ _ Hf Hx).
  - intros [y Hy%Sd]. apply eq_None_not_Some; intros [x Hx%Sl]. discriminate (Hfun _ _ Hy Hx).
Qed.

Lemma scanned_exclusive : exclusive m.
Proof.
  apply exclusive_spec. simpl. split_and!.
  - intros p [e He]. destruct (option_Forall2_right _ _ _ _ (so_entries _ _ _ _ _ _ Ho p) He)
      as (f & Hf & _). destruct (proj1 (discovered_exclusive p)) as [E1 E2]; [eauto|].
    split_and!; [by apply (option_Forall2_None _ _ _ (so_directories _ _ _ _ _ _ Ho p))
      |by apply (option_Forall2_None _ _ _ (so_symlinks _ _ _ _ _ _ Ho p))|].
    apply (so_found _ _ _ _ _ _ Ho). left. eauto.
  - intros p [e He]. destruct (option_Forall2_right _ _ _ _ (so_directories _ _ _ _ _ _ Ho p) He)
      as (f & Hf & _). assert (E : d_symlinks d !! p = None).
    { apply discovered_exclusive. eauto. }
    split; [by apply (option_Forall2_None _ _ _ (so_symlinks _ _ _ _ _ _ Ho p))|].
    apply (so_found _ _ _ _ _ _ Ho). right; left. eauto.
  - intros p [e He]. destruct (option_Forall2_right _ _ _ _ (so_symlinks _ _ _ _ _ _ Ho p) He)
      as (f & Hf & _). apply (so_found _ _ _ _ _ _ Ho). right; right. eauto.
Qed.

Lemma scanned_entry_ok p e : sc_entries st !! p = Some e → path_ok p ∧ entry_ok e.
Proof.
  intros He. destruct (option_Forall2_right _ _ _ _ (so_entries _ _ _ _ _ _ Ho p) He)
    as (f & Hf & Hout).
  destruct (discover_entries_spec root Hroot reads t Ht previous unknown d Hd) as (Sf & _).
  apply Sf in Hf. destruct (seen_kind root Hroot reads t Ht previous unknown _ _ Hf)
    as (names & n & Hn & _ & _ & Hpath & _ & Hdf). split; [done|].
  destruct Hout as [(old & Hold & Hu & ->)|[-> Hi]].
  - destruct (mv_entries _ _ Hp p old Hold) as (_ & (Hsha & Hperm & Ha) & _).
    unfold file_unchanged in Hu. bool_inv. split_and!; simpl; [congruence|done|done].
  - pose proof (issued_author _ Hi) as Ha.
    pose proof (discover_file_Ok _ _ _ _ _ _ _ Hdf) as (_ & _ & _ & [Hdig|Hdig]).
    + destruct Hdig as (old & Hold & _ & E1 & E2).
      destruct (mv_entries _ _ Hp p old Hold) as (_ & (Hsha & Hperm & _) & _).
      split_and!; simpl; [congruence|unfold selected_permissions; congruence|done].
    + destruct Hdig as (E2 & k & pieces & after & _ & _ & _ & E1).
      split_and!; simpl; [rewrite E1; apply hash_reads_text
        |unfold selected_permissions; rewrite E2; apply metadata_permissions_ok|done].
Qed.

Lemma scanned_records_ok p x : record m p = Some x → path_ok p ∧ record_ok x.
Proof.
  destruct (discover_entries_spec root Hroot reads t Ht previous unknown d Hd) as (Sf & Sd & Sl & _).
  rewrite (scanned_exclusive p x). destruct x as [e|e|e|tb]; simpl; intros Hx.
  - by apply scanned_entry_ok.
  - destruct (option_Forall2_right _ _ _ _ (so_directories _ _ _ _ _ _ Ho p) Hx) as (f & Hf & Hout).
    apply Sd in Hf. destruct (seen_kind root Hroot reads t Ht previous unknown _ _ Hf)
      as (names & n & _ & _ & _ & Hpath & _ & ->). split; [done|].
    destruct Hout as [[Hold _]|[E Hi]].
    + by destruct (mv_directories _ _ Hp p e Hold) as (_ & ? & _).
    + split; [rewrite E; apply metadata_permissions_ok|by apply issued_author].
  - destruct (option_Forall2_right _ _ _ _ (so_symlinks _ _ _ _ _ _ Ho p) Hx)
      as (f & Hf & E & Hout).
    apply Sl in Hf. destruct (seen_kind root Hroot reads t Ht previous unknown _ _ Hf)
      as (names & n & _ & _ & _ & Hpath & _ & Hv). split; [done|]. split; [congruence|].
    destruct Hout as [Hold|Hi]; [|by apply issued_author].
    by destruct (mv_symlinks _ _ Hp p e Hold) as (_ & [_ ?] & _).
  - destruct (decide (found d p)) as [Hf|Hf].
    { rewrite (so_found _ _ _ _ _ _ Ho p Hf) in Hx. done. }
    destruct (decide (p ∈ live_paths previous)) as [Hl|Hl].
    + destruct (so_gone _ _ _ _ _ _ Ho p Hf Hl) as (tb' & Htb & Hi).
      assert (tb' = tb) as -> by congruence. split; [|by apply issued_author].
      eapply mv_path_ok; [exact Hp|]. unfold live_paths in Hl. unfold paths.
      rewrite !elem_of_app in *. tauto.
    + rewrite (so_kept _ _ _ _ _ _ Ho p Hf Hl) in Hx. by apply (mv_tombstones _ _ Hp).
Qed.

(** A live path of the manifest is a node, and everything above it a directory. *)
Lemma scanned_live p :
  p ∈ live_paths m → ∃ names n, t !! names = Some n ∧ names ≠ [] ∧ p = join_slash names.
Proof.
  destruct (discover_entries_spec root Hroot reads t Ht previous unknown d Hd) as (Sf & Sd & Sl & _).
  intros Hl. assert (Hs : ∃ x, seen root reads t previous unknown p x).
  { unfold live_paths in Hl. rewrite !elem_of_app, !elem_of_bt_keys in Hl. simpl in Hl.
    destruct Hl as [[x Hx]|[[x Hx]|[x Hx]]].
    - destruct (option_Forall2_right _ _ _ _ (so_entries _ _ _ _ _ _ Ho p) Hx) as (f & Hf%Sf & _).
      eauto.
    - destruct (option_Forall2_right _ _ _ _ (so_directories _ _ _ _ _ _ Ho p) Hx)
        as (f & Hf%Sd & _). eauto.
    - destruct (option_Forall2_right _ _ _ _ (so_symlinks _ _ _ _ _ _ Ho p) Hx) as (f & Hf%Sl & _).
      eauto. }
  destruct Hs as (x & Hx). apply (seen_kind root Hroot reads t Ht) in Hx
    as (names & n & Hn & Hne & -> & _). by exists names, n.
Qed.

Lemma scanned_hierarchy : hierarchy_ok m.
Proof.
  intros p (names & n & Hn & Hne & ->)%scanned_live a b E.
  pose proof (proj2 Ht names n Hn) as Hg.
  destruct (ancestor_names names a b Hne Hg E) as (ns & rest & -> & Hns & Hrest & ->).
  destruct (tree_wf_ancestors t ns rest n) as (dir & Hdir & Hisdir); [apply Ht|done..|].
  destruct (discover_entries_spec root Hroot reads t Ht previous unknown d Hd)
    as (Sf & Sd & Sl & Hall).
  assert (Hc : counted (Some (ns, dir)) = true).
  { apply counted_true. split; [done|]. unfold is_special. by rewrite Hisdir. }
  destruct (Hall ns dir Hdir Hc) as (x & Hx & _).
  assert (Hfound : is_Some (d_directories d !! join_slash ns)).
  { pose proof (seen_kind root Hroot reads t Ht _ _ _ _ Hx) as (ns' & n' & Hn' & Hne' & E' & _ & Hk).
    apply join_slash_inj in E' as <-; [|done|done|by eapply Ht|by eapply Ht].
    assert (n' = dir) as -> by congruence. unfold is_dir in Hisdir.
    destruct x as [f|x|l]; [|exists x; by apply Sd|].
    - destruct Hk as [Hk _]. unfold is_file in Hk. by destruct (n_kind dir).
    - destruct Hk as [Hk _]. by rewrite Hk in Hisdir. }
  destruct Hfound as [x' Hx'].
  destruct (option_Forall2_left _ _ _ _ (so_directories _ _ _ _ _ _ Ho _) Hx') as (e & He & _).
  destruct (proj1 (exclusive_spec m) scanned_exclusive) as (X1 & X2 & X3).
  destruct (X2 (join_slash ns)) as [Y1 Y2]; [by exists e|].
  unfold blocks, contains_key. rewrite Y1, Y2.
  destruct (mf_entries m !! join_slash ns) as [f|] eqn:Ef; [|done].
  destruct (X1 (join_slash ns)) as (Z1 & _); [by rewrite Ef|]. simpl in Z1. congruence.
Qed.

(** The size of the manifest. *)
Lemma scanned_count :
  total_records m ≤ Z.of_nat (size (d_files d) + size (d_directories d) + size (d_symlinks d)
                              + length (paths previous)).
Proof.
  unfold total_records. simpl.
  rewrite <-(option_Forall2_size _ _ _ (so_entries _ _ _ _ _ _ Ho)),
    <-(option_Forall2_size _ _ _ (so_directories _ _ _ _ _ _ Ho)),
    <-(option_Forall2_size _ _ _ (so_symlinks _ _ _ _ _ _ Ho)).
  assert (Hts : (size (sc_tombstones st) ≤ length (paths previous))%nat); [|lia].
  rewrite <-length_bt_keys. apply submseteq_length, NoDup_submseteq; [apply bt_iter_nodup|].
  intros p [tb Htb]%elem_of_bt_keys. unfold paths. fold (live_paths previous).
  destruct (decide (found d p)) as [Hf|Hf].
  { rewrite (so_found _ _ _ _ _ _ Ho p Hf) in Htb. done. }
  destruct (decide (p ∈ live_paths previous)) as [Hl|Hl].
  - unfold live_paths in Hl. rewrite !elem_of_app in *. tauto.
  - rewrite (so_kept _ _ _ _ _ _ Ho p Hf Hl) in Htb.
    rewrite !elem_of_app, !elem_of_bt_keys, Htb. eauto.
Qed.

Lemma scanned_manifest_valid :
  (Z.of_nat (size (d_files d) + size (d_directories d) + size (d_symlinks d)
             + length (paths previous)) ≤ MAX_MANIFEST_ENTRIES) →
  manifest_valid m (mf_share_id previous).
Proof.
  intros Hc. apply manifest_valid_records. split_and!; [done|done| |apply scanned_exclusive
    |apply scanned_records_ok|apply scanned_hierarchy].
  etrans; [apply scanned_count|done].
Qed.
End valid.

(** ** Discovery succeeds *)

(** How many entries were discovered. *)
Definition discovered_count (d : DiscoveredEntries) : nat :=
  (size (d_files d) + size (d_directories d) + size (d_symlinks d))%nat.

Lemma size_insert_le {A : Type} (m : gmap bytes A) (p : bytes) (x : A) :
  (size (<[p := x]> m) ≤ S (size m))%nat.
Proof. rewrite map_size_insert. destruct (m !! p); simpl; lia. Qed.

Lemma add_discovered_count d item : (discovered_count (add_discovered d item) ≤ S (discovered_count d))%nat.
Proof.
  destruct item as [p x]. unfold discovered_count. destruct x as [f|f|f]; simpl.
  - pose proof (size_insert_le (d_files d) p f). lia.
  - pose proof (size_insert_le (d_directories d) p f). lia.
  - pose proof (size_insert_le (d_symlinks d) p f). lia.
Qed.

Lemma too_many_false d :
  Z.of_nat (discovered_count d) < MAX_MANIFEST_ENTRIES → too_many d = false.
Proof.
  unfold discovered_count, too_many, checked_add, MAX_MANIFEST_ENTRIES, u64_max. intros Hc.
  rewrite (proj2 (Z.leb_le _ _)) by lia. simpl. rewrite (proj2 (Z.leb_le _ _)) by lia. simpl.
  apply Z.leb_gt. lia.
Qed.

(** A node that can be inspected: its name fits a manifest, the directories above
    it can be searched, a link has a valid target, a file can be read. *)
Definition inspectable (t : tree) (names : list bytes) (n : node) : Prop :=
  Forall plain_name names ∧ path_ok (join_slash names) ∧ reachable t names ∧
  match n_kind n with
  | KSymlink target => is_utf8 target = true ∧ validate_symlink_target target = Ok tt
  | KFile _ => may_read n = true
  | _ => True
  end.

Section succeeds.
Context `{HexCodec, Sha256, Iroh, WalkDir} (root : bytes) (Hroot : root ≠ []).
Context (reads : list bytes → nat → io (list bytes * node)).
Context (t : tree) (Ht : disk_tree t) (Hq : quiet reads t) (previous : Manifest) (unknown : bool).

Lemma inspect_succeeds names n :
  t !! names = Some n → counted (Some (names, n)) = true → inspectable t names n →
  ∃ item, inspect root reads t previous unknown names n = Ok item.
Proof.
  intros Hn [_ Hs]%counted_true (Hplain & Hpath & Hreach & Hk). unfold inspect.
  rewrite (proj2 (good_names_relative root names (join_slash names) Hroot (proj2 Ht _ _ Hn))) by done.
  cbn [mbind result_bind]. unfold read_link.
  assert (lstat t names = Done n) as -> by (by apply lstat_reachable).
  unfold is_special in Hs. unfold is_symlink, is_dir in *.
  destruct (n_kind n) as [content| |target|] eqn:Ek; [| |destruct Hk as [-> ->]; simpl; eauto|].
  - unfold discover_file. assert (Hfile : is_file n = true) by (unfold is_file; by rewrite Ek).
    assert (Hslow : ∃ x, hash_stable_file (reads names) n = Ok x).
    { specialize (Hq names n 0%nat Hn Hfile). unfold open_file in Hq.
      rewrite (proj2 (lstat_reachable t names n) (conj Hreach Hn)), Hfile, Hk in Hq. simpl in Hq.
      destruct Hq as (pieces & Hr & _). unfold hash_stable_file. cbn [hash_rounds].
      rewrite Hr, !Z.eqb_refl, permissions_match_refl. eauto. }
    destruct Hslow as ([[[a b] c] e] & ->).
    destruct (mf_entries previous !! _) as [old|]; [destruct (fast_path _ _ _)|]; simpl; eauto.
  - eauto.
  - unfold is_file in Hs. by rewrite Ek in Hs.
Qed.

Lemma discover_succeeds :
  None ∉ walk_dir t →
  (∀ names n, t !! names = Some n → counted (Some (names, n)) = true → inspectable t names n) →
  Z.of_nat (length (List.filter counted (walk_dir t))) ≤ MAX_MANIFEST_ENTRIES →
  ∃ d, discover_entries root reads t previous unknown = Ok d ∧
    (discovered_count d ≤ length (List.filter counted (walk_dir t)))%nat.
Proof.
  intros Hnone Hins Hcount. unfold discover_entries.
  destruct (proj1 Ht) as [(n0 & -> & Hdir) _]. cbn [ok_or mbind result_bind]. rewrite Hdir. simpl.
  apply (try_fold_succeeds (λ l d, (discovered_count d ≤ length (List.filter counted l))%nat)); [|done].
  intros l entry rest d E Hd. rewrite E, List.filter_app, length_app in Hcount. simpl in Hcount.
  rewrite List.filter_app, length_app. simpl.
  destruct entry as [[names n]|]; [|destruct Hnone; rewrite E; set_solver].
  assert (Hn : t !! names = Some n) by (apply walk_dir_sound; rewrite E; set_solver).
  rewrite (discover_entry_cases root Hroot) by done.
  destruct (counted (Some (names, n))) eqn:Ec; [|exists d; split; [done|simpl; lia]].
  simpl in Hcount. rewrite too_many_false by lia. cbn [bail_if mbind result_bind].
  destruct (inspect_succeeds names n Hn Ec) as (item & ->); [by apply Hins|].
  eexists. split; [done|]. pose proof (add_discovered_count d item). simpl. lia.
Qed.
End succeeds.

(** ** The loops succeed *)

(** The clock can tick [k] more times at [now_ms]. *)
Definition room (now_ms : Z) (k : nat) (c : ClockState) : Prop :=
  clock_format_version c = FORMAT_VERSION ∧ Z.of_nat k ≤ u32_max ∧
  (last_wall_ms c < now_ms ∨ last_counter c + Z.of_nat k ≤ u32_max).

Lemma room_tick now_ms k c a :
  room now_ms (S k) c → ∃ c' v, tick c now_ms a = Ok (c', v) ∧ room now_ms k c'.
Proof.
  intros (Hv & Hk & Hr). unfold tick, ClockState_validate. rewrite Hv. simpl.
  destruct (Z.ltb_spec (last_wall_ms c) now_ms).
  - eexists _, _. split; [done|]. split_and!; simpl; [done|lia|lia].
  - rewrite (proj2 (next_counter_Ok (last_counter c) (last_counter c + 1))) by lia. simpl.
    eexists _, _. split; [done|]. split_and!; simpl; [done|lia|lia].
Qed.

Lemma room_less now_ms k c : room now_ms (S k) c → room now_ms k c.
Proof. intros (Hv & Hk & Hr). split_and!; [done|lia|lia]. Qed.

Section loops_succeed.
Context `{Iroh} (previous : Manifest) (endpoint_id : EndpointId) (now_ms : Z) (unknown : bool).

(** A step that ticks at most once. *)
Definition steps {A : Type} (f : scanning → A → result scanning) : Prop :=
  ∀ st x k, room now_ms (S k) (sc_clock st) →
    ∃ st', f st x = Ok st' ∧ room now_ms k (sc_clock st').

Lemma steps_fold {A : Type} (f : scanning → A → result scanning) (l : list A) st k :
  steps f → room now_ms (length l + k) (sc_clock st) →
  ∃ st', try_fold f l st = Ok st' ∧ room now_ms k (sc_clock st').
Proof.
  intros Hf. revert st. induction l as [|x l IH]; intros st Hr; simpl; [eauto|].
  destruct (Hf st x (length l + k)%nat Hr) as (st' & -> & Hr'). by apply IH.
Qed.

Lemma stamp_succeeds st k :
  room now_ms (S k) (sc_clock st) →
  ∃ c v n, stamp endpoint_id now_ms st = Ok (c, v, n) ∧ room now_ms k c.
Proof.
  intros (c & v & Ht & Hr)%(room_tick _ _ _ (ep_as_bytes endpoint_id)). unfold stamp.
  rewrite Ht. simpl. eauto.
Qed.

Lemma scan_file_steps : steps (scan_file previous endpoint_id now_ms unknown).
Proof.
  intros st [p f] k Hr. unfold scan_file. pose proof (room_less _ _ _ Hr) as Hl.
  destruct (stamp_succeeds st k Hr) as (c & v & n & -> & Hc).
  destruct (mf_entries previous !! p) as [old|]; [destruct (file_unchanged _ _ _)|]; simpl; eauto.
Qed.

Lemma scan_directory_steps : steps (scan_directory previous endpoint_id now_ms unknown).
Proof.
  intros st [p f] k Hr. unfold scan_directory. pose proof (room_less _ _ _ Hr) as Hl.
  destruct (stamp_succeeds st k Hr) as (c & v & n & -> & Hc).
  destruct (mf_directories previous !! p) as [old|]; [destruct (permissions_match _ _ _)|];
    simpl; eauto.
Qed.

Lemma scan_symlink_steps : steps (scan_symlink previous endpoint_id now_ms).
Proof.
  intros st [p f] k Hr. unfold scan_symlink. pose proof (room_less _ _ _ Hr) as Hl.
  destruct (stamp_succeeds st k Hr) as (c & v & n & -> & Hc).
  destruct (mf_symlinks previous !! p) as [old|]; [case_bool_decide|]; simpl; eauto.
Qed.

Lemma scan_missing_steps : steps (scan_missing endpoint_id now_ms).
Proof.
  intros st p k Hr. unfold scan_missing. pose proof (room_less _ _ _ Hr) as Hl.
  destruct (stamp_succeeds st k Hr) as (c & v & n & -> & Hc).
  destruct (_ && _); simpl; eauto.
Qed.

Lemma scan_loops_succeed d clock :
  room now_ms (discovered_count d + length (live_paths previous)) clock →
  ∃ st, scan_loops previous endpoint_id now_ms unknown d clock = Ok st.
Proof.
  intros Hr. unfold scan_loops, discovered_count in *. set (st0 := Build_scanning _ _ _ _ _ _).
  rewrite <-!length_bt_iter in Hr. rewrite <-!Nat.add_assoc in Hr.
  destruct (steps_fold _ (bt_iter (d_files d)) st0 _ scan_file_steps Hr) as (st1 & -> & H1). simpl.
  destruct (steps_fold _ (bt_iter (d_directories d)) st1 _ scan_directory_steps H1)
    as (st2 & -> & H2). simpl.
  destruct (steps_fold _ (bt_iter (d_symlinks d)) st2 _ scan_symlink_steps H2)
    as (st3 & -> & H3). simpl. rewrite <-(Nat.add_0_r (length _)) in H3.
  destruct (steps_fold _ (live_paths previous) st3 0%nat scan_missing_steps H3) as (st4 & -> & _).
  eauto.
Qed.
End loops_succeed.

(** ** Properties *)

(** C6: a scan succeeds: when the files hold still and can be read, every name and
    link target fits a manifest, the directory and the previous manifest together
    name at most 100000 paths and the clock's counter is not about to overflow, it
    returns a manifest.  In particular its final validation never fails on a
    hierarchy error: what lies above a live path on disk is a directory. *)
Theorem scan_succeeds `{HexCodec, Sha256, Iroh, WalkDir} (root : bytes)
    (reads : list bytes → nat → io (list bytes * node)) (previous : Manifest)
    (endpoint_id : EndpointId) (now_ms : Z) (t : tree) (clock : ClockState)
    (Hroot : root ≠ []) (Ht : disk_tree t) (Hq : quiet reads t)
    (Hp : manifest_valid previous (mf_share_id previous))
    (Hwalk : None ∉ walk_dir t)
    (Hins : ∀ names n, t !! names = Some n → counted (Some (names, n)) = true →
      inspectable t names n)
    (Hsmall : Z.of_nat (length (List.filter counted (walk_dir t)) + length (paths previous))
      ≤ MAX_MANIFEST_ENTRIES)
    (Hclock : room now_ms (Z.to_nat MAX_MANIFEST_ENTRIES) clock) :
  ∃ r, scan_manifest_cached_after_validation root reads previous endpoint_id now_ms t clock = Ok r.
Proof.
  unfold scan_manifest_cached_after_validation. set (unknown := unknown_permissions previous).
  destruct (discover_succeeds root Hroot reads t Ht Hq previous unknown Hwalk Hins)
    as (d & Hd & Hcount); [lia|].
  destruct Hclock as (Hv & Hk & Hr). unfold ClockState_validate. rewrite Hv. simpl. rewrite Hd. simpl.
  destruct (matches_previous d previous unknown); [eauto|].
  assert (Hlive : (length (live_paths previous) ≤ length (paths previous))%nat).
  { unfold live_paths, paths. rewrite !length_app. lia. }
  destruct (scan_loops_succeed previous endpoint_id now_ms unknown d clock) as (st & Hst).
  { unfold MAX_MANIFEST_ENTRIES in *. split_and!; [done|lia|lia]. }
  rewrite Hst. simpl. apply scan_loops_spec in Hst.
  assert (Hm : Manifest_validate (scanned_manifest previous now_ms st) (mf_share_id previous) = Ok tt).
  { apply Manifest_validate_Ok. eapply (scanned_manifest_valid root Hroot reads t Ht); [done..|].
    unfold discovered_count in Hcount. lia. }
  rewrite Hm. simpl. eauto.
Qed.

(** *** Witnesses *)

Import Ref.

Lemma ex_inspectable names n :
  ex_tree !! names = Some n → counted (Some (names, n)) = true → inspectable ex_tree names n.
Proof.
  unfold ex_tree. rewrite !lookup_insert_Some, lookup_empty.
  intros [[<- <-]|[_ [[<- <-]|[_ [[<- <-]|[_ Hn]]]]]] Hc; [discriminate Hc| | |discriminate Hn].
  - split_and!; [repeat constructor; (done || set_solver)|done| |done].
    intros p Hp. vm_compute in Hp. apply elem_of_cons in Hp as [->|Hp]; [|by apply not_elem_of_nil in Hp].
    by eexists.
  - split_and!; [repeat constructor; (done || set_solver)|done| |done].
    intros p Hp. vm_compute in Hp.
    apply elem_of_cons in Hp as [->|Hp]; [by eexists|].
    apply elem_of_cons in Hp as [->|Hp]; [by eexists|by apply not_elem_of_nil in Hp].
Qed.

Lemma scan_succeeds_witness : ∃ r, ex_scan ex_previous ex_clock = Ok r.
Proof.
  apply (scan_succeeds (bs "/s") ex_reads ex_previous (endpoint "001") 5 ex_tree ex_clock).
  - discriminate.
  - exact ex_disk_tree.
  - exact ex_quiet.
  - apply Manifest_validate_Ok. vm_compute. reflexivity.
  - change (None ∉ map Some (map_to_list ex_tree)). rewrite list_elem_of_In, in_map_iff.
    intros (x & Hx & _). discriminate Hx.
  - exact ex_inspectable.
  - vm_compute. discriminate.
  - split_and!; vm_compute; intuition congruence.
Defined.
