(* ===== verification/Replicas.v ===== *)
(** * Replicas of a share (src/manifest/scan.rs, src/manifest/merge.rs)

    The devices of a share over time: each scans its directory and applies manifests that
    others held, now or earlier.  In every such history a version stands for one content,
    which is what makes the merge of any manifests independent of their order. *)

From stdpp Require Import relations.
From S2P Require Import Prelude Collections Bytes External Reference Clock Types ManifestPath Manifest Merge Digest LocalFs Scan.

Section replicas.
Context `{HexCodec, Sha256, Iroh, WalkDir, Blake3}.
Context (share_id : bytes).

(** What a device holds. *)
Record replica := {
  rp_manifest : Manifest;
  rp_clock : ClockState;
}.
(** The devices, and all manifests that any of them ever held. *)
Record world := {
  wo_replicas : gmap EndpointId replica;
  wo_manifests : list Manifest;
}.

Definition hold (w : world) (device : EndpointId) (x : replica) : world := {|
  wo_replicas := <[device := x]> (wo_replicas w);
  wo_manifests := rp_manifest x :: wo_manifests w |}.

(** [device] has never issued a version. *)
Definition unheard (w : world) (device : EndpointId) : Prop :=
  ∀ m p r, m ∈ wo_manifests w → record m p = Some r → author (rec_version r) ≠ ep_as_bytes device.

(** A device joins with an empty manifest, scans its directory, or applies a manifest that
    some device held: each path keeps its record or takes the one the merge selects (the
    outcome of [apply_remote_transfer_impl], pending downloads included), and the clock
    does not go back. *)
Inductive world_step : world → world → Prop :=
| step_join w device now clock :
    wo_replicas w !! device = None → unheard w device →
    world_step w (hold w device {| rp_manifest := Manifest_empty share_id now; rp_clock := clock |})
| step_scan w device x root reads now_ms t (r : ScanResult Cow) :
    wo_replicas w !! device = Some x →
    scan_manifest_cached_after_validation root reads (rp_manifest x) device now_ms t (rp_clock x) = Ok r →
    world_step w (hold w device {| rp_manifest := into_owned (sr_manifest r); rp_clock := sr_clock r |})
| step_apply w device x remote (m : Manifest) clock :
    wo_replicas w !! device = Some x → remote ∈ wo_manifests w →
    manifest_valid m share_id → clock_le (rp_clock x) clock →
    (∀ p, record m p = record (rp_manifest x) p ∨
          record m p = select_record (record (rp_manifest x) p) (record remote p)) →
    world_step w (hold w device {| rp_manifest := m; rp_clock := clock |}).

Definition nothing : world := {| wo_replicas := ∅; wo_manifests := [] |}.

(** ** Versions identify contents *)

Record world_ok (w : world) : Prop := {
  wk_valid m : m ∈ wo_manifests w → manifest_valid m share_id;
  wk_held device x : wo_replicas w !! device = Some x → rp_manifest x ∈ wo_manifests w;
  wk_agree m m' p : m ∈ wo_manifests w → m' ∈ wo_manifests w → agree (record m p) (record m' p);
  wk_covers m p r device x : m ∈ wo_manifests w → record m p = Some r →
    wo_replicas w !! device = Some x → author (rec_version r) = ep_as_bytes device →
    covers (rp_clock x) (rec_version r);
}.

Lemma agree_sym a b : agree a b → agree b a.
Proof. intros Hab x y Hx Hy Hv Htx Hty. symmetry. by apply Hab. Qed.
Lemma agree_refl a : agree a a.
Proof. intros x y Hx Hy. by replace y with x by congruence. Qed.

Lemma refreshed_synced y x : refreshed y x → synced x = synced y.
Proof.
  destruct y as [old|old|old|old], x as [new|new|new|new]; simpl; try by intros [= ->].
  by intros (-> & -> & -> & ->).
Qed.
Lemma refreshed_tombstone y x : refreshed y x → is_tombstone x = is_tombstone y.
Proof. intros Hr%refreshed_synced. by rewrite <-(synced_tombstone x), Hr, synced_tombstone. Qed.
Lemma refreshed_version y x : refreshed y x → rec_version x = rec_version y.
Proof. intros Hr%refreshed_synced. by rewrite <-(synced_version x), Hr, synced_version. Qed.

(** A new manifest whose records are known ones, or fresh versions of its device. *)
Definition grows (w : world) (device : EndpointId) (clock clock' : ClockState) (m : Manifest) : Prop :=
  ∀ p r, record m p = Some r →
    (∃ m' y, m' ∈ wo_manifests w ∧ record m' p = Some y ∧ refreshed y r) ∨
    newer clock clock' device (rec_version r).

Lemma hold_ok w device (m : Manifest) clock clock' :
  world_ok w → manifest_valid m share_id → clock_le clock clock' →
  (match wo_replicas w !! device with Some x => rp_clock x = clock | None => unheard w device end) →
  grows w device clock clock' m → (wo_replicas w !! device = None → ∀ p, record m p = None) →
  world_ok (hold w device {| rp_manifest := m; rp_clock := clock' |}).
Proof.
  intros [Hv Hh Ha Hc] Hm Hle Hclock Hgrow Hnew.
  assert (Hcov : ∀ m' p r, m' ∈ wo_manifests w → record m' p = Some r →
    author (rec_version r) = ep_as_bytes device → covers clock' (rec_version r)).
  { intros m' p r Hin Hr Hauthor. destruct (wo_replicas w !! device) as [x|] eqn:E.
    - eapply covers_le; [exact Hle|]. subst clock. by eapply Hc.
    - by destruct (Hclock m' p r). }
  assert (Hold : ∀ m' p, m' ∈ wo_manifests w → agree (record m p) (record m' p)).
  { intros m' p Hin r r' Hr Hr' Hver Hlive Hlive'.
    destruct (Hgrow p r Hr) as [(o & y & Ho & Hy & Href)|(Hlt & _ & Hauthor)].
    - rewrite (refreshed_synced _ _ Href). eapply (Ha o m' p Ho Hin); [done|done| | |done].
      + by rewrite <-(refreshed_version _ _ Href).
      + by rewrite <-(refreshed_tombstone _ _ Href).
    - exfalso. destruct (wo_replicas w !! device) as [x|] eqn:E; [|by rewrite (Hnew eq_refl) in Hr].
      subst clock. rewrite Hver in Hlt, Hauthor. specialize (Hlt (rec_version r')).
      rewrite ltb_irrefl in Hlt. by discriminate Hlt; eapply Hc. }
  split; simpl.
  - intros m' [->|Hin]%elem_of_cons; auto.
  - intros d x. destruct (decide (d = device)) as [->|Hne].
    + rewrite lookup_insert_eq. intros [= <-]. by left.
    + rewrite lookup_insert_ne by done. intros Hx. right. by eapply Hh.
  - intros m1 m2 p [->|Hin1]%elem_of_cons [->|Hin2]%elem_of_cons; auto using agree_refl, agree_sym.
  - intros m' p r d x Hin Hr Hx Hauthor. destruct (decide (d = device)) as [->|Hne].
    + rewrite lookup_insert_eq in Hx. injection Hx as <-. simpl.
      apply elem_of_cons in Hin as [->|Hin]; [|by eapply Hcov].
      destruct (Hgrow p r Hr) as [(o & y & Ho & Hy & Href)|(_ & Hcovers & _)]; [|done].
      rewrite (refreshed_version _ _ Href) in *. by eapply Hcov.
    + rewrite lookup_insert_ne in Hx by done. apply elem_of_cons in Hin as [->|Hin]; [|by eapply Hc].
      destruct (Hgrow p r Hr) as [(o & y & Ho & Hy & Href)|(_ & _ & Hmine)].
      * rewrite (refreshed_version _ _ Href) in *. by eapply Hc.
      * rewrite Hmine in Hauthor. apply (inj ep_as_bytes) in Hauthor. congruence.
Qed.

Lemma world_step_ok w w' : world_step w w' → world_ok w → world_ok w'.
Proof.
  intros Hstep Hw. destruct Hstep as [w device now clock Hnone Hun
    |w device x root reads now_ms t r Hx Hscan|w device x remote m clock Hx Hin Hm Hle Hrec].
  - apply (hold_ok w device _ clock); try done; [apply clock_le_refl|by rewrite Hnone].
  - assert (Hp : manifest_valid (rp_manifest x) share_id) by (eapply wk_valid; [done|by eapply wk_held]).
    assert (Hid : mf_share_id (rp_manifest x) = share_id) by apply Hp.
    apply scan_scanned in Hscan as (d & _ & Hs).
    assert (Hp' : manifest_valid (rp_manifest x) (mf_share_id (rp_manifest x))) by by rewrite Hid.
    apply (hold_ok w device _ (rp_clock x)); try done.
    + rewrite <-Hid. by eapply scanned_valid.
    + by apply (scanned_clock _ _ _ _ _ _ Hs).
    + by rewrite Hx.
    + intros p y Hy. destruct (scanned_record _ _ _ _ Hp' d r p y Hs Hy) as [(o & Ho & Href)|[Hn _]]; [left|by right].
      exists (rp_manifest x), o. split_and!; [by eapply wk_held|done|done].
    + by rewrite Hx.
  - apply (hold_ok w device m (rp_clock x)); try done; [by rewrite Hx| |by rewrite Hx].
    intros p r Hr. left. assert (Hone : record (rp_manifest x) p = Some r ∨ record remote p = Some r).
    { destruct (Hrec p) as [E|E]; rewrite Hr in E; [by left|]. symmetry in E. by apply select_is_one in E. }
    destruct Hone as [E|E]; [exists (rp_manifest x), r|exists remote, r]; split_and!; try done;
      try apply refreshed_refl. by eapply wk_held.
Qed.

Lemma world_run_ok w : rtc world_step nothing w → world_ok w.
Proof.
  intros Hrun. assert (Hstart : world_ok nothing).
  { split; simpl; intros; set_solver. }
  revert Hstart. generalize nothing, Hrun. clear Hrun. intros w0 Hrun.
  induction Hrun; eauto using world_step_ok.
Qed.

(** Equal synchronized records are an equal synchronized state. *)
Lemma synced_same (a b : Manifest) :
  exclusive a → exclusive b → mf_format_version a = mf_format_version b → mf_share_id a = mf_share_id b →
  (∀ p, synced <$> record a p = synced <$> record b p) → same_sync a b.
Proof.
  intros Ha Hb Hf Hs Hab.
  assert (Hone : ∀ a b, exclusive a → exclusive b → (∀ p, synced <$> record a p = synced <$> record b p) →
    ∀ p r, record a p = Some r → ∃ r', record b p = Some r' ∧ synced r' = synced r).
  { intros u v _ _ Huv p r Hr. specialize (Huv p). rewrite Hr in Huv.
    destruct (record v p) as [r'|]; [|done]. injection Huv as Huv. by exists r'. }
  pose proof (Hone a b Ha Hb Hab) as Hab'. pose proof (Hone b a Hb Ha (λ p, eq_sym (Hab p))) as Hba'.
  split; try done; apply map_eq; intros p; apply option_eq; intros v.
  - rewrite !lookup_fmap. split; intros (e & He & Hv)%fmap_Some.
    + apply (Ha p (RFile e)) in He. apply Hab' in He as ([e'| | |] & Hr & [= E1 E2 E3 E4]).
      apply Hb in Hr. rewrite Hr. simpl. rewrite Hv. unfold synced_file. congruence.
    + apply (Hb p (RFile e)) in He. apply Hba' in He as ([e'| | |] & Hr & [= E1 E2 E3 E4]).
      apply Ha in Hr. rewrite Hr. simpl. rewrite Hv. unfold synced_file. congruence.
  - split; intros He; [apply (Ha p (RDirectory v)), Hab' in He|apply (Hb p (RDirectory v)), Hba' in He];
      destruct He as ([| | |] & Hr & [= <-]); [by apply Hb in Hr|by apply Ha in Hr].
  - split; intros He; [apply (Ha p (RSymlink v)), Hab' in He|apply (Hb p (RSymlink v)), Hba' in He];
      destruct He as ([| | |] & Hr & [= <-]); [by apply Hb in Hr|by apply Ha in Hr].
  - split; intros He; [apply (Ha p (RTombstone v)), Hab' in He|apply (Hb p (RTombstone v)), Hba' in He];
      destruct He as ([| | |] & Hr & [= <-]); [by apply Hb in Hr|by apply Ha in Hr].
Qed.

(** ** Properties *)

(** C1: replicas converge.  Whatever devices of a share scanned and applied before, two
    merges of the same set of manifests that devices hold or held, in whatever order and
    however often each, give every path the same record, up to the local modification time
    of a file, and so the same synchronization digest.  That records of one version have
    one content is not assumed but holds in every history in which each device joins once,
    keeps its clock and makes up no manifest. *)
Theorem merge_convergence (w : world) (m m' : Manifest) (ms ms' : list Manifest)
    (now now' : Z) (a b : Manifest)
    (Hrun : rtc world_step nothing w)
    (Hheld : ∀ x, x ∈ m :: ms → x ∈ wo_manifests w) (Hsame : ∀ x, x ∈ m :: ms ↔ x ∈ m' :: ms')
    (Ha : merge_all m ms now = Ok a) (Hb : merge_all m' ms' now' = Ok b) :
  (∀ p, synced <$> record a p = synced <$> record b p) ∧
  (ms ≠ [] → ms' ≠ [] → sync_digest_after_validation a = sync_digest_after_validation b).
Proof.
  apply world_run_ok in Hrun.
  assert (Hrecords : ∀ p, synced <$> record a p = synced <$> record b p).
  { intros p. apply (merge_all_converges m m' ms ms' now now'); [done| |done|done].
    intros q x y Hx Hy. by apply (wk_agree _ Hrun); apply Hheld. }
  split; [done|]. intros Hne Hne'.
  assert (Hid : ∀ m ms now a, (∀ x, x ∈ m :: ms → x ∈ wo_manifests w) → merge_all m ms now = Ok a →
    exclusive a ∧ mf_share_id a = share_id).
  { intros x xs n y Hx Hy. assert (Hvx : manifest_valid x share_id) by (apply (wk_valid _ Hrun), Hx; by left). split.
    - eapply merge_all_exclusive; [by eapply mv_exclusive|exact Hy].
    - rewrite (merge_all_share _ _ _ _ Hy). apply Hvx. }
  destruct (Hid m ms now a) as [Hxa Hia]; [done|done|].
  destruct (Hid m' ms' now' b) as [Hxb Hib]; [intros x Hx; by apply Hheld, Hsame|done|].
  unfold sync_digest_after_validation. f_equal. apply digest_input_same, synced_same; [done|done| |congruence|done].
  by rewrite (merge_all_Ok_format _ _ _ _ Hne Ha), (merge_all_Ok_format _ _ _ _ Hne' Hb).
Qed.
End replicas.

(** *** Witnesses *)

Import Ref.

(** One device scans the directory of [Scan], another applies what it found. *)
Definition ex_empty : Manifest := Manifest_empty ex_share 0.
Definition ex_found : Manifest :=
  match ex_scan ex_empty ClockState_new with Ok r => into_owned (sr_manifest r) | Err _ => ex_empty end.
Definition ex_found_clock : ClockState :=
  match ex_scan ex_empty ClockState_new with Ok r => sr_clock r | Err _ => ClockState_new end.
Definition ex_joined : world :=
  hold (hold nothing (endpoint "001") {| rp_manifest := ex_empty; rp_clock := ClockState_new |})
    (endpoint "002") {| rp_manifest := ex_empty; rp_clock := ClockState_new |}.
Definition ex_world : world :=
  hold (hold ex_joined (endpoint "001") {| rp_manifest := ex_found; rp_clock := ex_found_clock |})
    (endpoint "002") {| rp_manifest := ex_found; rp_clock := ClockState_new |}.

Lemma ex_world_reached : rtc (world_step ex_share) nothing ex_world.
Proof.
  assert (Hne : endpoint "001" ≠ endpoint "002") by (intros E; discriminate E).
  assert (Hun : ∀ w d, Forall (λ m, m = ex_empty) (wo_manifests w) → unheard w d).
  { intros w d Hall m p r Hin. rewrite Forall_forall in Hall. by rewrite (Hall m Hin). }
  assert (Hok : is_ok (ex_scan ex_empty ClockState_new) = true) by (vm_compute; reflexivity).
  assert (Hvalid : manifest_valid ex_found ex_share) by (apply Manifest_validate_Ok; vm_compute; reflexivity).
  unfold ex_world, ex_found, ex_found_clock in *.
  destruct (ex_scan ex_empty ClockState_new) as [r|] eqn:Escan; [|discriminate Hok].
  eapply rtc_l; [apply step_join; [apply lookup_empty|by apply Hun]|].
  eapply rtc_l; [apply step_join; [|apply Hun; by repeat constructor]|].
  { simpl. rewrite lookup_insert_ne by done. apply lookup_empty. }
  eapply rtc_l; [eapply (step_scan _ _ (endpoint "001"))|].
  { simpl. rewrite lookup_insert_ne by done. apply lookup_insert_eq. }
  { exact Escan. }
  apply rtc_once. eapply (step_apply _ _ (endpoint "002") _ (into_owned (sr_manifest r))).
  - simpl. rewrite lookup_insert_ne by done. apply lookup_insert_eq.
  - left.
  - exact Hvalid.
  - apply clock_le_refl.
  - intros p. right. simpl. symmetry. apply select_None_l.
Qed.

Lemma merge_convergence_witness :
  ∃ a b, merge_all ex_empty [ex_found] 7 = Ok a ∧ merge_all ex_found [ex_empty; ex_found] 9 = Ok b ∧
    sync_digest_after_validation a = sync_digest_after_validation b.
Proof.
  assert (Ha : is_ok (merge_all ex_empty [ex_found] 7) = true) by (vm_compute; reflexivity).
  assert (Hb : is_ok (merge_all ex_found [ex_empty; ex_found] 9) = true) by (vm_compute; reflexivity).
  destruct (merge_all ex_empty [ex_found] 7) as [a|] eqn:Ea; [|discriminate Ha].
  destruct (merge_all ex_found [ex_empty; ex_found] 9) as [b|] eqn:Eb; [|discriminate Hb].
  exists a, b. split; [reflexivity|]. split; [reflexivity|].
  refine (proj2 (merge_convergence ex_share ex_world ex_empty ex_found [ex_found] [ex_empty; ex_found] 7 9 a b
    ex_world_reached _ _ Ea Eb) _ _).
  - intros x. change (wo_manifests ex_world) with [ex_found; ex_found; ex_empty; ex_empty].
    generalize ex_found, ex_empty. intros found empty. rewrite !elem_of_cons. tauto.
  - generalize ex_found, ex_empty. intros found empty x. rewrite !elem_of_cons. tauto.
  - discriminate.
  - discriminate.
Defined.
