(* ===== verification/ShareScan.v ===== *)
(** * Scanning a running share (src/network/state.rs)

    [scan_and_save] scans the directory of a share against its cached manifest and
    persists the clock before the manifest.  Whatever write fails, the clock on disk
    stays ahead of the manifest on disk, and after a success the manifest the share
    hands out describes the directory. *)

From S2P Require Import Prelude Collections Bytes External Reference Framing Clock Types Peers ManifestPath Manifest Merge Storage Digest Scheduling State LocalFs Scan.

(** [config_root]; the canonical path it returns is an argument of the scan. *)
Definition config_root (t : tree) : result unit := directory_root t.

Section share_scan.
Context `{HexCodec, Sha256, Iroh, Blake3, WalkDir} `{!JsonState ShareConfig} `{!JsonState Manifest}
  `{!JsonState ClockState} `{!JsonState KnownPeers} `{!JsonState RuntimeStatus}.
Implicit Types s : ActiveShare.

(** The status after a scan at [now_ms] that found [changes]. *)
Definition scan_status (now_ms changes : Z) (r : RuntimeStatus) : RuntimeStatus := {|
  rs_format_version := rs_format_version r; rs_process_id := rs_process_id r;
  rs_started_at_ms := rs_started_at_ms r; rs_heartbeat_at_ms := rs_heartbeat_at_ms r;
  rs_state := rs_state r; rs_health := rs_health r; rs_connected_peers := rs_connected_peers r;
  rs_pending_downloads := rs_pending_downloads r;
  rs_pending_updates := if 0 <? changes then changes else rs_pending_updates r;
  rs_last_scan_at_ms := Some now_ms;
  rs_last_remote_update_at_ms := rs_last_remote_update_at_ms r;
  rs_last_sync_at_ms := rs_last_sync_at_ms r;
  rs_last_connection_at_ms := rs_last_connection_at_ms r; rs_last_error := rs_last_error r |}.

Definition save_scanned_clock s (scanned : ScanResult Cow) (env : write_env)
    : result unit * ActiveShare :=
  if 0 <? sr_changes scanned then
    let '(r, fs) := save_clock (as_files s) (as_root s) (as_share_id s) (sr_clock scanned) env in
    (r, with_files s fs)
  else (Ok tt, s).

Definition save_scanned_manifest s (scanned : ScanResult Cow) (env : write_env)
    : result unit * ActiveShare :=
  if sr_manifest_changed scanned then save_manifest s (into_owned (sr_manifest scanned)) env
  else (Ok tt, s).

(** [root] is the canonical path of the configured directory; [status_ms] is the
    time at the end of the scan. *)
Definition scan_and_save s (t : tree) (root : bytes)
    (reads : list bytes → nat → io (list bytes * node)) (now_ms status_ms pid : Z)
    (clock_env manifest_env status_env : write_env) : result unit * ActiveShare :=
  match config_root t with
  | Err m => (Err m, s)
  | Ok _ =>
      match manifest_snapshot s with
      | (Err m, s) => (Err m, s)
      | (Ok snapshot, s) =>
          match (clock ← load_clock (as_files s) (as_root s) (as_share_id s);
                 scan_manifest_cached_after_validation root reads (ms_manifest snapshot)
                   (as_local_endpoint_id s) now_ms t clock) with
          | Err m => (Err m, s)
          | Ok scanned =>
              match save_scanned_clock s scanned clock_env with
              | (Err m, s) => (Err m, s)
              | (Ok _, s) =>
                  match save_scanned_manifest s scanned manifest_env with
                  | (Err m, s) => (Err m, s)
                  | (Ok _, s) =>
                      update_runtime s status_ms pid
                        (λ r _, scan_status now_ms (sr_changes scanned) r) status_env
                  end
              end
          end
      end
  end.

(** ** The clock stays ahead of the manifest *)

Definition stored_clock s : option ClockState :=
  as_files s !! share_clock (as_root s) (as_share_id s) ≫= from_slice.

(** Every version of [m] is covered by [c]. *)
Definition covers_manifest (c : ClockState) (m : Manifest) : Prop :=
  ∀ p x, record m p = Some x → covers c (rec_version x).

Definition clock_ahead s : Prop :=
  ∀ m c, disk_manifest s = Some m → stored_clock s = Some c → covers_manifest c m.

Lemma load_clock_stored s c :
  load_clock (as_files s) (as_root s) (as_share_id s) = Ok c →
  stored_clock s = Some c ∧ ClockState_validate c = Ok tt.
Proof.
  unfold load_clock, read_state, read_bounded, stored_clock.
  destruct (as_files s !! share_clock (as_root s) (as_share_id s)) as [data|]; [|done]. simpl.
  destruct (SMALL_STATE_MAX_BYTES <? blen data); simpl; [done|].
  destruct (from_slice data) as [c'|]; simpl; [|done].
  destruct (ClockState_validate c') as [[]|] eqn:Ev; simpl; [|done]. by intros [= <-].
Qed.

(** The two files that matter, in two states of one share. *)
Definition same_place s s' : Prop := as_root s' = as_root s ∧ as_share_id s' = as_share_id s.

Lemma stored_written {T} `{JsonState T} (fs : files) (path : bytes) (value : T) (b : bytes) :
  to_vec value = Some b → fs !! path = Some (b ++ ["010"%byte]) →
  fs !! path ≫= from_slice = Some value.
Proof. intros Hb ->. simpl. by rewrite from_slice_newline, (from_slice_to_vec value b Hb). Qed.

Lemma save_clock_outcome s c env r fs :
  cuts env → save_clock (as_files s) (as_root s) (as_share_id s) c env = (r, fs) →
  let s' := with_files s fs in
  disk_manifest s' = disk_manifest s ∧
  (stored_clock s' = stored_clock s ∨ stored_clock s' = Some c) ∧
  (r = Ok tt → stored_clock s' = Some c).
Proof.
  intros Hcut. unfold save_clock. destruct (ClockState_validate c) as [[]|].
  2: { intros [= <- <-]. split_and!; [done|by left|done]. }
  intros Hw. set (dir := share_dir (as_root s) (as_share_id s)) in *.
  pose proof (atomic_write_json_frame (as_files s) dir (bs "clock.json") (bs "manifest.json") c env
    eq_refl eq_refl ltac:(done) ltac:(done)) as Hframe.
  pose proof (atomic_write_json_outcome (as_files s) dir (bs "clock.json") c env eq_refl Hcut) as Hout.
  rewrite Hw in Hframe, Hout. simpl in Hframe, Hout. unfold disk_manifest, stored_clock; simpl.
  split_and!.
  - change (share_manifest _ _) with (path_push dir (bs "manifest.json")). by rewrite Hframe.
  - change (share_clock _ _) with (path_push dir (bs "clock.json")).
    destruct Hout as [->|(b & Hb & Hp)]; [by left|right]. by eapply stored_written.
  - intros ->. apply atomic_write_json_Ok in Hw as (b & Hb & Hp & _); [|done|done].
    by eapply stored_written.
Qed.

Lemma save_manifest_outcome s m env r s' :
  cuts env → save_manifest s m env = (r, s') →
  same_place s s' ∧ stored_clock s' = stored_clock s ∧
  (disk_manifest s' = disk_manifest s ∨ disk_manifest s' = Some m).
Proof.
  intros Hcut. unfold save_manifest. case_bool_decide as Hid; simpl.
  2: { intros [= <- <-]. split_and!; [done|done|by left]. }
  unfold store_manifest. destruct (Manifest_validate m (mf_share_id m)) as [[]|].
  2: { intros [= <- <-]. split_and!; [done|done|by left]. }
  rewrite Hid. set (dir := share_dir (as_root s) (as_share_id s)) in *.
  pose proof (atomic_write_json_frame (as_files s) dir (bs "manifest.json") (bs "clock.json") m env
    eq_refl eq_refl ltac:(done) ltac:(done)) as Hframe.
  pose proof (atomic_write_json_outcome (as_files s) dir (bs "manifest.json") m env eq_refl Hcut) as Hout.
  destruct (atomic_write_json _ _ _ m env) as [[[]|e] fs]; simpl in *; intros [= <- <-];
    unfold disk_manifest, stored_clock; simpl;
    change (share_clock (as_root s) (as_share_id s)) with (path_push dir (bs "clock.json"));
    change (share_manifest (as_root s) (as_share_id s)) with (path_push dir (bs "manifest.json"));
    (split_and!; [done|by rewrite Hframe|]);
    (destruct Hout as [->|(b & Hb & Hp)]; [by left|right]; by eapply stored_written).
Qed.

Lemma update_status_frame s now pid hb f env :
  let s' := (update_status s now pid hb f env).2 in
  same_place s s' ∧ stored_clock s' = stored_clock s ∧ disk_manifest s' = disk_manifest s ∧
  as_manifest_cache s' = as_manifest_cache s.
Proof.
  unfold update_status.
  destruct (match as_runtime_status s with Some _ => _ | None => _ end) as [previous|]; [|done].
  set (status := f _ now). destruct (negb hb && _); [done|].
  set (status' := Build_RuntimeStatus _ _ _ _ _ _ _ _ _ _ _ _ _ _). unfold save_runtime_status.
  destruct (RuntimeStatus_validate status'); [|done].
  set (dir := share_dir (as_root s) (as_share_id s)) in *.
  pose proof (atomic_write_json_frame (as_files s) dir (bs "runtime-status.json")
    (bs "manifest.json") status' env eq_refl eq_refl ltac:(done) ltac:(done)) as Hm.
  pose proof (atomic_write_json_frame (as_files s) dir (bs "runtime-status.json")
    (bs "clock.json") status' env eq_refl eq_refl ltac:(done) ltac:(done)) as Hc.
  destruct (atomic_write_json _ _ _ status' env) as [[|] fs]; simpl in *;
    unfold same_place, stored_clock, disk_manifest; simpl;
    change (share_clock (as_root s) (as_share_id s)) with (path_push dir (bs "clock.json"));
    change (share_manifest (as_root s) (as_share_id s)) with (path_push dir (bs "manifest.json"));
    rewrite Hm, Hc; done.
Qed.

Lemma manifest_snapshot_ok s snapshot s1 :
  coherent s → manifest_snapshot s = (Ok snapshot, s1) →
  snapshot_ok s snapshot ∧ as_files s1 = as_files s ∧ same_place s s1 ∧
  as_manifest_cache s1 = Some snapshot.
Proof.
  intros Hc. unfold manifest_snapshot. destruct (as_manifest_cache s) as [snap|] eqn:Em.
  - intros [= <- <-]. split_and!; [by apply Hc|done..].
  - destruct (load_manifest _ _ _) as [m|] eqn:El; [|done]. intros [= <- <-].
    split_and!; [by apply load_manifest_disk|done..].
Qed.

Lemma files_same s s' :
  as_files s' = as_files s → same_place s s' →
  stored_clock s' = stored_clock s ∧ disk_manifest s' = disk_manifest s.
Proof. unfold stored_clock, disk_manifest. by intros -> [-> ->]. Qed.

(** What a scan covers, when the clock covered what it started from. *)
Lemma scan_covers (root : bytes) (reads : list bytes → nat → io (list bytes * node))
    (previous : Manifest) (endpoint_id : EndpointId) (now_ms : Z) (t : tree) (c : ClockState)
    (r : ScanResult Cow) :
  manifest_valid previous (mf_share_id previous) → covers_manifest c previous →
  scan_manifest_cached_after_validation root reads previous endpoint_id now_ms t c = Ok r →
  covers_manifest (sr_clock r) previous ∧
  covers_manifest (sr_clock r) (into_owned (sr_manifest r)) ∧
  (¬ 0 < sr_changes r → sr_clock r = c).
Proof.
  intros Hp Hcov Hs. apply scan_scanned in Hs as (d & _ & Hs).
  destruct (scanned_clock _ _ _ _ d r Hs) as (Hle & Hn & Hz).
  assert (Hold : covers_manifest (sr_clock r) previous)
    by (intros p x Hx; eapply covers_le; [done|by eapply Hcov]).
  split_and!; [done| |intros Hc; apply Hz; lia].
  intros p x Hx. destruct (scanned_record _ _ _ _ Hp d r p x Hs Hx) as [(y & Hy & Hr)|[(_ & ? & _) _]];
    [|done].
  apply refreshed_rank in Hr. injection Hr as -> _. by apply (Hold p).
Qed.

(** The states a scan goes through keep the clock ahead. *)
Lemma save_scanned_ahead s (scanned : ScanResult Cow) (previous : Manifest) (c : ClockState)
    (clock_env manifest_env : write_env) :
  cuts clock_env → cuts manifest_env →
  disk_manifest s = Some previous → stored_clock s = Some c →
  covers_manifest c previous → covers_manifest (sr_clock scanned) previous →
  covers_manifest (sr_clock scanned) (into_owned (sr_manifest scanned)) →
  (¬ 0 < sr_changes scanned → sr_clock scanned = c) →
  let '(r1, s1) := save_scanned_clock s scanned clock_env in
  clock_ahead s1 ∧ (r1 = Ok tt → clock_ahead (save_scanned_manifest s1 scanned manifest_env).2).
Proof.
  intros Hc1 Hc2 Hdisk Hclock Hold Hold' Hnew Hsame. unfold save_scanned_clock.
  assert (Hcase : ∀ s1, disk_manifest s1 = Some previous →
    (stored_clock s1 = Some c ∨ stored_clock s1 = Some (sr_clock scanned)) → clock_ahead s1).
  { intros s1 Hd Hs m c' Hm Hc. rewrite Hd in Hm. injection Hm as <-.
    destruct Hs as [Hs|Hs]; rewrite Hs in Hc; by injection Hc as <-. }
  assert (Hman : ∀ s1, disk_manifest s1 = Some previous → stored_clock s1 = Some (sr_clock scanned) →
    clock_ahead (save_scanned_manifest s1 scanned manifest_env).2).
  { intros s1 Hd Hs. unfold save_scanned_manifest. destruct (sr_manifest_changed scanned);
      [|apply Hcase; auto].
    destruct (save_manifest s1 _ manifest_env) as [r s2] eqn:Em.
    destruct (save_manifest_outcome _ _ _ _ _ Hc2 Em) as (_ & E1 & E2). simpl.
    intros m c' Hm Hc'. rewrite E1, Hs in Hc'. injection Hc' as <-.
    destruct E2 as [E2|E2]; rewrite E2, ?Hd in Hm; by injection Hm as <-. }
  destruct (Z.ltb_spec 0 (sr_changes scanned)) as [Hlt|Hge].
  - destruct (save_clock _ _ _ _ clock_env) as [r1 fs] eqn:Es.
    destruct (save_clock_outcome _ _ _ _ _ Hc1 Es) as (E1 & E2 & E3).
    split; [apply Hcase; [congruence|]|intros Hr; apply Hman; [congruence|auto]].
    destruct E2 as [->|E2]; auto.
  - rewrite Hsame in Hman, Hcase by lia. split; [apply Hcase; auto|intros _; by apply Hman].
Qed.

(** ** Properties *)

(** C7: the clock on disk never falls behind the manifest on disk: starting from a
    share whose stored clock covers its stored manifest, a scan leaves it so
    however it ends, with whichever of its writes failing before or after the
    file was replaced, because the clock is persisted before the manifest. *)
Theorem scan_keeps_clock_ahead s (t : tree) (root : bytes)
    (reads : list bytes → nat → io (list bytes * node)) (now_ms status_ms pid : Z)
    (clock_env manifest_env status_env : write_env)
    (Hcoherent : coherent s) (Hahead : clock_ahead s)
    (Hcut1 : cuts clock_env) (Hcut2 : cuts manifest_env) :
  clock_ahead (scan_and_save s t root reads now_ms status_ms pid clock_env manifest_env
                 status_env).2.
Proof.
  unfold scan_and_save. destruct (config_root t); [|done].
  destruct (manifest_snapshot s) as [[snapshot|e] s1] eqn:Esnap.
  2: { unfold manifest_snapshot in Esnap. destruct (as_manifest_cache s); [done|].
       destruct (load_manifest _ _ _); [done|]. by injection Esnap as <- <-. }
  destruct (manifest_snapshot_ok s snapshot s1 Hcoherent Esnap) as ((Hdisk & Hv & _) & Hf & Hpl & _).
  destruct (files_same s s1 Hf Hpl) as [Ec Em].
  assert (Hahead1 : clock_ahead s1) by (intros m c; rewrite Ec, Em; apply Hahead).
  destruct (mbind _ (load_clock _ _ _)) as [scanned|] eqn:Escan; [|done].
  apply bind_Ok in Escan as (c & Hload & Hscan). apply load_clock_stored in Hload as [Hc _].
  rewrite <-Em in Hdisk. pose proof (Hahead1 _ _ Hdisk Hc) as Hcov.
  apply Manifest_validate_Ok in Hv. pose proof (mv_share _ _ Hv) as Hid. rewrite <-Hid in Hv.
  destruct (scan_covers _ _ _ _ _ _ _ _ Hv Hcov Hscan) as (H1' & H2' & H3').
  pose proof (save_scanned_ahead s1 scanned _ c clock_env manifest_env Hcut1 Hcut2 Hdisk Hc Hcov H1'
    H2' H3') as Hsave.
  destruct (save_scanned_clock s1 scanned clock_env) as [[[]|e] s2]; [|apply Hsave].
  destruct Hsave as [_ Hsave]. specialize (Hsave eq_refl).
  destruct (save_scanned_manifest s2 scanned manifest_env) as [[u|e] s3]; [|exact Hsave].
  unfold update_runtime. pose proof (update_status_frame s3 status_ms pid false
    (λ r _, scan_status now_ms (sr_changes scanned) r) status_env) as (Hp3 & E1 & E2 & _).
  intros m c'. rewrite E1, E2. apply Hsave.
Qed.

(** The live records decide what a manifest describes. *)
Lemma describes_ext (t : tree) (unknown : bool) (m m' : Manifest) :
  mf_entries m = mf_entries m' → mf_directories m = mf_directories m' →
  mf_symlinks m = mf_symlinks m' → describes t unknown m → describes t unknown m'.
Proof.
  intros E1 E2 E3. unfold describes, describes_with, represents, live_paths. by rewrite E1, E2, E3.
Qed.

(** A scan that reports an unchanged manifest found the records it started from. *)
Lemma unchanged_records (root : bytes) (reads : list bytes → nat → io (list bytes * node))
    (previous : Manifest) (endpoint_id : EndpointId) (now_ms : Z) (t : tree) (c : ClockState)
    (r : ScanResult Cow) :
  scan_manifest_cached_after_validation root reads previous endpoint_id now_ms t c = Ok r →
  sr_manifest_changed r = false →
  let m := into_owned (sr_manifest r) in
  mf_entries m = mf_entries previous ∧ mf_directories m = mf_directories previous ∧
  mf_symlinks m = mf_symlinks previous.
Proof.
  intros (d & _ & Hs)%scan_scanned Hu.
  destruct Hs as [r' _ _ -> _ _ _|r' st _ _ -> _ _ Hc _]; [done|].
  by destruct (Hc Hu) as (? & ? & ? & _).
Qed.

Lemma save_scanned_cache s (scanned : ScanResult Cow) (snapshot : ManifestSnapshot)
    (clock_env manifest_env : write_env) s1 s2 :
  as_manifest_cache s = Some snapshot →
  save_scanned_clock s scanned clock_env = (Ok tt, s1) →
  save_scanned_manifest s1 scanned manifest_env = (Ok tt, s2) →
  as_manifest_cache s2 =
    Some (if sr_manifest_changed scanned then from_validated (into_owned (sr_manifest scanned))
          else snapshot).
Proof.
  intros Hs Hc Hm. assert (Hs1 : as_manifest_cache s1 = Some snapshot).
  { unfold save_scanned_clock in Hc. destruct (0 <? sr_changes scanned).
    - destruct (save_clock _ _ _ _ clock_env) as [r fs]. by injection Hc as _ <-.
    - by injection Hc as <-. }
  unfold save_scanned_manifest in Hm. destruct (sr_manifest_changed scanned).
  - unfold save_manifest in Hm. destruct (negb _); [done|].
    destruct (store_manifest _ _ _ _) as [[[]|] fs]; [|done]. by injection Hm as <-.
  - by injection Hm as <-.
Qed.

(** After a scan that succeeded the manifest of the share describes the directory. *)
Lemma scan_describes s s' (t : tree) (root : bytes)
    (reads : list bytes → nat → io (list bytes * node)) (now_ms status_ms pid : Z)
    (clock_env manifest_env status_env : write_env) (previous : Manifest)
    (Hcoherent : coherent s) (Hstored : disk_manifest s = Some previous)
    (Hroot : root ≠ []) (Ht : disk_tree t) (Hq : quiet reads t)
    (Htr : trusted t previous (unknown_permissions previous))
    (Hrun : scan_and_save s t root reads now_ms status_ms pid clock_env manifest_env status_env
            = (Ok tt, s')) :
  ∃ snapshot, manifest_snapshot s' = (Ok snapshot, s') ∧
    describes t (unknown_permissions previous) (ms_manifest snapshot).
Proof.
  unfold scan_and_save in Hrun. destruct (config_root t); [|done].
  destruct (manifest_snapshot s) as [[snapshot|e] s1] eqn:Esnap; [|done].
  destruct (manifest_snapshot_ok s snapshot s1 Hcoherent Esnap) as ((Hdisk & _ & _) & _ & _ & Hcache).
  assert (ms_manifest snapshot = previous) as Hm by congruence.
  destruct (mbind _ (load_clock _ _ _)) as [scanned|] eqn:Escan; [|done].
  apply bind_Ok in Escan as (c & _ & Hscan). rewrite Hm in Hscan.
  destruct (save_scanned_clock s1 scanned clock_env) as [[[]|e] s2] eqn:Ec; [|done].
  destruct (save_scanned_manifest s2 scanned manifest_env) as [[[]|e] s3] eqn:Em; [|done].
  pose proof (save_scanned_cache _ _ _ _ _ _ _ Hcache Ec Em) as Hs3.
  pose proof (update_status_frame s3 status_ms pid false
    (λ r _, scan_status now_ms (sr_changes scanned) r) status_env) as (_ & _ & _ & Hs').
  unfold update_runtime in Hrun. rewrite Hrun in Hs'. simpl in Hs'. rewrite Hs3 in Hs'.
  eexists. split; [unfold manifest_snapshot; by rewrite Hs'|].
  pose proof Hscan as Hd. apply scan_scanned in Hd as (d & Hd & Hs). apply scanned_agrees in Hs.
  apply (agrees_describes root Hroot reads t Ht previous) in Hs; [|done..].
  destruct (sr_manifest_changed scanned) eqn:Eu; [done|]. rewrite Hm.
  destruct (unchanged_records _ _ _ _ _ _ _ _ Hscan Eu) as (? & ? & ?).
  by eapply describes_ext.
Qed.

Lemma scan_stored s (t : tree) (root : bytes) (reads : list bytes → nat → io (list bytes * node))
    (now_ms status_ms pid : Z) (clock_env manifest_env status_env : write_env) s' :
  coherent s →
  scan_and_save s t root reads now_ms status_ms pid clock_env manifest_env status_env = (Ok tt, s') →
  ∃ previous, disk_manifest s = Some previous.
Proof.
  intros Hc Hrun. unfold scan_and_save in Hrun. destruct (config_root t); [|done].
  destruct (manifest_snapshot s) as [[snapshot|e] s1] eqn:Esnap; [|done].
  destruct (manifest_snapshot_ok s snapshot s1 Hc Esnap) as ((Hdisk & _ & _) & _). eauto.
Qed.

Lemma save_clock_frame s c env r fs :
  save_clock (as_files s) (as_root s) (as_share_id s) c env = (r, fs) →
  fs !! share_manifest (as_root s) (as_share_id s) = as_files s !! share_manifest (as_root s) (as_share_id s).
Proof.
  unfold save_clock. destruct (ClockState_validate c) as [[]|]; [|by intros [= _ <-]]. intros Hw.
  pose proof (atomic_write_json_frame (as_files s) (share_dir (as_root s) (as_share_id s)) (bs "clock.json")
    (bs "manifest.json") c env eq_refl eq_refl ltac:(done) ltac:(done)) as Hframe. by rewrite Hw in Hframe.
Qed.

(** However it ends, a scan keeps the cache coherent. *)
Lemma scan_coherent s (t : tree) (root : bytes) (reads : list bytes → nat → io (list bytes * node))
    (now_ms status_ms pid : Z) (clock_env manifest_env status_env : write_env) :
  cuts manifest_env → coherent s →
  coherent (scan_and_save s t root reads now_ms status_ms pid clock_env manifest_env status_env).2.
Proof.
  intros Hcut Hc. unfold scan_and_save. destruct (config_root t); [|done].
  apply coherent_snapshot in Hc. destruct (manifest_snapshot s) as [[snapshot|e] s1]; [|done].
  destruct (mbind _ (load_clock _ _ _)) as [scanned|]; [|done].
  assert (Hc2 : coherent (save_scanned_clock s1 scanned clock_env).2).
  { unfold save_scanned_clock. destruct (0 <? sr_changes scanned); [|done].
    destruct (save_clock _ _ _ _ clock_env) as [r fs] eqn:Es. apply (coherent_frame s1); try done.
    by eapply save_clock_frame. }
  destruct (save_scanned_clock s1 scanned clock_env) as [[[]|e] s2]; [|done].
  assert (Hc3 : coherent (save_scanned_manifest s2 scanned manifest_env).2).
  { unfold save_scanned_manifest. destruct (sr_manifest_changed scanned); [|done].
    destruct (coherent_save s2 (into_owned (sr_manifest scanned)) manifest_env Hcut) as [?|E]; [done|by rewrite E]. }
  destruct (save_scanned_manifest s2 scanned manifest_env) as [[u|e] s3]; [|done].
  by apply coherent_status.
Qed.

(** After a scan that succeeded, the manifest that the share hands out, and
    sends to its peers, describes the directory as it was scanned. *)
Lemma scanned_share_describes s s' (t : tree) (root : bytes)
    (reads : list bytes → nat → io (list bytes * node)) (now_ms status_ms pid : Z)
    (clock_env manifest_env status_env : write_env) (previous : Manifest)
    (Hcoherent : coherent s) (Hstored : disk_manifest s = Some previous)
    (Hroot : root ≠ []) (Ht : disk_tree t) (Hq : quiet reads t)
    (Htr : trusted t previous (unknown_permissions previous))
    (Hrun : scan_and_save s t root reads now_ms status_ms pid clock_env manifest_env status_env
            = (Ok tt, s')) :
  ∃ snapshot, manifest_snapshot s' = (Ok snapshot, s') ∧
    describes t (unknown_permissions previous) (ms_manifest snapshot).
Proof. by eapply scan_describes. Qed.
End share_scan.

(** *** Witnesses *)

Import Ref.

(** A share whose manifest names a file that is gone; its directory is [ex_tree]. *)
Definition ex_scanned_manifest : Manifest :=
  match ex_scan ex_previous ex_clock with
  | Ok r => into_owned (sr_manifest r)
  | Err _ => ex_previous
  end.
Definition ex_scanned_clock : ClockState :=
  {| clock_format_version := 1; last_wall_ms := 5; last_counter := 2 |}.
Definition ex_scanned_status : RuntimeStatus := {|
  rs_format_version := 1; rs_process_id := 7; rs_started_at_ms := 6; rs_heartbeat_at_ms := 6;
  rs_state := Stopped; rs_health := Unknown; rs_connected_peers := 0; rs_pending_downloads := 0;
  rs_pending_updates := 3; rs_last_scan_at_ms := Some 5; rs_last_remote_update_at_ms := None;
  rs_last_sync_at_ms := None; rs_last_connection_at_ms := None; rs_last_error := None |}.

#[local] Instance ex_codec_config : JsonState ShareConfig := two_state ex_share_config ex_share_config.
#[local] Instance ex_codec_manifest : JsonState Manifest := two_state ex_previous ex_scanned_manifest.
#[local] Instance ex_codec_clock : JsonState ClockState := two_state ex_clock ex_scanned_clock.
#[local] Instance ex_codec_peers : JsonState KnownPeers := two_state KnownPeers_empty KnownPeers_empty.
#[local] Instance ex_codec_status : JsonState RuntimeStatus :=
  two_state ex_scanned_status ex_scanned_status.

Definition ex_scanning : ActiveShare := {|
  as_files := <[share_manifest (bs "/d") ex_share := bs "x"]>
    {[share_clock (bs "/d") ex_share := bs "x"]};
  as_root := bs "/d"; as_share_id := ex_share; as_config := ex_share_config;
  as_runtime_status := None; as_manifest_generation := 0; as_network_generation := 0;
  as_manifest_cache := None; as_peer_schedule := ∅; as_local_endpoint_id := endpoint "001" |}.

Definition ex_rescan : result unit * ActiveShare :=
  scan_and_save ex_scanning ex_tree (bs "/s") ex_reads 5 6 7 ex_env ex_env ex_env.

Lemma ex_scanning_disk : disk_manifest ex_scanning = Some ex_previous.
Proof.
  unfold disk_manifest, ex_scanning. simpl. rewrite lookup_insert_eq. simpl.
  unfold two_from_slice. by rewrite decide_True.
Qed.

Lemma ex_scanning_clock : stored_clock ex_scanning = Some ex_clock.
Proof. vm_compute. reflexivity. Qed.

Lemma ex_scanning_ahead : clock_ahead ex_scanning.
Proof.
  intros m c. rewrite ex_scanning_disk, ex_scanning_clock. intros [= <-] [= <-] p x.
  unfold ex_previous. rewrite ex_record. case_decide; [|done]. intros [= <-]. by right.
Qed.

Lemma scan_keeps_clock_ahead_witness : ex_rescan.1 = Ok tt ∧ clock_ahead ex_rescan.2.
Proof.
  split; [vm_compute; reflexivity|].
  apply (scan_keeps_clock_ahead ex_scanning ex_tree (bs "/s") ex_reads 5 6 7 ex_env ex_env ex_env);
    [intros snapshot Hs; discriminate Hs|exact ex_scanning_ahead|exact ex_env_cuts|exact ex_env_cuts].
Defined.

Lemma ex_trusted : trusted ex_tree ex_previous (unknown_permissions ex_previous).
Proof.
  intros names n old Hn Hf. unfold ex_tree in Hn. rewrite !lookup_insert_Some, lookup_empty in Hn.
  destruct Hn as [[<- <-]|[_ [[<- <-]|[_ [[<- <-]|[_ Hn]]]]]]; [done..| |done].
  intros Ho. vm_compute in Ho. discriminate Ho.
Qed.

Lemma scanned_share_describes_witness :
  ex_rescan.1 = Ok tt ∧
  ∃ snapshot, manifest_snapshot ex_rescan.2 = (Ok snapshot, ex_rescan.2) ∧
    describes ex_tree (unknown_permissions ex_previous) (ms_manifest snapshot).
Proof.
  assert (Hr : ex_rescan.1 = Ok tt) by (vm_compute; reflexivity).
  split; [exact Hr|].
  assert (Hrun : scan_and_save ex_scanning ex_tree (bs "/s") ex_reads 5 6 7 ex_env ex_env ex_env =
    (Ok tt, ex_rescan.2)) by (fold ex_rescan; rewrite <-Hr; apply surjective_pairing).
  exact (scanned_share_describes ex_scanning ex_rescan.2 ex_tree (bs "/s") ex_reads 5 6 7 ex_env
    ex_env ex_env ex_previous ltac:(intros snapshot Hs; discriminate Hs) ex_scanning_disk
    ltac:(discriminate) ex_disk_tree ex_quiet ex_trusted Hrun).
Defined.
