(* ===== verification/LinkClock.v ===== *)
(** * The clock and symbolic links (src/network/state.rs, src/network/transfer.rs)

    [observe_manifest_clock] goes through the files, the directories and the deletions of
    the manifest that was applied, not through its symbolic links.  What that means for a
    share that applied a link of a version ahead of its clock, and then scans. *)

From S2P Require Import Prelude Collections Bytes External Reference Framing Clock Types Peers ManifestPath Manifest Merge Storage Digest Scheduling State LocalFs Partial Planning Apply Scan ShareScan.

(** ** How far the clock goes *)

Lemma observe_all_wall (bound : Z) (m : Manifest) (now : Z) (c c' : ClockState) :
  now < bound → last_wall_ms c < bound → (∀ v, v ∈ observed_versions m → wall_ms v < bound) →
  observe_all c m now = Ok c' → last_wall_ms c' < bound.
Proof.
  intros Hnow Hc Hv. apply (try_fold_inv (λ c, last_wall_ms c < bound)); [|done].
  intros c0 v c1 Hin%Hv Hb Ho. unfold observe in Ho. res_inv. simpl. lia.
Qed.

(** An observed version is that of a record other than a link. *)
Lemma observed_record `{HexCodec, Iroh} (m : Manifest) (expected : bytes) (v : HlcTimestamp) :
  manifest_valid m expected → v ∈ observed_versions m →
  ∃ q r, record m q = Some r ∧ (∀ l, r ≠ RSymlink l) ∧ rec_version r = v.
Proof.
  intros Hm. unfold observed_versions. rewrite !elem_of_app, !elem_of_map_In.
  setoid_rewrite elem_of_bt_values.
  intros [(e & <- & q & Hq)|[(e & <- & q & Hq)|(e & <- & q & Hq)]].
  - exists q, (RFile e). by rewrite (record_Some _ _ _ _ Hm).
  - exists q, (RDirectory e). by rewrite (record_Some _ _ _ _ Hm).
  - exists q, (RTombstone e). by rewrite (record_Some _ _ _ _ Hm).
Qed.

Section scan_wall.
Context `{HexCodec, Sha256, Iroh, WalkDir}.
Context (previous : Manifest) (endpoint_id : EndpointId) (now_ms bound : Z).
Hypothesis now_below : now_ms < bound.
Implicit Types st : scanning.

Definition below st : Prop := last_wall_ms (sc_clock st) < bound.

Lemma stamp_below st clock version changes :
  below st → stamp endpoint_id now_ms st = Ok (clock, version, changes) → last_wall_ms clock < bound.
Proof.
  unfold below, stamp. intros Hb Hs. apply bind_Ok in Hs as ([c v] & Ht & [= <- <- <-]).
  apply tick_spec in Ht. lia.
Qed.

(** Every step of the loops keeps the clock or stamps. *)
Ltac stamped := repeat match goal with
  | Hs : stamp _ _ _ = Ok (?c, _, _) |- last_wall_ms ?c < bound => by eapply stamp_below
  | Hs : mbind _ _ = Ok _ |- _ => apply bind_Ok in Hs as ([[? ?] ?] & ? & ?); simplify_eq/=
  | Hs : context [match ?b with _ => _ end] |- _ => destruct b; simplify_eq/=
  end; try done.

Lemma scan_file_below unknown st item st' :
  below st → scan_file previous endpoint_id now_ms unknown st item = Ok st' → below st'.
Proof. destruct item as [p f]. unfold scan_file. intros Hb Hs. unfold below. stamped. Qed.

Lemma scan_directory_below unknown st item st' :
  below st → scan_directory previous endpoint_id now_ms unknown st item = Ok st' → below st'.
Proof. destruct item as [p f]. unfold scan_directory. intros Hb Hs. unfold below. stamped. Qed.

Lemma scan_symlink_below st item st' :
  below st → scan_symlink previous endpoint_id now_ms st item = Ok st' → below st'.
Proof. destruct item as [p f]. unfold scan_symlink. intros Hb Hs. unfold below. stamped. Qed.

Lemma scan_missing_below st path st' :
  below st → scan_missing endpoint_id now_ms st path = Ok st' → below st'.
Proof. unfold scan_missing. intros Hb Hs. destruct (_ && _); [|by simplify_eq]. unfold below. stamped. Qed.

Lemma scanned_below clock d r :
  last_wall_ms clock < bound → scanned previous endpoint_id now_ms clock d r →
  last_wall_ms (sr_clock r) < bound.
Proof.
  intros Hc [r' _ _ _ -> _ _|r' st Hl _ _ -> _ _ _]; [done|]. unfold scan_loops in Hl.
  apply bind_Ok in Hl as (st1 & Hfiles & Hl). apply bind_Ok in Hl as (st2 & Hdirectories & Hl).
  apply bind_Ok in Hl as (st3 & Hlinks & Hmissing).
  eapply (try_fold_inv below) in Hfiles; [|by intros; eapply scan_file_below|done].
  eapply (try_fold_inv below) in Hdirectories; [|by intros; eapply scan_directory_below|done].
  eapply (try_fold_inv below) in Hlinks; [|by intros; eapply scan_symlink_below|done].
  by eapply (try_fold_inv below) in Hmissing; [|by intros; eapply scan_missing_below|].
Qed.
End scan_wall.

(** ** The clock after an application *)

Section apply_clock.
Context `{HexCodec, Iroh, Blake3, Sha256, WalkDir} `{!JsonState ShareConfig} `{!JsonState Manifest}
  `{!JsonState ClockState} `{!JsonState KnownPeers} `{!JsonState RuntimeStatus}.
Implicit Types s : ActiveShare.

(** The stored clock stays or has observed the manifest the share hands out. *)
Lemma commit_clock s local candidate now observed ce me s' snapshot c :
  cuts ce → cuts me → manifest_valid local (as_share_id s) →
  as_manifest_cache s = Some snapshot → ms_manifest snapshot = local → stored_clock s = Some c →
  commit_candidate s local candidate now observed ce me = (Ok tt, s') →
  ∃ snapshot' c', manifest_snapshot s' = (Ok snapshot', s') ∧ stored_clock s' = Some c' ∧
    manifest_valid (ms_manifest snapshot') (as_share_id s) ∧
    (c' = c ∨ observe_all c (ms_manifest snapshot') observed = Ok c').
Proof.
  intros Hce Hme Hv Hcache Hlocal Hc. unfold commit_candidate.
  assert (Hstay : ∃ snapshot' c', manifest_snapshot s = (Ok snapshot', s) ∧ stored_clock s = Some c' ∧
    manifest_valid (ms_manifest snapshot') (as_share_id s) ∧
    (c' = c ∨ observe_all c (ms_manifest snapshot') observed = Ok c')).
  { exists snapshot, c. unfold manifest_snapshot. rewrite Hcache, Hlocal. auto. }
  destruct candidate as [m|]; [|by intros [= <-]].
  destruct (Manifest_validate _ _) as [[]|] eqn:Em; [|done]. apply Manifest_validate_Ok in Em.
  destruct (same_records _ _); [by intros [= <-]|].
  unfold observe_manifest_clock.
  destruct (mbind _ (load_clock _ _ _)) as [c1|] eqn:Eo; [|done].
  apply bind_Ok in Eo as (c0 & [Hc0 _]%load_clock_stored & Ho).
  assert (c0 = c) as -> by congruence.
  destruct (save_clock _ _ _ _ ce) as [[[]|] fs] eqn:Es; [|done].
  destruct (save_clock_outcome _ _ _ _ _ Hce Es) as (_ & _ & Hstored).
  set (s1 := with_files s fs) in *. intros Hsave.
  pose proof (save_manifest_outcome _ _ _ _ _ Hme Hsave) as (_ & Hkeep & _).
  unfold save_manifest in Hsave. destruct (negb _); [done|].
  destruct (store_manifest _ _ _ _) as [[[]|] fs']; [|done]. injection Hsave as <-.
  do 2 eexists. split; [unfold manifest_snapshot; simpl; reflexivity|].
  split; [rewrite Hkeep; by apply Hstored|]. split; [exact Em|by right].
Qed.

Lemma apply_clock s s' (t t' : tree) (ps ps' : partials) (e : env) (cross : bytes → bool)
    (remote : Manifest) (file_data : gmap bytes IncomingFile) (now observed : Z)
    (clock_env manifest_env : write_env) (outcome : ApplyOutcome) (c : ClockState) :
  coherent s → cuts clock_env → cuts manifest_env → stored_clock s = Some c →
  apply_remote_transfer_impl s t ps e cross remote file_data now observed clock_env manifest_env =
    (Ok outcome, s', t', ps') →
  ∃ after c', (manifest_snapshot s').1 = Ok after ∧ stored_clock s' = Some c' ∧
    manifest_valid (ms_manifest after) (as_share_id s) ∧
    (c' = c ∨ observe_all c (ms_manifest after) observed = Ok c').
Proof.
  intros Hc Hce Hme Hclock. unfold apply_remote_transfer_impl. destruct (directory_root t); [|done].
  destruct (manifest_snapshot s) as [[before|] s1] eqn:Esnap; [|done].
  pose proof (manifest_snapshot_ok s before s1 Hc Esnap) as (_ & Hfiles & Hplace & _).
  destruct (snapshot_taken _ _ _ Hc Esnap) as (Hlocal & Hid & Hcache).
  destruct (apply_loops _ _ _ _ _ _) as [[[]|] st]; [|done].
  destruct (commit_candidate _ _ _ _ _ _ _) as [[[]|] s2] eqn:Ecommit; [|done].
  intros [= _ <- _ _].
  eapply commit_clock in Ecommit as (after & c' & Hafter & Hc' & Hv & Hor); [|done|done|by rewrite Hid|done|done|].
  - exists after, c'. rewrite Hafter, <-Hid. by split_and!.
  - rewrite <-Hclock. by apply files_same.
Qed.

(** ** Properties *)

(** C24: the versions of symbolic links are left out of the clock.  When a share applies a
    manifest and then has a link whose version is, in its wall time, ahead of the clock the
    share had, of the time of the application and of every other record that is not a link,
    the clock it stores does not cover the version of the link.  As long as the time stays
    behind that version, whatever a scan finds at the path of the link, its deletion or a
    file in its place, gets a version that loses to the link: merging with the manifest of
    the peer brings the link back. *)
Theorem link_changes_undone s s' (t t' : tree) (ps ps' : partials) (e : env) (cross : bytes → bool)
    (remote : Manifest) (file_data : gmap bytes IncomingFile) (now observed : Z)
    (clock_env manifest_env : write_env) (outcome : ApplyOutcome) (c : ClockState)
    (after : ManifestSnapshot) (p : bytes) (l : SymlinkEntry)
    (Hcoherent : coherent s) (Hclock_env : cuts clock_env) (Hmanifest_env : cuts manifest_env)
    (Hclock : stored_clock s = Some c)
    (Hrun : apply_remote_transfer_impl s t ps e cross remote file_data now observed clock_env
              manifest_env = (Ok outcome, s', t', ps'))
    (Hafter : (manifest_snapshot s').1 = Ok after)
    (Hlink : record (ms_manifest after) p = Some (RSymlink l))
    (Hahead : last_wall_ms c < wall_ms (se_version l)) (Hobserved : observed < wall_ms (se_version l))
    (Hothers : ∀ q r, record (ms_manifest after) q = Some r → (∀ l', r ≠ RSymlink l') →
       wall_ms (rec_version r) < wall_ms (se_version l)) :
  ∃ c', stored_clock s' = Some c' ∧ ¬ covers c' (se_version l) ∧
    ∀ root reads endpoint_id now_ms u r, now_ms < wall_ms (se_version l) →
      scan_manifest_cached_after_validation root reads (ms_manifest after) endpoint_id now_ms u c' = Ok r →
      let m := into_owned (sr_manifest r) in
      is_Some (record m p) ∧
      select_record (record m p) (Some (RSymlink l)) = Some (RSymlink l) ∧
      select_record (Some (RSymlink l)) (record m p) = Some (RSymlink l).
Proof.
  destruct (apply_clock _ _ _ _ _ _ _ _ _ _ _ _ _ _ _ _ Hcoherent Hclock_env Hmanifest_env Hclock Hrun)
    as (after' & c' & Ea & Hc' & Hv & Hor).
  rewrite Hafter in Ea. injection Ea as <-.
  assert (Hwall : last_wall_ms c' < wall_ms (se_version l)).
  { destruct Hor as [->|Ho]; [done|]. eapply observe_all_wall; [..|exact Ho]; [done|done|].
    intros v Hin. destruct (observed_record _ _ v Hv Hin) as (q & r & Hr & Hnot & <-). by eapply Hothers. }
  exists c'. split_and!; [done|unfold covers; lia|].
  intros root reads endpoint_id now_ms u r Hnow Hscan m.
  apply scan_scanned in Hscan as (d & _ & Hs).
  pose proof (mv_share _ _ Hv) as Hid. rewrite <-Hid in Hv.
  destruct (scanned_keeps_paths _ _ _ _ d r p Hs) as [x Hx]; [by rewrite Hlink|]. fold m in Hx.
  rewrite Hx. split; [by eexists|].
  destruct (scanned_record _ _ _ _ Hv d r p x Hs Hx) as [(y & Hy & Hr)|[(_ & Hcov & _) _]].
  - rewrite Hlink in Hy. injection Hy as <-. simpl in Hr. subst x.
    rewrite select_max. by rewrite ltb_irrefl.
  - apply and_comm, select_newer, hlc_lt_iff. left. simpl.
    pose proof (scanned_below _ _ _ _ Hnow _ _ _ Hwall Hs) as Hb. unfold covers in Hcov. lia.
Qed.
End apply_clock.

(** ** Witness *)

Import Ref.

(** A share without records; a peer sends a link of a version ahead of its clock; the link
    is deleted and the directory scanned. *)
Definition ex_link : SymlinkEntry := {| se_target := bs "x"; se_version := ex_version 9 "002" |}.
Definition ex_linked : Manifest := ex_manifest (bs "l") (RSymlink ex_link).
Definition ex_unlinked : Manifest := Manifest_empty ex_share 0.
Definition ex_relinked : Manifest := with_scan_time ex_linked 5.
Definition ex_slow : ClockState := {| clock_format_version := 1; last_wall_ms := 1; last_counter := 0 |}.

#[local] Instance ex_codec_config : JsonState ShareConfig := two_state ex_share_config ex_share_config.
#[local] Instance ex_codec_manifest : JsonState Manifest := two_state ex_unlinked ex_relinked.
#[local] Instance ex_codec_clock : JsonState ClockState := two_state ex_slow ex_slow.
#[local] Instance ex_codec_peers : JsonState KnownPeers := two_state KnownPeers_empty KnownPeers_empty.
#[local] Instance ex_codec_status : JsonState RuntimeStatus :=
  two_state (RuntimeStatus_stopped 0) (RuntimeStatus_stopped 0).

Definition ex_unlinked_share : ActiveShare := {|
  as_files := <[share_manifest (bs "/d") ex_share := bs "x"]>
    {[share_clock (bs "/d") ex_share := bs "x"]};
  as_root := bs "/d"; as_share_id := ex_share; as_config := ex_share_config;
  as_runtime_status := None; as_manifest_generation := 0; as_network_generation := 0;
  as_manifest_cache := Some (from_validated ex_unlinked); as_peer_schedule := ∅;
  as_local_endpoint_id := endpoint "001" |}.
Definition ex_empty_tree : tree := {[[] := new_node KDir 448 0]}.
Definition ex_linking : result ApplyOutcome * ActiveShare * tree * partials :=
  apply_remote_transfer_impl ex_unlinked_share ex_empty_tree ∅ ex_local_env (λ _, false) ex_linked ∅ 5 5
    ex_env ex_env.
Definition ex_linking_outcome : ApplyOutcome :=
  {| ao_pending_downloads := 0; ao_applied_records := 1; ao_unsupported_items := 0 |}.
Definition ex_unlinking : result (ScanResult Cow) :=
  scan_manifest_cached_after_validation (bs "/s") ex_reads ex_relinked (endpoint "001") 6 ex_empty_tree
    ex_slow.
Definition ex_deleted : ManifestRecord := RTombstone {| tb_version := ex_version 6 "001" |}.

Lemma ex_unlinked_coherent : coherent ex_unlinked_share.
Proof.
  intros snapshot [= <-]. split; [|split; [vm_compute; reflexivity|reflexivity]].
  unfold disk_manifest, ex_unlinked_share. simpl. rewrite lookup_insert_eq. simpl.
  unfold two_from_slice. by rewrite decide_True.
Qed.

Lemma link_changes_undone_witness :
  ex_linking.1.1.1 = Ok ex_linking_outcome ∧
  ∃ r, ex_unlinking = Ok r ∧ record (into_owned (sr_manifest r)) (bs "l") = Some ex_deleted ∧
    select_record (Some ex_deleted) (Some (RSymlink ex_link)) = Some (RSymlink ex_link).
Proof.
  assert (Hr : ex_linking.1.1.1 = Ok ex_linking_outcome) by (vm_compute; reflexivity).
  split; [exact Hr|].
  assert (Hrun : apply_remote_transfer_impl ex_unlinked_share ex_empty_tree ∅ ex_local_env (λ _, false)
      ex_linked ∅ 5 5 ex_env ex_env =
    (Ok ex_linking_outcome, ex_linking.1.1.2, ex_linking.1.2, ex_linking.2)).
  { fold ex_linking. rewrite <-Hr. by destruct ex_linking as [[[? ?] ?] ?]. }
  assert (Hslow : stored_clock ex_unlinked_share = Some ex_slow) by (vm_compute; reflexivity).
  assert (Hafter : (manifest_snapshot ex_linking.1.1.2).1 = Ok (from_validated ex_relinked))
    by (vm_compute; reflexivity).
  assert (Hrec : ∀ q, record ex_relinked q = if decide (q = bs "l") then Some (RSymlink ex_link) else None).
  { intros q. unfold ex_relinked. rewrite record_scan_time. apply ex_record. }
  destruct (link_changes_undone ex_unlinked_share ex_linking.1.1.2 ex_empty_tree ex_linking.1.2 ∅
    ex_linking.2 ex_local_env (λ _, false) ex_linked ∅ 5 5 ex_env ex_env ex_linking_outcome ex_slow
    (from_validated ex_relinked) (bs "l") ex_link ex_unlinked_coherent ex_env_cuts ex_env_cuts
    Hslow Hrun Hafter) as (c' & Hc' & _ & Hscan).
  - change (ms_manifest (from_validated ex_relinked)) with ex_relinked. rewrite Hrec. by rewrite decide_True.
  - reflexivity.
  - reflexivity.
  - change (ms_manifest (from_validated ex_relinked)) with ex_relinked.
    intros q r. rewrite Hrec. case_decide; [|intros [=]]. intros [= <-] Hno. by destruct (Hno ex_link).
  - assert (Hstill : stored_clock ex_linking.1.1.2 = Some ex_slow) by (vm_compute; reflexivity).
    rewrite Hstill in Hc'. injection Hc' as <-.
    destruct ex_unlinking as [r|] eqn:Es; [|vm_compute in Es; discriminate Es].
    exists r. split; [reflexivity|].
    assert (Hd : match ex_unlinking with
      Ok r => record (into_owned (sr_manifest r)) (bs "l") | Err _ => None end = Some ex_deleted)
      by (vm_compute; reflexivity).
    rewrite Es in Hd. split; [exact Hd|]. rewrite <-Hd.
    exact (proj1 (proj2 (Hscan (bs "/s") ex_reads (endpoint "001") 6 ex_empty_tree r eq_refl Es))).
Defined.
