(* ===== verification/Directory.v ===== *)
(** * Shared directories of the device (src/app/directory.rs)

    Normalization of the directories a user names and the isolation checks of
    [App]: no path is below two shared directories, or below a shared directory and
    the application data.  What the system knows of paths outside the data root is a
    [host]: which exist, which are directories, their canonical forms. *)

From S2P Require Import Prelude Collections Bytes External Reference Framing Clock Types Peers ManifestPath Manifest Merge Storage DataDir Shares.

Record host := {
  h_exists : bytes → bool;
  h_is_dir : bytes → option bool;
  h_canonicalize : bytes → option bytes;
  h_current_dir : option bytes;
}.

(** ** [std::path] *)

Definition component_os_str (c : Component) : bytes :=
  match c with RootDir => [slash] | CurDir => [dot] | ParentDir => [dot; dot] | Normal n => n end.
(** The text of a path that was built from its components. *)
Definition path_of_components (cs : list Component) : bytes :=
  foldl (λ p c, path_push p (component_os_str c)) [] cs.

(** [Path::file_name]. *)
Definition path_file_name (p : bytes) : option bytes :=
  match last (components p) with Some (Normal n) => Some n | _ => None end.

(** [Path::starts_with], by components. *)
Definition path_starts_with (p base : bytes) : bool :=
  match strip_components (components base) (components p) with Some _ => true | None => false end.

Definition overlaps (p q : bytes) : bool := path_starts_with p q || path_starts_with q p.

(** ** The operations of directory.rs *)

(** One component of the lexical normalization; [PathBuf::pop] stops at the root. *)
Definition normalize_component (acc : list Component) (c : Component) : list Component :=
  match c with
  | CurDir => acc
  | ParentDir =>
      match last acc with Some (Normal _) => removelast acc | _ => acc end
  | _ => acc ++ [c]
  end.
Definition normalize_components (cs : list Component) : list Component :=
  foldl normalize_component [] cs.

(** The loop over missing components, from the last; [missing_tail] is in the order
    of the pushes. *)
Fixpoint existing_ancestor (h : host) (reversed : list Component) (missing_tail : list bytes)
    : result (bytes * list bytes) :=
  let existing := path_of_components (rev reversed) in
  if h_exists h existing then Ok (existing, missing_tail)
  else match reversed with
       | Normal name :: rest => existing_ancestor h rest (missing_tail ++ [name])
       | _ => Err "path has no existing ancestor"
       end.

Definition canonical_or_projected_path (h : host) (path : bytes) : result bytes :=
  absolute ←
    (if is_absolute path then Ok path
     else cwd ← ok_or (h_current_dir h) "unable to determine the current directory";
          Ok (path_push cwd path));
  let normalized := normalize_components (components absolute) in
  '(existing, missing_tail) ← existing_ancestor h (rev normalized) [];
  resolved ← ok_or (h_canonicalize h existing) "unable to normalize path";
  Ok (foldl path_push resolved (rev missing_tail)).

(** The directory is created if it is missing: [created] is the host afterwards. *)
Definition normalize_local_directory (h : host) (created : option host) (requested : bytes)
    : result (bytes * host) :=
  h' ← (if h_exists h requested then
          is_dir ← ok_or (h_is_dir h requested) "unable to inspect local directory";
          bail_if (negb is_dir) "is not a directory";;
          Ok h
        else ok_or created "unable to create local directory");
  directory ← ok_or (h_canonicalize h' requested) "unable to normalize local directory";
  bail_if (negb (is_utf8 directory)) "local directory path is not valid UTF-8";;
  Ok (directory, h').

Definition path_to_config_string (path : bytes) : result bytes :=
  bail_if (negb (is_utf8 path)) "local directory path is not valid UTF-8";; Ok path.

Definition config_directory (h : host) (config : ShareConfig) : result bytes :=
  let path := cfg_local_directory config in
  is_dir ← ok_or (h_is_dir h path) "unable to inspect local directory";
  bail_if (negb is_dir) "registered local path is not a directory";;
  ok_or (h_canonicalize h path) "unable to normalize local directory".

Definition determine_share_name (local_directory : bytes) (requested_name : option bytes)
    : result bytes :=
  let name :=
    match requested_name with
    | Some name => name
    | None =>
        match path_file_name local_directory with
        | Some component =>
            if is_utf8 component && negb (bool_decide (component = [])) then component
            else bs "share"
        | None => bs "share"
        end
    end in
  validate_share_name name;; Ok name.

(** [process_alive] on Linux; [running] is whether [/proc] lists the process. *)
Definition process_alive (running : Z → bool) (process_id : Z) : bool :=
  if process_id =? 0 then false else running process_id.

(** ** The isolation checks of [App] *)

Section isolation.
Context `{HexCodec, Iroh} `{!JsonState ShareConfig}.

(** Where a registered directory is now. *)
Definition resolve_registered (h : host) (configured : bytes) : result bytes :=
  if h_exists h configured
  then ok_or (h_canonicalize h configured) "unable to normalize registered directory"
  else Ok configured.

Fixpoint find_overlapping (h : host) (fs : files) (root local_directory : bytes)
    (share_ids : list bytes) : result (option bytes) :=
  match share_ids with
  | [] => Ok None
  | share_id :: rest =>
      config ← load_config fs root share_id;
      existing ← resolve_registered h (cfg_local_directory config);
      if overlaps local_directory existing then Ok (Some share_id)
      else find_overlapping h fs root local_directory rest
  end.
Definition find_share_for_directory (d : data_dir) (root : bytes) (h : host) (readable : bool)
    (local_directory : bytes) : result (option bytes) :=
  share_ids ← list_share_ids d root readable;
  find_overlapping h (dd_files d) root local_directory share_ids.

Definition ensure_directory_isolated_from_data_root (h : host) (root local_directory : bytes)
    : result unit :=
  data_root ← canonical_or_projected_path h root;
  bail_if (overlaps local_directory data_root)
    "local directory overlaps the Syncbox application data directory".
End isolation.

(** ** Overlapping directories *)

(** [x] is the directory or below it. *)
Definition path_below (x dir : bytes) : Prop := path_starts_with x dir = true.

Lemma path_starts_with_true p base :
  path_starts_with p base = true ↔ components base `prefix_of` components p.
Proof.
  unfold path_starts_with, prefix. destruct (strip_components _ _) as [rest|] eqn:E.
  - apply strip_components_Some in E. split; [eauto|done].
  - split; [done|]. intros [rest Hr]. apply strip_components_Some in Hr. congruence.
Qed.

(** Directories that do not overlap have nothing in common. *)
Lemma overlaps_false p q x : overlaps p q = false → path_below x p → path_below x q → False.
Proof.
  unfold overlaps, path_below. rewrite orb_false_iff, !path_starts_with_true. intros [Hp Hq] H1 H2.
  assert (components p `prefix_of` components q ∨ components q `prefix_of` components p) as [Hc|Hc].
  { destruct H1 as [r1 E1], H2 as [r2 E2]. rewrite E1 in E2.
    apply app_eq_app in E2 as (l & [[-> _]|[-> _]]); [right|left]; by exists l. }
  - apply path_starts_with_true in Hc. congruence.
  - apply path_starts_with_true in Hc. congruence.
Qed.

Lemma overlaps_comm p q : overlaps p q = overlaps q p.
Proof. unfold overlaps. apply orb_comm. Qed.

Section isolation_lemmas.
Context `{HexCodec, Iroh} `{!JsonState ShareConfig}.

Lemma find_overlapping_None h fs root local ids :
  find_overlapping h fs root local ids = Ok None →
  ∀ id, id ∈ ids → ∃ config existing, load_config fs root id = Ok config ∧
    resolve_registered h (cfg_local_directory config) = Ok existing ∧
    overlaps local existing = false.
Proof.
  induction ids as [|i ids IH]; simpl; [set_solver|].
  intros E. apply bind_Ok in E as (config & Hc & E). apply bind_Ok in E as (existing & He & E).
  destruct (overlaps local existing) eqn:Eo; [done|].
  intros id [->|Hid]%elem_of_cons; [eauto|by apply IH].
Qed.
End isolation_lemmas.
