(* ===== verification/App.v ===== *)
(** * Commands of the application (src/app/mod.rs)

    [App] over a data directory: registering a shared directory ([init],
    [register_join]), removing a share, selecting one by a prefix of its ID, scanning
    it, printing its ticket and assessing its runtime state.  A command threads the
    data directory and may fail at any step; what the system answers is in the
    environment of the command. *)

From S2P Require Import Prelude Collections Bytes External Reference Framing Clock Types Peers Ticket ManifestPath Manifest Merge Storage DataDir Shares Directory Digest Scheduling State LocalFs Scan.

(** ** Fallible steps over the data directory *)

Definition app (A : Type) : Type := data_dir → result A * data_dir.

Global Instance app_ret : MRet app := λ A a d, (Ok a, d).
Global Instance app_bind : MBind app := λ A B f m d,
  match m d with (Ok a, d') => f a d' | (Err e, d') => (Err e, d') end.

(** A step that only reads. *)
Definition reading {A} (f : data_dir → result A) : app A := λ d, (f d, d).
Definition lift {A} (r : result A) : app A := reading (λ _, r).

(** Locks: the layout, the lock file, the answer. *)
Record lock_env := {
  le_dirs : dir_env;
  le_opens : bool;
  le_answer : lock_answer;
}.
Record identity_env := {
  ie_lock : lock_env;
  ie_generated : bytes;
  ie_write : write_env;
}.

Definition acquire_registry_lock (root : bytes) (env : lock_env) : app unit := λ d,
  acquire_after_layout d root (registry_lock root) (le_dirs env) (le_opens env) (le_answer env).
Definition try_acquire_share_lock `{HexCodec} (root share_id : bytes) (env : lock_env) : app bool :=
  λ d, try_acquire_after_layout d root (share_lock root share_id) (le_dirs env) (le_opens env)
         (le_answer env).
Definition try_acquire_device_run_lock (root : bytes) (env : lock_env) : app bool :=
  λ d, try_acquire_after_layout d root (device_run_lock root) (le_dirs env) (le_opens env)
         (le_answer env).

Section app.
Context `{HexCodec, Sha256, Iroh, Base64Codec, Blake3, WalkDir} `{!JsonState ShareConfig}
  `{!JsonState Manifest} `{!JsonState ClockState} `{!JsonState KnownPeers}
  `{!JsonState RuntimeStatus}.
(** The public half of a secret key ([SecretKey::public]). *)
Context (public_key : bytes → EndpointId).
Implicit Types (root share_id selector : bytes) (d : data_dir) (h : host).

(** [identity::load_or_create] and the endpoint ID of the identity. *)
Definition device_id root (env : identity_env) : app EndpointId := λ d,
  let '(r, d') := load_or_create d root (ie_generated env) (le_dirs (ie_lock env))
    (le_opens (ie_lock env)) (le_answer (ie_lock env)) (ie_write env) in
  (key ← r; Ok (public_key key), d').

(** ** Selecting a share *)

Definition resolve_share_selector d root (readable : bool) selector : result bytes :=
  share_ids ← list_share_ids d root readable;
  match base.filter (λ share_id, matches_prefix share_id selector = true) share_ids with
  | [] => Err "share ID does not match a registered share"
  | [share_id] => Ok share_id
  | _ => Err "share ID prefix is ambiguous"
  end.

(** ** Registering a share *)

(** [ShareIdentity::random]: the candidates it gives in turn. *)
Definition new_unused_share_identity d root (candidates : nat → bytes * bytes)
    : result (bytes * bytes) :=
  match List.find (λ identity, negb (share_exists d root identity.1)) (map candidates (seq 0 16)) with
  | Some identity => Ok identity
  | None => Err "could not generate an unused share ID"
  end.

Record InitResult := {
  ir_name : bytes;
  ir_share_id : bytes;
  ir_local_directory : bytes;
  ir_endpoint_id : EndpointId;
  ir_ticket : bytes;
  ir_files : Z;
}.

(** What the system gives during [init] or [register_join]: the host, and the host
    once the directory was created; the shared tree and the reads of its files. *)
Record register_env := {
  rg_host : host;
  rg_created : option host;
  rg_registry : lock_env;
  rg_readable : bool;
  rg_identity : identity_env;
  rg_candidates : nat → bytes * bytes;
  rg_now_ms : Z;
  rg_tree : tree;
  rg_reads : list bytes → nat → io (list bytes * node);
  rg_create : create_env;
}.

(** The checks both commands start with: the directory, its canonical form, its
    isolation, the registry lock and the other shares. *)
Definition already_registered : string := "local directory is already registered by share".
Definition claim_directory root (env : register_env) (local_directory : bytes) h : app unit :=
  lift (ensure_directory_isolated_from_data_root h root local_directory);;
  acquire_registry_lock root (rg_registry env).
Definition check_unregistered root (env : register_env) (local_directory : bytes) h : app unit :=
  reading (λ d,
    existing ← find_share_for_directory d root h (rg_readable env) local_directory;
    bail_if (bool_decide (existing ≠ None)) already_registered).

Definition save_new_share root (config : ShareConfig) (manifest : Manifest) (clock : ClockState)
    (peers : KnownPeers) (runtime : RuntimeStatus) (env : create_env) : app unit := λ d,
  create_share_state d root config manifest clock peers runtime env.

Definition init_runtime (now_ms changes : Z) : RuntimeStatus :=
  let s := RuntimeStatus_stopped now_ms in {|
  rs_format_version := rs_format_version s; rs_process_id := rs_process_id s;
  rs_started_at_ms := rs_started_at_ms s; rs_heartbeat_at_ms := rs_heartbeat_at_ms s;
  rs_state := rs_state s; rs_health := rs_health s; rs_connected_peers := rs_connected_peers s;
  rs_pending_downloads := rs_pending_downloads s; rs_pending_updates := changes;
  rs_last_scan_at_ms := Some now_ms; rs_last_remote_update_at_ms := rs_last_remote_update_at_ms s;
  rs_last_sync_at_ms := rs_last_sync_at_ms s;
  rs_last_connection_at_ms := rs_last_connection_at_ms s; rs_last_error := rs_last_error s |}.

Definition init root (env : register_env) (requested_directory : bytes)
    (requested_name : option bytes) : app InitResult :=
  '(local_directory, h) ← lift (normalize_local_directory (rg_host env) (rg_created env)
                                  requested_directory);
  claim_directory root env local_directory h;;
  check_unregistered root env local_directory h;;
  endpoint_id ← device_id root (rg_identity env);
  '(share_id, share_secret) ← reading (λ d, new_unused_share_identity d root (rg_candidates env));
  let now_ms := rg_now_ms env in
  name ← lift (determine_share_name local_directory requested_name);
  scanned ← lift (scan_manifest local_directory (rg_reads env) (Manifest_empty share_id now_ms)
                    endpoint_id now_ms (rg_tree env) ClockState_new);
  local_text ← lift (path_to_config_string local_directory);
  let config := {|
    cfg_format_version := FORMAT_VERSION; cfg_share_id := share_id;
    cfg_share_secret := share_secret; cfg_name := name; cfg_local_directory := local_text;
    cfg_created_at_ms := now_ms; cfg_initial_peers := [endpoint_id_string endpoint_id];
    cfg_initial_sync_complete := true |} in
  save_new_share root config (sr_manifest scanned) (sr_clock scanned) KnownPeers_empty
    (init_runtime now_ms (sr_changes scanned)) (rg_create env);;
  ticket ← lift (t ← ShareTicket_new share_id share_secret [endpoint_id]; ShareTicket_encode t);
  mret {| ir_name := name; ir_share_id := share_id; ir_local_directory := local_directory;
          ir_endpoint_id := endpoint_id; ir_ticket := ticket; ir_files := sr_files scanned |}.

Record JoinResult := {
  jr_name : bytes;
  jr_share_id : bytes;
  jr_local_directory : bytes;
  jr_endpoint_id : EndpointId;
  jr_initial_peers : list EndpointId;
  jr_initial_sync_status : InitialSyncStatus;
}.

Definition join_runtime (now_ms : Z) : RuntimeStatus :=
  let s := RuntimeStatus_stopped now_ms in {|
  rs_format_version := rs_format_version s; rs_process_id := rs_process_id s;
  rs_started_at_ms := rs_started_at_ms s; rs_heartbeat_at_ms := rs_heartbeat_at_ms s;
  rs_state := WaitingForPeers; rs_health := Offline; rs_connected_peers := rs_connected_peers s;
  rs_pending_downloads := rs_pending_downloads s; rs_pending_updates := rs_pending_updates s;
  rs_last_scan_at_ms := rs_last_scan_at_ms s;
  rs_last_remote_update_at_ms := rs_last_remote_update_at_ms s;
  rs_last_sync_at_ms := rs_last_sync_at_ms s;
  rs_last_connection_at_ms := rs_last_connection_at_ms s; rs_last_error := rs_last_error s |}.

Definition register_join root (env : register_env) (ticket_text requested_directory : bytes)
    : app JoinResult :=
  ticket ← lift (ShareTicket_parse ticket_text);
  '(local_directory, h) ← lift (normalize_local_directory (rg_host env) (rg_created env)
                                  requested_directory);
  claim_directory root env local_directory h;;
  reading (λ d, bail_if (share_exists d root (tk_share_id ticket))
                  "share is already registered on this device");;
  check_unregistered root env local_directory h;;
  endpoint_id ← device_id root (rg_identity env);
  let now_ms := rg_now_ms env in
  name ← lift (determine_share_name local_directory None);
  let initial_peer_strings :=
    dedup (sort_by id (map endpoint_id_string (tk_initial_peers ticket))) in
  let peers := {|
    kp_format_version := FORMAT_VERSION;
    kp_peers := map (λ e, {| pr_endpoint_id := e; pr_added_at_ms := now_ms;
                             pr_last_seen_at_ms := None |}) initial_peer_strings |} in
  lift (KnownPeers_validate peers);;
  local_text ← lift (path_to_config_string local_directory);
  let config := {|
    cfg_format_version := FORMAT_VERSION; cfg_share_id := tk_share_id ticket;
    cfg_share_secret := tk_share_secret ticket; cfg_name := name;
    cfg_local_directory := local_text; cfg_created_at_ms := now_ms;
    cfg_initial_peers := initial_peer_strings; cfg_initial_sync_complete := false |} in
  save_new_share root config (Manifest_empty (tk_share_id ticket) now_ms) ClockState_new peers
    (join_runtime now_ms) (rg_create env);;
  mret {| jr_name := name; jr_share_id := tk_share_id ticket;
          jr_local_directory := local_directory; jr_endpoint_id := endpoint_id;
          jr_initial_peers := tk_initial_peers ticket; jr_initial_sync_status := InitialOffline |}.

(** ** Removing a share *)

Definition validate_share_state (fs : files) root share_id : result unit :=
  load_config fs root share_id;; load_manifest fs root share_id;; load_clock fs root share_id;;
  load_known_peers fs root share_id;; load_runtime_status fs root share_id;; Ok tt.

Record remove_command_env := {
  rc_registry : lock_env;
  rc_readable : bool;
  rc_share : lock_env;
  rc_remove : remove_env;
}.

Definition unregister root share_id (env : remove_env) : app unit := λ d,
  remove_share_state d root share_id env.

Definition remove root (env : remove_command_env) selector : app bytes :=
  acquire_registry_lock root (rc_registry env);;
  share_id ← reading (λ d, resolve_share_selector d root (rc_readable env) selector);
  locked ← try_acquire_share_lock root share_id (rc_share env);
  lift (bail_if (negb locked) "share is currently in use by another Syncbox process");;
  reading (λ d,
    bail_if (negb (bool_decide (selector = share_id_to_string share_id))
             && negb (is_ok (validate_share_state (dd_files d) root share_id)))
      "share has incomplete or invalid local state");;
  unregister root share_id (rc_remove env);;
  mret share_id.

(** ** Scanning a share *)

(** A write of a state file. *)
Definition writing (f : files → result unit * files) : app unit := λ d,
  let '(r, fs) := f (dd_files d) in (r, with_dd_files d fs).

Record ScanCommandResult := {
  scr_share_id : bytes;
  scr_files : Z;
  scr_tombstones : Z;
  scr_changed : bool;
}.

Record scan_command_env := {
  sn_readable : bool;
  sn_share : lock_env;
  sn_identity : identity_env;
  sn_host : host;
  sn_now_ms : Z;
  sn_tree : tree;
  sn_reads : list bytes → nat → io (list bytes * node);
  sn_clock : write_env;
  sn_manifest : write_env;
  sn_status : write_env;
}.

Definition scan_command_status (now_ms changes : Z) (r : RuntimeStatus) : RuntimeStatus := {|
  rs_format_version := rs_format_version r; rs_process_id := rs_process_id r;
  rs_started_at_ms := rs_started_at_ms r; rs_heartbeat_at_ms := now_ms;
  rs_state := if rs_process_id r =? 0 then Stopped else rs_state r;
  rs_health := rs_health r; rs_connected_peers := rs_connected_peers r;
  rs_pending_downloads := rs_pending_downloads r;
  rs_pending_updates := if 0 <? changes then changes else rs_pending_updates r;
  rs_last_scan_at_ms := Some now_ms;
  rs_last_remote_update_at_ms := rs_last_remote_update_at_ms r;
  rs_last_sync_at_ms := rs_last_sync_at_ms r;
  rs_last_connection_at_ms := rs_last_connection_at_ms r; rs_last_error := rs_last_error r |}.

(** What [scan] writes, in this order: the clock, the manifest, the status. *)
Definition save_scan root share_id (scanned : ScanResult Cow) (env : scan_command_env) : app unit :=
  (if 0 <? sr_changes scanned
   then writing (λ fs, save_clock fs root share_id (sr_clock scanned) (sn_clock env))
   else mret tt);;
  (if sr_manifest_changed scanned
   then writing (λ fs, store_manifest fs root (into_owned (sr_manifest scanned)) (sn_manifest env))
   else mret tt);;
  stored ← reading (λ d, load_runtime_status (dd_files d) root share_id);
  writing (λ fs, save_runtime_status fs root share_id
    (scan_command_status (sn_now_ms env) (sr_changes scanned)
       (default (RuntimeStatus_stopped (sn_now_ms env)) stored)) (sn_status env)).

Definition scan root (env : scan_command_env) selector : app ScanCommandResult :=
  share_id ← reading (λ d, resolve_share_selector d root (sn_readable env) selector);
  locked ← try_acquire_share_lock root share_id (sn_share env);
  lift (bail_if (negb locked) "share is currently in use by syncbox run");;
  config ← reading (λ d, load_config (dd_files d) root share_id);
  lift (bail_if (negb (cfg_initial_sync_complete config))
          "share has not received its first remote manifest");;
  endpoint_id ← device_id root (sn_identity env);
  directory ← lift (config_directory (sn_host env) config);
  lift (ensure_directory_isolated_from_data_root (sn_host env) root directory);;
  manifest ← reading (λ d, load_manifest (dd_files d) root share_id);
  clock ← reading (λ d, load_clock (dd_files d) root share_id);
  scanned ← lift (scan_manifest_cached_after_validation directory (sn_reads env) manifest
                    endpoint_id (sn_now_ms env) (sn_tree env) clock);
  save_scan root share_id scanned env;;
  mret {| scr_share_id := share_id; scr_files := sr_files scanned;
          scr_tombstones := sr_tombstones scanned; scr_changed := sr_changed scanned |}.

(** ** Tickets *)

Definition ticket d root (readable : bool) selector : result (bytes * bytes) :=
  share_id ← resolve_share_selector d root readable selector;
  config ← load_config (dd_files d) root share_id;
  initial_peers ← try_map parse_endpoint_id (cfg_initial_peers config);
  t ← ShareTicket_new (cfg_share_id config) (cfg_share_secret config) initial_peers;
  text ← ShareTicket_encode t;
  Ok (share_id, text).

Definition generate_workspace_ticket root (env : identity_env) (random : bytes * bytes)
    : app (bytes * EndpointId * bytes) :=
  endpoint_id ← device_id root env;
  text ← lift (t ← ShareTicket_new random.1 random.2 [endpoint_id]; ShareTicket_encode t);
  mret (random.1, endpoint_id, text).

(** ** Starting to run *)

Record run_env := {
  rn_registry : lock_env;
  rn_readable : bool;
  rn_host : host;
  rn_device : lock_env;
  rn_shares : bytes → lock_env;
  rn_identity : identity_env;
}.

Definition check_share_directory root h share_id d : result unit :=
  config ← load_config (dd_files d) root share_id;
  directory ← config_directory h config;
  ensure_directory_isolated_from_data_root h root directory.

Fixpoint lock_shares root (locks : bytes → lock_env) (share_ids : list bytes) : app unit :=
  match share_ids with
  | [] => mret tt
  | share_id :: rest =>
      locked ← try_acquire_share_lock root share_id (locks share_id);
      lift (bail_if (negb locked) "share is already in use by another Syncbox process");;
      lock_shares root locks rest
  end.

(** [run] up to the call of [network::run]: the shares it runs, with the identity;
    [None] when there is nothing to run. *)
Definition prepare_run root (env : run_env) (selector : option bytes)
    : app (option (list bytes * EndpointId)) :=
  acquire_registry_lock root (rn_registry env);;
  share_ids ← reading (λ d,
    match selector with
    | Some selector => share_id ← resolve_share_selector d root (rn_readable env) selector; Ok [share_id]
    | None => list_share_ids d root (rn_readable env)
    end);
  if bool_decide (share_ids = []) then mret None
  else
    reading (λ d, try_for (λ share_id, check_share_directory root (rn_host env) share_id d) share_ids);;
    active ← try_acquire_device_run_lock root (rn_device env);
    lift (bail_if (negb active) "syncbox run is already active for this device");;
    let ordered_share_ids := sort_by id share_ids in
    lock_shares root (rn_shares env) ordered_share_ids;;
    endpoint_id ← device_id root (rn_identity env);
    mret (Some (ordered_share_ids, endpoint_id)).
End app.
