(* ===== verification/Status.v ===== *)
(** * Status reports (src/app/status.rs, [App::status])

    A share is reported as running only while a process holds its lock, is alive and
    has written a heartbeat in the last fifteen seconds; anything else is reported as
    stopped, with the state that was recorded last. *)

From S2P Require Import Prelude Collections Bytes External Reference Framing Clock Types Peers Ticket ManifestPath Manifest Merge Storage DataDir Shares Directory Digest Scheduling State LocalFs Scan App.
From stdpp Require Import pretty.
#[local] Open Scope Z_scope.

Definition STATUS_HEARTBEAT_STALE_MS : Z := 15000.

(** On Unix every link is supported. *)
Definition status_unsupported_symlink_count (manifest : Manifest) : Z := 0.

Record ShareStatus := {
  ss_share_id : bytes;
  ss_name : bytes;
  ss_local_directory : bytes;
  ss_endpoint_id : bytes;
  ss_runtime : bytes;
  ss_health : bytes;
  ss_files : Z;
  ss_tombstones : Z;
  ss_known_peers : Z;
  ss_connected_peers : Z;
  ss_pending_downloads : Z;
  ss_pending_updates : Z;
  ss_unsupported_items : Z;
  ss_last_local_scan : option bytes;
  ss_last_remote_update : option bytes;
  ss_last_successful_sync : option bytes;
  ss_last_connection : option bytes;
  ss_last_error : option bytes;
}.

Record StatusDetails := {
  sd_heartbeat_stale : bool;
  sd_last_recorded_state : option RuntimeState;
  sd_output : ShareStatus;
}.

Record RuntimeAssessment := {
  ra_runtime : RuntimeState;
  ra_heartbeat_stale : bool;
  ra_last_recorded_state : option RuntimeState;
}.

Record StatusReport := {
  sr_shares : list ShareStatus;
  sr_details : list StatusDetails;
}.

(** [rfc3339] is [chrono]'s formatting of the milliseconds it can represent. *)
Definition format_timestamp (rfc3339 : Z → option bytes) (value : option Z) : option bytes :=
  match value with
  | Some milliseconds => if milliseconds <=? 2 ^ 63 - 1 then rfc3339 milliseconds else None
  | None => None
  end.

(** ** Text *)

Definition display_optional (value : option bytes) : bytes := default (bs "none") value.
Definition decimal (n : Z) : bytes := bs (pretty n).

(** [lines.join("\n")]. *)
Fixpoint join_lines (ls : list bytes) : bytes :=
  match ls with
  | [] => []
  | [l] => l
  | l :: rest => l ++ "010"%byte :: join_lines rest
  end.

Definition format_human_share_status (details : StatusDetails) : bytes :=
  let status := sd_output details in
  join_lines (
    [ bs "Share: " ++ ss_name status;
      bs "Share ID: " ++ ss_share_id status;
      bs "Local directory: " ++ ss_local_directory status;
      [];
      bs "Runtime: " ++ ss_runtime status;
      bs "Health: " ++ ss_health status;
      [];
      bs "Endpoint ID: " ++ ss_endpoint_id status;
      bs "Files: " ++ decimal (ss_files status);
      bs "Tombstones: " ++ decimal (ss_tombstones status);
      [];
      bs "Known peers: " ++ decimal (ss_known_peers status);
      bs "Connected peers: " ++ decimal (ss_connected_peers status);
      [];
      bs "Pending downloads: " ++ decimal (ss_pending_downloads status);
      bs "Pending updates: " ++ decimal (ss_pending_updates status);
      bs "Unsupported items: " ++ decimal (ss_unsupported_items status);
      [];
      bs "Last local scan: " ++ display_optional (ss_last_local_scan status);
      bs "Last remote update: " ++ display_optional (ss_last_remote_update status);
      bs "Last successful sync: " ++ display_optional (ss_last_successful_sync status);
      bs "Last connection: " ++ display_optional (ss_last_connection status);
      bs "Last error: " ++ display_optional (ss_last_error status) ]
    ++ (match sd_last_recorded_state details with
        | Some state => [bs "Last recorded state: " ++ bs (RuntimeState_as_str state)]
        | None => []
        end)
    ++ (if sd_heartbeat_stale details then [bs "Status heartbeat is stale"] else [])
    ++ [[]]).

Definition human_text (report : StatusReport) : bytes :=
  if bool_decide (sr_details report = []) then bs "No shared directories registered" ++ ["010"%byte]
  else join_lines (map format_human_share_status (sr_details report)).

(** ** The report *)

Section status.
Context `{HexCodec, Sha256, Iroh, Base64Codec, Blake3, WalkDir} `{!JsonState ShareConfig}
  `{!JsonState Manifest} `{!JsonState ClockState} `{!JsonState KnownPeers}
  `{!JsonState RuntimeStatus}.
Context (public_key : bytes → EndpointId) (rfc3339 : Z → option bytes).
Implicit Types (root share_id : bytes) (d : data_dir).

(** What the system answers: the listing, the share locks, the process table. *)
Record status_env := {
  st_readable : bool;
  st_opens : bytes → bool;
  st_lock : bytes → lock_answer;
  st_running : Z → bool;
  st_now_ms : Z;
}.

Definition assess_runtime d root (env : status_env) share_id (status : option RuntimeStatus)
    : result RuntimeAssessment :=
  lock_held ← share_lock_is_held d root share_id (st_opens env share_id) (st_lock env share_id);
  match status with
  | None => Ok {| ra_runtime := Stopped; ra_heartbeat_stale := false; ra_last_recorded_state := None |}
  | Some status =>
      let heartbeat_stale :=
        STATUS_HEARTBEAT_STALE_MS <? saturating_sub (st_now_ms env) (rs_heartbeat_at_ms status) in
      let alive := process_alive (st_running env) (rs_process_id status) in
      let active := lock_held && negb heartbeat_stale && alive && negb (rs_process_id status =? 0) in
      if active then
        Ok {| ra_runtime := rs_state status; ra_heartbeat_stale := false;
              ra_last_recorded_state := None |}
      else
        let recorded := negb (bool_decide (rs_state status = Stopped)) in
        Ok {| ra_runtime := Stopped; ra_heartbeat_stale := heartbeat_stale && recorded;
              ra_last_recorded_state := if recorded then Some (rs_state status) else None |}
  end.

(** The body of the loop of [status]. *)
Definition share_status d root (env : status_env) (endpoint_id : option bytes) share_id
    : result StatusDetails :=
  config ← load_config (dd_files d) root share_id;
  manifest ← load_manifest (dd_files d) root share_id;
  peers ← load_known_peers (dd_files d) root share_id;
  status ← load_runtime_status (dd_files d) root share_id;
  assessment ← assess_runtime d root env share_id status;
  let stored := default (RuntimeStatus_stopped (st_now_ms env)) status in
  let last_scan_at_ms :=
    match rs_last_scan_at_ms stored with Some t => Some t | None => Some (mf_scanned_at_ms manifest) end in
  let unsupported_items := status_unsupported_symlink_count manifest in
  let runtime :=
    if (0 <? unsupported_items) && negb (bool_decide (ra_runtime assessment = Stopped))
    then Degraded else ra_runtime assessment in
  let health := if 0 <? unsupported_items then HealthError else rs_health stored in
  let last_error :=
    if 0 <? unsupported_items then Some (bs "symbolic links are unsupported on Windows")
    else rs_last_error stored in
  Ok {|
    sd_heartbeat_stale := ra_heartbeat_stale assessment;
    sd_last_recorded_state := ra_last_recorded_state assessment;
    sd_output := {|
      ss_share_id := share_id_to_string share_id; ss_name := cfg_name config;
      ss_local_directory := cfg_local_directory config; ss_endpoint_id := default [] endpoint_id;
      ss_runtime := bs (RuntimeState_as_str runtime); ss_health := bs (SyncHealth_as_str health);
      ss_files := Z.of_nat (size (mf_entries manifest));
      ss_tombstones := Z.of_nat (size (mf_tombstones manifest));
      ss_known_peers := blen (kp_peers peers);
      ss_connected_peers :=
        if bool_decide (ra_runtime assessment = Stopped) then 0 else rs_connected_peers stored;
      ss_pending_downloads := rs_pending_downloads stored;
      ss_pending_updates := rs_pending_updates stored;
      ss_unsupported_items := unsupported_items;
      ss_last_local_scan := format_timestamp rfc3339 last_scan_at_ms;
      ss_last_remote_update := format_timestamp rfc3339 (rs_last_remote_update_at_ms stored);
      ss_last_successful_sync := format_timestamp rfc3339 (rs_last_sync_at_ms stored);
      ss_last_connection := format_timestamp rfc3339 (rs_last_connection_at_ms stored);
      ss_last_error := last_error |} |}.

Definition status d root (env : status_env) (selector : option bytes) : result StatusReport :=
  share_ids ← match selector with
              | Some selector =>
                  share_id ← resolve_share_selector d root (st_readable env) selector; Ok [share_id]
              | None => list_share_ids d root (st_readable env)
              end;
  existing_identity ← load_existing d root;
  bail_if (negb (bool_decide (share_ids = [])) && bool_decide (existing_identity = None))
    "registered shares exist but the global device identity is missing";;
  let endpoint_id := (λ key, endpoint_id_string (public_key key)) <$> existing_identity in
  details ← try_map (share_status d root env endpoint_id) share_ids;
  Ok {| sr_shares := map sd_output details; sr_details := details |}.

(** ** What is reported *)

(** The status and the system agree that the share runs: its lock is held, the process
    that the status records is alive, and its last heartbeat is recent (or in the future). *)
Definition runs (d : data_dir) root (env : status_env) share_id (status : RuntimeStatus) : Prop :=
  is_Some (dd_files d !! share_lock root share_id) ∧ st_lock env share_id = LockHeld ∧
  st_now_ms env - rs_heartbeat_at_ms status ≤ STATUS_HEARTBEAT_STALE_MS ∧
  rs_process_id status ≠ 0 ∧ st_running env (rs_process_id status) = true.

Lemma share_lock_is_held_Ok d root share_id opens answer b :
  share_lock_is_held d root share_id opens answer = Ok b →
  b = true ↔ is_Some (dd_files d !! share_lock root share_id) ∧ answer = LockHeld.
Proof.
  unfold share_lock_is_held, contains_key.
  destruct (dd_files d !! share_lock root share_id) as [x|].
  - destruct opens; [|done]. simpl. destruct answer; intros [= <-]; split; try done; eauto; by intros [_ ?].
  - intros [= <-]. split; [done|]. by intros [[? ?] _].
Qed.

Lemma assess_runtime_Ok d root env share_id status a :
  assess_runtime d root env share_id status = Ok a →
  (∃ s, status = Some s ∧ runs d root env share_id s ∧ ra_runtime a = rs_state s ∧
     ra_last_recorded_state a = None ∧ ra_heartbeat_stale a = false) ∨
  ((∀ s, status = Some s → ¬ runs d root env share_id s) ∧ ra_runtime a = Stopped ∧
   (∀ s, ra_last_recorded_state a = Some s → ∃ r, status = Some r ∧ rs_state r = s)).
Proof.
  unfold assess_runtime. destruct (share_lock_is_held _ _ _ _ _) as [held|] eqn:Eh; [|done]. simpl.
  apply share_lock_is_held_Ok in Eh. destruct status as [s|]; [|intros [= <-]; right; done].
  assert (Hact : held && negb (STATUS_HEARTBEAT_STALE_MS <? saturating_sub (st_now_ms env) (rs_heartbeat_at_ms s))
    && process_alive (st_running env) (rs_process_id s) && negb (rs_process_id s =? 0) = true
    ↔ runs d root env share_id s).
  { unfold runs, process_alive, saturating_sub, STATUS_HEARTBEAT_STALE_MS.
    rewrite !andb_true_iff, !negb_true_iff, Z.ltb_ge, Z.eqb_neq, Eh.
    destruct (Z.eqb_spec (rs_process_id s) 0); split; intros; destruct_and?; try done; split_and!; try done; lia. }
  destruct (held && _ && _ && _) eqn:Ea; simpl; intros [= <-]; [left|right]; simpl.
  - exists s. split_and!; try done. by apply Hact.
  - split; [|split; [done|]].
    + intros s' [= <-] Hr%Hact. congruence.
    + case_bool_decide; simpl; intros s' [=]; subst; eauto.
Qed.

(** A status report lists the selected shares in order, with the numbers of their
    manifests; a share is reported in its recorded state exactly if its lock is held, the
    process that its status records is alive and its heartbeat is of the last 15 s, and as
    stopped with no connected peer otherwise. *)
Lemma status_is_truthful d root (env : status_env) (selector : option bytes) report
    (Hs : status d root env selector = Ok report) :
  ∃ share_ids,
    (match selector with
     | Some selector => ∃ id, resolve_share_selector d root (st_readable env) selector = Ok id ∧ share_ids = [id]
     | None => list_share_ids d root (st_readable env) = Ok share_ids
     end) ∧
    Forall2 (λ share_id s, ∃ stored manifest,
      load_runtime_status (dd_files d) root share_id = Ok stored ∧
      load_manifest (dd_files d) root share_id = Ok manifest ∧
      ss_share_id s = share_id_to_string share_id ∧
      ss_files s = Z.of_nat (size (mf_entries manifest)) ∧
      ((∃ r, stored = Some r ∧ runs d root env share_id r ∧
          ss_runtime s = bs (RuntimeState_as_str (rs_state r))) ∨
       ((∀ r, stored = Some r → ¬ runs d root env share_id r) ∧
        ss_runtime s = bs (RuntimeState_as_str Stopped) ∧ ss_connected_peers s = 0)))
      share_ids (sr_shares report).
Proof.
  unfold status in Hs. apply bind_Ok in Hs as (ids & Hids & Hs).
  apply bind_Ok in Hs as (key & Hkey & Hs). apply bind_Ok in Hs as ([] & _ & Hs).
  apply bind_Ok in Hs as (details & Hd & [= <-]). exists ids. split.
  { destruct selector as [sel|]; [|done]. apply bind_Ok in Hids as (id & Hid & [= <-]). eauto. }
  apply try_map_Ok in Hd. simpl. apply Forall2_fmap_r. eapply Forall2_impl; [exact Hd|].
  intros id s Hid. simpl in Hid. unfold share_status in Hid.
  apply bind_Ok in Hid as (config & _ & Hid). apply bind_Ok in Hid as (manifest & Hm & Hid).
  apply bind_Ok in Hid as (peers & _ & Hid). apply bind_Ok in Hid as (stored & Hst & Hid).
  apply bind_Ok in Hid as (a & Ha & [= <-]). exists stored, manifest. simpl.
  split_and!; try done.
  apply assess_runtime_Ok in Ha as [(r & -> & Hr & -> & _)|(Hno & -> & _)]; [left|right]; eauto.
Qed.
End status.

(** *** Witnesses *)

Import Ref.

Definition ex_runtime : RuntimeStatus := {|
  rs_format_version := 1; rs_process_id := 7; rs_started_at_ms := 0; rs_heartbeat_at_ms := 90;
  rs_state := Running; rs_health := Synchronized; rs_connected_peers := 2; rs_pending_downloads := 0;
  rs_pending_updates := 0; rs_last_scan_at_ms := None; rs_last_remote_update_at_ms := None;
  rs_last_sync_at_ms := None; rs_last_connection_at_ms := None; rs_last_error := None |}.
#[local] Instance ex_codec_config : JsonState ShareConfig := single_state ex_share_config.
#[local] Instance ex_codec_manifest : JsonState Manifest := single_state (Manifest_empty ex_share 0).
#[local] Instance ex_codec_clock : JsonState ClockState := single_state ClockState_new.
#[local] Instance ex_codec_peers : JsonState KnownPeers := single_state KnownPeers_empty.
#[local] Instance ex_codec_status : JsonState RuntimeStatus := single_state ex_runtime.

Definition ex_running : data_dir := {|
  dd_files := list_to_map [(share_config (bs "/d") ex_share, bs "value");
    (share_manifest (bs "/d") ex_share, bs "value"); (share_known_peers (bs "/d") ex_share, bs "value");
    (share_runtime_status (bs "/d") ex_share, bs "value"); (share_lock (bs "/d") ex_share, []);
    (identity_key (bs "/d"), repeat "005"%byte 32)];
  dd_dirs := {[bs "/d"; shares_dir (bs "/d"); share_dir (bs "/d") ex_share]} |}.
Definition ex_status_env : status_env := {|
  st_readable := true; st_opens := λ _, true; st_lock := λ _, LockHeld; st_running := λ _, true;
  st_now_ms := 100 |}.
Definition ex_status : result StatusReport :=
  status (λ _, endpoint "001") (λ _, None) ex_running (bs "/d") ex_status_env None.

(** The report shows the share as running with its two peers. *)
Definition ex_report_ok : bool :=
  match ex_status with
  | Ok report =>
      match sr_shares report with
      | [s] => bool_decide (ss_runtime s = bs "running") && (ss_connected_peers s =? 2)
      | _ => false
      end
  | Err _ => false
  end.

Lemma status_is_truthful_witness :
  ∃ report s, ex_status = Ok report ∧ sr_shares report = [s] ∧ ss_runtime s = bs "running" ∧
    ∃ share_ids, list_share_ids ex_running (bs "/d") true = Ok share_ids ∧ length share_ids = 1%nat.
Proof.
  assert (Hok : ex_report_ok = true) by (vm_compute; reflexivity). unfold ex_report_ok in Hok.
  destruct ex_status as [report|] eqn:E; [|discriminate Hok].
  destruct (status_is_truthful (λ _, endpoint "001") (λ _, None) ex_running (bs "/d") ex_status_env None
    report E) as (ids & Hids & Hall).
  destruct (sr_shares report) as [|s [|? ?]] eqn:Es; [discriminate Hok| |discriminate Hok].
  apply andb_true_iff in Hok as [Hr _]. apply bool_decide_eq_true in Hr.
  exists report, s. repeat (split; [assumption || reflexivity|]). exists ids.
  split; [exact Hids|]. apply Forall2_length in Hall. exact Hall.
Defined.
