(* ===== verification/Registration.v ===== *)
(** * Registration of shares (src/app/mod.rs)

    What the commands do to the set of registered shares: a selector names at most
    one share, no two shares ever have a path in common, and the ticket of a new share
    lets another device join it. *)

From S2P Require Import Prelude Collections Bytes External Reference Framing Clock Types Peers Ticket ManifestPath Manifest Merge Storage DataDir Shares Directory Digest Scheduling State LocalFs Scan App.

(** ** Steps that leave the shares alone *)

(** Nothing below [shares] changes, and the tree stays a tree. *)
Definition shares_kept (root : bytes) (d d' : data_dir) : Prop :=
  (tree_ok d → tree_ok d') ∧
  ∀ rest, let q := shares_dir root ++ slash :: rest in
    dd_files d' !! q = dd_files d !! q ∧ (q ∈ dd_dirs d' ↔ q ∈ dd_dirs d).

Definition keeps_shares {A} (root : bytes) (m : app A) : Prop := ∀ d, shares_kept root d (m d).2.

Lemma shares_kept_refl root d : shares_kept root d d.
Proof. split; [done|]. by intros rest. Qed.
Lemma shares_kept_trans root d1 d2 d3 :
  shares_kept root d1 d2 → shares_kept root d2 d3 → shares_kept root d1 d3.
Proof.
  intros [Ht Hs] [Ht' Hs']. split; [auto|]. intros rest. simpl.
  destruct (Hs rest) as [Ha Hb], (Hs' rest) as [Ha' Hb']. simpl in *. by rewrite Ha', Hb', Ha, Hb.
Qed.

Lemma reading_kept {A} root (f : data_dir → result A) : keeps_shares root (reading f).
Proof. intros d. apply shares_kept_refl. Qed.

(** A command is a chain of such steps up to the one that changes the shares. *)
Lemma app_bind_cases {A B} (m : app A) (f : A → app B) d (P : result B * data_dir → Prop) :
  (∀ e d', m d = (Err e, d') → P (Err e, d')) →
  (∀ a d', m d = (Ok a, d') → P (f a d')) → P ((m ≫= f) d).
Proof.
  intros He Ho. unfold mbind, app_bind. destruct (m d) as [[a|e] d'] eqn:E; auto.
Qed.

Lemma keeps_step {A} root (m : app A) d d0 r d' :
  keeps_shares root m → m d = (r, d') → shares_kept root d0 d → shares_kept root d0 d'.
Proof.
  intros Hk E H0. eapply shares_kept_trans; [exact H0|]. specialize (Hk d). by rewrite E in Hk.
Qed.

(** *** The layout and the lock files *)

Section layout_lemmas.
Context `{HexCodec}.
Implicit Types root : bytes.

Lemma beside_shares root (name x y : bytes) :
  name = bs "identity" ∨ name = bs "locks" → path_push root name ++ x ≠ shares_dir root ++ y.
Proof.
  intros Hname. unfold shares_dir, path_push.
  change (is_absolute (bs "shares")) with false.
  destruct Hname as [-> | ->];
    [change (is_absolute (bs "identity")) with false|change (is_absolute (bs "locks")) with false];
    (destruct (last root) as [b|]; [destruct (Byte.eqb b slash)|];
       rewrite <-!app_assoc; intros E%app_inv_head; discriminate E).
Qed.

Lemma layout_not_below root p rest :
  p ∈ [root; identity_dir root; shares_dir root; locks_dir root] →
  inside (shares_dir root ++ slash :: rest) p = false.
Proof.
  intros Hp. apply not_true_iff_false. intros Hi.
  assert (Hlen : (length root < length (shares_dir root ++ slash :: rest))%nat ∧
    (length (shares_dir root) < length (shares_dir root ++ slash :: rest))%nat).
  { rewrite length_app. simpl. split; [|lia]. unfold shares_dir, path_push. simpl.
    destruct (last root) as [b|]; [destruct (Byte.eqb b slash)|]; rewrite length_app; lia. }
  assert (Hno : ∀ name, name = bs "identity" ∨ name = bs "locks" → p ≠ path_push root name).
  { intros name Hname ->. apply inside_true in Hi as [E|[r E]].
    - apply (beside_shares root name [] (slash :: rest) Hname). by rewrite app_nil_r.
    - rewrite <-app_assoc in E.
      apply (beside_shares root name [] ((slash :: rest) ++ slash :: r) Hname).
      by rewrite app_nil_r. }
  apply inside_length in Hi.
  repeat (apply elem_of_cons in Hp as [->|Hp]); [lia| |lia| |by apply elem_of_nil in Hp].
  - by apply (Hno (bs "identity")); auto.
  - by apply (Hno (bs "locks")); auto.
Qed.

Lemma ensure_layout_kept root d env : shares_kept root d (ensure_layout d root env).2.
Proof.
  split; [apply create_secure_dirs_tree|]. intros rest. simpl. unfold ensure_layout. split.
  - by rewrite create_secure_dirs_files.
  - split; [|apply create_secure_dirs_mono]. intros [?|(p & Hp & Hi)]%create_secure_dirs_dirs; [done|].
    by rewrite layout_not_below in Hi.
Qed.

(** A file written directly in [identity] or [locks]. *)
Lemma file_beside_kept root d fs' dir name :
  dir = bs "identity" ∨ dir = bs "locks" → is_absolute name = false → slash ∉ name →
  path_push root dir ∈ dd_dirs d →
  (∀ q, q ≠ path_push (path_push root dir) name → fs' !! q = None ∨ fs' !! q = dd_files d !! q) →
  (∀ rest, fs' !! (shares_dir root ++ slash :: rest) = dd_files d !! (shares_dir root ++ slash :: rest)) →
  shares_kept root d (with_dd_files d fs').
Proof.
  intros Hdir Hn Hs Hin Hq Hsh. split; [|intros rest; split; [apply Hsh|done]].
  intros [Hf Hd]. split; [|done]. intros p Hp. simpl.
  destruct (decide (p = path_push (path_push root dir) name)) as [->|Hne].
  - assert (Hl : ∃ c, last (path_push root dir) = Some c ∧ c ≠ slash).
    { destruct Hdir as [-> | ->]; [exists "y"%byte|exists "s"%byte]; split; try done; by apply last_path_push. }
    destruct Hl as (c & Hl & Hc). rewrite (path_push_join _ _ c) by done.
    apply Forall_forall. intros x [->|Hx]%parents_child; [done| |done].
    apply Hd in Hin. rewrite Forall_forall in Hin. by apply Hin.
  - destruct (Hq p Hne) as [E|E]; simpl in Hp; rewrite E in Hp; [by destruct Hp|]. by apply Hf.
Qed.

Lemma open_lock_kept root d name :
  is_absolute name = false → slash ∉ name → locks_dir root ∈ dd_dirs d →
  shares_kept root d (open_lock_file d (path_push (locks_dir root) name)).
Proof.
  intros Hn Hs Hl. apply (file_beside_kept root d _ (bs "locks") name); auto.
  - intros q Hq. right. by apply open_lock_file_lookup.
  - intros rest. apply open_lock_file_lookup. unfold locks_dir.
    rewrite (path_push_join _ name "s"%byte) by (done || by apply last_path_push).
    intros E. by apply (beside_shares root (bs "locks") (slash :: name) (slash :: rest)); auto.
Qed.

(** What follows the layout may rely on its directories. *)
Lemma after_layout_kept {A} root d env (k : data_dir → result A * data_dir) :
  (∀ d1, identity_dir root ∈ dd_dirs d1 → locks_dir root ∈ dd_dirs d1 → shares_kept root d1 (k d1).2) →
  shares_kept root d
    (match ensure_layout d root env with (Err e, d1) => (Err e, d1) | (Ok _, d1) => k d1 end).2.
Proof.
  intros Hk. pose proof (ensure_layout_kept root d env) as He.
  destruct (ensure_layout d root env) as [[[]|e] d1] eqn:E; [|done].
  apply create_secure_dirs_Ok in E. rewrite !Forall_cons in E. destruct E as (_ & Hi & _ & Hl & _).
  eapply shares_kept_trans; [exact He|]. by apply Hk.
Qed.

Lemma acquire_kept root d env opens answer name :
  is_absolute name = false → slash ∉ name →
  shares_kept root d (acquire_after_layout d root (path_push (locks_dir root) name) env opens answer).2.
Proof.
  intros Hn Hs. apply (after_layout_kept root d env). intros d1 _ Hl. unfold acquire_lock.
  destruct opens; [by apply open_lock_kept|apply shares_kept_refl].
Qed.
Lemma try_acquire_kept root d env opens answer name :
  is_absolute name = false → slash ∉ name →
  shares_kept root d (try_acquire_after_layout d root (path_push (locks_dir root) name) env opens answer).2.
Proof.
  intros Hn Hs. apply (after_layout_kept root d env). intros d1 _ Hl. unfold try_acquire_lock.
  destruct opens; [by apply open_lock_kept|apply shares_kept_refl].
Qed.

Lemma slash_free (s : bytes) : contains slash s = false → slash ∉ s.
Proof. apply contains_false. Qed.

Lemma share_lock_name share_id : slash ∉ share_id_to_string share_id ++ bs ".lock".
Proof.
  intros [Hs|Hs]%elem_of_app; [by destruct (share_name_plain share_id slash Hs)|].
  revert Hs. by apply contains_false.
Qed.

Lemma written_temporary (fs : files) dir name nonce chunks f :
  is_absolute name = false →
  let fs' := (atomic_write_with fs dir name nonce chunks f).2 in
  fs' !! temporary_path dir name nonce = None ∨
  fs' !! temporary_path dir name nonce = fs !! temporary_path dir name nonce.
Proof.
  intros Hn. pose proof (atomic_write_states fs dir name nonce chunks f Hn) as Hs. revert Hs.
  destruct f; [| right; done| ..]; destruct (atomic_write_with _ _ _ _ _ _) as [[v r] fs'];
    intros (_ & _ & Ht); left; by apply Ht.
Qed.

Lemma save_identity_kept root d key dirs env :
  shares_kept root d (save_identity_bytes d root key dirs env).2.
Proof.
  apply (after_layout_kept root d dirs). intros d1 Hi _.
  pose proof (atomic_write_states (dd_files d1) (identity_dir root) (bs "device.key") (we_nonce env)
    (we_cut env key) (we_fault env) eq_refl) as Hs.
  pose proof (written_temporary (dd_files d1) (identity_dir root) (bs "device.key") (we_nonce env)
    (we_cut env key) (we_fault env) eq_refl) as Hw.
  destruct (atomic_write_with _ _ _ _ _ _) as [[v r] fs]. destruct Hs as [Hs _].
  inversion Hs as [|? ? [_ Hq] _]; subst. simpl.
  assert (Hpush : ∀ name, is_absolute name = false →
    path_push (identity_dir root) name = identity_dir root ++ slash :: name).
  { intros name Hn. by apply (path_push_join _ name "y"%byte); [apply last_path_push|..]. }
  apply (file_beside_kept root d1 fs (bs "identity") (bs "device.key")); auto.
  - by apply slash_free.
  - intros q Hne. destruct (decide (q = temporary_path (identity_dir root) (bs "device.key") (we_nonce env)))
      as [->|Hnt]; [|right; by apply Hq].
    exact Hw.
  - intros rest. apply Hq; rewrite ?Hpush by done.
    + intros E. by apply (beside_shares root (bs "identity") (slash :: bs "device.key") (slash :: rest)); auto.
    + unfold temporary_path. rewrite Hpush by done. intros E.
      eapply (beside_shares root (bs "identity") _ (slash :: rest)); [by left|]. symmetry. exact E.
Qed.
End layout_lemmas.

Section registration.
Context `{HexCodec, Sha256, Iroh, Base64Codec, Blake3, WalkDir} `{!JsonState ShareConfig}
  `{!JsonState Manifest} `{!JsonState ClockState} `{!JsonState KnownPeers}
  `{!JsonState RuntimeStatus}.
Context (public_key : bytes → EndpointId).
Implicit Types (root share_id : bytes) (d : data_dir) (h : host).

Lemma registry_lock_kept root env : keeps_shares root (acquire_registry_lock root env).
Proof. intros d. apply acquire_kept; [done|by apply slash_free]. Qed.
Lemma share_lock_kept root share_id env : keeps_shares root (try_acquire_share_lock root share_id env).
Proof. intros d. apply try_acquire_kept; [apply lock_name_relative|apply share_lock_name]. Qed.

Lemma device_id_kept root env : keeps_shares root (device_id public_key root env).
Proof.
  intros d. unfold device_id, load_or_create.
  pose proof (acquire_kept root d (le_dirs (ie_lock env)) (le_opens (ie_lock env)) (le_answer (ie_lock env))
    (bs "identity.lock") eq_refl (slash_free (bs "identity.lock") eq_refl)) as Ha.
  fold (identity_lock root) in Ha.
  destruct (acquire_after_layout _ _ _ _ _ _) as [[[]|e] d1]; [|exact Ha].
  destruct (load_identity_bytes d1 root) as [[key|]|e]; [exact Ha| |exact Ha].
  pose proof (save_identity_kept root d1 (ie_generated env) (le_dirs (ie_lock env)) (ie_write env)) as Hs.
  destruct (save_identity_bytes _ _ _ _ _) as [[[]|e] d2]; simpl in *; by eapply shares_kept_trans.
Qed.

(** ** The registered shares *)

Definition registered d root share_id : Prop :=
  is_array 32 share_id ∧ share_exists d root share_id = true.

(** A share is registered with this configuration. *)
Definition configured d root share_id (config : ShareConfig) : Prop :=
  registered d root share_id ∧ load_config (dd_files d) root share_id = Ok config.

Lemma share_path_eq root share_id name :
  is_array 32 share_id → is_absolute name = false →
  share_path root share_id name = share_dir root share_id ++ slash :: name.
Proof.
  intros Hid Hn. unfold share_path.
  assert (∃ c, last (share_dir root share_id) = Some c ∧ c ≠ slash) as (c & Hl & Hc).
  { rewrite share_dir_eq, last_app, last_cons.
    destruct (last (share_id_to_string share_id)) as [c|] eqn:E.
    - exists c. split; [done|]. apply (share_name_plain share_id). by apply last_Some_elem_of.
    - exfalso. apply last_None in E. apply (f_equal length) in E. unfold share_id_to_string in E.
      by rewrite length_hex_encode, Hid in E. }
  by apply (path_push_join _ _ c).
Qed.

Lemma load_config_same d d' root share_id :
  is_array 32 share_id →
  (∀ q, inside (share_dir root share_id) q = true → dd_files d' !! q = dd_files d !! q) →
  load_config (dd_files d) root share_id = load_config (dd_files d') root share_id.
Proof.
  intros Hid Hq. unfold load_config, read_state, read_bounded, share_config.
  rewrite (share_path_eq root share_id (bs "config.json") Hid eq_refl).
  by rewrite (Hq _ (inside_child _ _)).
Qed.

Lemma configured_same d d' root share_id config :
  (∀ q, inside (share_dir root share_id) q = true →
     dd_files d' !! q = dd_files d !! q ∧ (q ∈ dd_dirs d' ↔ q ∈ dd_dirs d)) →
  configured d' root share_id config ↔ configured d root share_id config.
Proof.
  intros Hq. unfold configured, registered.
  assert (Hex : share_exists d' root share_id = share_exists d root share_id).
  { unfold share_exists. apply bool_decide_ext, Hq, inside_refl. }
  assert (Hf : ∀ q, inside (share_dir root share_id) q = true → dd_files d' !! q = dd_files d !! q)
    by (intros q Hi; by apply Hq).
  rewrite Hex. split; intros [[Hid He] Hl]; (split; [done|]); rewrite <-Hl;
    [|symmetry]; by apply load_config_same.
Qed.

Lemma inside_shares root share_id q :
  inside (share_dir root share_id) q = true → ∃ rest, q = shares_dir root ++ slash :: rest.
Proof.
  rewrite share_dir_eq. intros [->|[r ->]]%inside_true; [eauto|].
  rewrite <-app_assoc. simpl. eauto.
Qed.

Lemma configured_kept d d' root share_id config :
  shares_kept root d d' → configured d' root share_id config ↔ configured d root share_id config.
Proof.
  intros [_ Hk]. apply configured_same. intros q [rest ->]%inside_shares. apply Hk.
Qed.

(** ** Selecting *)

Lemma matches_full_id share_id :
  is_array 32 share_id → matches_prefix share_id (share_id_to_string share_id) = true.
Proof.
  clear public_key. intros Hid. apply matches_prefix_spec; [done|]. split.
  - intros E%(f_equal length). unfold share_id_to_string in E. by rewrite length_hex_encode, Hid in E.
  - exists []. by rewrite app_nil_r.
Qed.

Lemma matches_full_id_inv other share_id :
  is_array 32 other → is_array 32 share_id →
  matches_prefix other (share_id_to_string share_id) = true → other = share_id.
Proof.
  clear public_key. intros Ho Hid [_ [rest Hr]]%matches_prefix_spec; [|done].
  unfold share_id_to_string in Hr.
  assert (rest = []) as ->.
  { apply (f_equal length) in Hr. rewrite length_app, !length_hex_encode, Ho, Hid in Hr.
    apply nil_length_inv. lia. }
  rewrite app_nil_r in Hr. apply (f_equal hex_decode) in Hr. rewrite !hex_decode_encode in Hr. congruence.
Qed.

Lemma resolve_share_selector_Ok d root readable selector share_id :
  tree_ok d →
  resolve_share_selector d root readable selector = Ok share_id ↔
  is_ok (list_share_ids d root readable) = true ∧
  registered d root share_id ∧ matches_prefix share_id selector = true ∧
  (∀ other, registered d root other → matches_prefix other selector = true → other = share_id).
Proof.
  clear public_key. intros Htree. unfold resolve_share_selector.
  destruct (list_share_ids d root readable) as [l|e] eqn:El; [|split; [done|by intros [? _]]].
  apply (list_share_ids_spec _ _ _ _ Htree) in El as (Hnd & _ & Hin). simpl.
  assert (Hf : ∀ id, id ∈ base.filter (λ share_id, matches_prefix share_id selector = true) l ↔
    registered d root id ∧ matches_prefix id selector = true).
  { intros id. rewrite list_elem_of_filter, Hin. unfold registered. tauto. }
  assert (Hnf : NoDup (base.filter (λ share_id, matches_prefix share_id selector = true) l))
    by by apply NoDup_filter.
  destruct (base.filter _ l) as [|x [|y rest]].
  - split; [done|]. intros (_ & Hr & Hm & _). exfalso.
    pose proof (proj2 (Hf share_id) (conj Hr Hm)) as Hx. by apply elem_of_nil in Hx.
  - split.
    + intros [= ->]. destruct (proj1 (Hf share_id)) as [Hr Hm]; [by apply list_elem_of_singleton|].
      split_and!; try done. intros o Ho Hmo. apply list_elem_of_singleton, Hf. done.
    + intros (_ & Hr & Hm & _). f_equal. symmetry. apply list_elem_of_singleton, Hf. done.
  - split; [done|]. intros (_ & Hr & Hm & Hu). exfalso. apply NoDup_cons in Hnf as [Hx _].
    destruct (proj1 (Hf x)) as [Hrx Hmx]; [set_solver|].
    destruct (proj1 (Hf y)) as [Hry Hmy]; [set_solver|].
    apply Hx. rewrite (Hu x), (Hu y) by done. set_solver.
Qed.

Lemma resolved_registered d root readable selector share_id :
  tree_ok d → resolve_share_selector d root readable selector = Ok share_id → is_array 32 share_id.
Proof.
  intros Ht Hr. by apply (resolve_share_selector_Ok d root readable selector share_id Ht) in Hr as (_ & [Ha _] & _).
Qed.

(** ** Isolation *)

(** On the hosts the commands run on, a canonical path stays canonical (no part of it
    is replaced by a symbolic link), and the data root stays where it is. *)
Record stable_hosts (hosts : list host) root (data_root : bytes) : Prop := {
  stable_canonical h h' p q :
    h ∈ hosts → h' ∈ hosts → h_canonicalize h p = Some q → resolve_registered h' q = Ok q;
  stable_root h : h ∈ hosts → canonical_or_projected_path h root = Ok data_root;
}.

(** No path is below two shared directories, nor below a shared directory and the
    application data. *)
Record isolated (hosts : list host) d root (data_root : bytes) : Prop := {
  isolated_resolves share_id config h :
    configured d root share_id config → h ∈ hosts →
    resolve_registered h (cfg_local_directory config) = Ok (cfg_local_directory config);
  isolated_shares id1 id2 c1 c2 x :
    configured d root id1 c1 → configured d root id2 c2 →
    path_below x (cfg_local_directory c1) → path_below x (cfg_local_directory c2) → id1 = id2;
  isolated_data share_id config x :
    configured d root share_id config → path_below x (cfg_local_directory config) →
    path_below x data_root → False;
}.

Lemma isolated_mono hosts d d' root data_root :
  (∀ id c, configured d' root id c → configured d root id c) →
  isolated hosts d root data_root → isolated hosts d' root data_root.
Proof. intros Hsub [Ha Hb Hc]. split; eauto. Qed.

Lemma isolated_kept hosts d d' root data_root :
  shares_kept root d d' → isolated hosts d root data_root → isolated hosts d' root data_root.
Proof. intros Hk. apply isolated_mono. intros id c. apply (configured_kept d d' root id c Hk). Qed.

(** What the registration checks establish about the directory. *)
Definition claimed (hosts : list host) d root (data_root local_directory : bytes) : Prop :=
  (∀ h, h ∈ hosts → resolve_registered h local_directory = Ok local_directory) ∧
  (∀ share_id config, configured d root share_id config →
     overlaps local_directory (cfg_local_directory config) = false) ∧
  overlaps local_directory data_root = false.

Lemma claimed_kept hosts d d' root data_root local :
  shares_kept root d d' → claimed hosts d root data_root local → claimed hosts d' root data_root local.
Proof.
  intros Hk (Ha & Hb & Hc). split; [done|]. split; [|done]. intros id c Hcf.
  apply (Hb id). by apply (configured_kept d d' root id c Hk).
Qed.

(** The configuration of a published share is the one that was given. *)
Lemma published_config d root (config : ShareConfig) manifest clock peers runtime texts config' :
  state_texts config manifest clock peers runtime = Some texts →
  published d (share_dir root (cfg_share_id config)) texts →
  configured d root (cfg_share_id config) config' → config' = config.
Proof.
  unfold state_texts. intros Ht (_ & _ & _ & Hp) [[Hid _] Hl].
  destruct (to_vec config) as [c|] eqn:Ec; [|done].
  destruct (to_vec manifest), (to_vec clock), (to_vec peers), (to_vec runtime); try done.
  injection Ht as <-. unfold load_config, share_config in Hl.
  rewrite (share_path_eq root (cfg_share_id config) (bs "config.json") Hid eq_refl) in Hl.
  specialize (Hp (bs "config.json")).
  rewrite !lookup_insert_ne, lookup_singleton_eq in Hp by done.
  rewrite (read_state_written _ _ _ _ _ Ec Hp) in Hl.
  destruct (SMALL_STATE_MAX_BYTES <? blen c + 1); [done|]. simpl in Hl.
  apply bind_Ok in Hl as (_ & _ & [= <-]). done.
Qed.

Lemma create_isolated hosts d root data_root (config : ShareConfig) manifest clock peers runtime staging out :
  is_array 32 (cfg_share_id config) →
  (∀ id q, inside (share_dir root id) q = true → inside staging q = false) →
  isolated hosts d root data_root →
  claimed hosts d root data_root (cfg_local_directory config) →
  create_outcome d root (cfg_share_id config) staging (state_texts config manifest clock peers runtime) out →
  isolated hosts out.2 root data_root.
Proof.
  intros Hid Hstaging Hiso (Hres & Hov & Hdata) (Hreg & _ & Hfr & Hex).
  set (share_id := cfg_share_id config) in *.
  (* the other shares are as before *)
  assert (Hother : ∀ id c, id ≠ share_id → configured out.2 root id c → configured d root id c).
  { intros id c Hne Hcf. pose proof Hcf as [[Hida He] _].
    assert (Hq : ∀ q, inside (share_dir root id) q = true → dd_files out.2 !! q = dd_files d !! q).
    { intros q Hq. apply Hfr; [by apply (shares_apart root share_id id)|eauto|].
      intros ->. by rewrite share_lock_apart in Hq. }
    destruct Hcf as [_ Hl]. split; [split; [done|by rewrite <-Hex]|]. rewrite <-Hl.
    by apply load_config_same. }
  destruct Hreg as [[Hvac (t & Ht & Hp)]|Hsame].
  - assert (Hnew : ∀ c, configured out.2 root share_id c → c = config).
    { intros c. by apply (published_config _ _ _ _ _ _ _ _ _ Ht). }
    destruct Hiso as [Ha Hb Hc]. split.
    + intros id c h Hcf Hh. destruct (decide (id = share_id)) as [->|Hne]; [|by eapply Ha; eauto].
      rewrite (Hnew _ Hcf). by apply Hres.
    + intros id1 id2 c1 c2 x H1' H2' Hx1 Hx2.
      destruct (decide (id1 = share_id)) as [->|Hne1], (decide (id2 = share_id)) as [->|Hne2]; [done| | |by eauto].
      * rewrite (Hnew _ H1') in Hx1. exfalso.
        by eapply (overlaps_false _ (cfg_local_directory c2) x); [eapply Hov, Hother|..].
      * rewrite (Hnew _ H2') in Hx2. exfalso.
        by eapply (overlaps_false _ (cfg_local_directory c1) x); [eapply Hov, Hother|..].
    + intros id c x Hcf Hx Hx'. destruct (decide (id = share_id)) as [->|Hne]; [|by eauto].
      rewrite (Hnew _ Hcf) in Hx. by eapply (overlaps_false (cfg_local_directory config)).
  - apply (isolated_mono hosts d); [|done]. intros id c Hcf.
    destruct (decide (id = share_id)) as [->|Hne]; [|by apply Hother].
    by apply (configured_same d out.2 root share_id c Hsame).
Qed.

(** ** The commands keep the shares isolated *)

Section commands.
Context (hosts : list host) (root data_root : bytes).
Context (Hstable : stable_hosts hosts root data_root).

Definition on_hosts (env : register_env) : Prop :=
  rg_host env ∈ hosts ∧ (∀ h, rg_created env = Some h → h ∈ hosts).

Lemma normalize_on_hosts env requested local h :
  on_hosts env → normalize_local_directory (rg_host env) (rg_created env) requested = Ok (local, h) →
  h ∈ hosts ∧ ∀ h', h' ∈ hosts → resolve_registered h' local = Ok local.
Proof using Hstable.
  intros [Hh Hc] Hn. unfold normalize_local_directory in Hn.
  apply bind_Ok in Hn as (h1 & Hh1 & Hn). apply bind_Ok in Hn as (dir & Hdir & Hn).
  apply bind_Ok in Hn as (_ & _ & [= -> ->]). apply ok_or_Ok in Hdir.
  assert (h ∈ hosts) as Hin.
  { destruct (h_exists (rg_host env) requested); [|apply ok_or_Ok in Hh1; auto].
    apply bind_Ok in Hh1 as (? & _ & Hh1). apply bind_Ok in Hh1 as (_ & _ & Hh1).
    by simplify_eq. }
  split; [done|]. intros h' Hh'. by apply (stable_canonical _ _ _ Hstable h h' requested).
Qed.

Lemma checks_claim env d local h :
  tree_ok d → isolated hosts d root data_root → h ∈ hosts →
  (∀ h', h' ∈ hosts → resolve_registered h' local = Ok local) →
  ensure_directory_isolated_from_data_root h root local = Ok tt →
  (check_unregistered root env local h d).1 = Ok tt →
  claimed hosts d root data_root local.
Proof using Hstable.
  intros Htree Hiso Hh Hres He Hc. split; [done|]. split.
  - intros id c Hcf. unfold check_unregistered, reading, find_share_for_directory in Hc. simpl in Hc.
    apply bind_Ok in Hc as (existing & Hf & Hb). apply bind_Ok in Hf as (ids & Hids & Hf).
    apply bail_if_Ok, bool_decide_eq_false, dec_stable in Hb. subst existing.
    pose proof Hcf as [Hreg Hl]. apply (list_share_ids_spec _ _ _ _ Htree) in Hids as (_ & _ & Hids).
    destruct (find_overlapping_None _ _ _ _ _ Hf id) as (c' & e & Hl' & Hr & Ho); [by apply Hids|].
    rewrite Hl in Hl'. injection Hl' as <-.
    rewrite (isolated_resolves _ _ _ _ Hiso id c h Hcf Hh) in Hr. by injection Hr as <-.
  - unfold ensure_directory_isolated_from_data_root in He.
    rewrite (stable_root _ _ _ Hstable h Hh) in He. by apply bail_if_Ok in He.
Qed.

(** The environment of a registration: fresh names, 32-byte share IDs, buffered
    writes that lose nothing. *)
Definition register_env_ok (env : register_env) d : Prop :=
  on_hosts env ∧ all_cut (rg_create env) ∧
  (∀ n, is_array 32 (rg_candidates env n).1 ∧ is_array 32 (rg_candidates env n).2) ∧
  (∀ share_id, staging_dir root share_id (ce_nonce (rg_create env)) ∉ dd_dirs d ∧
     dd_files d !! staging_dir root share_id (ce_nonce (rg_create env)) = None).

(** The last step of both commands. *)
Lemma save_new_share_isolated d d1 (config : ShareConfig) manifest clock peers runtime env :
  is_array 32 (cfg_share_id config) → tree_ok d → shares_kept root d d1 → all_cut env →
  (∀ share_id, staging_dir root share_id (ce_nonce env) ∉ dd_dirs d ∧
     dd_files d !! staging_dir root share_id (ce_nonce env) = None) →
  isolated hosts d1 root data_root → claimed hosts d1 root data_root (cfg_local_directory config) →
  isolated hosts (save_new_share root config manifest clock peers runtime env d1).2 root data_root.
Proof using.
  intros Hid Htree Hkept Hcut Hfresh Hiso Hcl. pose proof Hkept as [Ht Hk].
  destruct (Hfresh (cfg_share_id config)) as [Hf1 Hf2].
  destruct (staging_facts root (cfg_share_id config) (cfg_share_id config) (ce_nonce env)) as [Es _].
  eapply (create_isolated hosts d1 root data_root config); [done| |done|done|].
  - intros id q. apply (staging_apart root (cfg_share_id config) (ce_nonce env)).
  - apply create_share_state_outcome; [done|by apply Ht|done|..]; rewrite Es in Hf1, Hf2 |- *.
    + intros Hin%Hk. by apply Hf1.
    + rewrite <-Hf2. apply Hk.
Qed.

(** The steps of a command before its last: each may fail, and keeps the shares. *)
Section steps.
Context (d : data_dir) (Hiso : isolated hosts d root data_root).

Lemma step_kept {A B} (m : app A) (f : A → app B) d1 :
  keeps_shares root m → shares_kept root d d1 →
  (∀ a d2, m d1 = (Ok a, d2) → shares_kept root d d2 → isolated hosts (f a d2).2 root data_root) →
  isolated hosts ((m ≫= f) d1).2 root data_root.
Proof using Hiso.
  intros Hm Hk Hnext. apply (app_bind_cases _ _ _ (λ o, isolated hosts o.2 root data_root)).
  - intros e d' E. eapply isolated_kept; [|exact Hiso]. by eapply keeps_step.
  - intros a d' E. apply Hnext; [done|]. by eapply keeps_step.
Qed.
Lemma step_read {A B} (g : data_dir → result A) (f : A → app B) d1 :
  shares_kept root d d1 →
  (∀ a, g d1 = Ok a → isolated hosts (f a d1).2 root data_root) →
  isolated hosts ((reading g ≫= f) d1).2 root data_root.
Proof using Hiso.
  intros Hk Hnext. apply step_kept; [apply reading_kept|done|]. intros a d2 [= Hg <-] _. by apply Hnext.
Qed.
Lemma step_lift {A B} (r : result A) (f : A → app B) d1 :
  shares_kept root d d1 → (∀ a, r = Ok a → isolated hosts (f a d1).2 root data_root) →
  isolated hosts ((lift r ≫= f) d1).2 root data_root.
Proof using Hiso. apply (step_read (λ _, r)). Qed.
End steps.

Lemma bind_assoc_app {A B C} (m : app A) (f : A → app B) (g : B → app C) d :
  ((m ≫= f) ≫= g) d = (m ≫= λ a, f a ≫= g) d.
Proof. unfold mbind, app_bind. by destruct (m d) as [[]]. Qed.

(** The checks both commands start with, and what follows them. *)
Definition directory_ok (local_directory : bytes) h : Prop :=
  h ∈ hosts ∧ (∀ h', h' ∈ hosts → resolve_registered h' local_directory = Ok local_directory) ∧
  ensure_directory_isolated_from_data_root h root local_directory = Ok tt.

Lemma step_claim {B} env d requested (f : bytes → host → app B) :
  isolated hosts d root data_root → on_hosts env →
  (∀ local h d1, shares_kept root d d1 → directory_ok local h →
     isolated hosts (f local h d1).2 root data_root) →
  isolated hosts
    (('(local_directory, h) ← lift (normalize_local_directory (rg_host env) (rg_created env) requested);
      claim_directory root env local_directory h;; f local_directory h) d).2 root data_root.
Proof using Hstable.
  intros Hiso Hhosts Hnext. apply (step_lift d Hiso); [apply shares_kept_refl|]. intros [local h] Hn.
  destruct (normalize_on_hosts env requested local h Hhosts Hn) as [Hh Hres].
  unfold claim_directory. rewrite bind_assoc_app.
  apply (step_lift d Hiso); [apply shares_kept_refl|]. intros [] He.
  apply (step_kept d Hiso); [apply registry_lock_kept|apply shares_kept_refl|]. intros [] d1 _ Hk1.
  by apply Hnext.
Qed.

Lemma step_check {B} env d d1 local h (f : app B) :
  tree_ok d → isolated hosts d root data_root → shares_kept root d d1 → directory_ok local h →
  (claimed hosts d root data_root local → isolated hosts (f d1).2 root data_root) →
  isolated hosts ((check_unregistered root env local h;; f) d1).2 root data_root.
Proof using Hstable.
  intros Htree Hiso Hk (Hh & Hres & He) Hnext. apply (step_read d Hiso); [done|]. intros [] Hc.
  apply Hnext. assert (Hcl : claimed hosts d1 root data_root local).
  { apply (checks_claim env d1 local h); try done; [by apply Hk|by eapply isolated_kept]. }
  destruct Hcl as (_ & Hcl & Hdr). split; [done|]. split; [|done]. intros id c Hcf.
  apply (Hcl id). by apply (configured_kept d d1 root id c Hk).
Qed.

(** Nothing changes the shares after the new one was saved. *)
Lemma step_last {A B} (m : app A) (f : A → app B) d :
  (∀ a d', (f a d').2 = d') → isolated hosts (m d).2 root data_root →
  isolated hosts ((m ≫= f) d).2 root data_root.
Proof using.
  intros Hf Hm. unfold mbind, app_bind. destruct (m d) as [[a|e] d']; [|done]. by rewrite Hf.
Qed.

Lemma unused_identity_array d candidates share_id secret :
  (∀ n, is_array 32 (candidates n).1 ∧ is_array 32 (candidates n).2) →
  new_unused_share_identity d root candidates = Ok (share_id, secret) →
  is_array 32 share_id ∧ is_array 32 secret ∧ share_exists d root share_id = false.
Proof using.
  intros Hc. unfold new_unused_share_identity.
  destruct (List.find _ _) as [[i s]|] eqn:E; [|done]. intros [= -> ->].
  apply find_some in E as [Hin Hx%negb_true_iff]. apply in_map_iff in Hin as (n & Hn & _).
  specialize (Hc n). rewrite Hn in Hc. by destruct Hc.
Qed.

Lemma init_isolated env d requested name :
  tree_ok d → isolated hosts d root data_root → register_env_ok env d →
  isolated hosts (init public_key root env requested name d).2 root data_root.
Proof using Hstable.
  intros Htree Hiso (Hhosts & Hcut & Hcand & Hfresh).
  unfold init. apply step_claim; [done|done|]. intros local h d1 Hk1 Hdir.
  apply (step_check _ d); try done. intros Hcl.
  apply (step_kept d Hiso); [apply device_id_kept|done|]. intros endpoint d2 Hd Hk2.
  apply (step_read d Hiso); [done|]. intros [share_id secret] Hid.
  apply (step_lift d Hiso); [done|]. intros nm _.
  apply (step_lift d Hiso); [done|]. intros scanned _.
  apply (step_lift d Hiso); [done|]. intros text Htext.
  apply unused_identity_array in Hid as [Hid _]; [|done].
  apply bind_Ok in Htext as (_ & _ & [= <-]).
  apply step_last; [|apply (save_new_share_isolated d); try done; [by eapply isolated_kept|by eapply claimed_kept]].
  intros [] d'. unfold lift, reading, mbind, app_bind. by destruct (result_bind _ _ _ _).
Qed.

Lemma register_join_isolated env d text requested :
  tree_ok d → isolated hosts d root data_root → register_env_ok env d →
  isolated hosts (register_join public_key root env text requested d).2 root data_root.
Proof using Hstable.
  intros Htree Hiso (Hhosts & Hcut & Hcand & Hfresh). pose proof (shares_kept_refl root d) as Hk0.
  unfold register_join. apply (step_lift d Hiso); [done|]. intros t Ht.
  apply step_claim; [done|done|]. intros local h d1 Hk1 Hdir.
  apply (step_read d Hiso); [done|]. intros [] _.
  apply (step_check _ d); try done. intros Hcl.
  apply (step_kept d Hiso); [apply device_id_kept|done|]. intros endpoint d2 Hd Hk2.
  apply (step_lift d Hiso); [done|]. intros nm _.
  apply (step_lift d Hiso); [done|]. intros [] _.
  apply (step_lift d Hiso); [done|]. intros local_text Htext.
  apply bind_Ok in Htext as (_ & _ & [= <-]). apply parse_Ok in Ht as ([Hid _] & _).
  apply step_last; [done|]. apply (save_new_share_isolated d); try done;
    [by eapply isolated_kept|by eapply claimed_kept].
Qed.

Lemma remove_isolated env d selector :
  tree_ok d → isolated hosts d root data_root →
  (∀ share_id, removed_dir root share_id (re_nonce (rc_remove env)) ∉ dd_dirs d ∧
     dd_files d !! removed_dir root share_id (re_nonce (rc_remove env)) = None) →
  isolated hosts (remove root env selector d).2 root data_root.
Proof using.
  intros Htree Hiso Hfresh. pose proof (shares_kept_refl root d) as Hk0. unfold remove.
  apply (step_kept d Hiso); [apply registry_lock_kept|done|]. intros [] d1 _ Hk1.
  apply (step_read d Hiso); [done|]. intros share_id Hid.
  apply (step_kept d Hiso); [apply share_lock_kept|done|]. intros locked d2 _ Hk2.
  apply (step_lift d Hiso); [done|]. intros [] _.
  apply (step_read d Hiso); [done|]. intros [] _.
  apply step_last; [done|]. apply (isolated_mono hosts d2); [|by eapply isolated_kept].
  destruct (removed_apart root share_id (re_nonce (rc_remove env))) as [[name Er] Hapart].
  destruct (Hfresh share_id) as [Hf1 Hf2]. pose proof Hk2 as [Ht2 Hs2].
  assert (removed_dir root share_id (re_nonce (rc_remove env)) ∉ dd_dirs d2 ∧
    dd_files d2 !! removed_dir root share_id (re_nonce (rc_remove env)) = None) as [Hu1 Hu2].
  { rewrite Er in Hf1, Hf2. rewrite Er. split; [by intros Hin%Hs2|]. rewrite <-Hf2. apply Hs2. }
  destruct (remove_share_state_spec d2 root share_id (rc_remove env) (Ht2 Htree) Hu1 Hu2) as (Hgone & _ & Hout).
  intros id c Hcf. unfold unregister in Hcf. destruct (decide (id = share_id)) as [->|Hne].
  - destruct Hgone as [[E _]|Hv]; [by rewrite E in Hcf|]. destruct Hcf as [[_ He%bool_decide_eq_true] _].
    by destruct (Hv _ (inside_refl _)).
  - refine (proj1 (configured_same d2 _ root id c _) Hcf). intros q Hq. apply Hout; [|by eapply Hapart].
    apply (shares_apart root share_id id); [|by destruct Hcf as [[? _] _]|done|done].
    eapply resolved_registered; [|exact Hid]. by apply Hk1.
Qed.

(** ** Results *)

Lemma app_bind_Ok {A B} (m : app A) (f : A → app B) d b d' :
  (m ≫= f) d = (Ok b, d') → ∃ a d1, m d = (Ok a, d1) ∧ f a d1 = (Ok b, d').
Proof using.
  unfold mbind, app_bind. destruct (m d) as [[a|e] d1] eqn:E; [|done]. eauto.
Qed.
Lemma reading_Ok {A} (g : data_dir → result A) d a d' : reading g d = (Ok a, d') → g d = Ok a ∧ d' = d.
Proof using. by intros [= -> <-]. Qed.
Lemma lift_Ok {A} (r : result A) d a d' : lift r d = (Ok a, d') → r = Ok a ∧ d' = d.
Proof using. by intros [= -> <-]. Qed.

(** The new share after a successful registration. *)
Definition registers d' (config : ShareConfig) : Prop :=
  registered d' root (cfg_share_id config) ∧
  ∀ c, configured d' root (cfg_share_id config) c → c = config.

Lemma save_new_share_Ok d d1 (config : ShareConfig) manifest clock peers runtime env d' :
  is_array 32 (cfg_share_id config) → tree_ok d → shares_kept root d d1 → all_cut env →
  (∀ share_id, staging_dir root share_id (ce_nonce env) ∉ dd_dirs d ∧
     dd_files d !! staging_dir root share_id (ce_nonce env) = None) →
  save_new_share root config manifest clock peers runtime env d1 = (Ok tt, d') →
  registers d' config.
Proof using.
  intros Hid Htree [Ht Hk] Hcut Hfresh Hs.
  destruct (Hfresh (cfg_share_id config)) as [Hf1 Hf2].
  destruct (staging_facts root (cfg_share_id config) (cfg_share_id config) (ce_nonce env)) as [Es _].
  pose proof (create_share_state_outcome d1 root config manifest clock peers runtime env Hid (Ht Htree) Hcut) as Ho.
  rewrite Es in Hf1, Hf2, Ho. unfold save_new_share in Hs. rewrite Hs in Ho.
  destruct Ho as (_ & Hok & _); [by intros Hin%Hk|rewrite <-Hf2; apply Hk|].
  destruct (Hok eq_refl) as [(t & Ht' & Hp) _]. split.
  - split; [done|]. apply bool_decide_eq_true. by destruct Hp.
  - intros c. by apply (published_config _ _ _ _ _ _ _ _ _ Ht').
Qed.

(** Inverts a successful chain of steps. *)
Ltac app_inv E :=
  repeat match type of E with
  | (lift ?r ≫= ?f) ?d = (Ok _, _) =>
      let a := fresh "a" in let Ha := fresh "Ha" in
      apply app_bind_Ok in E as (a & ? & Ha & E); apply lift_Ok in Ha as [Ha ->]
  end.

Lemma init_Ok env d requested name r d' :
  tree_ok d → register_env_ok env d → init public_key root env requested name d = (Ok r, d') →
  ∃ config t, registers d' config ∧ cfg_share_id config = ir_share_id r ∧
    is_array 32 (cfg_share_secret config) ∧
    ShareTicket_new (ir_share_id r) (cfg_share_secret config) [ir_endpoint_id r] = Ok t ∧
    ShareTicket_encode t = Ok (ir_ticket r).
Proof using.
  intros Htree (Hhosts & Hcut & Hcand & Hfresh) E. pose proof (shares_kept_refl root d) as Hk0.
  unfold init in E. app_inv E. destruct a as [local h].
  unfold claim_directory in E. rewrite bind_assoc_app in E. app_inv E.
  apply app_bind_Ok in E as ([] & d1 & E1 & E). eapply keeps_step in E1; [|apply registry_lock_kept|exact Hk0].
  apply app_bind_Ok in E as ([] & d1' & Ec & E). apply reading_Ok in Ec as [_ ->].
  apply app_bind_Ok in E as (endpoint & d2 & E2 & E). eapply keeps_step in E2; [|apply device_id_kept|exact E1].
  apply app_bind_Ok in E as ([share_id secret] & d2' & Hid & E). apply reading_Ok in Hid as [Hid ->].
  apply unused_identity_array in Hid as (Hid & Hsec & _); [|done]. app_inv E.
  apply app_bind_Ok in E as ([] & d3 & Es & E). apply save_new_share_Ok with (d := d) in Es; try done.
  app_inv E. injection E as <- <-. simpl. apply bind_Ok in Ha4 as (t & Hnew & Henc).
  eexists _, t. by split_and!.
Qed.

Lemma register_join_Ok env d text requested r d' :
  tree_ok d → register_env_ok env d →
  register_join public_key root env text requested d = (Ok r, d') →
  ∃ config t, ShareTicket_parse text = Ok t ∧ registers d' config ∧
    cfg_share_id config = tk_share_id t ∧ cfg_share_secret config = tk_share_secret t ∧
    cfg_initial_sync_complete config = false ∧
    cfg_initial_peers config = dedup (sort_by id (map endpoint_id_string (tk_initial_peers t))) ∧
    jr_share_id r = tk_share_id t ∧ jr_initial_peers r = tk_initial_peers t.
Proof using.
  intros Htree (Hhosts & Hcut & Hcand & Hfresh) E. pose proof (shares_kept_refl root d) as Hk0.
  unfold register_join in E. app_inv E. destruct a0 as [local h].
  unfold claim_directory in E. rewrite bind_assoc_app in E. app_inv E.
  apply app_bind_Ok in E as ([] & d1 & E1 & E). eapply keeps_step in E1; [|apply registry_lock_kept|exact Hk0].
  apply app_bind_Ok in E as ([] & d1' & Ee & E). apply reading_Ok in Ee as [_ ->].
  apply app_bind_Ok in E as ([] & d1' & Ec & E). apply reading_Ok in Ec as [_ ->].
  apply app_bind_Ok in E as (endpoint & d2 & E2 & E). eapply keeps_step in E2; [|apply device_id_kept|exact E1].
  app_inv E. pose proof Ha as Ht. apply parse_Ok in Ha as ([Hid _] & _).
  apply app_bind_Ok in E as ([] & d3 & Es & E). apply save_new_share_Ok with (d := d) in Es; try done.
  injection E as <- <-. simpl. eexists _, _. split; [exact Ht|]. by split_and!.
Qed.
End commands.

(** The commands that register and remove shares, on a file system that is a tree and
    with names that are not in use, and every step that keeps the shares. *)
Inductive registry_step (hosts : list host) root : data_dir → data_dir → Prop :=
| StepInit env d requested name :
    tree_ok d → register_env_ok hosts root env d →
    registry_step hosts root d (init public_key root env requested name d).2
| StepJoin env d text requested :
    tree_ok d → register_env_ok hosts root env d →
    registry_step hosts root d (register_join public_key root env text requested d).2
| StepRemove env d selector :
    tree_ok d →
    (∀ share_id, removed_dir root share_id (re_nonce (rc_remove env)) ∉ dd_dirs d ∧
       dd_files d !! removed_dir root share_id (re_nonce (rc_remove env)) = None) →
    registry_step hosts root d (remove root env selector d).2
| StepOther d d' : shares_kept root d d' → registry_step hosts root d d'.

(** ** Properties *)

(** A selector names a share exactly when one registered share has it as a prefix
    of its ID; the full ID of a registered share always selects that share. *)
Lemma selector_names_one_share d root readable selector share_id (Htree : tree_ok d) :
  (resolve_share_selector d root readable selector = Ok share_id ↔
   is_ok (list_share_ids d root readable) = true ∧
   registered d root share_id ∧ matches_prefix share_id selector = true ∧
   (∀ other, registered d root other → matches_prefix other selector = true → other = share_id)) ∧
  (registered d root share_id → is_ok (list_share_ids d root readable) = true →
   resolve_share_selector d root readable (share_id_to_string share_id) = Ok share_id).
Proof.
  clear public_key. split; [by apply resolve_share_selector_Ok|]. intros Hr Hl.
  apply resolve_share_selector_Ok; [done|]. split_and!; try done.
  - apply matches_full_id, Hr.
  - intros other [Ha _] Hm. by apply matches_full_id_inv; [|apply Hr|].
Qed.

(** C31: no two registered shares ever have a path in common, and none has one in
    common with the application data: on hosts whose canonical paths stay canonical,
    no sequence of registrations, failed or not, and removals breaks this. *)
Theorem shares_stay_isolated hosts root data_root d d' (Hstable : stable_hosts hosts root data_root)
    (Hiso : isolated hosts d root data_root) (Hrun : rtc (registry_step hosts root) d d') :
  isolated hosts d' root data_root.
Proof.
  induction Hrun as [d|d d1 d' Hstep _ IH]; [done|]. apply IH. destruct Hstep.
  - by apply init_isolated.
  - by apply register_join_isolated.
  - by apply remove_isolated.
  - by eapply isolated_kept.
Qed.

(** C36: the ticket a device prints for a new share lets another device join it: if
    both commands succeed, the second device holds a share with the same ID and secret,
    waiting for its first synchronization, with the first device as its only initial
    peer. *)
Theorem init_ticket_joins hosts root d env requested name (r : InitResult) d'
    hosts2 root2 e env2 requested2 (j : JoinResult) e' (config config2 : ShareConfig)
    (Hd : tree_ok d) (Henv : register_env_ok hosts root env d)
    (Hinit : init public_key root env requested name d = (Ok r, d'))
    (He : tree_ok e) (Henv2 : register_env_ok hosts2 root2 env2 e)
    (Hjoin : register_join public_key root2 env2 (ir_ticket r) requested2 e = (Ok j, e'))
    (Hc : configured d' root (ir_share_id r) config)
    (Hc2 : configured e' root2 (ir_share_id r) config2) :
  jr_share_id j = ir_share_id r ∧ jr_initial_peers j = [ir_endpoint_id r] ∧
  cfg_share_id config2 = cfg_share_id config ∧ cfg_share_secret config2 = cfg_share_secret config ∧
  cfg_initial_peers config2 = [endpoint_id_string (ir_endpoint_id r)] ∧
  cfg_initial_sync_complete config2 = false.
Proof.
  destruct (init_Ok _ _ _ _ _ _ _ _ Hd Henv Hinit) as (c & t & [_ Hreg] & Hid & Hsec & Hnew & Henc).
  destruct (register_join_Ok _ _ _ _ _ _ _ _ He Henv2 Hjoin)
    as (c2 & t2 & Hp & [[Hid2 _] Hreg2] & Hi2 & Hs2 & Hinc & Hpeers & Hj1 & Hj2).
  pose proof (ticket_new_outcome (ir_share_id r) (cfg_share_secret c) [ir_endpoint_id r]) as Ht.
  rewrite Hnew in Ht. destruct Ht as (Ht1 & Ht2 & Ht3 & Hval & _).
  apply encode_Ok in Henc as [Hv Htext]. apply Permutation_singleton_r in Ht3.
  assert (Hw : ticket_wf t) by (split; rewrite ?Ht1, ?Ht2; [by destruct Hc as [[? _] _]|done]).
  rewrite Htext, (parse_ticket_text t Hw Hv) in Hp. injection Hp as <-.
  rewrite Ht3 in Hpeers, Hj2. rewrite Ht1 in Hj1, Hi2. rewrite Ht2 in Hs2.
  rewrite <-Hid in Hc. rewrite <-Hi2 in Hc2. apply Hreg in Hc as ->. apply Hreg2 in Hc2 as ->.
  split_and!; try congruence. exact Hpeers.
Qed.
End registration.

(** *** Witnesses *)

Import Ref.

Definition ex_host : host := {|
  h_exists := λ _, true; h_is_dir := λ _, Some true; h_canonicalize := Some; h_current_dir := None |}.
Definition ex_lock : lock_env := {| le_dirs := ex_dirs; le_opens := true; le_answer := LockFree |}.
Definition ex_public_key (key : bytes) : EndpointId := endpoint (default "000"%byte (head key)).
Definition ex_register_env (key : byte) (share : bytes) : register_env := {|
  rg_host := ex_host; rg_created := None; rg_registry := ex_lock; rg_readable := true;
  rg_identity := {| ie_lock := ex_lock; ie_generated := repeat key 32; ie_write := ex_env |};
  rg_candidates := λ _, (share, repeat "006"%byte 32); rg_now_ms := 5; rg_tree := ex_tree;
  rg_reads := ex_reads; rg_create := ex_create_env |}.

Definition ex_init_scan : result (ScanResult Manifest) :=
  scan_manifest (bs "/home/photos") ex_reads (Manifest_empty ex_share 5) (endpoint "001") 5 ex_tree
    ClockState_new.
Definition ex_init_manifest : Manifest :=
  match ex_init_scan with Ok r => sr_manifest r | Err _ => Manifest_empty ex_share 5 end.
Definition ex_init_clock : ClockState :=
  match ex_init_scan with Ok r => sr_clock r | Err _ => ClockState_new end.
Definition ex_init_changes : Z := match ex_init_scan with Ok r => sr_changes r | Err _ => 0 end.
Definition ex_new_config (complete : bool) : ShareConfig := {|
  cfg_format_version := 1; cfg_share_id := ex_share; cfg_share_secret := repeat "006"%byte 32;
  cfg_name := bs "photos"; cfg_local_directory := bs "/home/photos"; cfg_created_at_ms := 5;
  cfg_initial_peers := [endpoint_id_string (endpoint "001")]; cfg_initial_sync_complete := complete |}.
Definition ex_new_peers : KnownPeers := {|
  kp_format_version := 1;
  kp_peers := [{| pr_endpoint_id := endpoint_id_string (endpoint "001"); pr_added_at_ms := 5;
                  pr_last_seen_at_ms := None |}] |}.

#[local] Instance ex_codec_config : JsonState ShareConfig :=
  two_state (ex_new_config true) (ex_new_config false).
#[local] Instance ex_codec_manifest : JsonState Manifest :=
  two_state ex_init_manifest (Manifest_empty ex_share 5).
#[local] Instance ex_codec_clock : JsonState ClockState := two_state ex_init_clock ClockState_new.
#[local] Instance ex_codec_peers : JsonState KnownPeers := two_state KnownPeers_empty ex_new_peers.
#[local] Instance ex_codec_status : JsonState RuntimeStatus :=
  two_state (init_runtime 5 ex_init_changes) (join_runtime 5).

Definition ex_init : result InitResult * data_dir :=
  init ex_public_key (bs "/d") (ex_register_env "001" ex_share) (bs "/home/photos") None ex_data_dir.
Definition ex_join (text : bytes) : result JoinResult * data_dir :=
  register_join ex_public_key (bs "/e") (ex_register_env "002" ex_share) text (bs "/home/photos")
    ex_data_dir.

Lemma ex_register_env_ok root key : register_env_ok [ex_host] root (ex_register_env key ex_share) ex_data_dir.
Proof.
  split; [split; [by apply list_elem_of_singleton|done]|]. split; [repeat split; apply ex_env_cuts|].
  split; [done|]. intros id. split; [apply not_elem_of_empty|apply lookup_empty].
Qed.
Lemma ex_data_dir_tree : tree_ok ex_data_dir.
Proof. by apply tree_okb_ok. Qed.

Lemma ex_stable : stable_hosts [ex_host] (bs "/d") (bs "/d").
Proof.
  split.
  - intros h h' p q ->%list_elem_of_singleton ->%list_elem_of_singleton _. done.
  - intros h ->%list_elem_of_singleton. done.
Qed.

Lemma selector_names_one_share_witness :
  resolve_share_selector ex_registered (bs "/d") true (share_id_to_string ex_share) = Ok ex_share.
Proof.
  apply (selector_names_one_share ex_registered (bs "/d") true (bs "0") ex_share ex_registered_tree).
  - split; [reflexivity|]. vm_compute. reflexivity.
  - vm_compute. reflexivity.
Defined.

Lemma shares_stay_isolated_witness :
  is_ok ex_init.1 = true ∧ isolated [ex_host] ex_init.2 (bs "/d") (bs "/d").
Proof.
  split; [vm_compute; reflexivity|].
  apply (shares_stay_isolated ex_public_key [ex_host] (bs "/d") (bs "/d") ex_data_dir).
  - exact ex_stable.
  - assert (Hno : ∀ id c, ¬ configured ex_data_dir (bs "/d") id c).
    { intros id c [[_ He%bool_decide_eq_true] _]. by apply elem_of_empty in He. }
    split; intros; exfalso; eapply Hno; eassumption.
  - apply rtc_once. apply StepInit; [exact ex_data_dir_tree|apply ex_register_env_ok].
Defined.

(** Both commands succeed and both configurations load. *)
Definition ex_both_registered : bool :=
  match ex_init with
  | (Ok r, d') =>
      match ex_join (ir_ticket r) with
      | (Ok j, e') =>
          bool_decide (ir_share_id r = ex_share)
          && is_ok (load_config (dd_files d') (bs "/d") ex_share) && share_exists d' (bs "/d") ex_share
          && is_ok (load_config (dd_files e') (bs "/e") ex_share) && share_exists e' (bs "/e") ex_share
      | _ => false
      end
  | _ => false
  end.

Lemma init_ticket_joins_witness :
  ∃ r d' j e' config config2, ex_init = (Ok r, d') ∧ ex_join (ir_ticket r) = (Ok j, e') ∧
    configured d' (bs "/d") (ir_share_id r) config ∧ configured e' (bs "/e") (ir_share_id r) config2 ∧
    cfg_share_secret config2 = cfg_share_secret config.
Proof.
  assert (Hall : ex_both_registered = true) by (vm_compute; reflexivity).
  unfold ex_both_registered in Hall.
  destruct ex_init as [[r|] d'] eqn:E1; [|discriminate Hall].
  destruct (ex_join (ir_ticket r)) as [[j|] e'] eqn:E2; [|discriminate Hall].
  apply andb_true_iff in Hall as [Hall He2]. apply andb_true_iff in Hall as [Hall Hl2].
  apply andb_true_iff in Hall as [Hall He1]. apply andb_true_iff in Hall as [Hid Hl1].
  apply bool_decide_eq_true in Hid.
  destruct (load_config (dd_files d') (bs "/d") ex_share) as [c1|] eqn:L1; [|discriminate Hl1].
  destruct (load_config (dd_files e') (bs "/e") ex_share) as [c2|] eqn:L2; [|discriminate Hl2].
  assert (Hc1 : configured d' (bs "/d") (ir_share_id r) c1) by (rewrite Hid; split; [split|]; done).
  assert (Hc2 : configured e' (bs "/e") (ir_share_id r) c2) by (rewrite Hid; split; [split|]; done).
  exists r, d', j, e', c1, c2. repeat (split; [assumption || reflexivity|]).
  apply (init_ticket_joins ex_public_key [ex_host] (bs "/d") ex_data_dir (ex_register_env "001" ex_share)
    (bs "/home/photos") None r d' [ex_host] (bs "/e") ex_data_dir (ex_register_env "002" ex_share)
    (bs "/home/photos") j e' c1 c2 ex_data_dir_tree (ex_register_env_ok (bs "/d") "001") E1
    ex_data_dir_tree (ex_register_env_ok (bs "/e") "002") E2 Hc1 Hc2).
Defined.
