(* ===== verification/Session.v ===== *)
(** * Synchronization sessions (src/network/client.rs, src/network/incoming.rs)

    One side of a synchronization as a computation over its share, its shared tree,
    its partial downloads and the two byte streams: the bytes the peer sent and the
    bytes sent to it.  [sync_with_peer] is the client, [handle_sync_stream] the
    server; the locks of the source make the parts they guard sequential, and a
    session is modelled as one sequence. *)

From S2P Require Import Prelude Collections Bytes External Reference Framing Clock Types Peers ManifestPath Manifest Merge Storage Digest Auth Scheduling State Wire LocalFs Partial Streaming Planning Apply Scan ShareScan.

(** ** Sessions *)

Section session_state.
Context `{Iroh}.

Record session := {
  ss_share : ActiveShare;
  ss_tree : tree;
  ss_partials : partials;
  ss_recv : bytes;
  ss_sent : bytes;
}.

Definition sync (A : Type) : Type := session → result A * session.

Global Instance sync_ret : MRet sync := λ A a st, (Ok a, st).
Global Instance sync_bind : MBind sync := λ A B f m st,
  match m st with (Ok a, st') => f a st' | (Err e, st') => (Err e, st') end.

Definition looking {A} (f : session → result A) : sync A := λ st, (f st, st).
Definition checked {A} (r : result A) : sync A := looking (λ _, r).

Definition with_share (st : session) (s : ActiveShare) : session := {|
  ss_share := s; ss_tree := ss_tree st; ss_partials := ss_partials st; ss_recv := ss_recv st;
  ss_sent := ss_sent st |}.
Definition with_partials (st : session) (ps : partials) : session := {|
  ss_share := ss_share st; ss_tree := ss_tree st; ss_partials := ps; ss_recv := ss_recv st;
  ss_sent := ss_sent st |}.
Definition with_recv (st : session) (recv : bytes) : session := {|
  ss_share := ss_share st; ss_tree := ss_tree st; ss_partials := ss_partials st; ss_recv := recv;
  ss_sent := ss_sent st |}.
Definition with_sent (st : session) (sent : bytes) : session := {|
  ss_share := ss_share st; ss_tree := ss_tree st; ss_partials := ss_partials st;
  ss_recv := ss_recv st; ss_sent := sent |}.

(** An operation on the share, on the partials, on the incoming and the outgoing
    stream; [lost] is a failed write. *)
Definition on_share {A} (f : ActiveShare → result A * ActiveShare) : sync A := λ st,
  let '(r, s) := f (ss_share st) in (r, with_share st s).
Definition on_partials {A} (f : partials → result A * partials) : sync A := λ st,
  let '(r, ps) := f (ss_partials st) in (r, with_partials st ps).
Definition receive {A} (read : bytes → result (A * bytes)) : sync A := λ st,
  match read (ss_recv st) with
  | Ok (a, rest) => (Ok a, with_recv st rest)
  | Err e => (Err e, st)
  end.
Definition send (lost : bool) (write : bytes → result bytes) : sync unit := λ st,
  match (bail_if lost "unable to write sync stream";; write (ss_sent st)) with
  | Ok sent => (Ok tt, with_sent st sent)
  | Err e => (Err e, st)
  end.
End session_state.

Section frames.
Context `{Iroh, Allocator}.

(** [write_json_frame] and [read_json_frame]. *)
Definition write_json_frame {T} `{!Json T} (lost : bool) (value : T) : sync unit :=
  send lost (λ sent, write_json sent value MAX_CONTROL_FRAME_BYTES).
Definition read_json_frame {T} `{!Json T} : sync T :=
  receive (λ recv, read_json recv MAX_CONTROL_FRAME_BYTES).
End frames.

(** The time, the process and the write of a status update. *)
Record update_env := {
  ue_now_ms : Z;
  ue_pid : Z;
  ue_write : write_env;
}.

(** Where the shared files are read from while they are sent: the tree at each moment
    and the cuts of the reads; the refusals of the system. *)
Record files_env := {
  fe_tree : Z → moment → tree;
  fe_cut : Z → Z → Z;
  fe_env : env;
  fe_refuse : partial_call → bytes → bool;
}.

Record apply_env := {
  ae_cross : bytes → bool;
  ae_now_ms : Z;
  ae_observed_ms : Z;
  ae_clock : write_env;
  ae_manifest : write_env;
}.

Record initial_env := {
  ni_config : write_env;
  ni_root : bytes;
  ni_reads : list bytes → nat → io (list bytes * node);
  ni_now_ms : Z;
  ni_status_ms : Z;
  ni_pid : Z;
  ni_clock : write_env;
  ni_manifest : write_env;
  ni_status : write_env;
}.

(** The writes of a session. *)
Inductive write_point := AtHello | AtSync | AtManifest | AtTransfer | AtResponse | AtFiles | AtFinish.

Section session.
Context `{HexCodec, Sha256, Iroh, Blake3, Hmac, WalkDir, Allocator}
  `{!JsonState ShareConfig} `{!JsonState Manifest} `{!JsonState ClockState}
  `{!JsonState KnownPeers} `{!JsonState RuntimeStatus}
  `{!Json SyncRequest, !Json SyncResponse, !Json ManifestMessage, !Json TransferRequest,
    !Json TransferReady, !Json TransferResponse}.

Definition update_with (env : update_env) (f : RuntimeStatus → Z → RuntimeStatus) : sync unit :=
  on_share (λ s, update_runtime s (ue_now_ms env) (ue_pid env) f (ue_write env)).

(** The updates of the runtime status. *)
Definition connected_status (r : RuntimeStatus) (now_ms : Z) : RuntimeStatus := {|
  rs_format_version := rs_format_version r; rs_process_id := rs_process_id r;
  rs_started_at_ms := rs_started_at_ms r; rs_heartbeat_at_ms := rs_heartbeat_at_ms r;
  rs_state := rs_state r; rs_health := rs_health r; rs_connected_peers := 1;
  rs_pending_downloads := rs_pending_downloads r; rs_pending_updates := rs_pending_updates r;
  rs_last_scan_at_ms := rs_last_scan_at_ms r;
  rs_last_remote_update_at_ms := rs_last_remote_update_at_ms r;
  rs_last_sync_at_ms := rs_last_sync_at_ms r; rs_last_connection_at_ms := Some now_ms;
  rs_last_error := rs_last_error r |}.
Definition updated_status (r : RuntimeStatus) (now_ms : Z) : RuntimeStatus := {|
  rs_format_version := rs_format_version r; rs_process_id := rs_process_id r;
  rs_started_at_ms := rs_started_at_ms r; rs_heartbeat_at_ms := rs_heartbeat_at_ms r;
  rs_state := rs_state r; rs_health := rs_health r; rs_connected_peers := rs_connected_peers r;
  rs_pending_downloads := rs_pending_downloads r; rs_pending_updates := rs_pending_updates r;
  rs_last_scan_at_ms := rs_last_scan_at_ms r; rs_last_remote_update_at_ms := Some now_ms;
  rs_last_sync_at_ms := rs_last_sync_at_ms r;
  rs_last_connection_at_ms := rs_last_connection_at_ms r; rs_last_error := rs_last_error r |}.
Definition WINDOWS_SYMLINK_ERROR : bytes := bs "symbolic links are unsupported on Windows".
(** What an incoming session records: the pending downloads, whether records were
    applied, and the items that are not supported. *)
Definition served_status (pending applied unsupported : Z) (r : RuntimeStatus) (now_ms : Z)
    : RuntimeStatus := {|
  rs_format_version := rs_format_version r; rs_process_id := rs_process_id r;
  rs_started_at_ms := rs_started_at_ms r; rs_heartbeat_at_ms := rs_heartbeat_at_ms r;
  rs_state := if 0 <? unsupported then Degraded else rs_state r;
  rs_health := if 0 <? unsupported then HealthError else rs_health r;
  rs_connected_peers := rs_connected_peers r; rs_pending_downloads := pending;
  rs_pending_updates := rs_pending_updates r; rs_last_scan_at_ms := rs_last_scan_at_ms r;
  rs_last_remote_update_at_ms :=
    if 0 <? applied then Some now_ms else rs_last_remote_update_at_ms r;
  rs_last_sync_at_ms := rs_last_sync_at_ms r; rs_last_connection_at_ms := Some now_ms;
  rs_last_error := if 0 <? unsupported then Some WINDOWS_SYMLINK_ERROR else rs_last_error r |}.

(** [run_blocking(|| apply_validated_remote_staged_transfer(..))]. *)
Definition apply_transfer (files_env : files_env) (env : apply_env) (remote : Manifest)
    (completed : list CompletedFile) : sync ApplyOutcome := λ st,
  let '(r, s, t, ps) := apply_validated_remote_staged_transfer (ss_share st) (ss_tree st)
    (ss_partials st) (fe_env files_env) (ae_cross env) remote completed (ae_now_ms env)
    (ae_observed_ms env) (ae_clock env) (ae_manifest env) in
  (r, {| ss_share := s; ss_tree := t; ss_partials := ps; ss_recv := ss_recv st;
         ss_sent := ss_sent st |}).

(** [receive_upload_chunks] and [receive_download_chunks]. *)
Definition receive_chunks (receive_files : partials → bytes →
    result (list CompletedFile * bytes) * partials) : sync (list CompletedFile) := λ st,
  match receive_files (ss_partials st) (ss_recv st) with
  | (Ok (completed, rest), ps) => (Ok completed, with_recv (with_partials st ps) rest)
  | (Err e, ps) => (Err e, with_partials st ps)
  end.

(** ** The client *)

Definition complete_config (c : ShareConfig) : ShareConfig := {|
  cfg_format_version := cfg_format_version c; cfg_share_id := cfg_share_id c;
  cfg_share_secret := cfg_share_secret c; cfg_name := cfg_name c;
  cfg_local_directory := cfg_local_directory c; cfg_created_at_ms := cfg_created_at_ms c;
  cfg_initial_peers := cfg_initial_peers c; cfg_initial_sync_complete := true |}.

Definition first_scan (env : initial_env) : sync unit := λ st,
  on_share (λ s, scan_and_save s (ss_tree st) (ni_root env) (ni_reads env) (ni_now_ms env)
    (ni_status_ms env) (ni_pid env) (ni_clock env) (ni_manifest env) (ni_status env)) st.

(** Ends the initial synchronization: the configuration is saved, then the directory
    is scanned for the first time. *)
Definition finish_initial_sync (env : initial_env) : sync unit :=
  config ← looking (λ st, Ok (complete_config (as_config (ss_share st))));
  on_share (λ s, let '(r, fs) := save_config (as_files s) (as_root s) config (ni_config env) in
                 (r, with_files s fs));;
  on_share (λ s, (Ok tt, replace_config s config));;
  first_scan env.

Record client_env := {
  cl_connects : bool;
  cl_lost : write_point → bool;
  cl_connected : update_env;
  cl_nonce : bytes;
  cl_digest_ms : Z;
  cl_empty_ms : Z;
  cl_merge_ms : Z;
  cl_merge : write_env;
  cl_files : files_env;
  cl_apply : apply_env;
  cl_updated : update_env;
  cl_initial : initial_env;
}.

(** The exchange of hellos. *)
Definition client_handshake (env : client_env) (config : ShareConfig) (peer : EndpointId)
    : sync unit :=
  local ← looking (λ st, Ok (as_local_endpoint_id (ss_share st)));
  hello ← checked (ok_or (make_client_hello config local peer (cl_nonce env))
                     "authentication message does not fit");
  send (cl_lost env AtHello) (λ sent, Ok (sent ++ hello));;
  server_hello ← receive read_server_hello;
  checked (validate_server_hello server_hello config local peer (cl_nonce env)).

(** The snapshot and the digest of what the client sends: its manifest, or nothing
    before the initial synchronization is complete. *)
Definition outbound (env : client_env) (config : ShareConfig)
    : sync (bytes * option ManifestSnapshot) :=
  if cfg_initial_sync_complete config then
    snapshot ← on_share manifest_snapshot;
    mret (ms_digest snapshot, Some snapshot)
  else
    share_id ← looking (λ st, Ok (as_share_id (ss_share st)));
    digest ← checked (sync_digest (Manifest_empty share_id (cl_digest_ms env)) share_id);
    mret (digest, None).

(** The rest of the session once the manifests are known to differ. *)
Definition client_transfer (env : client_env) (share_id : bytes) (response : SyncResponse)
    (local : Manifest) : sync PeerSyncOutcome :=
  write_json_frame (cl_lost env AtManifest)
    {| mm_protocol_version := PROTOCOL_VERSION; mm_share_id := share_id; mm_manifest := local |};;
  remote_message ← read_json_frame (T := ManifestMessage);
  checked (validate_manifest_message remote_message share_id (sp_manifest_digest response));;
  '(transfer, pending_updates) ← on_partials (λ ps,
      make_transfer_request (fe_refuse (cl_files env)) ps share_id local (mm_manifest remote_message));
  write_json_frame (cl_lost env AtTransfer) transfer;;
  ready ← read_json_frame (T := TransferReady);
  checked (validate_transfer_ready ready share_id (tr_uploads transfer));;
  send (cl_lost env AtFiles) (send_upload_chunks (fe_tree (cl_files env)) (fe_cut (cl_files env))
    (fe_env (cl_files env)) (tr_uploads transfer) (ty_uploads ready));;
  checked (bail_if (cl_lost env AtFinish) "unable to finish upload stream");;
  final_response ← read_json_frame (T := TransferResponse);
  validated_remote ← checked (validate_transfer_response final_response share_id);
  completed ← receive_chunks (λ ps recv,
      receive_file_chunks (fe_refuse (cl_files env)) ps (ts_files final_response) recv);
  applied ← apply_transfer (cl_files env) (cl_apply env) validated_remote completed;
  (if 0 <? ao_applied_records applied then update_with (cl_updated env) updated_status else mret tt);;
  config ← looking (λ st, Ok (as_config (ss_share st)));
  (if negb (cfg_initial_sync_complete config) && (ao_pending_downloads applied =? 0)
   then finish_initial_sync (cl_initial env) else mret tt);;
  mret {| ps_pending_downloads := ao_pending_downloads applied;
          ps_pending_updates := pending_updates |}.

Definition sync_with_peer (env : client_env) (expected_peer : EndpointId) : sync PeerSyncOutcome :=
  config ← looking (λ st, Ok (as_config (ss_share st)));
  share_id ← looking (λ st, Ok (as_share_id (ss_share st)));
  checked (bail_if (negb (cl_connects env)) "unable to connect to peer");;
  update_with (cl_connected env) connected_status;;
  client_handshake env config expected_peer;;
  '(outbound_digest, outbound_snapshot) ← outbound env config;
  known_peers ← looking (λ st, known_peer_strings (ss_share st) expected_peer);
  write_json_frame (cl_lost env AtSync)
    {| sr_protocol_version := PROTOCOL_VERSION; sr_share_id := share_id;
       sr_manifest_digest := outbound_digest; sr_known_peers := known_peers |};;
  response ← read_json_frame (T := SyncResponse);
  checked (validate_sync_response response share_id);;
  on_share (λ s, merge_remote_peers s (sp_known_peers response) (Some expected_peer)
                   (cl_merge_ms env) (cl_merge env));;
  if bool_decide (sp_manifest_digest response = outbound_digest) then
    (if negb (cfg_initial_sync_complete config) then
       current ← looking (λ st, Ok (as_config (ss_share st)));
       if negb (cfg_initial_sync_complete current) then finish_initial_sync (cl_initial env)
       else mret tt
     else mret tt);;
    checked (bail_if (cl_lost env AtFinish) "unable to finish unchanged sync stream");;
    mret {| ps_pending_downloads := 0; ps_pending_updates := 0 |}
  else
    client_transfer env share_id response
      (from_option ms_manifest (Manifest_empty share_id (cl_empty_ms env)) outbound_snapshot).

(** ** The server *)

Record server_env := {
  sv_lost : write_point → bool;
  sv_nonce : bytes;
  sv_merge_ms : Z;
  sv_merge : write_env;
  sv_files : files_env;
  sv_apply : apply_env;
  sv_status : update_env;
}.

(** The rest of the session once the manifests are known to differ. *)
Definition server_transfer (env : server_env) (share_id : bytes) (request : SyncRequest)
    (local : Manifest) : sync unit :=
  remote_message ← read_json_frame (T := ManifestMessage);
  validated_remote ← checked (validate_manifest_message remote_message share_id
                                (sr_manifest_digest request));
  write_json_frame (sv_lost env AtManifest)
    {| mm_protocol_version := PROTOCOL_VERSION; mm_share_id := share_id; mm_manifest := local |};;
  transfer ← read_json_frame (T := TransferRequest);
  checked (validate_transfer_request_with_validated_manifest transfer share_id validated_remote);;
  ready ← on_partials (λ ps, make_transfer_ready (fe_refuse (sv_files env)) ps transfer
                               (mm_manifest remote_message));
  write_json_frame (sv_lost env AtTransfer) ready;;
  uploaded ← receive_chunks (λ ps recv,
      receive_upload_chunks (fe_refuse (sv_files env)) ps share_id (tr_uploads transfer)
        (ty_uploads ready) recv);
  applied ← apply_transfer (sv_files env) (sv_apply env) validated_remote uploaded;
  final_manifest ← on_share manifest_snapshot;
  files ← checked (build_transfer_files (ms_manifest final_manifest) (tr_download_paths transfer)
                     (tr_download_resumes transfer));
  write_json_frame (sv_lost env AtResponse)
    {| ts_protocol_version := PROTOCOL_VERSION; ts_share_id := share_id;
       ts_manifest := ms_manifest final_manifest; ts_files := files |};;
  send (sv_lost env AtFiles) (send_file_chunks_from_root (fe_tree (sv_files env))
    (fe_cut (sv_files env)) (fe_env (sv_files env)) files);;
  checked (bail_if (sv_lost env AtFinish) "unable to finish sync response stream");;
  update_with (sv_status env) (served_status (ao_pending_downloads applied)
    (ao_applied_records applied) (ao_unsupported_items applied)).

(** The session of an authenticated peer. *)
Definition serve (env : server_env) (config : ShareConfig) (peer : EndpointId)
    (hello : ClientHello) : sync unit :=
  share_id ← looking (λ st, Ok (as_share_id (ss_share st)));
  local ← looking (λ st, Ok (as_local_endpoint_id (ss_share st)));
  server_hello ← checked (ok_or (make_server_hello config peer local (ch_nonce hello) (sv_nonce env))
                            "authentication message does not fit");
  send (sv_lost env AtHello) (λ sent, Ok (sent ++ server_hello));;
  request ← read_json_frame (T := SyncRequest);
  checked (validate_sync_request request share_id);;
  on_share (λ s, merge_remote_peers s (sr_known_peers request) (Some peer) (sv_merge_ms env)
                   (sv_merge env));;
  local_manifest ← on_share manifest_snapshot;
  known_peers ← looking (λ st, known_peer_strings (ss_share st) peer);
  write_json_frame (sv_lost env AtSync)
    {| sp_protocol_version := PROTOCOL_VERSION; sp_share_id := share_id;
       sp_manifest_digest := ms_digest local_manifest; sp_known_peers := known_peers |};;
  if bool_decide (sr_manifest_digest request = ms_digest local_manifest) then
    checked (bail_if (sv_lost env AtFinish) "unable to finish unchanged sync stream");;
    update_with (sv_status env) (served_status 0 0 (unsupported_symlink_count (ms_manifest local_manifest)))
  else server_transfer env share_id request (ms_manifest local_manifest).

(** The registry of the running shares, and whether the peer was authenticated. *)
Definition handle_sync_stream (env : server_env) (registry : gmap bytes ActiveShare)
    (t : tree) (ps : partials) (recv : bytes) (peer : EndpointId)
    : result unit * option session * bool :=
  match read_client_hello recv with
  | Err e => (Err e, None, false)
  | Ok (hello, recv) =>
      match registry !! ch_share_id hello with
      | None => (Err "unknown share", None, false)
      | Some share =>
          let config := as_config share in
          match validate_client_hello hello config peer (as_local_endpoint_id share) with
          | Err e => (Err e, None, false)
          | Ok _ =>
              let '(r, st) := serve env config peer hello
                {| ss_share := share; ss_tree := t; ss_partials := ps; ss_recv := recv;
                   ss_sent := [] |} in
              (r, Some st, true)
          end
      end
  end.
End session.

(** ** Inverting a session *)

Section inversion.
Context `{Iroh}.

Lemma sync_bind_Ok {A B} (m : sync A) (f : A → sync B) st b st' :
  (m ≫= f) st = (Ok b, st') → ∃ a st1, m st = (Ok a, st1) ∧ f a st1 = (Ok b, st').
Proof. unfold mbind, sync_bind. destruct (m st) as [[a|e] st1] eqn:E; [eauto|done]. Qed.

Lemma checked_Ok {A} (r : result A) st a st' : checked r st = (Ok a, st') → r = Ok a ∧ st' = st.
Proof. by intros [= -> <-]. Qed.
Lemma looking_Ok {A} (f : session → result A) st a st' :
  looking f st = (Ok a, st') → f st = Ok a ∧ st' = st.
Proof. by intros [= -> <-]. Qed.
Lemma on_share_Ok {A} (f : ActiveShare → result A * ActiveShare) st a st' :
  on_share f st = (Ok a, st') → ∃ s, f (ss_share st) = (Ok a, s) ∧ st' = with_share st s.
Proof. unfold on_share. destruct (f (ss_share st)) as [r s]. intros [= -> <-]. eauto. Qed.
Lemma on_partials_Ok {A} (f : partials → result A * partials) st a st' :
  on_partials f st = (Ok a, st') → ∃ ps, f (ss_partials st) = (Ok a, ps) ∧ st' = with_partials st ps.
Proof. unfold on_partials. destruct (f (ss_partials st)) as [r ps]. intros [= -> <-]. eauto. Qed.
Lemma receive_Ok {A} (read : bytes → result (A * bytes)) st a st' :
  receive read st = (Ok a, st') → ∃ rest, read (ss_recv st) = Ok (a, rest) ∧ st' = with_recv st rest.
Proof. unfold receive. destruct (read (ss_recv st)) as [[x rest]|e]; [|done]. intros [= -> <-]. eauto. Qed.
Lemma send_Ok lost (write : bytes → result bytes) st st' :
  send lost write st = (Ok tt, st') →
  ∃ sent, write (ss_sent st) = Ok sent ∧ st' = with_sent st sent.
Proof.
  unfold send. destruct lost; [done|]. simpl. destruct (write (ss_sent st)); [|done]. intros [= <-]. eauto.
Qed.
End inversion.

(** Inverts the next step of a successful session. *)
Ltac sync_step E x Hx :=
  let st := fresh "st" in
  apply sync_bind_Ok in E as (x & st & Hx & E);
  first
    [ apply checked_Ok in Hx as [Hx ->]
    | apply looking_Ok in Hx as [Hx ->]
    | apply on_share_Ok in Hx as (? & Hx & ->)
    | apply on_partials_Ok in Hx as (? & Hx & ->)
    | apply receive_Ok in Hx as (? & Hx & ->)
    | apply send_Ok in Hx as (? & Hx & ->) | idtac ].
