(* ===== verification/Convergence.v ===== *)
(** * What a synchronization achieves (src/network/client.rs, src/network/incoming.rs)

    A client and a server that ran a session against each other: the bytes one sent
    are the bytes the other received.  If both report success and nothing is left to
    download, both manifests hold, path by path, the record that wins between the two
    manifests they started from. *)

From S2P Require Import Prelude Collections Bytes External Reference Framing Clock Types Peers ManifestPath Manifest Merge Storage Digest Auth Scheduling State Wire LocalFs Partial Streaming Planning Apply Scan ShareScan Session.

Section convergence.
Context `{HexCodec, Sha256, Iroh, Blake3, Hmac, WalkDir, Allocator}
  `{!JsonState ShareConfig} `{!JsonState Manifest} `{!JsonState ClockState}
  `{!JsonState KnownPeers} `{!JsonState RuntimeStatus}
  `{!Json SyncRequest, !Json SyncResponse, !Json ManifestMessage, !Json TransferRequest,
    !Json TransferReady, !Json TransferResponse}.

(** Memory suffices for any message. *)
Context (Hmem : ∀ k, k ≤ MAX_CONTROL_FRAME_BYTES → is_Some (reserve k)).

(** ** The share during a session *)

(** The manifest the share hands out, its identity and its configuration are kept. *)
Definition kept (s s' : ActiveShare) : Prop :=
  as_root s' = as_root s ∧ as_share_id s' = as_share_id s ∧ as_config s' = as_config s ∧
  as_local_endpoint_id s' = as_local_endpoint_id s ∧
  (coherent s → coherent s') ∧ (manifest_snapshot s').1 = (manifest_snapshot s).1.

Lemma kept_refl s : kept s s.
Proof. by split_and!. Qed.
Lemma kept_trans s1 s2 s3 : kept s1 s2 → kept s2 s3 → kept s1 s3.
Proof.
  intros (H1a & H1b & H1c & H1d & H1e & H1f) (H2a & H2b & H2c & H2d & H2e & H2f).
  split_and!; try congruence. auto.
Qed.

Lemma undisturbed_kept s s' : undisturbed s s' → kept s s'.
Proof.
  intros Hu. pose proof Hu as (Hr & Hi & Hc & Hl & Hm & Hf). split_and!; try done.
  - by apply coherent_undisturbed.
  - unfold manifest_snapshot. rewrite Hm. destruct (as_manifest_cache s); [done|].
    unfold load_manifest, read_state, read_bounded. rewrite Hr, Hi, Hf.
    by destruct (_ ≫= _).
Qed.

Lemma snapshot_kept s r s' : manifest_snapshot s = (r, s') → kept s s'.
Proof.
  intros E. pose proof (coherent_snapshot s) as Hc. rewrite E in Hc. simpl in Hc.
  unfold manifest_snapshot in E. destruct (as_manifest_cache s) as [snap|] eqn:Em.
  - injection E as <- <-. apply kept_refl.
  - destruct (load_manifest _ _ _) as [m|e] eqn:El; injection E as <- <-; [|apply kept_refl].
    split_and!; try done. unfold manifest_snapshot. by rewrite Em, El.
Qed.

Lemma update_kept s now pid f env r s' : update_runtime s now pid f env = (r, s') → kept s s'.
Proof.
  intros E. apply undisturbed_kept. pose proof (status_undisturbed s now pid false f env) as Hs.
  unfold update_runtime in E. by rewrite E in Hs.
Qed.
Lemma peers_kept s ps a now env r s' : merge_remote_peers s ps a now env = (r, s') → kept s s'.
Proof.
  intros E. apply undisturbed_kept. pose proof (peers_undisturbed s ps a now env) as Hs. by rewrite E in Hs.
Qed.

(** What [update_runtime] leaves in the status cache. *)
Lemma update_pending s now pid f env s' pending :
  (∀ r now, rs_pending_downloads (f r now) = pending) →
  update_runtime s now pid f env = (Ok tt, s') →
  ∃ status, as_runtime_status s' = Some status ∧ rs_pending_downloads status = pending.
Proof.
  intros Hf. apply (update_reports (λ v, v.1.1.2) pending). intros r t. apply Hf.
Qed.

(** ** The application of a transfer *)

(** A file of [remote] that wins over the local record of its path. *)
Definition wins_as_file (local remote : Manifest) (p : bytes) : Prop :=
  ∃ entry, mf_entries remote !! p = Some entry ∧
    select_record (record local p) (record remote p) = Some (RFile entry).

(** [new] merges [remote] into [local], except for the pending files of [remote]. *)
Definition merges (local remote new : Manifest) (pending : list bytes) : Prop :=
  (∀ p, p ∉ pending → record new p = select_record (record local p) (record remote p)) ∧
  (∀ p, p ∈ pending → wins_as_file local remote p) ∧
  (∀ p, record new p = record local p ∨ record new p = select_record (record local p) (record remote p)).

Lemma commit_candidate_frame s local candidate now observed env1 env2 r s' :
  commit_candidate s local candidate now observed env1 env2 = (r, s') →
  as_config s' = as_config s ∧ as_share_id s' = as_share_id s.
Proof.
  unfold commit_candidate. destruct candidate as [c|]; [|by intros [= _ <-]].
  destruct (Manifest_validate _ _); [|by intros [= _ <-]].
  destruct (same_records _ _); [by intros [= _ <-]|]. unfold observe_manifest_clock.
  destruct (mbind _ _) as [clock|]; [|by intros [= _ <-]].
  destruct (save_clock _ _ _ _ _) as [[[]|e] fs]; [|by intros [= _ <-]]. unfold save_manifest. simpl.
  destruct (negb _); [by intros [= _ <-]|].
  destruct (store_manifest _ _ _ _) as [[|] fs']; by intros [= _ <-].
Qed.

Lemma apply_transfer_Ok fe env remote completed st outcome st' snapshot :
  coherent (ss_share st) → (manifest_snapshot (ss_share st)).1 = Ok snapshot →
  Manifest_validate remote (as_share_id (ss_share st)) = Ok tt →
  apply_transfer fe env remote completed st = (Ok outcome, st') →
  ss_recv st' = ss_recv st ∧ ss_sent st' = ss_sent st ∧
  as_config (ss_share st') = as_config (ss_share st) ∧
  ∃ after pending, (manifest_snapshot (ss_share st')).1 = Ok after ∧
    ao_pending_downloads outcome = Z.min u64_max (blen pending) ∧
    merges (ms_manifest snapshot) remote (ms_manifest after) pending.
Proof.
  intros Hc Hsnap Hv. unfold apply_transfer, apply_validated_remote_staged_transfer.
  destruct (mbind _ _) as [[]|e]; [|done].
  destruct (apply_remote_transfer_impl _ _ _ _ _ _ _ _ _ _ _) as [[[r s] t] ps] eqn:E.
  destruct r as [out|]; [|done]. intros [= -> <-]. simpl. split; [done|]. split; [done|].
  pose proof E as E2.
  apply apply_impl_merge in E as (before & after & pending & Hb & Ha & Hp & Hm1 & Hm2 & Hm3); [|done|done].
  rewrite Hsnap in Hb. injection Hb as <-. split.
  - unfold apply_remote_transfer_impl in E2. destruct (directory_root _); [|done].
    destruct (manifest_snapshot (ss_share st)) as [[snap|] s1] eqn:Es; [|done].
    destruct (apply_loops _ _ _ _ _ _) as [[[]|] st2]; [|done].
    destruct (commit_candidate _ _ _ _ _ _ _) as [[[]|] s2] eqn:Ec; [|done]. injection E2 as <- <- _ _.
    apply commit_candidate_frame in Ec as [-> _]. by apply snapshot_kept in Es as (_ & _ & ? & _).
  - exists after, pending. by split_and!.
Qed.

(** ** The streams *)

Local Abbreviation MAX := MAX_CONTROL_FRAME_BYTES.

(** Chunks are appended to the stream. *)
Lemma write_chunk_app w i o data w' : write_chunk w i o data = Ok w' → ∃ x, w' = w ++ x.
Proof.
  unfold write_chunk, write_all. intros E. res_inv. eexists. by rewrite <-app_assoc.
Qed.
Lemma send_loop_app rc fuel content i size o len w w' :
  send_loop rc fuel content i size o len w = Ok w' → ∃ x, w' = w ++ x.
Proof.
  revert o w. induction fuel as [|fuel IH]; intros o w; simpl; destruct (o <? size); try done;
    try (intros [= ->]; exists []; by rewrite app_nil_r).
  destruct (_ <=? 0); [done|]. intros E. apply bind_Ok in E as (w1 & Hw & E).
  apply write_chunk_app in Hw as [x ->]. apply IH in E as [y ->]. exists (x ++ y). by rewrite app_assoc.
Qed.
Lemma send_from_app view rc e i files len w w' :
  send_from view rc e i files len w = Ok w' → ∃ x, w' = w ++ x.
Proof.
  revert i len w. induction files as [|f files IH]; intros i len w; simpl.
  { intros [= ->]. exists []. by rewrite app_nil_r. }
  intros E. apply bind_Ok in E as (_ & _ & E). apply bind_Ok in E as ([len' w1] & Hf & E).
  assert (∃ x, w1 = w ++ x) as [x ->].
  { unfold send_file in Hf. apply bind_Ok in Hf as (target & _ & Hf).
    destruct (lstat _ target); [|done]. apply bind_Ok in Hf as (_ & _ & Hf).
    destruct (open_file _ target); [|done]. apply bind_Ok in Hf as (w2 & Hl & Hf).
    destruct (lstat _ target); [|done]. apply bind_Ok in Hf as (_ & _ & [= _ <-]).
    by eapply send_loop_app. }
  apply IH in E as [y ->]. exists (x ++ y). by rewrite app_assoc.
Qed.
Lemma send_files_app view rc e files w w' :
  send_file_chunks_from_root view rc e files w = Ok w' → ∃ x, w' = w ++ x.
Proof. intros E. apply bind_Ok in E as (_ & _ & E). by eapply send_from_app. Qed.
Lemma send_uploads_app view rc e requested ready w w' :
  send_upload_chunks view rc e requested ready w = Ok w' → ∃ x, w' = w ++ x.
Proof.
  intros E. unfold send_upload_chunks in E. do 4 (apply bind_Ok in E as (_ & _ & E)).
  by eapply send_files_app.
Qed.

(** A frame is read back whatever follows it. *)
Lemma frame_written {T} `{!Json T} w (v : T) w' :
  write_json w v MAX = Ok w' → ∃ f, w' = w ++ f ∧ ∀ rest, read_json (f ++ rest) MAX = Ok (v, rest).
Proof using Hmem.
  intros Hw.
  destruct (read_json_write_json v w w' [] MAX MAX Hw ltac:(done) Hmem) as (f & -> & _).
  exists f. split; [done|]. intros rest.
  destruct (read_json_write_json v w (w ++ f) rest MAX MAX Hw ltac:(done) Hmem) as (f' & E & Hr).
  by apply app_inv_head in E as <-.
Qed.

(** ** The two sides *)

(** [f] is the frame of a message. *)
Definition framed {T} `{!Json T} (v : T) (f : bytes) : Prop :=
  ∀ rest, read_json (f ++ rest) MAX = Ok (v, rest).

(** What a successful client read and wrote after the hellos, with the snapshot it
    started from and the one it ended with. *)
Definition client_ran (share share' : ActiveShare) (out : PeerSyncOutcome) (snap : ManifestSnapshot)
    (recv sent : bytes) : Prop :=
  ∃ (request : SyncRequest) f1 (response : SyncResponse) recv2,
    framed request f1 ∧ sr_manifest_digest request = ms_digest snap ∧
    sr_share_id request = as_share_id share ∧ read_json recv MAX = Ok (response, recv2) ∧
    ((sp_manifest_digest response = ms_digest snap ∧ sent = f1 ∧
      (manifest_snapshot share').1 = Ok snap ∧ ps_pending_downloads out = 0) ∨
     (sp_manifest_digest response ≠ ms_digest snap ∧
      ∃ (message remote : ManifestMessage) f2 (transfer : TransferRequest) f3 x recv3
        (ready : TransferReady) recv4 (final : TransferResponse) recv5 after pending,
        framed message f2 ∧ mm_manifest message = ms_manifest snap ∧ framed transfer f3 ∧
        sent = f1 ++ f2 ++ f3 ++ x ∧ read_json recv2 MAX = Ok (remote, recv3) ∧
        read_json recv3 MAX = Ok (ready, recv4) ∧ read_json recv4 MAX = Ok (final, recv5) ∧
        (manifest_snapshot share').1 = Ok after ∧
        ps_pending_downloads out = Z.min u64_max (blen pending) ∧
        merges (ms_manifest snap) (ts_manifest final) (ms_manifest after) pending)).

(** The same for a server. *)
Definition server_ran (share share' : ActiveShare) (snap : ManifestSnapshot) (recv sent : bytes) : Prop :=
  ∃ (request : SyncRequest) recv2 (response : SyncResponse) f1 status,
    read_json recv MAX = Ok (request, recv2) ∧ sr_share_id request = as_share_id share ∧
    framed response f1 ∧ sp_manifest_digest response = ms_digest snap ∧
    as_runtime_status share' = Some status ∧
    ((sr_manifest_digest request = ms_digest snap ∧ sent = f1 ∧
      (manifest_snapshot share').1 = Ok snap ∧ rs_pending_downloads status = 0) ∨
     (sr_manifest_digest request ≠ ms_digest snap ∧
      ∃ (remote message : ManifestMessage) recv3 f2 (transfer : TransferRequest) recv4
        (ready : TransferReady) f3 (final : TransferResponse) f4 x after pending,
        read_json recv2 MAX = Ok (remote, recv3) ∧ framed message f2 ∧
        read_json recv3 MAX = Ok (transfer, recv4) ∧ framed ready f3 ∧ framed final f4 ∧
        sent = f1 ++ f2 ++ f3 ++ f4 ++ x ∧ ts_manifest final = ms_manifest after ∧
        (manifest_snapshot share').1 = Ok after ∧
        rs_pending_downloads status = Z.min u64_max (blen pending) ∧
        merges (ms_manifest snap) (mm_manifest remote) (ms_manifest after) pending)).

Lemma write_frame_Ok {T} `{!Json T} lost (v : T) st st' :
  write_json_frame lost v st = (Ok tt, st') →
  ∃ f, framed v f ∧ st' = with_sent st (ss_sent st ++ f).
Proof using Hmem.
  intros (sent & Hw & ->)%send_Ok. apply frame_written in Hw as (f & -> & Hf). eauto.
Qed.
Lemma read_frame_Ok {T} `{!Json T} st (v : T) st' :
  read_json_frame (T := T) st = (Ok v, st') →
  ∃ rest, read_json (ss_recv st) MAX = Ok (v, rest) ∧ st' = with_recv st rest.
Proof. apply (receive_Ok (λ recv, read_json recv MAX)). Qed.
Lemma receive_chunks_Ok f st completed st' :
  receive_chunks f st = (Ok completed, st') → ∃ ps rest, st' = with_recv (with_partials st ps) rest.
Proof.
  unfold receive_chunks. destruct (f _ _) as [[[c rest]|e] ps]; [|done]. intros [= -> <-]. eauto.
Qed.

Lemma update_with_Ok env f st st' :
  update_with env f st = (Ok tt, st') →
  ∃ s, update_runtime (ss_share st) (ue_now_ms env) (ue_pid env) f (ue_write env) = (Ok tt, s) ∧
    st' = with_share st s.
Proof. unfold update_with. intros E. apply on_share_Ok in E as (s & E & ->). eauto. Qed.

Lemma validated_response response share_id m :
  validate_transfer_response response share_id = Ok m →
  m = ts_manifest response ∧ Manifest_validate (ts_manifest response) share_id = Ok tt.
Proof.
  unfold validate_transfer_response, ValidatedManifest_validate. intros Hv.
  apply bind_Ok in Hv as (_ & _ & Hv). apply bind_Ok in Hv as (v & Hv' & Hv).
  apply bind_Ok in Hv as (_ & _ & [= <-]). by apply bind_Ok in Hv' as ([] & ? & [= <-]).
Qed.
Lemma validated_message message share_id digest m :
  validate_manifest_message message share_id digest = Ok m →
  m = mm_manifest message ∧ Manifest_validate (mm_manifest message) share_id = Ok tt.
Proof.
  unfold validate_manifest_message, ValidatedManifest_validate. intros Hv.
  apply bind_Ok in Hv as (_ & _ & Hv). apply bind_Ok in Hv as (v & Hv' & Hv).
  apply bind_Ok in Hv as (_ & _ & [= <-]). by apply bind_Ok in Hv' as ([] & ? & [= <-]).
Qed.

Lemma client_transfer_Ok env response st out st' snap :
  coherent (ss_share st) → (manifest_snapshot (ss_share st)).1 = Ok snap →
  cfg_initial_sync_complete (as_config (ss_share st)) = true →
  client_transfer env (as_share_id (ss_share st)) response (ms_manifest snap) st = (Ok out, st') →
  ∃ (message remote : ManifestMessage) f2 (transfer : TransferRequest) f3 x recv3
    (ready : TransferReady) recv4 (final : TransferResponse) recv5 after pending,
    framed message f2 ∧ mm_manifest message = ms_manifest snap ∧ framed transfer f3 ∧
    ss_sent st' = ss_sent st ++ f2 ++ f3 ++ x ∧ read_json (ss_recv st) MAX = Ok (remote, recv3) ∧
    read_json recv3 MAX = Ok (ready, recv4) ∧ read_json recv4 MAX = Ok (final, recv5) ∧
    (manifest_snapshot (ss_share st')).1 = Ok after ∧
    ps_pending_downloads out = Z.min u64_max (blen pending) ∧
    merges (ms_manifest snap) (ts_manifest final) (ms_manifest after) pending.
Proof using Hmem.
  intros Hc Hsnap Hcomplete E. unfold client_transfer in E.
  apply sync_bind_Ok in E as ([] & st1 & Hx & E). apply write_frame_Ok in Hx as (f2 & Hf2 & ->).
  apply sync_bind_Ok in E as (remote & st2 & Hx & E). apply read_frame_Ok in Hx as (recv3 & Hr3 & ->).
  sync_step E vm Hv.
  sync_step E plan Hp. destruct plan as [transfer updates].
  apply sync_bind_Ok in E as ([] & st5 & Hx & E). apply write_frame_Ok in Hx as (f3 & Hf3 & ->).
  apply sync_bind_Ok in E as (ready & st6 & Hx & E). apply read_frame_Ok in Hx as (recv4 & Hr4 & ->).
  sync_step E vr Hvr. apply sync_bind_Ok in E as ([] & st6 & Hs & E).
  apply send_Ok in Hs as (sent & Hs & ->). apply send_uploads_app in Hs as [x0 ->].
  sync_step E u2 Hfin.
  apply sync_bind_Ok in E as (final & st7 & Hx & E). apply read_frame_Ok in Hx as (recv5 & Hr5 & ->).
  sync_step E validated Hval. apply validated_response in Hval as [-> Hval].
  apply sync_bind_Ok in E as (completed & st8 & Hx & E). apply receive_chunks_Ok in Hx as (ps & recv6 & ->).
  apply sync_bind_Ok in E as (applied & st9 & Ha & E).
  apply (apply_transfer_Ok _ _ _ _ _ _ _ snap) in Ha as (_ & Hsent & Hcfg & after & pending & Haft & Hpend & Hm);
    [|done|done|done].
  apply sync_bind_Ok in E as ([] & st10 & Hu & E).
  assert (kept (ss_share st9) (ss_share st10) ∧ ss_sent st10 = ss_sent st9) as [Hk Hs10].
  { destruct (0 <? ao_applied_records applied); [|injection Hu as <-; split; [apply kept_refl|done]].
    apply update_with_Ok in Hu as (s & Hu & ->). by apply update_kept in Hu. }
  sync_step E config Hconfig. injection Hconfig as <-.
  destruct Hk as (_ & _ & Hkc & _ & _ & Hks). simpl in Hcfg. rewrite Hkc, Hcfg, Hcomplete in E. simpl in E.
  injection E as <- <-.
  exists {| mm_protocol_version := PROTOCOL_VERSION; mm_share_id := as_share_id (ss_share st);
            mm_manifest := ms_manifest snap |}, remote, f2, transfer, f3, x0, recv3, ready, recv4,
    final, recv5, after, pending.
  split_and!; try done; try congruence.
  - rewrite Hs10, Hsent. simpl. by rewrite <-!app_assoc.
Qed.

Lemma server_transfer_Ok env request st st' snap :
  coherent (ss_share st) → (manifest_snapshot (ss_share st)).1 = Ok snap →
  server_transfer env (as_share_id (ss_share st)) request (ms_manifest snap) st = (Ok tt, st') →
  ∃ (remote message : ManifestMessage) recv3 f2 (transfer : TransferRequest) recv4
    (ready : TransferReady) f3 (final : TransferResponse) f4 x after pending status,
    read_json (ss_recv st) MAX = Ok (remote, recv3) ∧ framed message f2 ∧
    read_json recv3 MAX = Ok (transfer, recv4) ∧ framed ready f3 ∧ framed final f4 ∧
    ss_sent st' = ss_sent st ++ f2 ++ f3 ++ f4 ++ x ∧ ts_manifest final = ms_manifest after ∧
    (manifest_snapshot (ss_share st')).1 = Ok after ∧
    as_runtime_status (ss_share st') = Some status ∧
    rs_pending_downloads status = Z.min u64_max (blen pending) ∧
    merges (ms_manifest snap) (mm_manifest remote) (ms_manifest after) pending.
Proof using Hmem.
  intros Hc Hsnap E. unfold server_transfer in E.
  apply sync_bind_Ok in E as (remote & st1 & Hx & E). apply read_frame_Ok in Hx as (recv3 & Hr3 & ->).
  sync_step E validated Hval. apply validated_message in Hval as [-> Hval].
  apply sync_bind_Ok in E as ([] & st2 & Hx & E). apply write_frame_Ok in Hx as (f2 & Hf2 & ->).
  apply sync_bind_Ok in E as (transfer & st3 & Hx & E). apply read_frame_Ok in Hx as (recv4 & Hr4 & ->).
  sync_step E vt Hvt. sync_step E ready Hready.
  apply sync_bind_Ok in E as ([] & st4 & Hx & E). apply write_frame_Ok in Hx as (f3 & Hf3 & ->).
  apply sync_bind_Ok in E as (uploaded & st5 & Hx & E). apply receive_chunks_Ok in Hx as (ps & recv5 & ->).
  apply sync_bind_Ok in E as (applied & st6 & Ha & E).
  apply (apply_transfer_Ok _ _ _ _ _ _ _ snap) in Ha as (_ & Hsent & _ & after & pending & Haft & Hpend & Hm);
    [|done|done|done].
  sync_step E snap' Hfinal. pose proof (snapshot_kept _ _ _ Hfinal) as (_ & _ & _ & _ & _ & Hks).
  rewrite Hfinal in Haft. injection Haft as ->.
  sync_step E tfiles Hfiles.
  apply sync_bind_Ok in E as ([] & st7 & Hx & E). apply write_frame_Ok in Hx as (f4 & Hf4 & ->).
  apply sync_bind_Ok in E as ([] & st8 & Hs & E). apply send_Ok in Hs as (sent & Hs & ->).
  apply send_files_app in Hs as [x1 ->]. sync_step E u Hfin.
  apply update_with_Ok in E as (s & Hu & ->).
  pose proof Hu as Hu'.
  apply (update_pending _ _ _ _ _ _ (ao_pending_downloads applied)) in Hu' as (status & Hst & Hsp); [|done].
  apply update_kept in Hu as (_ & _ & _ & _ & _ & Hku). simpl in Hku.
  exists remote, {| mm_protocol_version := PROTOCOL_VERSION; mm_share_id := as_share_id (ss_share st);
                    mm_manifest := ms_manifest snap |}, recv3, f2, transfer, recv4, ready, f3,
    {| ts_protocol_version := PROTOCOL_VERSION; ts_share_id := as_share_id (ss_share st);
       ts_manifest := ms_manifest after; ts_files := tfiles |}, f4, x1, after, pending, status.
  split_and!; try done.
  - simpl. rewrite Hsent. simpl. by rewrite <-!app_assoc.
  - simpl. rewrite Hku, Hks, Hfinal. done.
  - by rewrite Hsp.
Qed.

Lemma incompatible_false v a b : incompatible v a b = false → a = b.
Proof. unfold incompatible. intros E. by bool_inv. Qed.

Lemma client_handshake_Ok env config peer st st' :
  client_handshake env config peer st = (Ok tt, st') →
  ∃ hello h recv1,
    make_client_hello config (as_local_endpoint_id (ss_share st)) peer (cl_nonce env) = Some hello ∧
    read_server_hello (ss_recv st) = Ok (h, recv1) ∧
    st' = with_recv (with_sent st (ss_sent st ++ hello)) recv1.
Proof.
  intros E. unfold client_handshake in E. sync_step E local Hl. injection Hl as <-.
  sync_step E hello Hh. apply ok_or_Ok in Hh.
  apply sync_bind_Ok in E as ([] & st1 & Hs & E). apply send_Ok in Hs as (sent & [= <-] & ->).
  sync_step E h Hr. apply checked_Ok in E as [_ ->]. eauto 10.
Qed.

Lemma client_Ok env peer st out st' :
  coherent (ss_share st) → cfg_initial_sync_complete (as_config (ss_share st)) = true →
  sync_with_peer env peer st = (Ok out, st') →
  ∃ hello h recv1 snap sent,
    make_client_hello (as_config (ss_share st)) (as_local_endpoint_id (ss_share st)) peer (cl_nonce env)
      = Some hello ∧
    read_server_hello (ss_recv st) = Ok (h, recv1) ∧ (manifest_snapshot (ss_share st)).1 = Ok snap ∧
    ss_sent st' = ss_sent st ++ hello ++ sent ∧
    client_ran (ss_share st) (ss_share st') out snap recv1 sent.
Proof using Hmem.
  intros Hc Hcomplete E. unfold sync_with_peer in E.
  sync_step E config Hx. injection Hx as <-. sync_step E share_id Hx. injection Hx as <-.
  sync_step E u Hconn.
  apply sync_bind_Ok in E as ([] & st1 & Hu & E). apply update_with_Ok in Hu as (s1 & Hu & ->).
  apply update_kept in Hu as Hk1.
  apply sync_bind_Ok in E as ([] & st2 & Hh & E). apply client_handshake_Ok in Hh as (hello & h & recv1 & Hh & Hr & ->).
  apply sync_bind_Ok in E as ([digest local] & st3 & Ho & E). unfold outbound in Ho. rewrite Hcomplete in Ho.
  sync_step Ho snap Hsnap. injection Ho as <- <- <-. simpl in Hsnap.
  pose proof (snapshot_kept _ _ _ Hsnap) as Hk2. pose proof (kept_trans _ _ _ Hk1 Hk2) as Hk.
  sync_step E known Hkn.
  apply sync_bind_Ok in E as ([] & st4 & Hx & E). apply write_frame_Ok in Hx as (f1 & Hf1 & ->).
  apply sync_bind_Ok in E as (response & st5 & Hx & E). apply read_frame_Ok in Hx as (recv2 & Hr2 & ->).
  sync_step E vr Hvr. sync_step E u2 Hpeers. simpl in Hpeers.
  apply peers_kept in Hpeers. pose proof (kept_trans _ _ _ Hk Hpeers) as Hk3.
  pose proof Hk1 as (_ & _ & _ & Hloc & _ & Hsn1). rewrite Hsnap in Hsn1. simpl in Hsn1.
  destruct Hk3 as (_ & Hid3 & Hcfg3 & _ & Hcoh3 & Hsnap3).
  rewrite <-Hsn1 in Hsnap3. simpl in Hloc, Hh, Hr, Hr2. rewrite Hloc in Hh.
  exists hello, h, recv1, snap.
  case_bool_decide as Hdig.
  - exists f1. rewrite Hcomplete in E. simpl negb in E. cbv iota in E.
    apply sync_bind_Ok in E as ([] & st7 & [= <-] & E). sync_step E u3 Hfin. injection E as <- <-.
    split_and!; try done; [simpl; by rewrite app_assoc|].
    eexists _, f1, response, recv2. split_and!; try done. left. by split_and!.
  - match type of E with client_transfer _ _ _ _ ?s = _ => set (st6 := s) in E end.
    replace (as_share_id (ss_share st)) with (as_share_id (ss_share st6)) in E by done.
    apply client_transfer_Ok in E as (message & remote & f2 & transfer & f3 & x' & recv3 & ready & recv4
      & final & recv5 & after & pending & Hf2 & Hm & Hf3 & Hsent & Hr3 & Hr4 & Hr5 & Haft & Hp & Hmerge);
      [|by apply Hcoh3|exact Hsnap3|simpl; by rewrite Hcfg3].
    exists (f1 ++ f2 ++ f3 ++ x'). split_and!; try done.
    { rewrite Hsent. simpl. by rewrite <-!app_assoc. }
    eexists _, f1, response, recv2. split_and!; try done. right. split; [done|].
    exists message, remote, f2, transfer, f3, x', recv3, ready, recv4, final, recv5, after, pending.
    by split_and!.
Qed.

Lemma serve_Ok env peer hello st st' :
  coherent (ss_share st) → serve env (as_config (ss_share st)) peer hello st = (Ok tt, st') →
  ∃ shello snap sent,
    make_server_hello (as_config (ss_share st)) peer (as_local_endpoint_id (ss_share st)) (ch_nonce hello)
      (sv_nonce env) = Some shello ∧
    (manifest_snapshot (ss_share st)).1 = Ok snap ∧ ss_sent st' = ss_sent st ++ shello ++ sent ∧
    server_ran (ss_share st) (ss_share st') snap (ss_recv st) sent.
Proof using Hmem.
  intros Hc E. unfold serve in E. sync_step E share_id Hx. injection Hx as <-.
  sync_step E local Hx. injection Hx as <-. sync_step E shello Hh. apply ok_or_Ok in Hh.
  apply sync_bind_Ok in E as ([] & st1 & Hs & E). apply send_Ok in Hs as (sent & [= <-] & ->).
  apply sync_bind_Ok in E as (request & st2 & Hx & E). apply read_frame_Ok in Hx as (recv2 & Hr2 & ->).
  sync_step E v Hv. unfold validate_sync_request in Hv. apply bind_Ok in Hv as ([] & Hi & _).
  apply bail_if_Ok, incompatible_false in Hi.
  sync_step E u Hpeers. apply peers_kept in Hpeers.
  sync_step E snap Hsnap. simpl in Hsnap, Hpeers. pose proof (snapshot_kept _ _ _ Hsnap) as Hk2.
  pose proof (kept_trans _ _ _ Hpeers Hk2) as Hk. pose proof Hpeers as (_ & _ & _ & _ & _ & Hsn1).
  rewrite Hsnap in Hsn1. simpl in Hsn1. destruct Hk as (_ & Hid & _ & _ & Hcoh & Hks).
  rewrite <-Hsn1 in Hks. sync_step E known Hkn.
  apply sync_bind_Ok in E as ([] & st3 & Hx & E). apply write_frame_Ok in Hx as (f1 & Hf1 & ->).
  exists shello, snap. case_bool_decide as Hdig.
  - exists f1. sync_step E u3 Hfin. apply update_with_Ok in E as (s & Hu & ->). pose proof Hu as Hu'.
    apply (update_pending _ _ _ _ _ _ 0) in Hu' as (status & Hst & Hsp); [|done].
    apply update_kept in Hu as (_ & _ & _ & _ & _ & Hku). simpl in Hku.
    split_and!; try done; [simpl; by rewrite app_assoc|].
    eexists request, recv2, _, f1, status. split_and!; try done. left. simpl. rewrite Hku. by split_and!.
  - match type of E with server_transfer _ _ _ _ ?s = _ => set (st6 := s) in E end.
    replace (as_share_id (ss_share st)) with (as_share_id (ss_share st6)) in E by done.
    apply server_transfer_Ok in E as (remote & message & recv3 & f2 & transfer & recv4 & ready & f3 & final
      & f4 & x' & after & pending & status & Hr3 & Hf2 & Hr4 & Hf3 & Hf4 & Hsent & Hfin & Haft & Hst & Hp & Hm);
      [|by apply Hcoh|exact Hks].
    exists (f1 ++ f2 ++ f3 ++ f4 ++ x'). split_and!; try done.
    { rewrite Hsent. simpl. by rewrite <-!app_assoc. }
    eexists request, recv2, _, f1, status. split_and!; try done. right. split; [done|].
    exists remote, message, recv3, f2, transfer, recv4, ready, f3, final, f4, x', after, pending.
    by split_and!.
Qed.

(** ** The two sides together *)

(** What both sides hold after a session: nothing changed because the digests agree,
    or every path that neither side is still downloading has the winning record, up to
    the local modification time of files; what is still downloaded are winning files of
    the other side. *)
Definition synchronized (snap_c snap_s after_c after_s : ManifestSnapshot) (pending_c pending_s : Z) : Prop :=
  (ms_digest snap_c = ms_digest snap_s ∧ after_c = snap_c ∧ after_s = snap_s ∧
   pending_c = 0 ∧ pending_s = 0) ∨
  ∃ downloads_c downloads_s,
    pending_c = Z.min u64_max (blen downloads_c) ∧ pending_s = Z.min u64_max (blen downloads_s) ∧
    (∀ p, p ∈ downloads_s → wins_as_file (ms_manifest snap_s) (ms_manifest snap_c) p) ∧
    (∀ p, p ∈ downloads_c → wins_as_file (ms_manifest snap_c) (ms_manifest after_s) p) ∧
    ∀ p, p ∉ downloads_c → p ∉ downloads_s →
      record (ms_manifest after_s) p =
        select_record (record (ms_manifest snap_s) p) (record (ms_manifest snap_c) p) ∧
      synced <$> record (ms_manifest after_c) p = synced <$> record (ms_manifest after_s) p.

Lemma frame_head {T} `{!Json T} (v v' : T) f x rest :
  framed v f → read_json (f ++ x) MAX = Ok (v', rest) → v' = v ∧ rest = x.
Proof. intros Hf. rewrite Hf. by intros [= -> ->]. Qed.

(** A side that receives back what it sent is where the other is. *)
Lemma select_own l r : agree l r →
  synced <$> select_record (select_record l r) l = synced <$> select_record r l.
Proof.
  intros Hag. pose proof (select_comm l r Hag) as Hc.
  destruct l as [l|], r as [r|]; rewrite ?select_None_l, ?select_None_r, ?select_idem; try done.
  rewrite select_max in *. destruct (ltb (rank l) (rank r)) eqn:E; rewrite select_max.
  - by rewrite (ltb_asym _ _ E).
  - rewrite ltb_irrefl. by rewrite <-Hc.
Qed.

Lemma linked_sides c c' out snap_c s s' snap_s to_server to_client :
  (∀ p, agree (record (ms_manifest snap_c) p) (record (ms_manifest snap_s) p)) →
  client_ran c c' out snap_c to_client to_server →
  server_ran s s' snap_s to_server to_client →
  as_share_id s = as_share_id c ∧
  ∃ after_c after_s status,
    (manifest_snapshot c').1 = Ok after_c ∧ (manifest_snapshot s').1 = Ok after_s ∧
    as_runtime_status s' = Some status ∧
    synchronized snap_c snap_s after_c after_s (ps_pending_downloads out) (rs_pending_downloads status).
Proof.
  intros Hag (request & f1 & response & recv2 & Hf1 & Hreq & Hreqid & Hresp & Hc)
    (request' & recv2' & response' & g1 & status & Hreq' & Hid & Hg1 & Hresp' & Hst & Hs).
  assert (∃ x, to_server = f1 ++ x) as [x Ex].
  { destruct Hc as [(_ & -> & _)|(_ & m & r & f2 & t & f3 & x & ? & ? & ? & ? & ? & ? & ? & _ & _ & _ & -> & _)];
      [exists []; by rewrite app_nil_r|eauto]. }
  assert (∃ y, to_client = g1 ++ y) as [y Ey].
  { destruct Hs as [(_ & -> & _)|(_ & ? & ? & ? & ? & ? & ? & ? & ? & ? & ? & ? & ? & ? & _ & _ & _ & _ & _ & -> & _)];
      [exists []; by rewrite app_nil_r|eauto]. }
  rewrite Ex in Hreq'. apply (frame_head request) in Hreq' as [-> ->]; [|done].
  rewrite Ey in Hresp. apply (frame_head response') in Hresp as [-> ->]; [|done].
  split; [congruence|].
  destruct Hc as [(Hd & Hts & Hac & Hpc)|(Hd & message & remote & f2 & transfer & f3 & x' & recv3 & ready
    & recv4 & final & recv5 & after_c & pend_c & Hf2 & Hmsg & Hf3 & Hts & Hr1 & Hr2 & Hr3 & Hac & Hpc & Hmc)].
  - destruct Hs as [(_ & _ & Has & Hps)|(Hd' & _)]; [|congruence].
    exists snap_c, snap_s, status. split_and!; try done. left. split_and!; congruence.
  - destruct Hs as [(Hd' & _)|(_ & remote' & message' & recv3' & g2 & transfer' & recv4' & ready' & g3
      & final' & g4 & y' & after_s & pend_s & Hs1 & Hg2 & Hs2 & Hg3 & Hg4 & Htc & Hfin & Has & Hps & Hms)];
      [congruence|].
    rewrite Hts in Ex. apply app_inv_head in Ex as <-. rewrite Htc in Ey. apply app_inv_head in Ey as <-.
    apply (frame_head message) in Hs1 as [-> ->]; [|done].
    apply (frame_head message') in Hr1 as [-> ->]; [|done].
    apply (frame_head ready') in Hr2 as [-> ->]; [|done].
    apply (frame_head final') in Hr3 as [-> ->]; [|done].
    exists after_c, after_s, status. split_and!; try done. right. exists pend_c, pend_s.
    destruct Hms as (Hms & Hws & _), Hmc as (Hmc & Hwc & _). rewrite Hfin in Hmc, Hwc. rewrite Hmsg in Hms, Hws.
    split_and!; try done. intros p Hpc' Hps'.
    rewrite (Hmc p Hpc'), (Hms p Hps'). split; [done|].
    rewrite <-select_assoc. by apply select_own.
Qed.

(** A session of a client against a server: each received what the other sent. *)
Record exchanged (cenv : client_env) (senv : server_env) (registry : gmap bytes ActiveShare)
    (client server : EndpointId) (t : tree) (ps : partials) (c c' s' : session) (out : PeerSyncOutcome)
    : Prop := {
  ex_client : sync_with_peer cenv server c = (Ok out, c');
  ex_server : handle_sync_stream senv registry t ps (ss_sent c') client = (Ok tt, Some s', true);
  ex_start : ss_sent c = [];
  ex_received : ss_recv c = ss_sent s';
}.

(** A running share: its cache is coherent with its files, its ID has 32 bytes. *)
Definition share_ok (s : ActiveShare) : Prop := coherent s ∧ is_array 32 (cfg_share_id (as_config s)).

(** ** Properties *)

(** C12: a session of two peers that both report success synchronizes them, when no scan
    and no other session changes the two shares meanwhile, the client has completed its
    initial synchronization and live records with the same version are the same (which
    every history of scans and exchanges keeps, see [Replicas]).  Either the digests
    agreed and nothing changed; or each side still downloads some winning files of the
    other, as many as it reports, and for every other path the server's manifest has the
    record that wins between the two manifests they started from, and the client's has
    the same but for the local modification time of a file.  So once nothing is pending,
    both hold the same synchronized records. *)
Theorem session_synchronizes (cenv : client_env) (senv : server_env) (registry : gmap bytes ActiveShare)
    (client server : EndpointId) (t : tree) (ps : partials) (c c' s' : session) (out : PeerSyncOutcome)
    (snap_c snap_s : ManifestSnapshot) (share : ActiveShare)
    (Hrun : exchanged cenv senv registry client server t ps c c' s' out)
    (Hc : share_ok (ss_share c)) (Hcomplete : cfg_initial_sync_complete (as_config (ss_share c)) = true)
    (Hn : is_array 32 (cl_nonce cenv)) (Hn' : is_array 32 (sv_nonce senv))
    (Hshare : registry !! cfg_share_id (as_config (ss_share c)) = Some share) (Hs : share_ok share)
    (Hsc : (manifest_snapshot (ss_share c)).1 = Ok snap_c) (Hss : (manifest_snapshot share).1 = Ok snap_s)
    (Hagree : ∀ p, agree (record (ms_manifest snap_c) p) (record (ms_manifest snap_s) p)) :
  ∃ after_c after_s status,
    (manifest_snapshot (ss_share c')).1 = Ok after_c ∧ (manifest_snapshot (ss_share s')).1 = Ok after_s ∧
    as_runtime_status (ss_share s') = Some status ∧
    synchronized snap_c snap_s after_c after_s (ps_pending_downloads out) (rs_pending_downloads status).
Proof using Hmem.
  destruct Hrun as [Hclient Hserver Hstart Hlink], Hc as [Hcoh Hid], Hs as [Hcohs Hids].
  apply client_Ok in Hclient as (hello & h & recv1 & snap & sent & Hh & Hread & Hsnap & Hsent & Hran); [|done|done].
  rewrite Hsc in Hsnap. injection Hsnap as <-. rewrite Hstart, app_nil_l in Hsent.
  rewrite make_client_hello_eq in Hh by done. apply (inj Some) in Hh. subst hello.
  unfold handle_sync_stream in Hserver. rewrite Hsent, read_client_hello_app in Hserver
    by (done || apply length_hmac_sha256).
  cbn [ch_share_id] in Hserver. rewrite Hshare in Hserver.
  destruct (validate_client_hello _ _ _ _) as [[]|]; [|done].
  match type of Hserver with context [serve _ _ _ ?x ?y] => set (ch := x) in Hserver; set (st := y) in Hserver end.
  destruct (serve senv (as_config share) client ch st) as [r s1] eqn:Es.
  injection Hserver as -> ->. apply (serve_Ok senv client ch st) in Es as (shello & snap & sent_s & Hsh & Hsnap & Hsent_s & Hran_s); [|done].
  change (ss_share st) with share in *. rewrite Hss in Hsnap. injection Hsnap as <-.
  rewrite make_server_hello_eq in Hsh by done. apply (inj Some) in Hsh. subst shello.
  change (ss_sent st) with (@nil byte) in Hsent_s. rewrite app_nil_l in Hsent_s.
  rewrite Hlink, Hsent_s, read_server_hello_app in Hread by (done || apply length_hmac_sha256).
  injection Hread as _ <-.
  by destruct (linked_sides _ _ _ _ _ _ _ _ _ Hagree Hran Hran_s) as [_ Hgoal].
Qed.
End convergence.

(** *** Witnesses *)

Import Ref.

Global Instance SyncRequest_eq_dec : EqDecision SyncRequest.
Proof. solve_decision. Defined.
Global Instance SyncResponse_eq_dec : EqDecision SyncResponse.
Proof. solve_decision. Defined.
Global Instance ManifestMessage_eq_dec : EqDecision ManifestMessage.
Proof. solve_decision. Defined.
Global Instance TransferRequest_eq_dec : EqDecision TransferRequest.
Proof. solve_decision. Defined.
Global Instance TransferReady_eq_dec : EqDecision TransferReady.
Proof. solve_decision. Defined.
Global Instance TransferResponse_eq_dec : EqDecision TransferResponse.
Proof. solve_decision. Defined.

(** A client without records, and a server with a directory [d]. *)
Definition ex_client_id : EndpointId := endpoint "001".
Definition ex_server_id : EndpointId := endpoint "002".
Definition ex_nothing : Manifest := Manifest_empty ex_share 0.
Definition ex_directory : Manifest :=
  ex_manifest (bs "d") (RDirectory {| de_permissions := None; de_version := ex_version 1 "002" |}).
Definition ex_merged : Manifest := with_scan_time ex_directory 8.
Definition ex_peer (e : EndpointId) : KnownPeers :=
  {| kp_format_version := 1;
     kp_peers := [{| pr_endpoint_id := ep_to_string e; pr_added_at_ms := 5; pr_last_seen_at_ms := Some 5 |}] |}.
Definition ex_status (connected : Z) (update : option Z) : RuntimeStatus := {|
  rs_format_version := 1; rs_process_id := 7; rs_started_at_ms := 5; rs_heartbeat_at_ms := 5;
  rs_state := Stopped; rs_health := Unknown; rs_connected_peers := connected; rs_pending_downloads := 0;
  rs_pending_updates := 0; rs_last_scan_at_ms := None; rs_last_remote_update_at_ms := update;
  rs_last_sync_at_ms := None; rs_last_connection_at_ms := Some 5; rs_last_error := None |}.

#[local] Instance ex_allocator : Allocator := bounded_allocator MAX_CONTROL_FRAME_BYTES.
#[local] Instance ex_codec_config : JsonState ShareConfig := table_state [].
#[local] Instance ex_codec_manifest : JsonState Manifest :=
  table_state [ex_nothing; ex_directory; ex_merged].
#[local] Instance ex_codec_clock : JsonState ClockState := table_state [Apply.ex_clock 1 0; Apply.ex_clock 8 0].
#[local] Instance ex_codec_peers : JsonState KnownPeers :=
  table_state [ex_peer ex_server_id; ex_peer ex_client_id].
#[local] Instance ex_codec_status : JsonState RuntimeStatus :=
  table_state [ex_status 1 None; ex_status 1 (Some 5); ex_status 0 None].
#[local] Instance ex_codec_request : Json SyncRequest := table_json
  [{| sr_protocol_version := PROTOCOL_VERSION; sr_share_id := ex_share;
      sr_manifest_digest := sync_digest_after_validation ex_nothing; sr_known_peers := [] |}].
#[local] Instance ex_codec_response : Json SyncResponse := table_json
  [{| sp_protocol_version := PROTOCOL_VERSION; sp_share_id := ex_share;
      sp_manifest_digest := sync_digest_after_validation ex_directory; sp_known_peers := [] |}].
Definition ex_message (m : Manifest) : ManifestMessage :=
  {| mm_protocol_version := PROTOCOL_VERSION; mm_share_id := ex_share; mm_manifest := m |}.
#[local] Instance ex_codec_message : Json ManifestMessage :=
  table_json [ex_message ex_nothing; ex_message ex_directory].
#[local] Instance ex_codec_transfer : Json TransferRequest := table_json
  [{| tr_protocol_version := PROTOCOL_VERSION; tr_share_id := ex_share; tr_download_paths := [];
      tr_download_resumes := []; tr_uploads := [] |}].
#[local] Instance ex_codec_ready : Json TransferReady := table_json
  [{| ty_protocol_version := PROTOCOL_VERSION; ty_share_id := ex_share; ty_uploads := [] |}].
#[local] Instance ex_codec_final : Json TransferResponse := table_json
  [{| ts_protocol_version := PROTOCOL_VERSION; ts_share_id := ex_share; ts_manifest := ex_directory;
      ts_files := [] |}].

(** The running shares; the n-th text of the tables is the state of each. *)
Definition ex_running (id : EndpointId) (manifest peers : bytes) : ActiveShare := {|
  as_files := <[share_manifest (bs "/d") ex_share := manifest]>
    (<[share_clock (bs "/d") ex_share := bs "x"]> {[share_known_peers (bs "/d") ex_share := peers]});
  as_root := bs "/d"; as_share_id := ex_share; as_config := complete_config ex_share_config;
  as_runtime_status := None; as_manifest_generation := 0; as_network_generation := 0;
  as_manifest_cache := None; as_peer_schedule := ∅; as_local_endpoint_id := id |}.
Definition ex_client_share : ActiveShare := ex_running ex_client_id (bs "x") (bs "x").
Definition ex_server_share : ActiveShare := ex_running ex_server_id (bs "xx") (bs "xx").

Definition ex_update : update_env := {| ue_now_ms := 5; ue_pid := 7; ue_write := ex_env |}.
Definition ex_tree_of (names : list (list bytes)) : tree :=
  foldr (λ p, <[p := new_node KDir 493 0]>) ∅ names.
Definition ex_files (t : tree) : files_env := {|
  fe_tree := λ _ _, t; fe_cut := λ _ x, x; fe_env := ex_local_env; fe_refuse := λ _ _, false |}.
Definition ex_apply_env : apply_env := {|
  ae_cross := λ _, false; ae_now_ms := 8; ae_observed_ms := 8; ae_clock := ex_env; ae_manifest := ex_env |}.
Definition ex_initial : initial_env := {|
  ni_config := ex_env; ni_root := bs "/s"; ni_reads := ex_reads; ni_now_ms := 8; ni_status_ms := 8;
  ni_pid := 7; ni_clock := ex_env; ni_manifest := ex_env; ni_status := ex_env |}.
Definition ex_client_env : client_env := {|
  cl_connects := true; cl_lost := λ _, false; cl_connected := ex_update; cl_nonce := repeat "007"%byte 32;
  cl_digest_ms := 5; cl_empty_ms := 5; cl_merge_ms := 5; cl_merge := ex_env; cl_files := ex_files (ex_tree_of [[]]);
  cl_apply := ex_apply_env; cl_updated := ex_update; cl_initial := ex_initial |}.
Definition ex_server_env : server_env := {|
  sv_lost := λ _, false; sv_nonce := repeat "008"%byte 32; sv_merge_ms := 5; sv_merge := ex_env;
  sv_files := ex_files (ex_tree_of [[]; [bs "d"]]); sv_apply := ex_apply_env; sv_status := ex_update |}.
Definition ex_registry : gmap bytes ActiveShare := {[ex_share := ex_server_share]}.

(** The two runs on what the other side sent so far. *)
Definition ex_begin (recv : bytes) : session := {|
  ss_share := ex_client_share; ss_tree := ex_tree_of [[]]; ss_partials := ∅; ss_recv := recv; ss_sent := [] |}.
Definition ex_client_run (recv : bytes) : result PeerSyncOutcome * session :=
  sync_with_peer ex_client_env ex_server_id (ex_begin recv).
Definition ex_server_run (recv : bytes) : result unit * option session * bool :=
  handle_sync_stream ex_server_env ex_registry (ex_tree_of [[]; [bs "d"]]) ∅ recv ex_client_id.
Definition ex_served (recv : bytes) : session := default (ex_begin []) (ex_server_run recv).1.2.
Fixpoint ex_stream (rounds : nat) : bytes :=
  match rounds with
  | O => []
  | S n => ss_sent (ex_served (ss_sent (ex_client_run (ex_stream n)).2))
  end.

(** What the server sends in the whole session. *)
Definition ex_to_client : bytes := Eval vm_compute in ex_stream 4.
Definition ex_after_client : session := (ex_client_run ex_to_client).2.
Definition ex_after_server : session := ex_served (ss_sent ex_after_client).

Lemma ex_client_result :
  (ex_client_run ex_to_client).1 = Ok {| ps_pending_downloads := 0; ps_pending_updates := 0 |}.
Proof. vm_compute. reflexivity. Qed.
Definition ex_completed (r : result unit * option session * bool) : bool :=
  match r with (Ok tt, Some _, authenticated) => authenticated | _ => false end.
Lemma ex_server_result : ex_completed (ex_server_run (ss_sent ex_after_client)) = true.
Proof. vm_compute. reflexivity. Qed.

Lemma ex_exchanged :
  exchanged ex_client_env ex_server_env ex_registry ex_client_id ex_server_id
    (ex_tree_of [[]; [bs "d"]]) ∅ (ex_begin ex_to_client) ex_after_client ex_after_server
    {| ps_pending_downloads := 0; ps_pending_updates := 0 |}.
Proof.
  split; [|..|reflexivity|vm_compute; reflexivity].
  - change (sync_with_peer _ _ _) with (ex_client_run ex_to_client).
    rewrite <-ex_client_result. apply surjective_pairing.
  - change (handle_sync_stream _ _ _ _ _ _) with (ex_server_run (ss_sent ex_after_client)).
    pose proof ex_server_result as Hr. unfold ex_after_server, ex_served.
    destruct (ex_server_run _) as [[[[]|e] [s|]] []]; done.
Qed.

Lemma session_synchronizes_witness :
  ms_manifest <$> as_manifest_cache (ss_share ex_after_client) = Some ex_merged ∧
  ss_tree ex_after_client !! [bs "d"] ≠ None ∧
  ∃ after_c after_s status,
    (manifest_snapshot (ss_share ex_after_client)).1 = Ok after_c ∧
    (manifest_snapshot (ss_share ex_after_server)).1 = Ok after_s ∧
    as_runtime_status (ss_share ex_after_server) = Some status ∧
    synchronized (from_validated ex_nothing) (from_validated ex_directory) after_c after_s 0
      (rs_pending_downloads status).
Proof.
  split; [vm_compute; reflexivity|]. split; [vm_compute; discriminate|].
  refine (session_synchronizes _ ex_client_env ex_server_env ex_registry ex_client_id ex_server_id
    (ex_tree_of [[]; [bs "d"]]) ∅ (ex_begin ex_to_client) ex_after_client ex_after_server
    {| ps_pending_downloads := 0; ps_pending_updates := 0 |} (from_validated ex_nothing)
    (from_validated ex_directory) ex_server_share ex_exchanged _ _ _ _ _ _ _ _ _).
  - intros k Hk. exists k. simpl. unfold bounded_reserve. by rewrite (proj2 (Z.leb_le k _)).
  - split; [intros snapshot Hs; discriminate Hs|reflexivity].
  - reflexivity.
  - reflexivity.
  - reflexivity.
  - apply lookup_singleton_eq.
  - split; [intros snapshot Hs; discriminate Hs|reflexivity].
  - vm_compute. reflexivity.
  - vm_compute. reflexivity.
  - intros p x y Hx. exfalso. revert Hx. clear. unfold record, ex_nothing. simpl. by rewrite !lookup_empty.
Defined.
