(* ===== verification/Connections.v ===== *)
(** * The connection pool (src/network/connection_cache.rs, src/network/transport.rs)

    The sessions of all shares take their streams from one pool of connections.  A
    peer's slot is shared through [Arc]s: the pool is modelled as a heap of slots, the
    map of the cache, and the tasks with the phase of [open_stream] each is in.  What a
    task holds in a phase (references, the lock of a slot, permits) is what is alive on
    its stack there, so reference counts and free permits are counted over the tasks.
    One action is what a task does between two points where it can wait.  Instants are
    milliseconds. *)

From S2P Require Import Prelude Collections Bytes External Reference Scheduling.

Definition MAX_CACHED_CONNECTIONS : Z := 32.
Definition MAX_CONNECTION_STREAMS : Z := 8.
Definition CONNECTION_IDLE_TIMEOUT : Z := 90000.
Definition MAX_CONCURRENT_DIALS : Z := 8.

Section pool.
Context `{Iroh}.
Implicit Types (peer : EndpointId) (now : Z) (i : nat).

(** ** State *)

Record Connection := { cn_stable_id : Z; cn_remote_id : EndpointId }.

Record PeerSlot := { sl_connection : option Connection; sl_last_used : Z }.

(** Where a task is in [open_stream]: before [connect]; with its slot, waiting for the
    lock of the connection; with the lock, waiting to dial; dialing; with a connection,
    waiting for a lease; opening a stream; in [invalidate] before [get] and after it;
    using the stream; at the end. *)
Inductive phase :=
| Starting
| Waiting (slot : nat)
| Locked (slot : nat)
| Dialing (slot : nat)
| Connected (slot : nat) (connection : Connection)
| Opening (slot : nat) (connection : Connection)
| Getting (slot : nat) (connection : Connection)
| Clearing (slot : nat) (connection : Connection) (cached : option nat)
| Streaming (slot : nat) (connection : Connection)
| Ended (r : result unit).

Record task := { tk_peer : EndpointId; tk_attempt : nat; tk_phase : phase }.

Record pool := {
  pl_slots : gmap nat PeerSlot;
  pl_peers : gmap EndpointId nat;
  pl_tasks : gmap nat task;
  pl_closed : gset Z;
  pl_endpoint_closed : bool;
}.
Implicit Types p : pool.

Definition ConnectionPool_default : pool := {|
  pl_slots := ∅; pl_peers := ∅; pl_tasks := ∅; pl_closed := ∅; pl_endpoint_closed := false |}.

(** The [Arc]s of slots, the slot whose lock is held, the dial permit, the slot of
    which a stream permit is held, and the connection of a phase. *)
Definition refs (ph : phase) : list nat :=
  match ph with
  | Starting | Ended _ => []
  | Waiting i | Locked i | Dialing i | Connected i _ | Opening i _ | Getting i _ | Streaming i _ => [i]
  | Clearing i _ cached => i :: option_list cached
  end.
Definition locks (ph : phase) : option nat :=
  match ph with Locked i | Dialing i => Some i | _ => None end.
Definition dials (ph : phase) : bool := match ph with Dialing _ => true | _ => false end.
Definition leases (ph : phase) : option nat :=
  match ph with
  | Opening i _ | Getting i _ | Clearing i _ _ | Streaming i _ => Some i
  | _ => None
  end.
Definition uses (ph : phase) : option Connection :=
  match ph with
  | Connected _ c | Opening _ c | Getting _ c | Clearing _ c _ | Streaming _ c => Some c
  | _ => None
  end.

(** How many tasks satisfy [f]. *)
Definition tasks_with (f : phase → bool) (tasks : gmap nat task) : Z :=
  Z.of_nat (size (filter (λ kt, f (tk_phase kt.2) = true) tasks)).

Definition is_slot (i : nat) (o : option nat) : bool := bool_decide (o = Some i).

(** [Arc::strong_count]: the entries of the map and the references of the tasks. *)
Definition strong_count p i : nat :=
  length (filter (.= i) (map snd (map_to_list (pl_peers p)))) +
  length (filter (.= i) (concat (map (λ kt, refs (tk_phase kt.2)) (map_to_list (pl_tasks p))))).
Definition locked p i : bool := 0 <? tasks_with (λ ph, is_slot i (locks ph)) (pl_tasks p).
Definition free_streams p i : Z :=
  MAX_CONNECTION_STREAMS - tasks_with (λ ph, is_slot i (leases ph)) (pl_tasks p).
Definition free_dials p : Z := MAX_CONCURRENT_DIALS - tasks_with dials (pl_tasks p).

(** [close_reason().is_some()]. *)
Definition is_closed p (c : Connection) : bool := bool_decide (cn_stable_id c ∈ pl_closed p).

Definition with_slots p (slots : gmap nat PeerSlot) : pool := {|
  pl_slots := slots; pl_peers := pl_peers p; pl_tasks := pl_tasks p; pl_closed := pl_closed p;
  pl_endpoint_closed := pl_endpoint_closed p |}.
Definition with_tasks p (tasks : gmap nat task) : pool := {|
  pl_slots := pl_slots p; pl_peers := pl_peers p; pl_tasks := tasks; pl_closed := pl_closed p;
  pl_endpoint_closed := pl_endpoint_closed p |}.
Definition with_cached p (slots : gmap nat PeerSlot) (peers : gmap EndpointId nat) (closed : gset Z)
    : pool := {|
  pl_slots := slots; pl_peers := peers; pl_tasks := pl_tasks p; pl_closed := closed;
  pl_endpoint_closed := pl_endpoint_closed p |}.

(** [Connection::close]. *)
Definition close_connection p (c : Connection) : pool :=
  with_cached p (pl_slots p) (pl_peers p) ({[cn_stable_id c]} ∪ pl_closed p).

(** ** Slots *)

Definition PeerSlot_default now : PeerSlot := {| sl_connection := None; sl_last_used := now |}.

(** [touch], and an assignment to the locked connection. *)
Definition touch p i now : pool :=
  with_slots p (alter (λ s, {| sl_connection := sl_connection s; sl_last_used := now |}) i (pl_slots p)).
Definition set_connection p i (c : option Connection) : pool :=
  with_slots p (alter (λ s, {| sl_connection := c; sl_last_used := sl_last_used s |}) i (pl_slots p)).

(** An entry leaves the map and its slot is closed: [try_unwrap] succeeds for the last
    reference, and the slot ends with its connection. *)
Definition remove_entry p peer i : pool :=
  let p' := with_cached p (pl_slots p) (delete peer (pl_peers p)) (pl_closed p) in
  if (strong_count p' i =? 0)%nat then
    let connection := pl_slots p !! i ≫= sl_connection in
    let p'' := with_slots p' (delete i (pl_slots p')) in
    match connection with Some c => close_connection p'' c | None => p'' end
  else p'.

(** The condition of [extract_if] in [reap]. *)
Definition reapable p now i : bool :=
  match pl_slots p !! i with
  | None => false
  | Some slot =>
      if negb (strong_count p i =? 1)%nat then false
      else if locked p i then false
      else match sl_connection slot with None => true | Some c => is_closed p c end
           || (CONNECTION_IDLE_TIMEOUT <=? elapsed_since now (sl_last_used slot))
  end.
Definition reap_entry now p (entry : EndpointId * nat) : pool :=
  if reapable p now entry.2 then remove_entry p entry.1 entry.2 else p.
Definition reap p now : pool := foldl (reap_entry now) p (map_to_list (pl_peers p)).

(** [iter().filter(..).min_by_key(..)]: the first of the least recently used slots that
    only the map refers to; [order] is the iteration order of the map. *)
Definition idle_since p peer : option Z :=
  i ← pl_peers p !! peer;
  slot ← pl_slots p !! i;
  if (strong_count p i =? 1)%nat then Some (sl_last_used slot) else None.
Definition older p (best : option (EndpointId * Z)) peer : option (EndpointId * Z) :=
  match idle_since p peer, best with
  | None, _ => best
  | Some t, None => Some (peer, t)
  | Some t, Some (_, t') => if t <? t' then Some (peer, t) else best
  end.
Definition oldest p (order : list EndpointId) : option EndpointId :=
  fst <$> foldl (older p) None order.

(** [ConnectionCache::get] and [ConnectionCache::slot]. *)
Definition get p peer : option nat := pl_peers p !! peer.

Definition make_room p (order : list EndpointId) : result pool :=
  if MAX_CACHED_CONNECTIONS <=? Z.of_nat (size (pl_peers p)) then
    peer ← ok_or (oldest p order) "connection pool is busy with active peers";
    Ok (match pl_peers p !! peer with Some i => remove_entry p peer i | None => p end)
  else Ok p.

Definition slot p peer now (order : list EndpointId) : result nat * pool :=
  let p := reap p now in
  match pl_peers p !! peer with
  | Some i => (Ok i, p)
  | None =>
      match make_room p order with
      | Err e => (Err e, p)
      | Ok p =>
          let i := fresh (dom (pl_slots p)) in
          (Ok i, with_cached p (<[i := PeerSlot_default now]> (pl_slots p))
                   (<[peer := i]> (pl_peers p)) (pl_closed p))
      end
  end.

(** ** Opening a stream *)

Definition set_phase p (t : nat) (k : task) (ph : phase) : pool :=
  with_tasks p (<[t := {| tk_peer := tk_peer k; tk_attempt := tk_attempt k; tk_phase := ph |}]> (pl_tasks p)).
Definition endpoint_closed : string := "Iroh endpoint is closed".

(** The actions of a task. *)
Inductive step :=
| Enter (now : Z) (order : list EndpointId)
| Acquire
| Dial
| Dialed (r : result Connection)
| Lease (now : Z)
| Expire
| Opened (r : result unit) (now : Z)
| Get
| Clear (now : Z)
| Finish (now : Z).

(** [connect] up to the lock of the connection. *)
Definition enter p t (k : task) now order : pool :=
  if pl_endpoint_closed p then set_phase p t k (Ended (Err endpoint_closed))
  else match slot p (tk_peer k) now order with
       | (Ok i, p) => set_phase p t k (Waiting i)
       | (Err e, p) => set_phase p t k (Ended (Err e))
       end.

(** The lock is free: a cached connection that is open is used, any other is dropped. *)
Definition acquire p t (k : task) i : option pool :=
  if locked p i then None
  else Some match pl_slots p !! i ≫= sl_connection with
            | Some c => if is_closed p c then set_phase (set_connection p i None) t k (Locked i)
                        else set_phase p t k (Connected i c)
            | None => set_phase (set_connection p i None) t k (Locked i)
            end.

Definition dial p t (k : task) i : option pool :=
  if free_dials p <=? 0 then None
  else Some (set_phase p t k
    (if pl_endpoint_closed p then Ended (Err endpoint_closed) else Dialing i)).

(** [r] is the outcome of [endpoint.connect] within its deadline. *)
Definition dialed p t (k : task) i (r : result Connection) : pool :=
  match r with
  | Err e => set_phase p t k (Ended (Err e))
  | Ok c =>
      if negb (bool_decide (cn_remote_id c = tk_peer k))
      then set_phase (close_connection p c) t k
             (Ended (Err "connected Iroh endpoint does not match the expected peer"))
      else set_phase (set_connection p i (Some c)) t k (Connected i c)
  end.

Definition lease p t (k : task) i c now : option pool :=
  if free_streams p i <=? 0 then None else Some (set_phase (touch p i now) t k (Opening i c)).

(** [r] is the outcome of [open_bi] within its deadline.  The lease is dropped on every path out of the attempt; [invalidate] runs before. *)
Definition opened p t (k : task) i c (r : result unit) now : pool :=
  match r with
  | Ok _ => set_phase p t k (Streaming i c)
  | Err e =>
      if (tk_attempt k =? 1)%nat || negb (is_closed p c)
      then set_phase (touch p i now) t k (Ended (Err e))
      else set_phase p t k (Getting i c)
  end.

Definition clear p t (k : task) i c (cached : option nat) now : option pool :=
  if match cached with Some j => locked p j | None => false end then None
  else
    let p :=
      match cached with
      | Some j =>
          match pl_slots p !! j ≫= sl_connection with
          | Some c' => if cn_stable_id c' =? cn_stable_id c then set_connection p j None else p
          | None => p
          end
      | None => p
      end in
    Some (set_phase (touch p i now) t
            {| tk_peer := tk_peer k; tk_attempt := S (tk_attempt k); tk_phase := tk_phase k |} Starting).

(** One step of a task; [None] if it has to wait or is elsewhere. *)
Definition task_step p t (k : task) (s : step) : option pool :=
  match tk_phase k, s with
  | Starting, Enter now order => Some (enter p t k now order)
  | Waiting i, Acquire => acquire p t k i
  | Locked i, Dial => dial p t k i
  | Dialing i, Dialed r => Some (dialed p t k i r)
  | Connected i c, Lease now => lease p t k i c now
  | Connected i c, Expire =>
      Some (set_phase p t k (Ended (Err (if pl_endpoint_closed p then endpoint_closed
                                         else "timed out waiting for peer stream capacity"))))
  | Opening i c, Opened r now => Some (opened p t k i c r now)
  | Getting i c, Get => Some (set_phase p t k (Clearing i c (get p (tk_peer k))))
  | Clearing i c cached, Clear now => clear p t k i c cached now
  | Streaming i c, Finish now => Some (set_phase (touch p i now) t k (Ended (Ok tt)))
  | _, _ => None
  end.

(** What can happen to the pool. *)
Inductive action :=
| Begin (t : nat) (peer : EndpointId)
| Step (t : nat) (s : step)
| Maintain (now : Z)
| Closes (c : Connection)
| CloseEndpoint.

Definition act p (a : action) : option pool :=
  match a with
  | Begin t peer =>
      match pl_tasks p !! t with
      | Some _ => None
      | None => Some (with_tasks p
          (<[t := {| tk_peer := peer; tk_attempt := 0; tk_phase := Starting |}]> (pl_tasks p)))
      end
  | Step t s => k ← pl_tasks p !! t; task_step p t k s
  | Maintain now => Some (reap p now)
  | Closes c => Some (close_connection p c)
  | CloseEndpoint => Some {|
      pl_slots := pl_slots p; pl_peers := pl_peers p; pl_tasks := pl_tasks p;
      pl_closed := pl_closed p; pl_endpoint_closed := true |}
  end.

Inductive reachable : pool → Prop :=
| reachable_default : reachable ConnectionPool_default
| reachable_act p a p' : reachable p → act p a = Some p' → reachable p'.

(** ** Invariant *)

Definition same_slot p peer i : Prop := pl_peers p !! peer = Some i.

(** A phase of a task for [peer]: its slot is the slot of the peer in the map, and its
    connection is one to the peer. *)
Definition phase_ok p peer (ph : phase) : Prop :=
  Forall (same_slot p peer) (refs ph) ∧ ∀ c, uses ph = Some c → cn_remote_id c = peer.

Record pool_ok p : Prop := {
  po_slots : ∀ peer i, same_slot p peer i → is_Some (pl_slots p !! i);
  po_inj : ∀ peer peer' i, same_slot p peer i → same_slot p peer' i → peer = peer';
  po_tasks : ∀ t k, pl_tasks p !! t = Some k → phase_ok p (tk_peer k) (tk_phase k);
  po_remote : ∀ peer i s c, same_slot p peer i → pl_slots p !! i = Some s →
    sl_connection s = Some c → cn_remote_id c = peer;
  po_size : Z.of_nat (size (pl_peers p)) ≤ MAX_CACHED_CONNECTIONS;
  po_streams : ∀ i, tasks_with (λ ph, is_slot i (leases ph)) (pl_tasks p) ≤ MAX_CONNECTION_STREAMS;
  po_dials : tasks_with dials (pl_tasks p) ≤ MAX_CONCURRENT_DIALS;
  po_locks : ∀ i, tasks_with (λ ph, is_slot i (locks ph)) (pl_tasks p) ≤ 1;
}.

(** Reference counts. *)
Lemma held_strong_count p peer i :
  same_slot p peer i → strong_count p i = 1%nat →
  (∀ t k, pl_tasks p !! t = Some k → i ∉ refs (tk_phase k)).
Proof.
  intros Hp Hc t k Ht Hi. unfold strong_count in Hc.
  assert (i ∈ filter (.= i) (map snd (map_to_list (pl_peers p)))) as H1.
  { apply list_elem_of_filter. split; [done|]. apply list_elem_of_fmap. exists (peer, i).
    by rewrite elem_of_map_to_list. }
  assert (i ∈ filter (.= i) (concat (map (λ kt, refs (tk_phase kt.2)) (map_to_list (pl_tasks p))))) as H2.
  { apply list_elem_of_filter. split; [done|]. apply list_elem_of_In, in_concat. exists (refs (tk_phase k)).
    split; [|by apply list_elem_of_In]. apply in_map_iff. exists (t, k). split; [done|].
    by apply list_elem_of_In, elem_of_map_to_list. }
  destruct (filter _ (map snd _)); [by apply not_elem_of_nil in H1|].
  destruct (filter _ (concat _)); [by apply not_elem_of_nil in H2|]. simpl in Hc. lia.
Qed.

(** Counting the tasks after one of them changed. *)
Lemma tasks_with_insert_le f tasks t (k : task) :
  tasks_with f (<[t := k]> tasks) ≤ tasks_with f tasks + 1.
Proof.
  unfold tasks_with. rewrite map_filter_insert. case_decide.
  - rewrite map_size_insert. destruct (filter _ tasks !! t); simpl; lia.
  - rewrite map_filter_delete. rewrite map_size_delete. destruct (filter _ tasks !! t); simpl; lia.
Qed.
Lemma tasks_with_insert f tasks t (k : task) :
  (f (tk_phase k) = true → ∃ k0, tasks !! t = Some k0 ∧ f (tk_phase k0) = true) →
  tasks_with f (<[t := k]> tasks) ≤ tasks_with f tasks.
Proof.
  intros Hk. unfold tasks_with. rewrite map_filter_insert. case_decide as Hf; simpl in Hf.
  - destruct (Hk Hf) as (k0 & Ht & Hf0). rewrite map_size_insert.
    rewrite (map_lookup_filter_Some_2 _ _ t k0) by done. simpl. lia.
  - rewrite map_filter_delete, map_size_delete. destruct (filter _ tasks !! t); simpl; lia.
Qed.

(** An entry without users can leave the map. *)
Lemma remove_entry_ok p peer i :
  pool_ok p → same_slot p peer i → strong_count p i = 1%nat →
  pool_ok (remove_entry p peer i) ∧ pl_peers (remove_entry p peer i) = delete peer (pl_peers p) ∧
  pl_tasks (remove_entry p peer i) = pl_tasks p.
Proof.
  intros [Hs Hinj Ht Hr Hsize Hst Hd Hl] Hp Hc.
  pose proof (held_strong_count p peer i Hp Hc) as Hheld.
  set (q := remove_entry p peer i).
  assert (Hpeers : pl_peers q = delete peer (pl_peers p)).
  { subst q. unfold remove_entry. destruct (_ =? 0)%nat; [|done]. by destruct (pl_slots p !! i ≫= _). }
  assert (Htasks : pl_tasks q = pl_tasks p).
  { subst q. unfold remove_entry. destruct (_ =? 0)%nat; [|done]. by destruct (pl_slots p !! i ≫= _). }
  assert (Hslots : ∀ j, j ≠ i → pl_slots q !! j = pl_slots p !! j).
  { intros j Hj. subst q. unfold remove_entry. destruct (_ =? 0)%nat; [|done].
    destruct (pl_slots p !! i ≫= _); simpl; by rewrite lookup_delete_ne. }
  assert (Hsame : ∀ q0 j, same_slot q q0 j ↔ q0 ≠ peer ∧ same_slot p q0 j).
  { intros q0 j. unfold same_slot. rewrite Hpeers, lookup_delete_Some. naive_solver. }
  assert (Hne : ∀ q0 j, same_slot q q0 j → j ≠ i).
  { intros q0 j [Hq0 Hj]%Hsame ->. by destruct Hq0; eapply Hinj. }
  split_and!; [|done..]. split.
  - intros q0 j Hj. rewrite Hslots by eauto. apply Hsame in Hj as [_ Hj]. eauto.
  - intros q0 q1 j [_ H0]%Hsame [_ H1]%Hsame. eauto.
  - rewrite Htasks. intros t k Hk. destruct (Ht t k Hk) as [Hrefs Huses]. split; [|done].
    rewrite Forall_forall in *. intros j Hj. apply Hsame. split; [|by apply Hrefs]. intros E.
    assert (j = i) as -> by (specialize (Hrefs j Hj); unfold same_slot in *; rewrite E in Hrefs; congruence).
    by eapply Hheld.
  - intros q0 j sl c Hj. rewrite Hslots by eauto. apply Hsame in Hj as [_ Hj]. by eapply Hr.
  - rewrite Hpeers, map_size_delete. destruct (pl_peers p !! peer); simpl in *; lia.
  - by rewrite Htasks.
  - by rewrite Htasks.
  - by rewrite Htasks.
Qed.

Lemma reapable_count p now i : reapable p now i = true → strong_count p i = 1%nat.
Proof.
  unfold reapable. destruct (pl_slots p !! i); [|done].
  destruct (strong_count p i =? 1)%nat eqn:E; [|done]. intros _. by apply Nat.eqb_eq.
Qed.

Lemma reap_entries_ok now entries p :
  pool_ok p → NoDup entries.*1 → Forall (λ e, same_slot p e.1 e.2) entries →
  let q := foldl (reap_entry now) p entries in
  pool_ok q ∧ pl_tasks q = pl_tasks p ∧ pl_peers q ⊆ pl_peers p.
Proof.
  revert p. induction entries as [|[peer i] entries IH]; intros p Hp Hnd He; [by split_and!|].
  apply NoDup_cons in Hnd as [Hni Hnd]. apply Forall_cons in He as [Hi He]. simpl in Hi. cbn [foldl].
  unfold reap_entry at 2 4 6. cbn [fst snd]. destruct (reapable p now i) eqn:Er; [|by apply IH].
  apply reapable_count in Er. destruct (remove_entry_ok p peer i Hp Hi Er) as (Hq & Hpeers & Htasks).
  destruct (IH (remove_entry p peer i) Hq Hnd) as (Hok & Ht & Hsub).
  - rewrite Forall_forall in *. intros e Hin. specialize (He e Hin). unfold same_slot in *.
    rewrite Hpeers, lookup_delete_ne; [done|]. intros ->. apply Hni. apply list_elem_of_fmap. by exists e.
  - split_and!; [done|congruence|]. etrans; [exact Hsub|]. rewrite Hpeers. apply delete_subseteq.
Qed.
Lemma reap_ok p now :
  pool_ok p → pool_ok (reap p now) ∧ pl_tasks (reap p now) = pl_tasks p ∧
  pl_peers (reap p now) ⊆ pl_peers p.
Proof.
  intros Hp. apply reap_entries_ok; [done|apply NoDup_fst_map_to_list|].
  apply Forall_forall. intros [peer i] Hi. by apply elem_of_map_to_list in Hi.
Qed.

(** The slot of a peer. *)
Lemma idle_since_Some p peer t :
  idle_since p peer = Some t → ∃ i s, same_slot p peer i ∧ pl_slots p !! i = Some s ∧
    strong_count p i = 1%nat ∧ sl_last_used s = t.
Proof.
  unfold idle_since, same_slot. destruct (pl_peers p !! peer) as [i|]; [|done]. simpl.
  destruct (pl_slots p !! i) as [s|] eqn:Es; [|done]. simpl.
  destruct (_ =? 1)%nat eqn:E; [|done]. intros [= <-]. apply Nat.eqb_eq in E. eauto 10.
Qed.

(** The entry that [min_by_key] finds: idle, and no idle entry is older. *)
Lemma older_fold p order best :
  (∀ q t, best = Some (q, t) → idle_since p q = Some t) →
  match foldl (older p) best order with
  | Some (q, t) => idle_since p q = Some t ∧
      (∀ q' t', q' ∈ order → idle_since p q' = Some t' → t ≤ t') ∧
      (∀ q' t', best = Some (q', t') → t ≤ t')
  | None => best = None ∧ ∀ q', q' ∈ order → idle_since p q' = None
  end.
Proof.
  revert best. induction order as [|x order IH]; intros best Hb; simpl.
  { destruct best as [[q t]|]; [|by split; [|intros ? ?%not_elem_of_nil]].
    split_and!; [by apply Hb|by intros ? ? ?%not_elem_of_nil|]. intros q' t' [= _ ->]. lia. }
  assert (Hb' : ∀ q t, older p best x = Some (q, t) → idle_since p q = Some t).
  { unfold older. intros q t. destruct (idle_since p x) as [tx|] eqn:Ex; [|by apply Hb].
    destruct best as [[q' t']|]; [destruct (tx <? t')|]; try (by intros [= <- <-]). by apply Hb. }
  specialize (IH _ Hb'). destruct (foldl (older p) (older p best x) order) as [[q t]|].
  - destruct IH as (Hq & Hall & Hbest). split; [done|].
    assert (Hx : ∀ t', idle_since p x = Some t' → t ≤ t').
    { intros t' Ex. unfold older in Hbest. rewrite Ex in Hbest. destruct best as [[q' u]|]; [|by eapply Hbest].
      destruct (t' <? u) eqn:E; [by eapply Hbest|]. bool_inv. specialize (Hbest _ _ eq_refl). lia. }
    split; [intros q' t' [->|Hin]%elem_of_cons; eauto|].
    intros q' t' ->. unfold older in Hbest. destruct (idle_since p x) as [tx|]; [|by eapply Hbest].
    destruct (tx <? t') eqn:E; [|by eapply Hbest]. bool_inv. specialize (Hbest _ _ eq_refl). lia.
  - destruct IH as [Hnone Hall]. unfold older in Hnone. destruct (idle_since p x) as [tx|] eqn:Ex.
    + by destruct best as [[q' t']|]; [destruct (tx <? t')|].
    + split; [done|]. intros q' [->|Hin]%elem_of_cons; auto.
Qed.

Lemma make_room_ok p order q :
  pool_ok p → make_room p order = Ok q →
  pool_ok q ∧ pl_tasks q = pl_tasks p ∧ pl_peers q ⊆ pl_peers p ∧
  Z.of_nat (size (pl_peers q)) < MAX_CACHED_CONNECTIONS.
Proof.
  intros Hp. unfold make_room. destruct (_ <=? _) eqn:E; bool_inv; [|by intros [= <-]].
  intros Hr. apply bind_Ok in Hr as (peer & Ho & [= <-]). apply ok_or_Ok in Ho. unfold oldest in Ho.
  pose proof (older_fold p order None ltac:(done)) as Hf.
  destruct (foldl (older p) None order) as [[q0 t]|]; [|done]. injection Ho as ->.
  destruct Hf as [(i & s & Hi & _ & Hc & _)%idle_since_Some _]. unfold same_slot in Hi. rewrite Hi.
  destruct (remove_entry_ok p peer i Hp Hi Hc) as (Hok & Hpeers & Htasks).
  split_and!; [done..|rewrite Hpeers; apply delete_subseteq|].
  rewrite Hpeers, map_size_delete, Hi. simpl. pose proof (po_size p Hp) as Hsize.
  assert (size (pl_peers p) ≠ 0%nat) by (intros E0%map_size_empty_inv; rewrite E0 in Hi; by rewrite lookup_empty in Hi).
  lia.
Qed.

Lemma slot_ok p peer now order r q :
  pool_ok p → slot p peer now order = (r, q) →
  pool_ok q ∧ pl_tasks q = pl_tasks p ∧ (∀ i, r = Ok i → same_slot q peer i).
Proof.
  intros Hp. unfold slot. destruct (reap_ok p now Hp) as (Hq & Htasks & _).
  set (p1 := reap p now) in *. destruct (pl_peers p1 !! peer) as [i|] eqn:Ei.
  { intros [= <- <-]. split_and!; [done..|]. by intros j [= <-]. }
  destruct (make_room p1 order) as [p2|] eqn:Er; [|intros [= <- <-]; by split_and!].
  destruct (make_room_ok p1 order p2 Hq Er) as ([Hs Hinj Ht Hrem Hsize Hst Hd Hl] & Htasks2 & Hsub & Hlt).
  intros [= <- <-]. set (i := fresh (dom (pl_slots p2))).
  assert (Hfresh : pl_slots p2 !! i = None) by (apply not_elem_of_dom, is_fresh).
  assert (Hnone : pl_peers p2 !! peer = None).
  { destruct (pl_peers p2 !! peer) as [j|] eqn:Ej; [|done]. by rewrite (lookup_weaken _ _ _ _ Ej Hsub) in Ei. }
  assert (Hold : ∀ q j, same_slot p2 q j → j ≠ i ∧ q ≠ peer).
  { intros q j Hj. split; intros ->; [|by unfold same_slot in Hj; rewrite Hnone in Hj].
    destruct (Hs _ _ Hj) as [? E]. by rewrite Hfresh in E. }
  split_and!; [|simpl; congruence|intros j [= <-]; apply lookup_insert_eq].
  split; unfold same_slot, phase_ok; simpl.
  - intros q j [[<- <-]|[_ Hj]]%lookup_insert_Some; [by rewrite lookup_insert_eq|].
    rewrite lookup_insert_ne by (intros ->; by destruct (Hold _ _ Hj)). by eapply Hs.
  - intros q q' j [[<- <-]|[_ Hj]]%lookup_insert_Some [[<- E]|[_ Hj']]%lookup_insert_Some;
      [done|by destruct (Hold _ _ Hj')|by destruct (Hold _ _ Hj)|by eapply Hinj].
  - intros t k Hk. destruct (Ht t k Hk) as [Hrefs Huses]. split; [|done].
    eapply Forall_impl; [exact Hrefs|]. intros j Hj. unfold same_slot in *. simpl.
    rewrite lookup_insert_ne; [done|]. by destruct (Hold _ _ Hj) as [_ ?].
  - intros q j sl c [[<- <-]|[_ Hj]]%lookup_insert_Some; [rewrite lookup_insert_eq; by intros [= <-]|].
    rewrite lookup_insert_ne by (intros ->; by destruct (Hold _ _ Hj)). by eapply Hrem.
  - rewrite map_size_insert, Hnone. simpl. lia.
  - done.
  - done.
  - done.
Qed.

(** A task may take up a phase: nothing it gains there exceeds a limit. *)
Definition room p (t : nat) (ph : phase) (f : phase → bool) (limit : Z) : Prop :=
  f ph = true →
  (∃ k, pl_tasks p !! t = Some k ∧ f (tk_phase k) = true) ∨ tasks_with f (pl_tasks p) < limit.

Lemma room_bound p t k f limit :
  room p t (tk_phase k) f limit → tasks_with f (pl_tasks p) ≤ limit →
  tasks_with f (<[t := k]> (pl_tasks p)) ≤ limit.
Proof.
  intros Hr Hb. destruct (f (tk_phase k)) eqn:E.
  - destruct (Hr E) as [Hold|Hlt]; [|pose proof (tasks_with_insert_le f (pl_tasks p) t k); lia].
    pose proof (tasks_with_insert f (pl_tasks p) t k (λ _, Hold)). lia.
  - pose proof (tasks_with_insert f (pl_tasks p) t k) as Hle. rewrite E in Hle. specialize (Hle ltac:(done)). lia.
Qed.

Lemma set_task_ok p t k :
  pool_ok p → phase_ok p (tk_peer k) (tk_phase k) →
  (∀ i, room p t (tk_phase k) (λ ph, is_slot i (leases ph)) MAX_CONNECTION_STREAMS) →
  room p t (tk_phase k) dials MAX_CONCURRENT_DIALS →
  (∀ i, room p t (tk_phase k) (λ ph, is_slot i (locks ph)) 1) →
  pool_ok (with_tasks p (<[t := k]> (pl_tasks p))).
Proof.
  intros [Hs Hinj Ht Hr Hsize Hst Hd Hl] Hk Rst Rd Rl. split; simpl; try done.
  - intros t' k' [[<- <-]|[_ Hk']]%lookup_insert_Some; [done|]. by apply (Ht t' k').
  - intros i. by apply room_bound.
  - by apply room_bound.
  - intros i. by apply room_bound.
Qed.

(** What a phase holds beyond the phase before it. *)
Definition gains (old new : phase) : Prop :=
  (leases new = None ∨ leases new = leases old) ∧
  (dials new = false ∨ dials old = true) ∧
  (locks new = None ∨ locks new = locks old).

Lemma set_phase_ok p t k k' ph :
  pool_ok p → pl_tasks p !! t = Some k → tk_peer k' = tk_peer k → phase_ok p (tk_peer k) ph →
  gains (tk_phase k) ph → pool_ok (set_phase p t k' ph).
Proof.
  intros Hp Ht Epeer Hph (Hlease & Hdial & Hlock). apply set_task_ok; simpl; rewrite ?Epeer; try done.
  - intros i Hi. left. exists k. split; [done|]. by destruct Hlease as [E|E]; rewrite E in Hi.
  - intros Hi. left. exists k. split; [done|]. destruct Hdial as [E|E]; congruence.
  - intros i Hi. left. exists k. split; [done|]. by destruct Hlock as [E|E]; rewrite E in Hi.
Qed.

(** A change of the slots that keeps the domain and stores connections of their peers. *)
Lemma with_slots_ok p (f : PeerSlot → PeerSlot) i :
  pool_ok p →
  (∀ peer s c, same_slot p peer i → pl_slots p !! i = Some s → sl_connection (f s) = Some c →
    cn_remote_id c = peer) →
  pool_ok (with_slots p (alter f i (pl_slots p))).
Proof.
  intros [Hs Hinj Ht Hr Hsize Hst Hd Hl] Hf. split; simpl; try done.
  - intros peer j Hj. apply lookup_alter_is_Some. by eapply Hs.
  - intros peer j s c Hj [[<- (s0 & Hs0 & ->)]|[_ Hs0]]%lookup_alter_Some; [by apply Hf|by eapply Hr].
Qed.
Lemma touch_ok p i now : pool_ok p → pool_ok (touch p i now).
Proof. intros Hp. apply with_slots_ok; [done|]. intros peer s c Hi Hs Hc. by eapply po_remote. Qed.
Lemma set_connection_ok p i c :
  pool_ok p → (∀ peer c', same_slot p peer i → c = Some c' → cn_remote_id c' = peer) →
  pool_ok (set_connection p i c).
Proof. intros Hp Hc. apply with_slots_ok; [done|]. intros peer s c' Hi _ Hc'. by eapply Hc. Qed.
Lemma close_connection_ok p c : pool_ok p → pool_ok (close_connection p c).
Proof. by intros [Hs Hinj Ht Hr Hsize Hst Hd Hl]. Qed.

Lemma locked_false p i :
  locked p i = false → tasks_with (λ ph, is_slot i (locks ph)) (pl_tasks p) < 1.
Proof. unfold locked. intros E. bool_inv. lia. Qed.

Lemma acquire_ok p t k i q :
  pool_ok p → pl_tasks p !! t = Some k → tk_phase k = Waiting i → acquire p t k i = Some q → pool_ok q.
Proof.
  intros Hp Ht Ek. unfold acquire. destruct (locked p i) eqn:El; [done|]. apply locked_false in El.
  pose proof (po_tasks p Hp t k Ht) as [Hrefs _]. rewrite Ek in Hrefs.
  assert (Hlocked : pool_ok (set_phase (set_connection p i None) t k (Locked i))).
  { apply set_task_ok; simpl; [by apply set_connection_ok|by split| | |].
    - intros j Hj. by apply bool_decide_eq_true in Hj.
    - done.
    - intros j Hj. apply bool_decide_eq_true in Hj as [= ->]. by right. }
  destruct (pl_slots p !! i ≫= sl_connection) as [c|] eqn:Ec; [|by intros [= <-]].
  destruct (is_closed p c); intros [= <-]; [done|].
  eapply set_phase_ok; try done; [|by repeat split; auto]. split; [done|]. intros c' [= <-].
  apply (Forall_inv (l := [])) in Hrefs. apply bind_Some in Ec as (s & Hs & Hc). exact (po_remote p Hp _ _ _ _ Hrefs Hs Hc).
Qed.

Lemma dial_ok p t k i q :
  pool_ok p → pl_tasks p !! t = Some k → tk_phase k = Locked i → dial p t k i = Some q → pool_ok q.
Proof.
  intros Hp Ht Ek. unfold dial. destruct (free_dials p <=? 0) eqn:Ef; [done|]. intros [= <-].
  pose proof (po_tasks p Hp t k Ht) as [Hrefs _]. rewrite Ek in Hrefs.
  destruct (pl_endpoint_closed p).
  { eapply set_phase_ok; [done..|by split|by repeat split; auto]. }
  apply set_task_ok; simpl; [done|by split| | |].
  - intros j Hj. by apply bool_decide_eq_true in Hj.
  - intros _. right. unfold free_dials in Ef. bool_inv. lia.
  - intros j Hj. left. exists k. by rewrite Ek.
Qed.

Lemma dialed_ok p t k i r :
  pool_ok p → pl_tasks p !! t = Some k → tk_phase k = Dialing i → pool_ok (dialed p t k i r).
Proof.
  intros Hp Ht Ek. pose proof (po_tasks p Hp t k Ht) as [Hrefs _]. rewrite Ek in Hrefs.
  unfold dialed. destruct r as [c|]; [|eapply set_phase_ok; [done..|by split|by repeat split; auto]].
  destruct (negb _) eqn:Er; bool_inv.
  - eapply set_phase_ok; [by apply close_connection_ok|done..|by split|by repeat split; auto].
  - apply (Forall_inv (l := [])) in Hrefs.
    eapply set_phase_ok; [|done..| |by repeat split; auto].
    + apply set_connection_ok; [done|]. intros peer c' Hi [= <-]. rewrite Er.
      by eapply po_inj.
    + split; [by apply Forall_singleton|]. by intros c' [= <-].
Qed.

Lemma enter_ok p t k now order :
  pool_ok p → pl_tasks p !! t = Some k → tk_phase k = Starting → pool_ok (enter p t k now order).
Proof.
  intros Hp Ht Ek. unfold enter. destruct (pl_endpoint_closed p).
  { eapply set_phase_ok; [done..|by split|by repeat split; auto]. }
  destruct (slot p (tk_peer k) now order) as [r q] eqn:Es.
  apply slot_ok in Es as (Hq & Htasks & Hi); [|done]. rewrite <-Htasks in Ht.
  destruct r as [i|e]; eapply set_phase_ok; try done; try (by repeat split; auto).
  split; [|done]. apply Forall_singleton. by apply Hi.
Qed.

Lemma lease_ok p t k i c now q :
  pool_ok p → pl_tasks p !! t = Some k → tk_phase k = Connected i c →
  lease p t k i c now = Some q → pool_ok q.
Proof.
  intros Hp Ht Ek. unfold lease. destruct (free_streams p i <=? 0) eqn:Ef; [done|]. intros [= <-].
  pose proof (po_tasks p Hp t k Ht) as Hk. rewrite Ek in Hk.
  apply set_task_ok; simpl; [by apply touch_ok|done| | |].
  - intros j Hj. apply bool_decide_eq_true in Hj as [= ->]. right. unfold free_streams in Ef. bool_inv. simpl. lia.
  - done.
  - intros j Hj. by apply bool_decide_eq_true in Hj.
Qed.

(** The phases after the lease keep its slot and connection. *)
Lemma leased_phase_ok p t k i c ph :
  pool_ok p → pl_tasks p !! t = Some k → refs (tk_phase k) = [i] → uses (tk_phase k) = Some c →
  refs ph ⊆ [i] → (uses ph = None ∨ uses ph = Some c) → phase_ok p (tk_peer k) ph.
Proof.
  intros Hp Ht Er Eu Hr Hu. destruct (po_tasks p Hp t k Ht) as [Hrefs Huses]. rewrite Er in Hrefs.
  split; [|intros c' Hc'; apply Huses; destruct Hu as [E|E]; congruence].
  rewrite Forall_forall in *. auto.
Qed.

Lemma opened_ok p t k i c r now :
  pool_ok p → pl_tasks p !! t = Some k → tk_phase k = Opening i c → pool_ok (opened p t k i c r now).
Proof.
  intros Hp Ht Ek.
  assert (Hph : ∀ ph, refs ph ⊆ [i] → uses ph = None ∨ uses ph = Some c → phase_ok p (tk_peer k) ph).
  { intros ph. eapply leased_phase_ok; [done..|by rewrite Ek|by rewrite Ek]. }
  unfold opened. destruct r as [[]|e]; [|destruct (_ || _)].
  - eapply set_phase_ok; [done..|by apply Hph; auto|rewrite Ek; by repeat split; auto].
  - eapply set_phase_ok; [by apply touch_ok|done..|by split|by repeat split; auto].
  - eapply set_phase_ok; [done..|by apply Hph; auto|rewrite Ek; by repeat split; auto].
Qed.

Lemma clear_ok p t k i c cached now q :
  pool_ok p → pl_tasks p !! t = Some k → clear p t k i c cached now = Some q → pool_ok q.
Proof.
  intros Hp Ht. unfold clear. destruct (match cached with Some _ => _ | None => _ end); [done|].
  intros [= <-]. apply (set_phase_ok _ t k); [apply touch_ok| |done|by split|by repeat split; auto].
  - destruct cached as [j|]; [|done]. destruct (pl_slots p !! j ≫= sl_connection); [|done].
    destruct (_ =? _); [by apply set_connection_ok|done].
  - destruct cached as [j|]; [|exact Ht]. destruct (pl_slots p !! j ≫= sl_connection); [|exact Ht].
    by destruct (_ =? _).
Qed.

Lemma task_step_ok p t k s q :
  pool_ok p → pl_tasks p !! t = Some k → task_step p t k s = Some q → pool_ok q.
Proof.
  intros Hp Ht. unfold task_step. destruct (tk_phase k) as [|i|i|i|i c|i c|i c|i c cached|i c|r] eqn:Ek;
    destruct s; try done; intros E; try (injection E as <-).
  - by apply enter_ok.
  - by eapply acquire_ok.
  - by eapply dial_ok.
  - by apply dialed_ok.
  - by eapply lease_ok.
  - eapply set_phase_ok; [done..|by split|by repeat split; auto].
  - by apply opened_ok.
  - pose proof (po_tasks p Hp t k Ht) as [Hrefs Huses]. rewrite Ek in Hrefs, Huses.
    eapply set_phase_ok; [done..| |rewrite Ek; by repeat split; auto]. split; [|done]. simpl.
    apply Forall_cons. split; [by apply (Forall_inv (l := [])) in Hrefs|].
    unfold get. destruct (pl_peers p !! tk_peer k) as [j|] eqn:Ej; [by apply Forall_singleton|by apply Forall_nil].
  - by eapply clear_ok.
  - eapply set_phase_ok; [by apply touch_ok|done..|by split|by repeat split; auto].
Qed.

Lemma act_ok p a q : pool_ok p → act p a = Some q → pool_ok q.
Proof.
  intros Hp. destruct a as [t peer|t s|now|c|]; simpl.
  - destruct (pl_tasks p !! t) eqn:Et; [done|]. intros [= <-].
    apply set_task_ok; simpl; [done|by split|by intros i ?%bool_decide_eq_true|done|by intros i ?%bool_decide_eq_true].
  - destruct (pl_tasks p !! t) as [k|] eqn:Et; [|done]. simpl. by apply task_step_ok.
  - intros [= <-]. by apply reap_ok.
  - intros [= <-]. by apply close_connection_ok.
  - intros [= <-]. by destruct Hp.
Qed.

Lemma pool_ok_default : pool_ok ConnectionPool_default.
Proof.
  split; unfold same_slot; simpl; try done; intros *; rewrite ?lookup_empty; try done.
Qed.

Lemma reachable_ok p : reachable p → pool_ok p.
Proof. induction 1; [apply pool_ok_default|by eapply act_ok]. Qed.

(** ** Termination *)

(** A sequence of actions. *)
Fixpoint run p (actions : list action) : option pool :=
  match actions with
  | [] => Some p
  | a :: actions => q ← act p a; run q actions
  end.
Lemma run_reachable p actions q : reachable p → run p actions = Some q → reachable q.
Proof.
  revert p. induction actions as [|a actions IH]; intros p Hp; simpl; [by intros [= <-]|].
  destruct (act p a) as [p1|] eqn:E; [|done]. simpl. apply IH. by econstructor.
Qed.

(** The steps a task has left in its attempt, and in [open_stream] as a whole. *)
Definition phase_rank (ph : phase) : nat :=
  match ph with
  | Starting => 9 | Waiting _ => 8 | Locked _ => 7 | Dialing _ => 6 | Connected _ _ => 5
  | Opening _ _ => 4 | Getting _ _ => 3 | Clearing _ _ _ => 2 | Streaming _ _ => 1 | Ended _ => 0
  end.
Definition task_rank (k : task) : nat := phase_rank (tk_phase k) + 10 * (1 - tk_attempt k).

(** The second attempt is the last: it ends before [invalidate]. *)
Definition attempt_ok (k : task) : Prop :=
  (tk_attempt k ≤ 1)%nat ∧
  match tk_phase k with Getting _ _ | Clearing _ _ _ => tk_attempt k = 0%nat | _ => True end.
Definition attempts_ok p : Prop := ∀ t k, pl_tasks p !! t = Some k → attempt_ok k.

(** What a step does to its own task; the other tasks keep theirs. *)
Definition steps_down p p' (t : nat) (k : task) : Prop :=
  ∃ k', pl_tasks p' = <[t := k']> (pl_tasks p) ∧ attempt_ok k' ∧ (task_rank k' < task_rank k)%nat.

Lemma set_phase_down p q t k ph :
  attempt_ok k → pl_tasks q = pl_tasks p → (phase_rank ph < phase_rank (tk_phase k))%nat →
  match ph with Getting _ _ | Clearing _ _ _ => tk_attempt k = 0%nat | _ => True end →
  steps_down p (set_phase q t k ph) t k.
Proof.
  intros Hk Hq Hr Ha. eexists. split; [simpl; by rewrite Hq|]. split.
  - destruct Hk as [Hle _]. by split.
  - unfold task_rank. simpl. lia.
Qed.

Lemma reap_tasks p now : pl_tasks (reap p now) = pl_tasks p.
Proof.
  unfold reap. generalize (map_to_list (pl_peers p)). intros entries. revert p.
  induction entries as [|[peer i] entries IH]; intros p; [done|]. cbn [foldl]. rewrite IH.
  unfold reap_entry, remove_entry. destruct (reapable p now _); [|done].
  destruct (_ =? 0)%nat; [|done]. by destruct (pl_slots p !! _ ≫= _).
Qed.
Lemma slot_tasks p peer now order : pl_tasks (slot p peer now order).2 = pl_tasks p.
Proof.
  unfold slot. rewrite <-(reap_tasks p now). set (q := reap p now). destruct (pl_peers q !! peer); [done|].
  unfold make_room. destruct (_ <=? _); [|done]. destruct (oldest q order) as [old|]; [|done]. simpl.
  destruct (pl_peers q !! old) as [i|]; [|done]. unfold remove_entry. destruct (_ =? 0)%nat; [|done].
  by destruct (pl_slots q !! i ≫= _).
Qed.

Lemma task_step_down p t k s p' :
  attempt_ok k → task_step p t k s = Some p' → steps_down p p' t k.
Proof.
  intros Hk. unfold task_step. destruct (tk_phase k) as [|i|i|i|i c|i c|i c|i c cached|i c|r] eqn:Ek;
    destruct s; try done; intros E; try (injection E as <-).
  - unfold enter. destruct (pl_endpoint_closed p); [apply set_phase_down; rewrite ?Ek; simpl; auto with lia|].
    pose proof (slot_tasks p (tk_peer k) now order) as Hs. destruct (slot _ _ _ _) as [[j|e] q]; simpl in Hs;
      apply set_phase_down; rewrite ?Ek; simpl; auto with lia.
  - unfold acquire in E. destruct (locked p i); [done|].
    destruct (pl_slots p !! i ≫= _) as [c|]; [destruct (is_closed p c)|]; injection E as <-;
      apply set_phase_down; rewrite ?Ek; simpl; auto with lia.
  - unfold dial in E. destruct (_ <=? _); [done|]. injection E as <-.
    destruct (pl_endpoint_closed p); apply set_phase_down; rewrite ?Ek; simpl; auto with lia.
  - unfold dialed. destruct r as [c|]; [destruct (negb _)|]; apply set_phase_down; rewrite ?Ek; simpl; auto with lia.
  - unfold lease in E. destruct (_ <=? _); [done|]. injection E as <-.
    apply set_phase_down; rewrite ?Ek; simpl; auto with lia.
  - apply set_phase_down; rewrite ?Ek; simpl; auto with lia.
  - unfold opened. destruct r as [u|e]; [apply set_phase_down; rewrite ?Ek; simpl; auto with lia|].
    destruct (tk_attempt k =? 1)%nat eqn:Ea; [apply set_phase_down; rewrite ?Ek; simpl; auto with lia|].
    apply Nat.eqb_neq in Ea. destruct Hk as [Hle Hm]. assert (tk_attempt k = 0%nat) by lia.
    destruct (negb _); apply set_phase_down; rewrite ?Ek; simpl; try done; try lia; by split; rewrite ?Ek.
  - destruct Hk as [Hle Hm]. rewrite Ek in Hm.
    apply set_phase_down; rewrite ?Ek; simpl; try done; try lia; by split; rewrite ?Ek.
  - unfold clear in E. destruct (match cached with Some _ => _ | None => _ end); [done|]. injection E as <-.
    destruct Hk as [Hle Hm]. rewrite Ek in Hm. eexists. split; [|split].
    + simpl. f_equal. destruct cached as [j|]; [|done]. destruct (pl_slots p !! j ≫= _); [|done].
      by destruct (_ =? _).
    + split; simpl; [lia|done].
    + unfold task_rank. simpl. rewrite Ek, Hm. simpl. lia.
  - apply set_phase_down; rewrite ?Ek; simpl; auto with lia.
Qed.

(** The steps of one task in a sequence of actions. *)
Definition is_step_of (t : nat) (a : action) : bool :=
  match a with Step t' _ => (t' =? t)%nat | _ => false end.
Definition steps_of (t : nat) (actions : list action) : nat := length (List.filter (is_step_of t) actions).

(** What a task has left; a task that does not exist yet has the most. *)
Definition rank_of p (t : nat) : nat := from_option task_rank 19%nat (pl_tasks p !! t).

Lemma act_rank p a q t :
  attempts_ok p → act p a = Some q →
  attempts_ok q ∧ (rank_of q t + (if is_step_of t a then 1 else 0) ≤ rank_of p t)%nat.
Proof.
  intros Hp. destruct a as [t' peer|t' s|now|c|]; simpl.
  - destruct (pl_tasks p !! t') eqn:Et; [done|]. intros [= <-]. split.
    + intros t0 k. simpl. intros [[<- <-]|[_ Hk]]%lookup_insert_Some; [by split; simpl; [lia|]|by eapply Hp].
    + unfold rank_of. simpl. destruct (decide (t = t')) as [->|Hne].
      * rewrite lookup_insert_eq, Et. simpl. unfold task_rank. simpl. lia.
      * rewrite lookup_insert_ne by done. lia.
  - destruct (pl_tasks p !! t') as [k|] eqn:Et; [|done]. simpl. intros E.
    apply task_step_down in E as (k' & Hq & Hk' & Hlt); [|by eapply Hp]. split.
    + intros t0 k0. rewrite Hq. intros [[<- <-]|[_ Hk]]%lookup_insert_Some; [done|by eapply Hp].
    + unfold rank_of. rewrite Hq. destruct (Nat.eqb_spec t' t) as [->|Hne].
      * rewrite lookup_insert_eq, Et. simpl. lia.
      * rewrite lookup_insert_ne by done. lia.
  - intros [= <-]. unfold attempts_ok, rank_of. rewrite reap_tasks. split; [done|lia].
  - intros [= <-]. split; [done|]. unfold rank_of. simpl. lia.
  - intros [= <-]. split; [done|]. unfold rank_of. simpl. lia.
Qed.

Lemma run_rank p actions q t :
  attempts_ok p → run p actions = Some q →
  attempts_ok q ∧ (rank_of q t + steps_of t actions ≤ rank_of p t)%nat.
Proof.
  revert p. induction actions as [|a actions IH]; intros p Hp; simpl.
  { intros [= <-]. unfold steps_of. simpl. split; [done|lia]. }
  destruct (act p a) as [p1|] eqn:E; [|done]. simpl. intros Hrun.
  apply (act_rank p a p1 t Hp) in E as [Hp1 Hle]. destruct (IH p1 Hp1 Hrun) as [Hq Hle'].
  split; [done|]. unfold steps_of in *. simpl. destruct (is_step_of t a); simpl; lia.
Qed.

(** ** Waiting *)

Lemma tasks_with_pos f tasks :
  0 < tasks_with f tasks → ∃ t k, tasks !! t = Some k ∧ f (tk_phase k) = true.
Proof.
  unfold tasks_with. intros Hpos. destruct (decide (filter (λ kt : nat * task, f (tk_phase kt.2) = true) tasks = ∅)) as [E|E].
  { rewrite E, map_size_empty in Hpos. lia. }
  apply map_choose in E as (t & k & [Ht Hf]%map_lookup_filter_Some). eauto.
Qed.

(** Whoever waits for the lock of a slot waits for a task that can go on. *)
Lemma locked_can_step p i :
  locked p i = true → ∃ t s p', act p (Step t s) = Some p'.
Proof.
  unfold locked. intros Hl. bool_inv. apply tasks_with_pos in Hl as (t & k & Ht & Hk).
  apply bool_decide_eq_true in Hk. simpl. destruct (free_dials p <=? 0) eqn:Ef.
  - unfold free_dials in Ef. bool_inv.
    destruct (tasks_with_pos dials (pl_tasks p)) as (t' & k' & Ht' & Hd); [unfold MAX_CONCURRENT_DIALS in Ef; lia|].
    exists t', (Dialed (Err "")). rewrite Ht'. simpl. unfold task_step.
    destruct (tk_phase k'); try done. eauto.
  - destruct (tk_phase k) as [|j|j|j| | | | | |] eqn:Ek; try done.
    + exists t, Dial. rewrite Ht. simpl. unfold task_step. rewrite Ek. unfold dial. rewrite Ef. eauto.
    + exists t, (Dialed (Err "")). rewrite Ht. simpl. unfold task_step. rewrite Ek. eauto.
Qed.

Lemma unfinished_can_step p t k :
  pl_tasks p !! t = Some k → (∀ r, tk_phase k ≠ Ended r) → ∃ t' s p', act p (Step t' s) = Some p'.
Proof.
  intros Ht Hk.
  assert (Hstep : ∀ s q, task_step p t k s = Some q → ∃ t' s p', act p (Step t' s) = Some p').
  { intros s q Hs. exists t, s, q. simpl. by rewrite Ht. }
  unfold task_step in Hstep.
  destruct (tk_phase k) as [|i|i|i|i c|i c|i c|i c cached|i c|r] eqn:Ek.
  - by eapply (Hstep (Enter 0 [])).
  - destruct (locked p i) eqn:El; [by eapply locked_can_step|].
    eapply (Hstep Acquire). unfold acquire. by rewrite El.
  - destruct (locked p i) eqn:El; [by eapply locked_can_step|]. unfold locked in El. bool_inv.
    exfalso. enough (0 < tasks_with (λ ph, is_slot i (locks ph)) (pl_tasks p)) by lia.
    unfold tasks_with. assert (size (filter (λ kt : nat * task, is_slot i (locks (tk_phase kt.2)) = true) (pl_tasks p)) ≠ 0%nat); [|lia].
    intros E%map_size_empty_inv. assert (filter (λ kt : nat * task, is_slot i (locks (tk_phase kt.2)) = true) (pl_tasks p) !! t = Some k) as Hx.
    { apply map_lookup_filter_Some. split; [done|]. simpl. rewrite Ek. by apply bool_decide_eq_true. }
    by rewrite E, lookup_empty in Hx.
  - by eapply (Hstep (Dialed (Err ""))).
  - by eapply (Hstep Expire).
  - by eapply (Hstep (Opened (Ok tt) 0)).
  - by eapply (Hstep Get).
  - destruct cached as [j|]; [|by eapply (Hstep (Clear 0))].
    destruct (locked p j) eqn:El; [by eapply locked_can_step|].
    eapply (Hstep (Clear 0)). unfold clear. by rewrite El.
  - by eapply (Hstep (Finish 0)).
  - by destruct (Hk r).
Qed.

(** ** Who uses a slot *)

Lemma shared_slot p peer i :
  pool_ok p → same_slot p peer i → strong_count p i ≠ 1%nat →
  ∃ t k, pl_tasks p !! t = Some k ∧ i ∈ refs (tk_phase k).
Proof.
  intros Hp Hi Hc. unfold strong_count in Hc.
  set (all := concat (map (λ kt, refs (tk_phase kt.2)) (map_to_list (pl_tasks p)))) in *.
  destruct (decide (i ∈ all)) as [Hin|Hni].
  { apply list_elem_of_In, in_concat in Hin as (rs & [[t k] [<- Hin]]%in_map_iff & Hrs).
    apply list_elem_of_In, elem_of_map_to_list in Hin. exists t, k. split; [done|]. by apply list_elem_of_In. }
  exfalso. apply Hc.
  assert (filter (.= i) all = []) as ->.
  { apply elem_of_nil_inv. intros x [-> Hx]%list_elem_of_filter. done. }
  assert (Hnd : NoDup (map snd (map_to_list (pl_peers p)))).
  { apply NoDup_fmap_2_strong; [|apply NoDup_map_to_list]. intros [q1 j1] [q2 j2] Hq1 Hq2 Hj. cbn [snd] in Hj. subst j2.
    apply elem_of_map_to_list in Hq1, Hq2. f_equal. by eapply (po_inj p Hp). }
  apply (NoDup_filter (.= i)) in Hnd.
  assert (Hmem : i ∈ filter (.= i) (map snd (map_to_list (pl_peers p)))).
  { apply list_elem_of_filter. split; [done|]. apply list_elem_of_fmap. exists (peer, i).
    by rewrite elem_of_map_to_list. }
  destruct (filter _ _) as [|x [|y l]] eqn:E; [by apply not_elem_of_nil in Hmem|done|].
  assert (Hall : ∀ z, z ∈ x :: y :: l → z = i) by (intros z; rewrite <-E; by intros [? _]%list_elem_of_filter).
  assert (x = i ∧ y = i) as [-> ->] by (split; apply Hall; [left|right; left]).
  apply NoDup_cons in Hnd as [Hnot _]. by destruct Hnot; left.
Qed.

(** ** Properties *)

(** The streams of a peer. *)
Definition streams_to p peer : Z :=
  Z.of_nat (size (filter (λ kt, tk_peer kt.2 = peer ∧ is_Some (leases (tk_phase kt.2))) (pl_tasks p))).

Lemma streams_to_bound p peer : pool_ok p → streams_to p peer ≤ MAX_CONNECTION_STREAMS.
Proof.
  intros Hp. unfold streams_to.
  set (mine := filter (λ kt : nat * task, tk_peer kt.2 = peer ∧ is_Some (leases (tk_phase kt.2))) (pl_tasks p)).
  destruct (decide (mine = ∅)) as [E|E]; [rewrite E, map_size_empty; done|].
  apply map_choose in E as (t & k & [Ht [Hk [i Hi]]]%map_lookup_filter_Some). simpl in Hk, Hi.
  assert (Hslot : ∀ t k j, pl_tasks p !! t = Some k → leases (tk_phase k) = Some j → same_slot p (tk_peer k) j).
  { intros t' k' j Ht' Hj. destruct (po_tasks p Hp t' k' Ht') as [Hr _]. rewrite Forall_forall in Hr.
    apply Hr. destruct (tk_phase k'); simplify_eq/=; set_solver. }
  etrans; [|apply (po_streams p Hp i)]. unfold tasks_with. apply inj_le, map_subseteq_size.
  apply map_subseteq_spec. intros t' k' [Ht' [Hk' [j Hj]]]%map_lookup_filter_Some.
  apply map_lookup_filter_Some. split; [done|]. simpl in *. apply bool_decide_eq_true. rewrite Hj. f_equal.
  pose proof (Hslot _ _ _ Ht Hi) as H1. pose proof (Hslot _ _ _ Ht' Hj) as H2.
  unfold same_slot in *. congruence.
Qed.

Lemma one_lock p t1 t2 k1 k2 i :
  pool_ok p → pl_tasks p !! t1 = Some k1 → pl_tasks p !! t2 = Some k2 →
  locks (tk_phase k1) = Some i → locks (tk_phase k2) = Some i → t1 = t2.
Proof.
  intros Hp H1 H2 L1 L2. destruct (decide (t1 = t2)) as [|Hne]; [done|]. exfalso.
  pose proof (po_locks p Hp i) as Hle. unfold tasks_with in Hle.
  set (F := filter (λ kt : nat * task, is_slot i (locks (tk_phase kt.2)) = true) (pl_tasks p)) in *.
  assert (HF : ∀ t k, pl_tasks p !! t = Some k → locks (tk_phase k) = Some i → F !! t = Some k).
  { intros t k Ht Hk. apply map_lookup_filter_Some. split; [done|]. by apply bool_decide_eq_true. }
  assert (Hsub : <[t1 := k1]> ({[t2 := k2]} : gmap nat task) ⊆ F).
  { apply insert_subseteq_l; [by apply HF|]. apply map_singleton_subseteq_l. by apply HF. }
  apply map_subseteq_size in Hsub. rewrite map_size_insert_None in Hsub by by rewrite lookup_singleton_ne.
  rewrite map_size_singleton in Hsub. lia.
Qed.

(** C13: the limits of the pool hold whatever the tasks, the peers and the clock do.  The cache
    has at most 32 slots; a slot that a task uses is the one slot of its peer in the
    cache, never an evicted one; so a peer has at most eight streams and at most one
    task that dials it, eight tasks dial at once, and every connection in use goes to
    the peer it was asked for. *)
Theorem pool_limits p (Hp : reachable p) :
  Z.of_nat (size (pl_peers p)) ≤ 32 ∧ tasks_with dials (pl_tasks p) ≤ 8 ∧
  (∀ peer, streams_to p peer ≤ 8) ∧
  (∀ t k, pl_tasks p !! t = Some k →
    (∀ i, i ∈ refs (tk_phase k) → pl_peers p !! tk_peer k = Some i) ∧
    (∀ c, uses (tk_phase k) = Some c → cn_remote_id c = tk_peer k)) ∧
  (∀ t1 t2 k1 k2, pl_tasks p !! t1 = Some k1 → pl_tasks p !! t2 = Some k2 →
    tk_peer k1 = tk_peer k2 → dials (tk_phase k1) = true → dials (tk_phase k2) = true → t1 = t2).
Proof.
  apply reachable_ok in Hp. split_and!.
  - apply (po_size p Hp).
  - apply (po_dials p Hp).
  - intros peer. by apply streams_to_bound.
  - intros t k Hk. destruct (po_tasks p Hp t k Hk) as [Hr Hu]. rewrite Forall_forall in Hr. auto.
  - intros t1 t2 k1 k2 H1 H2 Epeer D1 D2.
    destruct (po_tasks p Hp t1 k1 H1) as [R1 _], (po_tasks p Hp t2 k2 H2) as [R2 _].
    destruct (tk_phase k1) as [| | |i| | | | | |] eqn:E1, (tk_phase k2) as [| | |j| | | | | |] eqn:E2; try done.
    apply (Forall_inv (l := [])) in R1, R2. unfold same_slot in R1, R2.
    assert (j = i) as -> by congruence.
    eapply (one_lock p t1 t2 k1 k2 i); try done; [by rewrite E1|by rewrite E2].
Qed.

(** Asking for a slot never disturbs a task that uses one.  It succeeds with the
    slot of the peer; if an entry had to make room, no task used it and it was the
    least recently used of those without users.  It fails only if all 32 slots are in
    use by other peers' tasks. *)
Lemma slot_outcome p peer now (order : list EndpointId) (Hp : reachable p)
    (Horder : ∀ q, q ∈ order ↔ is_Some (pl_peers (reap p now) !! q)) :
  let '(r, p') := slot p peer now order in
  (∀ t k i, pl_tasks p !! t = Some k → i ∈ refs (tk_phase k) → pl_peers p' !! tk_peer k = Some i) ∧
  (∀ q, is_Some (pl_peers (reap p now) !! q) → pl_peers p' !! q = None →
    ∃ used, idle_since (reap p now) q = Some used ∧
      ∀ q' used', idle_since (reap p now) q' = Some used' → used ≤ used') ∧
  match r with
  | Ok i => pl_peers p' !! peer = Some i
  | Err _ => pl_peers p' !! peer = None ∧ Z.of_nat (size (pl_peers p')) = 32 ∧
      ∀ q i, pl_peers p' !! q = Some i →
        ∃ t k, pl_tasks p !! t = Some k ∧ tk_peer k = q ∧ i ∈ refs (tk_phase k)
  end.
Proof.
  apply reachable_ok in Hp. destruct (slot p peer now order) as [r p'] eqn:Es.
  destruct (slot_ok p peer now order r p' Hp Es) as (Hp' & Htasks & Hi). split.
  { intros t k i Ht Hin. rewrite <-Htasks in Ht. destruct (po_tasks p' Hp' t k Ht) as [Hr _].
    rewrite Forall_forall in Hr. by apply Hr. }
  unfold slot in Es. destruct (reap_ok p now Hp) as (Hok & Hreap & _). set (p1 := reap p now) in *.
  destruct (pl_peers p1 !! peer) as [i|] eqn:Ei.
  { injection Es as <- <-. split; [intros q [j Hj] Hn; congruence|done]. }
  pose proof (older_fold p1 order None ltac:(done)) as Hf. unfold make_room in Es.
  destruct (MAX_CACHED_CONNECTIONS <=? Z.of_nat (size (pl_peers p1))) eqn:Eroom.
  - unfold oldest in Es. destruct (foldl (older p1) None order) as [[old t]|]; simpl in Es.
    + destruct Hf as (Hold & Hall & _). apply idle_since_Some in Hold as Hold'.
      destruct Hold' as (j & s & Hj & Hs & Hc & Ht).
      destruct (remove_entry_ok p1 old j Hok Hj Hc) as (_ & Hpeers & _).
      unfold same_slot in Hj. rewrite Hj in Es. injection Es as <- <-. simpl. split; [|by apply lookup_insert_eq].
      intros q Hq. rewrite Hpeers. intros [[?|Hn]%lookup_delete_None _]%lookup_insert_None.
      * subst q. exists t. split; [done|]. intros q' used' Hq'. apply (Hall q'); [|done].
        apply Horder. apply idle_since_Some in Hq' as (j' & _ & Hj' & _). by exists j'.
      * destruct Hq as [? Hq]. congruence.
    + destruct Hf as [_ Hf]. injection Es as <- <-. split; [intros q [j Hj] Hn; congruence|].
      split; [done|]. split; [pose proof (po_size p1 Hok); unfold MAX_CACHED_CONNECTIONS in *; bool_inv; lia|].
      intros q j Hj. destruct (shared_slot p1 q j Hok Hj) as (t & k & Ht & Hin).
      { intros Hc. specialize (Hf q). rewrite Horder, Hj in Hf. specialize (Hf (mk_is_Some _ _ eq_refl)).
        unfold idle_since in Hf. rewrite Hj in Hf. simpl in Hf.
        destruct (po_slots p1 Hok q j Hj) as [s Hs]. rewrite Hs in Hf. simpl in Hf. by rewrite Hc in Hf. }
      exists t, k. rewrite <-Hreap. split_and!; [done| |done].
      destruct (po_tasks p1 Hok t k Ht) as [Hr _]. rewrite Forall_forall in Hr.
      by apply (po_inj p1 Hok _ _ j); [apply Hr|].
  - injection Es as <- <-. simpl. split; [|by apply lookup_insert_eq].
    intros q [j Hj] [Hn _]%lookup_insert_None. congruence.
Qed.

(** C18: [open_stream] ends.  In any sequence of actions a task makes at most 19 steps, in
    at most two attempts; and as long as a task has not ended, some task can make a
    step, so none waits forever for locks and permits. *)
Theorem open_stream_terminates (actions : list action) p
    (Hrun : run ConnectionPool_default actions = Some p) :
  ∀ t, (steps_of t actions ≤ 19)%nat ∧
    ∀ k, pl_tasks p !! t = Some k →
      (tk_attempt k ≤ 1)%nat ∧
      ((∃ r, tk_phase k = Ended r) ∨ ∃ t' s p', act p (Step t' s) = Some p').
Proof.
  intros t. assert (H0 : attempts_ok ConnectionPool_default) by done.
  destruct (run_rank _ actions p t H0 Hrun) as [Hp Hle]. assert (E : rank_of ConnectionPool_default t = 19%nat) by (unfold rank_of; simpl; by rewrite lookup_empty).
  split; [lia|].
  intros k Hk. split; [by apply (Hp t k Hk)|].
  destruct (tk_phase k) eqn:Ek; [right; eapply unfinished_can_step; [done|congruence]..|eauto].
Qed.
End pool.

(** *** Witnesses *)

Import Ref.

(** Two tasks for one peer: the first dials and streams, the second waits for the lock. *)
Definition ex_remote : EndpointId := endpoint "002".
Definition ex_connection : Connection := {| cn_stable_id := 1; cn_remote_id := ex_remote |}.
Definition ex_actions : list action :=
  [Begin 0 ex_remote; Begin 1 ex_remote; Step 0 (Enter 0 []); Step 1 (Enter 0 [ex_remote]);
   Step 0 Acquire; Step 0 Dial; Step 0 (Dialed (Ok ex_connection)); Step 0 (Lease 5);
   Step 0 (Opened (Ok tt) 6); Step 1 Acquire].
Definition ex_pool : pool := default ConnectionPool_default (run ConnectionPool_default ex_actions).

Lemma ex_pool_run : run ConnectionPool_default ex_actions = Some ex_pool.
Proof.
  assert (E : (if run ConnectionPool_default ex_actions is Some _ then true else false) = true)
    by (vm_compute; reflexivity).
  unfold ex_pool. by destruct (run ConnectionPool_default ex_actions).
Qed.
Lemma ex_pool_reachable : reachable ex_pool.
Proof. eapply run_reachable; [apply reachable_default|apply ex_pool_run]. Qed.

(** The first task streams, the second has the connection of the first. *)
Lemma ex_pool_first :
  (λ k, (phase_rank (tk_phase k), refs (tk_phase k))) <$> pl_tasks ex_pool !! 0%nat = Some (1%nat, [0%nat]).
Proof. vm_compute. reflexivity. Qed.
Lemma ex_pool_second : phase_rank ∘ tk_phase <$> pl_tasks ex_pool !! 1%nat = Some 5%nat.
Proof. vm_compute. reflexivity. Qed.

Lemma pool_limits_witness :
  phase_rank ∘ tk_phase <$> pl_tasks ex_pool !! 1%nat = Some 5%nat ∧
  Z.of_nat (size (pl_peers ex_pool)) ≤ 32 ∧ streams_to ex_pool ex_remote ≤ 8.
Proof.
  split; [exact ex_pool_second|]. pose proof (pool_limits ex_pool ex_pool_reachable) as (Hs & _ & Hst & _).
  split; [exact Hs|exact (Hst ex_remote)].
Defined.

Lemma ex_reaped : bool_decide (pl_peers (reap ex_pool 7) = {[ex_remote := 0%nat]}) = true.
Proof. vm_compute. reflexivity. Qed.
Lemma ex_order q : q ∈ [ex_remote] ↔ is_Some (pl_peers (reap ex_pool 7) !! q).
Proof.
  rewrite (proj1 (bool_decide_eq_true _) ex_reaped), list_elem_of_singleton, lookup_singleton_is_Some.
  split; congruence.
Qed.

Lemma slot_outcome_witness :
  let '(r, p') := slot ex_pool (endpoint "003") 7 [ex_remote] in
  ∃ k, pl_tasks ex_pool !! 0%nat = Some k ∧ pl_peers p' !! tk_peer k = Some 0%nat.
Proof.
  pose proof (slot_outcome ex_pool (endpoint "003") 7 [ex_remote] ex_pool_reachable ex_order) as H.
  destruct (slot ex_pool (endpoint "003") 7 [ex_remote]) as [r p']. destruct H as [H _].
  pose proof ex_pool_first as Hk. destruct (pl_tasks ex_pool !! 0%nat) as [k|] eqn:E; [|discriminate Hk].
  exists k. split; [reflexivity|]. injection Hk as _ Hr. apply (H 0%nat k 0%nat E). rewrite Hr. left.
Defined.

Lemma open_stream_terminates_witness :
  (steps_of 0 ex_actions ≤ 19)%nat ∧
  (∃ k, pl_tasks ex_pool !! 0%nat = Some k ∧ (tk_attempt k ≤ 1)%nat).
Proof.
  destruct (open_stream_terminates ex_actions ex_pool ex_pool_run 0%nat) as [Hs Hk]. split; [exact Hs|].
  pose proof ex_pool_first as Hf. destruct (pl_tasks ex_pool !! 0%nat) as [k|]; [|discriminate Hf].
  exists k. split; [reflexivity|]. exact (proj1 (Hk k eq_refl)).
Defined.
