(* ===== verification/PeerSessions.v ===== *)
(** * The peers of a share (src/network/peer_sessions.rs)

    Which peers a share synchronizes with, how many at once, and what it reports.  The
    sessions run as tasks next to the loop that starts them: a task in flight is the
    peer it is for, and the outcome and the effects of a task, the order in which tasks
    complete and a panic of one are arguments of the loop.  [run_peer_session] is the
    body of a task, from [sync_with_peer]. *)

From S2P Require Import Prelude Collections Bytes External Reference Framing Clock Types Peers ManifestPath Manifest Merge Storage Digest Auth Scheduling State Wire LocalFs Partial Streaming Planning Apply Scan ShareScan Session.

Section peer_sessions.
Context `{HexCodec, Sha256, Iroh, Blake3, Hmac, WalkDir, Allocator}
  `{!JsonState ShareConfig} `{!JsonState Manifest} `{!JsonState ClockState}
  `{!JsonState KnownPeers} `{!JsonState RuntimeStatus}
  `{!Json SyncRequest, !Json SyncResponse, !Json ManifestMessage, !Json TransferRequest,
    !Json TransferReady, !Json TransferResponse}.
Implicit Types (s : ActiveShare) (peer : EndpointId).

(** ** Due peers *)

Definition due_peers s (active : gset EndpointId) (now : Z)
    : result (list EndpointId) * ActiveShare :=
  match load_known_peer_ids (as_files s) (as_root s) (as_share_id s) with
  | Err e => (Err e, s)
  | Ok peers =>
      let peers := List.filter (λ peer, negb (bool_decide (peer = as_local_endpoint_id s))) peers in
      let generation := as_manifest_generation s in
      let schedules := filter (λ ps : EndpointId * PeerSchedule, ps.1 ∈ peers ∨ ps.1 ∈ active)
                         (as_peer_schedule s) in
      let peers := List.filter (λ peer, negb (bool_decide (peer ∈ active))) peers in
      (Ok (select_due_peers peers schedules now generation),
       with_schedule s (as_network_generation s) schedules)
  end.

(** ** The status of a share *)

Definition no_peer_error : bytes := bs "could not connect to a known peer".

(** [schedules.values().any(..)]. *)
Definition any_schedule (f : PeerSchedule → bool) s : bool :=
  existsb f (map snd (map_to_list (as_peer_schedule s))).

Definition is_confirmed (generation : Z) (schedule : PeerSchedule) : bool :=
  match sch_last_outcome schedule with
  | Some _ => sch_last_attempted_generation schedule =? generation
  | None => false
  end.

(** The state and the health of a share with this outcome. *)
Definition assess_peers (outcome : SyncOutcome) (confirmed : bool) (in_flight : Z)
    : RuntimeState * SyncHealth :=
  if (0 <? so_unsupported_items outcome) && so_connected outcome then (Degraded, HealthError)
  else if so_connected outcome && confirmed && (in_flight =? 0)
          && (so_pending_downloads outcome =? 0) && (so_pending_updates outcome =? 0)
  then (Running, Synchronized)
  else if so_connected outcome || (0 <? in_flight) then (Synchronizing, Pending)
  else (WaitingForPeers, Offline).

(** The update of the status. *)
Definition peers_status (outcome : SyncOutcome) (assessed : RuntimeState * SyncHealth)
    (failed synchronized : bool) (in_flight : Z) (r : RuntimeStatus) (now_ms : Z) : RuntimeStatus := {|
  rs_format_version := rs_format_version r; rs_process_id := rs_process_id r;
  rs_started_at_ms := rs_started_at_ms r; rs_heartbeat_at_ms := rs_heartbeat_at_ms r;
  rs_state := assessed.1; rs_health := assessed.2;
  rs_connected_peers := so_connected_peers outcome;
  rs_pending_downloads := so_pending_downloads outcome;
  rs_pending_updates := so_pending_updates outcome;
  rs_last_scan_at_ms := rs_last_scan_at_ms r;
  rs_last_remote_update_at_ms := rs_last_remote_update_at_ms r;
  rs_last_sync_at_ms := if synchronized then Some now_ms else rs_last_sync_at_ms r;
  rs_last_connection_at_ms := rs_last_connection_at_ms r;
  rs_last_error :=
    if (0 <? so_unsupported_items outcome) && so_connected outcome then Some WINDOWS_SYMLINK_ERROR
    else if failed && negb (so_connected outcome) && (in_flight =? 0) then Some no_peer_error
    else None |}.

Definition with_unsupported (outcome : SyncOutcome) (unsupported : Z) : SyncOutcome := {|
  so_connected := so_connected outcome; so_connected_peers := so_connected_peers outcome;
  so_pending_downloads := so_pending_downloads outcome;
  so_pending_updates := so_pending_updates outcome; so_unsupported_items := unsupported |}.

Definition refresh_peer_status s (synchronized : bool) (in_flight : Z) (env : update_env)
    : result SyncOutcome * ActiveShare :=
  match manifest_snapshot s with
  | (Err e, s) => (Err e, s)
  | (Ok snapshot, s) =>
      let outcome := with_unsupported (summarize_peer_outcomes (as_peer_schedule s))
                       (unsupported_symlink_count (ms_manifest snapshot)) in
      let confirmed := any_schedule (is_confirmed (as_manifest_generation s)) s in
      let failed := any_schedule (λ schedule, 0 <? sch_failures schedule) s in
      let assessed := assess_peers outcome confirmed in_flight in
      match update_runtime s (ue_now_ms env) (ue_pid env)
              (peers_status outcome assessed failed synchronized in_flight) (ue_write env) with
      | (Err e, s) => (Err e, s)
      | (Ok _, s) => (Ok outcome, s)
      end
  end.

(** ** Sessions in flight *)

Record PeerSessions := {
  pe_tasks : list EndpointId;
  pe_active : gset EndpointId;
}.
Definition PeerSessions_default : PeerSessions := {| pe_tasks := []; pe_active := ∅ |}.

Definition sessions_len (ps : PeerSessions) : Z := blen (pe_tasks ps).

Definition spawn (ps : PeerSessions) peer : PeerSessions :=
  if bool_decide (peer ∈ pe_active ps) then ps
  else {| pe_tasks := pe_tasks ps ++ [peer]; pe_active := {[peer]} ∪ pe_active ps |}.

Definition fill (ps : PeerSessions) s (now : Z) : result unit * PeerSessions * ActiveShare :=
  let available := saturating_sub MAX_CONCURRENT_PEERS (sessions_len ps) in
  if available =? 0 then (Ok tt, ps, s)
  else match due_peers s (pe_active ps) now with
       | (Err e, s) => (Err e, ps, s)
       | (Ok peers, s) => (Ok tt, foldl spawn ps (take (Z.to_nat available) peers), s)
       end.

(** [join_next]: the task that completes, the [choice]-th of those in flight. *)
Definition join_next (ps : PeerSessions) (choice : nat) : option (EndpointId * PeerSessions) :=
  let i := (choice mod length (pe_tasks ps))%nat in
  peer ← pe_tasks ps !! i;
  Some (peer, {| pe_tasks := delete i (pe_tasks ps); pe_active := pe_active ps |}).

(** [finish]; [None] is the [JoinError] of a task that panicked. *)
Definition finish (ps : PeerSessions) peer (completion : option bool) s (env : update_env)
    : result unit * PeerSessions * ActiveShare :=
  match completion with
  | None => (Err "peer synchronization task failed", ps, s)
  | Some synchronized =>
      let ps := {| pe_tasks := pe_tasks ps; pe_active := pe_active ps ∖ {[peer]} |} in
      match refresh_peer_status s synchronized (sessions_len ps) env with
      | (Err e, s) => (Err e, ps, s)
      | (Ok _, s) => (Ok tt, ps, s)
      end
  end.

(** ** One session *)

(** The environment of a session task: whether the endpoint closed before it started,
    the client, what the peer sent, the network changes meanwhile, the time and the
    random draw of the attempt. *)
Record task_env := {
  te_closed : bool;
  te_client : client_env;
  te_recv : bytes;
  te_retries : nat;
  te_now : Z;
  te_jitter : Z;
}.

Definition attempt_outcome (r : result PeerSyncOutcome) : option SyncOutcome :=
  match r with
  | Ok outcome => Some {|
      so_connected := true; so_connected_peers := 0;
      so_pending_downloads := ps_pending_downloads outcome;
      so_pending_updates := ps_pending_updates outcome; so_unsupported_items := 0 |}
  | Err _ => None
  end.

Definition run_peer_session (env : task_env) peer (st : session) : bool * session :=
  if te_closed env then (false, st)
  else
    let generation := as_manifest_generation (ss_share st) in
    let network_generation := as_network_generation (ss_share st) in
    let '(r, st) := sync_with_peer (te_client env) peer (with_sent (with_recv st (te_recv env)) []) in
    let share := Nat.iter (te_retries env) retry_peers (ss_share st) in
    (is_ok r, with_share st (record_peer_attempt share peer generation network_generation
                               (attempt_outcome r) (te_now env) (te_jitter env))).

(** The tasks of the loops below: sessions, of which none starts once the endpoint is
    closed. *)
Definition session_tasks (envs : nat → task_env) (round : nat) (closed : bool) peer (st : session)
    : option bool * session :=
  let env := envs round in
  let '(synchronized, st) := run_peer_session
    {| te_closed := te_closed env || closed; te_client := te_client env; te_recv := te_recv env;
       te_retries := te_retries env; te_now := te_now env; te_jitter := te_jitter env |} peer st in
  (Some synchronized, st).

(** ** Every due peer once *)

(** The environment of the loop: how the tasks behave, given the round and whether the
    endpoint was closed, which completes next, and the status updates. *)
Record peers_env := {
  pn_now : Z;
  pn_task : nat → bool → EndpointId → session → option bool * session;
  pn_choice : nat → nat;
  pn_refresh : nat → update_env;
  pn_finish : nat → update_env;
  pn_last : update_env;
}.

(** The inner [while]: sessions start while there is room for them. *)
Fixpoint start_pending (pending : list EndpointId) (ps : PeerSessions)
    : list EndpointId * PeerSessions :=
  match pending with
  | [] => ([], ps)
  | peer :: rest =>
      if sessions_len ps <? MAX_CONCURRENT_PEERS then start_pending rest (spawn ps peer)
      else (pending, ps)
  end.

(** The variables of the loop; [ls_started] are the peers a session was started for and
    [ls_most] the most that were in flight. *)
Record loop_state := {
  ls_pending : list EndpointId;
  ls_sessions : PeerSessions;
  ls_failure : option string;
  ls_closed : bool;
  ls_world : session;
  ls_started : list EndpointId;
  ls_most : Z;
}.

(** Ends the loop early: the endpoint is closed and nothing new starts. *)
Definition fail_loop (l : loop_state) (e : string) : loop_state := {|
  ls_pending := []; ls_sessions := ls_sessions l;
  ls_failure := match ls_failure l with Some e' => Some e' | None => Some e end;
  ls_closed := true; ls_world := ls_world l; ls_started := ls_started l; ls_most := ls_most l |}.
Definition with_world (l : loop_state) (ps : PeerSessions) (st : session) : loop_state := {|
  ls_pending := ls_pending l; ls_sessions := ps; ls_failure := ls_failure l;
  ls_closed := ls_closed l; ls_world := st; ls_started := ls_started l; ls_most := ls_most l |}.

Definition start_round (l : loop_state) : loop_state :=
  let '(pending, ps) := start_pending (ls_pending l) (ls_sessions l) in {|
  ls_pending := pending; ls_sessions := ps; ls_failure := ls_failure l; ls_closed := ls_closed l;
  ls_world := ls_world l;
  ls_started := ls_started l ++ drop (length (pe_tasks (ls_sessions l))) (pe_tasks ps);
  ls_most := Z.max (ls_most l) (sessions_len ps) |}.

Definition refresh_round (env : update_env) (l : loop_state) : loop_state :=
  match ls_failure l with
  | Some _ => l
  | None =>
      let st := ls_world l in
      let '(r, s) := refresh_peer_status (ss_share st) false (sessions_len (ls_sessions l)) env in
      let l := with_world l (ls_sessions l) (with_share st s) in
      match r with Ok _ => l | Err e => fail_loop l e end
  end.

Definition complete_round (env : peers_env) (round : nat) (l : loop_state) : loop_state :=
  match join_next (ls_sessions l) (pn_choice env round) with
  | None => l
  | Some (peer, ps) =>
      let '(completion, st) := pn_task env round (ls_closed l) peer (ls_world l) in
      let '(r, ps, s) := finish ps peer completion (ss_share st) (pn_finish env round) in
      let l := with_world l ps (with_share st s) in
      match r with Ok _ => l | Err e => fail_loop l e end
  end.

Definition is_done (l : loop_state) : bool :=
  bool_decide (ls_pending l = []) && bool_decide (pe_tasks (ls_sessions l) = []).

(** The [while] loop, at most [fuel] rounds. *)
Fixpoint peers_loop (env : peers_env) (round fuel : nat) (l : loop_state) : option loop_state :=
  if is_done l then Some l
  else match fuel with
       | O => None
       | S fuel =>
           peers_loop env (S round) fuel
             (complete_round env round (refresh_round (pn_refresh env round) (start_round l)))
       end.

Definition start_loop (pending : list EndpointId) (st : session) : loop_state := {|
  ls_pending := pending; ls_sessions := PeerSessions_default; ls_failure := None;
  ls_closed := false; ls_world := st; ls_started := []; ls_most := 0 |}.

(** One round per due peer suffices. *)
Definition sync_known_peers (env : peers_env) (st : session)
    : option (result SyncOutcome * session * loop_state) :=
  let '(r, s) := due_peers (ss_share st) ∅ (pn_now env) in
  let st := with_share st s in
  match r with
  | Err e => Some (Err e, st, start_loop [] st)
  | Ok peers =>
      l ← peers_loop env 0 (length peers) (start_loop peers st);
      let st := ls_world l in
      match ls_failure l with
      | Some e => Some (Err e, st, l)
      | None =>
          let '(r, s) := refresh_peer_status (ss_share st) false 0 (pn_last env) in
          Some (r, with_share st s, l)
      end
  end.

(** ** The loop *)

Lemma due_peers_NoDup s active now peers s' : due_peers s active now = (Ok peers, s') → NoDup peers.
Proof.
  unfold due_peers. destruct (load_known_peer_ids _ _ _) as [ids|] eqn:El; [|done]. intros [= <- _].
  rewrite select_due_peers_sorted. eapply sublist_NoDup; [|apply sublist_take].
  rewrite (sort_by_perm _ _). apply NoDup_ListNoDup. do 3 apply List.NoDup_filter. apply NoDup_ListNoDup.
  unfold load_known_peer_ids in El. apply bind_Ok in El as (kp & _ & El).
  apply visit_endpoint_ids_Ok in El as [(_ & _ & Hn & _) Hm]. rewrite <-Hm in Hn. by eapply NoDup_fmap_1.
Qed.

(** The known peers other than this endpoint that a session may be started with. *)
Definition due_known s (now : Z) (known : list EndpointId) : list EndpointId :=
  List.filter (peer_due (as_peer_schedule s) now (as_manifest_generation s))
    (List.filter (λ peer, negb (bool_decide (peer = as_local_endpoint_id s))) known).

(** The first four of them in the order of their next attempts. *)
Lemma due_peers_first s now :
  (due_peers s ∅ now).1 =
    load_known_peer_ids (as_files s) (as_root s) (as_share_id s) ≫= λ known,
      Ok (take 4 (sort_by (peer_next_at (as_peer_schedule s)) (due_known s now known))).
Proof.
  unfold due_peers. destruct (load_known_peer_ids _ _ _) as [known|]; [|done]. simpl. f_equal.
  rewrite select_due_peers_sorted. unfold due_known. set (others := List.filter _ known).
  match goal with |- context [List.filter ?f others] => rewrite (filter_all f others) end.
  2: { apply Forall_true. intros p. by rewrite bool_decide_false by set_solver. }
  set (schedules := filter _ _).
  assert (Hl : ∀ p, p ∈ others → schedules !! p = as_peer_schedule s !! p).
  { intros p Hp. unfold schedules. destruct (as_peer_schedule s !! p) as [x|] eqn:E.
    - apply map_lookup_filter_Some. by auto.
    - apply map_lookup_filter_None. by left. }
  assert (Hf : List.filter (peer_due schedules now (as_manifest_generation s)) others =
    List.filter (peer_due (as_peer_schedule s) now (as_manifest_generation s)) others).
  { apply filter_ext_in. intros p Hp%list_elem_of_In. unfold peer_due. by rewrite Hl. }
  rewrite Hf. f_equal. apply sort_by_ext. intros p Hp.
  unfold peer_next_at. rewrite Hl; [done|]. apply list_elem_of_In in Hp. apply filter_In in Hp as [Hp _].
  by apply list_elem_of_In.
Qed.

(** Rounds left at most. *)
Definition loop_size (l : loop_state) : nat := length (ls_pending l) + length (pe_tasks (ls_sessions l)).

Lemma is_done_size l : is_done l = false → (0 < loop_size l)%nat.
Proof.
  unfold is_done, loop_size. intros E. destruct (ls_pending l), (pe_tasks _); simpl in *; try lia; done.
Qed.

Lemma join_next_size ps choice peer ps' :
  join_next ps choice = Some (peer, ps') →
  S (length (pe_tasks ps')) = length (pe_tasks ps) ∧ peer ∈ pe_tasks ps ∧ pe_active ps' = pe_active ps ∧
  pe_tasks ps' ⊆ pe_tasks ps.
Proof.
  unfold join_next. intros E. apply bind_Some in E as (q & Hq & [= -> <-]). simpl.
  pose proof (lookup_lt_Some _ _ _ Hq). split_and!; [|by eapply list_elem_of_lookup_2|done|].
  - rewrite length_delete by eauto. lia.
  - apply sublist_subseteq, sublist_delete.
Qed.
Lemma join_next_None ps choice : join_next ps choice = None → pe_tasks ps = [].
Proof.
  unfold join_next. destruct (pe_tasks ps) as [|x l] eqn:E; [done|].
  set (i := (choice mod length (x :: l))%nat). assert (Hi : (i < length (x :: l))%nat) by (apply Nat.mod_upper_bound; done).
  apply lookup_lt_is_Some in Hi as [y Hy]. by rewrite Hy.
Qed.

(** What holds of the loop in every round, for the due peers [peers]. *)
Record loop_ok (peers : list EndpointId) (l : loop_state) : Prop := {
  lo_order : (∃ rest, peers = ls_started l ++ ls_pending l ++ rest) ∧
    (ls_failure l = None → peers = ls_started l ++ ls_pending l);
  lo_active : ∀ p, p ∈ pe_active (ls_sessions l) → p ∈ ls_started l;
  lo_tasks : pe_tasks (ls_sessions l) ⊆ ls_started l;
  lo_len : sessions_len (ls_sessions l) ≤ MAX_CONCURRENT_PEERS;
  lo_most : ls_most l ≤ MAX_CONCURRENT_PEERS;
}.

Lemma fail_loop_ok peers l e : loop_ok peers l → loop_ok peers (fail_loop l e).
Proof.
  intros [[[rest Ho] Ho'] Ha Ht Hl Hm]. split; simpl; try done. split.
  - exists (ls_pending l ++ rest). done.
  - by destruct (ls_failure l).
Qed.

(** Sessions start in order: each pending peer that starts becomes a task. *)
Lemma start_pending_ok started pending ps pending' ps' :
  NoDup (started ++ pending) → (∀ p, p ∈ pe_active ps → p ∈ started) → pe_tasks ps ⊆ started →
  sessions_len ps ≤ MAX_CONCURRENT_PEERS → start_pending pending ps = (pending', ps') →
  ∃ new, pending = new ++ pending' ∧ pe_tasks ps' = pe_tasks ps ++ new ∧
    (∀ p, p ∈ pe_active ps' → p ∈ started ++ new) ∧
    sessions_len ps' ≤ MAX_CONCURRENT_PEERS ∧ (pe_tasks ps' = [] → pending' = []).
Proof.
  revert started ps. induction pending as [|p pending IH]; intros started ps Hnd Ha Ht Hl; simpl.
  { intros [= <- <-]. exists []. rewrite !app_nil_r. by split_and!. }
  destruct (sessions_len ps <? MAX_CONCURRENT_PEERS) eqn:El; bool_inv.
  - assert (Hp : p ∉ started) by (apply NoDup_app in Hnd as (_ & Hd & _); intros Hin; apply (Hd p Hin); left).
    assert (Hs : spawn ps p = {| pe_tasks := pe_tasks ps ++ [p]; pe_active := {[p]} ∪ pe_active ps |}).
    { unfold spawn. rewrite bool_decide_false; [done|]. auto. }
    intros E. apply (IH (started ++ [p])) in E as (new & -> & Htasks & Hactive & Hlen & Hempty).
    + rewrite Hs in Htasks. simpl in Htasks. exists (p :: new). split_and!; [done| | |done|done].
      * by rewrite Htasks, <-app_assoc.
      * intros q Hq. specialize (Hactive q Hq). by rewrite <-app_assoc in Hactive.
    + by rewrite <-app_assoc.
    + rewrite Hs. simpl. intros q. set_solver.
    + rewrite Hs. simpl. set_solver.
    + rewrite Hs. unfold sessions_len, blen in *. simpl. rewrite length_app. simpl. lia.
  - intros [= <- <-]. exists []. rewrite !app_nil_r. split_and!; try done.
    intros E. unfold sessions_len in El. by rewrite E in El.
Qed.

Lemma start_round_ok peers l :
  NoDup peers → loop_ok peers l →
  let l' := start_round l in
  loop_ok peers l' ∧ (loop_size l' ≤ loop_size l)%nat ∧
  (pe_tasks (ls_sessions l') = [] → ls_pending l' = []).
Proof.
  intros Hnd [[[rest Ho] Ho'] Ha Ht Hl Hm] l'. unfold start_round in l'.
  destruct (start_pending (ls_pending l) (ls_sessions l)) as [pending ps] eqn:E.
  apply (start_pending_ok (ls_started l)) in E as (new & Hp & Htasks & Hactive & Hlen & Hempty); try done;
    [|rewrite Ho, app_assoc in Hnd; by apply NoDup_app in Hnd as [? _]].
  assert (Hdrop : drop (length (pe_tasks (ls_sessions l))) (pe_tasks ps) = new)
    by (rewrite Htasks; apply drop_app_length).
  split_and!; [|unfold loop_size; simpl; rewrite Hp, Htasks, !length_app; lia|done].
  split; simpl; rewrite ?Hdrop; try done.
  - split; [exists rest; rewrite Ho, Hp; by rewrite <-!app_assoc|]. intros Hn.
    rewrite (Ho' Hn), Hp. by rewrite <-app_assoc.
  - rewrite Htasks. set_solver.
  - lia.
Qed.

Lemma with_world_ok peers l ps st :
  loop_ok peers l → pe_tasks ps ⊆ pe_tasks (ls_sessions l) → pe_active ps ⊆ pe_active (ls_sessions l) →
  (length (pe_tasks ps) ≤ length (pe_tasks (ls_sessions l)))%nat → loop_ok peers (with_world l ps st).
Proof.
  intros [Ho Ha Ht Hl Hm] Hts Has Hle. split; simpl; try done; [set_solver..|].
  unfold sessions_len, blen in *. lia.
Qed.

Lemma refresh_round_ok peers env l :
  loop_ok peers l → loop_ok peers (refresh_round env l) ∧
  (loop_size (refresh_round env l) ≤ loop_size l)%nat ∧
  ls_sessions (refresh_round env l) = ls_sessions l ∧
  (ls_pending l = [] → ls_pending (refresh_round env l) = []).
Proof.
  intros Hl. unfold refresh_round. destruct (ls_failure l); [by split_and!|].
  destruct (refresh_peer_status _ _ _ _) as [[o|e] s].
  - split_and!; [by apply with_world_ok|unfold loop_size; simpl; lia|done..].
  - split_and!; [by apply fail_loop_ok, with_world_ok|unfold loop_size; simpl; lia|done..].
Qed.

Lemma finish_sessions ps peer completion s env r ps' s' :
  finish ps peer completion s env = (r, ps', s') →
  pe_tasks ps' = pe_tasks ps ∧ pe_active ps' ⊆ pe_active ps.
Proof.
  unfold finish. destruct completion as [b|]; [|by intros [= _ <- _]].
  destruct (refresh_peer_status _ _ _ _) as [[o|e] s1]; intros [= _ <- _]; simpl; (split; [done|set_solver]).
Qed.

Lemma complete_round_ok peers env round l :
  loop_ok peers l → let l' := complete_round env round l in
  loop_ok peers l' ∧
  (pe_tasks (ls_sessions l) = [] → l' = l) ∧
  (pe_tasks (ls_sessions l) ≠ [] → (loop_size l' < loop_size l)%nat).
Proof.
  intros Hl. unfold complete_round. destruct (join_next _ _) as [[peer ps]|] eqn:Ej.
  - apply join_next_size in Ej as (Hlen & Hin & Hact & Hsub).
    destruct (pn_task _ _ _ _ _) as [completion st].
    destruct (finish _ _ _ _ _) as [[r ps'] s] eqn:Ef. apply finish_sessions in Ef as [Ht Ha].
    assert (Hw : loop_ok peers (with_world l ps' (with_share st s)))
      by (apply with_world_ok; [done|by rewrite Ht|by rewrite <-Hact|rewrite Ht; lia]).
    destruct r as [u|e]; (split_and!; [by try apply fail_loop_ok|intros E; by rewrite E in Hlen|]);
      intros _; unfold loop_size; simpl; rewrite Ht; lia.
  - apply join_next_None in Ej. by split_and!.
Qed.

Lemma peers_loop_ok peers env round fuel l :
  NoDup peers → loop_ok peers l → (loop_size l ≤ fuel)%nat →
  ∃ l', peers_loop env round fuel l = Some l' ∧ loop_ok peers l' ∧ ls_pending l' = [].
Proof.
  intros Hnd. revert round l. induction fuel as [|fuel IH]; intros round l Hl Hf; simpl;
    destruct (is_done l) eqn:Ed.
  - exists l. split_and!; try done. unfold is_done in Ed. by bool_inv.
  - apply is_done_size in Ed. lia.
  - exists l. split_and!; try done. unfold is_done in Ed. by bool_inv.
  - apply is_done_size in Ed. destruct (start_round_ok peers l Hnd Hl) as (Hl1 & Hs1 & He1).
    set (l1 := start_round l) in *.
    destruct (refresh_round_ok peers (pn_refresh env round) l1 Hl1) as (Hl2 & Hs2 & Hps & Hpend).
    set (l2 := refresh_round _ l1) in *.
    destruct (complete_round_ok peers env round l2 Hl2) as (Hl3 & Hnone & Hsome).
    apply IH; [done|]. destruct (decide (pe_tasks (ls_sessions l2) = [])) as [E|E].
    + rewrite (Hnone E). unfold loop_size. rewrite E. rewrite Hps in E. rewrite (Hpend (He1 E)). simpl. lia.
    + specialize (Hsome E). lia.
Qed.

(** ** What the status says *)

(** The outcome of a peer that answered in its last session. *)
Definition answered s peer (schedule : PeerSchedule) (o : PeerSyncOutcome) : Prop :=
  as_peer_schedule s !! peer = Some schedule ∧ sch_last_outcome schedule = Some o.

(** Counters are unsigned. *)
Definition counts_ok s : Prop :=
  ∀ peer schedule o, answered s peer schedule o → 0 ≤ ps_pending_downloads o ∧ 0 ≤ ps_pending_updates o.

Lemma zeros_cons {A} (f : A → Z) x l :
  (∀ y, y ∈ x :: l → f y = 0) ↔ f x = 0 ∧ ∀ y, y ∈ l → f y = 0.
Proof.
  split; [intros Hall; split; [|intros y Hy]; apply Hall; [left|by right]|].
  intros [Hx Hall] y [->|Hy]%elem_of_cons; auto.
Qed.

Lemma summarize_fold outcomes acc :
  (∀ o, o ∈ outcomes → 0 ≤ ps_pending_downloads o ∧ 0 ≤ ps_pending_updates o) →
  0 ≤ so_pending_downloads acc → 0 ≤ so_pending_updates acc →
  let r := foldl summarize_step acc outcomes in
  (so_connected r = true ↔ so_connected acc = true ∨ outcomes ≠ []) ∧
  0 ≤ so_pending_downloads r ∧ 0 ≤ so_pending_updates r ∧
  (so_pending_downloads r = 0 ↔ so_pending_downloads acc = 0 ∧ ∀ o, o ∈ outcomes → ps_pending_downloads o = 0) ∧
  (so_pending_updates r = 0 ↔ so_pending_updates acc = 0 ∧ ∀ o, o ∈ outcomes → ps_pending_updates o = 0) ∧
  so_unsupported_items r = so_unsupported_items acc.
Proof.
  revert acc. induction outcomes as [|o outcomes IH]; intros acc Hnn Hd Hu r.
  { subst r. simpl. split_and!; try done; [naive_solver|..]; split; try (intros [? _]; done); intros E;
      (split; [done|by intros ? ?%not_elem_of_nil]). }
  destruct (Hnn o ltac:(left)) as [Hod Hou].
  assert (Hacc : 0 ≤ so_pending_downloads (summarize_step acc o) ∧ 0 ≤ so_pending_updates (summarize_step acc o) ∧
    (so_pending_downloads (summarize_step acc o) = 0 ↔ so_pending_downloads acc = 0 ∧ ps_pending_downloads o = 0) ∧
    (so_pending_updates (summarize_step acc o) = 0 ↔ so_pending_updates acc = 0 ∧ ps_pending_updates o = 0)).
  { unfold summarize_step, saturating_add. u_unfold. simpl. lia. }
  destruct Hacc as (Hd' & Hu' & Ed & Eu). subst r. cbn [foldl].
  destruct (IH (summarize_step acc o)) as (Hc & Hd2 & Hu2 & Hzd & Hzu & Hun);
    [intros x Hx; apply Hnn; by right|done|done|]. clear IH Hnn.
  split_and!; [rewrite Hc; simpl; split; intros _; [by right|by left]|done|done| | |by rewrite Hun].
  - rewrite Hzd, Ed, zeros_cons. by rewrite (assoc (∧)).
  - rewrite Hzu, Eu, zeros_cons. by rewrite (assoc (∧)).
Qed.

Lemma elem_of_outcomes s o :
  o ∈ omap sch_last_outcome (map snd (map_to_list (as_peer_schedule s))) ↔
  ∃ peer schedule, answered s peer schedule o.
Proof.
  rewrite list_elem_of_omap. unfold answered. setoid_rewrite list_elem_of_fmap. split.
  - intros (schedule & ([peer sch] & -> & Hin) & Ho). apply elem_of_map_to_list in Hin. eauto.
  - intros (peer & schedule & Hs & Ho). exists schedule. split; [|done]. exists (peer, schedule).
    by rewrite elem_of_map_to_list.
Qed.

Lemma any_schedule_true f s :
  any_schedule f s = true ↔ ∃ peer schedule, as_peer_schedule s !! peer = Some schedule ∧ f schedule = true.
Proof.
  unfold any_schedule. rewrite existsb_exists. split.
  - intros (schedule & [[peer sch] [<- Hin]]%in_map_iff & Hf).
    apply list_elem_of_In, elem_of_map_to_list in Hin. eauto.
  - intros (peer & schedule & Hs & Hf). exists schedule. split; [|done]. apply in_map_iff.
    exists (peer, schedule). split; [done|]. by apply list_elem_of_In, elem_of_map_to_list.
Qed.

Lemma summary_of_share s :
  counts_ok s → let o := summarize_peer_outcomes (as_peer_schedule s) in
  (so_connected o = true ↔ ∃ peer schedule r, answered s peer schedule r) ∧
  (so_pending_downloads o = 0 ∧ so_pending_updates o = 0 ↔
    ∀ peer schedule r, answered s peer schedule r → ps_pending_downloads r = 0 ∧ ps_pending_updates r = 0).
Proof.
  intros Hc o. unfold summarize_peer_outcomes, summarize_values in o.
  destruct (summarize_fold (omap sch_last_outcome (map snd (map_to_list (as_peer_schedule s)))) SyncOutcome_default)
    as (Hcon & _ & _ & Hd & Hu & _); [|done..|].
  { intros r (peer & schedule & Hr)%elem_of_outcomes. by eapply Hc. }
  fold o in Hcon, Hd, Hu. setoid_rewrite elem_of_outcomes in Hd. setoid_rewrite elem_of_outcomes in Hu. split.
  - rewrite Hcon. split.
    + intros [?|Hne]; [done|].
      destruct (omap sch_last_outcome (map snd (map_to_list (as_peer_schedule s)))) as [|r l] eqn:E; [done|].
      assert (Hr : r ∈ r :: l) by left. rewrite <-E in Hr. apply elem_of_outcomes in Hr as (peer & schedule & Hr). eauto.
    + intros (peer & schedule & r & Hr). right. intros E.
      assert (Hin : r ∈ omap sch_last_outcome (map snd (map_to_list (as_peer_schedule s)))).
      { apply elem_of_outcomes. eauto. }
      rewrite E in Hin. by apply not_elem_of_nil in Hin.
  - rewrite Hd, Hu. simpl. naive_solver.
Qed.

Lemma snapshot_frame s r s' :
  manifest_snapshot s = (r, s') →
  as_peer_schedule s' = as_peer_schedule s ∧ as_manifest_generation s' = as_manifest_generation s.
Proof.
  unfold manifest_snapshot. destruct (as_manifest_cache s); [by intros [= _ <-]|].
  destruct (load_manifest _ _ _); by intros [= _ <-].
Qed.

(** ** Properties *)

(** C19: the loop over the due peers ends, and it starts exactly one session for each of
    the at most four peers it selects, never more than two at once, whatever the sessions
    do and in whatever order they complete.  Selected are, of the known peers other than
    this endpoint that are due, the first four in the order of their next attempts, those
    without one first, and the sessions start in that order.  Only when the status cannot
    be updated or a session panics does the loop stop early, after a part of the selected
    peers, with an error; when the known peers cannot be loaded, no session starts. *)
Theorem sync_known_peers_attempts (env : peers_env) (st : session) :
  let s := ss_share st in
  ∃ r st' l, sync_known_peers env st = Some (r, st', l) ∧ ls_most l ≤ 2 ∧
    match load_known_peer_ids (as_files s) (as_root s) (as_share_id s) with
    | Ok known =>
        let selected := take 4 (sort_by (peer_next_at (as_peer_schedule s)) (due_known s (pn_now env) known)) in
        NoDup (ls_started l) ∧ ls_started l `prefix_of` selected ∧
        (is_ok r = true → ls_started l = selected)
    | Err e => r = Err e ∧ ls_started l = []
    end.
Proof.
  cbv zeta. pose proof (due_peers_first (ss_share st) (pn_now env)) as Hfirst. unfold sync_known_peers.
  destruct (due_peers (ss_share st) ∅ (pn_now env)) as [[peers|e] s] eqn:Ed; simpl in *;
    destruct (load_known_peer_ids _ _ _) as [known|e']; try done; injection Hfirst as Hfirst; subst.
  2: { do 3 eexists. split; [done|]. split; [simpl; lia|]. by split. }
  set (peers := take 4 _) in *.
  pose proof (due_peers_NoDup _ _ _ _ _ Ed) as Hnd.
  destruct (peers_loop_ok peers env 0 (length peers) (start_loop peers (with_share st s)) Hnd)
    as (l & Hl & [[[rest Ho] Ho'] _ _ _ Hm] & Hdone).
  { split; simpl; try done. split; [exists []; by rewrite app_nil_r|done]. }
  { unfold loop_size. simpl. lia. }
  rewrite Hl. simpl. rewrite Hdone in Ho, Ho'. simpl in Ho.
  assert (Hpre : NoDup (ls_started l) ∧ ls_started l `prefix_of` peers).
  { split; [rewrite Ho in Hnd; by apply NoDup_app in Hnd as [? _]|by exists rest]. }
  destruct (ls_failure l) as [e|] eqn:Ef.
  - do 3 eexists. split; [done|]. split; [done|]. destruct Hpre. by split_and!.
  - destruct (refresh_peer_status _ _ _ _) as [r s']. do 3 eexists. split; [done|]. split; [done|].
    destruct Hpre. split_and!; try done. intros _. rewrite (Ho' eq_refl). by rewrite app_nil_r.
Qed.

(** C20: the status of a share is what its peers said.  It is reported as synchronized
    exactly when no session runs, some peer answered for the current manifest, and no
    peer that answered has anything pending in either direction; as offline exactly
    when no session runs and no peer answered. *)
Theorem refresh_reports_peers s (synchronized : bool) (in_flight : Z) (env : update_env) outcome s'
    (Hcounts : counts_ok s) (Hflight : 0 ≤ in_flight)
    (Hr : refresh_peer_status s synchronized in_flight env = (Ok outcome, s')) :
  ∃ status, as_runtime_status s' = Some status ∧
    (rs_health status = Synchronized ↔
      in_flight = 0 ∧
      (∃ peer schedule o, answered s peer schedule o ∧
         sch_last_attempted_generation schedule = as_manifest_generation s) ∧
      (∀ peer schedule o, answered s peer schedule o →
         ps_pending_downloads o = 0 ∧ ps_pending_updates o = 0)) ∧
    (rs_health status = Offline ↔
      in_flight = 0 ∧ ∀ peer schedule o, ¬ answered s peer schedule o).
Proof.
  unfold refresh_peer_status in Hr. destruct (manifest_snapshot s) as [[snapshot|] s1] eqn:Es; [|done].
  apply snapshot_frame in Es as [Hsch Hgen]. unfold any_schedule in Hr. rewrite Hsch, Hgen in Hr.
  fold (any_schedule (is_confirmed (as_manifest_generation s)) s) in Hr.
  fold (any_schedule (λ schedule, 0 <? sch_failures schedule) s) in Hr.
  destruct (summary_of_share s Hcounts) as [Hcon Hpend].
  set (o := summarize_peer_outcomes (as_peer_schedule s)) in *.
  set (confirmed := any_schedule _ s) in Hr at 1.
  assert (Hconf : confirmed = true ↔ ∃ peer schedule o, answered s peer schedule o ∧
    sch_last_attempted_generation schedule = as_manifest_generation s).
  { unfold confirmed. rewrite any_schedule_true. unfold is_confirmed, answered. split.
    - intros (peer & schedule & Hs & Hf). destruct (sch_last_outcome schedule) eqn:Eo; [|done].
      bool_inv. eauto 10.
    - intros (peer & schedule & r & [Hs Ho] & Hg). exists peer, schedule. rewrite Ho, Hg, Z.eqb_refl. done. }
  destruct (update_runtime s1 _ _ _ _) as [[[]|e] s2] eqn:Eu; [|done]. injection Hr as _ <-.
  apply (update_reports (λ v, v.1.1.1.1.2) (assess_peers (with_unsupported o (unsupported_symlink_count (ms_manifest snapshot))) confirmed in_flight).2) in Eu
    as (status & Hst & Hh); [|done].
  exists status. split; [done|]. unfold reported in Hh. simpl in Hh. rewrite Hh. unfold assess_peers. simpl.
  rewrite <-Hconf, <-Hpend. assert (Hnone : so_connected o = false ↔ ∀ peer schedule r, ¬ answered s peer schedule r).
  { rewrite <-not_true_iff_false, Hcon. naive_solver. }
  rewrite <-Hnone. assert (Hcc : confirmed = true → so_connected o = true).
  { intros (peer & schedule & r & Hr' & _)%Hconf. apply Hcon. eauto. }
  destruct (so_connected o) eqn:Ec, confirmed eqn:Ef; try (by specialize (Hcc eq_refl)); simpl;
    destruct (Z.eqb_spec in_flight 0), (Z.ltb_spec 0 in_flight); simpl; try lia;
    destruct (Z.eqb_spec (so_pending_downloads o) 0), (Z.eqb_spec (so_pending_updates o) 0); simpl; naive_solver lia.
Qed.
End peer_sessions.

(** *** Witnesses *)

Import Ref.

(** A share whose only peer answered for the current manifest, with nothing pending. *)
Definition ex_answer : PeerSyncOutcome := {| ps_pending_downloads := 0; ps_pending_updates := 0 |}.
Definition ex_schedule : PeerSchedule := {|
  sch_next_at := Some 9; sch_last_attempted_generation := 0; sch_failures := 0;
  sch_last_outcome := Some ex_answer |}.
Definition ex_reporting : ActiveShare := {|
  as_files := ∅; as_root := bs "/d"; as_share_id := ex_share; as_config := ex_share_config;
  as_runtime_status := None; as_manifest_generation := 0; as_network_generation := 0;
  as_manifest_cache := Some (from_validated (Manifest_empty ex_share 0));
  as_peer_schedule := {[endpoint "002" := ex_schedule]}; as_local_endpoint_id := endpoint "001" |}.
Definition ex_synchronized : RuntimeStatus := {|
  rs_format_version := 1; rs_process_id := 7; rs_started_at_ms := 5; rs_heartbeat_at_ms := 5;
  rs_state := Running; rs_health := Synchronized; rs_connected_peers := 1; rs_pending_downloads := 0;
  rs_pending_updates := 0; rs_last_scan_at_ms := None; rs_last_remote_update_at_ms := None;
  rs_last_sync_at_ms := Some 5; rs_last_connection_at_ms := None; rs_last_error := None |}.

Lemma ex_answered peer schedule o :
  answered ex_reporting peer schedule o → schedule = ex_schedule ∧ o = ex_answer.
Proof.
  intros [Hs Ho]. unfold ex_reporting in Hs. cbn [as_peer_schedule] in Hs. apply lookup_singleton_Some in Hs as [_ <-]. by injection Ho as <-.
Qed.

Lemma refresh_reports_peers_witness :
  let c1 := single_state (Manifest_empty ex_share 0) in
  let c2 := single_state ex_synchronized in
  let env := {| ue_now_ms := 5; ue_pid := 7; ue_write := ex_env |} in
  ∃ status, as_runtime_status (refresh_peer_status ex_reporting true 0 env).2 = Some status ∧
    rs_health status = Synchronized.
Proof.
  intros c1 c2 env.
  assert (Hok : is_ok (refresh_peer_status ex_reporting true 0 env).1 = true) by (vm_compute; reflexivity).
  destruct (refresh_peer_status ex_reporting true 0 env) as [[outcome|e] s'] eqn:Hr; [|discriminate Hok].
  destruct (refresh_reports_peers ex_reporting true 0 env outcome s') as (status & Hst & Hsync & _).
  - intros peer schedule o [_ ->]%ex_answered. simpl. lia.
  - lia.
  - exact Hr.
  - exists status. split; [exact Hst|]. apply Hsync. split; [reflexivity|]. split.
    + exists (endpoint "002"), ex_schedule, ex_answer. split; [split; [apply lookup_singleton_eq|reflexivity]|reflexivity].
    + intros peer schedule o [_ ->]%ex_answered. split; reflexivity.
Defined.
