(* ===== verification/Registry.v ===== *)
(** * Registered shares and the first synchronization (src/network/registry.rs, src/app/mod.rs)

    [load_registry] makes the running shares; [attempt_initial_sync] is the first
    synchronization of a share that was just joined, and [join] the command around it.
    The configuration of the share is followed through a whole session: it stays on
    disk, and the share counts as synchronized only once the disk says so. *)

From S2P Require Import Prelude Collections Bytes External Reference Framing Clock Types Peers Ticket ManifestPath Manifest Merge Storage DataDir Shares Directory Digest Auth Scheduling State Wire LocalFs Partial Streaming Planning Apply Scan ShareScan App Registration Session PeerSessions.

Section registry.
Context `{HexCodec, Sha256, Iroh, Base64Codec, Blake3, Hmac, WalkDir, Allocator}
  `{!JsonState ShareConfig} `{!JsonState Manifest} `{!JsonState ClockState}
  `{!JsonState KnownPeers} `{!JsonState RuntimeStatus}
  `{!Json SyncRequest, !Json SyncResponse, !Json ManifestMessage, !Json TransferRequest,
    !Json TransferReady, !Json TransferResponse}.
Context (public_key : bytes → EndpointId).
Implicit Types (s : ActiveShare) (root share_id : bytes) (d : data_dir).

(** ** Loading the registry *)

Definition load_share (fs : files) root (endpoint_id : EndpointId) share_id : result ActiveShare :=
  config ← load_config fs root share_id;
  Ok {| as_files := fs; as_root := root; as_share_id := share_id; as_config := config;
        as_runtime_status := None; as_manifest_generation := 0; as_network_generation := 0;
        as_manifest_cache := None; as_peer_schedule := ∅; as_local_endpoint_id := endpoint_id |}.

Definition load_registry (fs : files) root (endpoint_id : EndpointId) (share_ids : list bytes)
    : result (gmap bytes ActiveShare) :=
  try_fold (λ shares share_id, share ← load_share fs root endpoint_id share_id;
                               Ok (<[share_id := share]> shares)) share_ids ∅.

(** ** The first synchronization *)

Record initial_sync_env := {
  is_registry : lock_env;
  is_device : lock_env;
  is_share : lock_env;
  is_started : update_env;
  is_bind : result unit;
  is_tree : tree;
  is_partials : partials;
  is_peers : peers_env;
  is_failed : update_env;
  is_reset : update_env;
  is_waiting : update_env;
  is_stopped : update_env;
}.

Definition state_with (env : update_env) (state : RuntimeState) (health : SyncHealth)
    (error : option bytes) : sync unit :=
  on_share (λ s, set_runtime_state s (ue_now_ms env) (ue_pid env) state health error (ue_write env)).
Definition stopped_with (env : update_env) : sync unit :=
  on_share (λ s, set_stopped s (ue_now_ms env) (ue_pid env) (ue_write env)).

Definition initial_failed : bytes := bs "initial synchronization failed".

(** The status is reset, whatever becomes of it; the error is what failed. *)
Definition cleanup_initial_sync_error {A} (env : initial_sync_env) (e : string) : sync A := λ st,
  let '(_, st) := (state_with (is_failed env) WaitingForPeers Offline (Some initial_failed);;
                   stopped_with (is_reset env)) st in
  (Err e, st).

(** [sync_known_peers] always ends, within the rounds it is given. *)
Definition sync_peers (env : peers_env) : sync SyncOutcome := λ st,
  match sync_known_peers env st with
  | Some (r, st, _) => (r, st)
  | None => (Err "unreachable", st)
  end.

(** What follows a successful round over the peers. *)
Definition conclude (env : initial_sync_env) (outcome : SyncOutcome) : sync InitialSyncStatus :=
  if so_connected outcome then
    stopped_with (is_stopped env);; mret (initial_sync_status outcome)
  else
    state_with (is_waiting env) WaitingForPeers Offline None;;
    stopped_with (is_stopped env);; mret InitialOffline.

(** With the endpoint bound: a round over the peers. *)
Definition round_or_cleanup (env : initial_sync_env) : sync InitialSyncStatus := λ st,
  match sync_peers (is_peers env) st with
  | (Err e, st) => cleanup_initial_sync_error env e st
  | (Ok outcome, st) => conclude env outcome st
  end.

Definition synchronize (env : initial_sync_env) : sync InitialSyncStatus :=
  state_with (is_started env) Synchronizing Pending None;;
  match is_bind env with
  | Err e => cleanup_initial_sync_error env e
  | Ok _ => round_or_cleanup env
  end.

(** The share runs on the files of the data directory. *)
Definition run_share (env : initial_sync_env) (share : ActiveShare) : app InitialSyncStatus := λ d,
  let '(r, st) := synchronize env {| ss_share := share; ss_tree := is_tree env;
    ss_partials := is_partials env; ss_recv := []; ss_sent := [] |} in
  (r, with_dd_files d (as_files (ss_share st))).

Definition attempt_initial_sync root (env : initial_sync_env) (endpoint_id : EndpointId) share_id
    : app InitialSyncStatus :=
  acquire_registry_lock root (is_registry env);;
  device ← try_acquire_device_run_lock root (is_device env);
  if negb device then mret InitialOffline
  else
    locked ← try_acquire_share_lock root share_id (is_share env);
    if negb locked then mret InitialOffline
    else
      registry ← reading (λ d, load_registry (dd_files d) root endpoint_id [share_id]);
      match registry !! share_id with
      | None => mret InitialOffline
      | Some share => run_share env share
      end.

(** ** Joining *)

Record join_env := {
  jn_register : register_env;
  jn_identity : identity_env;
  jn_sync : initial_sync_env;
}.

Definition join root (env : join_env) (ticket_text requested_directory : bytes) : app JoinResult :=
  result ← register_join public_key root (jn_register env) ticket_text requested_directory;
  endpoint_id ← device_id public_key root (jn_identity env);
  status ← attempt_initial_sync root (jn_sync env) endpoint_id (jr_share_id result);
  mret {| jr_name := jr_name result; jr_share_id := jr_share_id result;
          jr_local_directory := jr_local_directory result; jr_endpoint_id := jr_endpoint_id result;
          jr_initial_peers := jr_initial_peers result; jr_initial_sync_status := status |}.

(** ** The configuration on disk *)

Definition stored_config s : option ShareConfig :=
  as_files s !! share_config (as_root s) (as_share_id s) ≫= from_slice.

(** The outcomes the schedules hold. *)
Definition outcomes s : gmap EndpointId PeerSyncOutcome := omap sch_last_outcome (as_peer_schedule s).

(** An operation that does not concern the configuration or the outcomes. *)
Definition steady s s' : Prop :=
  as_root s' = as_root s ∧ as_share_id s' = as_share_id s ∧ as_config s' = as_config s ∧
  stored_config s' = stored_config s ∧ outcomes s' = outcomes s.

Lemma steady_refl s : steady s s.
Proof. by split_and!. Qed.
Lemma steady_trans s1 s2 s3 : steady s1 s2 → steady s2 s3 → steady s1 s3.
Proof. intros (?&?&?&?&?) (?&?&?&?&?). split_and!; congruence. Qed.

(** Writes of the other state files. *)
Lemma steady_write {T} `{!JsonState T} s name (v : T) env :
  is_absolute name = false → name ≠ bs "config.json" →
  steady s (with_files s (atomic_write_json (as_files s) (share_dir (as_root s) (as_share_id s)) name v env).2).
Proof.
  intros Hn Hne. split_and!; try done. unfold stored_config. simpl. f_equal.
  apply atomic_write_json_frame; try done.
Qed.
Lemma steady_runtime s fs status : steady s (with_files s fs) → steady s (with_runtime s fs status).
Proof. done. Qed.
Lemma steady_cached s cache generation : steady s (with_cache s cache generation).
Proof. done. Qed.

Lemma steady_snapshot s r s' : manifest_snapshot s = (r, s') → steady s s'.
Proof.
  unfold manifest_snapshot. destruct (as_manifest_cache s); [intros [= _ <-]; by split_and!|].
  destruct (load_manifest _ _ _); intros [= _ <-]; by split_and!.
Qed.

Lemma steady_status s now pid hb f env r s' : update_status s now pid hb f env = (r, s') → steady s s'.
Proof.
  unfold update_status. destruct (match as_runtime_status s with Some _ => _ | None => _ end) as [previous|];
    [|intros [= _ <-]; by split_and!].
  destruct (negb hb && _); [intros [= _ <-]; by split_and!|].
  unfold save_runtime_status. destruct (RuntimeStatus_validate _);
    [|intros [= _ <-]; by split_and!].
  match goal with |- context [atomic_write_json ?fs ?dir ?name ?v env] =>
    pose proof (steady_write s name v env eq_refl ltac:(done)) as Hw;
    destruct (atomic_write_json fs dir name v env) as [[[]|e] fs'] end;
    intros [= _ <-]; by apply steady_runtime.
Qed.

Lemma steady_peers s ps a now env r s' : merge_remote_peers s ps a now env = (r, s') → steady s s'.
Proof.
  unfold merge_remote_peers. destruct (mbind _ _) as [[known ids]|]; [|intros [= _ <-]; by split_and!].
  unfold save_known_peers. destruct (KnownPeers_validate _); [|intros [= _ <-]; by split_and!].
  match goal with |- context [atomic_write_json ?fs ?dir ?name ?v env] =>
    pose proof (steady_write s name v env eq_refl ltac:(done)) as Hw;
    destruct (atomic_write_json fs dir name v env) as [? fs'] end. by intros [= _ <-].
Qed.

Lemma steady_clock s c env r fs :
  save_clock (as_files s) (as_root s) (as_share_id s) c env = (r, fs) → steady s (with_files s fs).
Proof.
  unfold save_clock. destruct (ClockState_validate _); [|intros [= _ <-]; by split_and!].
  pose proof (steady_write s (bs "clock.json") c env eq_refl ltac:(done)) as Hw.
  destruct (atomic_write_json _ _ _ _ _) as [? fs']. by intros [= _ <-].
Qed.

Lemma steady_save_manifest s m env r s' : save_manifest s m env = (r, s') → steady s s'.
Proof.
  unfold save_manifest. destruct (negb _) eqn:En; [intros [= _ <-]; by split_and!|]. bool_inv.
  assert (Hs : steady s (with_files s (store_manifest (as_files s) (as_root s) m env).2)).
  { unfold store_manifest. destruct (Manifest_validate _ _); [|by split_and!]. rewrite En. by apply steady_write. }
  destruct (store_manifest _ _ _ _) as [[u|e] fs]; intros [= _ <-]; simpl in Hs;
    (eapply steady_trans; [exact Hs|apply steady_cached]).
Qed.

Lemma steady_scan s t root reads now status_ms pid e1 e2 e3 r s' :
  scan_and_save s t root reads now status_ms pid e1 e2 e3 = (r, s') → steady s s'.
Proof.
  unfold scan_and_save. destruct (config_root t); [|intros [= _ <-]; by split_and!].
  destruct (manifest_snapshot s) as [[snapshot|] s1] eqn:Es; apply steady_snapshot in Es; [|by intros [= _ <-]].
  destruct (mbind _ _) as [scanned|]; [|by intros [= _ <-]].
  destruct (save_scanned_clock s1 scanned e1) as [[u|] s2] eqn:Ec;
    (assert (Hc : steady s1 s2);
     [unfold save_scanned_clock in Ec; destruct (0 <? _);
      [destruct (save_clock _ _ _ _ _) eqn:E2; injection Ec as _ <-; by eapply steady_clock|
       injection Ec as _ <-; by split_and!]|]); [|intros [= _ <-]; by eapply steady_trans].
  destruct (save_scanned_manifest s2 scanned e2) as [[u'|] s3] eqn:Em;
    (assert (Hm : steady s2 s3);
     [unfold save_scanned_manifest in Em; destruct (sr_manifest_changed scanned);
      [by eapply steady_save_manifest|injection Em as _ <-; by split_and!]|]);
    [|intros [= _ <-]; eauto using steady_trans].
  intros Hu%steady_status. eauto using steady_trans.
Qed.

Lemma steady_apply fe env remote completed st r st' :
  apply_transfer fe env remote completed st = (r, st') → steady (ss_share st) (ss_share st').
Proof.
  unfold apply_transfer, apply_validated_remote_staged_transfer, apply_remote_transfer_impl.
  destruct (mbind _ _) as [[]|]; [|intros [= _ <-]; by split_and!].
  destruct (directory_root _); [|intros [= _ <-]; by split_and!].
  destruct (manifest_snapshot (ss_share st)) as [[snapshot|] s1] eqn:Es; apply steady_snapshot in Es;
    [|by intros [= _ <-]].
  destruct (apply_loops _ _ _ _ _ _) as [[[]|] st2]; [|by intros [= _ <-]].
  match goal with |- context [commit_candidate ?a ?b ?c ?d ?e ?f ?g] =>
    assert (Hc : steady a (commit_candidate a b c d e f g).2);
    [|destruct (commit_candidate a b c d e f g) as [[[]|] s2]; intros [= _ <-]; simpl in *; eauto using steady_trans] end.
  unfold commit_candidate. destruct (ap_candidate st2) as [c|]; [|by split_and!].
  destruct (Manifest_validate _ _); [|by split_and!]. destruct (same_records _ _); [by split_and!|].
  unfold observe_manifest_clock. destruct (mbind _ _) as [clock|]; [|by split_and!].
  destruct (save_clock _ _ _ _ _) as [[u|] fs] eqn:Ec; apply steady_clock in Ec; [|done].
  match goal with |- context [save_manifest ?a ?b ?c] => destruct (save_manifest a b c) as [r2 s2] eqn:Em end.
  apply steady_save_manifest in Em. eauto using steady_trans.
Qed.

Lemma steady_retry s : steady s (retry_peers s).
Proof.
  split_and!; try done. unfold outcomes. simpl. apply map_eq. intros p.
  rewrite !lookup_omap, lookup_fmap. by destruct (as_peer_schedule s !! p).
Qed.
Lemma steady_retries n s : steady s (Nat.iter n retry_peers s).
Proof. induction n as [|n IH]; simpl; [apply steady_refl|]. eapply steady_trans; [exact IH|apply steady_retry]. Qed.

(** ** The configuration during a session *)

(** The configuration in memory is the one on disk, or the disk has its completion. *)
Definition disk_ok s : Prop :=
  cfg_share_id (as_config s) = as_share_id s ∧
  (stored_config s = Some (as_config s) ∨ stored_config s = Some (complete_config (as_config s))).

(** What happens to a share: its configuration may be completed, and stays on disk. *)
Definition advanced s s' : Prop :=
  as_root s' = as_root s ∧ as_share_id s' = as_share_id s ∧ disk_ok s' ∧ outcomes s' = outcomes s ∧
  (as_config s' = as_config s ∨ as_config s' = complete_config (as_config s)).

Definition config_safe {A} (m : sync A) : Prop :=
  ∀ st r st', disk_ok (ss_share st) → m st = (r, st') → advanced (ss_share st) (ss_share st').

Lemma steady_disk s s' : steady s s' → disk_ok s → disk_ok s'.
Proof. intros (Hr & Hi & Hc & Hf & _) [Hid Hd]. split; [congruence|]. by rewrite Hf, Hc. Qed.
Lemma steady_advanced s s' : disk_ok s → steady s s' → advanced s s'.
Proof.
  intros Hd Hs. pose proof (steady_disk _ _ Hs Hd) as Hd'. destruct Hs as (Hr & Hi & Hc & Hf & Ho).
  split_and!; try done. by left.
Qed.
Lemma advanced_refl s : disk_ok s → advanced s s.
Proof. intros Hd. by apply steady_advanced. Qed.
Lemma advanced_trans s1 s2 s3 : advanced s1 s2 → advanced s2 s3 → advanced s1 s3.
Proof.
  intros (Hr & Hi & Hd & Ho & Hc) (Hr' & Hi' & Hd' & Ho' & Hc'). split_and!; try congruence; try done.
  destruct Hc as [Hc|Hc], Hc' as [Hc'|Hc']; rewrite Hc', ?Hc; auto.
Qed.

Lemma safe_ret {A} (a : A) : config_safe (mret a).
Proof. intros st r st' Hd [= _ <-]. by apply advanced_refl. Qed.
Lemma safe_bind {A B} (m : sync A) (f : A → sync B) :
  config_safe m → (∀ a, config_safe (f a)) → config_safe (m ≫= f).
Proof.
  intros Hm Hf st r st' Hd. unfold mbind, sync_bind. destruct (m st) as [[a|e] st1] eqn:E.
  - intros Ef. pose proof (Hm _ _ _ Hd E) as Ha. eapply advanced_trans; [exact Ha|].
    apply (Hf a st1 r st'); [apply Ha|done].
  - intros [= _ <-]. by eapply Hm.
Qed.
Lemma safe_looking {A} (f : session → result A) : config_safe (looking f).
Proof. intros st r st' Hd [= _ <-]. by apply advanced_refl. Qed.
Lemma safe_checked {A} (r : result A) : config_safe (checked r).
Proof. apply safe_looking. Qed.
Lemma safe_on_share {A} (f : ActiveShare → result A * ActiveShare) :
  (∀ s r s', f s = (r, s') → steady s s') → config_safe (on_share f).
Proof.
  intros Hf st r st' Hd. unfold on_share. destruct (f (ss_share st)) as [r' s'] eqn:E. intros [= _ <-].
  apply steady_advanced; [done|]. by eapply Hf.
Qed.
Lemma safe_on_partials {A} (f : partials → result A * partials) : config_safe (on_partials f).
Proof. intros st r st' Hd. unfold on_partials. destruct (f _) as [? ?]. intros [= _ <-]. by apply advanced_refl. Qed.
Lemma safe_receive {A} (f : bytes → result (A * bytes)) : config_safe (receive f).
Proof.
  intros st r st' Hd. unfold receive. destruct (f _) as [[? ?]|]; intros [= _ <-]; by apply advanced_refl.
Qed.
Lemma safe_send lost f : config_safe (send lost f).
Proof.
  intros st r st' Hd. unfold send. destruct (mbind _ _) as [?|]; intros [= _ <-]; by apply advanced_refl.
Qed.
Lemma safe_chunks f : config_safe (receive_chunks f).
Proof.
  intros st r st' Hd. unfold receive_chunks. destruct (f _ _) as [[[? ?]|] ?]; intros [= _ <-]; by apply advanced_refl.
Qed.
Lemma safe_apply fe env remote completed : config_safe (apply_transfer fe env remote completed).
Proof. intros st r st' Hd E. apply steady_advanced; [done|]. by eapply steady_apply. Qed.
Lemma safe_update env f : config_safe (update_with env f).
Proof. apply safe_on_share. intros s r s'. apply steady_status. Qed.
Lemma safe_snapshot : config_safe (on_share manifest_snapshot).
Proof. apply safe_on_share. intros s r s'. apply steady_snapshot. Qed.
Lemma safe_merge peers peer now env :
  config_safe (on_share (λ s, merge_remote_peers s peers peer now env)).
Proof. apply safe_on_share. intros s r s'. apply steady_peers. Qed.
Lemma safe_first_scan env : config_safe (first_scan env).
Proof.
  intros st r st' Hd E. unfold first_scan in E. eapply safe_on_share; [|done|exact E].
  intros s r0 s'. apply steady_scan.
Qed.

(** The completed configuration is written before it is used. *)
Lemma safe_finish env : cuts (ni_config env) → config_safe (finish_initial_sync env).
Proof.
  intros Hcut st r st' Hd. unfold finish_initial_sync, mbind at 1, sync_bind at 1, looking at 1.
  set (s := ss_share st) in *. set (c := complete_config (as_config s)).
  unfold mbind at 1, sync_bind at 1, on_share at 1. fold s. destruct Hd as [Hid Hst].
  assert (Hw : ∀ r fs, save_config (as_files s) (as_root s) c (ni_config env) = (r, fs) →
    (stored_config (with_files s fs) = stored_config s ∨ stored_config (with_files s fs) = Some c) ∧
    (r = Ok tt → stored_config (with_files s fs) = Some c)).
  { intros r0 fs. unfold save_config. destruct (ShareConfig_validate _ _); [|intros [= <- <-]; by split; [left|]].
    change (cfg_share_id c) with (cfg_share_id (as_config s)). rewrite Hid. intros Ew. unfold stored_config. simpl.
    unfold share_config, share_path. split.
    - destruct (atomic_write_json_outcome (as_files s) (share_dir (as_root s) (as_share_id s)) (bs "config.json") c
        (ni_config env) eq_refl Hcut) as [E|(b & Hb & E)]; rewrite Ew in E; simpl in E; rewrite E; [by left|right].
      simpl. rewrite from_slice_newline. by apply from_slice_to_vec.
    - intros ->. apply atomic_write_json_Ok in Ew as (b & Hb & E & _); [|done|done]. rewrite E. simpl.
      rewrite from_slice_newline. by apply from_slice_to_vec. }
  destruct (save_config _ _ _ _) as [[[]|e] fs] eqn:Es; specialize (Hw _ _ eq_refl) as [Hw Hok].
  - cbn [mbind sync_bind]. unfold on_share at 1. intros E.
    assert (Hd1 : disk_ok (replace_config (with_files s fs) c)).
    { split; [done|]. left. by apply Hok. }
    eapply advanced_trans; [|eapply (safe_first_scan env); [|exact E]; exact Hd1].
    split_and!; try done. by right.
  - intros [= _ <-]. split_and!; try done; [|by left]. split; [done|]. simpl.
    change (as_config (with_files s fs)) with (as_config s). destruct Hw as [->|Hw]; [done|by right].
Qed.

Create HintDb config_safe.
Local Hint Resolve safe_ret safe_looking safe_checked safe_on_partials safe_receive safe_send safe_chunks
  safe_apply safe_update safe_snapshot safe_merge safe_finish : config_safe.

(** Takes a session apart into its steps. *)
Local Ltac config_safe :=
  repeat first
    [ solve [auto with config_safe]
    | progress (cbv beta iota zeta)
    | apply safe_bind; [|intros ?]
    | match goal with
      | |- config_safe (if ?b then _ else _) => destruct b
      | |- config_safe (let '(_, _) := ?p in _) => destruct p
      | |- config_safe (match ?p with (_, _) => _ end) => destruct p
      end ].

Lemma safe_client env peer : cuts (ni_config (cl_initial env)) → config_safe (sync_with_peer env peer).
Proof.
  intros Hcut. unfold sync_with_peer, client_handshake, outbound, client_transfer, write_json_frame, read_json_frame.
  config_safe.
Qed.

(** ** A session without pending downloads completes the share *)

Lemma first_scan_config env st r st' :
  first_scan env st = (r, st') → as_config (ss_share st') = as_config (ss_share st).
Proof.
  unfold first_scan, on_share. destruct (scan_and_save _ _ _ _ _ _ _ _ _ _) as [r' s] eqn:E. intros [= _ <-].
  by apply steady_scan in E as (_ & _ & ? & _).
Qed.
Lemma finish_completes env st st' :
  finish_initial_sync env st = (Ok tt, st') → cfg_initial_sync_complete (as_config (ss_share st')) = true.
Proof.
  intros E. unfold finish_initial_sync in E. sync_step E c Hc. injection Hc as <-. sync_step E u Hs. sync_step E u' Hr.
  clear Hr. by apply first_scan_config in E as ->.
Qed.

(** The counts of pending files are unsigned. *)
Lemma apply_loops_pending e cross local remote file_data st st' :
  apply_loops e cross local remote file_data st = (Ok tt, st') → 0 ≤ ap_pending st → 0 ≤ ap_pending st'.
Proof.
  assert (Heach : ∀ A (f : A → applying → result unit * applying) l a a',
    (∀ x a a', f x a = (Ok tt, a') → 0 ≤ ap_pending a → 0 ≤ ap_pending a') →
    each f l a = (Ok tt, a') → 0 ≤ ap_pending a → 0 ≤ ap_pending a').
  { intros A f l a a' Hf E Ha. revert E. apply (each_inv (λ a _, 0 ≤ ap_pending a)); [done|].
    intros past x future a1 a2 _ Hs Hx. by eapply Hf. }
  unfold apply_loops.
  destruct (each _ _ st) as [[[]|m] st1] eqn:E1; [|done].
  destruct (each _ _ st1) as [[[]|m] st2] eqn:E2; [|done].
  destruct (each _ _ st2) as [[[]|m] st3] eqn:E3; [|done].
  destruct (each _ _ st3) as [[[]|m] st4] eqn:E4; [|done]. intros E5 Hst.
  apply Heach in E1, E2, E3, E4, E5; try done.
  - intros [p d] a a'. unfold apply_mode. destruct (set_local_directory_permissions _ _ _ _). by intros [= _ <-].
  - intros [p x] a a'. unfold apply_file. destruct (negb _); [by intros [= <-]|].
    destruct (file_data !! p).
    + destruct (install_incoming _ _ _ _ _ _) as [[[|] ?] ?]; [|done]. by intros [= <-].
    + destruct (unchanged_content _ _ _ _ _) as [[[]|] t]; [| |done].
      * destruct (set_local_file_permissions _ _ _ _) as [[|] ?]; [|done]. by intros [= <-].
      * intros [= <-]. simpl. unfold saturating_add. u_unfold. lia.
  - intros [p x] a a'. unfold apply_symlink. destruct (negb _); [by intros [= <-]|].
    destruct (write_local_symlink _ _ _ _) as [[|] ?]; [|done]. by intros [= <-].
  - intros [p x] a a'. unfold apply_directory. destruct (negb _); [by intros [= <-]|].
    destruct (ensure_local_directory _ _ _) as [[|] ?]; [|done]. by intros [= <-].
  - intros [p x] a a'. unfold apply_deletion. destruct (remove_local_path _ _ _) as [[|] ?]; [|done]. by intros [= <-].
Qed.

Lemma apply_transfer_pending fe env remote completed st out st' :
  apply_transfer fe env remote completed st = (Ok out, st') → 0 ≤ ao_pending_downloads out.
Proof.
  unfold apply_transfer, apply_validated_remote_staged_transfer, apply_remote_transfer_impl.
  destruct (mbind _ _) as [[]|]; [|done]. destruct (directory_root _); [|done].
  destruct (manifest_snapshot _) as [[snapshot|] s1]; [|done].
  destruct (apply_loops _ _ _ _ _ _) as [[[]|] st2] eqn:E; [|done].
  destruct (commit_candidate _ _ _ _ _ _ _) as [[|] s2]; [|done]. intros [= <- _]. simpl.
  by apply apply_loops_pending in E.
Qed.

Lemma transfer_completes_share env share_id response local st out st' :
  client_transfer env share_id response local st = (Ok out, st') →
  0 ≤ ps_pending_downloads out ∧ 0 ≤ ps_pending_updates out ∧
  (ps_pending_downloads out = 0 → cfg_initial_sync_complete (as_config (ss_share st')) = true).
Proof.
  intros E. unfold client_transfer in E.
  sync_step E u1 F1. sync_step E remote F2. sync_step E u3 F3. sync_step E tp F4. destruct tp as [transfer updates].
  sync_step E u5 F5. sync_step E ready F6. sync_step E u7 F7. sync_step E u8 F8. sync_step E u9 F9.
  sync_step E final F10. sync_step E validated F11. sync_step E completed F12. sync_step E ares F13.
  sync_step E u14 F14. sync_step E config F15. injection F15 as <-. sync_step E u16 F16. injection E as <- <-. simpl.
  split; [by eapply apply_transfer_pending|]. split.
  { unfold make_transfer_request in F4. destruct (plan_downloads _ _ _ _ _) as [[[? ?]|] ?]; [|done].
    destruct (foldl (plan_upload _) _ _) as [? ?]. injection F4 as _ <- _. lia. }
  intros Hz. rewrite Hz in F16. simpl in F16. destruct (cfg_initial_sync_complete _) eqn:Ec; simpl in F16.
  - by injection F16 as _ <-.
  - destruct u16. by eapply finish_completes.
Qed.

Lemma session_completes_share env peer st out st' :
  cuts (ni_config (cl_initial env)) → disk_ok (ss_share st) →
  sync_with_peer env peer st = (Ok out, st') →
  0 ≤ ps_pending_downloads out ∧ 0 ≤ ps_pending_updates out ∧
  (ps_pending_downloads out = 0 → cfg_initial_sync_complete (as_config (ss_share st')) = true).
Proof.
  intros Hcut Hd E. pose proof (safe_client env peer Hcut st _ st' Hd E) as (_ & _ & _ & _ & Hc).
  unfold sync_with_peer in E. sync_step E config F1. injection F1 as <-. sync_step E share_id F2.
  sync_step E u3 F3. sync_step E u4 F4. sync_step E u5 F5. sync_step E o F6. destruct o as [digest snapshot].
  sync_step E known F7. sync_step E u8 F8. sync_step E response F9. sync_step E u10 F10. sync_step E u11 F11.
  case_bool_decide; [|by eapply transfer_completes_share].
  sync_step E u12 F12. sync_step E u13 F13. injection E as <- <-. simpl. split_and!; [done..|]. intros _.
  destruct (cfg_initial_sync_complete (as_config (ss_share st))) eqn:Ec.
  - destruct Hc as [->| ->]; [done|done].
  - simpl in F12. sync_step F12 now_config F14. injection F14 as <-.
    match type of F12 with context [negb ?b] => destruct b eqn:Ec' end; simpl in F12.
    + by injection F12 as _ <-.
    + destruct u12. by eapply finish_completes.
Qed.

(** ** The round over the peers *)

(** A share on its way from [s0]: a peer that answered without pending downloads has
    completed it. *)
Record on_way (s0 s : ActiveShare) : Prop := {
  ow_root : as_root s = as_root s0;
  ow_id : as_share_id s = as_share_id s0;
  ow_disk : disk_ok s;
  ow_config : as_config s = as_config s0 ∨ as_config s = complete_config (as_config s0);
  ow_outcomes : ∀ peer o, outcomes s !! peer = Some o →
    0 ≤ ps_pending_downloads o ∧ 0 ≤ ps_pending_updates o ∧
    (ps_pending_downloads o = 0 → cfg_initial_sync_complete (as_config s) = true);
}.

Lemma advanced_on_way s0 s s' : on_way s0 s → advanced s s' → on_way s0 s'.
Proof.
  intros [Hr Hi Hd Hc Ho] (Hr' & Hi' & Hd' & Ho' & Hc'). split; [congruence..|done| |].
  - destruct Hc as [Hc|Hc], Hc' as [Hc'|Hc']; rewrite Hc', Hc; auto.
  - rewrite Ho'. intros peer o Hpo. destruct (Ho peer o Hpo) as (? & ? & Hz). split_and!; try done.
    intros E. specialize (Hz E). by destruct Hc' as [->| ->].
Qed.
Lemma steady_on_way s0 s s' : on_way s0 s → steady s s' → on_way s0 s'.
Proof. intros Hw Hs. eapply advanced_on_way; [done|]. apply steady_advanced; [apply Hw|done]. Qed.

Lemma attempt_outcomes s peer generation network outcome now jitter q :
  outcomes (record_peer_attempt s peer generation network outcome now jitter) !! q =
    if decide (q = peer) then
      match outcome with
      | Some o => if so_connected o then Some {| ps_pending_downloads := so_pending_downloads o;
                                                 ps_pending_updates := so_pending_updates o |} else None
      | None => None
      end
    else outcomes s !! q.
Proof.
  unfold outcomes, record_peer_attempt. simpl. rewrite !lookup_omap. case_decide as Hq.
  - subst q. rewrite lookup_insert_eq. simpl.
    destruct (_ =? network); simpl; unfold after_attempt;
      (destruct outcome as [o|]; [destruct (so_connected o) eqn:E|]; simpl; rewrite ?E; done).
  - by rewrite lookup_insert_ne.
Qed.

Lemma task_on_way s0 envs round closed peer st c st' :
  (∀ n, cuts (ni_config (cl_initial (te_client (envs n))))) → on_way s0 (ss_share st) →
  session_tasks envs round closed peer st = (c, st') → on_way s0 (ss_share st').
Proof.
  intros Hcut Hw. unfold session_tasks, run_peer_session. simpl.
  destruct (te_closed (envs round) || closed); [by intros [= _ <-]|].
  destruct (sync_with_peer _ _ _) as [r st1] eqn:E. intros [= _ <-]. simpl.
  assert (Hd : disk_ok (ss_share (with_sent (with_recv st (te_recv (envs round))) []))) by apply Hw.
  pose proof (safe_client _ _ (Hcut round) _ _ _ Hd E) as Ha.
  pose proof (advanced_on_way _ _ _ Hw Ha) as Hw1.
  pose proof (steady_on_way _ _ _ Hw1 (steady_retries (te_retries (envs round)) (ss_share st1))) as Hw2.
  set (s2 := Nat.iter _ _ _) in *. destruct Hw2 as [Hr Hi Hdisk Hc Ho]. split; try done.
  intros q o. rewrite attempt_outcomes. case_decide as Hq; [|by apply Ho].
  destruct r as [out|e]; [|done]. simpl. intros [= <-]. simpl.
  apply (session_completes_share _ _ _ _ _ (Hcut round) Hd) in E as (? & ? & Hz). split_and!; try done.
  intros Ez. specialize (Hz Ez). destruct (steady_retries (te_retries (envs round)) (ss_share st1)) as (_ & _ & Hcfg & _).
  change (as_config (record_peer_attempt s2 peer _ _ _ _ _)) with (as_config s2). fold s2 in Hcfg. by rewrite Hcfg.
Qed.

Lemma steady_refresh s synchronized in_flight env r s' :
  refresh_peer_status s synchronized in_flight env = (r, s') →
  steady s s' ∧ as_peer_schedule s' = as_peer_schedule s ∧
  ∀ o, r = Ok o → o = with_unsupported (summarize_peer_outcomes (as_peer_schedule s)) 0.
Proof.
  unfold refresh_peer_status. destruct (manifest_snapshot s) as [[snapshot|] s1] eqn:Es;
    apply steady_snapshot in Es as Hs; apply snapshot_frame in Es as [Hp _]; [|by intros [= <- <-]].
  destruct (update_runtime _ _ _ _ _) as [ru s2] eqn:Eu. unfold update_runtime in Eu.
  assert (Hp2 : as_peer_schedule s2 = as_peer_schedule s1).
  { revert Eu. unfold update_status. destruct (match as_runtime_status s1 with Some _ => _ | None => _ end); [|by intros [= _ <-]].
    destruct (negb false && _); [by intros [= _ <-]|]. destruct (save_runtime_status _ _ _ _ _) as [[|] ?]; by intros [= _ <-]. }
  apply steady_status in Eu. pose proof (steady_trans _ _ _ Hs Eu) as Ht. rewrite Hp in Hp2.
  destruct ru as [u|e]; intros [= <- <-]; (split_and!; [done|done|]); [|done]. intros o [= <-]. by rewrite Hp.
Qed.

Lemma due_on_way s0 s active now r s' :
  on_way s0 s → due_peers s active now = (r, s') → on_way s0 s'.
Proof.
  intros Hw. unfold due_peers. destruct (load_known_peer_ids _ _ _); [|by intros [= _ <-]]. intros [= _ <-].
  destruct Hw as [Hr Hi Hd Hc Ho]. split; try done. simpl. intros peer o Hpo. apply (Ho peer o).
  unfold outcomes in *. simpl in Hpo. rewrite lookup_omap in *. apply bind_Some in Hpo as (sch & Hsch & Hout).
  apply map_lookup_filter_Some in Hsch as [Hsch _]. by rewrite Hsch.
Qed.

Lemma peers_loop_on_way s0 env envs round fuel l l' :
  (∀ n, cuts (ni_config (cl_initial (te_client (envs n))))) → pn_task env = session_tasks envs →
  on_way s0 (ss_share (ls_world l)) → peers_loop env round fuel l = Some l' →
  on_way s0 (ss_share (ls_world l')).
Proof.
  intros Hcut Htask. revert round l. induction fuel as [|fuel IH]; intros round l Hw; simpl;
    (destruct (is_done l); [by intros [= <-]|]); [done|]. apply IH.
  assert (Hw1 : on_way s0 (ss_share (ls_world (start_round l)))).
  { unfold start_round. by destruct (start_pending _ _). }
  set (l1 := start_round l) in *.
  assert (Hw2 : on_way s0 (ss_share (ls_world (refresh_round (pn_refresh env round) l1)))).
  { unfold refresh_round. destruct (ls_failure l1); [done|].
    destruct (refresh_peer_status _ _ _ _) as [r s] eqn:Er. apply steady_refresh in Er as [Hs _].
    destruct r; simpl; by eapply steady_on_way. }
  set (l2 := refresh_round _ l1) in *. unfold complete_round.
  destruct (join_next _ _) as [[peer ps]|]; [|done]. rewrite Htask.
  destruct (session_tasks envs round (ls_closed l2) peer (ls_world l2)) as [c st] eqn:Et.
  apply (task_on_way s0) in Et; [|done|done]. unfold finish. destruct c as [b|]; [|done].
  destruct (refresh_peer_status _ _ _ _) as [r s] eqn:Er. apply steady_refresh in Er as [Hs _].
  destruct r; simpl; by eapply steady_on_way.
Qed.

Lemma sync_peers_on_way s0 env envs st r st' :
  (∀ n, cuts (ni_config (cl_initial (te_client (envs n))))) → pn_task env = session_tasks envs →
  on_way s0 (ss_share st) → sync_peers env st = (r, st') →
  on_way s0 (ss_share st') ∧
  ∀ outcome, r = Ok outcome →
    outcome = with_unsupported (summarize_peer_outcomes (as_peer_schedule (ss_share st'))) 0.
Proof.
  intros Hcut Htask Hw. unfold sync_peers, sync_known_peers.
  destruct (due_peers (ss_share st) ∅ (pn_now env)) as [[peers|e] s] eqn:Ed;
    apply (due_on_way s0) in Ed; try done; [|by intros [= <- <-]].
  destruct (peers_loop env 0 (length peers) (start_loop peers (with_share st s))) as [l|] eqn:El; simpl;
    [|by intros [= <- <-]].
  apply (peers_loop_on_way s0 _ envs) in El; [|done|done|done].
  destruct (ls_failure l); [by intros [= <- <-]|].
  destruct (refresh_peer_status (ss_share (ls_world l)) false 0 (pn_last env)) as [r1 s1] eqn:Er.
  apply steady_refresh in Er as (Hs & Hp & Ho). intros [= <- <-]. simpl.
  split; [by eapply steady_on_way|]. by rewrite Hp.
Qed.

(** ** The first synchronization as a whole *)

Lemma state_with_steady env state health error st r st' :
  state_with env state health error st = (r, st') → steady (ss_share st) (ss_share st').
Proof.
  unfold state_with, on_share. destruct (set_runtime_state _ _ _ _ _ _ _) as [r' s] eqn:E. intros [= _ <-].
  by apply steady_status in E.
Qed.
Lemma stopped_with_steady env st r st' :
  stopped_with env st = (r, st') → steady (ss_share st) (ss_share st').
Proof.
  unfold stopped_with, on_share. destruct (set_stopped _ _ _ _) as [r' s] eqn:E. intros [= _ <-].
  by apply steady_status in E.
Qed.

Lemma cleanup_steady {A} env e st (r : result A) st' :
  cleanup_initial_sync_error env e st = (r, st') → steady (ss_share st) (ss_share st') ∧ r = Err e.
Proof.
  unfold cleanup_initial_sync_error. match goal with |- (let '(_, _) := ?m in _) = _ → _ => destruct m as [r1 st1] eqn:E end.
  intros [= <- <-]. split; [|done].
  unfold mbind, sync_bind in E. destruct (state_with _ _ _ _ st) as [[u|] st2] eqn:Es; apply state_with_steady in Es.
  - apply stopped_with_steady in E. by eapply steady_trans.
  - by injection E as _ <-.
Qed.

Lemma conclude_steady env outcome st r st' :
  conclude env outcome st = (r, st') → steady (ss_share st) (ss_share st') ∧
  (r = Ok InitialComplete → so_connected outcome = true ∧ so_pending_downloads outcome = 0 ∧
     so_pending_updates outcome = 0).
Proof.
  unfold conclude. destruct (so_connected outcome) eqn:Ec; unfold mbind, sync_bind.
  - destruct (stopped_with _ st) as [[u|] st1] eqn:Es; apply stopped_with_steady in Es; intros [= <- <-]; (split; [done|]); [|done].
    unfold initial_sync_status. rewrite Ec. simpl. intros Hs. injection Hs as Hs.
    destruct (_ && _) eqn:E; [|done]. by bool_inv.
  - destruct (state_with _ _ _ _ st) as [[u|] st1] eqn:Es; apply state_with_steady in Es; [|by intros [= <- <-]].
    destruct (stopped_with _ st1) as [[u'|] st2] eqn:Es2; apply stopped_with_steady in Es2;
      intros [= <- <-]; (split; [by eapply steady_trans|done]).
Qed.

(** Some peer answered, none with pending downloads: the share is complete. *)
Lemma complete_outcome s0 s o :
  on_way s0 s → o = with_unsupported (summarize_peer_outcomes (as_peer_schedule s)) 0 →
  so_connected o = true → so_pending_downloads o = 0 → so_pending_updates o = 0 →
  cfg_initial_sync_complete (as_config s) = true.
Proof.
  intros Hw -> Hc Hpd Hpu. simpl in *.
  assert (Hans : ∀ peer schedule out, answered s peer schedule out → outcomes s !! peer = Some out).
  { intros peer schedule out [Hs Ho]. unfold outcomes. by rewrite lookup_omap, Hs. }
  destruct (summary_of_share s) as [Hcon Hz].
  { intros peer schedule out Ha. apply Hans in Ha. apply (ow_outcomes _ _ Hw) in Ha. naive_solver. }
  apply Hcon in Hc as (peer & schedule & out & Ha).
  destruct (proj1 Hz (conj Hpd Hpu) peer schedule out Ha) as [Hd _].
  apply Hans, (ow_outcomes _ _ Hw) in Ha as (_ & _ & Hdone). auto.
Qed.

Lemma synchronize_on_way env envs s0 st r st' :
  (∀ n, cuts (ni_config (cl_initial (te_client (envs n))))) → pn_task (is_peers env) = session_tasks envs →
  on_way s0 (ss_share st) → synchronize env st = (r, st') →
  on_way s0 (ss_share st') ∧ (r = Ok InitialComplete → cfg_initial_sync_complete (as_config (ss_share st')) = true).
Proof.
  intros Hcut Htask Hw. unfold synchronize, mbind, sync_bind.
  destruct (state_with _ _ _ _ st) as [[u|] st1] eqn:Es; apply state_with_steady in Es.
  2: { intros [= <- <-]. split; [by eapply steady_on_way|done]. }
  pose proof (steady_on_way _ _ _ Hw Es) as Hw1.
  destruct (is_bind env) as [[]|e]; [|intros [Hs ->]%cleanup_steady; split; [by eapply steady_on_way|done]].
  unfold round_or_cleanup. destruct (sync_peers (is_peers env) st1) as [ro st2] eqn:Ep.
  apply (sync_peers_on_way s0 _ envs) in Ep as [Hw2 Ho]; [|done..].
  destruct ro as [o|e]; [|intros [Hs ->]%cleanup_steady; split; [by eapply steady_on_way|done]].
  intros [Hs Hcomp]%conclude_steady. split; [by eapply steady_on_way|]. intros Hr.
  destruct (Hcomp Hr) as (Hc & Hd & Hu). pose proof (complete_outcome s0 _ _ Hw2 (Ho o eq_refl) Hc Hd Hu) as Hdone.
  destruct Hs as (_ & _ & Hcfg & _). by rewrite Hcfg.
Qed.

(** The configuration of a share in a data directory. *)
Definition config_on_disk d root share_id : option ShareConfig :=
  dd_files d !! share_config root share_id ≫= from_slice.

Lemma config_on_disk_kept root share_id d d' :
  is_array 32 share_id → shares_kept root d d' →
  config_on_disk d' root share_id = config_on_disk d root share_id ∧
  load_config (dd_files d') root share_id = load_config (dd_files d) root share_id.
Proof.
  intros Hid [_ Hk].
  assert (E : dd_files d' !! share_config root share_id = dd_files d !! share_config root share_id).
  { unfold share_config. rewrite (share_path_eq root share_id (bs "config.json") Hid eq_refl), share_dir_eq, <-app_assoc. apply Hk. }
  unfold config_on_disk, load_config, read_state, read_bounded. by rewrite E.
Qed.

Lemma load_config_on_disk (fs : files) root share_id config :
  load_config fs root share_id = Ok config →
  fs !! share_config root share_id ≫= from_slice = Some config ∧ cfg_share_id config = share_id.
Proof.
  unfold load_config, read_state, read_bounded. destruct (fs !! share_config root share_id) as [data|]; [|done]. simpl.
  destruct (_ <? _); [done|]. simpl. destruct (from_slice data) as [c|]; [|done]. simpl. intros E.
  destruct (ShareConfig_validate c share_id) as [[]|] eqn:Ev; [|done]. injection E as <-. split; [done|].
  unfold ShareConfig_validate in Ev. res_inv. by bool_inv.
Qed.

Lemma device_lock_kept root env : keeps_shares root (try_acquire_device_run_lock root env).
Proof. intros d. apply try_acquire_kept; [done|by apply slash_free]. Qed.

(** The configuration stays on disk, and completes if the first synchronization does. *)
Definition retained d' root share_id (config : ShareConfig) (complete : Prop) : Prop :=
  ∃ c, config_on_disk d' root share_id = Some c ∧ (c = config ∨ c = complete_config config) ∧
    (complete → cfg_initial_sync_complete c = true).

Lemma attempt_retains root env envs endpoint_id share_id config d r d' :
  (∀ n, cuts (ni_config (cl_initial (te_client (envs n))))) → pn_task (is_peers env) = session_tasks envs →
  is_array 32 share_id → load_config (dd_files d) root share_id = Ok config →
  attempt_initial_sync root env endpoint_id share_id d = (r, d') →
  retained d' root share_id config (r = Ok InitialComplete).
Proof.
  intros Hcut Htask Hid Hload.
  assert (Hkept : ∀ d1 r, shares_kept root d d1 → r ≠ Ok InitialComplete →
    retained d1 root share_id config (r = Ok InitialComplete)).
  { intros d1 r0 Hk Hr. apply (config_on_disk_kept _ share_id) in Hk as [Hd _]; [|done].
    exists config. apply load_config_on_disk in Hload as [Hs _]. split_and!; [by rewrite Hd|by left|done]. }
  unfold attempt_initial_sync, mbind, app_bind.
  destruct (acquire_registry_lock root _ d) as [[u|] d1] eqn:E1;
    (pose proof (keeps_step root _ d d _ _ (registry_lock_kept root _) E1 (shares_kept_refl root d)) as K1);
    [|intros [= <- <-]; by apply Hkept].
  destruct (try_acquire_device_run_lock root _ d1) as [[device|] d2] eqn:E2;
    (pose proof (keeps_step root _ d1 d _ _ (device_lock_kept root _) E2 K1) as K2);
    [|intros [= <- <-]; by apply Hkept].
  destruct (negb device); [intros [= <- <-]; by apply Hkept|].
  destruct (try_acquire_share_lock root share_id _ d2) as [[locked|] d3] eqn:E3;
    (pose proof (keeps_step root _ d2 d _ _ (share_lock_kept root _ _) E3 K2) as K3);
    [|intros [= <- <-]; by apply Hkept].
  destruct (negb locked); [intros [= <- <-]; by apply Hkept|].
  unfold reading, load_registry, load_share. simpl.
  destruct (config_on_disk_kept root share_id d d3 Hid K3) as [Hdisk ->]. rewrite Hload. simpl. rewrite lookup_insert_eq.
  match goal with |- run_share env ?s d3 = _ → _ => set (s0 := s) end.
  unfold run_share. destruct (synchronize _ _) as [r1 st] eqn:Es. intros [= <- <-].
  apply load_config_on_disk in Hload as [Hs Hcid].
  assert (Hw : on_way s0 s0).
  { split; [done|done| |by left|].
    - split; [done|]. left. unfold stored_config. simpl. fold (config_on_disk d3 root share_id). by rewrite Hdisk.
    - intros peer o. unfold outcomes. simpl. by rewrite lookup_omap, lookup_empty. }
  apply (synchronize_on_way env envs s0) in Es as [[Hr Hi [_ Hd] Hc _] Hcomp]; [|done..].
  unfold retained, config_on_disk. simpl. unfold stored_config in Hd. rewrite Hr, Hi in Hd. simpl in Hd, Hc.
  destruct Hd as [Hd|Hd]; rewrite Hd; (eexists; split; [done|]); destruct Hc as [Hc|Hc];
    try (rewrite Hc in *; split; [by auto|]; intros Hr1; by specialize (Hcomp Hr1)).
Qed.

(** ** Properties *)

(** C21: joining is durable.  Once [join] has registered the share, its configuration stays
    on disk whatever happens in the first synchronization (locks, connections, sessions,
    failed writes), unchanged but for the mark that the first synchronization is
    complete; and [join] reports the first synchronization as complete only if that mark
    is on disk. *)
Theorem join_is_durable root (env : join_env) (envs : nat → task_env) (text directory : bytes)
    (registered : JoinResult) (config : ShareConfig) d d1 r d'
    (Hcut : ∀ n, cuts (ni_config (cl_initial (te_client (envs n)))))
    (Htask : pn_task (is_peers (jn_sync env)) = session_tasks envs)
    (Hreg : register_join public_key root (jn_register env) text directory d = (Ok registered, d1))
    (Hid : is_array 32 (jr_share_id registered))
    (Hload : load_config (dd_files d1) root (jr_share_id registered) = Ok config)
    (Hrun : join root env text directory d = (r, d')) :
  ∃ c, config_on_disk d' root (jr_share_id registered) = Some c ∧
    (c = config ∨ c = complete_config config) ∧
    (∀ result, r = Ok result → jr_initial_sync_status result = InitialComplete →
       cfg_initial_sync_complete c = true).
Proof.
  unfold join, mbind, app_bind in Hrun. rewrite Hreg in Hrun.
  destruct (device_id public_key root _ d1) as [[endpoint_id|] d2] eqn:E2;
    (pose proof (keeps_step root _ d1 d1 _ _ (device_id_kept public_key root _) E2 (shares_kept_refl root d1)) as K2);
    apply (config_on_disk_kept _ (jr_share_id registered)) in K2 as [Hdisk Hload2]; try done; rewrite Hload in Hload2.
  2: { injection Hrun as <- <-. exists config. apply load_config_on_disk in Hload as [Hs _].
       split_and!; [by rewrite Hdisk|by left|done]. }
  destruct (attempt_initial_sync root (jn_sync env) endpoint_id (jr_share_id registered) d2) as [status d3] eqn:E3.
  apply (attempt_retains root _ envs _ _ config) in E3 as (c & Hc & Hor & Hcomp); [|done..].
  destruct status as [status|e]; injection Hrun as <- <-; exists c; split_and!; try done.
  intros result [= <-]. simpl. intros ->. by apply Hcomp.
Qed.
End registry.

(** *** Witnesses *)

Import Ref.

(** A device joins the share of a peer that cannot be reached. *)
Definition ex_status (pid : Z) (state : RuntimeState) (health : SyncHealth) (error : option bytes)
    : RuntimeStatus := {|
  rs_format_version := 1; rs_process_id := pid; rs_started_at_ms := 5; rs_heartbeat_at_ms := 5;
  rs_state := state; rs_health := health; rs_connected_peers := 0; rs_pending_downloads := 0;
  rs_pending_updates := 0; rs_last_scan_at_ms := None; rs_last_remote_update_at_ms := None;
  rs_last_sync_at_ms := None; rs_last_connection_at_ms := None; rs_last_error := error |}.

#[local] Instance ex_allocator : Allocator := bounded_allocator MAX_CONTROL_FRAME_BYTES.
#[local] Instance ex_codec_config : JsonState ShareConfig := table_state [ex_new_config false].
#[local] Instance ex_codec_manifest : JsonState Manifest := table_state [Manifest_empty ex_share 5].
#[local] Instance ex_codec_clock : JsonState ClockState := table_state [ClockState_new].
#[local] Instance ex_codec_peers : JsonState KnownPeers := table_state [ex_new_peers].
#[local] Instance ex_codec_status : JsonState RuntimeStatus := table_state
  [join_runtime 5; ex_status 7 Synchronizing Pending None;
   ex_status 7 WaitingForPeers Offline (Some no_peer_error); ex_status 7 WaitingForPeers Offline None;
   ex_status 0 Stopped Offline None].

(** Messages are not exchanged here. *)
Definition no_to_vec {T} (v : T) : option bytes := None.
Definition no_from_slice {T} (b : bytes) : option T := None.
Lemma no_roundtrip {T} (v : T) b : no_to_vec v = Some b → no_from_slice b = Some v.
Proof. done. Qed.
Definition no_json T : Json T :=
  {| to_vec := no_to_vec; from_slice := no_from_slice; from_slice_to_vec := no_roundtrip |}.
#[local] Instance ex_request : Json SyncRequest := no_json _.
#[local] Instance ex_response : Json SyncResponse := no_json _.
#[local] Instance ex_message : Json ManifestMessage := no_json _.
#[local] Instance ex_transfer : Json TransferRequest := no_json _.
#[local] Instance ex_ready : Json TransferReady := no_json _.
#[local] Instance ex_final : Json TransferResponse := no_json _.

Definition ex_update : update_env := {| ue_now_ms := 5; ue_pid := 7; ue_write := ex_env |}.
Definition ex_unreachable : client_env := {|
  cl_connects := false; cl_lost := λ _, false; cl_connected := ex_update; cl_nonce := repeat "007"%byte 32;
  cl_digest_ms := 5; cl_empty_ms := 5; cl_merge_ms := 5; cl_merge := ex_env;
  cl_files := {| fe_tree := λ _ _, ex_tree; fe_cut := λ _ x, x; fe_env := ex_local_env; fe_refuse := λ _ _, false |};
  cl_apply := {| ae_cross := λ _, false; ae_now_ms := 5; ae_observed_ms := 5; ae_clock := ex_env; ae_manifest := ex_env |};
  cl_updated := ex_update;
  cl_initial := {| ni_config := ex_env; ni_root := bs "/s"; ni_reads := ex_reads; ni_now_ms := 5;
                   ni_status_ms := 5; ni_pid := 7; ni_clock := ex_env; ni_manifest := ex_env; ni_status := ex_env |} |}.
Definition ex_task (n : nat) : task_env := {|
  te_closed := false; te_client := ex_unreachable; te_recv := []; te_retries := 0; te_now := 5; te_jitter := 0 |}.
Definition ex_initial_sync : initial_sync_env := {|
  is_registry := ex_lock; is_device := ex_lock; is_share := ex_lock; is_started := ex_update; is_bind := Ok tt;
  is_tree := ex_tree; is_partials := ∅;
  is_peers := {| pn_now := 5; pn_task := session_tasks ex_task; pn_choice := λ _, 0%nat;
                 pn_refresh := λ _, ex_update; pn_finish := λ _, ex_update; pn_last := ex_update |};
  is_failed := ex_update; is_reset := ex_update; is_waiting := ex_update; is_stopped := ex_update |}.
Definition ex_join_env : join_env := {|
  jn_register := ex_register_env "002" ex_share;
  jn_identity := {| ie_lock := ex_lock; ie_generated := repeat "002"%byte 32; ie_write := ex_env |};
  jn_sync := ex_initial_sync |}.
Definition ex_ticket : bytes :=
  match (t ← ShareTicket_new ex_share (repeat "006"%byte 32) [endpoint "001"]; ShareTicket_encode t) with
  | Ok text => text
  | Err _ => []
  end.
Definition ex_joined : result JoinResult * data_dir :=
  join ex_public_key (bs "/e") ex_join_env ex_ticket (bs "/home/photos") ex_data_dir.

Definition ex_registration : result JoinResult * data_dir :=
  register_join ex_public_key (bs "/e") (jn_register ex_join_env) ex_ticket (bs "/home/photos") ex_data_dir.
Definition ex_registration_ok : bool :=
  match ex_registration with
  | (Ok j, d1) =>
      bool_decide (jr_share_id j = ex_share) &&
      match load_config (dd_files d1) (bs "/e") ex_share with
      | Ok c => bool_decide (c = ex_new_config false)
      | Err _ => false
      end
  | _ => false
  end.

Lemma join_is_durable_witness :
  is_ok ex_joined.1 = true ∧
  ∃ c, config_on_disk ex_joined.2 (bs "/e") ex_share = Some c ∧
    (c = ex_new_config false ∨ c = complete_config (ex_new_config false)).
Proof.
  split; [vm_compute; reflexivity|].
  assert (Hok : ex_registration_ok = true) by (vm_compute; reflexivity). unfold ex_registration_ok in Hok.
  destruct ex_registration as [[j|] d1] eqn:Hreg; [|discriminate Hok].
  apply andb_true_iff in Hok as [Hid Hok]. apply bool_decide_eq_true in Hid.
  destruct (load_config (dd_files d1) (bs "/e") ex_share) as [c|] eqn:Hload; [|discriminate Hok].
  apply bool_decide_eq_true in Hok. subst c.
  assert (Hrun : join ex_public_key (bs "/e") ex_join_env ex_ticket (bs "/home/photos") ex_data_dir =
    (ex_joined.1, ex_joined.2)) by (fold ex_joined; apply surjective_pairing).
  destruct (join_is_durable ex_public_key (bs "/e") ex_join_env ex_task ex_ticket (bs "/home/photos") j
    (ex_new_config false) ex_data_dir d1 ex_joined.1 ex_joined.2) as (c & Hc & Hor & _).
  - intros n. exact ex_env_cuts.
  - reflexivity.
  - exact Hreg.
  - rewrite Hid. reflexivity.
  - rewrite Hid. exact Hload.
  - exact Hrun.
  - rewrite Hid in Hc. exists c. split; [exact Hc|exact Hor].
Defined.
