(* ===== verification/ProgressIo.v ===== *)
(** * Streams that must make progress (src/network/io.rs)

    [ProgressIo] wraps a stream and fails an operation that stays blocked for the idle
    timeout.  A poll happens at an instant (milliseconds, from tokio's clock); the
    wrapped stream is ready or pending, and tokio's [Sleep] is ready from its deadline
    on. *)

From S2P Require Import Prelude.

Definition IO_IDLE_TIMEOUT : Z := 60000.

Record ProgressIo := {
  io_timeout : Z;
  io_deadline : option Z;
  io_blocked : bool;
}.
Definition ProgressIo_new (timeout : Z) : ProgressIo :=
  {| io_timeout := timeout; io_deadline := None; io_blocked := false |}.

(** [Poll], with the failure of [stalled] apart from a result of the stream. *)
Inductive polled (R : Type) := Ready (r : R) | Blocked | TimedOut.
Arguments Ready {_} _.
Arguments Blocked {_}.
Arguments TimedOut {_}.

(** The deadline is made on the first use and moved when an operation blocks. *)
Definition stalled {R} (io : ProgressIo) (now : Z) : polled R * ProgressIo :=
  let deadline := default (now + io_timeout io) (io_deadline io) in
  let deadline := if io_blocked io then deadline else now + io_timeout io in
  let io := {| io_timeout := io_timeout io; io_deadline := Some deadline; io_blocked := true |} in
  (if deadline <=? now then TimedOut else Blocked, io).

(** [poll_read], [poll_write], [poll_flush] and [poll_shutdown]: [inner] is what the
    wrapped stream answers, [None] while it is pending. *)
Definition poll_io {R} (io : ProgressIo) (now : Z) (inner : option R) : polled R * ProgressIo :=
  match inner with
  | Some r => (Ready r, {| io_timeout := io_timeout io; io_deadline := io_deadline io; io_blocked := false |})
  | None => stalled io now
  end.

(** A sequence of polls: the answers, and the stream after them. *)
Fixpoint poll_all {R} (io : ProgressIo) (polls : list (Z * option R)) : list (polled R) * ProgressIo :=
  match polls with
  | [] => ([], io)
  | (now, inner) :: polls =>
      let '(answer, io) := poll_io io now inner in
      let '(answers, io) := poll_all io polls in
      (answer :: answers, io)
  end.

(** ** Specification *)

(** Since when the polls found the stream pending, without a ready one between. *)
Fixpoint pending_since {R} (since : option Z) (polls : list (Z * option R)) : option Z :=
  match polls with
  | [] => since
  | (_, Some _) :: polls => pending_since None polls
  | (now, None) :: polls => pending_since (Some (default now since)) polls
  end.

(** The answer to a poll after [past]. *)
Definition expected {R} (timeout : Z) (past : list (Z * option R)) (now : Z) (inner : option R) : polled R :=
  match inner with
  | Some r => Ready r
  | None => if timeout <=? now - default now (pending_since None past) then TimedOut else Blocked
  end.

(** The state after [past]: blocked exactly if the stream is pending, and then the
    deadline is the timeout after the first of the pending polls. *)
Definition tracks_since (io : ProgressIo) (timeout : Z) (since : option Z) : Prop :=
  io_timeout io = timeout ∧ io_blocked io = bool_decide (since ≠ None) ∧
  ∀ t, since = Some t → io_deadline io = Some (t + timeout).

Lemma poll_io_tracks {R} io timeout since now (inner : option R) :
  tracks_since io timeout since →
  tracks_since (poll_io io now inner).2 timeout (pending_since since [(now, inner)]) ∧
  (poll_io io now inner).1 =
    match inner with
    | Some r => Ready r
    | None => if timeout <=? now - default now since then TimedOut else Blocked
    end.
Proof.
  intros (Ht & Hb & Hd). destruct inner as [r|]; simpl; [by split|].
  unfold stalled. rewrite Hb, Ht. destruct since as [t|]; simpl.
  - rewrite (Hd t eq_refl). simpl. split; [split_and!; try done; by intros ? [= <-]|].
    destruct (Z.leb_spec (t + timeout) now), (Z.leb_spec timeout (now - t)); try done; lia.
  - split; [split_and!; try done; by intros t [= <-]|].
    destruct (Z.leb_spec (now + timeout) now), (Z.leb_spec timeout (now - now)); try done; lia.
Qed.

Lemma pending_since_app {R} since (past : list (Z * option R)) next :
  pending_since since (past ++ next) = pending_since (pending_since since past) next.
Proof.
  revert since. induction past as [|[now [r|]] past IH]; intros since; simpl; auto.
Qed.

Lemma poll_all_tracks {R} io timeout since (polls : list (Z * option R)) :
  tracks_since io timeout since →
  tracks_since (poll_all io polls).2 timeout (pending_since since polls).
Proof.
  revert io since. induction polls as [|[now inner] polls IH]; intros io since Hio; simpl; [done|].
  destruct (poll_io_tracks io timeout since now inner Hio) as [Hio' _].
  destruct (poll_io io now inner) as [answer io']. specialize (IH io' _ Hio').
  destruct (poll_all io' polls) as [answers io'']. simpl in *. by destruct inner.
Qed.

(** ** Properties *)

(** A stream fails exactly when it stalls.  After any polls, a poll passes on what the
    stream has ready; while the stream is pending it fails if, and only if, every poll
    of at least the timeout found it pending.  So progress, however slow, never fails,
    and a stall is never longer than the timeout from one poll to the next. *)
Lemma stalled_streams_time_out {R} (timeout : Z) (past : list (Z * option R)) (now : Z)
    (inner : option R) :
  (poll_io (poll_all (ProgressIo_new timeout) past).2 now inner).1 = expected timeout past now inner.
Proof.
  assert (H0 : tracks_since (ProgressIo_new timeout) timeout None) by done.
  pose proof (poll_all_tracks _ _ _ past H0) as Hp.
  by destruct (poll_io_tracks _ _ _ now inner Hp) as [_ ->].
Qed.
