(* ===== verification/Watching.v ===== *)
(** * Watching a shared directory (src/network/lifecycle.rs)

    When a running share is scanned.  The callback of the file watcher, which runs in a
    thread of its own, and [scan_active_share], which a worker runs, share the flags of
    the share: the callback can run between any two accesses of the worker.  The two are
    the steps of a machine, together with edits of the directory, which the watcher
    reports after a while or fails to report, and sessions, which change the directory and
    the manifest.  Instants are milliseconds. *)

From stdpp Require Import relations.
From S2P Require Import Prelude Collections Bytes External Reference Framing Clock Types Peers ManifestPath Manifest Merge Storage Digest Scheduling State LocalFs Scan ShareScan.

(** What the code asks of an event of the notify crate: [Event::need_rescan], and whether
    its kind is [Access(Open(_))], [Access(Read)], [Access(Close(Read))] or
    [Modify(Metadata(AccessTime))]. *)
Class Notify := {
  Event : Type;
  need_rescan : Event → bool;
  access_open : Event → bool;
  access_read : Event → bool;
  access_close_read : Event → bool;
  modify_access_time : Event → bool;
}.

(** The flags [scan_dirty], [watcher_active] and [last_scan] of a running share. *)
Record watch := {
  wt_dirty : bool;
  wt_active : bool;
  wt_last_scan : option Z;
}.
Definition watch_default : watch :=
  {| wt_dirty := true; wt_active := false; wt_last_scan := None |}.

Section watcher.
Context `{Notify}.

Definition scan_event_is_relevant (event : Event) : bool :=
  need_rescan event
  || negb (access_open event || access_read event || access_close_read event
           || modify_access_time event).

(** A report is an event, or an error of the watcher. *)
Definition unreliable (report : result Event) : bool :=
  match report with Ok event => need_rescan event | Err _ => true end.
Definition relevant (report : result Event) : bool :=
  match report with Ok event => scan_event_is_relevant event | Err _ => true end.

(** The callback; [woken] is the permit of [scan_notify], which [notify_one] makes
    available. *)
Definition on_report (w : watch) (woken : bool) (report : result Event) : watch * bool :=
  ({| wt_dirty := wt_dirty w || relevant report;
      wt_active := wt_active w && negb (unreliable report);
      wt_last_scan := wt_last_scan w |},
   woken || (relevant report && negb (wt_dirty w))).

Definition on_reports (x : watch * bool) (reports : list (result Event)) : watch * bool :=
  foldl (λ '(w, woken), on_report w woken) x reports.

(** The body of the loop of [start_watchers]; the result is whether the share is watched.
    [watched] is the outcome of [recommended_watcher] and [watch]. *)
Definition start_watcher (local_root watched : result unit) (w : watch) : watch * bool :=
  match local_root with
  | Err _ => (w, false)
  | Ok _ =>
      let active := match watched with Ok _ => true | Err _ => false end in
      ({| wt_dirty := wt_dirty w; wt_active := active; wt_last_scan := wt_last_scan w |}, active)
  end.
End watcher.

(** ** Scanning *)

(** The pieces of [scan_active_share] that access the flags. *)
Definition is_due (w : watch) (now : Z) (watching : bool) : bool :=
  scan_due (wt_last_scan w) now watching (wt_dirty w).
Definition take_dirty (w : watch) : watch :=
  {| wt_dirty := false; wt_active := wt_active w; wt_last_scan := wt_last_scan w |}.
Definition end_scan (r : result unit) (now : Z) (w : watch) : watch :=
  match r with
  | Ok _ => {| wt_dirty := wt_dirty w; wt_active := wt_active w; wt_last_scan := Some now |}
  | Err _ => {| wt_dirty := true; wt_active := wt_active w; wt_last_scan := wt_last_scan w |}
  end.

(** The environment of one scan: the instants before and after, the canonical root, what
    the reads return, the times, the process and the writes. *)
Record scan_env := {
  sn_start : Z;
  sn_end : Z;
  sn_root : bytes;
  sn_reads : list bytes → nat → io (list bytes * node);
  sn_now_ms : Z;
  sn_status_ms : Z;
  sn_pid : Z;
  sn_clock : write_env;
  sn_manifest : write_env;
  sn_status : write_env;
}.

Section scanning.
Context `{HexCodec, Sha256, Iroh, Blake3, WalkDir, Notify} `{!JsonState ShareConfig} `{!JsonState Manifest}
  `{!JsonState ClockState} `{!JsonState KnownPeers} `{!JsonState RuntimeStatus}.
Implicit Types (s : ActiveShare) (t : tree) (w : watch).

Definition scan_with (env : scan_env) s t : result unit * ActiveShare :=
  scan_and_save s t (sn_root env) (sn_reads env) (sn_now_ms env) (sn_status_ms env) (sn_pid env)
    (sn_clock env) (sn_manifest env) (sn_status env).

(** [scan_active_share], with the [reports] the callback gets while the scan runs. *)
Definition scan_active_share (env : scan_env) (reports : list (result Event)) (woken : bool) s t w
    : result bool * ActiveShare * watch * bool :=
  if cfg_initial_sync_complete (as_config s) && is_due w (sn_start env) (wt_active w) then
    let '(r, s) := scan_with env s t in
    let '(w, woken) := on_reports (take_dirty w, woken) reports in
    (r ≫= (λ _, Ok true), s, end_scan r (sn_end env) w, woken)
  else (Ok false, s, w, woken).

(** ** The worker and the watcher *)

(** Where a worker is in [scan_active_share]: before the watchers start; outside; with
    [watcher_active] loaded, before [scan_dirty]; before the swap of [scan_dirty]; waiting
    for the operation lock; scanning, and whether the directory was edited since. *)
Inductive scan_phase :=
| Unwatched
| Idle
| Checking (now : Z) (watching : bool)
| Due
| Cleared
| Scanning (edited : bool).

Definition edit (ph : scan_phase) : scan_phase :=
  match ph with Scanning _ => Scanning true | ph => ph end.

(** The share, its directory, its flags, whether it is watched, the reports the callback
    has not run for, the permit of [scan_notify] and the worker; [wd_missed], which no code
    reads, tells whether since the last scan began the watcher failed to report a change,
    or that scan could not see one. *)
Record watched := Watched {
  wd_share : ActiveShare;
  wd_tree : tree;
  wd_watch : watch;
  wd_installed : bool;
  wd_reports : list (result Event);
  wd_woken : bool;
  wd_phase : scan_phase;
  wd_missed : bool;
}.

(** A scan of [seen] that finds the directory as it is: nothing was edited meanwhile. *)
Record still (env : scan_env) t (seen : tree) : Prop := {
  st_seen : seen = t;
  st_root : sn_root env ≠ [];
  st_tree : disk_tree t;
  st_quiet : quiet (sn_reads env) t;
}.

(** A scan can see every change of the contents: files whose size, time and permissions
    are the recorded ones have the recorded contents. *)
Definition visible s t : Prop :=
  ∀ previous, disk_manifest s = Some previous → trusted t previous (unknown_permissions previous).

(** The watcher reports an edit or loses it; reports of other accesses come at any time.  A
    session changes the directory and the share under the operation lock, and what it
    changes is reported or lost like an edit. *)
Inductive watch_step : watched → watched → Prop :=
| step_watch (root installed : result unit) s t w i q p lost :
    watch_step (Watched s t w i q p Unwatched lost)
      (let '(w, i) := start_watcher root installed w in Watched s t w i q p Idle lost)
| step_no_watch s t w i q p lost :
    watch_step (Watched s t w i q p Unwatched lost) (Watched s t w i q p Idle lost)
| step_edit t' report s t w (i : bool) q p ph lost :
    relevant report = true →
    watch_step (Watched s t w i q p ph lost)
      (Watched s t' w i (if i then q ++ [report] else q) p (edit ph) lost)
| step_lose t' s t w (i : bool) q p ph lost :
    watch_step (Watched s t w i q p ph lost) (Watched s t' w i q p (edit ph) true)
| step_session s' t' report s t w (i : bool) q p ph lost :
    (∀ edited, ph ≠ Scanning edited) → coherent s' → relevant report = true →
    watch_step (Watched s t w i q p ph lost)
      (Watched s' t' w i (if i then q ++ [report] else q) p ph lost)
| step_session_lose s' t' s t w (i : bool) q p ph lost :
    (∀ edited, ph ≠ Scanning edited) → coherent s' →
    watch_step (Watched s t w i q p ph lost) (Watched s' t' w i q p ph true)
| step_access report s t w i q p ph lost :
    watch_step (Watched s t w i q p ph lost) (Watched s t w i (q ++ [report]) p ph lost)
| step_report report s t w i q p ph lost :
    watch_step (Watched s t w i (report :: q) p ph lost)
      (let '(w, p) := on_report w p report in Watched s t w i q p ph lost)
| step_woken s t w i q p ph lost :
    watch_step (Watched s t w i q p ph lost) (Watched s t w i q false ph lost)
| step_check now s t w i q p lost :
    cfg_initial_sync_complete (as_config s) = true →
    watch_step (Watched s t w i q p Idle lost) (Watched s t w i q p (Checking now (wt_active w)) lost)
| step_load now watching s t w i q p lost :
    watch_step (Watched s t w i q p (Checking now watching) lost)
      (Watched s t w i q p (if is_due w now watching then Due else Idle) lost)
| step_clear s t w i q p lost :
    watch_step (Watched s t w i q p Due lost) (Watched s t (take_dirty w) i q p Cleared lost)
| step_lock s t w i q p lost :
    watch_step (Watched s t w i q p Cleared lost) (Watched s t w i q p (Scanning false) false)
| step_scan (env : scan_env) (seen : tree) (hidden : bool) r s' s t w i q p edited lost :
    cuts (sn_manifest env) → (edited = false → still env t seen) →
    (hidden = false → visible s seen) → scan_with env s seen = (r, s') →
    watch_step (Watched s t w i q p (Scanning edited) lost)
      (Watched s' t (end_scan r (sn_end env) w) i q p Idle (lost || hidden)).

(** Without flags to wait for, a scan is due after the interval. *)
Lemma due_if_noticed w now :
  wt_dirty w = true ∨ wt_active w = false →
  (∀ last, wt_last_scan w = Some last → last + 5000 ≤ now) → is_due w now (wt_active w) = true.
Proof.
  unfold is_due, scan_due. intros Hw Hl. destruct (wt_last_scan w) as [last|]; [|done].
  specialize (Hl last eq_refl). unfold elapsed_since, saturating_sub.
  assert (E : (SYNC_INTERVAL <=? Z.max 0 (now - last)) = true) by (apply Z.leb_le; unfold SYNC_INTERVAL; lia).
  destruct Hw as [->| ->]; rewrite E; [done|apply orb_true_r].
Qed.
Lemma due_after_minute w now :
  (∀ last, wt_last_scan w = Some last → last + 60000 ≤ now) → is_due w now (wt_active w) = true.
Proof.
  unfold is_due, scan_due. intros Hl. destruct (wt_last_scan w) as [last|]; [|done].
  specialize (Hl last eq_refl). unfold elapsed_since, saturating_sub. apply orb_true_iff. right.
  apply Z.leb_le. unfold SYNC_INTERVAL, FULL_SCAN_INTERVAL. destruct (wt_active w); lia.
Qed.

(** A share that was just loaded. *)
Definition loaded (x : watched) : Prop :=
  coherent (wd_share x) ∧ wd_watch x = watch_default ∧ wd_installed x = false ∧
  wd_reports x = [] ∧ wd_phase x = Unwatched ∧ wd_missed x = false.

(** ** Invariant *)

(** The manifest of the share describes its directory. *)
Definition described s t : Prop :=
  ∃ snapshot unknown, (manifest_snapshot s).1 = Ok snapshot ∧ describes t unknown (ms_manifest snapshot).

(** A report that will make a scan due. *)
Definition reported (reports : list (result Event)) : Prop :=
  Exists (λ report, relevant report = true) reports.
(** A scan is due, or a report will make it so. *)
Definition noticed w (reports : list (result Event)) : Prop :=
  wt_dirty w = true ∨ reported reports.

Record watch_ok (x : watched) : Prop := {
  wo_coherent : coherent (wd_share x);
  wo_inactive : wd_installed x = false → wt_active (wd_watch x) = false;
  wo_phase : wd_installed x = true →
    match wd_phase x with
    | Unwatched | Cleared => True
    | Scanning edited =>
        edited = true → noticed (wd_watch x) (wd_reports x) ∨ wd_missed x = true
    | Idle | Checking _ _ | Due =>
        noticed (wd_watch x) (wd_reports x) ∨ wd_missed x = true ∨ described (wd_share x) (wd_tree x)
    end;
  wo_unwatched : wd_phase x = Unwatched → wt_dirty (wd_watch x) = true ∧ wd_installed x = false;
}.

Lemma noticed_app w q report : noticed w q → noticed w (q ++ [report]).
Proof. intros [Hd|He]; [by left|right]. apply Exists_app. by left. Qed.
Lemma noticed_edit w q report : relevant report = true → noticed w (q ++ [report]).
Proof. intros Hr. right. apply Exists_app. right. by apply Exists_cons_hd. Qed.

(** The callback never loses a relevant report. *)
Lemma noticed_report w q woken report :
  noticed w (report :: q) → noticed (on_report w woken report).1 q.
Proof.
  unfold noticed. simpl. intros [->|He]; [by left|]. apply Exists_cons in He as [->|He]; [left|by right].
  by rewrite orb_true_r.
Qed.

Lemma scan_with_coherent env s t r s' :
  cuts (sn_manifest env) → coherent s → scan_with env s t = (r, s') → coherent s'.
Proof.
  intros Hcut Hc E. unfold scan_with in E.
  pose proof (scan_coherent s t (sn_root env) (sn_reads env) (sn_now_ms env) (sn_status_ms env)
    (sn_pid env) (sn_clock env) (sn_manifest env) (sn_status env) Hcut Hc) as Hs. by rewrite E in Hs.
Qed.

Lemma scan_described env s t s' :
  coherent s → still env t t → visible s t → scan_with env s t = (Ok tt, s') → described s' t.
Proof.
  intros Hc [_ Hroot Ht Hq] Hv Hrun.
  destruct (scan_stored _ _ _ _ _ _ _ _ _ _ _ Hc Hrun) as [previous Hp].
  destruct (scan_describes s s' t (sn_root env) (sn_reads env) (sn_now_ms env) (sn_status_ms env)
    (sn_pid env) (sn_clock env) (sn_manifest env) (sn_status env) previous) as (snapshot & Hs & Hd); auto.
  exists snapshot, (unknown_permissions previous). by rewrite Hs.
Qed.

(** The condition on the phase only needs the reports to stay noticed. *)
Lemma phase_mono s t w w' q q' ph lost :
  (noticed w q → noticed w' q') →
  match ph with
  | Unwatched | Cleared => True
  | Scanning edited => edited = true → noticed w q ∨ lost = true
  | Idle | Checking _ _ | Due => noticed w q ∨ lost = true ∨ described s t
  end →
  match ph with
  | Unwatched | Cleared => True
  | Scanning edited => edited = true → noticed w' q' ∨ lost = true
  | Idle | Checking _ _ | Due => noticed w' q' ∨ lost = true ∨ described s t
  end.
Proof. intros Hn. destruct ph; naive_solver. Qed.

Lemma watch_step_ok x y : watch_step x y → watch_ok x → watch_ok y.
Proof.
  intros Hstep [Hc Ha Hp Hu]. destruct Hstep; simpl in *.
  - destruct (Hu eq_refl) as [Hd Hi]. destruct root as [u|]; [destruct installed as [v|]|]; simpl;
      (split; simpl; [done|by auto|by intros; left; left|done]).
  - destruct (Hu eq_refl) as [Hd Hi]. split; simpl; [done|done|by intros; left; left|done].
  - split; simpl; [done|done| |by destruct ph].
    intros ->. destruct ph; simpl; auto using noticed_edit.
  - split; simpl; [done|done| |by destruct ph]. intros Hi. destruct ph; simpl; auto.
  - split; simpl; [done|done| |done].
    intros ->. destruct ph as [| | | | |edited]; simpl; auto using noticed_edit.
  - split; simpl; [done|done| |done]. intros Hi. destruct ph; simpl; auto.
  - split; simpl; [done|done| |done]. intros Hi. eapply phase_mono; [apply noticed_app|by apply Hp].
  - split; simpl; [done|intros Hi; by rewrite (Ha Hi)| |intros E; by destruct (Hu E) as [-> Hi]].
    intros Hi. eapply phase_mono; [apply (noticed_report w q p report)|by apply Hp].
  - by split.
  - by split.
  - split; simpl; [done|done| |by destruct (is_due _ _ _)]. intros Hi. specialize (Hp Hi).
    by destruct (is_due _ _ _).
  - by split.
  - by split.
  - split; simpl.
    + by eapply scan_with_coherent.
    + intros Hi. specialize (Ha Hi). by destruct r.
    + intros Hi. specialize (Hp Hi). destruct r as [[]|e]; [|left; by left].
      destruct edited; [destruct (Hp eq_refl) as [?| ->]; by auto|].
      destruct hidden; [right; left; apply orb_true_r|].
      match goal with Hs : false = false → still _ _ _ |- _ => destruct (Hs eq_refl); subst end.
      right. right. eapply scan_described; eauto.
    + done.
Qed.

Lemma watch_run_ok x y : loaded x → rtc watch_step x y → watch_ok y.
Proof.
  intros (Hc & Hw & Hi & Hq & Hph & _) Hrun.
  assert (Hx : watch_ok x) by (split; rewrite ?Hw, ?Hi, ?Hph; done).
  clear Hc Hw Hi Hq Hph. induction Hrun; eauto using watch_step_ok.
Qed.

(** ** The sequential scan *)

Lemma reports_steps reports s t w i q p ph lost :
  rtc watch_step (Watched s t w i (reports ++ q) p ph lost)
    (let '(w, p) := on_reports (w, p) reports in Watched s t w i q p ph lost).
Proof.
  revert w p. induction reports as [|report reports IH]; intros w p; simpl; [done|].
  eapply rtc_l; [apply step_report|]. destruct (on_report w p report) as [w' p']. apply IH.
Qed.

(** A call of [scan_active_share] is a run of the machine. *)
Lemma scan_active_share_steps env reports s t w i q p lost :
  cuts (sn_manifest env) → still env t t → visible s t →
  let '(r, s', w', p') := scan_active_share env reports p s t w in
  ∃ q' lost', rtc watch_step (Watched s t w i (reports ++ q) p Idle lost) (Watched s' t w' i q' p' Idle lost') ∧
    q' = match r with Ok false => reports ++ q | _ => q end ∧
    lost' = match r with Ok false => lost | _ => false end.
Proof.
  intros Hcut Hstill Hv. unfold scan_active_share.
  destruct (cfg_initial_sync_complete (as_config s)) eqn:Ec; simpl;
    [|exists (reports ++ q), lost; by split].
  destruct (is_due w (sn_start env) (wt_active w)) eqn:Ed; [|exists (reports ++ q), lost; by split].
  destruct (scan_with env s t) as [r s'] eqn:Es. 
  pose proof (reports_steps reports s t (take_dirty w) i q p (Scanning false) false) as Hreports.
  destruct (on_reports (take_dirty w, p) reports) as [w' p'].
  exists q, false. split; [|by destruct r].
  eapply rtc_l; [by apply step_check|]. eapply rtc_l; [by apply (step_load (sn_start env))|]. rewrite Ed.
  eapply rtc_l; [apply step_clear|]. eapply rtc_l; [apply step_lock|].
  eapply rtc_r; [exact Hreports|]. by eapply (step_scan env t false).
Qed.

(** ** Properties *)

(** C14: what becomes of the changes of a shared directory.  However edits, sessions, the
    callback of the watcher and the worker are interleaved, whenever the worker is outside
    a scan, the manifest describes the directory as it is; or a relevant report is still
    to reach the callback; or a scan is due as soon as five seconds have passed since the
    last one; or, since the last scan began, the watcher failed to report a change or the
    scan could not see one, because a file kept the size, time and permissions that its
    record has.  In every case a scan is due once a minute has passed since the last one,
    and a scan that succeeds, of a directory that is not edited meanwhile and whose files
    it can tell from their records, leaves a manifest that describes the directory,
    whatever was lost before. *)
Theorem changes_are_scanned (x y : watched) (Hload : loaded x) (Hrun : rtc watch_step x y)
    (Hidle : wd_phase y = Idle) (now : Z) :
  let elapsed n := ∀ last, wt_last_scan (wd_watch y) = Some last → last + n ≤ now in
  let due := is_due (wd_watch y) now (wt_active (wd_watch y)) = true in
  (described (wd_share y) (wd_tree y) ∨ reported (wd_reports y) ∨ (elapsed 5000 → due) ∨
   wd_missed y = true) ∧
  (elapsed 60000 → due) ∧
  (∀ env s', still env (wd_tree y) (wd_tree y) → visible (wd_share y) (wd_tree y) →
     scan_with env (wd_share y) (wd_tree y) = (Ok tt, s') → described s' (wd_tree y)).
Proof.
  destruct (watch_run_ok _ _ Hload Hrun) as [Hc Ha Hp _]. rewrite Hidle in Hp.
  split_and!; [|apply due_after_minute|intros env s'; by apply scan_described].
  destruct (wd_installed y).
  - destruct (Hp eq_refl) as [[Hn|Hn]|[Hm|Hd]]; auto. right. right. left. apply due_if_noticed. by left.
  - right. right. left. apply due_if_noticed. right. by apply Ha.
Qed.
End scanning.

(** ** A watched share *)

Import Ref.

Definition ex_notify : Notify := {|
  Event := unit; need_rescan _ := false; access_open _ := false; access_read _ := false;
  access_close_read _ := false; modify_access_time _ := false |}.
#[local] Existing Instance ex_notify.
#[local] Existing Instances ex_codec_config ex_codec_manifest ex_codec_clock ex_codec_peers ex_codec_status.

Definition ex_scan_env : scan_env := {|
  sn_start := 1; sn_end := 2; sn_root := bs "/s"; sn_reads := ex_reads; sn_now_ms := 5;
  sn_status_ms := 6; sn_pid := 7; sn_clock := ex_env; sn_manifest := ex_env; sn_status := ex_env |}.

Definition ex_ready_config : ShareConfig := {|
  cfg_format_version := 1; cfg_share_id := ex_share; cfg_share_secret := cfg_share_secret ex_share_config;
  cfg_name := bs "photos"; cfg_local_directory := bs "/home/photos"; cfg_created_at_ms := 0;
  cfg_initial_peers := []; cfg_initial_sync_complete := true |}.
Definition ex_ready : ActiveShare := replace_config ex_scanning ex_ready_config.
Definition ex_ready_scan : result unit * ActiveShare := scan_with ex_scan_env ex_ready ex_tree.

Definition ex_loaded : watched :=
  Watched ex_ready ex_tree watch_default false [] false Unwatched false.
Definition ex_watching : watch := {| wt_dirty := true; wt_active := true; wt_last_scan := None |}.
Definition ex_after : watch := {| wt_dirty := true; wt_active := true; wt_last_scan := Some 2 |}.
Definition ex_watched : watched := Watched ex_ready_scan.2 ex_tree ex_after true [] true Idle false.

Lemma ex_loaded_ok : loaded ex_loaded.
Proof. split; [intros snapshot Hs; discriminate Hs|done]. Qed.

Lemma ex_still : still ex_scan_env ex_tree ex_tree.
Proof. split; [done|done|apply ex_disk_tree|apply ex_quiet]. Qed.
Lemma ex_visible : visible ex_ready ex_tree.
Proof.
  intros previous. change (disk_manifest ex_ready) with (disk_manifest ex_scanning).
  rewrite ex_scanning_disk. intros [= <-]. apply ex_trusted.
Qed.

(** The share is watched and scanned for the first time; a report arrives meanwhile. *)
Lemma ex_watch_run : rtc watch_step ex_loaded ex_watched.
Proof.
  eapply rtc_l; [apply (step_watch (Ok tt) (Ok tt))|]. simpl.
  eapply rtc_l; [by apply (step_check 1); vm_compute|].
  eapply rtc_l; [apply (step_load 1)|].
  eapply rtc_l; [apply step_clear|]. eapply rtc_l; [apply step_lock|].
  eapply rtc_l; [apply (step_access (Ok (tt : @Event ex_notify)))|]. eapply rtc_l; [apply step_report|]. simpl.
  apply rtc_once, (step_scan ex_scan_env ex_tree false (Ok tt)).
  - exact ex_env_cuts.
  - intros _. apply ex_still.
  - intros _. apply ex_visible.
  - assert (Hr : ex_ready_scan.1 = Ok tt) by (vm_compute; reflexivity).
    change (ex_ready_scan = (Ok tt, ex_ready_scan.2)). rewrite <-Hr. apply surjective_pairing.
Qed.

Lemma changes_are_scanned_witness :
  (described ex_ready_scan.2 ex_tree ∨ @reported ex_notify [] ∨
   ((∀ last, Some 2 = Some last → last + 5000 ≤ 5002) → is_due ex_after 5002 true = true) ∨
   false = true).
Proof. exact (proj1 (changes_are_scanned ex_loaded ex_watched ex_loaded_ok ex_watch_run eq_refl 5002)). Defined.
