(* ===== verification/Workers.v ===== *)
(** * Share workers (src/network/workers.rs, src/network/lifecycle.rs)

    The worker of a share: it waits for a completed session, a tick or a wake-up, scans
    the directory if that is due, starts sessions with the due peers and reports the
    status, until the endpoint is closed or something fails, and then waits for the
    sessions that still run.  What it waits for, how its sessions behave and the answers
    of the system are arguments of a round.  [run_share_workers] supervises the workers
    of all shares. *)

From S2P Require Import Prelude Collections Bytes External Reference Framing Clock Types Peers ManifestPath Manifest Merge Storage Digest Auth Scheduling State Wire LocalFs Partial Streaming Planning Apply Scan ShareScan Session PeerSessions Watching.

(** What the first [select!] of a round finds: the endpoint closed, a completed session,
    or the interval or a wake-up. *)
Inductive wakeup := Closed | Completed (choice : nat) | Woken.
Global Instance wakeup_eq_dec : EqDecision wakeup.
Proof. solve_decision. Defined.

Section workers.
Context `{HexCodec, Sha256, Iroh, Blake3, Hmac, WalkDir, Allocator, Notify}
  `{!JsonState ShareConfig} `{!JsonState Manifest} `{!JsonState ClockState}
  `{!JsonState KnownPeers} `{!JsonState RuntimeStatus}
  `{!Json SyncRequest, !Json SyncResponse, !Json ManifestMessage, !Json TransferRequest,
    !Json TransferReady, !Json TransferResponse}.
Implicit Types (ps : PeerSessions) (st : session).

(** ** One share *)

(** A session task, given whether the endpoint was closed; [None] is a panic. *)
Definition session_task : Type := bool → EndpointId → session → option bool * session.

(** The environment of a round; [ro_closed] is whether the endpoint is closed by the time
    the worker has its scan permit, and [ro_reports] are the reports of the watcher
    during the scan. *)
Record round_env := {
  ro_wakeup : wakeup;
  ro_task : session_task;
  ro_finish : update_env;
  ro_closed : bool;
  ro_scan : scan_env;
  ro_reports : list (result Event);
  ro_now : Z;
  ro_refresh : update_env;
}.

(** The sessions and the share of a worker, the flags of the share and the permit of
    [scan_notify]. *)
Record worker := {
  wk_sessions : PeerSessions;
  wk_world : session;
  wk_watch : watch;
  wk_woken : bool;
}.
Definition with_sessions (k : worker) ps (s : ActiveShare) : worker := {|
  wk_sessions := ps; wk_world := with_share (wk_world k) s; wk_watch := wk_watch k;
  wk_woken := wk_woken k |}.

(** A session completes and is finished. *)
Definition complete_session (task : session_task) (env : update_env) (choice : nat) (closed : bool)
    ps st : result unit * PeerSessions * session :=
  match join_next ps choice with
  | None => (Ok tt, ps, st)
  | Some (peer, ps) =>
      let '(completion, st) := task closed peer st in
      let '(r, ps, s) := finish ps peer completion (ss_share st) env in
      (r, ps, with_share st s)
  end.

Definition finish_completed (env : round_env) (k : worker) : result unit * worker :=
  match ro_wakeup env with
  | Completed choice =>
      let '(r, ps, st) := complete_session (ro_task env) (ro_finish env) choice false
                            (wk_sessions k) (wk_world k) in
      (r, {| wk_sessions := ps; wk_world := st; wk_watch := wk_watch k; wk_woken := wk_woken k |})
  | _ => (Ok tt, k)
  end.

Definition scan_round (env : round_env) (k : worker) : result bool * worker :=
  let '(r, s, w, woken) := scan_active_share (ro_scan env) (ro_reports env) (wk_woken k)
    (ss_share (wk_world k)) (ss_tree (wk_world k)) (wk_watch k) in
  (r, {| wk_sessions := wk_sessions k; wk_world := with_share (wk_world k) s; wk_watch := w;
         wk_woken := woken |}).

(** [fill] and [refresh_peer_status]. *)
Definition fill_round (env : round_env) (k : worker) : result unit * worker :=
  match fill (wk_sessions k) (ss_share (wk_world k)) (ro_now env) with
  | (Err e, ps, s) => (Err e, with_sessions k ps s)
  | (Ok _, ps, s) =>
      match refresh_peer_status s false (sessions_len ps) (ro_refresh env) with
      | (Err e, s) => (Err e, with_sessions k ps s)
      | (Ok _, s) => (Ok tt, with_sessions k ps s)
      end
  end.

(** A round of the loop, with the result it breaks with, if it does; [worker_body] is what
    follows the first [select!]. *)
Definition worker_body (env : round_env) (k : worker) : option (result unit) * worker :=
  match finish_completed env k with
  | (Err e, k) => (Some (Err e), k)
  | (Ok _, k) =>
      if ro_closed env then (Some (Ok tt), k)
      else
        match scan_round env k with
        | (Err _, k) => (None, k)
        | (Ok _, k) =>
            match fill_round env k with
            | (Err e, k) => (Some (Err e), k)
            | (Ok _, k) => (None, k)
            end
        end
  end.
Definition worker_round (env : round_env) (k : worker) : option (result unit) * worker :=
  if bool_decide (ro_wakeup env = Closed) then (Some (Ok tt), k) else worker_body env k.

(** The loop, for as many rounds as there are. *)
Fixpoint worker_loop (rounds : list round_env) (k : worker) : option (result unit) * worker :=
  match rounds with
  | [] => (None, k)
  | env :: rounds =>
      match worker_round env k with
      | (Some r, k) => (Some r, k)
      | (None, k) => worker_loop rounds k
      end
  end.

(** [drain]: the environment of the sessions that complete, in their order. *)
Record drain_env := {
  dr_task : nat → session_task;
  dr_choice : nat → nat;
  dr_finish : nat → update_env;
}.

Fixpoint drain_loop (env : drain_env) (round fuel : nat) (failure : option string) ps st
    : option (option string * PeerSessions * session) :=
  match pe_tasks ps with
  | [] => Some (failure, ps, st)
  | _ =>
      match fuel with
      | O => None
      | S fuel =>
          let '(r, ps, st) := complete_session (dr_task env round) (dr_finish env round)
                                (dr_choice env round) true ps st in
          let failure := match failure, r with None, Err e => Some e | _, _ => failure end in
          drain_loop env (S round) fuel failure ps st
      end
  end.

(** One round per session suffices. *)
Definition drain (env : drain_env) ps st : option (result unit * PeerSessions * session) :=
  '(failure, ps, st) ← drain_loop env 0 (length (pe_tasks ps)) None ps st;
  Some (match failure with None => Ok tt | Some e => Err e end, ps, st).

(** [run_share_worker]; without a result it still runs.  The endpoint is closed when the
    sessions are drained. *)
Definition run_share_worker (rounds : list round_env) (env : drain_env) st (w : watch) (woken : bool)
    : option (result unit) * worker :=
  let start := {| wk_sessions := PeerSessions_default; wk_world := st; wk_watch := w; wk_woken := woken |} in
  match worker_loop rounds start with
  | (None, k) => (None, k)
  | (Some result, k) =>
      match drain env (wk_sessions k) (wk_world k) with
      | None => (None, k)
      | Some (drained, ps, st) =>
          (Some (result;; drained),
           {| wk_sessions := ps; wk_world := st; wk_watch := wk_watch k; wk_woken := wk_woken k |})
      end
  end.

(** [sync_active_share], of a run with [--once]. *)
Definition sync_active_share (scan : scan_env) (reports : list (result Event)) (env : peers_env)
    st (w : watch) (woken : bool) : option (result unit * session * watch * bool) :=
  let '(r, s, w, woken) := scan_active_share scan reports woken (ss_share st) (ss_tree st) w in
  let st := with_share st s in
  match r with
  | Err e => Some (Err e, st, w, woken)
  | Ok _ =>
      '(r, st, _) ← sync_known_peers env st;
      Some (r ≫= (λ _, Ok tt), st, w, woken)
  end.

(** ** All shares *)

(** What the supervisor finds: the endpoint closed, the result of the shutdown signal, a
    worker that ended (or none left) and whether the endpoint is closed then, or
    [scan_notify].  A worker ends with a result, or [None] for a panic. *)
Inductive supervisor_event :=
| EndpointClosed
| Shutdown (r : result unit)
| Joined (outcome : option (option (result unit))) (closed : bool)
| ScanNotified.

Definition supervise (event : supervisor_event) : option (result unit) :=
  match event with
  | EndpointClosed => Some (Ok tt)
  | Shutdown r => Some r
  | Joined (Some None) _ => Some (Err "share synchronization worker failed")
  | Joined (Some (Some (Err e))) _ => Some (Err e)
  | Joined (Some (Some (Ok _))) false => Some (Err "share synchronization worker stopped unexpectedly")
  | Joined _ _ => Some (Ok tt)
  | ScanNotified => None
  end.
Fixpoint supervisor_loop (events : list supervisor_event) : option (result unit) :=
  match events with
  | [] => None
  | event :: events =>
      match supervise event with Some r => Some r | None => supervisor_loop events end
  end.

(** The workers that end after the endpoint was closed. *)
Definition worker_failure (outcome : option (result unit)) : option string :=
  match outcome with
  | Some (Ok _) => None
  | Some (Err e) => Some e
  | None => Some "share synchronization worker failed during shutdown"
  end.
Definition join_workers (r : result unit) (outcomes : list (option (result unit))) : result unit :=
  foldl (λ r outcome, match r, worker_failure outcome with Ok _, Some e => Err e | _, _ => r end)
    r outcomes.
Definition run_share_workers (events : list supervisor_event) (outcomes : list (option (result unit)))
    : option (result unit) :=
  r ← supervisor_loop events; Some (join_workers r outcomes).

(** ** Sessions of a worker *)

(** A worker has at most two sessions, of different peers, and knows them. *)
Record sessions_ok ps : Prop := {
  so_distinct : NoDup (pe_tasks ps);
  so_few : (length (pe_tasks ps) ≤ 2)%nat;
  so_active : ∀ p, p ∈ pe_active ps ↔ p ∈ pe_tasks ps;
}.

Lemma sessions_ok_default : sessions_ok PeerSessions_default.
Proof. split; simpl; [constructor|lia|set_solver]. Qed.

Lemma join_next_perm ps choice peer ps' :
  join_next ps choice = Some (peer, ps') →
  pe_tasks ps ≡ₚ peer :: pe_tasks ps' ∧ pe_active ps' = pe_active ps.
Proof.
  unfold join_next. intros (q & Hq & [= -> <-])%bind_Some. split; [|done]. by apply delete_Permutation.
Qed.

(** A completed session is over, whatever became of it. *)
Lemma complete_session_ok task env choice closed ps st r ps' st' :
  sessions_ok ps → complete_session task env choice closed ps st = (r, ps', st') →
  NoDup (pe_tasks ps') ∧ (length (pe_tasks ps') ≤ pred (length (pe_tasks ps)))%nat ∧
  (r = Ok tt → sessions_ok ps').
Proof.
  intros [Hn Hl Ha]. unfold complete_session. destruct (join_next ps choice) as [[peer ps1]|] eqn:Ej.
  2: { intros [= <- <- <-]. apply join_next_None in Ej. rewrite Ej. split_and!; [constructor|done|]. by split. }
  apply join_next_perm in Ej as [Hp Ea]. destruct (task closed peer st) as [completion st1].
  destruct (finish ps1 peer completion (ss_share st1) env) as [[r1 ps2] s2] eqn:Ef. intros [= <- <- <-].
  rewrite Hp in Hn. apply NoDup_cons in Hn as [Hnot Hn].
  pose proof (finish_sessions _ _ _ _ _ _ _ _ Ef) as [Et _]. rewrite Et, Hp. simpl.
  split_and!; [done|done|]. intros ->. split; rewrite ?Et; [done|rewrite Hp in Hl; simpl in Hl; lia|].
  intros p. unfold finish in Ef. destruct completion as [b|]; [|done].
  destruct (refresh_peer_status _ _ _ _) as [[o|] s3]; [|done]. injection Ef as <- _. simpl.
  rewrite Ea. specialize (Ha p). rewrite Hp in Ha. set_solver.
Qed.

Lemma spawn_all_ok peers ps :
  sessions_ok ps → NoDup peers → (∀ p, p ∈ peers → p ∉ pe_active ps) →
  (length (pe_tasks ps) + length peers ≤ 2)%nat → sessions_ok (foldl spawn ps peers).
Proof.
  revert ps. induction peers as [|p peers IH]; intros ps Hok Hn Hp Hl; simpl in *; [done|].
  apply NoDup_cons in Hn as [Hp' Hn]. destruct Hok as [Hn1 Hl1 Ha].
  assert (Hnew : p ∉ pe_active ps) by (apply Hp; left).
  unfold spawn at 2. rewrite bool_decide_false by done. apply IH; [|done| |]; simpl.
  - split; simpl; [|rewrite length_app; simpl; lia|set_solver].
    apply NoDup_app. split_and!; [done| |apply NoDup_singleton]. intros q Hq. rewrite list_elem_of_singleton.
    intros ->. by apply Hnew, Ha.
  - intros q Hq. rewrite elem_of_union, elem_of_singleton. intros [->|Hin]; [done|].
    by apply (Hp q); [right|].
  - rewrite length_app. simpl. lia.
Qed.

Lemma due_peers_inactive s active now peers s' :
  due_peers s active now = (Ok peers, s') → ∀ p, p ∈ peers → p ∉ active.
Proof.
  unfold due_peers. destruct (load_known_peer_ids _ _ _) as [ids|]; [|done]. intros [= <- _] p Hp.
  rewrite select_due_peers_sorted in Hp. apply subseteq_take in Hp.
  rewrite (sort_by_perm _ _) in Hp. apply list_elem_of_In, filter_In in Hp as [Hp _].
  apply filter_In in Hp as [_ Hp]. by bool_inv.
Qed.

Lemma fill_ok ps s now r ps' s' : sessions_ok ps → fill ps s now = (r, ps', s') → sessions_ok ps'.
Proof.
  intros Hok. unfold fill. destruct (Z.eqb_spec (saturating_sub MAX_CONCURRENT_PEERS (sessions_len ps)) 0) as [|Hne];
    [by intros [= _ <- _]|].
  destruct (due_peers s (pe_active ps) now) as [[peers|] s1] eqn:Ed; intros [= _ <- _]; [|done].
  apply spawn_all_ok; [done| | |].
  - apply due_peers_NoDup in Ed. by eapply sublist_NoDup; [|apply sublist_take].
  - intros p Hp%subseteq_take. by eapply due_peers_inactive.
  - rewrite length_take. unfold sessions_len, blen, saturating_sub, MAX_CONCURRENT_PEERS in *. lia.
Qed.

Lemma fill_round_ok env k r k' :
  sessions_ok (wk_sessions k) → fill_round env k = (r, k') → sessions_ok (wk_sessions k').
Proof.
  unfold fill_round. intros Hok.
  destruct (fill (wk_sessions k) (ss_share (wk_world k)) (ro_now env)) as [[r1 ps] s] eqn:Ef.
  apply fill_ok in Ef; [|done]. destruct r1 as [u|e]; [|by intros [= _ <-]].
  destruct (refresh_peer_status _ _ _ _) as [[o|] s']; by intros [= _ <-].
Qed.

(** The endpoint is found closed in a round. *)
Definition closing (env : round_env) : Prop := ro_wakeup env = Closed ∨ ro_closed env = true.

(** What holds of the sessions when a loop is left. *)
Definition few_sessions ps : Prop := NoDup (pe_tasks ps) ∧ (length (pe_tasks ps) ≤ 2)%nat.

Lemma sessions_ok_few ps : sessions_ok ps → few_sessions ps.
Proof. by intros [? ? _]. Qed.

Lemma finish_completed_ok env k r k' :
  sessions_ok (wk_sessions k) → finish_completed env k = (r, k') →
  few_sessions (wk_sessions k') ∧ (r = Ok tt → sessions_ok (wk_sessions k')).
Proof.
  intros Hok. unfold finish_completed. destruct (ro_wakeup env);
    [intros [= <- <-]; auto using sessions_ok_few| |intros [= <- <-]; auto using sessions_ok_few].
  destruct (complete_session _ _ _ _ _ _) as [[r1 ps] st] eqn:Ec. intros [= <- <-].
  apply complete_session_ok in Ec as (Hn & Hl & Hr); [|done]. destruct Hok as [_ Hl' _].
  split; [split; simpl; [done|lia]|done].
Qed.

Lemma scan_round_sessions env k r k' : scan_round env k = (r, k') → wk_sessions k' = wk_sessions k.
Proof. unfold scan_round. destruct (scan_active_share _ _ _ _ _ _) as [[[r1 s] w] woken]. by intros [= _ <-]. Qed.

Lemma worker_round_ok env k r k' :
  sessions_ok (wk_sessions k) → worker_round env k = (r, k') →
  few_sessions (wk_sessions k') ∧
  (r = None → sessions_ok (wk_sessions k') ∧ ¬ closing env) ∧
  (r = Some (Ok tt) → closing env).
Proof.
  intros Hok. unfold worker_round. case_bool_decide as Hw.
  { intros [= <- <-]. split; [by apply sessions_ok_few|]. by split; [|left]. }
  unfold worker_body.
  destruct (finish_completed env k) as [r1 k1] eqn:Ef. apply finish_completed_ok in Ef as [Hf Hk1]; [|done].
  destruct r1 as [[]|e]; [|by intros [= <- <-]]. specialize (Hk1 eq_refl).
  destruct (ro_closed env) eqn:Ec.
  { intros [= <- <-]. split; [done|]. by split; [|right]. }
  assert (Hnc : ¬ closing env) by (unfold closing; by intros [?|?]; congruence).
  destruct (scan_round env k1) as [r2 k2] eqn:Es. apply scan_round_sessions in Es. rewrite <-Es in Hk1.
  destruct r2 as [b|e]; [|intros [= <- <-]; (split; [by apply sessions_ok_few|]); by split; [auto|]].
  destruct (fill_round env k2) as [r3 k3] eqn:Efill. apply fill_round_ok in Efill; [|done].
  destruct r3 as [[]|e]; intros [= <- <-]; (split; [by apply sessions_ok_few|]); by split; [auto|].
Qed.

Lemma worker_loop_ok rounds k r k' :
  sessions_ok (wk_sessions k) → worker_loop rounds k = (r, k') →
  few_sessions (wk_sessions k') ∧
  (r = None → sessions_ok (wk_sessions k') ∧ Forall (λ env, ¬ closing env) rounds) ∧
  (r = Some (Ok tt) → Exists closing rounds).
Proof.
  revert k. induction rounds as [|env rounds IH]; intros k Hok; simpl.
  { intros [= <- <-]. split; [by apply sessions_ok_few|]. by split. }
  destruct (worker_round env k) as [r1 k1] eqn:Er. apply worker_round_ok in Er as (Hf & Hnone & Hdone); [|done].
  destruct r1 as [r1|].
  - intros [= <- <-]. split_and!; [done|done|]. intros E. left. by apply Hdone.
  - destruct (Hnone eq_refl) as [Hk1 Hnc]. intros Hl. destruct (IH k1 Hk1 Hl) as (H1' & H2' & H3').
    split_and!; [done|intros E; destruct (H2' E); auto|intros E; right; auto].
Qed.

(** Every session that runs is waited for. *)
Lemma drain_loop_ends env round fuel failure ps st :
  (length (pe_tasks ps) ≤ fuel)%nat →
  ∃ failure' ps' st', drain_loop env round fuel failure ps st = Some (failure', ps', st') ∧ pe_tasks ps' = [].
Proof.
  revert round failure ps st. induction fuel as [|fuel IH]; intros round failure ps st Hl; simpl.
  - destruct (pe_tasks ps) eqn:E; [|simpl in Hl; lia]. eauto.
  - destruct (pe_tasks ps) as [|x l] eqn:E; [by eauto|].
    destruct (complete_session _ _ _ _ _ _) as [[r ps1] st1] eqn:Ec. apply IH.
    assert (Hlen : (length (pe_tasks ps1) ≤ pred (length (pe_tasks ps)))%nat).
    { unfold complete_session in Ec. destruct (join_next ps (dr_choice env round)) as [[peer ps2]|] eqn:Ej.
      - apply join_next_perm in Ej as [Hp _]. destruct (dr_task env round true peer st) as [c st2].
        destruct (finish _ _ _ _ _) as [[r2 ps3] s3] eqn:Ef. injection Ec as _ <- _.
        apply finish_sessions in Ef as [-> _]. rewrite Hp. simpl. lia.
      - injection Ec as _ <- _. apply join_next_None in Ej. congruence. }
    rewrite E in Hlen. simpl in *. lia.
Qed.

(** The supervisor succeeds only if it was asked to stop and no worker failed. *)
Lemma run_share_workers_Ok events outcomes :
  run_share_workers events outcomes = Some (Ok tt) ↔
  supervisor_loop events = Some (Ok tt) ∧ Forall (.= Some (Ok tt)) outcomes.
Proof.
  assert (Hjoin : ∀ r, join_workers r outcomes = Ok tt ↔ r = Ok tt ∧ Forall (.= Some (Ok tt)) outcomes).
  { induction outcomes as [|o outcomes IH]; intros r; simpl; [naive_solver|]. unfold join_workers in *. simpl.
    rewrite IH, Forall_cons. destruct r as [[]|]; [|naive_solver]. destruct o as [[[]|]|]; simpl; naive_solver. }
  unfold run_share_workers. destruct (supervisor_loop events) as [r|]; simpl; [|by split; [|intros []]].
  rewrite !(inj_iff Some), Hjoin. done.
Qed.

(** ** Properties *)

(** C15: a worker owns its sessions and outlives none of them.  However its sessions, the
    watcher and the system behave, a worker has at most two sessions at any time, of
    different peers.  It keeps running until the endpoint is closed or an operation
    fails, never stops successfully unless the endpoint was closed, always returns once
    it was closed, and returns only when no session is left. *)
Theorem worker_outlives_sessions (rounds : list round_env) (env : drain_env) st (w : watch) (woken : bool) :
  let '(r, k) := run_share_worker rounds env st w woken in
  few_sessions (wk_sessions k) ∧
  (Exists closing rounds → is_Some r) ∧
  (r = Some (Ok tt) → Exists closing rounds) ∧
  (is_Some r → pe_tasks (wk_sessions k) = []).
Proof.
  unfold run_share_worker. destruct (worker_loop rounds _) as [r k] eqn:El.
  apply worker_loop_ok in El as (Hf & Hnone & Hdone); [|apply sessions_ok_default].
  destruct r as [r|].
  - unfold drain. destruct (drain_loop_ends env 0 (length (pe_tasks (wk_sessions k))) None (wk_sessions k) (wk_world k))
      as (failure & ps & st' & -> & Ht); [done|]. simpl.
    split_and!; [split; rewrite Ht; [constructor|simpl; lia]|by eauto| |done].
    destruct r as [[]|e]; [auto|]. by intros [=].
  - destruct (Hnone eq_refl) as [Hk Hnc]. split_and!; [done| |done|by intros [? [=]]].
    intros (x & Hx & Hc)%Exists_exists. rewrite Forall_forall in Hnc. by destruct (Hnc x).
Qed.
End workers.
