(* ===== verification/Incoming.v ===== *)
(** * Incoming connections (src/network/lifecycle.rs, src/network/incoming.rs)

    The accept loop of the endpoint, one handler per connection and one task per stream.
    A handler holds a connection permit and a stream task a stream permit for as long as
    they live, so the free permits are counted over them.  The tasks are interleaved in
    any order; the outcome of a stream is that of [handle_sync_stream] on what the peer
    sent over it.  Durations are milliseconds. *)

From S2P Require Import Prelude Collections Bytes External Reference Framing Clock Types Peers ManifestPath Manifest Merge Storage Digest Auth Scheduling State Wire LocalFs Partial Streaming Planning Apply Scan ShareScan Session Convergence Connections.

Definition MAX_INCOMING_HANDLERS : Z := 32.
Definition HANDSHAKE_TIMEOUT : Z := 10000.
Definition STREAM_QUEUE_TIMEOUT : Z := 5000.

(** How long a connection may stay without a new stream. *)
Definition idle_timeout (authenticated : bool) : Z :=
  if authenticated then CONNECTION_IDLE_TIMEOUT else HANDSHAKE_TIMEOUT.

(** Where a handler is: in the loop, with the idle timeout it waits for; with a stream,
    waiting for a permit; after the loop, waiting for its streams. *)
Inductive stage := Accepting (idle : Z) | Queuing | Leaving.

Section incoming.
Context `{HexCodec, Sha256, Iroh, Blake3, Hmac, WalkDir, Allocator}
  `{!JsonState ShareConfig} `{!JsonState Manifest} `{!JsonState ClockState}
  `{!JsonState KnownPeers} `{!JsonState RuntimeStatus}
  `{!Json SyncRequest, !Json SyncResponse, !Json ManifestMessage, !Json TransferRequest,
    !Json TransferReady, !Json TransferResponse}.

(** ** State *)

(** A handler waits for the handshake of its connection, or handles a peer: whether the
    peer was authenticated, whether the connection was closed, and where it is. *)
Inductive handler :=
| Handshaking
| Handling (peer : EndpointId) (authenticated closed : bool) (at_ : stage).

(** A stream task: the handler it belongs to, and what becomes of it. *)
Record stream := {
  sm_handler : nat;
  sm_outcome : result unit;
  sm_authenticates : bool;
}.

Record incoming := {
  in_listening : bool;
  in_handlers : gmap nat handler;
  in_streams : gmap nat stream;
}.
Implicit Types x : incoming.

Definition incoming_default : incoming :=
  {| in_listening := true; in_handlers := ∅; in_streams := ∅ |}.

Definition free_handlers x : Z := MAX_INCOMING_HANDLERS - Z.of_nat (size (in_handlers x)).
Definition free_stream_permits x : Z := MAX_INCOMING_HANDLERS - Z.of_nat (size (in_streams x)).

(** [streams.is_empty()] of a handler. *)
Definition no_streams x (h : nat) : bool :=
  bool_decide (filter (λ iy : nat * stream, sm_handler iy.2 = h) (in_streams x) = ∅).

Definition with_handlers x (handlers : gmap nat handler) : incoming :=
  {| in_listening := in_listening x; in_handlers := handlers; in_streams := in_streams x |}.
Definition set_handler x (h : nat) (y : handler) : incoming :=
  with_handlers x (<[h := y]> (in_handlers x)).
Definition with_streams x (streams : gmap nat stream) : incoming :=
  {| in_listening := in_listening x; in_handlers := in_handlers x; in_streams := streams |}.

(** ** Actions *)

(** A stream as it is received: the shares, the files and the bytes it is handled with. *)
Record stream_input := {
  si_env : server_env;
  si_registry : gmap bytes ActiveShare;
  si_tree : tree;
  si_partials : partials;
  si_recv : bytes;
}.
Definition run_stream (input : stream_input) (peer : EndpointId) : result unit * option session * bool :=
  handle_sync_stream (si_env input) (si_registry input) (si_tree input) (si_partials input)
    (si_recv input) peer.

(** What [accept_bi] gives within the idle timeout, and what a stream gets that waits for
    a permit. *)
Inductive accepted := GotStream | GotError | GotNothing (waited : Z).
Inductive queued := Permit (i : nat) (input : stream_input) | Disconnected | Expired (waited : Z).

Inductive action :=
| Arrives (h : nat)
| StopsListening
| Handshakes (h : nat) (connection : option EndpointId)
| Accepts (h : nat) (r : accepted)
| Queues (h : nat) (r : queued)
| Authenticates (i : nat)
| StreamEnds (i : nat)
| Leaves (h : nat).

(** [endpoint.accept()]: a connection without a permit is dropped. *)
Definition arrives x (h : nat) : option incoming :=
  if negb (in_listening x) || bool_decide (is_Some (in_handlers x !! h)) then None
  else if free_handlers x <=? 0 then Some x else Some (set_handler x h Handshaking).

Definition handshakes x (h : nat) (connection : option EndpointId) : incoming :=
  match connection with
  | Some peer => set_handler x h (Handling peer false false (Accepting (idle_timeout false)))
  | None => with_handlers x (delete h (in_handlers x))
  end.

(** The second branch of the [select!] in [handle_incoming]. *)
Definition accepts x (h : nat) (peer : EndpointId) (authenticated closed : bool) (idle : Z) (r : accepted)
    : option incoming :=
  match r with
  | GotStream => if closed then None else Some (set_handler x h (Handling peer authenticated closed Queuing))
  | GotError => Some (set_handler x h (Handling peer authenticated closed Leaving))
  | GotNothing waited =>
      if waited <? idle then None
      else if no_streams x h || negb authenticated
      then Some (set_handler x h (Handling peer authenticated true Leaving))
      else Some (set_handler x h (Handling peer authenticated closed (Accepting (idle_timeout authenticated))))
  end.

(** The stream waits for a permit. *)
Definition queues x (h : nat) (peer : EndpointId) (authenticated closed : bool) (r : queued) : option incoming :=
  let next := Handling peer authenticated closed (Accepting (idle_timeout authenticated)) in
  match r with
  | Permit i input =>
      if bool_decide (is_Some (in_streams x !! i)) || (free_stream_permits x <=? 0) then None
      else
        let run := run_stream input peer in
        Some (with_streams (set_handler x h next)
          (<[i := {| sm_handler := h; sm_outcome := run.1.1; sm_authenticates := run.2 |}]> (in_streams x)))
  | Disconnected => Some (set_handler x h (Handling peer authenticated closed Leaving))
  | Expired waited => if waited <? STREAM_QUEUE_TIMEOUT then None else Some (set_handler x h next)
  end.

(** A stream stores [authenticated]. *)
Definition authenticates x (i : nat) (y : stream) : option incoming :=
  if sm_authenticates y then
    match in_handlers x !! sm_handler y with
    | Some (Handling peer _ closed at_) => Some (set_handler x (sm_handler y) (Handling peer true closed at_))
    | _ => None
    end
  else None.

(** The end of a stream task: a failure closes a connection without authentication, and
    the loop of the handler goes on. *)
Definition stream_ends x (i : nat) (y : stream) : option incoming :=
  match in_handlers x !! sm_handler y with
  | Some (Handling peer authenticated closed at_) =>
      if sm_authenticates y && negb authenticated then None
      else
        let closed := closed || (negb (is_ok (sm_outcome y)) && negb authenticated) in
        let at_ := match at_ with Accepting _ => Accepting (idle_timeout authenticated) | _ => at_ end in
        Some (with_streams (set_handler x (sm_handler y) (Handling peer authenticated closed at_))
                (delete i (in_streams x)))
  | _ => None
  end.

Definition act_incoming x (a : action) : option incoming :=
  match a with
  | Arrives h => arrives x h
  | StopsListening => Some {| in_listening := false; in_handlers := in_handlers x; in_streams := in_streams x |}
  | Handshakes h connection =>
      match in_handlers x !! h with Some Handshaking => Some (handshakes x h connection) | _ => None end
  | Accepts h r =>
      match in_handlers x !! h with
      | Some (Handling peer authenticated closed (Accepting idle)) => accepts x h peer authenticated closed idle r
      | _ => None
      end
  | Queues h r =>
      match in_handlers x !! h with
      | Some (Handling peer authenticated closed Queuing) => queues x h peer authenticated closed r
      | _ => None
      end
  | Authenticates i => y ← in_streams x !! i; authenticates x i y
  | StreamEnds i => y ← in_streams x !! i; stream_ends x i y
  | Leaves h =>
      match in_handlers x !! h with
      | Some (Handling _ _ _ Leaving) =>
          if no_streams x h then Some (with_handlers x (delete h (in_handlers x))) else None
      | _ => None
      end
  end.

Fixpoint run_incoming x (actions : list action) : option incoming :=
  match actions with
  | [] => Some x
  | a :: actions => x ← act_incoming x a; run_incoming x actions
  end.

(** ** Invariant *)

(** The peer opened a stream whose first message proves that it knows the secret of one of
    the registered shares. *)
Definition proved (actions : list action) (peer : EndpointId) : Prop :=
  ∃ h i input hello rest share,
    Queues h (Permit i input) ∈ actions ∧ read_client_hello (si_recv input) = Ok (hello, rest) ∧
    si_registry input !! ch_share_id hello = Some share ∧
    validate_client_hello hello (as_config share) peer (as_local_endpoint_id share) = Ok tt.

Lemma run_stream_proved input peer :
  (run_stream input peer).2 = true →
  ∃ hello rest share, read_client_hello (si_recv input) = Ok (hello, rest) ∧
    si_registry input !! ch_share_id hello = Some share ∧
    validate_client_hello hello (as_config share) peer (as_local_endpoint_id share) = Ok tt.
Proof.
  unfold run_stream, handle_sync_stream. destruct (read_client_hello _) as [[hello rest]|]; [|done].
  destruct (si_registry input !! ch_share_id hello) as [share|] eqn:Er; [|done].
  destruct (validate_client_hello _ _ _ _) as [[]|] eqn:Ev; [|done]. intros _. by exists hello, rest, share.
Qed.

Definition handler_ok (actions : list action) (y : handler) : Prop :=
  match y with
  | Handshaking => True
  | Handling peer authenticated closed at_ =>
      (authenticated = true → proved actions peer) ∧
      ∀ idle, at_ = Accepting idle → authenticated = false → idle = HANDSHAKE_TIMEOUT
  end.

Record incoming_ok (actions : list action) x : Prop := {
  ik_handlers : 0 ≤ free_handlers x;
  ik_streams : 0 ≤ free_stream_permits x;
  ik_each : map_Forall (λ _, handler_ok actions) (in_handlers x);
  ik_owned : ∀ i y, in_streams x !! i = Some y → ∃ peer authenticated closed at_,
    in_handlers x !! sm_handler y = Some (Handling peer authenticated closed at_) ∧
    (sm_authenticates y = true → proved actions peer);
}.

Lemma proved_mono actions actions' peer : actions ⊆ actions' → proved actions peer → proved actions' peer.
Proof. intros Hs (h & i & input & hello & rest & share & Hin & Hp). exists h, i, input, hello, rest, share. auto. Qed.
Lemma handler_ok_mono actions actions' y : actions ⊆ actions' → handler_ok actions y → handler_ok actions' y.
Proof. intros Hs. destruct y; simpl; [done|]. intros [Hp Hi]. eauto using proved_mono. Qed.
Lemma incoming_ok_mono actions actions' x : actions ⊆ actions' → incoming_ok actions x → incoming_ok actions' x.
Proof.
  intros Hs [Hh Hst He Ho]. split; [done|done| |].
  - intros h y Hy. eauto using handler_ok_mono.
  - intros i y Hy. destruct (Ho i y Hy) as (peer & au & cl & at_ & ? & ?). eauto 8 using proved_mono.
Qed.

(** A handler that goes on: its peer stays, and so do its streams. *)
Lemma set_handler_ok actions x h peer au cl at_ au' cl' at_' :
  incoming_ok actions x → in_handlers x !! h = Some (Handling peer au cl at_) →
  handler_ok actions (Handling peer au' cl' at_') →
  incoming_ok actions (set_handler x h (Handling peer au' cl' at_')).
Proof.
  intros [Hh Hst He Ho] Hx Hy. split; simpl.
  - unfold free_handlers in *. simpl. by rewrite map_size_insert_Some by eauto.
  - done.
  - by apply map_Forall_insert_2.
  - intros i y Hi. destruct (Ho i y Hi) as (p & a & c & t & Hp & Hpr).
    destruct (decide (sm_handler y = h)) as [E|E].
    + rewrite E, lookup_insert_eq. rewrite E, Hx in Hp. injection Hp as <- <- <- <-. eauto 8.
    + rewrite lookup_insert_ne by done. eauto 8.
Qed.

(** A handler without streams ends. *)
Lemma delete_handler_ok actions x h y :
  incoming_ok actions x → in_handlers x !! h = Some y →
  (∀ i z, in_streams x !! i = Some z → sm_handler z ≠ h) →
  incoming_ok actions (with_handlers x (delete h (in_handlers x))).
Proof.
  intros [Hh Hst He Ho] Hx Hn. split; simpl.
  - unfold free_handlers in *. simpl. rewrite map_size_delete_Some by eauto. lia.
  - done.
  - by apply map_Forall_delete.
  - intros i z Hi. rewrite lookup_delete_ne by (apply not_eq_sym; eauto). eauto.
Qed.

Lemma no_streams_iff x h : no_streams x h = true ↔ ∀ i y, in_streams x !! i = Some y → sm_handler y ≠ h.
Proof.
  unfold no_streams. rewrite bool_decide_eq_true, map_empty. split.
  - intros Hf i y Hy. specialize (Hf i). rewrite map_lookup_filter_None in Hf. destruct Hf as [Hf|Hf]; [congruence|].
    by apply (Hf y).
  - intros Hn i. apply map_lookup_filter_None. right. apply Hn.
Qed.

Lemma arrives_ok actions x h x' : incoming_ok actions x → arrives x h = Some x' → incoming_ok actions x'.
Proof.
  intros Hok. unfold arrives. destruct (negb (in_listening x)); [done|]. simpl.
  case_bool_decide as Hh; [done|]. apply eq_None_not_Some in Hh. destruct (Z.leb_spec (free_handlers x) 0); [by intros [= <-]|].
  intros [= <-]. destruct Hok as [_ Hst He Ho]. split; simpl.
  - unfold free_handlers in *. simpl. rewrite map_size_insert_None by done. lia.
  - done.
  - by apply map_Forall_insert_2.
  - intros i y Hi. destruct (Ho i y Hi) as (p & a & c & t & Hp & Hpr).
    rewrite lookup_insert_ne by congruence. eauto 8.
Qed.

Lemma accepts_ok actions x h peer au cl idle r x' :
  incoming_ok actions x → in_handlers x !! h = Some (Handling peer au cl (Accepting idle)) →
  accepts x h peer au cl idle r = Some x' → incoming_ok actions x'.
Proof.
  intros Hok Hx. destruct (ik_each _ _ Hok h _ Hx) as [Hau _]. unfold accepts. destruct r as [| |waited].
  - destruct cl; [done|]. intros [= <-]. by eapply set_handler_ok.
  - intros [= <-]. by eapply set_handler_ok.
  - destruct (waited <? idle); [done|]. destruct (_ || _); intros [= <-]; eapply set_handler_ok; try done.
    split; [done|]. intros ? [= <-] ->. done.
Qed.

Lemma queues_ok actions x h peer au cl r x' :
  incoming_ok actions x → in_handlers x !! h = Some (Handling peer au cl Queuing) →
  Queues h r ∈ actions → queues x h peer au cl r = Some x' → incoming_ok actions x'.
Proof.
  intros Hok Hx Hin. destruct (ik_each _ _ Hok h _ Hx) as [Hau _].
  assert (Hnext : handler_ok actions (Handling peer au cl (Accepting (idle_timeout au)))).
  { split; [done|]. by intros ? [= <-] ->. }
  unfold queues. destruct r as [i input| |waited].
  - case_bool_decide as Hi; [done|]. simpl. apply eq_None_not_Some in Hi.
    destruct (Z.leb_spec (free_stream_permits x) 0); [done|]. intros [= <-].
    pose proof (set_handler_ok _ _ _ _ _ _ _ _ _ _ Hok Hx Hnext) as [Hh _ He Ho]. split; simpl; [done| |done|].
    + unfold free_stream_permits in *. simpl. rewrite map_size_insert_None by done. lia.
    + intros j y. destruct (decide (i = j)) as [<-|Hj].
      * rewrite lookup_insert_eq. intros [= <-]. simpl. rewrite lookup_insert_eq. do 4 eexists. split; [done|].
        intros (hello & rest & share & Hp)%run_stream_proved. by exists h, i, input, hello, rest, share.
      * rewrite lookup_insert_ne by done. apply Ho.
  - intros [= <-]. by eapply set_handler_ok.
  - destruct (waited <? STREAM_QUEUE_TIMEOUT); [done|]. intros [= <-]. by eapply set_handler_ok.
Qed.

Lemma authenticates_ok actions x i y x' :
  incoming_ok actions x → in_streams x !! i = Some y → authenticates x i y = Some x' → incoming_ok actions x'.
Proof.
  intros Hok Hy. destruct (ik_owned _ _ Hok i y Hy) as (peer & au & cl & at_ & Hx & Hp).
  unfold authenticates. destruct (sm_authenticates y); [|done]. rewrite Hx. intros [= <-].
  eapply set_handler_ok; [done..|]. by split; [auto|].
Qed.

Lemma stream_ends_ok actions x i y x' :
  incoming_ok actions x → in_streams x !! i = Some y → stream_ends x i y = Some x' → incoming_ok actions x'.
Proof.
  intros Hok Hy. destruct (ik_owned _ _ Hok i y Hy) as (peer & au & cl & at_ & Hx & Hp).
  unfold stream_ends. rewrite Hx. destruct (sm_authenticates y && negb au); [done|]. intros [= <-].
  destruct (ik_each _ _ Hok _ _ Hx) as [Hau Hidle].
  assert (Hset : incoming_ok actions (set_handler x (sm_handler y)
    (Handling peer au (cl || (negb (is_ok (sm_outcome y)) && negb au))
       (match at_ with Accepting _ => Accepting (idle_timeout au) | _ => at_ end)))).
  { eapply set_handler_ok; [done..|]. split; [done|]. by destruct at_; intros ? [= <-] ->. }
  destruct Hset as [Hh Hst He Ho]. split; simpl; [done| |done|].
  - unfold free_stream_permits in *. simpl in *. rewrite map_size_delete_Some by eauto. lia.
  - intros j z [_ Hz]%lookup_delete_Some. by apply (Ho j z).
Qed.

Lemma act_incoming_ok actions x a x' :
  incoming_ok actions x → a ∈ actions → act_incoming x a = Some x' → incoming_ok actions x'.
Proof.
  intros Hok Hin. destruct a as [h| |h connection|h r|h r|i|i|h]; simpl.
  - by apply arrives_ok.
  - intros [= <-]. by destruct Hok.
  - destruct (in_handlers x !! h) as [[|peer au cl at_]|] eqn:Eh; [|done..]. intros [= <-].
    assert (Hn : ∀ i z, in_streams x !! i = Some z → sm_handler z ≠ h).
    { intros i z Hz E. destruct (ik_owned _ _ Hok i z Hz) as (? & ? & ? & ? & Hz' & _). congruence. }
    destruct connection as [peer|]; simpl; [|by eapply delete_handler_ok].
    destruct Hok as [Hh Hst He Ho]. split; simpl;
      [| |by apply map_Forall_insert_2; [split; [done|by intros ? [= <-]]|]|].
    + unfold free_handlers in *. simpl. by rewrite map_size_insert_Some by eauto.
    + done.
    + intros i z Hz. rewrite lookup_insert_ne by (apply not_eq_sym; eauto). eauto.
  - destruct (in_handlers x !! h) as [[|peer au cl [idle| |]]|] eqn:Eh; try done. by eapply accepts_ok.
  - destruct (in_handlers x !! h) as [[|peer au cl [idle| |]]|] eqn:Eh; try done. by eapply queues_ok.
  - intros (y & Hy & E)%bind_Some. by eapply authenticates_ok.
  - intros (y & Hy & E)%bind_Some. by eapply stream_ends_ok.
  - destruct (in_handlers x !! h) as [[|peer au cl [idle| |]]|] eqn:Eh; try done.
    destruct (no_streams x h) eqn:En; [|done]. intros [= <-]. rewrite no_streams_iff in En.
    by eapply delete_handler_ok.
Qed.

Lemma run_incoming_ok past actions x x' :
  incoming_ok past x → run_incoming x actions = Some x' → incoming_ok (past ++ actions) x'.
Proof.
  revert past x. induction actions as [|a actions IH]; intros past x Hok; simpl.
  - intros [= <-]. by rewrite app_nil_r.
  - intros (y & Ha & Hr)%bind_Some. replace (past ++ a :: actions) with ((past ++ [a]) ++ actions) by by rewrite <-app_assoc.
    apply (IH _ y); [|done]. eapply (act_incoming_ok _ x a); [| |done]; [|apply elem_of_app; right; by left].
    apply (incoming_ok_mono past); [|done]. intros b Hb. apply elem_of_app. by left.
Qed.

Lemma incoming_default_ok : incoming_ok [] incoming_default.
Proof. split; [vm_compute; congruence..|apply map_Forall_empty|]. intros i y. simpl. by rewrite lookup_empty. Qed.

(** ** Properties *)

(** C16: incoming peers cannot exhaust the process or outstay their welcome.  However
    connections and streams arrive, fail and end, there are at most 32 handlers and at
    most 32 streams; no stream outlives its handler; a connection counts as
    authenticated only if its peer proved on one of its streams that it knows the
    secret of a registered share; and until then the connection is closed as soon as
    ten seconds pass without a new stream, whatever its streams do. *)
Theorem incoming_is_bounded (actions : list action) x
    (Hrun : run_incoming incoming_default actions = Some x) :
  Z.of_nat (size (in_handlers x)) ≤ 32 ∧ Z.of_nat (size (in_streams x)) ≤ 32 ∧
  (∀ i y, in_streams x !! i = Some y → is_Some (in_handlers x !! sm_handler y)) ∧
  ∀ h peer authenticated closed at_,
    in_handlers x !! h = Some (Handling peer authenticated closed at_) →
    (authenticated = true → proved actions peer) ∧
    ∀ idle waited, authenticated = false → at_ = Accepting idle → 10000 ≤ waited →
      act_incoming x (Accepts h (GotNothing waited)) = Some (set_handler x h (Handling peer false true Leaving)).
Proof.
  apply (run_incoming_ok [] _ _ _ incoming_default_ok) in Hrun as [Hh Hst He Ho]. simpl in *.
  unfold free_handlers, free_stream_permits, MAX_INCOMING_HANDLERS in *. split_and!; [lia|lia| |].
  - intros i y (? & ? & ? & ? & -> & _)%Ho. eauto.
  - intros h peer au cl at_ Hx. destruct (He h _ Hx) as [Hau Hidle]. split; [done|].
    intros idle waited -> -> Hw. specialize (Hidle idle eq_refl eq_refl). rewrite Hx. simpl. subst idle.
    destruct (Z.ltb_spec waited HANDSHAKE_TIMEOUT) as [Hlt|]; [unfold HANDSHAKE_TIMEOUT in Hlt; lia|].
    by rewrite orb_true_r.
Qed.
End incoming.

(** ** A connection that authenticates *)

Import Ref.
#[local] Existing Instances ex_allocator ex_codec_config ex_codec_manifest ex_codec_clock ex_codec_peers
  ex_codec_status ex_codec_request ex_codec_response ex_codec_message ex_codec_transfer ex_codec_ready
  ex_codec_final.

Definition ex_input : stream_input := {|
  si_env := ex_server_env; si_registry := ex_registry; si_tree := ex_tree_of [[]; [bs "d"]];
  si_partials := ∅; si_recv := ss_sent ex_after_client |}.
Definition ex_incoming_actions : list action :=
  [Arrives 0; Handshakes 0 (Some ex_client_id); Accepts 0 GotStream; Queues 0 (Permit 0 ex_input);
   Authenticates 0; StreamEnds 0].
(** The connection is authenticated and waits for the next stream. *)
Definition ex_waits (x : option incoming) : bool :=
  match x with
  | Some x =>
      match in_handlers x !! 0%nat with
      | Some (Handling _ true false (Accepting idle)) => (idle =? 90000) && no_streams x 0
      | _ => false
      end
  | None => false
  end.

Lemma incoming_is_bounded_witness :
  ∃ x, run_incoming incoming_default ex_incoming_actions = Some x ∧
    Z.of_nat (size (in_handlers x)) ≤ 32 ∧
    ∃ peer, proved ex_incoming_actions peer.
Proof.
  assert (Hw : ex_waits (run_incoming incoming_default ex_incoming_actions) = true) by (vm_compute; reflexivity).
  destruct (run_incoming incoming_default ex_incoming_actions) as [x|] eqn:Hrun; [|discriminate Hw].
  destruct (incoming_is_bounded ex_incoming_actions x Hrun) as (Hsize & _ & _ & Heach).
  exists x. split; [reflexivity|]. split; [exact Hsize|].
  unfold ex_waits in Hw. destruct (in_handlers x !! 0%nat) as [[|peer [] [] [idle| |]]|] eqn:Ex; try discriminate Hw.
  exists peer. exact (proj1 (Heach 0%nat peer true false (Accepting idle) Ex) eq_refl).
Defined.
