(* ===== verification/Connectivity.v ===== *)
(** * Connectivity changes (src/network/connectivity.rs)

    The monitor that retries the peers of all shares when the addresses of the device
    change or a relay connects.  Its waits are the events of a machine: an update of the
    addresses or of the connected relays, which fails when the endpoint goes away, and
    the timer of the next retry.  Instants are milliseconds. *)

From S2P Require Import Prelude Collections Bytes External Reference Framing Clock Types Peers ManifestPath Manifest Merge Storage Digest Scheduling State.

Definition RECOVERY_COOLDOWN : Z := 5000.

Section connectivity.
Context `{HexCodec, Iroh}.
Implicit Types s : ActiveShare.

(** The variables of the monitor, the registered shares and the permit of [sync_notify]. *)
Record monitor := {
  mo_running : bool;
  mo_pending : bool;
  mo_relays : gset bytes;
  mo_next_retry : Z;
  mo_shares : list ActiveShare;
  mo_woken : bool;
}.
Implicit Types m : monitor.

Definition start_monitor (relays : gset bytes) (now : Z) (shares : list ActiveShare) : monitor := {|
  mo_running := true; mo_pending := false; mo_relays := relays; mo_next_retry := now;
  mo_shares := shares; mo_woken := false |}.

(** What the [select!] finds; [None] is a failed update.  [RetryTimer now after]: the timer
    fires at [now], and the retries are done [after].  [ShareChanges] is what other tasks
    do to a share meanwhile. *)
Inductive monitor_event :=
| EndpointGone
| AddressesUpdated (updated : option unit)
| RelaysUpdated (updated : option (gset bytes))
| RetryTimer (now after : Z)
| ShareChanges (i : nat) (s : ActiveShare).

Definition stop_monitor m : monitor := {|
  mo_running := false; mo_pending := mo_pending m; mo_relays := mo_relays m;
  mo_next_retry := mo_next_retry m; mo_shares := mo_shares m; mo_woken := mo_woken m |}.

Definition monitor_step m (event : monitor_event) : option monitor :=
  if negb (mo_running m) then None
  else
    match event with
    | EndpointGone | AddressesUpdated None | RelaysUpdated None => Some (stop_monitor m)
    | AddressesUpdated (Some _) => Some {|
        mo_running := true; mo_pending := true; mo_relays := mo_relays m;
        mo_next_retry := mo_next_retry m; mo_shares := mo_shares m; mo_woken := mo_woken m |}
    | RelaysUpdated (Some updated) => Some {|
        mo_running := true; mo_pending := mo_pending m || negb (bool_decide (updated ⊆ mo_relays m));
        mo_relays := updated; mo_next_retry := mo_next_retry m; mo_shares := mo_shares m;
        mo_woken := mo_woken m |}
    | RetryTimer now after =>
        if negb (mo_pending m) || (now <? mo_next_retry m) || (after <? now) then None
        else Some {|
          mo_running := true; mo_pending := false; mo_relays := mo_relays m;
          mo_next_retry := after + RECOVERY_COOLDOWN; mo_shares := retry_peers <$> mo_shares m;
          mo_woken := true |}
    | ShareChanges i s => Some {|
        mo_running := true; mo_pending := mo_pending m; mo_relays := mo_relays m;
        mo_next_retry := mo_next_retry m; mo_shares := <[i := s]> (mo_shares m); mo_woken := mo_woken m |}
    end.

Fixpoint run_monitor m (events : list monitor_event) : option monitor :=
  match events with
  | [] => Some m
  | event :: events => m ← monitor_step m event; run_monitor m events
  end.

(** ** Specification *)

(** The instants of the retries. *)
Definition retries (events : list monitor_event) : list Z :=
  omap (λ event, match event with RetryTimer now _ => Some now | _ => None end) events.

(** Retries keep the cooldown. *)
Fixpoint spaced (from : Z) (times : list Z) : Prop :=
  match times with
  | [] => True
  | t :: times => from ≤ t ∧ spaced (t + RECOVERY_COOLDOWN) times
  end.

(** The device got new addresses, or a relay that was not connected. *)
Definition is_change m (event : monitor_event) : Prop :=
  match event with
  | AddressesUpdated (Some _) => True
  | RelaysUpdated (Some updated) => ∃ url, url ∈ updated ∧ url ∉ mo_relays m
  | _ => False
  end.

(** An attempt that started under the network generation [g] ends. *)
Definition attempt : Type := EndpointId * Z * option SyncOutcome * Z * Z.
Definition record_old (g : Z) s (a : attempt) : ActiveShare :=
  let '(peer, generation, outcome, now, jitter) := a in
  record_peer_attempt s peer generation g outcome now jitter.

(** ** Lemmas *)

Lemma spaced_mono from from' times : from' ≤ from → spaced from times → spaced from' times.
Proof. destruct times; simpl; [done|]. intros ? [? ?]. split; [lia|done]. Qed.

Lemma monitor_step_spaced m event m' events :
  monitor_step m event = Some m' → spaced (mo_next_retry m') (retries events) →
  spaced (mo_next_retry m) (retries (event :: events)).
Proof.
  unfold monitor_step. destruct (negb (mo_running m)); [done|].
  destruct event as [|[]|[]|now after|i s]; simpl; try (by intros [= <-]).
  destruct (_ || _) eqn:Eg; [done|]. bool_inv. intros [= <-]. simpl. intros Hs. split; [lia|].
  eapply spaced_mono; [|done]. lia.
Qed.

Lemma run_monitor_spaced m events m' :
  run_monitor m events = Some m' → spaced (mo_next_retry m) (retries events).
Proof.
  revert m. induction events as [|event events IH]; intros m; simpl; [done|].
  intros (m1 & Hs & Hr)%bind_Some. by eapply monitor_step_spaced; [|apply IH].
Qed.

Lemma run_monitor_app m pre post m' :
  run_monitor m (pre ++ post) = Some m' ↔ ∃ m1, run_monitor m pre = Some m1 ∧ run_monitor m1 post = Some m'.
Proof.
  revert m. induction pre as [|event pre IH]; intros m; simpl; [naive_solver|].
  destruct (monitor_step m event) as [m1|]; simpl; [apply IH|naive_solver].
Qed.

(** A change is pending until a retry. *)
Lemma monitor_step_change m event m' : monitor_step m event = Some m' → is_change m event → mo_pending m' = true.
Proof.
  unfold monitor_step. destruct (negb (mo_running m)); [done|].
  destruct event as [|[]|[updated|]|now after|i s]; simpl; try done; intros [= <-]; simpl; [done|].
  intros (url & Hin & Hnot). apply orb_true_iff. right. rewrite bool_decide_false; [done|]. set_solver.
Qed.
Lemma monitor_step_pending m event m' :
  monitor_step m event = Some m' → mo_pending m = true → retries [event] = [] → mo_pending m' = true.
Proof.
  unfold monitor_step. destruct (negb (mo_running m)); [done|].
  destruct event as [|[]|[updated|]|now after|i s]; simpl; try done; intros [= <-]; simpl; try done.
  by intros ->.
Qed.
Lemma run_monitor_pending m events m' :
  run_monitor m events = Some m' → mo_pending m = true → retries events = [] → mo_pending m' = true.
Proof.
  revert m. induction events as [|event events IH]; intros m; simpl; [by intros [= <-]|].
  intros (m1 & Hs & Hr)%bind_Some Hp He.
  apply (IH m1); [done| |by destruct event]. eapply monitor_step_pending; [done..|by destruct event].
Qed.

(** No peer has to wait. *)
Definition all_due s : Prop := ∀ peer now generation, peer_due (as_peer_schedule s) now generation peer = true.

Lemma all_due_retry s : all_due (retry_peers s).
Proof.
  intros peer now generation. unfold peer_due. simpl. rewrite lookup_fmap.
  destruct (as_peer_schedule s !! peer); [|done]. apply orb_true_r.
Qed.
Lemma fetch_add_ne z : fetch_add z ≠ z.
Proof. unfold fetch_add. pose proof (Z.div_mod (z + 1) (2 ^ 64)). lia. Qed.

Lemma all_due_old g s a :
  all_due s → as_network_generation s ≠ g →
  all_due (record_old g s a) ∧ as_network_generation (record_old g s a) = as_network_generation s.
Proof.
  intros Hd Hg. destruct a as [[[[peer generation] outcome] now] jitter]. simpl. split; [|done].
  unfold record_peer_attempt. rewrite (proj2 (Z.eqb_neq _ _)) by done.
  intros q t k. unfold peer_due. simpl. destruct (decide (peer = q)) as [<-|Hq].
  - rewrite lookup_insert_eq. apply orb_true_r.
  - rewrite lookup_insert_ne by done. apply Hd.
Qed.

Lemma all_due_attempts g s attempts :
  all_due s → as_network_generation s ≠ g → all_due (foldl (record_old g) s attempts).
Proof.
  revert s. induction attempts as [|a attempts IH]; intros s Hd Hg; simpl; [done|].
  destruct (all_due_old g s a Hd Hg) as [Hd' Hg']. apply IH; [done|congruence].
Qed.

(** ** Properties *)

(** C17: a change of the network is acted upon once, soon, and for good.  Retries are at
    least five seconds apart.  After new addresses or a new relay a retry is pending
    until it is done, and possible as soon as the cooldown is over.  After it every peer
    of every share is due, and stays due whatever attempts that started before the
    change report afterwards. *)
Theorem network_changes_are_retried (relays : gset bytes) (start : Z) (shares : list ActiveShare)
    (events : list monitor_event) m (Hrun : run_monitor (start_monitor relays start shares) events = Some m) :
  spaced start (retries events) ∧
  (∀ pre event post m1, events = pre ++ event :: post →
     run_monitor (start_monitor relays start shares) pre = Some m1 → is_change m1 event →
     retries post = [] → mo_pending m = true) ∧
  (∀ now after, mo_running m = true → mo_pending m = true → mo_next_retry m ≤ now ≤ after →
     ∃ m', monitor_step m (RetryTimer now after) = Some m' ∧ mo_woken m' = true ∧
       ∀ i s, mo_shares m !! i = Some s → ∃ s', mo_shares m' !! i = Some s' ∧
         ∀ attempts, all_due (foldl (record_old (as_network_generation s)) s' attempts)).
Proof.
  split_and!.
  - by apply run_monitor_spaced in Hrun.
  - intros pre event post m1 -> Hpre Hc Hpost. apply run_monitor_app in Hrun as (m2 & Hpre' & Hrest).
    assert (m2 = m1) as -> by congruence. simpl in Hrest. apply bind_Some in Hrest as (m3 & Hs & Hr).
    eapply run_monitor_pending; [done| |done]. by eapply monitor_step_change.
  - intros now after Hr Hp Ht. unfold monitor_step. rewrite Hr, Hp. simpl.
    rewrite (proj2 (Z.ltb_ge now _)), (proj2 (Z.ltb_ge after _)) by lia. simpl.
    eexists. split; [done|]. split; [done|]. simpl. intros i s Hs. rewrite list_lookup_fmap, Hs. simpl.
    eexists. split; [done|]. intros attempts.
    apply all_due_attempts; [apply all_due_retry|]. simpl. apply fetch_add_ne.
Qed.
End connectivity.

(** ** A change *)

Import Ref.

Definition ex_monitored : ActiveShare := ex_active.
Definition ex_events : list monitor_event :=
  [RelaysUpdated (Some {[bs "relay"]}); RetryTimer 10 11; AddressesUpdated (Some tt)].

Definition ex_monitor (events : list monitor_event) : option monitor :=
  run_monitor (start_monitor ∅ 0 [ex_monitored]) events.
Definition ex_next_retry (o : option monitor) : option Z := mo_next_retry <$> o.

Lemma network_changes_are_retried_witness :
  ∃ m, ex_monitor ex_events = Some m ∧ mo_pending m = true ∧ mo_next_retry m = 5011 ∧
    spaced 0 (retries ex_events).
Proof.
  assert (Hn : ex_next_retry (ex_monitor ex_events) = Some 5011) by (vm_compute; reflexivity).
  assert (Hn' : ex_next_retry (ex_monitor (take 2 ex_events)) = Some 5011) by (vm_compute; reflexivity).
  destruct (ex_monitor ex_events) as [m|] eqn:Hrun; [|discriminate Hn].
  destruct (ex_monitor (take 2 ex_events)) as [m1|] eqn:Hpre; [|discriminate Hn'].
  exists m. split; [reflexivity|].
  pose proof (network_changes_are_retried ∅ 0 [ex_monitored] ex_events m Hrun) as (Hs & Hc & _).
  split; [|split; [injection Hn as E; exact E|exact Hs]].
  exact (Hc (take 2 ex_events) (AddressesUpdated (Some tt)) [] m1 eq_refl Hpre I eq_refl).
Defined.
