(* ===== verification/Running.v ===== *)
(** * Running the shares (src/network/mod.rs, src/network/lifecycle.rs)

    [network::run] from the load of the registry to the last status.  The running shares
    have one disk in common: an operation on a share works on the files as the operations
    of all shares left them.  What the tasks of a run do is the sequence of their
    operations on the shares, in the order they happen; [registry.values()] visits the
    shares in the order of the map, which never changes. *)

From S2P Require Import Prelude Collections Bytes External Reference Framing Clock Types Peers Ticket ManifestPath Manifest Merge Storage DataDir Shares Directory Digest Auth Scheduling State Wire LocalFs Partial Streaming Planning Apply Scan ShareScan App Registration Session PeerSessions Registry Watching Workers.

Section running.
Context `{HexCodec, Iroh, Blake3}
  `{!JsonState ShareConfig} `{!JsonState Manifest} `{!JsonState ClockState}
  `{!JsonState KnownPeers} `{!JsonState RuntimeStatus}.
Implicit Types (s : ActiveShare) (root share_id : bytes).

(** ** The running shares *)

Record process := {
  pc_files : files;
  pc_shares : gmap bytes ActiveShare;
}.
Implicit Types p : process.

(** An operation on one share. *)
Definition on_running {A} (f : ActiveShare → A * ActiveShare) p share_id : option A * process :=
  match pc_shares p !! share_id with
  | None => (None, p)
  | Some s =>
      let '(r, s) := f (with_files s (pc_files p)) in
      (Some r, {| pc_files := as_files s; pc_shares := <[share_id := s]> (pc_shares p) |})
  end.

(** [for share in registry.values() { f(&share)?; }]. *)
Fixpoint try_shares (f : bytes → ActiveShare → result unit * ActiveShare) (order : list bytes) p
    : result unit * process :=
  match order with
  | [] => (Ok tt, p)
  | share_id :: rest =>
      match on_running (f share_id) p share_id with
      | (Some (Err e), p) => (Err e, p)
      | (_, p) => try_shares f rest p
      end
  end.

(** [for share in registry.values() { let _ = f(&share); }], with what [f] answered. *)
Fixpoint each_share (f : bytes → ActiveShare → result unit * ActiveShare) (order : list bytes) p
    : list (bytes * option (result unit)) * process :=
  match order with
  | [] => ([], p)
  | share_id :: rest =>
      let '(r, p) := on_running (f share_id) p share_id in
      let '(rs, p) := each_share f rest p in
      ((share_id, r) :: rs, p)
  end.

(** ** The tasks *)

(** What the tasks do to a share: the operations of [state.rs], saving the clock, saving
    the completed configuration, and dropping schedules of peers that are gone. *)
Inductive task_op :=
| TaskShare (op : share_op)
| TaskClock (c : ClockState) (env : write_env)
| TaskComplete (env : write_env)
| TaskSchedules (schedules : gmap EndpointId PeerSchedule).

Definition run_task s (op : task_op) : ActiveShare :=
  match op with
  | TaskShare op => run_op s op
  | TaskClock c env => with_files s (save_clock (as_files s) (as_root s) (as_share_id s) c env).2
  | TaskComplete env =>
      with_files s (save_config (as_files s) (as_root s) (complete_config (as_config s)) env).2
  | TaskSchedules schedules => with_schedule s (as_network_generation s) schedules
  end.

Definition run_tasks p (tasks : list (bytes * task_op)) : process :=
  foldl (λ p '(share_id, op), (on_running (λ s, (tt, run_task s op)) p share_id).2) p tasks.

(** A tick of the heartbeat: tasks like the others. *)
Definition heartbeat_task (env : bytes → update_env) share_id : bytes * task_op :=
  (share_id, TaskShare (OpStatus (ue_now_ms (env share_id)) (ue_pid (env share_id)) true (λ r _, r)
                          (ue_write (env share_id)))).
Definition refresh_share (env : bytes → update_env) share_id s : result unit * ActiveShare :=
  refresh_heartbeat s (ue_now_ms (env share_id)) (ue_pid (env share_id)) (ue_write (env share_id)).
Definition heartbeat_tick (env : bytes → update_env) (order : list bytes) p : process :=
  (each_share (refresh_share env) order p).2.

Lemma heartbeat_tick_tasks env order p : heartbeat_tick env order p = run_tasks p (map (heartbeat_task env) order).
Proof.
  unfold heartbeat_tick. revert p. induction order as [|share_id order IH]; intros p; [done|].
  assert (E : (on_running (refresh_share env share_id) p share_id).2 =
    (on_running (λ s, (tt, run_task s (heartbeat_task env share_id).2)) p share_id).2).
  { unfold on_running. destruct (pc_shares p !! share_id) as [s|]; [|done]. simpl.
    unfold refresh_share, refresh_heartbeat. by destruct (update_status _ _ _ _ _ _). }
  transitivity (run_tasks (on_running (refresh_share env share_id) p share_id).2 (map (heartbeat_task env) order));
    [|by rewrite E].
  rewrite <-IH. simpl. destruct (on_running _ p share_id) as [r p1]. simpl. by destruct (each_share _ order p1).
Qed.

(** ** The cycles *)

(** [run_sync_cycle_until_shutdown]: [shutdown] is the result of the signal if it came
    before the end of the cycle. *)
Definition run_sync_cycle_until_shutdown (shutdown : option (result unit)) : result bool :=
  match shutdown with
  | Some r => r;; Ok false
  | None => Ok true
  end.

(** The environment of a run: the order of the registry, the status updates, the bound
    endpoint, the operations of the tasks, and what ends the run: the shutdown of a
    cycle, or what the supervisor of the workers sees. *)
Record network_env := {
  nw_order : list bytes;
  nw_start : bytes → update_env;
  nw_bind : result unit;
  nw_error : bytes → update_env;
  nw_tasks : list (bytes * task_op);
  nw_shutdown : option (result unit);
  nw_events : list supervisor_event;
  nw_outcomes : list (option (result unit));
  nw_stop : bytes → update_env;
}.

Definition run_cycles (env : network_env) (once : bool) : option (result unit) :=
  if once then Some (run_sync_cycle_until_shutdown (nw_shutdown env) ≫= (λ _, Ok tt))
  else run_share_workers (nw_events env) (nw_outcomes env).

(** ** A run *)

Definition start_share (env : bytes → update_env) share_id s : result unit * ActiveShare :=
  set_runtime_state s (ue_now_ms (env share_id)) (ue_pid (env share_id)) Starting Unknown None
    (ue_write (env share_id)).
Definition endpoint_error : bytes := bs "unable to start Iroh endpoint".
Definition fail_share (env : bytes → update_env) share_id s : result unit * ActiveShare :=
  set_runtime_error s (ue_now_ms (env share_id)) (ue_pid (env share_id)) endpoint_error
    (ue_write (env share_id)).
Definition stop_share (env : bytes → update_env) share_id s : result unit * ActiveShare :=
  set_stopped s (ue_now_ms (env share_id)) (ue_pid (env share_id)) (ue_write (env share_id)).

(** How a run ends: without shares; when a share or the endpoint does not start, with what
    recording the error answered; or with the result of the cycles and what stopping the
    shares answered. *)
Inductive run_end :=
| NothingToRun
| NotLoaded (e : string)
| NotStarted (e : string)
| NotBound (e : string) (recorded : list (bytes * option (result unit)))
| Ran (r : result unit) (stopped : list (bytes * option (result unit))).

Definition run_result (ended : run_end) : result unit :=
  match ended with
  | NothingToRun => Ok tt
  | NotLoaded e | NotStarted e => Err e
  | NotBound _ _ => Err "unable to start the global Iroh endpoint"
  | Ran r _ => r
  end.

(** [run]; [None] while the cycles go on. *)
Definition run (env : network_env) root (endpoint_id : EndpointId) (share_ids : list bytes) (once : bool)
    (fs : files) : option (run_end * process) :=
  match load_registry fs root endpoint_id share_ids with
  | Err e => Some (NotLoaded e, {| pc_files := fs; pc_shares := ∅ |})
  | Ok shares =>
      let p := {| pc_files := fs; pc_shares := shares |} in
      if bool_decide (shares = ∅) then Some (NothingToRun, p)
      else
        match try_shares (start_share (nw_start env)) (nw_order env) p with
        | (Err e, p) => Some (NotStarted e, p)
        | (Ok _, p) =>
            match nw_bind env with
            | Err e =>
                let '(recorded, p) := each_share (fail_share (nw_error env)) (nw_order env) p in
                Some (NotBound e recorded, p)
            | Ok _ =>
                r ← run_cycles env once;
                let '(stopped, p) := each_share (stop_share (nw_stop env)) (nw_order env)
                                       (run_tasks p (nw_tasks env)) in
                Some (Ran r stopped, p)
            end
        end
  end.

(** ** The status on disk *)

Definition status_file s : option bytes := as_files s !! share_runtime_status (as_root s) (as_share_id s).

(** The cached status is the one on disk, if there is one. *)
Definition status_ok s : Prop :=
  ∀ st data, as_runtime_status s = Some st → status_file s = Some data → from_slice data = Some st.

Lemma load_runtime_status_file fs root share_id status data :
  load_runtime_status fs root share_id = Ok status → fs !! share_runtime_status root share_id = Some data →
  ∃ st, status = Some st ∧ from_slice data = Some st.
Proof.
  unfold load_runtime_status. intros Hl Hd. rewrite Hd in Hl. unfold read_state, read_bounded in Hl. rewrite Hd in Hl.
  simpl in Hl. destruct (_ <? _); simpl in Hl; [done|]. destruct (from_slice data) as [st|]; simpl in Hl; [|done].
  destruct (RuntimeStatus_validate st); [|done]. injection Hl as <-. eauto.
Qed.

Lemma update_status_ok s now pid hb f env : cuts env → status_ok s → status_ok (update_status s now pid hb f env).2.
Proof.
  intros Hcut Hs. unfold update_status.
  destruct (match as_runtime_status s with Some _ => _ | None => _ end) as [previous|e] eqn:Ep; [|done].
  assert (Hp : ∀ data, status_file s = Some data → from_slice data = Some previous).
  { intros data Hd. destruct (as_runtime_status s) as [st|] eqn:Ec.
    - injection Ep as <-. by apply (Hs st data).
    - apply bind_Ok in Ep as (loaded & Hl & [= <-]).
      destruct (load_runtime_status_file _ _ _ _ _ Hl Hd) as (st & -> & Hst). done. }
  destruct (negb hb && _); [intros st data [= <-]; apply Hp|].
  destruct (save_runtime_status _ _ _ _ _) as [[[]|e] fs] eqn:Esave; [|done].
  intros st data [= <-] Hd. unfold save_runtime_status in Esave.
  destruct (RuntimeStatus_validate _); [|done].
  apply atomic_write_json_Ok in Esave as (b & Hb & Hf & _); [|done|done].
  unfold status_file in Hd. simpl in Hd. unfold share_runtime_status, share_path in Hd. rewrite Hf in Hd.
  injection Hd as <-. by rewrite from_slice_newline, (from_slice_to_vec _ b Hb).
Qed.

(** The state, the process and the error of a status. *)
Definition shown (r : RuntimeStatus) : RuntimeState * Z * option bytes :=
  (rs_state r, rs_process_id r, rs_last_error r).

Lemma update_shows (P : RuntimeState * Z * option bytes → Prop) s now pid f env s' :
  (∀ r t, P (shown (f r t))) → update_runtime s now pid f env = (Ok tt, s') →
  ∃ st, as_runtime_status s' = Some st ∧ P (shown st).
Proof.
  intros Hf. unfold update_runtime, update_status.
  destruct (match as_runtime_status s with Some _ => _ | None => _ end) as [previous|]; [|done].
  destruct (negb false && _) eqn:Eb.
  - intros [= <-]. eexists. split; [done|]. simpl in Eb. apply bool_decide_eq_true in Eb. rewrite <-Eb. apply Hf.
  - destruct (save_runtime_status _ _ _ _ _) as [[[]|e] fs]; [|done]. intros [= <-].
    eexists. split; [done|]. unfold shown. simpl. apply Hf.
Qed.

(** The status of a share on disk, if there is one, satisfies [P]. *)
Definition on_disk (P : RuntimeStatus → Prop) (fs : files) root share_id : Prop :=
  ∀ st, fs !! share_runtime_status root share_id ≫= from_slice = Some st → P st.

Lemma update_on_disk P s now pid f env s' :
  cuts env → status_ok s → (∀ r t, P (shown (f r t))) → update_runtime s now pid f env = (Ok tt, s') →
  on_disk (P ∘ shown) (as_files s') (as_root s') (as_share_id s').
Proof.
  intros Hcut Hs Hf Hu. destruct (update_shows P _ _ _ _ _ _ Hf Hu) as (st & Hst & Hp).
  pose proof (update_status_ok s now pid false f env Hcut Hs) as Hok. unfold update_runtime in Hu. rewrite Hu in Hok.
  intros st' Hd. apply bind_Some in Hd as (data & Hd & Hslice).
  specialize (Hok st data Hst Hd). simpl in Hok. by replace st' with st by congruence.
Qed.

(** ** Shares do not disturb each other *)

Record running root share_id s : Prop := {
  ru_root : as_root s = root;
  ru_id : as_share_id s = share_id;
  ru_array : is_array 32 share_id;
  ru_config : cfg_share_id (as_config s) = share_id;
  ru_status : status_ok s;
}.

(** An operation that keeps a share running and to its own files. *)
Definition local_op root share_id (f : ActiveShare → ActiveShare) : Prop :=
  ∀ s, running root share_id s →
    running root share_id (f s) ∧ only_below (share_dir root share_id) (as_files s) (as_files (f s)).

Definition process_ok root p : Prop :=
  map_Forall (λ share_id s, running root share_id (with_files s (pc_files p))) (pc_shares p).

Lemma status_inside root share_id :
  is_array 32 share_id → inside (share_dir root share_id) (share_runtime_status root share_id) = true.
Proof. intros Hid. unfold share_runtime_status. rewrite share_path_eq by done. apply inside_child. Qed.

Lemma status_apart root share_id (other : bytes) (fs fs' : files) :
  is_array 32 share_id → is_array 32 other → other ≠ share_id →
  only_below (share_dir root share_id) fs fs' →
  fs' !! share_runtime_status root other = fs !! share_runtime_status root other.
Proof.
  intros Hid Ho Hne Hf. apply Hf. apply (shares_apart root share_id other); auto using status_inside.
Qed.

Lemma running_files root share_id s fs :
  running root share_id s → fs !! share_runtime_status root share_id = as_files s !! share_runtime_status root share_id →
  running root share_id (with_files s fs).
Proof.
  intros [Hr Hi Ha Hc Hs] Hf. split; [done..|]. intros st data Hst Hd. apply (Hs st data Hst).
  unfold status_file in *. simpl in Hd. rewrite Hr, Hi in *. congruence.
Qed.

Lemma on_running_ok {A} (f : ActiveShare → A * ActiveShare) root p share_id :
  local_op root share_id (λ s, (f s).2) → process_ok root p →
  let p' := (on_running f p share_id).2 in
  process_ok root p' ∧ dom (pc_shares p') = dom (pc_shares p) ∧
  (pc_shares p' = pc_shares p ∧ pc_files p' = pc_files p ∨
   only_below (share_dir root share_id) (pc_files p) (pc_files p')).
Proof.
  intros Hf Hp. unfold on_running. destruct (pc_shares p !! share_id) as [s|] eqn:Es; [|by auto].
  pose proof (Hp share_id s Es) as Hs. destruct (Hf _ Hs) as [Hr Hb].
  destruct (f (with_files s (pc_files p))) as [r s'] eqn:Ef. simpl in *. split_and!; [| |by right].
  - intros other o. simpl. destruct (decide (other = share_id)) as [->|Hne].
    + rewrite lookup_insert_eq. intros [= <-]. by destruct Hr; split.
    + rewrite lookup_insert_ne by done. intros Ho. pose proof (Hp other o Ho) as Hor. simpl in Hor.
      apply (running_files root other (with_files o (pc_files p)) (as_files s') Hor). simpl.
      apply (status_apart root share_id); [apply (ru_array _ _ _ Hs)|apply (ru_array _ _ _ Hor)|done|done].
  - rewrite dom_insert_L. apply elem_of_dom_2 in Es. set_solver.
Qed.

Lemma share_write {T} `{!JsonState T} root share_id (fs : files) name (v : T) env :
  is_array 32 share_id → is_absolute name = false →
  only_below (share_dir root share_id) fs (atomic_write_json fs (share_dir root share_id) name v env).2.
Proof.
  intros Hid Hn q Hq. apply inside_false in Hq as [_ Hq].
  pose proof (share_path_eq root share_id) as He. unfold share_path in He.
  apply atomic_write_json_others; [done|rewrite He by done; apply Hq|].
  unfold temporary_path. rewrite He by done. apply Hq.
Qed.

Lemma update_local root share_id now pid hb f env :
  cuts env → local_op root share_id (λ s, (update_status s now pid hb f env).2).
Proof.
  intros Hcut s [Hr Hi Ha Hc Hs].
  pose proof (status_undisturbed s now pid hb f env) as (Er & Ei & Ec & _).
  split; [split; [congruence..| |]|].
  - by rewrite Ec.
  - by apply update_status_ok.
  - unfold update_status. destruct (match as_runtime_status s with Some _ => _ | None => _ end) as [previous|]; [|apply only_below_refl].
    destruct (negb hb && _); [apply only_below_refl|].
    match goal with |- context [save_runtime_status ?fs ?r ?i ?v env] =>
      assert (Hw : only_below (share_dir root share_id) fs (save_runtime_status fs r i v env).2) end.
    { unfold save_runtime_status. rewrite Hr, Hi. destruct (RuntimeStatus_validate _); [by apply share_write|apply only_below_refl]. }
    destruct (save_runtime_status _ _ _ _ _) as [[u|e] fs]; exact Hw.
Qed.

(** A share changed in memory, or by a write of another state file than its status. *)
Definition beside s s' : Prop :=
  as_root s' = as_root s ∧ as_share_id s' = as_share_id s ∧
  cfg_share_id (as_config s') = cfg_share_id (as_config s) ∧ as_runtime_status s' = as_runtime_status s ∧
  (as_files s' = as_files s ∨
   ∃ T (_ : JsonState T) name (v : T) env, is_absolute name = false ∧ name ≠ bs "runtime-status.json" ∧
     as_files s' = (atomic_write_json (as_files s) (share_dir (as_root s) (as_share_id s)) name v env).2).

Lemma beside_status s s' : beside s s' → status_file s' = status_file s.
Proof.
  intros (Er & Ei & _ & _ & [Ef|(T & J & name & v & env & Hn & Hne & Ef)]); unfold status_file; rewrite Er, Ei, Ef; [done|].
  apply atomic_write_json_frame; try done; by intros <-.
Qed.
Lemma beside_local root share_id s s' :
  beside s s' → running root share_id s →
  running root share_id s' ∧ only_below (share_dir root share_id) (as_files s) (as_files s').
Proof.
  intros Hb [Hr Hi Ha Hc Hs]. pose proof (beside_status s s' Hb) as Hsame.
  destruct Hb as (Er & Ei & Ec & Es & Ef). split; [split; [congruence..|]|].
  - intros st data Hst Hd. rewrite Es in Hst. rewrite Hsame in Hd. by apply (Hs st data).
  - destruct Ef as [->|(T & J & name & v & env & Hn & _ & ->)]; [apply only_below_refl|].
    rewrite Hr, Hi. by apply share_write.
Qed.
Lemma beside_same s s' :
  as_root s' = as_root s → as_share_id s' = as_share_id s →
  cfg_share_id (as_config s') = cfg_share_id (as_config s) → as_runtime_status s' = as_runtime_status s →
  as_files s' = as_files s → beside s s'.
Proof. intros. split_and!; auto. Qed.
Lemma beside_write {T} `{J : !JsonState T} s s' name (v : T) env :
  is_absolute name = false → name ≠ bs "runtime-status.json" →
  as_root s' = as_root s → as_share_id s' = as_share_id s →
  cfg_share_id (as_config s') = cfg_share_id (as_config s) → as_runtime_status s' = as_runtime_status s →
  as_files s' = as_files s ∨
    as_files s' = (atomic_write_json (as_files s) (share_dir (as_root s) (as_share_id s)) name v env).2 →
  beside s s'.
Proof.
  intros ? ? ? ? ? ? Hf. split_and!; [done..|]. destruct Hf as [Hf|Hf]; [by left|right].
  by exists T, J, name, v, env.
Qed.

(** The operations of the tasks on a share. *)
Definition task_env_of (op : task_op) : option write_env :=
  match op with
  | TaskShare op => op_env op
  | TaskClock _ env | TaskComplete env => Some env
  | TaskSchedules _ => None
  end.
Definition task_ok share_id (op : task_op) : Prop :=
  (∀ env, task_env_of op = Some env → cuts env) ∧
  ∀ c, op = TaskShare (OpConfig c) → cfg_share_id c = share_id.

Definition is_status (op : task_op) : bool :=
  match op with TaskShare (OpStatus _ _ _ _ _) => true | _ => false end.

Lemma run_task_beside root share_id s op :
  is_status op = false → task_ok share_id op → running root share_id s → beside s (run_task s op).
Proof.
  intros Hst [_ Hconf] Hs. destruct op as [[| m env|c| |peer g n o now j|ps a now env|now pid hb f env]|c env|env|schedules];
    cbn [run_task run_op]; try discriminate Hst.
  - unfold manifest_snapshot. destruct (as_manifest_cache s); [by apply beside_same|].
    by destruct (load_manifest _ _ _); apply beside_same.
  - unfold save_manifest, store_manifest. case_bool_decide as Em; simpl; [|by apply beside_same].
    destruct (Manifest_validate m (mf_share_id m)); simpl; [|by apply beside_same].
    apply (beside_write s _ (bs "manifest.json") m env); try done; rewrite ?Em;
      destruct (atomic_write_json _ _ _ _ _) as [[u|] fs]; simpl; try done; by right.
  - apply beside_same; try done. simpl. rewrite (Hconf c eq_refl). symmetry. exact (ru_config _ _ _ Hs).
  - by apply beside_same.
  - by apply beside_same.
  - unfold merge_remote_peers. destruct (mbind _ _) as [[known ids]|]; [|by apply beside_same].
    unfold save_known_peers. destruct (KnownPeers_validate _); [|by apply beside_same].
    match goal with |- context [atomic_write_json ?fs ?d ?n ?v env] =>
      pose proof (beside_write s (with_files s (atomic_write_json fs d n v env).2) n v env) as Hw;
      destruct (atomic_write_json fs d n v env) as [r fs'] end.
    apply Hw; try done. by right.
  - apply (beside_write s _ (bs "clock.json") c env); try done. simpl. unfold save_clock.
    destruct (ClockState_validate c); [by right|by left].
  - apply (beside_write s _ (bs "config.json") (complete_config (as_config s)) env); try done. simpl.
    unfold save_config. destruct (ShareConfig_validate _ _); [|by left]. right. simpl.
    by rewrite (ru_config _ _ _ Hs), (ru_id _ _ _ Hs).
  - by apply beside_same.
Qed.

Lemma run_task_local root share_id op : task_ok share_id op → local_op root share_id (λ s, run_task s op).
Proof.
  intros Hok s Hs. destruct (is_status op) eqn:Est.
  - destruct op as [[| | | | | |now pid hb f env]| | |]; try discriminate Est.
    apply (update_local root share_id now pid hb f env (proj1 Hok env eq_refl) s Hs).
  - by eapply beside_local; [eapply run_task_beside|].
Qed.

Lemma run_tasks_ok root p tasks :
  Forall (λ '(share_id, op), task_ok share_id op) tasks → process_ok root p →
  process_ok root (run_tasks p tasks) ∧ dom (pc_shares (run_tasks p tasks)) = dom (pc_shares p).
Proof.
  revert p. induction tasks as [|[share_id op] tasks IH]; intros p Hf Hp; simpl; [done|].
  apply Forall_cons in Hf as [Hop Hf].
  destruct (on_running_ok (λ s, (tt, run_task s op)) root p share_id) as (Hp' & Hd & _); [by apply run_task_local|done|].
  destruct (IH _ Hf Hp') as [Hp'' Hd']. split; [done|]. unfold run_tasks in *. congruence.
Qed.

Lemma running_on_disk P root share_id s now pid f env s' :
  running root share_id s → cuts env → (∀ r t, P (shown (f r t))) →
  update_runtime s now pid f env = (Ok tt, s') → on_disk (P ∘ shown) (as_files s') root share_id.
Proof.
  intros [Hr Hi _ _ Hs] Hcut Hf Hu. pose proof (status_undisturbed s now pid false f env) as (Er & Ei & _).
  pose proof Hu as Hu'. unfold update_runtime in Hu'. rewrite Hu' in Er, Ei. simpl in Er, Ei.
  rewrite <-Hr, <-Hi, <-Er, <-Ei. by eapply update_on_disk.
Qed.

(** ** The loops over the shares *)

Definition local_ops root (f : bytes → ActiveShare → result unit * ActiveShare) : Prop :=
  ∀ share_id, local_op root share_id (λ s, (f share_id s).2).

Lemma try_shares_ok root f order p :
  local_ops root f → process_ok root p →
  process_ok root (try_shares f order p).2 ∧ dom (pc_shares (try_shares f order p).2) = dom (pc_shares p).
Proof.
  intros Hf. revert p. induction order as [|share_id order IH]; intros p Hp; simpl; [done|].
  destruct (on_running_ok (f share_id) root p share_id (Hf share_id) Hp) as (Hp1 & Hd1 & _).
  destruct (on_running (f share_id) p share_id) as [[[u|e]|] p1]; simpl in *; [|done|];
    (destruct (IH p1 Hp1) as [Hp2 Hd2]; split; [done|congruence]).
Qed.

(** Whether it succeeds or not, an update leaves the status on disk or writes it. *)
Lemma update_kept_or P root share_id s now pid f env :
  running root share_id s → cuts env → (∀ r t, P (shown (f r t))) →
  let fs := as_files (update_runtime s now pid f env).2 in
  fs !! share_runtime_status root share_id = as_files s !! share_runtime_status root share_id ∨
  on_disk (P ∘ shown) fs root share_id.
Proof.
  intros [Hr Hi _ _ _] Hcut Hf. unfold update_runtime, update_status.
  destruct (match as_runtime_status s with Some _ => _ | None => _ end) as [previous|]; [|by left].
  destruct (negb false && _); [by left|]. unfold save_runtime_status. rewrite Hr, Hi.
  destruct (RuntimeStatus_validate _); [|by left].
  match goal with |- context [atomic_write_json ?fs ?d ?n ?v env] =>
    pose proof (atomic_write_json_outcome fs d n v env eq_refl Hcut) as Hout;
    destruct (atomic_write_json fs d n v env) as [r fs'] end. simpl in Hout.
  assert (Hgo : fs' !! share_runtime_status root share_id = as_files s !! share_runtime_status root share_id ∨
    on_disk (P ∘ shown) fs' root share_id); [|by destruct r].
  destruct Hout as [Hout|(b & Hb & Hout)]; [by left|right]. intros st. unfold share_runtime_status, share_path.
  rewrite Hout. simpl. rewrite from_slice_newline, (from_slice_to_vec _ b Hb). intros [= <-]. apply Hf.
Qed.

Lemma try_shares_kept_or P root f order p share_id :
  local_ops root f → process_ok root p → is_array 32 share_id →
  (∀ s, running root share_id s → let fs := as_files (f share_id s).2 in
     fs !! share_runtime_status root share_id = as_files s !! share_runtime_status root share_id ∨
     on_disk P fs root share_id) →
  let fs := pc_files (try_shares f order p).2 in
  fs !! share_runtime_status root share_id = pc_files p !! share_runtime_status root share_id ∨
  on_disk P fs root share_id.
Proof.
  intros Hf Hp Hid Hone. revert p Hp. induction order as [|x order IH]; intros p Hp; simpl; [by left|].
  destruct (on_running_ok (f x) root p x (Hf x) Hp) as (Hp1 & _ & Hb).
  assert (Hstep : let fs := pc_files (on_running (f x) p x).2 in
    fs !! share_runtime_status root share_id = pc_files p !! share_runtime_status root share_id ∨
    on_disk P fs root share_id).
  { unfold on_running in *. destruct (pc_shares p !! x) as [s|] eqn:Es; [|by left].
    pose proof (Hp x s Es) as Hs. destruct (decide (x = share_id)) as [->|Hne].
    - specialize (Hone _ Hs). by destruct (f share_id (with_files s (pc_files p))).
    - left. destruct Hb as [[_ ->]|Hb]; [done|].
      apply (status_apart root x); [exact (ru_array _ _ _ Hs)|done|done|done]. }
  destruct (on_running (f x) p x) as [[[u|e]|] p1]; simpl in *; [|done|];
    (destruct (IH p1 Hp1) as [E|?]; [|by right]; destruct Hstep as [E'|Hd]; [left; congruence|right];
     intros st; unfold on_disk in Hd; rewrite E; apply Hd).
Qed.

(** What a loop leaves alone. *)
Lemma each_share_frame root f order p :
  local_ops root f → process_ok root p →
  let p' := (each_share f order p).2 in
  process_ok root p' ∧ dom (pc_shares p') = dom (pc_shares p) ∧
  ∀ other, is_array 32 other → other ∉ order →
    pc_files p' !! share_runtime_status root other = pc_files p !! share_runtime_status root other.
Proof.
  intros Hf. revert p. induction order as [|share_id order IH]; intros p Hp; simpl; [done|].
  destruct (on_running_ok (f share_id) root p share_id (Hf share_id) Hp) as (Hp1 & Hd1 & Hb1).
  assert (Hid : ∀ s, pc_shares p !! share_id = Some s → is_array 32 share_id)
    by (intros s Hs; exact (ru_array _ _ _ (Hp share_id s Hs))).
  destruct (on_running (f share_id) p share_id) as [r p1] eqn:E1. simpl in *.
  destruct (IH p1 Hp1) as (Hp2 & Hd2 & Hother). destruct (each_share f order p1) as [rs p2]. simpl in *.
  split_and!; [done|congruence|]. intros other Ho Hnot. rewrite Hother by (try done; set_solver).
  destruct Hb1 as [[_ ->]|Hb1]; [done|]. unfold on_running in E1.
  destruct (pc_shares p !! share_id) as [s|] eqn:Es; [|by injection E1 as _ <-].
  apply (status_apart root share_id); eauto. set_solver.
Qed.

(** Every share is visited, and a successful update is on disk in the end. *)
Lemma each_share_on_disk (P : bytes → RuntimeStatus → Prop) root f order p rs p' :
  NoDup order → local_ops root f → process_ok root p →
  (∀ share_id s s', running root share_id s → f share_id s = (Ok tt, s') → on_disk (P share_id) (as_files s') root share_id) →
  each_share f order p = (rs, p') →
  ∀ share_id, share_id ∈ order → share_id ∈ dom (pc_shares p) →
    ∃ r, (share_id, Some r) ∈ rs ∧ (r = Ok tt → on_disk (P share_id) (pc_files p') root share_id).
Proof.
  intros Hnd Hf Hp HP. revert p rs p' Hp. induction order as [|x order IH]; intros p rs p' Hp Hrun; simpl; [set_solver|].
  simpl in Hrun. apply NoDup_cons in Hnd as [Hx Hnd].
  destruct (on_running_ok (f x) root p x (Hf x) Hp) as (Hp1 & Hd1 & _).
  destruct (on_running (f x) p x) as [r p1] eqn:E1. simpl in Hp1, Hd1.
  pose proof (each_share_frame root f order p1 Hf Hp1) as (_ & _ & Hframe).
  destruct (each_share f order p1) as [rs2 p2] eqn:E2. injection Hrun as <- <-. simpl in Hframe.
  intros share_id Hin Hdom. apply elem_of_cons in Hin as [->|Hin].
  - apply elem_of_dom in Hdom as [s Hs]. unfold on_running in E1. rewrite Hs in E1.
    pose proof (Hp x s Hs) as Hrunning. destruct (f x (with_files s (pc_files p))) as [r1 s1] eqn:Ef.
    injection E1 as <- <-. exists r1. split; [left|]. intros ->. specialize (HP _ _ _ Hrunning Ef).
    intros st Hst. apply HP. rewrite <-Hst. symmetry. f_equal. apply Hframe; [exact (ru_array _ _ _ Hrunning)|done].
  - destruct (IH Hnd p1 rs2 p2 Hp1 E2 share_id Hin) as (r' & Hr' & Hd'); [by rewrite Hd1|].
    exists r'. split; [by right|done].
Qed.

Lemma load_registry_ok (fs : files) root endpoint_id share_ids shares :
  Forall (is_array 32) share_ids → load_registry fs root endpoint_id share_ids = Ok shares →
  process_ok root {| pc_files := fs; pc_shares := shares |} ∧ dom shares = list_to_set share_ids.
Proof.
  unfold load_registry. intros Hids Hload.
  assert (Hgen : ∀ acc, process_ok root {| pc_files := fs; pc_shares := acc |} →
    try_fold (λ shares share_id, share ← load_share fs root endpoint_id share_id; Ok (<[share_id := share]> shares))
      share_ids acc = Ok shares →
    process_ok root {| pc_files := fs; pc_shares := shares |} ∧ dom shares = list_to_set share_ids ∪ dom acc).
  { clear Hload. induction share_ids as [|share_id share_ids IH]; intros acc Hacc; simpl.
    - intros [= <-]. split; [done|set_solver].
    - apply Forall_cons in Hids as [Hid Hids]. intros (acc' & Hl & Hr)%bind_Ok.
      apply bind_Ok in Hl as (share & Hshare & [= <-]). apply bind_Ok in Hshare as (config & Hconfig & [= <-]).
      refine ((λ Hinv, _) (λ Hacc', IH Hids _ Hacc' Hr)). destruct Hinv as [Hok Hd].
      + apply map_Forall_insert_2; [|done]. apply load_config_on_disk in Hconfig as [_ Hc]. by split.
      + split; [done|]. rewrite Hd. set_solver. }
  destruct (Hgen ∅) as [Hok Hd]; [apply map_Forall_empty|done|]. split; [done|]. set_solver.
Qed.

(** ** Properties *)

(** The writes of a run, and its order. *)
Record network_ok (env : network_env) (share_ids : list bytes) : Prop := {
  no_order : NoDup (nw_order env) ∧ ∀ share_id, share_id ∈ nw_order env ↔ share_id ∈ share_ids;
  no_start : ∀ share_id, cuts (ue_write (nw_start env share_id));
  no_error : ∀ share_id, cuts (ue_write (nw_error env share_id));
  no_stop : ∀ share_id, cuts (ue_write (nw_stop env share_id));
  no_tasks : Forall (λ '(share_id, op), task_ok share_id op) (nw_tasks env);
}.

(** C32: how a run leaves the statuses of its shares.  When its cycles end, whatever its
    tasks did, with whichever operations on the shares, which have one disk in common, and
    with whichever result, every share is stopped at the end, and its status on disk,
    unless that last write failed, is stopped, without a process.  The run may also end
    before its cycles.  If the endpoint cannot be bound, every status that could be written
    is degraded with that error.  If a share cannot be marked as starting, the status of
    every share is the one it was or starting.  If the shares cannot be loaded, or there
    are none, no file changes. *)
Theorem run_leaves_status (env : network_env) root (endpoint_id : EndpointId) (share_ids : list bytes)
    (once : bool) (fs : files) (ended : run_end) p
    (Hids : Forall (is_array 32) share_ids) (Henv : network_ok env share_ids)
    (Hrun : run env root endpoint_id share_ids once fs = Some (ended, p)) :
  match ended with
  | Ran _ stopped =>
      ∀ share_id, share_id ∈ share_ids → ∃ r, (share_id, Some r) ∈ stopped ∧
        (r = Ok tt → on_disk (λ st, rs_state st = Stopped ∧ rs_process_id st = 0) (pc_files p) root share_id)
  | NotBound _ recorded =>
      ∀ share_id, share_id ∈ share_ids → ∃ r, (share_id, Some r) ∈ recorded ∧
        (r = Ok tt → on_disk (λ st, rs_state st = Degraded ∧ rs_last_error st = Some endpoint_error)
                       (pc_files p) root share_id)
  | NotStarted _ =>
      ∀ share_id, share_id ∈ share_ids →
        pc_files p !! share_runtime_status root share_id = fs !! share_runtime_status root share_id ∨
        on_disk (λ st, rs_state st = Starting) (pc_files p) root share_id
  | NothingToRun => share_ids = [] ∧ pc_files p = fs
  | NotLoaded _ => pc_files p = fs
  end.
Proof.
  destruct Henv as [[Hnd Horder] Hstart Herror Hstop Htasks].
  assert (Hlocal : ∀ (e : bytes → update_env) upd, (∀ share_id, cuts (ue_write (e share_id))) →
    local_ops root (λ share_id s, update_runtime s (ue_now_ms (e share_id)) (ue_pid (e share_id)) upd (ue_write (e share_id))))
    by (intros e upd He share_id; by apply update_local).
  unfold run in Hrun. destruct (load_registry _ _ _ _) as [shares|] eqn:El; [|by injection Hrun as <- <-].
  apply load_registry_ok in El as [Hp Hd]; [|done].
  case_bool_decide as Hempty.
  { injection Hrun as <- <-. subst shares. split; [|done].
    destruct share_ids as [|x l]; [done|]. rewrite dom_empty_L in Hd. set_solver. }
  pose proof (λ share_id, try_shares_kept_or (λ st, rs_state st = Starting) root (start_share (nw_start env))
    (nw_order env) _ share_id (Hlocal _ _ Hstart) Hp) as Hkept. simpl in Hkept.
  pose proof (try_shares_ok root (start_share (nw_start env)) (nw_order env) _ (Hlocal _ _ Hstart) Hp) as [Hp1 Hd1].
  destruct (try_shares _ _ _) as [[u|] p1]; simpl in Hp1, Hd1, Hkept.
  2: { injection Hrun as <- <-. intros share_id Hin. rewrite Forall_forall in Hids.
    apply Hkept; [by apply Hids|]. intros s Hs.
    by apply (update_kept_or (λ '(state, _, _), state = Starting)); [|apply Hstart|]. }
  assert (Hin : ∀ share_id, share_id ∈ share_ids → share_id ∈ nw_order env ∧ share_id ∈ dom (pc_shares p1)).
  { intros share_id Hs. split; [by apply Horder|]. rewrite Hd1, Hd. by apply elem_of_list_to_set. }
  destruct (nw_bind env) as [u'|e].
  - apply bind_Some in Hrun as (r & _ & Hrun).
    destruct (run_tasks_ok root p1 (nw_tasks env) Htasks Hp1) as [Hp2 Hd2].
    destruct (each_share _ _ (run_tasks p1 (nw_tasks env))) as [stopped p3] eqn:Ee. injection Hrun as <- <-.
    intros share_id [Ho Hdom]%Hin.
    eapply (each_share_on_disk (λ _ st, rs_state st = Stopped ∧ rs_process_id st = 0) root (stop_share (nw_stop env))); [done|by apply Hlocal|exact Hp2| |exact Ee|done|by rewrite Hd2].
    intros id s s' Hr Hs.
    by eapply (running_on_disk (λ '(state, pid, _), state = Stopped ∧ pid = 0)); [exact Hr|apply Hstop| |exact Hs].
  - destruct (each_share _ _ p1) as [recorded p3] eqn:Ee. injection Hrun as <- <-.
    intros share_id [Ho Hdom]%Hin.
    eapply (each_share_on_disk (λ _ st, rs_state st = Degraded ∧ rs_last_error st = Some endpoint_error) root (fail_share (nw_error env))); [done|by apply Hlocal|exact Hp1| |exact Ee|done|done].
    intros id s s' Hr Hs.
    by eapply (running_on_disk (λ '(state, _, error), state = Degraded ∧ error = Some endpoint_error)); [exact Hr|apply Herror| |exact Hs].
Qed.
End running.

(** ** [run --once] *)

(** [run_sync_cycle]: a task per share, at most [MAX_CONCURRENT_SHARES] at a time; the
    shares still to start, those in work and those that are done. *)
Definition MAX_CONCURRENT_SHARES : nat := 4.
Record sync_cycle := {
  sy_pending : list bytes;
  sy_running : list bytes;
  sy_done : list bytes;
}.
Inductive cycle_action := CycleSpawns | CycleJoins (i : nat).

(** A task starts once it has a permit, and gives it back when it ends. *)
Definition cycle_step (c : sync_cycle) (a : cycle_action) : option sync_cycle :=
  match a with
  | CycleSpawns =>
      match sy_pending c with
      | [] => None
      | share_id :: rest =>
          if (length (sy_running c) <? MAX_CONCURRENT_SHARES)%nat
          then Some {| sy_pending := rest; sy_running := sy_running c ++ [share_id]; sy_done := sy_done c |}
          else None
      end
  | CycleJoins i =>
      share_id ← sy_running c !! i;
      Some {| sy_pending := sy_pending c; sy_running := delete i (sy_running c);
              sy_done := sy_done c ++ [share_id] |}
  end.
Fixpoint run_sync_cycle (c : sync_cycle) (actions : list cycle_action) : option sync_cycle :=
  match actions with
  | [] => Some c
  | a :: actions => c ← cycle_step c a; run_sync_cycle c actions
  end.
Definition start_cycle (order : list bytes) : sync_cycle :=
  {| sy_pending := order; sy_running := []; sy_done := [] |}.

Record cycle_ok (order : list bytes) (steps : nat) (c : sync_cycle) : Prop := {
  ck_few : (length (sy_running c) ≤ MAX_CONCURRENT_SHARES)%nat;
  ck_all : sy_done c ++ sy_running c ++ sy_pending c ≡ₚ order;
  ck_steps : (steps + 2 * length (sy_pending c) + length (sy_running c) = 2 * length order)%nat;
}.

Lemma cycle_step_ok order steps c a c' :
  cycle_ok order steps c → cycle_step c a = Some c' → cycle_ok order (S steps) c'.
Proof.
  intros [Hf Ha Hs]. destruct a as [|i]; simpl.
  - destruct (sy_pending c) as [|x rest] eqn:Ep; [done|].
    destruct (Nat.ltb_spec (length (sy_running c)) MAX_CONCURRENT_SHARES); [|done]. intros [= <-].
    split; simpl in *; rewrite ?length_app; simpl; [lia| |lia]. rewrite <-Ha, <-app_assoc. done.
  - intros (x & Hx & [= <-])%bind_Some. pose proof (delete_Permutation _ _ _ Hx) as Hp.
    pose proof (Permutation_length Hp) as Hl. simpl in Hl. split; simpl; [lia| |lia].
    rewrite <-Ha. rewrite (Hp : sy_running c ≡ₚ x :: delete i (sy_running c)) at 2.
    by rewrite <-app_assoc.
Qed.

(** A cycle takes every share exactly once, at most four at a time, and goes on until all
    are done. *)
Lemma run_sync_cycle_covers order actions c :
  run_sync_cycle (start_cycle order) actions = Some c →
  (length (sy_running c) ≤ 4)%nat ∧ sy_done c ++ sy_running c ++ sy_pending c ≡ₚ order ∧
  (length actions ≤ 2 * length order)%nat ∧
  (sy_done c ≡ₚ order ∨ ∃ a c', cycle_step c a = Some c').
Proof.
  assert (Hgen : ∀ steps c0, cycle_ok order steps c0 → run_sync_cycle c0 actions = Some c →
    cycle_ok order (steps + length actions) c).
  { induction actions as [|a actions IH]; intros steps c0 Hc0; simpl.
    - intros [= <-]. by rewrite Nat.add_0_r.
    - intros (c1 & H1 & H2)%bind_Some. replace (steps + S (length actions))%nat with (S steps + length actions)%nat by lia.
      eapply IH; [|done]. by eapply cycle_step_ok. }
  intros Hrun. destruct (Hgen 0%nat (start_cycle order)) as [Hf Ha Hs]; [split; simpl; [lia|done|lia]|done|].
  split_and!; [done|done|lia|]. destruct (sy_running c) as [|x l] eqn:Er.
  - destruct (sy_pending c) as [|y rest] eqn:Ep; [left; by rewrite !app_nil_r in Ha|right].
    exists CycleSpawns. simpl. rewrite Ep, Er. simpl. eauto.
  - right. exists (CycleJoins 0). simpl. rewrite Er. simpl. eauto.
Qed.

(** ** The command *)

Section run_command.
Context `{HexCodec, Sha256, Iroh, Base64Codec, Blake3, WalkDir} `{!JsonState ShareConfig}
  `{!JsonState Manifest} `{!JsonState ClockState} `{!JsonState KnownPeers}
  `{!JsonState RuntimeStatus}.
Context (public_key : bytes → EndpointId).

(** [App::run]: the number of shares that were started; [None] while it runs.  [network]
    is the environment of the run of these shares. *)
Definition run_command (root : bytes) (env : run_env) (network : list bytes → network_env)
    (selector : option bytes) (once : bool) (d : data_dir) : option (result Z * data_dir) :=
  match prepare_run public_key root env selector d with
  | (Err e, d) => Some (Err e, d)
  | (Ok None, d) => Some (Ok 0, d)
  | (Ok (Some (share_ids, endpoint_id)), d) =>
      '(ended, p) ← run (network share_ids) root endpoint_id share_ids once (dd_files d);
      Some (run_result ended ≫= (λ _, Ok (blen share_ids)), with_dd_files d (pc_files p))
  end.
End run_command.

(** ** A share that ran *)

Import Ref.

Definition ex_run_status (state : RuntimeState) (pid : Z) : RuntimeStatus := {|
  rs_format_version := 1; rs_process_id := pid; rs_started_at_ms := 5; rs_heartbeat_at_ms := 5;
  rs_state := state; rs_health := Unknown; rs_connected_peers := 0; rs_pending_downloads := 0;
  rs_pending_updates := 0; rs_last_scan_at_ms := None; rs_last_remote_update_at_ms := None;
  rs_last_sync_at_ms := None; rs_last_connection_at_ms := None; rs_last_error := None |}.

#[local] Instance ex_running_config : JsonState ShareConfig := table_state [ex_share_config].
#[local] Instance ex_running_manifest : JsonState Manifest := table_state [].
#[local] Instance ex_running_clock : JsonState ClockState := table_state [ClockState_new].
#[local] Instance ex_running_peers : JsonState KnownPeers := table_state [].
#[local] Instance ex_running_status : JsonState RuntimeStatus :=
  table_state [ex_run_status Starting 7; ex_run_status Stopped 0].

Definition ex_run_update (share_id : bytes) : update_env :=
  {| ue_now_ms := 5; ue_pid := 7; ue_write := ex_env |}.
Definition ex_network_env : network_env := {|
  nw_order := [ex_share]; nw_start := ex_run_update; nw_bind := Ok tt; nw_error := ex_run_update;
  nw_tasks := [(ex_share, TaskShare OpRetry); (ex_share, TaskClock ClockState_new ex_env)];
  nw_shutdown := None; nw_events := [ScanNotified; Shutdown (Ok tt)]; nw_outcomes := [Some (Ok tt)];
  nw_stop := ex_run_update |}.
Definition ex_run_files : files := {[share_config (bs "/d") ex_share := bs "x"]}.
Definition ex_ran : option (run_end * process) :=
  run ex_network_env (bs "/d") (endpoint "001") [ex_share] false ex_run_files.

(** The share was stopped, and the last status was written. *)
Definition ex_ran_ok (o : option (run_end * process)) : bool :=
  match o with
  | Some (Ran (Ok _) [(share_id, Some (Ok _))], p) =>
      bool_decide (share_id = ex_share)
      && bool_decide (pc_files p !! share_runtime_status (bs "/d") ex_share ≫= from_slice
                      = Some (ex_run_status Stopped 0))
  | _ => false
  end.

Lemma ex_network_ok : network_ok ex_network_env [ex_share].
Proof.
  split; try (intros share_id; exact ex_env_cuts).
  - split; [apply NoDup_singleton|done].
  - repeat constructor; simpl; try done. intros env [= <-]. exact ex_env_cuts.
Qed.

Lemma run_leaves_status_witness :
  ex_ran_ok ex_ran = true ∧
  ∃ r stopped p, ex_ran = Some (Ran r stopped, p) ∧
    ∃ r', (ex_share, Some r') ∈ stopped ∧
      (r' = Ok tt → on_disk (λ st, rs_state st = Stopped ∧ rs_process_id st = 0) (pc_files p) (bs "/d") ex_share).
Proof.
  assert (Hok : ex_ran_ok ex_ran = true) by (vm_compute; reflexivity).
  split; [exact Hok|]. destruct ex_ran as [[ended p]|] eqn:Hrun; [|discriminate Hok].
  assert (Hids : Forall (is_array 32) [ex_share]) by (constructor; [reflexivity|constructor]).
  pose proof (run_leaves_status ex_network_env (bs "/d") (endpoint "001") [ex_share] false ex_run_files
    ended p Hids ex_network_ok Hrun) as Hs.
  destruct ended as [| | | |r stopped]; try discriminate Hok.
  exists r, stopped, p. split; [reflexivity|]. apply (Hs ex_share). left.
Defined.
