(* ===== verification/Reporting.v ===== *)
(** * What is reported of a run (src/app/mod.rs, src/runtime/mod.rs, src/network/lifecycle.rs)

    [syncbox status] reads the status files a running process writes.  This file puts both
    sides together: the shares of [Running] and the assessment of [Status]. *)

From S2P Require Import Prelude Collections Bytes External Reference Framing Clock Types Peers Ticket ManifestPath Manifest Merge Storage DataDir Shares Directory Digest Auth Scheduling State Wire LocalFs Partial Streaming Planning Apply Scan ShareScan App Registration Session PeerSessions Registry Watching Workers Status Running.

Section reporting.
Context `{HexCodec, Sha256, Iroh, Base64Codec, Blake3, WalkDir} `{!JsonState ShareConfig}
  `{!JsonState Manifest} `{!JsonState ClockState} `{!JsonState KnownPeers}
  `{!JsonState RuntimeStatus}.
Implicit Types (s : ActiveShare) (root share_id : bytes) (p : process) (d : data_dir).

(** The status of a share that was stopped is reported so. *)
Lemma stopped_is_reported d root (env : status_env) share_id status a :
  on_disk (λ st, rs_state st = Stopped ∧ rs_process_id st = 0) (dd_files d) root share_id →
  load_runtime_status (dd_files d) root share_id = Ok status →
  assess_runtime d root env share_id status = Ok a →
  ra_runtime a = Stopped ∧ ra_last_recorded_state a = None.
Proof.
  intros Hd Hl. unfold assess_runtime. destruct (share_lock_is_held _ _ _ _ _) as [held|]; [|done]. simpl.
  destruct (dd_files d !! share_runtime_status root share_id) as [data|] eqn:E.
  - destruct (load_runtime_status_file _ _ _ _ _ Hl E) as (st & -> & Hst).
    destruct (Hd st) as [Hs Hp]; [by rewrite E|]. rewrite Hp, Hs. simpl. rewrite andb_false_r. by intros [= <-].
  - unfold load_runtime_status in Hl. rewrite E in Hl. injection Hl as <-. by intros [= <-].
Qed.

(** ** Heartbeats *)

Lemma refresh_on_disk root share_id s now pid env s' :
  running root share_id s → cuts env → pid ≠ 0 → refresh_heartbeat s now pid env = (Ok tt, s') →
  on_disk (λ st, rs_heartbeat_at_ms st = now ∧ rs_process_id st ≠ 0) (as_files s') root share_id.
Proof.
  intros Hs Hcut Hpid Hr. destruct (update_local root share_id now pid true (λ r _, r) env Hcut s Hs) as [Hs' _].
  unfold refresh_heartbeat in Hr. rewrite Hr in Hs'. destruct Hs' as [Er Ei _ _ Hok].
  assert (Hc : ∃ st, as_runtime_status s' = Some st ∧ rs_heartbeat_at_ms st = now ∧ rs_process_id st ≠ 0).
  { unfold update_status in Hr.
    destruct (match as_runtime_status s with Some _ => _ | None => _ end) as [previous|]; [|done]. simpl in Hr.
    destruct (save_runtime_status _ _ _ _ _) as [[u|] fs]; [|done]. injection Hr as <-. eexists. split; [done|].
    simpl. split; [done|]. destruct (Z.eqb_spec (rs_process_id previous) 0); done. }
  destruct Hc as (st & Hst & Hp). intros st' Hd. apply bind_Some in Hd as (data & Hd & Hslice).
  rewrite <-Er, <-Ei in Hd. specialize (Hok st data Hst Hd). by replace st' with st by congruence.
Qed.

Lemma load_runtime_status_disk (fs : files) root share_id status :
  load_runtime_status fs root share_id = Ok (Some status) →
  fs !! share_runtime_status root share_id ≫= from_slice = Some status.
Proof.
  intros Hl. destruct (fs !! share_runtime_status root share_id) as [data|] eqn:E.
  - destruct (load_runtime_status_file _ _ _ _ _ Hl E) as (st & [= ->] & Hst). exact Hst.
  - unfold load_runtime_status in Hl. by rewrite E in Hl.
Qed.

Lemma share_lock_found d root share_id opens :
  is_Some (dd_files d !! share_lock root share_id) → opens = true →
  share_lock_is_held d root share_id opens LockHeld = Ok true.
Proof. intros [data Hl] ->. unfold share_lock_is_held, contains_key. by rewrite Hl. Qed.

(** C37: while the heartbeat beats, a running share is reported in its state.  After a
    tick, for every share whose status could be written, the assessment at any time up to
    fifteen seconds later, with the lock of the share held and the process that its status
    records alive, is the recorded state, with a fresh heartbeat. *)
Theorem heartbeat_keeps_running root (env : bytes → update_env) (order : list bytes) p share_id
    (Hnd : NoDup order) (Hp : process_ok root p) (Hcut : ∀ share_id, cuts (ue_write (env share_id)))
    (Hpid : ∀ share_id, ue_pid (env share_id) ≠ 0)
    (Hin : share_id ∈ order) (Hrun : share_id ∈ dom (pc_shares p)) :
  ∃ r, (share_id, Some r) ∈ (each_share (refresh_share env) order p).1 ∧
    ∀ d (answers : status_env) status, r = Ok tt → dd_files d = pc_files (heartbeat_tick env order p) →
      load_runtime_status (dd_files d) root share_id = Ok (Some status) →
      is_Some (dd_files d !! share_lock root share_id) → st_opens answers share_id = true →
      st_lock answers share_id = LockHeld → st_running answers (rs_process_id status) = true →
      st_now_ms answers ≤ ue_now_ms (env share_id) + STATUS_HEARTBEAT_STALE_MS →
      ∃ a, assess_runtime d root answers share_id (Some status) = Ok a ∧ ra_runtime a = rs_state status ∧
        ra_heartbeat_stale a = false.
Proof.
  unfold heartbeat_tick. destruct (each_share (refresh_share env) order p) as [rs p'] eqn:E.
  destruct (each_share_on_disk (λ share_id st, rs_heartbeat_at_ms st = ue_now_ms (env share_id) ∧ rs_process_id st ≠ 0)
    root (refresh_share env) order p rs p') with share_id as (r & Hr & Hd); try done.
  { intros id. by apply update_local. }
  { intros id s s' Hs Hok. by eapply refresh_on_disk. }
  exists r. split; [done|]. intros d answers status -> Hf Hl Hlock Hopens Hheld Halive Hnow. simpl in Hf.
  assert (Hst : rs_heartbeat_at_ms status = ue_now_ms (env share_id) ∧ rs_process_id status ≠ 0).
  { apply (Hd eq_refl). rewrite <-Hf. by apply load_runtime_status_disk. }
  destruct Hst as [Hbeat Hid]. unfold assess_runtime, process_alive. rewrite Hheld, share_lock_found by done. simpl.
  rewrite Halive, Hbeat, (proj2 (Z.eqb_neq _ _) Hid), (proj2 (Z.ltb_ge _ _)) by (unfold saturating_sub, STATUS_HEARTBEAT_STALE_MS in *; lia).
  simpl. eauto.
Qed.

(** ** Processes that crashed *)

(** The status of a share names the process [q], on disk and in memory. *)
Definition recorded (q : Z) s : Prop :=
  (∃ data st, status_file s = Some data ∧ from_slice data = Some st ∧ rs_process_id st = q) ∧
  ∀ st, as_runtime_status s = Some st → rs_process_id st = q.

(** Every update but [set_stopped]. *)
Definition keeps_process (update : RuntimeStatus → Z → RuntimeStatus) : Prop :=
  ∀ r now, rs_process_id (update r now) = rs_process_id r.
Definition task_keeps_process (op : task_op) : Prop :=
  ∀ now pid hb f env, op = TaskShare (OpStatus now pid hb f env) → keeps_process f.

Lemma update_recorded q s now pid hb f env :
  q ≠ 0 → cuts env → keeps_process f → recorded q s → recorded q (update_status s now pid hb f env).2.
Proof.
  intros Hq Hcut Hf [(data & st & Hd & Hst & Hpid) Hc]. unfold update_status.
  destruct (match as_runtime_status s with Some _ => _ | None => _ end) as [previous|] eqn:Ep;
    [|split; [by exists data, st|done]].
  assert (Hp : rs_process_id previous = q).
  { destruct (as_runtime_status s) as [c|]; [injection Ep as <-; by apply Hc|].
    apply bind_Ok in Ep as (loaded & Hl & [= <-]).
    destruct (load_runtime_status_file _ _ _ _ _ Hl Hd) as (st' & -> & Hst'). simpl. congruence. }
  rewrite (proj2 (Z.eqb_neq (rs_process_id previous) 0)) by congruence.
  destruct (negb hb && _); [split; [by exists data, st|by intros ? [= <-]]|].
  set (status := Build_RuntimeStatus _ _ _ _ _ _ _ _ _ _ _ _ _ _).
  assert (Hnew : rs_process_id status = q) by (simpl; by rewrite Hf).
  clearbody status. unfold save_runtime_status.
  destruct (RuntimeStatus_validate status); [|split; [by exists data, st|done]].
  pose proof (atomic_write_json_outcome (as_files s) (share_dir (as_root s) (as_share_id s))
    (bs "runtime-status.json") status env eq_refl Hcut) as Ho.
  destruct (atomic_write_json _ _ _ _ _) as [r fs]. simpl in Ho.
  assert (Hfile : ∃ data st, fs !! share_runtime_status (as_root s) (as_share_id s) = Some data ∧
    from_slice data = Some st ∧ rs_process_id st = q).
  { destruct Ho as [Ho|(b & Hb & Ho)]; [exists data, st; split; [|done]; rewrite <-Hd; exact Ho|].
    exists (b ++ ["010"%byte]), status. split_and!; [exact Ho| |done].
    by rewrite from_slice_newline, (from_slice_to_vec _ b Hb). }
  destruct r; (split; [exact Hfile|]); [by intros ? [= <-]|done].
Qed.

Lemma task_recorded q root share_id s op :
  q ≠ 0 → task_ok share_id op → task_keeps_process op → running root share_id s → recorded q s →
  recorded q (run_task s op).
Proof.
  intros Hq Hok Hkeep Hs Hr. destruct (is_status op) eqn:Est.
  - destruct op as [[| | | | | |now pid hb f env]| | |]; try discriminate Est.
    apply update_recorded; [done|by apply Hok| |done]. by eapply Hkeep.
  - pose proof (run_task_beside root share_id s op Est Hok Hs) as Hb. unfold recorded.
    rewrite (beside_status _ _ Hb). destruct Hb as (_ & _ & _ & -> & _). exact Hr.
Qed.

Lemma status_task_keeps share_id now pid hb f env :
  cuts env → keeps_process f →
  task_ok share_id (TaskShare (OpStatus now pid hb f env)) ∧ task_keeps_process (TaskShare (OpStatus now pid hb f env)).
Proof.
  intros Hcut Hf. split; [split; [by intros ? [= <-]|done]|]. by intros ? ? ? ? ? [= <- <- <- <- <-].
Qed.

(** The same for a share among others on one disk. *)
Definition share_recorded q share_id p : Prop :=
  ∃ s, pc_shares p !! share_id = Some s ∧ recorded q (with_files s (pc_files p)).

Lemma tasks_recorded q root share_id tasks p :
  q ≠ 0 → Forall (λ '(id, op), task_ok id op ∧ task_keeps_process op) tasks →
  process_ok root p → share_recorded q share_id p → share_recorded q share_id (run_tasks p tasks).
Proof.
  intros Hq. revert p. induction tasks as [|[id op] tasks IH]; intros p Hall Hp Hrec; [done|].
  apply Forall_cons in Hall as [[Hok Hkeep] Hall].
  change (share_recorded q share_id (run_tasks (on_running (λ s, (tt, run_task s op)) p id).2 tasks)).
  pose proof (on_running_ok (λ s, (tt, run_task s op)) root p id (run_task_local root id op Hok) Hp) as (Hp1 & _ & Hb).
  apply IH; [done|exact Hp1|]. destruct Hrec as (s & Hs & Hrec). pose proof (Hp share_id s Hs) as Hrun.
  unfold on_running in *. destruct (pc_shares p !! id) as [o|] eqn:Eo; [|by exists s]. simpl in *.
  destruct (decide (id = share_id)) as [->|Hne].
  - replace o with s in * by congruence. eexists. split; [simpl; by rewrite lookup_insert_eq|].
    pose proof (task_recorded q root share_id _ op Hq Hok Hkeep Hrun Hrec) as Ht.
    unfold recorded, status_file in *. exact Ht.
  - exists s. simpl. rewrite lookup_insert_ne by done. split; [done|].
    pose proof (Hp id o Eo) as Ho. destruct Hrec as [Hfile Hcache]. split; [|exact Hcache].
    unfold status_file in *. simpl in *. rewrite (ru_root _ _ _ Hrun : as_root s = root), (ru_id _ _ _ Hrun : as_share_id s = share_id) in *.
    rewrite (status_apart root id share_id (pc_files p)); [exact Hfile|exact (ru_array _ _ _ Ho)|exact (ru_array _ _ _ Hrun)|done|].
    destruct (run_task_local root id op Hok _ Ho) as [_ Hbelow]. exact Hbelow.
Qed.

(** C33: a process that crashed hides the ones that run after it.  If the status of a share
    names a process that is gone, then whatever a later run does, up to the end where it
    stops the share, the share is reported as stopped: the process ID in the status is
    only replaced when it is zero.  This holds although the later process has the lock and
    writes heartbeats. *)
Theorem crashed_process_hides_run (q : Z) root share_id (tasks : list (bytes * task_op)) p d
    (answers : status_env) status (a : RuntimeAssessment)
    (Hq : q ≠ 0) (Hgone : st_running answers q = false)
    (Hp : process_ok root p) (Hrec : share_recorded q share_id p)
    (Htasks : Forall (λ '(id, op), task_ok id op ∧ task_keeps_process op) tasks)
    (Hd : dd_files d = pc_files (run_tasks p tasks))
    (Hl : load_runtime_status (dd_files d) root share_id = Ok status)
    (Ha : assess_runtime d root answers share_id status = Ok a) :
  ra_runtime a = Stopped.
Proof.
  pose proof (run_tasks_ok root p tasks) as Hr. destruct Hr as [Hp' _]; [|done|].
  { eapply Forall_impl; [exact Htasks|]. by intros [id op] [? _]. }
  destruct (tasks_recorded q root share_id tasks p Hq Htasks Hp Hrec) as (s & Hs & (data & st & Hf & Hst & Hpid) & _).
  destruct (Hp' share_id s Hs) as [Er Ei _ _ _]. unfold status_file in Hf. simpl in Er, Ei, Hf.
  rewrite Er, Ei, <-Hd in Hf. destruct (load_runtime_status_file _ _ _ _ _ Hl Hf) as (st' & -> & Hst').
  apply assess_runtime_Ok in Ha as [(r & [= <-] & (_ & _ & _ & _ & Halive) & _)|(_ & Hstop & _)]; [|done].
  replace (rs_process_id st') with q in Halive by congruence. congruence.
Qed.
End reporting.

(** *** Witnesses *)

Import Ref.

(** Process 7 crashed while it ran the share; process 8 runs it now. *)
Definition ex_crash_status (state : RuntimeState) (health : SyncHealth) (beat : Z) : RuntimeStatus := {|
  rs_format_version := 1; rs_process_id := 7; rs_started_at_ms := 5; rs_heartbeat_at_ms := beat;
  rs_state := state; rs_health := health; rs_connected_peers := 0; rs_pending_downloads := 0;
  rs_pending_updates := 0; rs_last_scan_at_ms := None; rs_last_remote_update_at_ms := None;
  rs_last_sync_at_ms := None; rs_last_connection_at_ms := None; rs_last_error := None |}.

#[local] Instance ex_crash_configs : JsonState ShareConfig := table_state [ex_share_config].
#[local] Instance ex_crash_manifest : JsonState Manifest := table_state [].
#[local] Instance ex_crash_clock : JsonState ClockState := table_state [].
#[local] Instance ex_crash_peers : JsonState KnownPeers := table_state [].
#[local] Instance ex_crash_statuses : JsonState RuntimeStatus := table_state
  [ex_crash_status Running Synchronized 5; ex_crash_status Starting Unknown 100;
   ex_crash_status Running Synchronized 110; ex_crash_status Running Synchronized 200].

Definition ex_crash_files : files := list_to_map [
  (share_config (bs "/d") ex_share, bs "x"); (share_runtime_status (bs "/d") ex_share, bs "x");
  (share_lock (bs "/d") ex_share, [])].
Definition ex_crash_shares : result (gmap bytes ActiveShare) :=
  load_registry ex_crash_files (bs "/d") (endpoint "001") [ex_share].
Definition ex_crashed : process := {|
  pc_files := ex_crash_files; pc_shares := match ex_crash_shares with Ok shares => shares | Err _ => ∅ end |}.
Definition ex_beat (now : Z) (share_id : bytes) : update_env := {| ue_now_ms := now; ue_pid := 8; ue_write := ex_env |}.
Definition ex_later_tasks : list (bytes * task_op) := [
  (ex_share, TaskShare (OpStatus 100 8 false (λ r _, restate Starting Unknown None r) ex_env));
  (ex_share, TaskShare (OpStatus 110 8 false (λ r _, restate Running Synchronized None r) ex_env));
  heartbeat_task (ex_beat 200) ex_share].
Definition ex_later : data_dir := {| dd_files := pc_files (run_tasks ex_crashed ex_later_tasks); dd_dirs := ∅ |}.
Definition ex_beaten : data_dir := {| dd_files := pc_files (heartbeat_tick (ex_beat 200) [ex_share] ex_crashed); dd_dirs := ∅ |}.
Definition ex_answers (alive : Z → bool) : status_env := {|
  st_readable := true; st_opens := λ _, true; st_lock := λ _, LockHeld; st_running := alive; st_now_ms := 300 |}.

Lemma ex_crashed_ok : process_ok (bs "/d") ex_crashed.
Proof.
  unfold ex_crashed. destruct ex_crash_shares as [shares|] eqn:E; [|apply map_Forall_empty].
  eapply load_registry_ok; [|exact E]. by constructor.
Qed.
Lemma ex_crashed_recorded : share_recorded 7 ex_share ex_crashed.
Proof.
  assert (Hs : ∃ s, pc_shares ex_crashed !! ex_share = Some s ∧ as_root s = bs "/d" ∧ as_share_id s = ex_share ∧
    as_runtime_status s = None) by (eexists; repeat split; vm_compute; reflexivity).
  destruct Hs as (s & Hs & Hr & Hi & Hc). exists s. split; [done|]. split; [|simpl; by rewrite Hc].
  exists (bs "x"), (ex_crash_status Running Synchronized 5). unfold status_file. simpl as_root. simpl as_share_id.
  rewrite Hr, Hi. split_and!; [vm_compute; reflexivity..|done].
Qed.

(** The latest status is that of process 8, 100 ms ago. *)
Definition ex_latest (d : data_dir) : bool :=
  match load_runtime_status (dd_files d) (bs "/d") ex_share with
  | Ok (Some status) => bool_decide (status = ex_crash_status Running Synchronized 200)
  | _ => false
  end.

Lemma crashed_process_hides_run_witness :
  ∃ status a, load_runtime_status (dd_files ex_later) (bs "/d") ex_share = Ok (Some status) ∧
    rs_state status = Running ∧ rs_heartbeat_at_ms status = 200 ∧
    assess_runtime ex_later (bs "/d") (ex_answers (Z.eqb 8)) ex_share (Some status) = Ok a ∧ ra_runtime a = Stopped.
Proof.
  assert (Hok : ex_latest ex_later = true) by (vm_compute; reflexivity). unfold ex_latest in Hok.
  destruct (load_runtime_status (dd_files ex_later) (bs "/d") ex_share) as [[status|]|] eqn:Hl; try discriminate Hok.
  apply bool_decide_eq_true in Hok.
  assert (Ha : is_ok (assess_runtime ex_later (bs "/d") (ex_answers (Z.eqb 8)) ex_share (Some status)) = true)
    by (rewrite Hok; vm_compute; reflexivity).
  destruct (assess_runtime ex_later (bs "/d") (ex_answers (Z.eqb 8)) ex_share (Some status)) as [a|] eqn:E; [|discriminate Ha].
  exists status, a. split; [reflexivity|]. rewrite Hok. split; [reflexivity|]. split; [reflexivity|].
  rewrite <-Hok. split; [exact E|].
  apply (crashed_process_hides_run 7 (bs "/d") ex_share ex_later_tasks ex_crashed ex_later (ex_answers (Z.eqb 8))
    (Some status) a); [discriminate|reflexivity|exact ex_crashed_ok|exact ex_crashed_recorded| |reflexivity|exact Hl|exact E].
  apply Forall_cons_2; [|apply Forall_cons_2; [|apply Forall_cons_2; [|apply Forall_nil_2]]];
    apply status_task_keeps; try exact ex_env_cuts; intros r t; reflexivity.
Defined.

Lemma heartbeat_keeps_running_witness :
  ∃ status a, load_runtime_status (dd_files ex_beaten) (bs "/d") ex_share = Ok (Some status) ∧
    assess_runtime ex_beaten (bs "/d") (ex_answers (Z.eqb 7)) ex_share (Some status) = Ok a ∧ ra_runtime a = Running.
Proof.
  assert (Hok : ex_latest ex_beaten = true) by (vm_compute; reflexivity). unfold ex_latest in Hok.
  destruct (load_runtime_status (dd_files ex_beaten) (bs "/d") ex_share) as [[status|]|] eqn:Hl; try discriminate Hok.
  apply bool_decide_eq_true in Hok.
  destruct (heartbeat_keeps_running (bs "/d") (ex_beat 200) [ex_share] ex_crashed ex_share (NoDup_singleton _)
    ex_crashed_ok (λ _, ex_env_cuts)) as (r & Hr & Hlive); [discriminate|left| |].
  { apply elem_of_dom. destruct ex_crashed_recorded as (s & Hs & _). exists s. exact Hs. }
  assert (E : (each_share (refresh_share (ex_beat 200)) [ex_share] ex_crashed).1 = [(ex_share, Some (Ok tt))])
    by (vm_compute; reflexivity).
  rewrite E in Hr. apply list_elem_of_singleton in Hr. injection Hr as ->.
  destruct (Hlive ex_beaten (ex_answers (Z.eqb 7)) status eq_refl eq_refl Hl) as (a & Ha & Hrun & _).
  - exists []. vm_compute. reflexivity.
  - reflexivity.
  - reflexivity.
  - rewrite Hok. reflexivity.
  - vm_compute. discriminate.
  - exists status, a. split; [reflexivity|]. split; [exact Ha|]. rewrite Hrun, Hok. reflexivity.
Defined.
