(* ===== verification/Cli.v ===== *)
(** * The command line (src/main.rs)

    The commands, what each prints, and the exit code.  Parsing the arguments is clap's:
    a parsed command is the input.  A command prints its lines once it has succeeded, so
    its output is a value; the text of an error is its static part. *)

From S2P Require Import Prelude Collections Bytes External Reference Framing Clock Types Peers Ticket ManifestPath Manifest Merge Storage DataDir Shares Directory Digest Auth Scheduling State Wire LocalFs Partial Streaming Planning Apply Scan ShareScan App Status Registration Session PeerSessions Registry Running.

Inductive Command :=
| Init (directory : bytes) (name : option bytes)
| Join (share_ticket directory : bytes)
| Run (share_id : option bytes) (once : bool)
| Remove (share_id : bytes)
| StatusOf (share_id : option bytes) (json : bool)
| Id
| ScanShare (share_id : bytes)
| GenerateWorkspace
| TicketOf (share_id : bytes).

Inductive ExitCode := SUCCESS | FAILURE.

(** [println!]. *)
Definition println (line : bytes) : bytes := line ++ ["010"%byte].
Definition print_lines (lines : list bytes) : bytes := concat (map println lines).
Definition display_bool (b : bool) : bytes := if b then bs "true" else bs "false".

Section cli.
Context `{HexCodec, Sha256, Iroh, Base64Codec, Blake3, Hmac, WalkDir, Allocator}
  `{!JsonState ShareConfig} `{!JsonState Manifest} `{!JsonState ClockState}
  `{!JsonState KnownPeers} `{!JsonState RuntimeStatus}
  `{!Json SyncRequest, !Json SyncResponse, !Json ManifestMessage, !Json TransferRequest,
    !Json TransferReady, !Json TransferResponse}.
(** The public half of a key, chrono's formatting and the JSON text of a report. *)
Context (public_key : bytes → EndpointId) (rfc3339 : Z → option bytes)
  (report_json : StatusReport → option bytes).
Implicit Types d : data_dir.

(** ** Output *)

Definition init_output (r : InitResult) : bytes := print_lines [
  bs "Shared directory registered"; [];
  bs "Name: " ++ ir_name r; bs "Share ID: " ++ share_id_to_string (ir_share_id r);
  bs "Local directory: " ++ ir_local_directory r; bs "Endpoint ID: " ++ ep_to_string (ir_endpoint_id r);
  bs "Files: " ++ decimal (ir_files r); [];
  bs "Join ticket:"; ir_ticket r].

Definition join_output (r : JoinResult) : bytes := print_lines ([
  bs "Shared directory registered"; [];
  bs "Name: " ++ jr_name r; bs "Share ID: " ++ share_id_to_string (jr_share_id r);
  bs "Local directory: " ++ jr_local_directory r; bs "Endpoint ID: " ++ ep_to_string (jr_endpoint_id r)] ++
  match jr_initial_sync_status r with
  | InitialComplete => [[]; bs "Initial synchronization completed"]
  | InitialPending =>
      [[]; bs "Initial synchronization is pending"; bs "Run `syncbox run` to continue synchronization"]
  | InitialOffline =>
      [[]; bs "No known peer is currently online"; bs "Run `syncbox run` to keep retrying automatically"]
  end).

Definition run_output (shares_started : Z) : bytes :=
  if shares_started =? 0 then println (bs "No shared directories registered") else [].

Definition remove_output (share_id : bytes) : bytes := print_lines [
  bs "Shared directory registration removed"; bs "Share ID: " ++ share_id_to_string share_id;
  bs "Local directory and files were left unchanged"].

Definition status_output (json : bool) (report : StatusReport) : result bytes :=
  if json then text ← ok_or (report_json report) "unable to serialize the report"; Ok (println text)
  else Ok (human_text report).

Definition scan_output (r : ScanCommandResult) : bytes := print_lines [
  bs "Manifest updated"; bs "Share ID: " ++ share_id_to_string (scr_share_id r);
  bs "Files: " ++ decimal (scr_files r); bs "Tombstones: " ++ decimal (scr_tombstones r);
  bs "Changes detected: " ++ display_bool (scr_changed r)].

Definition workspace_output (share_id : bytes) (endpoint_id : EndpointId) (ticket : bytes) : bytes := print_lines [
  bs "Development ShareTicket generated without registering a shared directory";
  bs "Share ID: " ++ share_id_to_string share_id; bs "Endpoint ID: " ++ ep_to_string endpoint_id; [];
  bs "Join ticket:"; ticket].

Definition ticket_output (share_id ticket : bytes) : bytes := print_lines [
  bs "Warning: this ShareTicket grants access to the shared directory.";
  bs "Do not place it in logs, diagnostics, or untrusted channels.";
  bs "Share ID: " ++ share_id_to_string share_id; []; bs "Join ticket:"; ticket].

(** ** Commands *)

(** What the system answers: the data directory, whether tokio starts, and the
    environment of each command. *)
Record cli_env := {
  ci_root : result bytes;
  ci_runtime : bool;
  ci_init : register_env;
  ci_join : join_env;
  ci_run : run_env;
  ci_network : list bytes → network_env;
  ci_remove : remove_command_env;
  ci_status : status_env;
  ci_identity : identity_env;
  ci_scan : scan_command_env;
  ci_random : bytes * bytes;
  ci_readable : bool;
}.

(** A command that always ends, and its output. *)
Definition printing {A} (m : app A) (output : A → result bytes) : data_dir → option (result bytes * data_dir) :=
  λ d, let '(r, d) := m d in Some (a ← r; output a, d).

(** [run_async]: the runtime, then the future. *)
Definition run_async (env : cli_env) {A} (f : data_dir → option (result A * data_dir)) d
    : option (result A * data_dir) :=
  if ci_runtime env then f d else Some (Err "unable to start asynchronous runtime", d).

(** [run] with the data directory that was found; [None] while the command runs. *)
Definition dispatch (env : cli_env) (root : bytes) (command : Command) : data_dir → option (result bytes * data_dir) :=
  match command with
  | Init directory name => printing (init public_key root (ci_init env) directory name) (λ r, Ok (init_output r))
  | Join share_ticket directory =>
      run_async env (printing (join public_key root (ci_join env) share_ticket directory) (λ r, Ok (join_output r)))
  | Run share_id once =>
      run_async env (λ d, '(r, d) ← run_command public_key root (ci_run env) (ci_network env) share_id once d;
                          Some (n ← r; Ok (run_output n), d))
  | Remove share_id => printing (remove root (ci_remove env) share_id) (λ r, Ok (remove_output r))
  | StatusOf share_id json =>
      printing (reading (λ d, status public_key rfc3339 d root (ci_status env) share_id)) (status_output json)
  | Id => printing (device_id public_key root (ci_identity env)) (λ e, Ok (println (ep_to_string e)))
  | ScanShare share_id => printing (scan public_key root (ci_scan env) share_id) (λ r, Ok (scan_output r))
  | GenerateWorkspace =>
      printing (generate_workspace_ticket public_key root (ci_identity env) (ci_random env))
        (λ '(share_id, endpoint_id, ticket), Ok (workspace_output share_id endpoint_id ticket))
  | TicketOf share_id =>
      printing (reading (λ d, ticket d root (ci_readable env) share_id))
        (λ '(share_id, text), Ok (ticket_output share_id text))
  end.

Definition run_cli (env : cli_env) (command : Command) d : option (result bytes * data_dir) :=
  match ci_root env with
  | Err e => Some (Err e, d)
  | Ok root => dispatch env root command d
  end.

(** [main]: the exit code, standard output and standard error. *)
Definition main (env : cli_env) (command : Command) d : option (ExitCode * bytes * bytes * data_dir) :=
  '(r, d) ← run_cli env command d;
  Some (match r with
        | Ok out => (SUCCESS, out, [], d)
        | Err e => (FAILURE, [], bs "error: " ++ bs e ++ ["010"%byte], d)
        end).

(** ** What is printed *)

Lemma print_lines_app l1 l2 : print_lines (l1 ++ l2) = print_lines l1 ++ print_lines l2.
Proof. unfold print_lines. by rewrite map_app, concat_app. Qed.

(** A command that fails prints nothing but its error. *)
Lemma main_outcome env command d code out err d' :
  main env command d = Some (code, out, err, d') →
  (code = SUCCESS ∧ err = [] ∧ run_cli env command d = Some (Ok out, d')) ∨
  (code = FAILURE ∧ out = [] ∧ ∃ e, run_cli env command d = Some (Err e, d')).
Proof.
  unfold main. intros ([r d1] & Hr & E)%bind_Some. destruct r as [o|e]; injection E as <- <- <- <-; eauto 8.
Qed.

(** ** Secrets *)

Definition without_secret (c : ShareConfig) : ShareConfig := {|
  cfg_format_version := cfg_format_version c; cfg_share_id := cfg_share_id c; cfg_share_secret := [];
  cfg_name := cfg_name c; cfg_local_directory := cfg_local_directory c;
  cfg_created_at_ms := cfg_created_at_ms c; cfg_initial_peers := cfg_initial_peers c;
  cfg_initial_sync_complete := cfg_initial_sync_complete c |}.

(** Two data directories that differ in nothing but the secrets of their shares. *)
Record alike root d d' : Prop := {
  al_dirs : dd_dirs d' = dd_dirs d;
  al_files : ∀ q, (∀ share_id, q ≠ share_config root share_id) → dd_files d' !! q = dd_files d !! q;
  al_configs : ∀ share_id,
    without_secret <$> load_config (dd_files d') root share_id =
    without_secret <$> load_config (dd_files d) root share_id;
}.

(** The names of files tell them apart. *)
Lemma push_ends dir name : is_absolute name = false → ∃ pre, path_push dir name = pre ++ name.
Proof.
  intros Hn. unfold path_push. rewrite Hn. destruct (last dir) as [b|]; [destruct (Byte.eqb b slash)|]; eauto.
  exists (dir ++ [slash]). by rewrite <-app_assoc.
Qed.
Lemma not_config root dir name pre tail share_id :
  is_absolute name = false → name = pre ++ tail → (length tail ≤ 6)%nat →
  tail ≠ drop (6 - length tail) (bs "g.json") → path_push dir name ≠ share_config root share_id.
Proof.
  intros Hn Hp Hlen Ht E. destruct (push_ends dir name Hn) as [p1 E1].
  destruct (push_ends (share_dir root share_id) (bs "config.json") eq_refl) as [p2 E2].
  unfold share_config, share_path in E. rewrite E1, E2, Hp in E.
  change (bs "config.json") with (bs "confi" ++ bs "g.json") in E.
  rewrite <-(take_drop (6 - length tail) (bs "g.json")), !app_assoc in E.
  apply app_inj_2 in E as [_ E]; [done|]. rewrite length_drop. simpl. lia.
Qed.

Lemma alike_load_manifest root d d' share_id :
  alike root d d' → load_manifest (dd_files d') root share_id = load_manifest (dd_files d) root share_id.
Proof.
  intros Ha. unfold load_manifest, read_state, read_bounded. rewrite (al_files _ _ _ Ha); [done|].
  intros id. by apply (not_config root _ _ (bs "manifes") (bs "t.json")).
Qed.
Lemma alike_load_peers root d d' share_id :
  alike root d d' → load_known_peers (dd_files d') root share_id = load_known_peers (dd_files d) root share_id.
Proof.
  intros Ha. unfold load_known_peers, read_state, read_bounded. rewrite (al_files _ _ _ Ha); [done|].
  intros id. by apply (not_config root _ _ (bs "known_peer") (bs "s.json")).
Qed.
Lemma alike_load_status root d d' share_id :
  alike root d d' → load_runtime_status (dd_files d') root share_id = load_runtime_status (dd_files d) root share_id.
Proof.
  intros Ha. unfold load_runtime_status, read_state, read_bounded. rewrite (al_files _ _ _ Ha); [done|].
  intros id. by apply (not_config root _ _ (bs "runtime-statu") (bs "s.json")).
Qed.
Lemma alike_lock root d d' share_id opens answer :
  alike root d d' → share_lock_is_held d' root share_id opens answer = share_lock_is_held d root share_id opens answer.
Proof.
  intros Ha. unfold share_lock_is_held, contains_key. rewrite (al_files _ _ _ Ha); [done|].
  intros id. apply (not_config root _ _ (share_id_to_string share_id ++ bs ".loc") (bs "k")); try done.
  - apply lock_name_relative.
  - by rewrite <-app_assoc.
  - simpl. lia.
Qed.
Lemma alike_identity root d d' : alike root d d' → load_existing d' root = load_existing d root.
Proof.
  intros Ha. unfold load_existing, load_identity_bytes, read_bounded.
  rewrite (al_dirs _ _ _ Ha), (al_files _ _ _ Ha); [done|].
  intros id. apply (not_config root _ _ (bs "device.ke") (bs "y")); [done|done|simpl; lia|done].
Qed.
Lemma alike_list root d d' readable :
  alike root d d' → list_share_ids d' root readable = list_share_ids d root readable.
Proof.
  intros Ha. unfold list_share_ids, dir_names, contains_key.
  rewrite (al_files _ _ _ Ha), (al_dirs _ _ _ Ha); [done|].
  intros id. apply (not_config root _ _ (bs "share") (bs "s")); [done|done|simpl; lia|done].
Qed.

Lemma alike_share_status root d d' env endpoint_id share_id :
  alike root d d' →
  share_status rfc3339 d' root env endpoint_id share_id = share_status rfc3339 d root env endpoint_id share_id.
Proof.
  intros Ha. unfold share_status, assess_runtime.
  rewrite (alike_load_manifest root d d'), (alike_load_peers root d d'), (alike_load_status root d d'),
    (alike_lock root d d') by done.
  pose proof (al_configs _ _ _ Ha share_id) as Hc.
  destruct (load_config (dd_files d') root share_id) as [c'|e'], (load_config (dd_files d) root share_id) as [c|e];
    simpl in Hc; try done; [|by injection Hc as ->].
  injection Hc as _ _ En Ed _ _ _. simpl. by rewrite En, Ed.
Qed.

Lemma alike_status root d d' env selector :
  alike root d d' → status public_key rfc3339 d' root env selector = status public_key rfc3339 d root env selector.
Proof.
  intros Ha. unfold status, resolve_share_selector.
  rewrite (alike_list root d d'), (alike_identity root d d') by done.
  destruct (match selector with Some _ => _ | None => _ end) as [ids|]; [|done]. simpl.
  destruct (load_existing d root) as [key|]; [|done]. simpl.
  destruct (bail_if _ _) as [[]|]; [|done]. simpl.
  by rewrite (try_map_ext _ (share_status rfc3339 d root env ((λ key, endpoint_id_string (public_key key)) <$> key)) ids)
    by (intros id; by apply alike_share_status).
Qed.

(** C34: `syncbox status` does not depend on the secrets of the shares: on two data
    directories that differ in nothing else it ends with the same exit code, the same
    output, as text or JSON, and the same error, and leaves the directories as they are. *)
Theorem status_hides_secrets (env : cli_env) root d d' (share_id : option bytes) (json : bool)
    (Hroot : ci_root env = Ok root) (Ha : alike root d d') :
  ∃ code out err,
    main env (StatusOf share_id json) d = Some (code, out, err, d) ∧
    main env (StatusOf share_id json) d' = Some (code, out, err, d').
Proof.
  unfold main, run_cli. rewrite Hroot. simpl. unfold printing, reading. simpl.
  rewrite (alike_status root d d') by done.
  destruct (status _ _ d root _ share_id ≫= status_output json) as [out|e]; eauto.
Qed.

(** ** Tickets *)

Lemma parsed_peers peers :
  try_for (λ peer, parse_endpoint_id peer;; Ok tt) peers = Ok tt →
  ∃ ids, try_map parse_endpoint_id peers = Ok ids ∧ map endpoint_id_string ids = peers.
Proof.
  induction peers as [|p peers IH]; simpl; [by exists []|].
  destruct (parse_endpoint_id p) as [e|] eqn:E; [|done]. simpl. intros (ids & -> & <-)%IH.
  apply parse_endpoint_id_Ok in E. exists (e :: ids). simpl. by rewrite E.
Qed.

Lemma load_config_valid (fs : files) root share_id config :
  load_config fs root share_id = Ok config → ShareConfig_validate config share_id = Ok tt.
Proof.
  unfold load_config. destruct (read_state _ _ _) as [c|]; [|done]. simpl.
  destruct (ShareConfig_validate c share_id) as [[]|] eqn:E; [|done]. by intros [= <-].
Qed.

Lemma ticket_output_ends share_id text : ∃ lines, ticket_output share_id text = print_lines (lines ++ [text]).
Proof. eexists [_; _; _; _; _]. reflexivity. Qed.

(** What `ticket` answers for a configuration whose initial peers are distinct. *)
Lemma ticket_Ok d root readable selector share_id config :
  tree_ok d → resolve_share_selector d root readable selector = Ok share_id →
  load_config (dd_files d) root share_id = Ok config →
  is_array 32 (cfg_share_secret config) → NoDup (cfg_initial_peers config) →
  ∃ text t, ticket d root readable selector = Ok (share_id, text) ∧ ShareTicket_parse text = Ok t ∧
    tk_share_id t = share_id ∧ tk_share_secret t = cfg_share_secret config ∧
    map endpoint_id_string (tk_initial_peers t) ≡ₚ cfg_initial_peers config.
Proof.
  intros Htree Hr Hc Hsecret Hnd. pose proof (resolved_registered _ _ _ _ _ Htree Hr) as Hid.
  pose proof (proj2 (load_config_on_disk _ _ _ _ Hc)) as Hcid.
  apply load_config_valid in Hc as Hv. unfold ShareConfig_validate in Hv. res_inv. bool_inv.
  destruct (parsed_peers (cfg_initial_peers config)) as (ids & Hids & Hpeers); [done|].
  unfold ticket. rewrite Hr. simpl. rewrite Hc. simpl. rewrite Hids. simpl.
  pose proof (ticket_new_outcome (cfg_share_id config) (cfg_share_secret config) ids) as Ht.
  destruct (ShareTicket_new _ _ ids) as [t|]; simpl.
  - destruct Ht as (Ht1 & Ht2 & Ht3 & Ht4%ShareTicket_validate_Ok & _).
    assert (Hw : ticket_wf t) by (split; rewrite ?Ht1, ?Ht2, ?Hcid; done).
    exists (ticket_text t), t. rewrite (encode_valid t Hw Ht4). simpl.
    split_and!; try congruence; [by apply parse_ticket_text|by rewrite Ht3, Hpeers].
  - exfalso. rewrite <-Hpeers in Hnd. apply (NoDup_fmap_1 endpoint_id_string) in Hnd.
    destruct Ht as [Ht|Ht]; [done|]. unfold MAX_INITIAL_PEERS, blen in *.
    apply (f_equal length) in Hpeers. rewrite length_map in Hpeers. lia.
Qed.

(** C35: `syncbox ticket` reprints the credential of the share that was selected, whose
    configuration has a secret of 32 bytes and distinct initial peers: it succeeds, changes
    nothing, and its last line is a text that parses to a ticket with the share's ID, the
    secret of its configuration and the initial peers. *)
Theorem printed_ticket_parses (env : cli_env) root d selector share_id (config : ShareConfig)
    (Hroot : ci_root env = Ok root) (Htree : tree_ok d)
    (Hr : resolve_share_selector d root (ci_readable env) selector = Ok share_id)
    (Hc : load_config (dd_files d) root share_id = Ok config)
    (Hsecret : is_array 32 (cfg_share_secret config)) (Hnd : NoDup (cfg_initial_peers config)) :
  ∃ lines text t,
    main env (TicketOf selector) d = Some (SUCCESS, print_lines (lines ++ [text]), [], d) ∧
    ShareTicket_parse text = Ok t ∧ tk_share_id t = share_id ∧
    tk_share_secret t = cfg_share_secret config ∧
    map endpoint_id_string (tk_initial_peers t) ≡ₚ cfg_initial_peers config.
Proof.
  destruct (ticket_Ok _ _ _ _ _ _ Htree Hr Hc Hsecret Hnd) as (text & t & Ht & Hp & H').
  destruct (ticket_output_ends share_id text) as [lines Hout]. exists lines, text, t. split; [|by split].
  unfold main, run_cli. rewrite Hroot. simpl. unfold printing, reading. rewrite Ht. simpl.
  by rewrite Hout.
Qed.
End cli.

(** *** Witnesses *)

Import Ref.

Definition ex_cli_config (secret : byte) : ShareConfig := {|
  cfg_format_version := 1; cfg_share_id := ex_share; cfg_share_secret := repeat secret 32;
  cfg_name := bs "photos"; cfg_local_directory := bs "/home/photos"; cfg_created_at_ms := 0;
  cfg_initial_peers := [endpoint_id_string (endpoint "001")]; cfg_initial_sync_complete := false |}.

#[local] Instance ex_cli_configs : JsonState ShareConfig := table_state [ex_cli_config "006"; ex_cli_config "007"].
#[local] Instance ex_cli_manifest : JsonState Manifest := table_state [Manifest_empty ex_share 0].
#[local] Instance ex_cli_clock : JsonState ClockState := table_state [ClockState_new].
#[local] Instance ex_cli_peers : JsonState KnownPeers := table_state [KnownPeers_empty].
#[local] Instance ex_cli_status : JsonState RuntimeStatus := table_state [ex_runtime].
#[local] Instance ex_cli_request : Json SyncRequest := no_json _.
#[local] Instance ex_cli_response : Json SyncResponse := no_json _.
#[local] Instance ex_cli_message : Json ManifestMessage := no_json _.
#[local] Instance ex_cli_transfer : Json TransferRequest := no_json _.
#[local] Instance ex_cli_ready : Json TransferReady := no_json _.
#[local] Instance ex_cli_final : Json TransferResponse := no_json _.

Definition ex_cli_identity : identity_env :=
  {| ie_lock := ex_lock; ie_generated := repeat "002"%byte 32; ie_write := ex_env |}.
Definition ex_cli_env : cli_env := {|
  ci_root := Ok (bs "/d"); ci_runtime := true; ci_init := ex_register_env "001" ex_share; ci_join := ex_join_env;
  ci_run := {| rn_registry := ex_lock; rn_readable := true; rn_host := ex_host; rn_device := ex_lock;
               rn_shares := λ _, ex_lock; rn_identity := ex_cli_identity |};
  ci_network := λ _, ex_network_env;
  ci_remove := {| rc_registry := ex_lock; rc_readable := true; rc_share := ex_lock; rc_remove := ex_remove_env |};
  ci_status := ex_status_env; ci_identity := ex_cli_identity;
  ci_scan := {| sn_readable := true; sn_share := ex_lock; sn_identity := ex_cli_identity; sn_host := ex_host;
                sn_now_ms := 5; sn_tree := ex_tree; sn_reads := ex_reads; sn_clock := ex_env;
                sn_manifest := ex_env; sn_status := ex_env |};
  ci_random := (ex_share, repeat "006"%byte 32); ci_readable := true |}.

(** The share of [Status], with either secret. *)
Definition ex_cli_dir (text : bytes) : data_dir := {|
  dd_files := <[share_config (bs "/d") ex_share := text]> (list_to_map [
    (share_manifest (bs "/d") ex_share, bs "x"); (share_known_peers (bs "/d") ex_share, bs "x");
    (share_runtime_status (bs "/d") ex_share, bs "x"); (share_lock (bs "/d") ex_share, []);
    (identity_key (bs "/d"), repeat "005"%byte 32)]);
  dd_dirs := {[bs "/"; bs "/d"; shares_dir (bs "/d"); share_dir (bs "/d") ex_share;
               identity_dir (bs "/d"); locks_dir (bs "/d")]} |}.
Definition ex_main (command : Command) : data_dir → option (ExitCode * bytes * bytes * data_dir) :=
  main (λ _, endpoint "001") (λ _, None) (λ _, None) ex_cli_env command.

Lemma ex_alike : alike (bs "/d") (ex_cli_dir (bs "x")) (ex_cli_dir (bs "xx")).
Proof.
  split; [done| |].
  - intros q Hq. unfold ex_cli_dir. simpl dd_files.
    by rewrite !(lookup_insert_ne _ (share_config _ _)) by apply not_eq_sym, Hq.
  - intros share_id. unfold load_config, read_state, read_bounded, ex_cli_dir. simpl dd_files.
    destruct (decide (share_config (bs "/d") share_id = share_config (bs "/d") ex_share)) as [->|Hne].
    + rewrite !lookup_insert_eq. simpl.
      change (ShareConfig_validate (ex_cli_config "007") share_id) with (ShareConfig_validate (ex_cli_config "006") share_id).
      by destruct (ShareConfig_validate (ex_cli_config "006") share_id) as [[]|].
    + by rewrite !(lookup_insert_ne _ (share_config _ ex_share)) by by apply not_eq_sym.
Qed.

(** Both reports are printed, although the secrets differ. *)
Definition ex_succeeds (o : option (ExitCode * bytes * bytes * data_dir)) : bool :=
  match o with Some (SUCCESS, _, _, _) => true | _ => false end.

Lemma status_hides_secrets_witness :
  ex_succeeds (ex_main (StatusOf None false) (ex_cli_dir (bs "x"))) = true ∧
  cfg_share_secret <$> load_config (dd_files (ex_cli_dir (bs "x"))) (bs "/d") ex_share ≠
  cfg_share_secret <$> load_config (dd_files (ex_cli_dir (bs "xx"))) (bs "/d") ex_share ∧
  ∃ code out err,
    ex_main (StatusOf None false) (ex_cli_dir (bs "x")) = Some (code, out, err, ex_cli_dir (bs "x")) ∧
    ex_main (StatusOf None false) (ex_cli_dir (bs "xx")) = Some (code, out, err, ex_cli_dir (bs "xx")).
Proof.
  split; [vm_compute; reflexivity|]. split; [vm_compute; discriminate|].
  exact (status_hides_secrets (λ _, endpoint "001") (λ _, None) (λ _, None) ex_cli_env (bs "/d")
    (ex_cli_dir (bs "x")) (ex_cli_dir (bs "xx")) None false eq_refl ex_alike).
Defined.

Lemma printed_ticket_parses_witness :
  ∃ lines text t,
    ex_main (TicketOf (share_id_to_string ex_share)) (ex_cli_dir (bs "xx")) =
      Some (SUCCESS, print_lines (lines ++ [text]), [], ex_cli_dir (bs "xx")) ∧
    ShareTicket_parse text = Ok t ∧ tk_share_id t = ex_share ∧ tk_share_secret t = repeat "007"%byte 32.
Proof.
  assert (Htree : tree_ok (ex_cli_dir (bs "xx"))) by (apply tree_okb_ok; vm_compute; reflexivity).
  assert (Hr : resolve_share_selector (ex_cli_dir (bs "xx")) (bs "/d") true (share_id_to_string ex_share) = Ok ex_share)
    by (vm_compute; reflexivity).
  assert (Hc : load_config (dd_files (ex_cli_dir (bs "xx"))) (bs "/d") ex_share = Ok (ex_cli_config "007"))
    by (vm_compute; reflexivity).
  assert (Hnd : NoDup (cfg_initial_peers (ex_cli_config "007"))) by apply NoDup_singleton.
  destruct (printed_ticket_parses (λ _, endpoint "001") (λ _, None) (λ _, None) ex_cli_env (bs "/d")
    (ex_cli_dir (bs "xx")) (share_id_to_string ex_share) ex_share (ex_cli_config "007") eq_refl Htree Hr Hc eq_refl Hnd)
    as (lines & text & t & Hm & Hp & Hid & Hsecret & _).
  exists lines, text, t. split; [exact Hm|]. split; [exact Hp|]. split; [exact Hid|exact Hsecret].
Defined.
